(* ===== verification/_CoqProject ===== *)
-Q . S2P
Prelude.v
Cstring.v
Engine.v
Backlog.v
Siphash.v
Hash.v
Array.v
Expire.v
Mem.v
Resp.v
CommitWire.v
ProxyCommit.v
CommitMaster.v
Session.v
ProxyCache.v
Forwarder.v
Fullsync.v
Skiptable.v
Rbtree.v
Doc.v
Outring.v
Dump.v
Dispatch.v
Commands.v
Gates.v
Scenario.v
