(* ===== verification/Prelude.v ===== *)
(** * PocketKV: a verification library

    PocketKV (the sources under [src/kvstore/]) is a key-value server with five
    storage engines, key expiry, RESP framing, snapshots and replication.  The
    master keeps the replication stream in a ring (the backlog).  A replica that
    reconnects is caught up from the ring or with a full snapshot; in the eBPF mode
    its live updates do not come from the master but from a proxy process, which
    captures the clients' bytes in the kernel, frames them into commands, and
    forwards a command only when the master has confirmed it (the commit gate).

    ** Parts and files

    The paths are below [src/kvstore/src/] unless they say otherwise.

    - [Prelude] (this file): data conventions (bytes as integers, unsigned
      wrap-around [u8] to [u64], buffers as lists, little-endian fields), record
      updates, tactics, hint databases and the generic lemmas.
    - [Cstring]: C strings ([strlen], [strcmp], [memcmp], decimal printing and
      parsing), as far as the sources use them.
    - [Engine]: the contract of a key-value engine, as a class over finite maps;
      the engines are instances, and [Dump] and [Dispatch] use the contract.
    - [Siphash], [Hash]: [storage/kvs_hash.c], the chained hash table with
      incremental rehashing in both directions.  [Array]: [storage/kvs_array.c],
      slots with a free stack and a [Hash] index.  [Skiptable]:
      [storage/kvs_skiptable.c], over a heap of nodes.  [Rbtree]:
      [storage/kvs_rbtree.c], a red-black tree over a heap of nodes with parent
      pointers and a sentinel.  [Doc]: [storage/kvs_doc.c], documents of fields.
    - [Expire]: [expire/kvs_expire.c], the table of deadlines with its heap.
    - [Mem]: [memory/kvs_mem.c], the custom allocator: slab pages, mappings, the
      fall back to [malloc], reclaiming and the counters.
    - [Resp]: the framing of the server ([parse_resp_stream] of [main/kvstore.c]),
      that of the proxy ([pc_frame_ctx] of [ebpf_proxy/proxy_commit.c]) and the
      builders of commands and replies.
    - [Outring]: the output ring of a connection ([queue_bytes], [on_write] of
      [core/reactor.c]).
    - [Dispatch]: [handle_parsed_command] of [main/kvstore.c], from a parsed command
      over the gates to the engines, the locks, the documents, the reply and what is
      logged, fed to the backlog and broadcast; the engines appear through [Engine],
      the expiry table, documents, builders and output through [Expire], [Doc],
      [Resp] and [Outring].  [Commands] and [Gates] hold the theorems about it,
      [Scenario] an instance with concrete engines in which they are applied.
    - [Backlog]: the ring of [replication/kvs_repl.c], its offsets and the
      partial resync.
    - [CommitWire]: the messages between master and proxy
      ([include/kvstore/replication/commit_gate.h]) and their checksum.
    - [CommitMaster]: [replication/kvs_commit.c], numbering and publishing of
      commands, batches, sessions and the channel.  [ProxyCommit]:
      [ebpf_proxy/proxy_commit.c], the matching of captured commands with the
      master's descriptors.
    - [Session]: the replicas, sessions, the barrier and the REPLSYNC, REPLACK and
      REPLDONE handlers of [main/kvstore.c] and [replication/kvs_repl.c], over the
      state of [CommitMaster].
    - [ProxyCache]: [ebpf_proxy/proxy_cache.c].  [Forwarder]:
      [ebpf_proxy/main.c], the forwarding queue and thread over [ProxyCache], and
      the proxy's reactions to the master's registers.
    - [Fullsync]: the control lines of the full synchronisation
      ([replication/kvs_fullsync.c]), the switch to one-sided writes and the steps
      of [queue_snapshot] that use it, over several transfers.
    - [Dump]: the snapshot file, written by [kvs_dump_to_fd] of [main/kvstore.c]
      from [Hash], [Array], [Skiptable], [Doc] and [Expire] and read back by
      [replay_dump_file] of [persistence/kvs_persist.c].

    A file has one Module named as the file; a struct is a Record with the
    source's field names, a function a Definition with the source's name (loops
    are named after their function), and what the environment decides (clock,
    allocation, sockets, memory after [free], interleaving) is an argument: a flag,
    a list of answers or a function of the number of the call.

    ** Theorems

    - Storage: each engine returns what a finite map returns, for any sequence of
      calls ([hash_refines_map], [array_refines_map], [skiptable_refines_map],
      [doc_refines_maps], and [rbtree_refines_map] when nodes and values find
      memory); the length and end of a rehash ([hash_rehash_completes]) and the
      depth of a search in the tree ([rbtree_search_logarithmic]).
    - Memory: blocks in use are disjoint and keep their contents
      ([allocator_safe]), and the counters are those of the blocks in use
      ([allocator_accounting]).
    - Expiry: the structural invariant, and that the cycle removes exactly what is
      due, earliest first.
    - Framing: parse inverts build; the proxy frames what the server executes, and
      does so independently of the read boundaries.
    - Commands: which writes are logged, fed and broadcast and which are not
      ([acknowledged_writes_are_logged]), read after write ([set_then_get]), the
      locks ([lock_mutual_exclusion]), the replica that applies the stream
      ([replicas_converge]), the two gates ([password_gate],
      [replica_is_read_only]), the form of the replies ([replies_are_values]) and
      the one that is torn ([get_reply_torn]).  The output ring is a bounded queue
      ([reply_ring_fifo]).
    - Backlog: a partial resync that is allowed sends exactly the missing bytes,
      and one within the ring is allowed.
    - Commit gate: what leaves the proxy matches a descriptor of the master, in the
      global order, exactly once; memory is bounded; every command of the master is
      published once.
    - Sessions: the invariant of session, gate and registers; who may lower the
      barrier, and that the RESUME message is sent first; what happens on a timeout.
    - Proxy: the cache sends what it accepted, whole and in order; under all
      interleavings the queue's counters and the back-pressure signal are right;
      from a barrier on, with rounds that are not interrupted, the stream has no
      gap; progress; and the size of command for which there is no progress.
    - Snapshots: what is written is read back, with the times of expiry, on a disk
      with short writes; the hash table and the skip list are restored; a file that
      was cut off is read as far as it goes.
    - Full sync: control lines are parsed back as printed, and over any number of
      transfers a region is used only for the transfer it was announced for, unless
      a snapshot left early.

    ** Bounds and fuel

    Recursion that is not structural has fuel that is proved to be enough: the
    length of the list that shrinks ([ProxyCommit.drain_loop],
    [Resp.frame_loop]), the number of buckets ([Hash.rehash_loop]), the height of
    the heap ([Expire.sift_up_loop], [Expire.sift_down_loop]), the level of the
    list ([Skiptable]) or the number of cells of the heap ([Rbtree]).  Loops that
    wait for the environment consume one answer
    per turn; they return nothing when the answers end, which stands for a call
    that still waits.  Widths are those of the sources; where a counter could wrap
    the wrap is written out, and the theorems that need it not to say so; the slot
    counts of [Hash] are integers, which is the source's [int] below 2^30 slots.

    ** Not modelled

    - The append-only file and the background saves of
      [persistence/kvs_persist.c]: [Dispatch] takes the answer of
      [persist_append_prepare] as given, and OK also stands for a file that is
      switched off or not written at every command.
    - The commands of [main/kvstore.c] that belong to replication, snapshots,
      configuration and statistics (REPLSYNC, REPLACK and REPLDONE are in
      [Session]) and VSEARCH with [storage/kvs_vector.c] (floating point): theorems
      about commands exclude them ([Dispatch.elsewhere]).
    - The transport of the full synchronisation ([replication/kvs_repl.c]: RDMA
      queue pairs, memory registration, files), the send queues to replicas without
      the proxy, the sockets and threads of [core/], configuration and start-up,
      [replication/kvs_sentinel.c], and the spawning and watching of the proxy in
      [replication/kvs_commit.c].
    - [replication/bpf/], [replication/kvs_repl_ebpf.c] and
      [replication/kvs_repl_kprobe.c]: code that runs in the kernel or loads it,
      and the older kprobe replication.
    - [utils/hash.c], which no engine uses, [third_party/] and [vmlinux.h]: foreign
      or generated. *)

From Stdlib Require Import ZArith Lia.
From stdpp Require Export base numbers list gmap strings sorting.

#[export] Set Default Goal Selector "!".
Declare Scope kv_scope.
Delimit Scope kv_scope with kv.
Open Scope kv_scope.
Open Scope Z_scope.

(** ** Data conventions *)

(** A byte is an integer in [0, 255]; a C buffer with its length is a list. *)
Abbreviation byte := Z (only parsing).
Abbreviation bytes := (list Z).

(** Wrap-around of the unsigned machine types. *)
Definition u8 (z : Z) : Z := z mod 2 ^ 8.
Definition u16 (z : Z) : Z := z mod 2 ^ 16.
Definition u32 (z : Z) : Z := z mod 2 ^ 32.
Definition u64 (z : Z) : Z := z mod 2 ^ 64.

(** The two's complement reading of a 32-bit and of a 64-bit word. *)
Definition i32 (z : Z) : Z := (z + 2 ^ 31) mod 2 ^ 32 - 2 ^ 31.
Definition i64 (z : Z) : Z := (z + 2 ^ 63) mod 2 ^ 64 - 2 ^ 63.

Definition UINT64_MAX : Z := 2 ^ 64 - 1.
Definition UINT32_MAX : Z := 2 ^ 32 - 1.

(** [memcpy (buf + pos, src, length src)] into a buffer that is long enough. *)
Definition blit (pos : nat) (src buf : bytes) : bytes :=
  take pos buf ++ src ++ drop (pos + length src) buf.

(** [n] bytes of [buf] from index [pos] on. *)
Definition slice (pos n : nat) (buf : bytes) : bytes := take n (drop pos buf).

Notation "buf .[ i , n ]" := (slice i n buf)
  (at level 1, left associativity, format "buf .[ i , n ]") : kv_scope.

(** The bytes of an [n]-byte little-endian integer in memory, and back. *)
Fixpoint le_bytes (n : nat) (z : Z) : bytes :=
  match n with
  | O => []
  | S n' => z mod 256 :: le_bytes n' (z / 256)
  end.
Fixpoint le_val (b : bytes) : Z :=
  match b with
  | [] => 0
  | x :: r => x + 256 * le_val r
  end.

(** ** Record updates *)

(** [r <| p := v |>] is the C assignment [r.p = v]: the record rebuilt from its
    fields with the one that [p] reads replaced.  A record type opts in with an
    [Eta] instance. *)
Class Eta (R : Type) := eta : R -> R.
Class Upd {R A : Type} (p : R -> A) := upd : (A -> A) -> R -> R.
Arguments upd {R A} p {_}.
Ltac solve_upd :=
  match goal with
  | |- @Upd ?R ?A ?p =>
      let i := constr:(_ : Eta R) in
      let body := eval red in i in
      let t := constr:(fun (f : A -> A) (r : R) =>
        ltac:(let b := eval cbv beta in (body r) in
              match eval pattern (p r) in b with
              | ?g _ => let v := eval cbv beta in (g (f (p r))) in exact v
              end)) in
      exact t
  end.
#[export] Hint Extern 1 (Upd _) => solve_upd : typeclass_instances.
Notation "r <| p := v |>" := (upd p (fun _ => v) r)
  (at level 12, left associativity, p at next level, v at level 200) : kv_scope.
Notation "r <| p ::= f |>" := (upd p f r)
  (at level 12, left associativity, p at next level, f at level 200) : kv_scope.

(** The comparisons of the C code, decidable in the direction it writes them. *)
#[export] Instance Z_gt_decision (a b : Z) : Decision (a > b).
Proof. refine (cast_if (decide (b < a))); abstract lia. Defined.
#[export] Instance Z_ge_decision (a b : Z) : Decision (a >= b).
Proof. refine (cast_if (decide (b <= a))); abstract lia. Defined.
#[export] Instance nat_gt_decision (a b : nat) : Decision (a > b)%nat.
Proof. refine (cast_if (decide (b < a)%nat)); abstract lia. Defined.
#[export] Instance nat_ge_decision (a b : nat) : Decision (a >= b)%nat.
Proof. refine (cast_if (decide (b <= a)%nat)); abstract lia. Defined.

(** ** Tactics *)

(** Split every [decide] and every boolean comparison the goal branches on. *)
Ltac cases :=
  repeat (first
    [ case_decide
    | case_bool_decide
    | match goal with
      | |- context [if (?a =? ?b)%Z then _ else _] => destruct (Z.eqb_spec a b)
      | |- context [if (?a <? ?b)%Z then _ else _] => destruct (Z.ltb_spec a b)
      | |- context [if (?a <=? ?b)%Z then _ else _] => destruct (Z.leb_spec a b)
      end ]; simplify_eq/=).

Create HintDb kv.
Create Rewrite HintDb kv_simpl.
#[export] Hint Extern 1 (_ < _) => lia : kv.
#[export] Hint Extern 1 (_ <= _) => lia : kv.
#[export] Hint Extern 1 (_ < _)%nat => lia : kv.
#[export] Hint Extern 1 (_ <= _)%nat => lia : kv.

(** ** Machine integers *)

Lemma u64_small (z : Z) : 0 <= z < 2 ^ 64 -> u64 z = z.
Proof. intros H. unfold u64. by apply Z.mod_small. Qed.

Lemma u64_range (z : Z) : 0 <= u64 z < 2 ^ 64.
Proof. unfold u64. apply Z.mod_pos_bound. lia. Qed.

Lemma u32_small (z : Z) : 0 <= z < 2 ^ 32 -> u32 z = z.
Proof. intros H. unfold u32. by apply Z.mod_small. Qed.

Lemma u32_range (z : Z) : 0 <= u32 z < 2 ^ 32.
Proof. unfold u32. apply Z.mod_pos_bound. lia. Qed.

Lemma i64_small (z : Z) : - 2 ^ 63 <= z < 2 ^ 63 -> i64 z = z.
Proof. intros H. unfold i64. rewrite Z.mod_small; lia. Qed.

(** A sum below twice the modulus wraps at most once. *)
Lemma mod_wrap (a c : nat) :
  (a < 2 * c)%nat -> (a `mod` c)%nat = if decide (a < c)%nat then a else (a - c)%nat.
Proof.
  intros H. case_decide as Hd.
  - by apply Nat.mod_small.
  - replace a with ((a - c) + 1 * c)%nat at 1 by lia.
    rewrite Nat.Div0.mod_add. apply Nat.mod_small. lia.
Qed.

(** ** Buffers *)

Lemma length_blit pos (src buf : bytes) :
  (pos + length src <= length buf)%nat -> length (blit pos src buf) = length buf.
Proof.
  intros H. unfold blit. rewrite !length_app, length_take, length_drop. lia.
Qed.

Lemma lookup_blit pos (src buf : bytes) i :
  (pos + length src <= length buf)%nat ->
  blit pos src buf !! i =
    if decide (pos <= i < pos + length src)%nat then src !! (i - pos)%nat else buf !! i.
Proof.
  intros H. unfold blit. case_decide as Hd.
  - rewrite lookup_app_r by (rewrite length_take; lia).
    rewrite length_take, lookup_app_l by lia. f_equal. lia.
  - destruct (decide (i < pos)%nat).
    + rewrite lookup_app_l by (rewrite length_take; lia). by rewrite lookup_take_lt by lia.
    + rewrite lookup_app_r by (rewrite length_take; lia).
      rewrite length_take, lookup_app_r by lia.
      rewrite lookup_drop. f_equal. lia.
Qed.

Lemma length_slice pos n (buf : bytes) :
  (pos + n <= length buf)%nat -> length (slice pos n buf) = n.
Proof. intros H. unfold slice. rewrite length_take, length_drop. lia. Qed.

Lemma lookup_slice pos n (buf : bytes) i :
  slice pos n buf !! i = if decide (i < n)%nat then buf !! (pos + i)%nat else None.
Proof.
  unfold slice. case_decide.
  - by rewrite lookup_take_lt, lookup_drop by lia.
  - by rewrite lookup_take_ge by lia.
Qed.

Lemma length_le_bytes n z : length (le_bytes n z) = n.
Proof. revert z. induction n; intros; cbn; auto. Qed.

Lemma le_val_bytes n z : 0 <= z < 256 ^ Z.of_nat n -> le_val (le_bytes n z) = z.
Proof.
  revert z. induction n as [|n IH]; intros z Hz; cbn [le_bytes le_val].
  - cbn in Hz. lia.
  - rewrite IH; [pose proof (Z.div_mod z 256); lia|].
    rewrite Nat2Z.inj_succ, Z.pow_succ_r in Hz by lia.
    split; [apply Z.div_pos; lia|]. apply Z.div_lt_upper_bound; lia.
Qed.

(** Reading a field out of a concatenation of fields. *)
Lemma slice_skip (a b : bytes) pos n :
  (length a <= pos)%nat -> slice pos n (a ++ b) = slice (pos - length a) n b.
Proof. intros H. unfold slice. by rewrite drop_app_ge. Qed.
Lemma slice_here (a b : bytes) n : n = length a -> slice 0 n (a ++ b) = a.
Proof. intros ->. unfold slice. rewrite drop_0. apply take_app_length. Qed.
Lemma slice_all (a : bytes) n : n = length a -> slice 0 n a = a.
Proof. intros ->. unfold slice. rewrite drop_0. by rewrite firstn_all. Qed.

(** ** Lists of lists *)

Lemma elem_of_concat {A} (x : A) (ls : list (list A)) :
  x ∈ concat ls <-> exists l, x ∈ l /\ l ∈ ls.
Proof.
  rewrite list_elem_of_In, in_concat. split; intros (l & ? & ?); exists l;
    rewrite ?list_elem_of_In in *; done.
Qed.

Lemma delete_of_insert {A} (l : list A) i x : delete i (<[i := x]> l) = delete i l.
Proof.
  rewrite !delete_take_drop. by rewrite take_insert_ge, drop_insert_lt by lia.
Qed.

(** A concatenation with one of its lists taken out or replaced. *)
Lemma concat_middle {A} (ls : list (list A)) i c :
  ls !! i = Some c ->
  exists R, concat ls ≡ₚ c ++ R /\ forall c', concat (<[i:=c']> ls) ≡ₚ c' ++ R.
Proof.
  intros Hi. exists (concat (take i ls) ++ concat (drop (S i) ls)).
  pose proof (lookup_lt_Some _ _ _ Hi). split.
  - rewrite <- (take_drop_middle ls i c) at 1 by done.
    rewrite concat_app. cbn. solve_Permutation.
  - intros c'. rewrite insert_take_drop by done. rewrite concat_app. cbn. solve_Permutation.
Qed.

#[export] Hint Rewrite length_blit length_slice using lia : kv_simpl.
