(* ===== verification/Cstring.v ===== *)
(** * Cstring: the C string and number conversions the program uses

    C strings, [strcmp], the ["%d"] / ["%llu"] / ["%zu"] conversions of
    [snprintf], [atoi] and [strtoull], as the C library defines them for base
    ten, and the round trip between printing and reading numbers. *)


From S2P Require Import Prelude.

(** A string literal of the source as bytes. *)
Fixpoint str (s : string) : bytes :=
  match s with
  | EmptyString => []
  | String a r => Z.of_N (Ascii.N_of_ascii a) :: str r
  end.
Arguments str s%_string_scope.

(** The bytes of a buffer up to its first NUL. *)
Fixpoint cstr (b : bytes) : bytes :=
  match b with
  | [] => []
  | x :: r => if decide (x = 0) then [] else x :: cstr r
  end.

(** Byte strings a [char *] can carry: bytes, none of them NUL. *)
Definition cstr_ok (b : bytes) : Prop := Forall (fun x => 1 <= x <= 255) b.

(** The sign of [strcmp]. *)
Fixpoint strcmp (a b : bytes) : Z :=
  match a, b with
  | [], [] => 0
  | [], _ => -1
  | _, [] => 1
  | x :: a', y :: b' =>
      if decide (x < y) then -1 else if decide (y < x) then 1 else strcmp a' b'
  end.

Definition CR : Z := 13.
Definition LF : Z := 10.
Definition crlf : bytes := [CR; LF].

(** ** Printing *)

Fixpoint digits (fuel : nat) (n : Z) : bytes :=
  match fuel with
  | O => []
  | S f => if decide (n < 10) then [48 + n] else digits f (n / 10) ++ [48 + n mod 10]
  end.

(** The decimal form of a number that is not negative; [Z.log2] bounds the
    number of digits. *)
Definition dec (n : Z) : bytes := digits (S (Z.to_nat (Z.log2 n))) n.

(** The decimal form of any number (["%d"], ["%lld"]). *)
Definition sdec (n : Z) : bytes := if decide (n < 0) then 45 :: dec (- n) else dec n.

(** ** Reading *)

Definition is_digit (c : Z) : bool := bool_decide (48 <= c <= 57).
Definition is_space (c : Z) : bool := bool_decide (c = 32 \/ 9 <= c <= 13).

(** The number a run of digits spells, read from the left, and what follows. *)
Fixpoint read_digits (acc : Z) (b : bytes) : Z * bytes :=
  match b with
  | c :: r => if is_digit c then read_digits (acc * 10 + (c - 48)) r else (acc, b)
  | [] => (acc, [])
  end.

Fixpoint skip_spaces (b : bytes) : bytes :=
  match b with
  | c :: r => if is_space c then skip_spaces r else b
  | [] => []
  end.

(** Sign and magnitude of the longest decimal prefix. *)
Definition read_signed (b : bytes) : bool * Z :=
  match skip_spaces b with
  | 45 :: r => (true, fst (read_digits 0 r))
  | 43 :: r => (false, fst (read_digits 0 r))
  | r => (false, fst (read_digits 0 r))
  end.

(** [strtol] clamps to the range of [long]; [atoi] is its value cast to [int]. *)
Definition strtol (b : bytes) : Z :=
  let '(neg, v) := read_signed b in
  let v := if neg : bool then - v else v in
  Z.max (- 2 ^ 63) (Z.min (2 ^ 63 - 1) v).
Definition atoi (b : bytes) : Z := i32 (strtol b).

(** [strtoull] saturates at ULLONG_MAX and negates modulo 2^64. *)
Definition strtoull (b : bytes) : Z :=
  let '(neg, v) := read_signed b in
  if decide (v > UINT64_MAX) then UINT64_MAX else if neg : bool then u64 (- v) else v.

#[global] Arguments dec : simpl never.
#[global] Arguments sdec : simpl never.
#[global] Arguments atoi : simpl never.
#[global] Arguments strtoull : simpl never.

(** ** Lemmas *)

Lemma is_digit_spec c : is_digit c = true <-> 48 <= c <= 57.
Proof. unfold is_digit. by rewrite bool_decide_eq_true. Qed.

Lemma i32_small z : - 2 ^ 31 <= z < 2 ^ 31 -> i32 z = z.
Proof. intros H. unfold i32. rewrite Z.mod_small; lia. Qed.

Lemma i32_range z : - 2 ^ 31 <= i32 z < 2 ^ 31.
Proof. unfold i32. pose proof (Z.mod_pos_bound (z + 2 ^ 31) (2 ^ 32)). lia. Qed.

(** A digit run is read to its end. *)
Lemma read_digits_app acc ds rest :
  Forall (fun c => 48 <= c <= 57) ds ->
  read_digits acc (ds ++ rest) = read_digits (fst (read_digits acc ds)) rest.
Proof.
  intros H. revert acc. induction H as [|c ds Hc _ IH]; intros acc; [done|].
  cbn. rewrite (proj2 (is_digit_spec c)) by done. apply IH.
Qed.

Lemma read_digits_stop acc c rest :
  ~ 48 <= c <= 57 -> read_digits acc (c :: rest) = (acc, c :: rest).
Proof. intros H. cbn. unfold is_digit. by rewrite bool_decide_eq_false_2. Qed.

Lemma digits_digit fuel n : 0 <= n -> Forall (fun c => 48 <= c <= 57) (digits fuel n).
Proof.
  revert n. induction fuel as [|f IH]; intros n Hn; cbn; [done|]. case_decide.
  - constructor; [lia|done].
  - apply Forall_app. split; [apply IH; apply Z.div_pos; lia|].
    pose proof (Z.mod_pos_bound n 10). constructor; [lia|done].
Qed.

Lemma dec_digit n : 0 <= n -> Forall (fun c => 48 <= c <= 57) (dec n).
Proof. apply digits_digit. Qed.

Lemma digits_value fuel n :
  0 <= n -> (Z.to_nat (Z.log2 n) < fuel)%nat -> fst (read_digits 0 (digits fuel n)) = n.
Proof.
  revert n. induction fuel as [|f IH]; intros n Hn Hf; [lia|]. cbn. case_decide.
  - cbn. rewrite (proj2 (is_digit_spec (48 + n))) by lia. cbn. lia.
  - assert (0 <= n / 10) by (apply Z.div_pos; lia).
    pose proof (Z.mod_pos_bound n 10).
    rewrite read_digits_app by (by apply digits_digit). rewrite IH; [|done|].
    + cbn. rewrite (proj2 (is_digit_spec (48 + n mod 10))) by lia. cbn.
      pose proof (Z.div_mod n 10). lia.
    + pose proof (Z.log2_nonneg (n / 10)).
      assert (Z.log2 (n / 10) <= Z.log2 (n / 2)) as Hle.
      { apply Z.log2_le_mono. apply Z.div_le_compat_l; lia. }
      assert (n / 2 = Z.shiftr n 1) as Hs by (by rewrite Z.shiftr_div_pow2).
      rewrite Hs, Z.log2_shiftr in Hle by lia.
      assert (0 < Z.log2 n) by (apply Z.log2_pos; lia). lia.
Qed.

Lemma dec_value n : 0 <= n -> fst (read_digits 0 (dec n)) = n.
Proof. intros H. apply digits_value; [done|lia]. Qed.

Lemma dec_cons n : 0 <= n -> exists c r, dec n = c :: r /\ 48 <= c <= 57.
Proof.
  intros Hn. pose proof (dec_digit n Hn) as Hd. pose proof (dec_value n Hn) as Hv.
  destruct (dec n) as [|c r] eqn:E.
  - unfold dec in E. cbn in E. case_decide; [done|]. by destruct (digits _ _).
  - inversion Hd; eauto.
Qed.

Lemma dec_inj a b : 0 <= a -> 0 <= b -> dec a = dec b -> a = b.
Proof. intros Ha Hb E. rewrite <- (dec_value a Ha), <- (dec_value b Hb). by rewrite E. Qed.

(** A number printed and read back, whatever follows that is not a digit. *)
Lemma read_signed_dec n : 0 <= n -> read_signed (dec n) = (false, n).
Proof.
  intros Hn. destruct (dec_cons n Hn) as (c & r & E & Hc).
  assert (skip_spaces (dec n) = dec n) as Hs.
  { rewrite E. cbn. unfold is_space. rewrite bool_decide_eq_false_2; [done|lia]. }
  unfold read_signed. rewrite Hs. rewrite <- (dec_value n Hn) at 2.
  rewrite E. repeat case_match; try done; lia.
Qed.

Lemma atoi_dec n : 0 <= n < 2 ^ 31 -> atoi (dec n) = n.
Proof.
  intros Hn. unfold atoi, strtol. rewrite read_signed_dec by lia. rewrite i32_small; lia.
Qed.

Lemma strtoull_dec n : 0 <= n < 2 ^ 64 -> strtoull (dec n) = n.
Proof.
  intros Hn. unfold strtoull. rewrite read_signed_dec by lia.
  unfold UINT64_MAX. rewrite decide_False; lia.
Qed.

Lemma dec_cstr_ok n : 0 <= n -> cstr_ok (dec n).
Proof. intros Hn. eapply Forall_impl; [by apply dec_digit|]. cbn. lia. Qed.

Lemma cstr_id b : cstr_ok b -> cstr b = b.
Proof.
  induction 1 as [|x b Hx _ IH]; [done|]. cbn. rewrite decide_False by lia. by rewrite IH.
Qed.

Lemma strcmp_refl a : strcmp a a = 0.
Proof. induction a; cbn; [done|]. by rewrite !decide_False by lia. Qed.

Lemma strcmp_eq a b : strcmp a b = 0 <-> a = b.
Proof.
  split; [|intros ->; apply strcmp_refl].
  revert b. induction a as [|x a IH]; intros [|y b]; cbn; try done.
  repeat case_decide; try done. intros H'. f_equal; [lia|auto].
Qed.

Lemma strcmp_antisym a b : strcmp a b = - strcmp b a.
Proof.
  revert b. induction a as [|x a IH]; intros [|y b]; cbn; try done.
  repeat case_decide; try done; lia.
Qed.

Lemma strcmp_trans a b c : strcmp a b < 0 -> strcmp b c < 0 -> strcmp a c < 0.
Proof.
  revert b c. induction a as [|x a IH]; intros [|y b] [|z c]; cbn; try done; try lia.
  repeat case_decide; try lia. eauto.
Qed.

Lemma strcmp_cases a b : strcmp a b = -1 \/ strcmp a b = 0 \/ strcmp a b = 1.
Proof.
  revert b. induction a as [|x a IH]; intros [|y b]; cbn; auto.
  repeat case_decide; auto.
Qed.

#[export] Hint Resolve dec_cstr_ok strcmp_refl : kv.
