(* ===== verification/Engine.v ===== *)
(** * Engine: what a key-value engine promises to its callers

    The commands SET, GET, MOD, DEL and EXIST reach the array, hash, tree and
    skip-table engines through the same five calls ([engine_set] and the like
    in [src/main/kvstore.c]).  This file states the contract of those calls as
    steps over a finite map, and, as a class, what an engine has to prove to
    meet it.  Clients are proved against the class. *)

From S2P Require Import Prelude Cstring.

Inductive op :=
  | OSet (k v : bytes)
  | OGet (k : bytes)
  | OMod (k v : bytes)
  | ODel (k : bytes)
  | OExist (k : bytes).

(** A return code, or the string [get] returns ([None] for NULL). *)
Inductive res :=
  | RCode (rc : Z)
  | RVal (v : option bytes).

(** The contract: 0 is done, 1 is not found, a negative code is a failure that
    leaves the map as it was. *)
Inductive spec_step (m : gmap bytes bytes) : op -> res -> gmap bytes bytes -> Prop :=
  | sp_set k v : spec_step m (OSet k v) (RCode 0) (<[k := v]> m)
  | sp_set_fail k v rc : rc < 0 -> spec_step m (OSet k v) (RCode rc) m
  | sp_get k : spec_step m (OGet k) (RVal (m !! k)) m
  | sp_mod k v : is_Some (m !! k) -> spec_step m (OMod k v) (RCode 0) (<[k := v]> m)
  | sp_mod_none k v : m !! k = None -> spec_step m (OMod k v) (RCode 1) m
  | sp_mod_fail k v rc : is_Some (m !! k) -> rc < 0 -> spec_step m (OMod k v) (RCode rc) m
  | sp_del k : is_Some (m !! k) -> spec_step m (ODel k) (RCode 0) (delete k m)
  | sp_del_none k : m !! k = None -> spec_step m (ODel k) (RCode 1) m
  | sp_exist k : is_Some (m !! k) -> spec_step m (OExist k) (RCode 0) m
  | sp_exist_none k : m !! k = None -> spec_step m (OExist k) (RCode 1) m.

Inductive spec_run : gmap bytes bytes -> list op -> list res -> gmap bytes bytes -> Prop :=
  | spec_nil m : spec_run m [] [] m
  | spec_cons m o r m' os rs m'' :
      spec_step m o r m' -> spec_run m' os rs m'' -> spec_run m (o :: os) (r :: rs) m''.

(** Keys and values reach the engines as C strings. *)
Definition op_ok (o : op) : Prop :=
  match o with
  | OSet k v | OMod k v => cstr_ok k /\ cstr_ok v
  | OGet k | ODel k | OExist k => cstr_ok k
  end.

(** An engine over states [St], with what its environment decides ([Ev]:
    allocation results, random numbers) given per call. *)
Class Engine (St Ev : Type) := {
  engine_wf : St -> Prop;
  engine_abs : St -> gmap bytes bytes;
  (** The capacity a call needs. *)
  engine_room : op -> St -> Prop;
  engine_exec : Ev -> op -> St -> res * St;
  engine_step : forall e o s,
    engine_wf s -> engine_room o s -> op_ok o ->
    engine_wf (engine_exec e o s).2 /\
    spec_step (engine_abs s) o (engine_exec e o s).1 (engine_abs (engine_exec e o s).2);
}.

Section Run.

Context {St Ev : Type} `{!Engine St Ev}.

Fixpoint engine_run (es : list (Ev * op)) (s : St) : list res * St :=
  match es with
  | [] => ([], s)
  | (e, o) :: r =>
      let '(x, s') := engine_exec e o s in
      let '(xs, s'') := engine_run r s' in (x :: xs, s'')
  end.

(** There is room for every call of the run. *)
Fixpoint run_room (es : list (Ev * op)) (s : St) : Prop :=
  match es with
  | [] => True
  | (e, o) :: r => engine_room o s /\ run_room r (engine_exec e o s).2
  end.

(** Any sequence of calls is a run of the contract. *)
Lemma engine_run_refines es s :
  engine_wf s -> run_room es s -> Forall (fun p => op_ok p.2) es ->
  engine_wf (engine_run es s).2 /\
  spec_run (engine_abs s) (snd <$> es) (engine_run es s).1 (engine_abs (engine_run es s).2).
Proof.
  revert s. induction es as [|[e o] es IH]; intros s Hwf Hr Hok; cbn.
  - split; [done|constructor].
  - destruct Hr as [Hr1 Hr2]. inversion Hok; subst.
    destruct (engine_step e o s Hwf Hr1) as [Hwf' Hst]; [done|].
    destruct (engine_exec e o s) as [x s']. cbn in *.
    destruct (IH s' Hwf' Hr2) as [Hwf'' Hrun]; [done|].
    destruct (engine_run es s') as [xs s'']. cbn in *. split; [done|]. by econstructor.
Qed.

(** The size of the map grows by at most one per call. *)
Lemma spec_step_size m o r m' : spec_step m o r m' -> (size m' <= S (size m))%nat.
Proof.
  destruct 1; rewrite ?map_size_insert, ?map_size_delete; repeat case_match; cbn; lia.
Qed.

End Run.

(** How many more calls a state is sure to have room for. *)
Class Capacity (St Ev : Type) `{!Engine St Ev} := {
  capacity : nat -> St -> Prop;
  capacity_le : forall n m s, (n <= m)%nat -> capacity m s -> capacity n s;
  capacity_room : forall n o s, capacity (S n) s -> engine_room o s;
  capacity_step : forall n e o s,
    engine_wf s -> capacity (S n) s -> op_ok o -> capacity n (engine_exec e o s).2;
}.

(** An engine whose values carry their length: [set_len] and [get_len] store and
    read any bytes, the calls on C strings see a value up to its first NUL. *)
Class Blob (St Ev : Type) `{!Engine St Ev} `{!Capacity St Ev} := {
  blob_abs : St -> gmap bytes bytes;
  set_len : Ev -> bytes -> bytes -> St -> Z * St;
  get_len : Ev -> bytes -> St -> option bytes * St;
  blob_abs_str : forall s, engine_abs s = cstr <$> blob_abs s;
  blob_step : forall e o s,
    engine_wf s -> engine_room o s -> op_ok o ->
    let s' := (engine_exec e o s).2 in
    match o with
    | OGet k => blob_abs s' = blob_abs s
    | _ => spec_step (blob_abs s) o (engine_exec e o s).1 (blob_abs s')
    end;
  set_len_step : forall n e k v s,
    engine_wf s -> capacity (S n) s ->
    let '(rc, s') := set_len e k v s in
    engine_wf s' /\ capacity n s' /\ spec_step (blob_abs s) (OSet k v) (RCode rc) (blob_abs s');
  get_len_step : forall n e k s,
    engine_wf s -> capacity n s ->
    let '(v, s') := get_len e k s in
    engine_wf s' /\ capacity n s' /\ v = blob_abs s !! k /\ blob_abs s' = blob_abs s;
}.
