(* ===== verification/Backlog.v ===== *)
(** * Backlog: the master's replication history

    Models the replication backlog of [src/replication/kvs_repl.c]: the ring
    buffer [repl_backlog_t], its allocation, [repl_backlog_reset],
    [repl_backlog_feed], [repl_backlog_copy_range], the bounded replay
    [repl_backlog_write_range_upto] and the partial-resync decision
    [repl_backlog_can_continue], together with the offset counter of
    [repl_note_broadcast].  The theorems state that the ring holds the newest
    bytes of the write stream at the offsets it claims, and that a partial
    resync that is allowed replays exactly the bytes the replica misses. *)

From S2P Require Import Prelude Cstring.

Module Backlog.

(** [repl_backlog_t].  [buf] is [None] while the block is not allocated. *)
Record repl_backlog_t := mk_backlog {
  buf : option bytes;
  cap : nat;
  histlen : nat;
  head : nat;
  start_offset : Z;
  end_offset : Z;
}.

(** The globals of kvs_repl.c the backlog functions read and write:
    [g_repl_backlog], [g_repl_backlog_contiguous], [g_master_repl_offset],
    [g_repl_broadcast_bytes], [g_master_replid], and the number of connections
    linked in [g_replicas]. *)
Record master := mk_master {
  backlog : repl_backlog_t;
  contiguous : bool;
  master_repl_offset : Z;
  broadcast_bytes : Z;
  master_replid : bytes;
  replicas : nat;
}.

Definition set_backlog (b : repl_backlog_t) (s : master) : master :=
  mk_master b (contiguous s) (master_repl_offset s) (broadcast_bytes s)
    (master_replid s) (replicas s).

Definition set_contiguous (c : bool) (s : master) : master :=
  mk_master (backlog s) c (master_repl_offset s) (broadcast_bytes s)
    (master_replid s) (replicas s).

(** The globals at program start. *)
Definition master_init (replid : bytes) : master :=
  mk_master (mk_backlog None 0 0 0 0 0) true 0 0 replid 0.

Section Ops.

(** KVS_REPL_BACKLOG_SIZE; the code fixes it at 10 MiB ([backlog_size] below). *)
Context (KVS_REPL_BACKLOG_SIZE : nat).

(** [ensure_repl_backlog]; [m] is what [kvs_malloc] returns, [None] for NULL
    and otherwise a block with arbitrary contents. *)
Definition ensure_repl_backlog (m : option bytes) (s : master) : Z * master :=
  match buf (backlog s) with
  | Some _ => (0, s)
  | None =>
      match m with
      | None => (-1, s)
      | Some blk =>
          (0, set_backlog
                (mk_backlog (Some blk) KVS_REPL_BACKLOG_SIZE 0 0
                   (master_repl_offset s) (master_repl_offset s)) s)
      end
  end.

(** [repl_backlog_reset]. *)
Definition repl_backlog_reset (base : Z) (s : master) : master :=
  let b := backlog s in
  let b' := match buf b with
            | Some _ => mk_backlog (buf b) (cap b) 0 0 base base
            | None => mk_backlog None (cap b) (histlen b) (head b) base base
            end in
  set_contiguous true (set_backlog b' s).

(** The two [memcpy]s of the wrap-around write. *)
Definition ring_write (b : repl_backlog_t) (blk data : bytes) : bytes :=
  let tail := ((head b + histlen b) `mod` cap b)%nat in
  let first := Nat.min (cap b - tail) (length data) in
  let blk1 := blit tail (take first data) blk in
  if decide (length data > first)%nat then blit 0 (drop first data) blk1 else blk1.

(** The part of [repl_backlog_feed] that runs once there is a ring. *)
Definition feed_data (data : bytes) (s : master) : Z * master :=
  let b := backlog s in
  match buf b with
  | None => (-1, s)
  | Some blk =>
      if decide (length data >= cap b)%nat then
        let data' := drop (length data - cap b) data in
        let e := u64 (end_offset b + Z.of_nat (cap b)) in
        (0, set_backlog
              (mk_backlog (Some (blit 0 data' blk)) (cap b) (cap b) 0
                 (u64 (e - Z.of_nat (cap b))) e) s)
      else
        let blk' := ring_write b blk data in
        let '(h, hl) :=
          if decide (histlen b + length data <= cap b)%nat
          then (head b, (histlen b + length data)%nat)
          else (((head b + (histlen b + length data - cap b)) `mod` cap b)%nat, cap b) in
        let e := u64 (end_offset b + Z.of_nat (length data)) in
        (0, set_backlog
              (mk_backlog (Some blk') (cap b) hl h (u64 (e - Z.of_nat hl)) e) s)
  end.

(** [repl_backlog_feed]. *)
Definition repl_backlog_feed (m : option bytes) (data : bytes) (s : master) : Z * master :=
  if decide (length data = 0%nat) then (0, s)
  else if decide (replicas s = 0%nat) then (0, set_contiguous false s)
  else
    let '(rc, s1) := ensure_repl_backlog m s in
    if decide (rc <> 0) then (-1, s1) else feed_data data s1.

(** [repl_note_broadcast]. *)
Definition repl_note_broadcast (n : nat) (s : master) : master :=
  mk_master (backlog s) (contiguous s)
    (u64 (master_repl_offset s + Z.of_nat n))
    (u64 (broadcast_bytes s + Z.of_nat n)) (master_replid s) (replicas s).

(** The feed and the count of one successful engine write, in the order
    [handle_parsed_command] makes them. *)
Definition note_write (m : option bytes) (raw : bytes) (s : master) : master :=
  repl_note_broadcast (length raw) (snd (repl_backlog_feed m raw s)).

(** [ensure_master_replid]: the id is five words in hexadecimal, drawn once.
    The words (clock, pid, an address, thread) are arguments. *)
Definition hex_digit (n : Z) : Z := if decide (n < 10) then 48 + n else 87 + n.
Definition hex8 (n : Z) : bytes :=
  map (fun i => hex_digit (Z.land (Z.shiftr n (4 * i)) 15)) [7; 6; 5; 4; 3; 2; 1; 0].
Definition ensure_master_replid (words : Z * Z * Z * Z * Z) (s : master) : master :=
  if decide (master_replid s <> []) then s
  else
    let '(a, b, c, d, e) := words in
    mk_master (backlog s) (contiguous s) (master_repl_offset s) (broadcast_bytes s)
      (hex8 a ++ hex8 b ++ hex8 c ++ hex8 d ++ hex8 e) (replicas s).

(** The bytes between ring index [start_index] and [len] further, in the one
    or two pieces the code copies or sends. *)
Definition ring_pieces (b : repl_backlog_t) (blk : bytes) (start_index len : nat) : list bytes :=
  if decide (start_index + len <= cap b)%nat then [slice start_index len blk]
  else
    let part1 := (cap b - start_index)%nat in
    [slice start_index part1 blk; slice 0 (len - part1) blk].
Definition ring_read (b : repl_backlog_t) (blk : bytes) (start_index len : nat) : bytes :=
  concat (ring_pieces b blk start_index len).

(** The calls of [repl_send_chunked] on one piece after the other, up to the
    first that fails; [send] is the outcome of a call (0 or -1). *)
Fixpoint send_pieces (send : bytes -> Z) (ps : list bytes) : Z * bytes :=
  match ps with
  | [] => (0, [])
  | p :: r =>
      if decide (send p <> 0) then (-1, [])
      else let '(rc, out) := send_pieces send r in (rc, p ++ out)
  end.

(** [repl_backlog_copy_range]: [None] is the return value -1, [Some d] the
    return value 0 with [*out_buf], [*out_len] describing [d]; [alloc] tells
    whether [kvs_malloc] succeeds. *)
Definition repl_backlog_copy_range (alloc : bool) (offset : Z) (s : master) : option bytes :=
  let b := backlog s in
  match buf b with
  | None => None
  | Some blk =>
      if decide (offset < start_offset b \/ offset > end_offset b) then None
      else
        let delta := Z.to_nat (offset - start_offset b) in
        let start_index := ((head b + delta) `mod` cap b)%nat in
        let len := (histlen b - delta)%nat in
        if decide (len = 0%nat) then Some []
        else if alloc then Some (ring_read b blk start_index len) else None
  end.

(** [repl_backlog_write_range]: the return value, the bytes sent, and the new
    [c->repl_offset_sent] when the call sets it. *)
Definition repl_backlog_write_range (send : bytes -> Z) (offset : Z) (s : master) :
    Z * bytes * option Z :=
  let b := backlog s in
  match buf b with
  | None => (-1, [], None)
  | Some blk =>
      if decide (offset < start_offset b \/ offset > end_offset b) then (-1, [], None)
      else
        let delta := Z.to_nat (offset - start_offset b) in
        let start_index := ((head b + delta) `mod` cap b)%nat in
        let first := (histlen b - delta)%nat in
        if decide (first = 0%nat) then (0, [], None)
        else
          let '(rc, out) := send_pieces send (ring_pieces b blk start_index first) in
          if decide (rc <> 0) then (-1, out, None) else (0, out, Some (end_offset b))
  end.

(** [repl_backlog_write_range_upto]: the same with a bound. *)
Definition repl_backlog_write_range_upto (send : bytes -> Z) (offset end_ : Z) (s : master) :
    Z * bytes * option Z :=
  let b := backlog s in
  match buf b with
  | None => (-1, [], None)
  | Some blk =>
      if decide (offset < start_offset b \/ offset > end_offset b) then (-1, [], None)
      else
        let end' := if decide (end_ > end_offset b) then end_offset b else end_ in
        if decide (end' <= offset) then (0, [], Some end')
        else
          let delta := Z.to_nat (offset - start_offset b) in
          let first := Z.to_nat (end' - offset) in
          let start_index := ((head b + delta) `mod` cap b)%nat in
          let '(rc, out) := send_pieces send (ring_pieces b blk start_index first) in
          if decide (rc <> 0) then (-1, out, None) else (0, out, Some end')
  end.

(** The "+CONTINUE <replid> <offset>" line. *)
Definition continue_header (replid : bytes) (end_ : Z) : bytes :=
  str "+CONTINUE " ++ replid ++ str " " ++ dec end_ ++ crlf.

(** [repl_backlog_send_continue_upto] and [repl_backlog_send_continue];
    [repl_master_id] makes sure that there is an id. *)
Definition repl_backlog_send_continue_upto (words : Z * Z * Z * Z * Z) (send : bytes -> Z)
    (offset end_ : Z) (s : master) : Z * bytes * option Z :=
  let b := backlog s in
  match buf b with
  | None => (-1, [], None)
  | Some _ =>
      if decide (offset < start_offset b \/ offset > end_offset b) then (-1, [], None)
      else
        let end1 := if decide (end_ > end_offset b) then end_offset b else end_ in
        let end2 := if decide (end1 < offset) then offset else end1 in
        let hdr := continue_header (master_replid (ensure_master_replid words s)) end2 in
        if decide (send hdr <> 0) then (-1, [], None)
        else
          let '(rc, out, o) := repl_backlog_write_range_upto send offset end2 s in
          (rc, hdr ++ out, o)
  end.

Definition repl_backlog_send_continue (words : Z * Z * Z * Z * Z) (send : bytes -> Z)
    (offset : Z) (s : master) : Z * bytes * option Z :=
  let b := backlog s in
  match buf b with
  | None => (-1, [], None)
  | Some _ =>
      if decide (offset < start_offset b \/ offset > end_offset b) then (-1, [], None)
      else
        let hdr := continue_header (master_replid (ensure_master_replid words s)) (end_offset b) in
        if decide (send hdr <> 0) then (-1, [], None)
        else
          let '(rc, out, o) := repl_backlog_write_range send offset s in
          (rc, hdr ++ out, o)
  end.

(** [repl_backlog_can_continue]; the call also draws the replication id. *)
Definition repl_backlog_can_continue (words : Z * Z * Z * Z * Z) (replid : bytes)
    (offset : Z) (s : master) : bool * master :=
  let s := ensure_master_replid words s in
  let b := backlog s in
  (if decide (strcmp replid (master_replid s) <> 0) then false
   else if decide (buf b = None) then false
   else if negb (contiguous s) then false
   else if decide (end_offset b < master_repl_offset s) then false
   else if decide (offset > end_offset b) then false
   else bool_decide (offset >= start_offset b), s).

End Ops.

(** The size the code uses. *)
Definition backlog_size : nat := Z.to_nat (10 * 1024 * 1024).

(** ** The write stream and what the ring promises about it *)

(** The bytes the ring holds, oldest first. *)
Definition content (b : repl_backlog_t) (blk : bytes) : bytes :=
  ring_read b blk (head b) (histlen b).

(** The shape of an allocated ring. *)
Record ring_ok (b : repl_backlog_t) (blk : bytes) : Prop := {
  rok_len : length blk = cap b;
  rok_cap : (0 < cap b)%nat;
  rok_head : (head b < cap b)%nat;
  rok_hist : (histlen b <= cap b)%nat;
  rok_start : start_offset b = end_offset b - Z.of_nat (histlen b);
  rok_nonneg : 0 <= start_offset b;
  rok_end : end_offset b < 2 ^ 64;
}.

(** What happens on the master's owner thread: an engine write with what the
    allocator would return for the ring, a full resync that restarts the
    history at the current offset ([queue_snapshot] after the barrier), and
    replicas that come and go ([repl_add_slave], [repl_remove_slave]). *)
Inductive event :=
  | EWrite (m : option bytes) (raw : bytes)
  | EReset
  | EAttach
  | EDetach.

Definition set_replicas (n : nat) (s : master) : master :=
  mk_master (backlog s) (contiguous s) (master_repl_offset s) (broadcast_bytes s)
    (master_replid s) n.

Definition step (size : nat) (s : master) (e : event) : master :=
  match e with
  | EWrite m raw => note_write size m raw s
  | EReset => repl_backlog_reset (master_repl_offset s) s
  | EAttach => set_replicas (S (replicas s)) s
  | EDetach => set_replicas (pred (replicas s)) s
  end.

Definition run (size : nat) (s : master) (es : list event) : master :=
  fold_left (step size) es s.

(** The stream of all bytes written, which the offsets count. *)
Definition event_bytes (e : event) : bytes :=
  match e with EWrite _ raw => raw | _ => [] end.
Definition stream (es : list event) : bytes := es ≫= event_bytes.

(** Every block the allocator hands out has the size it was asked for. *)
Definition event_ok (size : nat) (e : event) : Prop :=
  match e with EWrite (Some blk) _ => length blk = size | _ => True end.

(** The invariant of the run: [W] is the stream so far. *)
Definition inv (size : nat) (s : master) (W : bytes) : Prop :=
  master_repl_offset s = Z.of_nat (length W) /\
  match buf (backlog s) with
  | None => True
  | Some blk =>
      ring_ok (backlog s) blk /\ cap (backlog s) = size /\
      end_offset (backlog s) <= master_repl_offset s /\
      (contiguous s = true -> end_offset (backlog s) = master_repl_offset s ->
       content (backlog s) blk = drop (Z.to_nat (start_offset (backlog s))) W)
  end.

(** ** Reading the ring *)

Lemma lookup_ring_read b blk si n i :
  length blk = cap b -> (si < cap b)%nat -> (n <= cap b)%nat -> (i < n)%nat ->
  ring_read b blk si n !! i = blk !! ((si + i) `mod` cap b)%nat.
Proof.
  intros Hl Hsi Hn Hi. unfold ring_read, ring_pieces. case_decide as Hd; cbn [concat]; rewrite app_nil_r.
  - rewrite lookup_slice, decide_True by lia. by rewrite Nat.mod_small by lia.
  - rewrite mod_wrap by lia. case_decide as Hw.
    + rewrite lookup_app_l by (rewrite length_slice; lia).
      by rewrite lookup_slice, decide_True by lia.
    + rewrite lookup_app_r by (rewrite length_slice; lia).
      rewrite length_slice, lookup_slice, decide_True by lia. f_equal. lia.
Qed.

Lemma length_ring_read b blk si n :
  length blk = cap b -> (si < cap b)%nat -> (n <= cap b)%nat ->
  length (ring_read b blk si n) = n.
Proof.
  intros Hl Hsi Hn. unfold ring_read, ring_pieces.
  case_decide; cbn [concat]; rewrite app_nil_r.
  - rewrite length_slice; lia.
  - rewrite length_app, !length_slice; lia.
Qed.

Lemma length_content b blk : ring_ok b blk -> length (content b blk) = histlen b.
Proof. intros []. by apply length_ring_read. Qed.

(** Reading from inside the history is reading the history from there on. *)
Lemma ring_read_content b blk delta n :
  ring_ok b blk -> (delta + n <= histlen b)%nat -> (0 < n)%nat ->
  ring_read b blk ((head b + delta) `mod` cap b) n = take n (drop delta (content b blk)).
Proof.
  intros Hok Hd Hn. pose proof (length_content _ _ Hok) as Hlc. destruct Hok.
  assert ((head b + delta) `mod` cap b < cap b)%nat by (apply Nat.mod_upper_bound; lia).
  apply list_eq_same_length with n.
  - rewrite length_take, length_drop. lia.
  - apply length_ring_read; lia.
  - intros i x y Hi.
    rewrite lookup_ring_read, lookup_take_lt, lookup_drop by lia.
    unfold content. rewrite lookup_ring_read by lia.
    rewrite Nat.Div0.add_mod_idemp_l.
    replace (head b + delta + i)%nat with (head b + (delta + i))%nat by lia. congruence.
Qed.

(** ** Writing the ring *)

Lemma length_ring_write b blk data :
  ring_ok b blk -> (length data < cap b)%nat -> length (ring_write b blk data) = cap b.
Proof.
  intros [] Hd. unfold ring_write.
  assert ((head b + histlen b) `mod` cap b < cap b)%nat by (apply Nat.mod_upper_bound; lia).
  assert (Hb1 : forall f, (f <= cap b - (head b + histlen b) `mod` cap b)%nat ->
    length (blit ((head b + histlen b) `mod` cap b) (take f data) blk) = cap b).
  { intros f Hf. rewrite length_blit; rewrite ?length_take; lia. }
  case_decide; [rewrite length_blit|]; rewrite ?length_drop, Hb1; lia.
Qed.

(** Which cell of the ring the write fills with which byte. *)
Lemma lookup_ring_write b blk data j :
  ring_ok b blk -> (length data < cap b)%nat -> (j < cap b)%nat ->
  let tail := ((head b + histlen b) `mod` cap b)%nat in
  ring_write b blk data !! j =
    let k := if decide (tail <= j)%nat then (j - tail)%nat else (j + cap b - tail)%nat in
    if decide (k < length data)%nat then data !! k else blk !! j.
Proof.
  intros [] Hd Hj tail. unfold ring_write. fold tail.
  assert (tail < cap b)%nat by (apply Nat.mod_upper_bound; lia).
  assert (Hb1 : (tail + length (take (Nat.min (cap b - tail) (length data)) data)
                 <= length blk)%nat) by (rewrite length_take; lia).
  cbv zeta. destruct (decide (length data > Nat.min (cap b - tail) (length data))%nat).
  - rewrite lookup_blit by (rewrite length_drop, length_blit; lia).
    rewrite length_drop, lookup_blit, length_take by done.
    repeat case_decide; try lia; rewrite ?lookup_drop, ?lookup_take_lt by lia;
      first [ done | f_equal; lia ].
  - rewrite lookup_blit, length_take by done.
    repeat case_decide; try lia; rewrite ?lookup_take_lt by lia; first [ done | f_equal; lia ].
Qed.

(** The new ring reads as the old history and the data, less what overflowed. *)
Lemma content_ring_write b blk data b' :
  ring_ok b blk -> (length data < cap b)%nat ->
  let over := (histlen b + length data - cap b)%nat in
  cap b' = cap b -> histlen b' = (histlen b + length data - over)%nat ->
  head b' = ((head b + over) `mod` cap b)%nat ->
  content b' (ring_write b blk data) = drop over (content b blk ++ data).
Proof.
  intros Hok Hd over Hc Hh Hhd.
  pose proof (length_content _ _ Hok) as Hlc.
  pose proof (length_ring_write _ _ _ Hok Hd) as Hlw.
  pose proof (lookup_ring_write b blk data) as Hlk.
  pose proof Hok as [].
  assert (Hhb : (head b' < cap b')%nat)
    by (rewrite Hhd, Hc; apply Nat.mod_upper_bound; lia).
  apply list_eq_same_length with (histlen b').
  - rewrite length_drop, length_app. lia.
  - apply length_ring_read; lia.
  - intros i x y Hi. unfold content at 1.
    rewrite lookup_ring_read, lookup_drop by lia.
    rewrite Hhd, Hc, Nat.Div0.add_mod_idemp_l, <- Nat.add_assoc.
    set (p := (over + i)%nat).
    rewrite Hlk by (try done; apply Nat.mod_upper_bound; lia). cbv zeta.
    destruct (decide (p < histlen b)%nat) as [Hp|Hp].
    + rewrite lookup_app_l by lia. unfold content.
      rewrite lookup_ring_read by lia.
      rewrite (mod_wrap (head b + p)), (mod_wrap (head b + histlen b)) by lia.
      repeat case_decide; try lia; congruence.
    + rewrite lookup_app_r, Hlc by lia.
      assert ((head b + histlen b) `mod` cap b < cap b)%nat by (apply Nat.mod_upper_bound; lia).
      replace ((head b + p) `mod` cap b)%nat
        with (((head b + histlen b) `mod` cap b + (p - histlen b)) `mod` cap b)%nat
        by (rewrite Nat.Div0.add_mod_idemp_l; f_equal; lia).
      set (tail := ((head b + histlen b) `mod` cap b)%nat) in *.
      rewrite (mod_wrap (tail + _)) by lia.
      repeat case_decide; try lia; intros Hx Hy; apply Some_inj;
        rewrite <- Hx, <- Hy; f_equal; lia.
Qed.

(** One feed into an allocated ring. *)
Lemma feed_ring size m data s b blk :
  backlog s = b -> buf b = Some blk -> ring_ok b blk -> replicas s <> 0%nat -> data <> [] ->
  end_offset b + Z.of_nat (length data) < 2 ^ 64 ->
  exists b' blk',
    repl_backlog_feed size m data s = (0, set_backlog b' s) /\
    buf b' = Some blk' /\ ring_ok b' blk' /\ cap b' = cap b /\
    histlen b' = Nat.min (cap b) (histlen b + length data) /\
    end_offset b' = end_offset b + Z.of_nat (Nat.min (cap b) (length data)) /\
    content b' blk' = drop (histlen b + length data - cap b) (content b blk ++ data).
Proof.
  intros Hb Hbuf Hok Hr Hne Hend.
  pose proof (length_content _ _ Hok) as Hlc.
  pose proof (nil_length_inv data) as Hnl.
  unfold repl_backlog_feed. rewrite decide_False by auto. rewrite decide_False by done.
  unfold ensure_repl_backlog. rewrite Hb, Hbuf. cbn iota beta.
  rewrite decide_False by auto. unfold feed_data. rewrite Hb, Hbuf. pose proof Hok as [].
  destruct (decide (length data >= cap b)%nat) as [Hbig|Hbig].
  - eexists _, _. split_and!; [done|done| |done| | |]; cbn.
    + rewrite (u64_small (end_offset b + _)), u64_small by lia.
      split; cbn; try lia. rewrite length_blit; rewrite ?length_drop; lia.
    + lia.
    + rewrite u64_small; lia.
    + unfold content at 1, ring_read, ring_pieces. cbn. rewrite decide_True by lia.
      cbn [concat]. rewrite app_nil_r.
      unfold slice, blit. rewrite take_0, drop_0. cbn [app].
      rewrite take_app_le, take_ge by (rewrite length_drop; lia).
      rewrite drop_app_ge, Hlc by lia. f_equal. lia.
  - pose proof (length_ring_write b blk data Hok ltac:(lia)) as Hlw.
    destruct (decide (histlen b + length data <= cap b)%nat) as [Hfit|Hfit];
      eexists _, _; (split_and!; [done|done| |done| | |]); cbn; try lia.
    1, 4: rewrite (u64_small (end_offset b + _)), u64_small by lia;
          split; cbn; try lia; apply Nat.mod_upper_bound; lia.
    1, 3: rewrite u64_small; lia.
    + apply content_ring_write; cbn; try done; [lia..|].
      rewrite (Nat.mod_small (head b + _)); lia.
    + apply content_ring_write; cbn; try done; lia.
Qed.

(** The first feed allocates the ring at the current offset. *)
Lemma feed_alloc size m data s :
  buf (backlog s) = None -> replicas s <> 0%nat -> data <> [] ->
  repl_backlog_feed size m data s =
    match m with
    | None => (-1, s)
    | Some blk =>
        repl_backlog_feed size m data
          (set_backlog (mk_backlog (Some blk) size 0 0 (master_repl_offset s)
                          (master_repl_offset s)) s)
    end.
Proof.
  intros Hb Hr Hd. pose proof (nil_length_inv data).
  unfold repl_backlog_feed, ensure_repl_backlog. rewrite Hb.
  rewrite decide_False by auto. rewrite decide_False by done.
  destruct m; [|done]. rewrite (decide_False (P := length data = 0%nat)) by auto.
  by rewrite (decide_False (P := replicas _ = 0%nat)).
Qed.

(** Feeding touches the ring and the contiguity flag only. *)
Lemma feed_frame size m data s :
  let s' := snd (repl_backlog_feed size m data s) in
  master_repl_offset s' = master_repl_offset s /\
    broadcast_bytes s' = broadcast_bytes s /\
    master_replid s' = master_replid s /\ replicas s' = replicas s.
Proof.
  assert (Hd : forall s, let s' := snd (feed_data data s) in
    master_repl_offset s' = master_repl_offset s /\ broadcast_bytes s' = broadcast_bytes s /\
    master_replid s' = master_replid s /\ replicas s' = replicas s).
  { intros s0. unfold feed_data. repeat case_match; done. }
  unfold repl_backlog_feed, ensure_repl_backlog.
  repeat (case_decide; [done|]).
  destruct (buf (backlog s)); [|destruct m as [blk|]; [|done]];
    rewrite (decide_False (P := 0 <> 0)) by auto; [apply Hd|].
  by destruct (Hd (set_backlog (mk_backlog (Some blk) size 0 0 (master_repl_offset s)
                                  (master_repl_offset s)) s)) as (-> & -> & -> & ->).
Qed.

(** ** The invariant *)

Lemma ring_ok_fresh size base blk :
  (0 < size)%nat -> length blk = size -> 0 <= base < 2 ^ 64 ->
  ring_ok (mk_backlog (Some blk) size 0 0 base base) blk.
Proof. intros. split; cbn; lia. Qed.

(** What a ring that is up to date with [W] becomes when [raw] is fed. *)
Lemma feed_content size m raw s b blk W :
  backlog s = b -> buf b = Some blk -> ring_ok b blk -> cap b = size ->
  replicas s <> 0%nat -> raw <> [] ->
  end_offset b <= Z.of_nat (length W) -> Z.of_nat (length (W ++ raw)) < 2 ^ 64 ->
  (contiguous s = true -> end_offset b = Z.of_nat (length W) ->
   content b blk = drop (Z.to_nat (start_offset b)) W) ->
  let s' := snd (repl_backlog_feed size m raw s) in
  exists blk', buf (backlog s') = Some blk' /\ ring_ok (backlog s') blk' /\
    cap (backlog s') = size /\ contiguous s' = contiguous s /\
    end_offset (backlog s') =
      end_offset b + Z.of_nat (Nat.min size (length raw)) /\
    histlen (backlog s') = Nat.min size (histlen b + length raw) /\
    (contiguous s' = true -> end_offset (backlog s') = Z.of_nat (length (W ++ raw)) ->
     content (backlog s') blk' = drop (Z.to_nat (start_offset (backlog s'))) (W ++ raw)).
Proof.
  intros Hb Hbuf Hok Hcap Hr Hraw Hend Hlen Hc s'. rewrite length_app in Hlen.
  destruct (feed_ring size m raw s b blk) as (b' & blk' & Hf & Hbuf' & Hok' & Hcap' & Hh & He & Hcc);
    [done|done|done|done|done|lia|].
  unfold s'. rewrite Hf. cbn. exists blk'. split_and!; try done; try congruence; [lia..|].
  intros Hct Heq. rewrite length_app in Heq. rewrite Hcc, Hc by (done || lia).
  pose proof (rok_start _ _ Hok). pose proof (rok_nonneg _ _ Hok).
  pose proof (rok_start _ _ Hok'). pose proof (rok_nonneg _ _ Hok').
  rewrite <- (drop_app_le W raw), drop_drop by lia. f_equal. lia.
Qed.

Lemma note_write_inv size m raw s W :
  (0 < size)%nat -> event_ok size (EWrite m raw) ->
  Z.of_nat (length (W ++ raw)) < 2 ^ 64 ->
  inv size s W -> inv size (note_write size m raw s) (W ++ raw).
Proof.
  intros Hsz Hm Hlen [Hoff Hinv]. unfold note_write, repl_note_broadcast.
  destruct (feed_frame size m raw s) as (Hf1 & _).
  split; cbn; [rewrite Hf1, Hoff, length_app, u64_small; rewrite ?length_app in Hlen; lia|].
  rewrite Hf1, Hoff, u64_small by (rewrite length_app in Hlen; lia).
  replace (Z.of_nat (length W) + Z.of_nat (length raw)) with (Z.of_nat (length (W ++ raw)))
    by (rewrite length_app; lia).
  destruct (decide (raw = [])) as [->|Hraw].
  { cbn. rewrite app_nil_r, <- Hoff. done. }
  pose proof (nil_length_inv raw). rewrite length_app in Hlen.
  destruct (decide (replicas s = 0%nat)) as [Hr|Hr].
  { unfold repl_backlog_feed. rewrite decide_False by auto. rewrite decide_True by done. cbn.
    destruct (buf (backlog s)); [|done]. destruct Hinv as (? & ? & ? & _).
    split_and!; [done..|rewrite length_app; lia|done]. }
  destruct (buf (backlog s)) as [blk|] eqn:Eb.
  - destruct Hinv as (Hok & Hcap & Hle & Hc).
    destruct (feed_content size m raw s (backlog s) blk W)
      as (blk' & -> & Hok' & Hcap' & _ & He & _ & Hc'); try done;
      [lia|rewrite length_app; lia|intros; apply Hc; [done|lia]|].
    split_and!; try done. rewrite He, length_app. lia.
  - rewrite feed_alloc by done. destruct m as [blk|]; cbn in Hm; [|cbn; by rewrite Eb].
    set (b := mk_backlog (Some blk) size 0 0 (master_repl_offset s) (master_repl_offset s)).
    destruct (feed_content size (Some blk) raw (set_backlog b s) b blk W)
      as (blk' & -> & Hok' & Hcap' & _ & He & _ & Hc'); try done.
    + apply ring_ok_fresh; [done..|lia].
    + cbn. lia.
    + rewrite length_app; lia.
    + intros _ _. cbn. rewrite Hoff, Nat2Z.id, drop_all. unfold content, ring_read, ring_pieces.
      cbn. by rewrite decide_True by lia.
    + split_and!; try done. rewrite He, length_app. cbn. lia.
Qed.

Lemma reset_inv size s W :
  Z.of_nat (length W) < 2 ^ 64 ->
  inv size s W -> inv size (repl_backlog_reset (master_repl_offset s) s) W.
Proof.
  intros Hlen [Hoff Hinv]. split; [done|]. unfold repl_backlog_reset. cbn.
  destruct (buf (backlog s)) as [blk|] eqn:Eb; cbn; rewrite ?Eb; [|done].
  destruct Hinv as ([] & Hcap & Hle & Hc). split_and!; [split; cbn; lia|done|done|].
  intros _ _. rewrite Hoff, Nat2Z.id, drop_all. unfold content, ring_read, ring_pieces.
  cbn. by rewrite decide_True by lia.
Qed.

Lemma step_inv size s W e :
  (0 < size)%nat -> event_ok size e -> Z.of_nat (length (W ++ event_bytes e)) < 2 ^ 64 ->
  inv size s W -> inv size (step size s e) (W ++ event_bytes e).
Proof.
  intros Hsz He Hlen Hinv. destruct e; cbn [step event_bytes] in *;
    rewrite ?app_nil_r in *; [by apply note_write_inv|by apply reset_inv|done..].
Qed.

Lemma run_inv_from size s W es :
  (0 < size)%nat -> Forall (event_ok size) es ->
  Z.of_nat (length (W ++ stream es)) < 2 ^ 64 ->
  inv size s W -> inv size (run size s es) (W ++ stream es).
Proof.
  intros Hsz Hes. revert s W. induction Hes as [|e es He _ IH]; intros s W Hlen Hinv.
  - cbn. by rewrite app_nil_r.
  - cbn [stream mbind list_bind] in *. fold (stream es) in *. rewrite app_assoc in *.
    apply IH; [done|]. apply step_inv; try done.
    rewrite length_app in Hlen. lia.
Qed.

Lemma run_inv size id es :
  (0 < size)%nat -> Forall (event_ok size) es -> Z.of_nat (length (stream es)) < 2 ^ 64 ->
  inv size (run size (master_init id) es) (stream es).
Proof. intros. by apply (run_inv_from size (master_init id) []). Qed.

(** ** Partial resync *)

Lemma can_continue_spec words replid off s :
  fst (repl_backlog_can_continue words replid off s) = true ->
  exists blk, buf (backlog s) = Some blk /\ contiguous s = true /\
    master_repl_offset s <= end_offset (backlog s) /\
    start_offset (backlog s) <= off <= end_offset (backlog s).
Proof.
  unfold repl_backlog_can_continue, ensure_master_replid.
  destruct (decide (master_replid s <> [])); [|destruct words as [[[[? ?] ?] ?] ?]];
    cbn; intros H; repeat case_decide; try done; destruct (contiguous s); try done;
    destruct (buf (backlog s)); try done; apply bool_decide_eq_true in H;
    eexists; split_and!; try done; lia.
Qed.

(** What an allowed resume finds: the ring holds the stream from [off] on. *)
Lemma can_continue_content size words replid off s W :
  inv size s W -> fst (repl_backlog_can_continue words replid off s) = true ->
  exists blk, buf (backlog s) = Some blk /\ ring_ok (backlog s) blk /\
    end_offset (backlog s) = Z.of_nat (length W) /\
    start_offset (backlog s) <= off <= Z.of_nat (length W) /\
    content (backlog s) blk = drop (Z.to_nat (start_offset (backlog s))) W.
Proof.
  intros [Hoff Hinv] Hcc. apply can_continue_spec in Hcc as (blk & Hb & Hct & Hge & Hr).
  rewrite Hb in Hinv. destruct Hinv as (Hok & _ & Hle & Hc).
  exists blk. split_and!; try done; try lia. apply Hc; [done|lia].
Qed.

Lemma send_pieces_ok ps : send_pieces (fun _ => 0) ps = (0, concat ps).
Proof. induction ps as [|p ps IH]; cbn; [done|]. by rewrite IH. Qed.

Lemma send_pieces_prefix send ps rc out :
  send_pieces send ps = (rc, out) ->
  out `prefix_of` concat ps /\ (rc = 0 -> out = concat ps) /\ (rc = 0 \/ rc = -1).
Proof.
  revert rc out. induction ps as [|p ps IH]; intros rc out; cbn.
  - intros [= <- <-]. auto.
  - case_decide.
    + intros [= <- <-]. split_and!; auto; [apply prefix_nil|done].
    + destruct (send_pieces send ps) as [rc' out'] eqn:E. intros [= <- <-].
      destruct (IH _ _ eq_refl) as (Hp & Hz & Ho). split_and!; [|by intros ->; rewrite Hz|done].
      by apply prefix_app.
Qed.

(** The ring between two offsets inside the history is the stream between them. *)
Lemma ring_stream b blk W off n :
  ring_ok b blk -> end_offset b = Z.of_nat (length W) ->
  content b blk = drop (Z.to_nat (start_offset b)) W ->
  start_offset b <= off -> (0 < n)%nat -> off + Z.of_nat n <= end_offset b ->
  ring_read b blk ((head b + Z.to_nat (off - start_offset b)) `mod` cap b) n =
  take n (drop (Z.to_nat off) W).
Proof.
  intros Hok He Hc Hs Hn Hle. pose proof Hok as [].
  rewrite ring_read_content by (done || lia). rewrite Hc, drop_drop. do 2 f_equal. lia.
Qed.

(** The copy a lagging replica is caught up from (REPLACK): after any sequence of
    events, if [repl_backlog_can_continue] accepts an offset, the range
    [repl_backlog_copy_range] copies from the ring is the stream from that offset
    to its end; the only failure left is a failed allocation of the copy. *)
Theorem copy_range_exact size id es words replid off alloc :
  (0 < size)%nat -> Forall (event_ok size) es ->
  Z.of_nat (length (stream es)) < 2 ^ 64 -> 0 <= off ->
  let s := run size (master_init id) es in
  fst (repl_backlog_can_continue words replid off s) = true ->
  off <= Z.of_nat (length (stream es)) /\
  repl_backlog_copy_range alloc off s =
    if decide (alloc = true \/ off = Z.of_nat (length (stream es)))
    then Some (drop (Z.to_nat off) (stream es)) else None.
Proof.
  intros Hsz Hes Hlen Hoff s Hcc. pose proof (run_inv size id es Hsz Hes Hlen) as Hinv.
  fold s in Hinv. set (W := stream es) in *.
  destruct (can_continue_content _ _ _ _ _ _ Hinv Hcc) as (blk & Hb & Hok & He & Hr & Hc).
  pose proof Hok as []. split; [lia|]. unfold repl_backlog_copy_range. rewrite Hb.
  rewrite decide_False by lia. cbv zeta. case_decide as Hl.
  - rewrite decide_True by lia. by rewrite drop_ge by lia.
  - destruct alloc; [rewrite decide_True by auto|rewrite decide_False by (intros [?|?]; [done|lia]); done].
    f_equal. rewrite (ring_stream _ _ W) by (done || lia).
    apply take_ge. rewrite length_drop. lia.
Qed.

(** The pieces of the ring between two offsets, sent one after the other. *)
Lemma send_range_exact send b blk W off n :
  ring_ok b blk -> end_offset b = Z.of_nat (length W) ->
  content b blk = drop (Z.to_nat (start_offset b)) W ->
  start_offset b <= off -> (0 < n)%nat -> off + Z.of_nat n <= end_offset b ->
  let '(rc, out) := send_pieces send
    (ring_pieces b blk ((head b + Z.to_nat (off - start_offset b)) `mod` cap b) n) in
  out `prefix_of` slice (Z.to_nat off) n W /\ (rc = 0 -> out = slice (Z.to_nat off) n W) /\
  (rc = 0 \/ rc = -1) /\ ((forall d, send d = 0) -> rc = 0).
Proof.
  intros Hok He Hc Hs Hn Hle. destruct (send_pieces _ _) as [rc out] eqn:E.
  pose proof (send_pieces_prefix _ _ _ _ E) as (Hp & Hz & Ho).
  fold (ring_read b blk ((head b + Z.to_nat (off - start_offset b)) `mod` cap b) n) in Hp, Hz.
  rewrite (ring_stream _ _ W) in Hp, Hz by done. split_and!; [done..|].
  intros Hsend. assert (E' : send_pieces send (ring_pieces b blk ((head b + Z.to_nat (off - start_offset b)) `mod` cap b) n) =
    send_pieces (fun _ => 0) (ring_pieces b blk ((head b + Z.to_nat (off - start_offset b)) `mod` cap b) n)).
  { generalize (ring_pieces b blk ((head b + Z.to_nat (off - start_offset b)) `mod` cap b) n).
    induction l as [|p l IH]; cbn; [done|]. rewrite Hsend, decide_False by auto. by rewrite IH. }
  rewrite E', send_pieces_ok in E. by injection E as <- _.
Qed.

(** (C1) A partial resync that the master allows is exact: after any sequence of
    writes, resets and replica arrivals and departures, if
    [repl_backlog_can_continue] accepts the offset of a replica, what
    [repl_backlog_send_continue_upto] sends for it is the +CONTINUE line with the
    end of the catch-up and then exactly the bytes of the write stream from the
    replica's offset to that end, clipped to what has been written, every byte once
    and in order.  A send that fails leaves a prefix of this and the return value
    -1; if the call returns 0 all of it was sent and the end is recorded as the
    offset sent, and it does return 0 if no send fails. *)
Theorem partial_resync_exact size id es words replid off end_ send :
  (0 < size)%nat -> Forall (event_ok size) es ->
  Z.of_nat (length (stream es)) < 2 ^ 64 -> 0 <= off ->
  let s := run size (master_init id) es in
  let stop := Z.max off (Z.min end_ (Z.of_nat (length (stream es)))) in
  fst (repl_backlog_can_continue words replid off s) = true ->
  let '(rc, out, sent) := repl_backlog_send_continue_upto words send off end_ s in
  let whole := continue_header (master_replid (ensure_master_replid words s)) stop ++
               slice (Z.to_nat off) (Z.to_nat (stop - off)) (stream es) in
  out `prefix_of` whole /\ (rc = 0 -> out = whole /\ sent = Some stop) /\
  (rc = 0 \/ rc = -1) /\ ((forall d, send d = 0) -> rc = 0).
Proof.
  intros Hsz Hes Hlen Hoff s stop Hcc. pose proof (run_inv size id es Hsz Hes Hlen) as Hinv.
  fold s in Hinv. unfold stop. clear stop. set (W := stream es) in *.
  destruct (can_continue_content _ _ _ _ _ _ Hinv Hcc) as (blk & Hb & Hok & He & Hr & Hc).
  unfold repl_backlog_send_continue_upto, repl_backlog_write_range_upto.
  rewrite Hb, decide_False by lia. cbv zeta. rewrite He. set (n := Z.of_nat (length W)) in *.
  set (e2 := if decide ((if decide (end_ > n) then n else end_) < off) then off
             else if decide (end_ > n) then n else end_).
  assert (e2 = Z.max off (Z.min end_ n)) as ->.
  { unfold e2. repeat case_decide; lia. }
  set (e := Z.max off (Z.min end_ n)). set (hdr := continue_header _ _).
  case_decide as Hh; [split_and!; [apply prefix_nil|done|by right|intros Hx; by rewrite Hx in Hh]|].
  rewrite (decide_False (P := off < _ \/ _)) by lia.
  rewrite (decide_False (P := e > n)) by lia. case_decide as Hd.
  - replace e with off by lia. rewrite Z.sub_diag. split_and!; [done| |by left|done].
    intros _. done.
  - pose proof (send_range_exact send (backlog s) blk W off (Z.to_nat (e - off)) Hok He Hc
      ltac:(lia) ltac:(lia) ltac:(lia)) as Hx.
    destruct (send_pieces _ _) as [rc out]. destruct Hx as (Hp & Hz & Hrc & Hok').
    case_decide as Hrc'; cbn [fst snd]; split_and!; auto using prefix_app.
    + done.
    + intros Hs. by destruct Hrc'; apply Hok'.
    + intros _. by rewrite Hz by (destruct (decide (rc = 0)); [done|by destruct Hrc']).
Qed.

(** C1 on a run that wraps a ring of 8 bytes. *)
Lemma partial_resync_exact_witness :
  let es := [EAttach; EWrite (Some (replicate 8 0)) [1; 2; 3; 4; 5]; EWrite None [6; 7; 8; 9; 10; 11]] in
  let '(rc, out, sent) := repl_backlog_send_continue_upto (0, 0, 0, 0, 0) (fun _ => 0) 6 9 (run 8 (master_init [65]) es) in
  let whole := str "+CONTINUE A 9" ++ [13; 10; 7; 8; 9] in
  out `prefix_of` whole /\ (rc = 0 -> out = whole /\ sent = Some 9) /\
  (rc = 0 \/ rc = -1) /\ ((forall d : bytes, 0 = 0) -> rc = 0).
Proof.
  intros es.
  refine (partial_resync_exact 8 [65] es (0, 0, 0, 0, 0) [65] 6 9 (fun _ => 0) _ _ _ _ _);
    [lia|repeat constructor|vm_compute; reflexivity|lia|vm_compute; reflexivity].
Defined.

(** ** When a resume is allowed *)

(** The ring is allocated, complete up to the master's offset, and fed. *)
Definition live (s : master) : Prop :=
  buf (backlog s) <> None /\ contiguous s = true /\
  end_offset (backlog s) = master_repl_offset s /\ replicas s <> 0%nat.

(** Traffic that a live ring keeps up with: writes no larger than the ring, and
    replicas that arrive. *)
Definition fits (size : nat) (e : event) : Prop :=
  match e with
  | EWrite _ raw => (length raw <= size)%nat
  | EAttach => True
  | _ => False
  end.

Lemma step_live size s W e :
  inv size s W -> Z.of_nat (length (W ++ event_bytes e)) < 2 ^ 64 ->
  fits size e -> live s ->
  live (step size s e) /\
  start_offset (backlog (step size s e)) =
    Z.max (start_offset (backlog s))
          (Z.of_nat (length (W ++ event_bytes e)) - Z.of_nat size).
Proof.
  intros [Hoff Hinv] Hlen Hf (Hb & Hct & He & Hr).
  destruct (buf (backlog s)) as [blk|] eqn:Eb; [|done].
  destruct Hinv as (Hok & Hcap & Hle & Hc). pose proof Hok as [].
  destruct e as [m raw| | |]; try done; cbn [step event_bytes] in *; rewrite ?app_nil_r in *;
    [|split; [split_and!; cbn; try congruence; lia|cbn; lia]].
  destruct (decide (raw = [])) as [->|Hraw].
  { rewrite app_nil_r in *. unfold note_write, live. cbn.
    change (repl_backlog_feed size m [] s) with (0, s). cbn.
    rewrite (u64_small (master_repl_offset s + _)), Eb by lia. split; [split_and!; try done; lia|lia]. }
  destruct (feed_content size m raw s (backlog s) blk W)
    as (blk' & Hb' & Hok' & Hcap' & Hct' & He' & Hh' & _); try done;
    [lia|intros; apply Hc; [done|lia]|].
  destruct (feed_frame size m raw s) as (Hf1 & _ & _ & Hf2).
  pose proof Hok' as []. cbn in Hf. rewrite length_app in *. unfold note_write, live. cbn.
  rewrite Hf1, Hf2, Hb', Hct', (u64_small (master_repl_offset s + _)) by lia. split; [split_and!; try done; lia|lia].
Qed.

Lemma run_live size s W es :
  (0 < size)%nat -> Forall (event_ok size) es -> Forall (fits size) es ->
  Z.of_nat (length (W ++ stream es)) < 2 ^ 64 -> inv size s W -> live s ->
  live (run size s es) /\
  start_offset (backlog (run size s es)) <=
    Z.max (start_offset (backlog s)) (Z.of_nat (length (W ++ stream es)) - Z.of_nat size).
Proof.
  intros Hsz Hes. revert s W. induction Hes as [|e es He Hes IH]; intros s W Hfit Hlen Hinv Hl.
  - split; [done|]. cbn. lia.
  - inversion Hfit as [|? ? Hf Hfit']; subst.
    cbn [stream mbind list_bind] in *. fold (stream es) in *. rewrite app_assoc in *.
    assert (Z.of_nat (length (W ++ event_bytes e)) < 2 ^ 64) by (rewrite length_app in Hlen; lia).
    destruct (step_live size s W e Hinv) as [Hl' Hs]; [done..|].
    destruct (IH (step size s e) (W ++ event_bytes e)) as [Hl2 Hs2]; [done|done| |done|].
    + by apply step_inv.
    + split; [done|]. cbn [run fold_left]. fold (run size (step size s e) es).
      rewrite (length_app (W ++ _)) in *. lia.
Qed.

Lemma run_replid size s es : master_replid (run size s es) = master_replid s.
Proof.
  revert s. induction es as [|e es IH]; intros s; [done|]. cbn [run fold_left].
  fold (run size (step size s e) es). rewrite IH. destruct e as [m raw| | |]; cbn; try done.
  by destruct (feed_frame size m raw s) as (_ & _ & -> & _).
Qed.

(** (C3) When a resume is granted: once the ring is live (allocated, complete up to
    the master's offset, with a replica attached), and as long as only writes no
    longer than the ring and arrivals of replicas follow (no reset of the ring, no
    departure), [repl_backlog_can_continue] accepts, for the master's id, every
    offset between the start the live ring had and the end of the stream that is
    at most [size] bytes behind that end. *)
Theorem resume_allowed_within_backlog size id es1 es2 words off :
  (0 < size)%nat -> Forall (event_ok size) (es1 ++ es2) -> Forall (fits size) es2 ->
  Z.of_nat (length (stream (es1 ++ es2))) < 2 ^ 64 -> id <> [] ->
  let s1 := run size (master_init id) es1 in
  let s2 := run size s1 es2 in
  let n := Z.of_nat (length (stream (es1 ++ es2))) in
  live s1 ->
  start_offset (backlog s1) <= off <= n -> n - Z.of_nat size <= off ->
  fst (repl_backlog_can_continue words id off s2) = true.
Proof.
  intros Hsz Hes Hfit Hlen Hid s1 s2 n Hl Ho1 Ho2.
  assert (master_replid s2 = id) as Hid2 by (unfold s2, s1; by rewrite !run_replid). apply Forall_app in Hes as [He1 He2].
  unfold n in *. clear n. unfold stream in Hlen, Ho1, Ho2. rewrite bind_app in *. fold (stream es1) (stream es2) in *.
  assert (inv size s1 (stream es1)) as Hinv.
  { apply run_inv; [done..|]. rewrite length_app in Hlen. lia. }
  destruct (run_live size s1 (stream es1) es2) as ((Hb & Hct & He & Hr) & Hs); [done..|].
  assert (inv size s2 (stream es1 ++ stream es2)) as [Hoff _] by (by apply run_inv_from).
  fold s2 in Hb, Hct, He, Hr, Hs.
  unfold repl_backlog_can_continue, ensure_master_replid. rewrite Hid2.
  rewrite (decide_True (P := id <> [])) by done. cbn. rewrite Hid2, strcmp_refl. rewrite decide_False by auto. rewrite decide_False by done.
  rewrite Hct. cbn [negb]. rewrite !decide_False by lia. apply bool_decide_eq_true. lia.
Qed.

Lemma resume_allowed_within_backlog_witness :
  let es1 := [EAttach; EWrite (Some (replicate 8 0)) [1; 2; 3; 4; 5]] in
  let es2 := [EWrite None [6; 7; 8]; EAttach; EWrite None [9; 10; 11]] in
  fst (repl_backlog_can_continue (0, 0, 0, 0, 0) [65] 3 (run 8 (run 8 (master_init [65]) es1) es2))
  = true.
Proof.
  intros es1 es2.
  refine (resume_allowed_within_backlog 8 [65] es1 es2 (0, 0, 0, 0, 0) 3 _ _ _ _ _ _ _ _);
    [lia|repeat constructor|repeat constructor; cbn; lia|vm_compute; reflexivity|discriminate
    |split_and!; [vm_compute; discriminate|reflexivity|reflexivity|vm_compute; discriminate]|vm_compute; split; discriminate
    |vm_compute; discriminate].
Defined.

End Backlog.
