(* ===== verification/Siphash.v ===== *)
(** * Siphash: the keyed hash of the hash engine

    [_siphash24], [_hash_seed] and [_hash_idx] of [src/storage/kvs_hash.c]
    over 64-bit words, with the published SipHash-2-4 test vectors. *)

From S2P Require Import Prelude.

(** [_rotl64]. *)
Definition rotl64 (x : Z) (b : Z) : Z := u64 (Z.lor (Z.shiftl x b) (Z.shiftr x (64 - b))).

(** The four state words [v0 .. v3]. *)
Definition sipstate : Type := Z * Z * Z * Z.

(** SIPROUND. *)
Definition sipround (s : sipstate) : sipstate :=
  let '(v0, v1, v2, v3) := s in
  let v0 := u64 (v0 + v1) in
  let v1 := rotl64 v1 13 in
  let v1 := Z.lxor v1 v0 in
  let v0 := rotl64 v0 32 in
  let v2 := u64 (v2 + v3) in
  let v3 := rotl64 v3 16 in
  let v3 := Z.lxor v3 v2 in
  let v0 := u64 (v0 + v3) in
  let v3 := rotl64 v3 21 in
  let v3 := Z.lxor v3 v0 in
  let v2 := u64 (v2 + v1) in
  let v1 := rotl64 v1 17 in
  let v1 := Z.lxor v1 v2 in
  let v2 := rotl64 v2 32 in
  (v0, v1, v2, v3).

(** Bytes or-ed into a word, the first one lowest. *)
Fixpoint le_word (shift : Z) (acc : Z) (b : bytes) : Z :=
  match b with
  | [] => acc
  | x :: r => le_word (shift + 8) (Z.lor acc (Z.shiftl x shift)) r
  end.

(** One 64-bit block: [v3 ^= m; SIPROUND; SIPROUND; v0 ^= m]. *)
Definition absorb (m : Z) (s : sipstate) : sipstate :=
  let '(v0, v1, v2, v3) := s in
  let '(v0, v1, v2, v3) := sipround (sipround (v0, v1, v2, Z.lxor v3 m)) in
  (Z.lxor v0 m, v1, v2, v3).

(** The loop over the full blocks; what is left of the input comes back. *)
Fixpoint sip_blocks (blocks : nat) (s : sipstate) (b : bytes) : sipstate * bytes :=
  match blocks with
  | O => (s, b)
  | S n => sip_blocks n (absorb (le_word 0 0 (take 8 b)) s) (drop 8 b)
  end.

(** [_siphash24]. *)
Definition siphash24 (b : bytes) (k0 k1 : Z) : Z :=
  let s := (Z.lxor k0 0x736f6d6570736575, Z.lxor k1 0x646f72616e646f6d,
            Z.lxor k0 0x6c7967656e657261, Z.lxor k1 0x7465646279746573) in
  let '(s, rest) := sip_blocks (length b / 8)%nat s b in
  let last := le_word 0 (Z.shiftl (Z.land (Z.of_nat (length b)) 255) 56) rest in
  let '(v0, v1, v2, v3) := absorb last s in
  let '(v0, v1, v2, v3) := sipround (sipround (sipround (sipround (v0, v1, Z.lxor v2 255, v3)))) in
  Z.lxor (Z.lxor (Z.lxor v0 v1) v2) v3.

(** [_hash_seed]: [rnd] are the two words [getrandom] fills, [None] when a call
    comes back short, and then the clock and the process id are mixed. *)
Definition hash_seed (rnd : option (Z * Z)) (sec nsec pid : Z) (k : Z * Z) : Z * Z :=
  if decide (k.1 <> 0 \/ k.2 <> 0) then k
  else
    match rnd with
    | Some r => r
    | None =>
        let k0 := Z.lxor (Z.lxor (Z.lxor (u64 (Z.shiftl sec 32)) (u64 nsec))
                            (u64 (Z.shiftl pid 16))) 0x9e3779b97f4a7c15 in
        (k0, Z.lxor (u64 (k0 * 0xbf58476d1ce4e5b9)) 0x94d049bb133111eb)
    end.

(** [_hash_idx]. *)
Definition hash_idx (hv size : Z) : Z := hv mod u32 size.

(** The published test key and inputs: key bytes 00 .. 0f, input 00 .. n-1. *)
Definition test_k0 : Z := 0x0706050403020100.
Definition test_k1 : Z := 0x0f0e0d0c0b0a0908.
Definition test_input (n : nat) : bytes := map Z.of_nat (seq 0 n).

(** ** Lemmas *)

Lemma hash_idx_range hv size :
  0 <= hv -> 0 < size < 2 ^ 31 -> 0 <= hash_idx hv size < size.
Proof.
  intros Hh Hs. unfold hash_idx. rewrite u32_small by lia. apply Z.mod_pos_bound. lia.
Qed.

(** A seed that is set is never drawn again. *)
Lemma hash_seed_stable rnd sec nsec pid k :
  k.1 <> 0 \/ k.2 <> 0 -> hash_seed rnd sec nsec pid k = k.
Proof. intros H. unfold hash_seed. by rewrite decide_True. Qed.

(** The hash is SipHash-2-4: on the published key and inputs of length
    0 to 9 and 15 it returns the published outputs, which cover the empty
    input, partial last blocks, a full block and two blocks. *)
Theorem siphash24_vectors :
  map (fun n => siphash24 (test_input n) test_k0 test_k1) [0; 1; 2; 3; 4; 5; 6; 7; 8; 9; 15]%nat =
  [0x726fdb47dd0e0e31; 0x74f839c593dc67fd; 0x0d6c8009d9a94f5a; 0x85676696d7fb7e2d;
   0xcf2794e0277187b7; 0x18765564cd99a68d; 0xcbc9466e58fee3ce; 0xab0200f58b01d137;
   0x93f5f5799a932462; 0x9e0082df0ba9e4b0; 0xa129ca6149be45e5].
Proof. vm_compute. reflexivity. Qed.
