(* ===== verification/Hash.v ===== *)
(** * Hash: the hash engine

    [src/storage/kvs_hash.c]: chained buckets in two tables [ht[0]] and
    [ht[1]], incremental rehashing by [_rehash_step] on every call, growth and
    shrinking, values that grow in place, and the statistics counters.  The
    theorems state that every operation keeps the table well formed and acts
    on a finite map from keys to values, whatever allocation fails and wherever
    a rehash stands.

    Chains are owned by one bucket, so a chain is a list of nodes and a node
    pointer is the place of the node (table, bucket, position).  A value is the
    [vlen] bytes that are in use; [vcap] is the size of its block. *)

From S2P Require Import Prelude Cstring Engine Siphash.

Module Hash.

(** [hashnode_t]; the key is the C string stored behind the node. *)
Record hashnode_t := mk_node {
  hv : Z;
  klen : Z;
  vlen : Z;
  vcap : Z;
  key : bytes;
  value : bytes;
}.

(** [hashtable_t]; [nodes] is [None] for NULL. *)
Record hashtable_t := mk_table {
  nodes : option (list (list hashnode_t));
  max_slots : Z;
  count : Z;
}.

Definition empty_table : hashtable_t := mk_table None 0 0.

(** [kvs_hash_t]. *)
Record kvs_hash_t := mk_hash {
  ht0 : hashtable_t;
  ht1 : hashtable_t;
  rehash_idx : Z;
  seed : Z * Z;
}.

(** The statistics counters of the file. *)
Record stats := mk_stats {
  lookups : Z;
  hits : Z;
  misses : Z;
  probe_steps : Z;
  max_chain : Z;
}.

(** What the calls of one operation to [kvs_malloc] return, by call site: the
    node, its value block (also the block of an overwrite) and a bucket array;
    and what a seed draw would return. *)
Record env := mk_env {
  m_node : bool;
  m_value : bool;
  m_table : bool;
  rnd : option (Z * Z);
  clock : Z * Z * Z;
}.

Definition set_ht0 (t : hashtable_t) (h : kvs_hash_t) : kvs_hash_t :=
  mk_hash t (ht1 h) (rehash_idx h) (seed h).
Definition set_ht1 (t : hashtable_t) (h : kvs_hash_t) : kvs_hash_t :=
  mk_hash (ht0 h) t (rehash_idx h) (seed h).
Definition set_rehash_idx (i : Z) (h : kvs_hash_t) : kvs_hash_t :=
  mk_hash (ht0 h) (ht1 h) i (seed h).

(** Reading and writing [t->nodes[idx]]. *)
Definition chain_at (t : hashtable_t) (idx : Z) : list hashnode_t :=
  default [] (default [] (nodes t) !! Z.to_nat idx).
Definition set_chain (idx : Z) (c : list hashnode_t) (t : hashtable_t) : hashtable_t :=
  mk_table (<[Z.to_nat idx := c]> <$> nodes t) (max_slots t) (count t).
Definition add_count (d : Z) (t : hashtable_t) : hashtable_t :=
  mk_table (nodes t) (max_slots t) (count t + d).

Definition HASH_LOAD_FACTOR : Z := 2.
Definition REHASH_STEP_BUCKETS : Z := 10.

Section Ops.

(** HASH_INIT_SIZE; 4096 in the code. *)
Context (HASH_INIT_SIZE : Z).

(** [_hash_seed] on the table's key. *)
Definition seeded (e : env) (h : kvs_hash_t) : kvs_hash_t :=
  let '(sec, nsec, pid) := clock e in
  mk_hash (ht0 h) (ht1 h) (rehash_idx h) (hash_seed (rnd e) sec nsec pid (seed h)).

(** [_hash_raw]. *)
Definition hash_raw (e : env) (k : bytes) (h : kvs_hash_t) : Z * kvs_hash_t :=
  let h := seeded e h in
  (u32 (siphash24 k (seed h).1 (seed h).2), h).

(** [_create_node_len] and [_create_node]. *)
Definition create_node_len (e : env) (hv : Z) (k v : bytes) : option hashnode_t :=
  if m_node e then
    if m_value e then
      Some (mk_node hv (u32 (Z.of_nat (length k))) (Z.of_nat (length v))
              (Z.of_nat (length v) + 1) k v)
    else None
  else None.
Definition create_node (e : env) (hv : Z) (k v : bytes) : option hashnode_t :=
  create_node_len e hv k (cstr v).

(** [_overwrite_value]. *)
Definition overwrite_value (e : env) (v : bytes) (n : hashnode_t) : Z * hashnode_t :=
  let vl := Z.of_nat (length v) in
  if decide (vl + 1 <= vcap n) then
    (0, mk_node (hv n) (klen n) vl (vcap n) (key n) v)
  else
    let new_cap := if decide (vcap n <> 0) then vcap n * 2 else 64 in
    let new_cap := if decide (new_cap < vl + 1) then vl + 1 else new_cap in
    if m_value e then (0, mk_node (hv n) (klen n) vl new_cap (key n) v) else (-2, n).

(** [kvs_hash_create]. *)
Definition fresh_nodes (n : Z) : list (list hashnode_t) := replicate (Z.to_nat n) [].
Definition kvs_hash_create (e : env) : Z * kvs_hash_t :=
  let h := seeded e (mk_hash empty_table empty_table (-1) (0, 0)) in
  if m_table e then
    (0, set_ht0 (mk_table (Some (fresh_nodes HASH_INIT_SIZE)) HASH_INIT_SIZE 0) h)
  else (-1, h).

(** [kvs_hash_destory]: the sizes and counts are left as they are. *)
Definition kvs_hash_destory (h : kvs_hash_t) : kvs_hash_t :=
  let drop_nodes t := mk_table None (max_slots t) (count t) in
  mk_hash (drop_nodes (ht0 h)) (drop_nodes (ht1 h)) (-1) (seed h).

(** Moving one chain of [ht[0]] to [ht[1]], node by node. *)
Definition migrate_node (h : kvs_hash_t) (n : hashnode_t) : kvs_hash_t :=
  let idx := hash_idx (hv n) (max_slots (ht1 h)) in
  let h := set_ht1 (add_count 1 (set_chain idx (n :: chain_at (ht1 h) idx) (ht1 h))) h in
  set_ht0 (add_count (-1) (ht0 h)) h.

(** The loop of [_rehash_step]; it ends after at most one round per bucket
    that is left, which is the fuel it is run with. *)
Fixpoint rehash_loop (fuel : nat) (remaining : Z) (h : kvs_hash_t) : kvs_hash_t :=
  match fuel with
  | O => h
  | S f =>
      if decide (remaining > 0 /\ rehash_idx h < max_slots (ht0 h)) then
        let c := chain_at (ht0 h) (rehash_idx h) in
        match c with
        | [] => rehash_loop f remaining (set_rehash_idx (rehash_idx h + 1) h)
        | _ =>
            let h' := fold_left migrate_node c h in
            let h' := set_ht0 (set_chain (rehash_idx h) [] (ht0 h')) h' in
            rehash_loop f (remaining - 1) (set_rehash_idx (rehash_idx h + 1) h')
        end
      else h
  end.

(** [_rehash_step]. *)
Definition rehash_step (buckets : Z) (h : kvs_hash_t) : Z * kvs_hash_t :=
  if decide (rehash_idx h < 0) then (0, h)
  else
    let h := rehash_loop (Z.to_nat (max_slots (ht0 h) - rehash_idx h)) buckets h in
    if decide (rehash_idx h >= max_slots (ht0 h)) then
      (1, mk_hash (ht1 h) empty_table (-1) (seed h))
    else (0, h).

(** Starting a rehash into a new table of [new_size] buckets. *)
Definition start_rehash (e : env) (new_size : Z) (h : kvs_hash_t) : Z * kvs_hash_t :=
  if m_table e then
    (0, set_rehash_idx 0 (set_ht1 (mk_table (Some (fresh_nodes new_size)) new_size 0) h))
  else (-1, set_ht1 (mk_table None (max_slots (ht1 h)) (count (ht1 h))) h).

(** [_maybe_expand] and [_maybe_shrink].  The slot counts are [int]s in the source
    and integers here: the doubling is the source's up to 2^30 slots, beyond which
    the product overflows there; [hash_sizes_bounded] says that it takes as many
    calls to get that far. *)
Definition maybe_expand (e : env) (h : kvs_hash_t) : Z * kvs_hash_t :=
  if decide (rehash_idx h >= 0) then (0, h)
  else if decide (count (ht0 h) <= max_slots (ht0 h) * HASH_LOAD_FACTOR) then (0, h)
  else start_rehash e (max_slots (ht0 h) * 2) h.

Definition maybe_shrink (e : env) (h : kvs_hash_t) : Z * kvs_hash_t :=
  if decide (rehash_idx h >= 0) then (0, h)
  else if decide (max_slots (ht0 h) <= HASH_INIT_SIZE) then (0, h)
  else if decide (count (ht0 h) > max_slots (ht0 h) `quot` 8) then (0, h)
  else
    let new_size := max_slots (ht0 h) `quot` 2 in
    let new_size := if decide (new_size < HASH_INIT_SIZE) then HASH_INIT_SIZE else new_size in
    start_rehash e new_size h.

(** The walk along a chain: the position of the first node with the key, and
    the number of nodes looked at. *)
Fixpoint find_chain (k : bytes) (c : list hashnode_t) : option nat * Z :=
  match c with
  | [] => (None, 0)
  | n :: r =>
      if decide (strcmp (key n) k = 0) then (Some O, 1)
      else let '(p, steps) := find_chain k r in (S <$> p, steps + 1)
  end.

(** A node pointer: which table, which bucket, which place in the chain. *)
Definition loc : Type := bool * Z * nat.

Definition table_of (second : bool) (h : kvs_hash_t) : hashtable_t :=
  if second then ht1 h else ht0 h.
Definition set_table (second : bool) (t : hashtable_t) (h : kvs_hash_t) : kvs_hash_t :=
  if second then set_ht1 t h else set_ht0 t h.

Definition node_at (l : loc) (h : kvs_hash_t) : option hashnode_t :=
  let '(s, idx, p) := l in chain_at (table_of s h) idx !! p.
Definition set_node (l : loc) (n : hashnode_t) (h : kvs_hash_t) : kvs_hash_t :=
  let '(s, idx, p) := l in
  set_table s (set_chain idx (<[p := n]> (chain_at (table_of s h) idx)) (table_of s h)) h.

Definition count_lookup (steps : Z) (found : bool) (g : stats) : stats :=
  mk_stats (u64 (lookups g + 1))
    (if found then u64 (hits g + 1) else hits g)
    (if found then misses g else u64 (misses g + 1))
    (u64 (probe_steps g + steps)) (max_chain g).

(** [_find_node]. *)
Definition find_in (e : env) (k : bytes) (second : bool) (h : kvs_hash_t) :
    option loc * Z * kvs_hash_t :=
  let t := table_of second h in
  if decide (nodes t <> None /\ count t > 0) then
    let '(x, h) := hash_raw e k h in
    let idx := hash_idx x (max_slots t) in
    let '(p, steps) := find_chain k (chain_at t idx) in
    ((fun p => (second, idx, p)) <$> p, steps, h)
  else (None, 0, h).

Definition find_node (e : env) (k : bytes) (s : kvs_hash_t * stats) :
    option loc * (kvs_hash_t * stats) :=
  let '(h, g) := s in
  let '(l0, steps0, h) := find_in e k false h in
  match l0 with
  | Some l => (Some l, (h, count_lookup steps0 true g))
  | None =>
      let '(l1, steps1, h) :=
        if decide (rehash_idx h >= 0) then find_in e k true h else (None, 0, h) in
      match l1 with
      | Some l => (Some l, (h, count_lookup (steps0 + steps1) true g))
      | None => (None, (h, count_lookup (steps0 + steps1) false g))
      end
  end.

(** [kvs_hash_exist], [kvs_hash_get_len] and [kvs_hash_get]; what the last
    returns is read as a C string. *)
Definition kvs_hash_exist (e : env) (k : bytes) (s : kvs_hash_t * stats) :
    Z * (kvs_hash_t * stats) :=
  let s := ((rehash_step REHASH_STEP_BUCKETS s.1).2, s.2) in
  let '(l, s) := find_node e k s in
  (match l with Some _ => 0 | None => 1 end, s).

Definition kvs_hash_get_len (e : env) (k : bytes) (s : kvs_hash_t * stats) :
    option bytes * (kvs_hash_t * stats) :=
  let s := ((rehash_step REHASH_STEP_BUCKETS s.1).2, s.2) in
  let '(l, s) := find_node e k s in
  (l ≫= (fun l => value <$> node_at l s.1), s).

Definition kvs_hash_get (e : env) (k : bytes) (s : kvs_hash_t * stats) :
    option bytes * (kvs_hash_t * stats) :=
  let '(v, s) := kvs_hash_get_len e k s in (cstr <$> v, s).

(** Overwriting the node at [l]. *)
Definition overwrite_at (e : env) (l : loc) (v : bytes) (s : kvs_hash_t * stats) :
    Z * (kvs_hash_t * stats) :=
  match node_at l s.1 with
  | Some n => let '(rc, n') := overwrite_value e v n in (rc, (set_node l n' s.1, s.2))
  | None => (-1, s)
  end.

(** [kvs_hash_set_len]. *)
Definition kvs_hash_set_len (e : env) (k v : bytes) (s : kvs_hash_t * stats) :
    Z * (kvs_hash_t * stats) :=
  let s := ((rehash_step REHASH_STEP_BUCKETS s.1).2, s.2) in
  let '(l, s) := find_node e k s in
  match l with
  | Some l => overwrite_at e l v s
  | None =>
      let '(h, g) := s in
      let '(x, h) := hash_raw e k h in
      let second := bool_decide (rehash_idx h >= 0) in
      let target := table_of second h in
      let idx := hash_idx x (max_slots target) in
      let chain := Z.of_nat (length (chain_at target idx)) in
      let g := if decide (chain + 1 > max_chain g)
               then mk_stats (lookups g) (hits g) (misses g) (probe_steps g) (chain + 1) else g in
      match create_node_len e x k v with
      | None => (-2, (h, g))
      | Some n =>
          let target := add_count 1 (set_chain idx (n :: chain_at target idx) target) in
          let h := set_table second target h in
          (0, ((maybe_expand e h).2, g))
      end
  end.

(** [kvs_hash_set]: the same on the C string [v]. *)
Definition kvs_hash_set (e : env) (k v : bytes) (s : kvs_hash_t * stats) :
    Z * (kvs_hash_t * stats) := kvs_hash_set_len e k (cstr v) s.

(** [kvs_hash_mod]. *)
Definition kvs_hash_mod (e : env) (k v : bytes) (s : kvs_hash_t * stats) :
    Z * (kvs_hash_t * stats) :=
  let s := ((rehash_step REHASH_STEP_BUCKETS s.1).2, s.2) in
  let '(l, s) := find_node e k s in
  match l with
  | None => (1, s)
  | Some l => overwrite_at e l (cstr v) s
  end.

(** Unlinking the first node with the key from one table. *)
Definition del_in (e : env) (k : bytes) (x : Z) (second : bool) (h : kvs_hash_t) :
    option kvs_hash_t :=
  let t := table_of second h in
  if decide (nodes t <> None /\ count t > 0) then
    let idx := hash_idx x (max_slots t) in
    match (find_chain k (chain_at t idx)).1 with
    | None => None
    | Some p =>
        let t := set_chain idx (delete p (chain_at t idx)) t in
        let t := if decide (count t > 0) then add_count (-1) t else t in
        Some (maybe_shrink e (set_table second t h)).2
    end
  else None.

(** [kvs_hash_del]. *)
Definition kvs_hash_del (e : env) (k : bytes) (s : kvs_hash_t * stats) :
    Z * (kvs_hash_t * stats) :=
  let h := (rehash_step REHASH_STEP_BUCKETS s.1).2 in
  let '(x, h) := hash_raw e k h in
  match del_in e k x false h with
  | Some h => (0, (h, s.2))
  | None =>
      match (if decide (rehash_idx h >= 0) then del_in e k x true h else None) with
      | Some h => (0, (h, s.2))
      | None => (1, (h, s.2))
      end
  end.

(** [kvs_hash_get_stats] on the global table. *)
Definition kvs_hash_get_stats (s : kvs_hash_t * stats) : stats * Z * Z * bool :=
  (s.2, max_slots (ht0 s.1), count (ht0 s.1) + count (ht1 s.1),
   bool_decide (rehash_idx s.1 >= 0)).

End Ops.

(** ** The abstract map and well-formedness *)

(** All nodes of a table, and of both. *)
Definition entries (t : hashtable_t) : list hashnode_t := concat (default [] (nodes t)).
Definition all (h : kvs_hash_t) : list hashnode_t := entries (ht0 h) ++ entries (ht1 h).

Definition kv (n : hashnode_t) : bytes * bytes := (key n, value n).

(** The map the engine stands for. *)
Definition abs (h : kvs_hash_t) : gmap bytes bytes := list_to_map (kv <$> all h).
#[global] Arguments abs : simpl never.

(** The hash a key has under a seed. *)
Definition hash_of (sd : Z * Z) (k : bytes) : Z := u32 (siphash24 k sd.1 sd.2).

Record node_ok (sd : Z * Z) (n : hashnode_t) : Prop := {
  nok_hv : hv n = hash_of sd (key n);
  nok_vlen : vlen n = Z.of_nat (length (value n));
  nok_cap : vlen n < vcap n;
}.

(** Every node of the chain at [i] is a node of bucket [i]. *)
Definition in_bucket (sd : Z * Z) (size : Z) (i : Z) (c : list hashnode_t) : Prop :=
  Forall (fun n => node_ok sd n /\ hash_idx (hv n) size = i) c.

Record table_ok (sd : Z * Z) (t : hashtable_t) : Prop := {
  tok_nodes : nodes t <> None;
  tok_len : Z.of_nat (length (default [] (nodes t))) = max_slots t;
  tok_size : 0 < max_slots t < 2 ^ 31;
  tok_count : count t = Z.of_nat (length (entries t));
  tok_buckets : forall i c, default [] (nodes t) !! i = Some c ->
                  in_bucket sd (max_slots t) (Z.of_nat i) c;
}.

(** The two tables while a rehash is under way; [rehash_idx] may have reached
    the end, as it does inside [_rehash_step]. *)
Record rehashing_ok (h : kvs_hash_t) : Prop := {
  rh_t0 : table_ok (seed h) (ht0 h);
  rh_t1 : table_ok (seed h) (ht1 h);
  rh_idx : 0 <= rehash_idx h <= max_slots (ht0 h);
  rh_done : forall i, 0 <= i < rehash_idx h -> chain_at (ht0 h) i = [];
}.

(** The invariant of the engine. *)
Record wf (h : kvs_hash_t) : Prop := {
  wf_t0 : table_ok (seed h) (ht0 h);
  wf_rehash : (rehash_idx h = -1 /\ ht1 h = empty_table) \/
              (rehashing_ok h /\ rehash_idx h < max_slots (ht0 h));
  wf_keys : NoDup (key <$> all h);
  wf_seed : (seed h).1 <> 0 \/ (seed h).2 <> 0;
}.

(** The calls of the engine contract, with the codes as results. *)
Definition exec (init : Z) (e : env) (o : op) (s : kvs_hash_t * stats) :
    res * (kvs_hash_t * stats) :=
  match o with
  | OSet k v => let '(rc, s) := kvs_hash_set e k v s in (RCode rc, s)
  | OGet k => let '(v, s) := kvs_hash_get e k s in (RVal v, s)
  | OMod k v => let '(rc, s) := kvs_hash_mod e k v s in (RCode rc, s)
  | ODel k => let '(rc, s) := kvs_hash_del init e k s in (RCode rc, s)
  | OExist k => let '(rc, s) := kvs_hash_exist e k s in (RCode rc, s)
  end.

(** What callers of [kvs_hash_get] see: values up to their first NUL. *)
Definition abs_str (h : kvs_hash_t) : gmap bytes bytes := cstr <$> abs h.

(** The larger of the two bucket arrays. *)
Definition slots (h : kvs_hash_t) : Z := Z.max (max_slots (ht0 h)) (max_slots (ht1 h)).

Definition stats0 : stats := mk_stats 0 0 0 0 0.

(** ** Chains *)

Lemma find_chain_Some k c p : (find_chain k c).1 = Some p ->
  exists n, c !! p = Some n /\ key n = k.
Proof.
  revert p. induction c as [|n c IH]; intros p; cbn; [done|].
  destruct (decide _) as [Hd|Hd].
  - intros [= <-]. exists n. split; [done|]. by apply strcmp_eq.
  - destruct (find_chain k c) as [q st]. cbn in *. destruct q as [q|]; [|done].
    intros [= <-]. by apply IH.
Qed.

Lemma find_chain_None k c : (find_chain k c).1 = None -> k ∉ (key <$> c).
Proof.
  induction c as [|n c IH]; cbn; [intros _; apply not_elem_of_nil|].
  destruct (decide _) as [Hd|Hd]; [done|].
  destruct (find_chain k c) as [[q|] st]; cbn in *; [done|].
  intros _ [->|?]%elem_of_cons; [|by apply IH]. by rewrite strcmp_refl in Hd.
Qed.

(** ** Buckets of a table *)

Lemma chain_lookup sd t idx : table_ok sd t -> 0 <= idx < max_slots t ->
  default [] (nodes t) !! Z.to_nat idx = Some (chain_at t idx).
Proof.
  intros [] Hi. unfold chain_at.
  destruct (default [] (nodes t) !! Z.to_nat idx) eqn:E; [done|].
  apply lookup_ge_None in E. lia.
Qed.

Lemma chain_in_bucket sd t idx : table_ok sd t -> 0 <= idx < max_slots t ->
  in_bucket sd (max_slots t) idx (chain_at t idx).
Proof.
  intros Hok Hi. pose proof (chain_lookup _ _ _ Hok Hi) as Hl.
  apply (tok_buckets _ _ Hok) in Hl. by rewrite Z2Nat.id in Hl by lia.
Qed.

(** Replacing one chain. *)
Lemma table_set_chain sd t idx c d :
  table_ok sd t -> 0 <= idx < max_slots t -> in_bucket sd (max_slots t) idx c ->
  d = Z.of_nat (length c) - Z.of_nat (length (chain_at t idx)) ->
  table_ok sd (add_count d (set_chain idx c t)) /\
  exists R, entries t ≡ₚ chain_at t idx ++ R /\
            entries (add_count d (set_chain idx c t)) ≡ₚ c ++ R.
Proof.
  intros Hok Hi Hc Hd. pose proof (chain_lookup _ _ _ Hok Hi) as Hl.
  destruct (concat_middle _ _ _ Hl) as (R & HR & HR').
  pose proof Hok as [Hn Hlen Hsz Hcnt Hb]. unfold entries in *.
  destruct t as [[ns|] sz cnt]; cbn in *; [|done]. specialize (HR' c).
  split; [|by exists R]. split; cbn; try done.
  - by rewrite length_insert.
  - unfold entries. cbn. rewrite HR', Hcnt, HR, !length_app. lia.
  - intros i c' Hi'. destruct (decide (i = Z.to_nat idx)) as [->|Hne].
    + rewrite list_lookup_insert_eq in Hi' by lia. simplify_eq. by rewrite Z2Nat.id by lia.
    + rewrite list_lookup_insert_ne in Hi' by done. by apply Hb.
Qed.

Lemma add_count_0 t : add_count 0 t = t.
Proof. destruct t. unfold add_count. cbn. by rewrite Z.add_0_r. Qed.

(** A key's nodes sit in the bucket of its hash. *)
Lemma elem_bucket sd t n : table_ok sd t -> n ∈ entries t ->
  n ∈ chain_at t (hash_idx (hash_of sd (key n)) (max_slots t)) /\ node_ok sd n.
Proof.
  intros Hok Hn. unfold entries in Hn.
  apply elem_of_concat in Hn as (c & Hnc & Hc). apply list_elem_of_lookup in Hc as (i & Hi).
  pose proof (tok_buckets _ _ Hok _ _ Hi) as Hb. unfold in_bucket in Hb.
  rewrite Forall_forall in Hb. destruct (Hb _ Hnc) as [Hnok Hidx]. split; [|done].
  rewrite <- (nok_hv _ _ Hnok), Hidx. unfold chain_at. by rewrite Nat2Z.id, Hi.
Qed.

Lemma elem_chain sd t idx n : table_ok sd t -> 0 <= idx < max_slots t ->
  n ∈ chain_at t idx -> n ∈ entries t.
Proof.
  intros Hok Hi Hn. apply elem_of_concat. exists (chain_at t idx). split; [done|].
  apply list_elem_of_lookup. eexists. by eapply chain_lookup.
Qed.

Lemma hash_of_range sd k : 0 <= hash_of sd k.
Proof. apply u32_range. Qed.

Lemma idx_ok sd t k : table_ok sd t ->
  0 <= hash_idx (hash_of sd k) (max_slots t) < max_slots t.
Proof. intros []. apply hash_idx_range; [apply hash_of_range|done]. Qed.

(** ** Rehashing *)

(** Pushing a chain of nodes of this seed onto [ht[1]]. *)
Lemma migrate_spec c h :
  table_ok (seed h) (ht1 h) -> Forall (node_ok (seed h)) c ->
  let h' := fold_left migrate_node c h in
  table_ok (seed h) (ht1 h') /\ max_slots (ht1 h') = max_slots (ht1 h) /\
  entries (ht1 h') ≡ₚ c ++ entries (ht1 h) /\
  ht0 h' = add_count (- Z.of_nat (length c)) (ht0 h) /\
  rehash_idx h' = rehash_idx h /\ seed h' = seed h.
Proof.
  revert h. induction c as [|n c IH]; intros h Ht Hc; cbn [fold_left length].
  - cbn. rewrite add_count_0. by split_and!.
  - inversion Hc as [|? ? Hn Hc']; subst.
    set (idx := hash_idx (hv n) (max_slots (ht1 h))).
    assert (0 <= idx < max_slots (ht1 h)) as Hi.
    { unfold idx. rewrite (nok_hv _ _ Hn). by apply (idx_ok (seed h)). }
    destruct (table_set_chain (seed h) (ht1 h) idx (n :: chain_at (ht1 h) idx) 1)
      as (Ht' & R & HR & HR'); [done..| |cbn; lia|].
    { constructor; [done|by apply chain_in_bucket]. }
    destruct (IH (migrate_node h n)) as (H1 & H2 & H3 & H4 & H5 & H6); [done..|].
    split_and!; try done.
    + rewrite H3. change (ht1 (migrate_node h n)) with
        (add_count 1 (set_chain idx (n :: chain_at (ht1 h) idx) (ht1 h))).
      rewrite HR', HR. cbn. solve_Permutation.
    + rewrite H4. cbn. unfold add_count. cbn. f_equal. lia.
Qed.

(** One bucket moved. *)
Lemma migrate_bucket h :
  rehashing_ok h -> rehash_idx h < max_slots (ht0 h) ->
  let h1 := fold_left migrate_node (chain_at (ht0 h) (rehash_idx h)) h in
  let h' := set_rehash_idx (rehash_idx h + 1)
              (set_ht0 (set_chain (rehash_idx h) [] (ht0 h1)) h1) in
  rehashing_ok h' /\ all h' ≡ₚ all h /\ seed h' = seed h /\
  max_slots (ht0 h') = max_slots (ht0 h) /\ max_slots (ht1 h') = max_slots (ht1 h).
Proof.
  intros [Ht0 Ht1 Hidx Hdone] Hlt. cbv zeta. set (c := chain_at (ht0 h) (rehash_idx h)).
  assert (in_bucket (seed h) (max_slots (ht0 h)) (rehash_idx h) c) as Hb
    by (apply chain_in_bucket; [done|lia]).
  destruct (migrate_spec c h Ht1) as (H1 & H2 & H3 & H4 & H5 & H6).
  { eapply Forall_impl; [apply Hb|]. by intros n []. }
  destruct (table_set_chain (seed h) (ht0 h) (rehash_idx h) [] (- Z.of_nat (length c)))
    as (Ht & R & HR & HR'); [done|lia|constructor|cbn; unfold c; lia|].
  set (h1 := fold_left migrate_node c h) in *.
  assert (set_chain (rehash_idx h) [] (ht0 h1) =
          add_count (- Z.of_nat (length c)) (set_chain (rehash_idx h) [] (ht0 h))) as Heq
    by (rewrite H4; done).
  assert (forall i, 0 <= i < rehash_idx h + 1 ->
            chain_at (set_chain (rehash_idx h) [] (ht0 h1)) i = []) as Hd.
  { intros i Hi. rewrite Heq. unfold chain_at. cbn.
    pose proof (tok_nodes _ _ Ht0). specialize (Hdone i). unfold chain_at in Hdone.
    pose proof (tok_len _ _ Ht0).
    destruct (nodes (ht0 h)) as [ns|]; [|done]. cbn in *.
    destruct (decide (i = rehash_idx h)) as [->|].
    - by rewrite list_lookup_insert_eq by lia.
    - rewrite list_lookup_insert_ne by lia. apply Hdone. lia. }
  split_and!; try (cbn; congruence).
  - split; cbn [ht0 ht1 rehash_idx seed set_rehash_idx set_ht0].
    + by rewrite Heq, H6.
    + by rewrite H6.
    + rewrite H4. cbn. lia.
    + done.
  - unfold all. cbn [ht0 ht1 set_rehash_idx set_ht0]. rewrite Heq, HR', H3, HR. cbn. 
    fold c. solve_Permutation.
  - cbn. rewrite H4. done.
Qed.

(** An empty bucket skipped. *)
Lemma skip_bucket h :
  rehashing_ok h -> rehash_idx h < max_slots (ht0 h) ->
  chain_at (ht0 h) (rehash_idx h) = [] ->
  rehashing_ok (set_rehash_idx (rehash_idx h + 1) h).
Proof.
  intros [Ht0 Ht1 Hidx Hdone] Hlt Hc. split; cbn; try done; [lia|].
  intros i Hi. destruct (decide (i = rehash_idx h)) as [->|]; [done|]. apply Hdone. lia.
Qed.

Lemma rehash_loop_spec fuel remaining h :
  rehashing_ok h ->
  let h' := rehash_loop fuel remaining h in
  rehashing_ok h' /\ all h' ≡ₚ all h /\ seed h' = seed h /\
  max_slots (ht0 h') = max_slots (ht0 h) /\ max_slots (ht1 h') = max_slots (ht1 h) /\
  rehash_idx h <= rehash_idx h' /\
  (0 < remaining -> (0 < fuel)%nat -> rehash_idx h < max_slots (ht0 h) ->
   rehash_idx h < rehash_idx h').
Proof.
  revert remaining h. induction fuel as [|f IH]; intros remaining h Hok;
    cbn [rehash_loop].
  - split_and!; try done; lia.
  - destruct (decide _) as [[Hr Hlt]|Hd]; [|split_and!; try done; lia].
    destruct (chain_at (ht0 h) (rehash_idx h)) as [|n c] eqn:E.
    + destruct (IH remaining _ (skip_bucket h Hok Hlt E)) as (H1 & H2 & H3 & H4 & H5 & H6 & _).
      cbn in H6. split_and!; try done; lia.
    + destruct (migrate_bucket h Hok Hlt) as (H1 & H2 & H3 & H4 & H5). rewrite E in *.
      destruct (IH (remaining - 1) _ H1) as (H1' & H2' & H3' & H4' & H5' & H6' & _).
      cbn [rehash_idx set_rehash_idx] in H6'.
      split_and!; try done; try congruence; try lia. by rewrite H2'.
Qed.

Lemma entries_done sd t : table_ok sd t ->
  (forall i, 0 <= i < max_slots t -> chain_at t i = []) -> entries t = [].
Proof.
  intros Hok Hall. destruct (entries t) as [|n l] eqn:E; [done|].
  destruct (elem_bucket sd t n Hok) as [Hn _]; [rewrite E; left|].
  rewrite Hall in Hn by (by apply (idx_ok sd)). by apply not_elem_of_nil in Hn.
Qed.

(** A rehash step keeps the engine well formed, moves nodes without losing,
    adding or changing one, and gets on. *)
Lemma rehash_step_spec buckets h :
  wf h -> let h' := (rehash_step buckets h).2 in
  wf h' /\ all h' ≡ₚ all h /\ seed h' = seed h.
Proof.
  intros Hwf. pose proof Hwf as [Ht0 Hre Hk Hs]. unfold rehash_step.
  destruct (decide (rehash_idx h < 0)) as [|Hn]; [done|].
  destruct Hre as [[? _]|[Hok Hlt]]; [lia|].
  destruct (rehash_loop_spec (Z.to_nat (max_slots (ht0 h) - rehash_idx h)) buckets h Hok)
    as (H1 & H2 & H3 & H4 & H5 & _ & _).
  set (h1 := rehash_loop _ _ _) in *. destruct (decide _) as [Hd|Hd]; cbn.
  - assert (entries (ht0 h1) = []) as He.
    { apply (entries_done (seed h1)); [apply H1|]. intros i Hi. apply H1.
      pose proof (rh_idx _ H1). lia. }
    assert (all (mk_hash (ht1 h1) empty_table (-1) (seed h1)) = all h1) as Hall.
    { unfold all. cbn. rewrite He. cbn. by rewrite app_nil_r. }
    split_and!; [|by rewrite Hall|done]. split; cbn.
    + apply H1.
    + by left.
    + by rewrite Hall, H2.
    + by rewrite H3.
  - split_and!; try done. split; [apply H1| |by rewrite H2|by rewrite H3].
    right. split; [done|lia].
Qed.

(** ** Looking up *)

Lemma hash_raw_wf e k h : wf h -> hash_raw e k h = (hash_of (seed h) k, h).
Proof.
  intros []. unfold hash_raw, seeded. destruct (clock e) as [[sec nsec] pid].
  rewrite hash_seed_stable by done. by destruct h.
Qed.

(** The tables that may hold nodes. *)
Definition in_use (s : bool) (h : kvs_hash_t) : Prop := s = true -> rehash_idx h >= 0.

Lemma table_of_ok s h : wf h -> in_use s h -> table_ok (seed h) (table_of s h).
Proof.
  intros [Ht0 Hre _ _] Hs. destruct s; [|done]. specialize (Hs eq_refl).
  destruct Hre as [[? _]|[[] _]]; [lia|done].
Qed.

Lemma unused_entries h : wf h -> rehash_idx h < 0 -> entries (ht1 h) = [].
Proof. intros [_ [[_ ->]|[[] _]] _ _] Hi; [done|lia]. Qed.

(** [l] points to the node [n] of key [k]. *)
Definition points_to (l : loc) (h : kvs_hash_t) (k : bytes) (n : hashnode_t) : Prop :=
  let '(s, idx, p) := l in
  in_use s h /\ idx = hash_idx (hash_of (seed h) k) (max_slots (table_of s h)) /\
  chain_at (table_of s h) idx !! p = Some n /\ key n = k.

Lemma find_in_spec e k s h : wf h -> in_use s h ->
  exists l st, find_in e k s h = (l, st, h) /\
    match l with
    | Some l => exists n, points_to l h k n
    | None => k ∉ key <$> entries (table_of s h)
    end.
Proof.
  intros Hwf Hs. pose proof (table_of_ok s h Hwf Hs) as Ht. unfold find_in.
  destruct (decide _) as [Hd|Hd].
  - rewrite hash_raw_wf by done. set (idx := hash_idx _ _).
    destruct (find_chain k (chain_at (table_of s h) idx)) as [p st] eqn:E.
    exists ((fun p => (s, idx, p)) <$> p), st. split; [done|]. destruct p as [p|]; cbn.
    + destruct (find_chain_Some k _ p ltac:(by rewrite E)) as (n & Hn & Hk).
      exists n. done.
    + intros (n & -> & Hn)%list_elem_of_fmap.
      apply (find_chain_None (key n) (chain_at (table_of s h) idx)); [by rewrite E|].
      apply list_elem_of_fmap. exists n. split; [done|].
      by apply (elem_bucket (seed h)).
  - exists None, 0. split; [done|]. pose proof Ht as [].
    destruct (entries (table_of s h)) as [|n r]; [apply not_elem_of_nil|].
    cbn in *. destruct Hd. split; [done|lia].
Qed.

Lemma points_to_elem l h k n : wf h -> points_to l h k n -> n ∈ all h.
Proof.
  intros Hwf. destruct l as [[s idx] p]. intros (Hs & -> & Hn & _).
  pose proof (table_of_ok s h Hwf Hs) as Ht.
  apply list_elem_of_lookup_2, (elem_chain (seed h)) in Hn; [|done|by apply idx_ok].
  unfold all. destruct s; set_solver.
Qed.

Lemma hash_abs_lookup h n : wf h -> n ∈ all h -> abs h !! key n = Some (value n).
Proof.
  intros [_ _ Hk _] Hn. apply elem_of_list_to_map_1.
  - by rewrite <- list_fmap_compose.
  - apply list_elem_of_fmap. by exists n.
Qed.

Lemma hash_abs_lookup_None h k : k ∉ key <$> all h -> abs h !! k = None.
Proof. intros Hk. apply not_elem_of_list_to_map_1. by rewrite <- list_fmap_compose. Qed.

(** [_find_node] finds the node of a key that is present and only that. *)
Lemma find_node_spec e k h g : wf h ->
  exists l g', find_node e k (h, g) = (l, (h, g')) /\
    match l with
    | Some l => exists n, points_to l h k n
    | None => k ∉ key <$> all h
    end.
Proof.
  intros Hwf. unfold find_node.
  destruct (find_in_spec e k false h Hwf) as (l0 & st0 & -> & H0); [done|].
  destruct l0 as [l0|]; [by eexists _, _|].
  assert (exists l1 st1, (if decide (rehash_idx h >= 0) then find_in e k true h else (None, 0, h))
            = (l1, st1, h) /\
          match l1 with Some l => exists n, points_to l h k n
                   | None => k ∉ key <$> entries (ht1 h) end) as (l1 & st1 & -> & H1).
  { destruct (decide (rehash_idx h >= 0)) as [Hd|Hd].
    - apply (find_in_spec e k true h); [done|]. by intros _.
    - exists None, 0. split; [done|]. rewrite unused_entries by (done || lia).
      apply not_elem_of_nil. }
  destruct l1 as [l1|]; eexists _, _; (split; [done|]); [done|].
  unfold all. rewrite fmap_app. set_solver.
Qed.

(** ** Changing one chain *)

Lemma abs_perm h h' : NoDup (key <$> all h) -> all h' ≡ₚ all h -> abs h' = abs h.
Proof.
  intros Hk Hp. unfold abs. symmetry. apply list_to_map_proper.
  - by rewrite <- list_fmap_compose.
  - by rewrite Hp.
Qed.

Lemma chain_at_set i idx c d t :
  i <> idx -> 0 <= i -> 0 <= idx -> chain_at (add_count d (set_chain idx c t)) i = chain_at t i.
Proof.
  intros Hne Hi Hidx. unfold chain_at. cbn. destruct (nodes t); [|done]. cbn.
  by rewrite list_lookup_insert_ne by lia.
Qed.

(** Replacing a chain of the engine by one whose nodes belong there. *)
Lemma set_table_spec s idx c d h :
  wf h -> in_use s h -> 0 <= idx < max_slots (table_of s h) ->
  in_bucket (seed h) (max_slots (table_of s h)) idx c ->
  d = Z.of_nat (length c) - Z.of_nat (length (chain_at (table_of s h) idx)) ->
  (c = [] \/ s = true \/ rehash_idx h <= idx) ->
  let h' := set_table s (add_count d (set_chain idx c (table_of s h))) h in
  exists R, all h ≡ₚ chain_at (table_of s h) idx ++ R /\ all h' ≡ₚ c ++ R /\
    (NoDup (key <$> all h') -> wf h').
Proof.
  intros Hwf Hs Hi Hb Hd Hpos h'. pose proof Hwf as [Ht0 Hre Hk Hsd].
  pose proof (table_of_ok s h Hwf Hs) as Ht.
  destruct (table_set_chain (seed h) _ idx c d Ht Hi Hb Hd) as (Ht' & R & HR & HR').
  destruct s; cbn in *.
  - exists (entries (ht0 h) ++ R). split_and!.
    + unfold all. rewrite HR. solve_Permutation.
    + unfold all. cbn. rewrite HR'. solve_Permutation.
    + intros Hn. destruct Hre as [[? _]|[[] Hlt]]; [specialize (Hs eq_refl); lia|].
      split; try done. right. done.
  - exists (R ++ entries (ht1 h)). split_and!.
    + unfold all. rewrite HR. solve_Permutation.
    + unfold all. cbn. rewrite HR'. solve_Permutation.
    + intros Hn. split; try done. destruct Hre as [|[[Hr0 Hr1 Hri Hrd] Hlt]]; [by left|right].
      split; [|done]. split; cbn; try done. intros i Hir.
      destruct (decide (i = idx)) as [->|]; [|rewrite chain_at_set by lia; by apply Hrd].
      destruct Hpos as [->|[?|?]]; [|done|lia].
      unfold chain_at. cbn. pose proof (tok_nodes _ _ Ht). pose proof (tok_len _ _ Ht).
      destruct (nodes (ht0 h)) as [ns|]; [|done]. cbn in *.
      by rewrite list_lookup_insert_eq by lia.
Qed.

(** A bucket with a node in it has not been migrated. *)
Lemma chain_not_migrated s h idx p n :
  wf h -> 0 <= idx -> chain_at (table_of s h) idx !! p = Some n ->
  s = true \/ rehash_idx h <= idx.
Proof.
  intros [_ Hre _ _] Hi Hn. destruct s; [by left|right].
  destruct (decide (rehash_idx h <= idx)) as [|Hd]; [done|].
  destruct Hre as [[? _]|[[_ _ _ Hrd] _]]; [lia|]. cbn in Hn. by rewrite Hrd in Hn by lia.
Qed.

(** ** Operations on the map *)

Lemma abs_cons h n R : all h ≡ₚ n :: R -> NoDup (key <$> all h) ->
  abs h = <[key n := value n]> (list_to_map (kv <$> R)).
Proof.
  intros Hp Hk. unfold abs. rewrite (list_to_map_proper _ (kv <$> n :: R)); [done| |by rewrite Hp].
  by rewrite <- list_fmap_compose.
Qed.

Lemma abs_cons_fresh (R : list hashnode_t) k : k ∉ key <$> R ->
  (list_to_map (kv <$> R) : gmap bytes bytes) !! k = None.
Proof. intros Hk. apply not_elem_of_list_to_map_1. by rewrite <- list_fmap_compose. Qed.

Lemma perm_cons_keys h n R : all h ≡ₚ n :: R -> NoDup (key <$> all h) ->
  key n ∉ key <$> R /\ NoDup (key <$> R).
Proof.
  intros Hp Hk. rewrite Hp in Hk. by apply NoDup_cons in Hk.
Qed.

Lemma in_bucket_insert sd size i c p n :
  in_bucket sd size i c -> node_ok sd n -> hash_idx (hv n) size = i ->
  in_bucket sd size i (<[p := n]> c).
Proof. intros Hb Hn Hi. by apply Forall_insert. Qed.

Lemma in_bucket_delete sd size i c p : in_bucket sd size i c -> in_bucket sd size i (delete p c).
Proof. apply Forall_delete. Qed.

(** What a pointer gives: the node is in the map, and the chain it is in can
    be split around it. *)
Lemma points_to_node l h k n : wf h -> points_to l h k n ->
  node_at l h = Some n /\ node_ok (seed h) n /\ abs h !! k = Some (value n).
Proof.
  intros Hwf Hp. pose proof (points_to_elem l h k n Hwf Hp) as He.
  destruct l as [[s idx] p]. destruct Hp as (Hs & -> & Hn & Hk). split_and!; [done| |].
  - pose proof (table_of_ok s h Hwf Hs) as Ht.
    pose proof (chain_in_bucket _ _ _ Ht (idx_ok _ _ k Ht)) as Hb.
    eapply Forall_lookup_1 in Hb; [|done]. by destruct Hb.
  - rewrite <- Hk. by apply hash_abs_lookup.
Qed.

(** Changing the value of the node a pointer leads to. *)
Lemma set_node_spec l h k n n' : wf h -> points_to l h k n ->
  node_ok (seed h) n' -> key n' = key n ->
  wf (set_node l n' h) /\ abs (set_node l n' h) = <[k := value n']> (abs h).
Proof.
  intros Hwf Hp Hn' Hkey. destruct (points_to_node _ _ _ _ Hwf Hp) as (_ & Hnok & _).
  destruct l as [[s idx] p]. destruct Hp as (Hs & Hidx & Hn & Hk).
  pose proof (table_of_ok s h Hwf Hs) as Ht. pose proof (idx_ok _ _ k Ht) as Hi.
  rewrite <- Hidx in Hi. cbn [set_node].
  rewrite <- (add_count_0 (set_chain _ _ _)).
  destruct (set_table_spec s idx (<[p:=n']> (chain_at (table_of s h) idx)) 0 h)
    as (R & HR & HR' & Hw); try done.
  { apply in_bucket_insert; [by apply chain_in_bucket|done|].
    by rewrite (nok_hv _ _ Hn'), Hkey, Hk. }
  { rewrite length_insert. lia. }
  { right. eapply chain_not_migrated; [done|lia|done]. }
  set (h' := set_table _ _ _) in *. pose proof (wf_keys _ Hwf) as Hnd.
  apply delete_Permutation in Hn as Hd.
  assert (all h ≡ₚ n :: (delete p (chain_at (table_of s h) idx) ++ R)) as H1
    by (rewrite HR, Hd at 1; done).
  assert (all h' ≡ₚ n' :: (delete p (chain_at (table_of s h) idx) ++ R)) as H2.
  { rewrite HR'. pose proof (lookup_lt_Some _ _ _ Hn).
    rewrite (delete_Permutation (<[p:=n']> _) p n') by (by apply list_lookup_insert_eq).
    cbn. by rewrite delete_of_insert. }
  assert (NoDup (key <$> all h')) as Hnd'.
  { rewrite H1 in Hnd. rewrite H2. cbn in *. by rewrite Hkey. }
  split; [by apply Hw|]. rewrite (abs_cons _ _ _ H2), (abs_cons _ _ _ H1) by done.
  by rewrite Hkey, Hk, insert_insert_eq.
Qed.

(** Taking the node a pointer leads to out of its chain. *)
Lemma delete_node_spec s idx p h k n : wf h -> points_to (s, idx, p) h k n ->
  let t := table_of s h in
  let h' := set_table s (add_count (-1) (set_chain idx (delete p (chain_at t idx)) t)) h in
  wf h' /\ abs h' = delete k (abs h).
Proof.
  intros Hwf (Hs & Hidx & Hn & Hk) t h'.
  pose proof (table_of_ok s h Hwf Hs) as Ht. pose proof (idx_ok _ _ k Ht) as Hi.
  rewrite <- Hidx in Hi. apply delete_Permutation in Hn as Hd.
  destruct (set_table_spec s idx (delete p (chain_at t idx)) (-1) h)
    as (R & HR & HR' & Hw); try done.
  { by apply in_bucket_delete, chain_in_bucket. }
  { unfold t. rewrite (Permutation_length Hd). cbn [length]. lia. }
  { right. eapply chain_not_migrated; [done|lia|done]. }
  fold t h' in HR, HR', Hw. pose proof (wf_keys _ Hwf) as Hnd.
  assert (all h ≡ₚ n :: all h') as H1 by (rewrite HR, HR'; unfold t; by rewrite Hd at 1).
  destruct (perm_cons_keys _ _ _ H1 Hnd) as [Hfr Hnd'].
  split; [by apply Hw|]. rewrite (abs_cons _ _ _ H1) by done. rewrite Hk in *.
  rewrite delete_insert_id; [done|]. by apply abs_cons_fresh.
Qed.

(** Linking a new node in front of its chain. *)
Lemma insert_node_spec s h n : wf h -> in_use s h ->
  (s = true \/ rehash_idx h = -1) ->
  node_ok (seed h) n -> key n ∉ key <$> all h ->
  let t := table_of s h in
  let idx := hash_idx (hv n) (max_slots t) in
  let h' := set_table s (add_count 1 (set_chain idx (n :: chain_at t idx) t)) h in
  wf h' /\ abs h' = <[key n := value n]> (abs h).
Proof.
  intros Hwf Hs Hpos Hn Hk t idx h'. pose proof (table_of_ok s h Hwf Hs) as Ht.
  assert (0 <= idx < max_slots t) as Hi.
  { unfold idx, t. rewrite (nok_hv _ _ Hn). by apply idx_ok. }
  destruct (set_table_spec s idx (n :: chain_at t idx) 1 h) as (R & HR & HR' & Hw); try done.
  { constructor; [done|by apply chain_in_bucket]. }
  { cbn [length]. fold t. lia. }
  { right. destruct Hpos as [->| ->]; [by left|right; lia]. }
  fold t h' in HR, HR', Hw. pose proof (wf_keys _ Hwf) as Hnd.
  assert (all h' ≡ₚ n :: all h) as H1 by (rewrite HR', HR; done).
  assert (NoDup (key <$> all h')) as Hnd' by (rewrite H1; by apply NoDup_cons).
  split; [by apply Hw|]. by rewrite (abs_cons _ _ _ H1).
Qed.

(** ** Growing and shrinking *)

Lemma fresh_table_ok sd n : 0 < n < 2 ^ 31 -> table_ok sd (mk_table (Some (fresh_nodes n)) n 0).
Proof.
  intros Hn. assert (concat (fresh_nodes n) = []) as Hc.
  { unfold fresh_nodes. induction (Z.to_nat n); [done|]. cbn. done. }
  split; cbn; try done.
  - unfold fresh_nodes. rewrite length_replicate. lia.
  - unfold entries. cbn. by rewrite Hc.
  - intros i c Hi. apply lookup_replicate in Hi as [-> _]. constructor.
Qed.

Lemma start_rehash_spec e n h : wf h -> rehash_idx h = -1 -> 0 < n < 2 ^ 31 ->
  let h' := (start_rehash e n h).2 in
  wf h' /\ all h' = all h /\ (m_table e = true -> rehash_idx h' = 0).
Proof.
  intros [Ht0 Hre Hk Hs] Hi Hn. destruct Hre as [[_ He]|[[] _]]; [|lia].
  unfold start_rehash. destruct (m_table e); cbn.
  - assert (all (mk_hash (ht0 h) (mk_table (Some (fresh_nodes n)) n 0) 0 (seed h)) = all h) as Ha.
    { unfold all, entries. cbn. rewrite He. cbn. f_equal.
      unfold fresh_nodes. induction (Z.to_nat n); [done|]. cbn. done. }
    split_and!; try done. split; cbn; try done.
    + right. split; [|pose proof (tok_size _ _ Ht0); lia].
      split; cbn; [done|by apply fresh_table_ok|pose proof (tok_size _ _ Ht0); lia|lia].
    + unfold all in *. cbn in *. by rewrite Ha.
  - rewrite He. assert (set_ht1 empty_table h = h) as E.
    { destruct h; cbn in *; by rewrite He. }
    change (mk_table None _ _) with empty_table. rewrite E. split_and!; try done.
    split; try done. by left.
Qed.

Lemma hash_size_abs h : wf h -> size (abs h) = length (all h).
Proof.
  intros [_ _ Hk _]. unfold abs. rewrite <- length_map_to_list, map_to_list_to_map.
  - by rewrite length_fmap.
  - by rewrite <- list_fmap_compose.
Qed.

Lemma count_le h : wf h -> count (ht0 h) <= Z.of_nat (size (abs h)).
Proof.
  intros Hwf. rewrite hash_size_abs by done. unfold all. rewrite length_app.
  rewrite (tok_count _ _ (wf_t0 _ Hwf)). lia.
Qed.

Lemma maybe_expand_spec e h : wf h -> Z.of_nat (size (abs h)) < 2 ^ 31 ->
  let h' := (maybe_expand e h).2 in wf h' /\ all h' = all h.
Proof.
  intros Hwf Hsz. pose proof (count_le h Hwf). pose proof (tok_size _ _ (wf_t0 _ Hwf)).
  unfold maybe_expand, HASH_LOAD_FACTOR. repeat case_decide; try done.
  destruct (start_rehash_spec e (max_slots (ht0 h) * 2) h) as (? & ? & _); try done; [|lia].
  destruct (wf_rehash _ Hwf) as [[-> _]|[[] _]]; [done|lia].
Qed.

Lemma maybe_shrink_spec init e h : wf h -> 0 < init < 2 ^ 31 ->
  let h' := (maybe_shrink init e h).2 in wf h' /\ all h' = all h.
Proof.
  intros Hwf Hin. pose proof (tok_size _ _ (wf_t0 _ Hwf)).
  unfold maybe_shrink. do 3 (case_decide; [done|]). cbv zeta.
  destruct (start_rehash_spec e
    (if decide (max_slots (ht0 h) `quot` 2 < init) then init else max_slots (ht0 h) `quot` 2) h)
    as (? & ? & _); try done.
  - destruct (wf_rehash _ Hwf) as [[-> _]|[[] _]]; [done|lia].
  - case_decide; [done|]. split; [lia|]. rewrite Z.quot_div_nonneg by lia.
    apply Z.le_lt_trans with (max_slots (ht0 h)); [apply Z.div_le_upper_bound; lia|lia].
Qed.

Lemma abs_all h h' : all h' = all h -> abs h' = abs h.
Proof. intros E. unfold abs. by rewrite E. Qed.

(** Every call starts with a rehash step, which the map does not see. *)
Lemma step_abs buckets h : wf h ->
  wf (rehash_step buckets h).2 /\ abs (rehash_step buckets h).2 = abs h.
Proof.
  intros Hwf. destruct (rehash_step_spec buckets h Hwf) as (Hw & Hp & _).
  split; [done|]. apply abs_perm; [apply Hwf|done].
Qed.

Lemma overwrite_spec e l v h g k n : wf h -> points_to l h k n ->
  exists rc h', overwrite_at e l v (h, g) = (rc, (h', g)) /\ wf h' /\
    ((rc = 0 /\ abs h' = <[k := v]> (abs h)) \/
     (rc = -2 /\ abs h' = abs h /\ m_value e = false)).
Proof.
  intros Hwf Hp. destruct (points_to_node _ _ _ _ Hwf Hp) as (Hn & Hok & Hl).
  assert (forall n', node_ok (seed h) n' -> key n' = key n ->
    wf (set_node l n' h) /\ abs (set_node l n' h) = <[k := value n']> (abs h)) as Hset
    by (intros; by eapply set_node_spec).
  unfold overwrite_at. cbn. rewrite Hn. unfold overwrite_value. pose proof Hok as [Hhv Hvl Hcap].
  case_decide as Hfit; [|destruct (m_value e) eqn:Em].
  - eexists _, _. split; [done|]. edestruct Hset as [Hw ->]; [|done|].
    + split; cbn; [done|done|lia].
    + split; [done|]. by left.
  - eexists _, _. split; [done|]. edestruct Hset as [Hw ->]; [|done|].
    + split; cbn; [done|done|]. repeat case_decide; lia.
    + split; [done|]. by left.
  - eexists _, _. split; [done|]. destruct (Hset n) as [Hw ->]; [done..|].
    split; [done|right]. split_and!; try done. by apply insert_id.
Qed.

(** [kvs_hash_set_len] stores the value under the key, or, when an allocation
    fails, changes nothing and returns -2. *)
Lemma set_len_spec e k v h g : wf h -> Z.of_nat (size (abs h)) < 2 ^ 31 - 1 ->
  exists rc h' g', kvs_hash_set_len e k v (h, g) = (rc, (h', g')) /\ wf h' /\
    ((rc = 0 /\ abs h' = <[k := v]> (abs h)) \/
     (rc = -2 /\ abs h' = abs h /\ (m_node e = false \/ m_value e = false))).
Proof.
  intros Hwf0 Hsz. unfold kvs_hash_set_len. cbn [fst snd].
  destruct (step_abs REHASH_STEP_BUCKETS h Hwf0) as [Hwf Habs].
  rewrite <- Habs in Hsz |- *. clear Habs Hwf0. set (h1 := (rehash_step _ h).2) in *.
  clearbody h1. clear h. destruct (find_node_spec e k h1 g Hwf) as (l & g' & -> & Hl).
  destruct l as [l|].
  - destruct Hl as [n Hp].
    destruct (overwrite_spec e l v h1 g' k n Hwf Hp) as (rc & h' & -> & Hw & Hc).
    eexists _, _, _. split_and!; [done|done|]. destruct Hc as [|(? & ? & ?)]; auto.
  - rewrite hash_raw_wf by done. cbv beta iota zeta. set (s := bool_decide (rehash_idx h1 >= 0)).
    unfold create_node_len. destruct (m_node e); [destruct (m_value e)|].
    + eexists _, _, _. split; [done|]. set (n := mk_node _ _ _ _ _ _).
      destruct (insert_node_spec s h1 n) as [Hw Ha]; try done.
      { intros Hs. by apply bool_decide_eq_true in Hs. }
      { unfold s. destruct (bool_decide_reflect (rehash_idx h1 >= 0)); [by left|right].
        destruct (wf_rehash _ Hwf) as [[? _]|[[] _]]; [done|lia]. }
      { split; cbn; [done|done|lia]. }
      set (h2 := set_table _ _ _) in *. destruct (maybe_expand_spec e h2) as [Hw2 Ha2]; [done| |].
      { rewrite Ha, map_size_insert. cbn. case_match; cbn; lia. }
      split; [done|left]. split; [done|]. by rewrite (abs_all _ _ Ha2).
    + eexists _, _, _. split_and!; [done|done|]. right. auto.
    + eexists _, _, _. split_and!; [done|done|]. right. auto.
Qed.

Lemma get_len_spec e k h g : wf h ->
  exists h' g', kvs_hash_get_len e k (h, g) = (abs h !! k, (h', g')) /\ wf h' /\ abs h' = abs h.
Proof.
  intros Hwf0. unfold kvs_hash_get_len. cbn [fst snd].
  destruct (step_abs REHASH_STEP_BUCKETS h Hwf0) as [Hwf <-]. set (h1 := (rehash_step _ h).2) in *.
  destruct (find_node_spec e k h1 g Hwf) as (l & g' & -> & Hl). exists h1, g'.
  split; [|done]. destruct l as [l|]; cbn.
  - destruct Hl as [n Hp]. by destruct (points_to_node _ _ _ _ Hwf Hp) as (-> & _ & ->).
  - by rewrite hash_abs_lookup_None.
Qed.

Lemma hash_exist_spec e k h g : wf h ->
  exists h' g', kvs_hash_exist e k (h, g) =
    (if decide (is_Some (abs h !! k)) then 0 else 1, (h', g')) /\ wf h' /\ abs h' = abs h.
Proof.
  intros Hwf0. unfold kvs_hash_exist. cbn [fst snd].
  destruct (step_abs REHASH_STEP_BUCKETS h Hwf0) as [Hwf <-]. set (h1 := (rehash_step _ h).2) in *.
  destruct (find_node_spec e k h1 g Hwf) as (l & g' & -> & Hl). exists h1, g'.
  split; [|done]. destruct l as [l|].
  - destruct Hl as [n Hp]. destruct (points_to_node _ _ _ _ Hwf Hp) as (_ & _ & ->).
    by rewrite decide_True by eauto.
  - rewrite hash_abs_lookup_None by done. by rewrite (decide_False (P := is_Some None)) by (by intros [? ?]).
Qed.

Lemma hash_mod_spec e k v h g : wf h ->
  exists rc h' g', kvs_hash_mod e k v (h, g) = (rc, (h', g')) /\ wf h' /\
    ((rc = 0 /\ is_Some (abs h !! k) /\ abs h' = <[k := cstr v]> (abs h)) \/
     (rc = 1 /\ abs h !! k = None /\ abs h' = abs h) \/
     (rc = -2 /\ is_Some (abs h !! k) /\ abs h' = abs h)).
Proof.
  intros Hwf0. unfold kvs_hash_mod. cbn [fst snd].
  destruct (step_abs REHASH_STEP_BUCKETS h Hwf0) as [Hwf <-]. set (h1 := (rehash_step _ h).2) in *.
  destruct (find_node_spec e k h1 g Hwf) as (l & g' & -> & Hl).
  destruct l as [l|].
  - destruct Hl as [n Hp]. destruct (points_to_node _ _ _ _ Hwf Hp) as (_ & _ & Ha).
    destruct (overwrite_spec e l (cstr v) h1 g' k n Hwf Hp) as (rc & h' & -> & Hw & Hc).
    eexists _, _, _. split_and!; [done|done|]. rewrite Ha.
    destruct Hc as [(-> & ->)|(-> & -> & _)]; eauto 10.
  - eexists _, _, _. split_and!; [done|done|]. right. left. split_and!; try done.
    by apply hash_abs_lookup_None.
Qed.

Lemma del_in_spec init e k s h : wf h -> 0 < init < 2 ^ 31 -> in_use s h ->
  match del_in init e k (hash_of (seed h) k) s h with
  | Some h' => is_Some (abs h !! k) /\ wf h' /\ abs h' = delete k (abs h)
  | None => k ∉ key <$> entries (table_of s h)
  end.
Proof.
  intros Hwf Hin Hs. pose proof (table_of_ok s h Hwf Hs) as Ht. unfold del_in.
  destruct (decide _) as [Hd|Hd].
  - set (idx := hash_idx _ _).
    destruct (find_chain k (chain_at (table_of s h) idx)).1 as [p|] eqn:E.
    + apply find_chain_Some in E as (n & Hn & Hk).
      assert (points_to (s, idx, p) h k n) as Hp by done.
      destruct (points_to_node _ _ _ _ Hwf Hp) as (_ & _ & Ha).
      destruct (delete_node_spec s idx p h k n Hwf Hp) as [Hw Hdel].
      cbv zeta. rewrite decide_True by (cbn; apply Hd).
      destruct (maybe_shrink_spec init e _ Hw Hin) as [Hw2 Ha2].
      split_and!; [by rewrite Ha|done|]. by rewrite (abs_all _ _ Ha2).
    + intros (n & -> & Hn)%list_elem_of_fmap.
      apply (find_chain_None (key n) (chain_at (table_of s h) idx)); [done|].
      apply list_elem_of_fmap. exists n. split; [done|].
      by apply (elem_bucket (seed h)).
  - pose proof Ht as []. destruct (entries (table_of s h)) as [|n r]; [apply not_elem_of_nil|].
    cbn in *. destruct Hd. split; [done|lia].
Qed.

Lemma hash_del_spec init e k h g : wf h -> 0 < init < 2 ^ 31 ->
  exists rc h', kvs_hash_del init e k (h, g) = (rc, (h', g)) /\ wf h' /\
    ((rc = 0 /\ is_Some (abs h !! k) /\ abs h' = delete k (abs h)) \/
     (rc = 1 /\ abs h !! k = None /\ abs h' = abs h)).
Proof.
  intros Hwf0 Hin. unfold kvs_hash_del. cbn [fst snd].
  destruct (step_abs REHASH_STEP_BUCKETS h Hwf0) as [Hwf <-]. set (h1 := (rehash_step _ h).2) in *.
  rewrite hash_raw_wf by done. pose proof (del_in_spec init e k false h1 Hwf Hin) as H0.
  destruct (del_in init e k _ false h1) as [h2|].
  { destruct H0 as (? & ? & ?); [done|]. eexists _, _. split_and!; [done..|]. by left. }
  assert (k ∉ key <$> entries (ht0 h1)) as Hn0 by (by apply H0). clear H0.
  destruct (decide (rehash_idx h1 >= 0)) as [Hr|Hr].
  - pose proof (del_in_spec init e k true h1 Hwf Hin (fun _ => Hr)) as H1.
    destruct (del_in init e k _ true h1) as [h2|].
    + destruct H1 as (? & ? & ?). eexists _, _. split_and!; [done..|]. by left.
    + eexists _, _. split_and!; [done..|]. right. split_and!; try done. apply hash_abs_lookup_None.
      unfold all. rewrite fmap_app, elem_of_app. by intros [|].
  - eexists _, _. split_and!; [done..|]. right. split_and!; try done. apply hash_abs_lookup_None.
    unfold all. by rewrite unused_entries, app_nil_r by (done || lia).
Qed.

Lemma hash_create_spec init e h : 0 < init < 2 ^ 31 ->
  kvs_hash_create init e = (0, h) -> (seed h).1 <> 0 \/ (seed h).2 <> 0 ->
  wf h /\ abs h = ∅.
Proof.
  unfold kvs_hash_create. intros Hin Hc Hs. destruct (m_table e); [|done].
  unfold seeded in *. destruct (clock e) as [[sec nsec] pid]. injection Hc as <-. cbn in *.
  assert (all (mk_hash (mk_table (Some (fresh_nodes init)) init 0) empty_table (-1)
    (hash_seed (rnd e) sec nsec pid (0, 0))) = []) as Ha.
  { unfold all, entries, fresh_nodes. cbn. induction (Z.to_nat init); done. }
  split.
  - split; [by apply fresh_table_ok|by left| |done].
    unfold set_ht0. cbn [ht1 rehash_idx seed]. rewrite Ha. constructor.
  - exact (f_equal (fun l => list_to_map (kv <$> l)) Ha).
Qed.

(** ** The engine contract *)

Lemma hash_exec_step init e o h g :
  0 < init < 2 ^ 31 -> wf h -> Z.of_nat (size (abs h)) < 2 ^ 31 - 1 -> op_ok o ->
  let '(r, s') := exec init e o (h, g) in
  wf s'.1 /\ spec_step (abs_str h) o r (abs_str s'.1).
Proof.
  intros Hin Hwf Hsz Hok. unfold abs_str, exec, kvs_hash_set, kvs_hash_get. destruct o; cbn in Hok.
  - destruct (set_len_spec e k (cstr v) h g Hwf Hsz) as (rc & h' & g' & -> & Hw & Hc). cbn.
    split; [done|]. destruct Hc as [(-> & ->)|(-> & -> & _)]; [|by constructor].
    rewrite fmap_insert, !cstr_id by (rewrite ?cstr_id; apply Hok). constructor.
  - destruct (get_len_spec e k h g Hwf) as (h' & g' & -> & Hw & Ha). cbn.
    rewrite Ha. split; [done|]. rewrite <- lookup_fmap. constructor.
  - destruct (hash_mod_spec e k v h g Hwf) as (rc & h' & g' & -> & Hw & Hc). cbn. split; [done|].
    destruct Hc as [(-> & ? & ->)|[(-> & Hn & ->)|(-> & ? & ->)]].
    + rewrite fmap_insert, !cstr_id by (rewrite ?cstr_id; apply Hok).
      constructor. by rewrite lookup_fmap, fmap_is_Some.
    + constructor. by rewrite lookup_fmap, Hn.
    + constructor; [|done]. by rewrite lookup_fmap, fmap_is_Some.
  - destruct (hash_del_spec init e k h g Hwf Hin) as (rc & h' & -> & Hw & Hc). cbn. split; [done|].
    destruct Hc as [(-> & ? & ->)|(-> & Hn & ->)].
    + rewrite fmap_delete. constructor. by rewrite lookup_fmap, fmap_is_Some.
    + constructor. by rewrite lookup_fmap, Hn.
  - destruct (hash_exist_spec e k h g Hwf) as (h' & g' & -> & Hw & Ha). cbn. rewrite Ha. split; [done|].
    case_decide as Hd.
    + constructor. by rewrite lookup_fmap, fmap_is_Some.
    + constructor. rewrite lookup_fmap. by apply fmap_None, eq_None_not_Some.
Qed.

Section Contract.

Context (init : Z) (Hinit : 0 < init < 2 ^ 31).

#[export] Program Instance hash_engine : Engine (kvs_hash_t * stats) env := {
  engine_wf s := wf s.1;
  engine_abs s := abs_str s.1;
  engine_room _ s := Z.of_nat (size (abs s.1)) < 2 ^ 31 - 1;
  engine_exec := exec init;
}.
Next Obligation.
  intros e o [h g] Hwf Hr Hok. cbn in *.
  pose proof (hash_exec_step init e o h g Hinit Hwf Hr Hok) as H.
  by destruct (exec init e o (h, g)).
Qed.

Lemma size_abs_str h : size (abs_str h) = size (abs h).
Proof. unfold abs_str. by rewrite map_size_fmap. Qed.

(** A run of fewer than 2^31 - 1 calls never needs more nodes than [int] counts. *)
Lemma hash_run_room es h g :
  wf h -> Forall (fun p => op_ok p.2) es ->
  Z.of_nat (size (abs h)) + Z.of_nat (length es) < 2 ^ 31 - 1 -> run_room es (h, g).
Proof.
  revert h g. induction es as [|[e o] es IH]; intros h g Hwf Hok Hl; cbn; [done|].
  inversion Hok; subst. cbn in Hl. split; [lia|].
  destruct (engine_step e o (h, g)) as [Hw Hs]; [done|cbn; lia|done|].
  destruct (engine_exec e o (h, g)) as [r [h' g']] eqn:E. cbn in E. cbn in *. rewrite E in *.
  apply spec_step_size in Hs. cbn in *. rewrite !size_abs_str in Hs. apply IH; [done|done|lia].
Qed.

#[export] Program Instance hash_capacity : Capacity (kvs_hash_t * stats) env := {
  capacity n s := Z.of_nat (size (abs s.1)) + Z.of_nat n < 2 ^ 31;
}.
Next Obligation. intros n m [h g] Hle H. cbn in *. lia. Qed.
Next Obligation. intros n o [h g] H. cbn in *. lia. Qed.
Next Obligation.
  intros n e o [h g] Hwf H Hok. cbn in Hwf, H |- *.
  pose proof (hash_exec_step init e o h g Hinit Hwf) as Hs. destruct (exec init e o (h, g)) as [r [h' g']].
  destruct Hs as [_ Hs]; [lia|done|]. apply spec_step_size in Hs. rewrite !size_abs_str in Hs. cbn in *. lia.
Qed.

#[export] Program Instance hash_blob : Blob (kvs_hash_t * stats) env := {
  blob_abs s := abs s.1;
  set_len := kvs_hash_set_len;
  get_len := kvs_hash_get_len;
}.
Next Obligation. done. Qed.
Next Obligation.
  intros e o [h g] Hwf Hr Hok. cbn in Hwf, Hr |- *. unfold exec, kvs_hash_set, kvs_hash_get.
  destruct o; cbn in Hok.
  - destruct (set_len_spec e k (cstr v) h g Hwf Hr) as (rc & h' & g' & -> & Hw & Hc). cbn.
    destruct Hc as [(-> & ->)|(-> & -> & _)]; [|by constructor]. rewrite cstr_id by apply Hok. constructor.
  - by destruct (get_len_spec e k h g Hwf) as (h' & g' & -> & Hw & Ha).
  - destruct (hash_mod_spec e k v h g Hwf) as (rc & h' & g' & -> & Hw & Hc). cbn.
    destruct Hc as [(-> & ? & ->)|[(-> & Hn & ->)|(-> & ? & ->)]]; [|by constructor..].
    rewrite cstr_id by apply Hok. by constructor.
  - destruct (hash_del_spec init e k h g Hwf Hinit) as (rc & h' & -> & Hw & Hc). cbn.
    destruct Hc as [(-> & ? & ->)|(-> & Hn & ->)]; by constructor.
  - destruct (hash_exist_spec e k h g Hwf) as (h' & g' & -> & Hw & Ha). cbn. rewrite Ha.
    case_decide as Hd; constructor; [done|]. by apply eq_None_not_Some.
Qed.
Next Obligation.
  intros n e k v [h g] Hwf Hc. cbn in Hwf, Hc.
  destruct (set_len_spec e k v h g Hwf) as (rc & h' & g' & -> & Hw & Hs); [lia|]. cbn.
  assert (spec_step (abs h) (OSet k v) (RCode rc) (abs h')) as Hst.
  { destruct Hs as [(-> & ->)|(-> & -> & _)]; by constructor. }
  split_and!; [done| |done]. apply spec_step_size in Hst. lia.
Qed.
Next Obligation.
  intros n e k [h g] Hwf Hc. cbn in Hwf, Hc.
  destruct (get_len_spec e k h g Hwf) as (h' & g' & -> & Hw & Ha). cbn. by rewrite Ha.
Qed.

End Contract.

(** (C5) The hash engine is a map: after [kvs_hash_create] succeeds with a
    seed that is not zero, any sequence of SET, GET, MOD, DEL and EXIST calls,
    whatever allocations fail and however the calls interleave with growing,
    shrinking and the steps of a rehash, returns exactly what the contract over a finite
    map returns, starting from the empty map, and ends well formed. *)
Theorem hash_refines_map init (Hin : 0 < init < 2 ^ 31) e0 h0 g0 es :
  kvs_hash_create init e0 = (0, h0) -> (seed h0).1 <> 0 \/ (seed h0).2 <> 0 ->
  Forall (fun p => op_ok p.2) es -> Z.of_nat (length es) < 2 ^ 31 - 1 ->
  let r := engine_run (Engine0 := hash_engine init Hin) es (h0, g0) in
  wf r.2.1 /\ spec_run ∅ (snd <$> es) r.1 (abs_str r.2.1).
Proof.
  intros Hc Hs Hok Hl r. destruct (hash_create_spec init e0 h0 Hin Hc Hs) as [Hwf Habs].
  destruct (engine_run_refines (Engine0 := hash_engine init Hin) es (h0, g0)) as [Hw Hr]; [done| |done|].
  - apply hash_run_room; [done|done|]. rewrite Habs, map_size_empty. lia.
  - cbn in Hr. unfold abs_str in Hr at 1. by rewrite Habs, fmap_empty in Hr.
Qed.

(** An environment in which every allocation succeeds. *)
Definition env_ok : env := mk_env true true true (Some (7, 9)) (0, 0, 0).

Lemma hash_refines_map_witness :
  let ops := [OSet [97] [49]; OSet [98] [50]; OGet [97]; ODel [97]; OGet [97]; OMod [98] [51]; OGet [98]] in
  let h0 := (kvs_hash_create 1 env_ok).2 in
  let r := engine_run (Engine0 := hash_engine 1 (conj eq_refl eq_refl))
             (map (pair env_ok) ops) (h0, stats0) in
  r.1 = [RCode 0; RCode 0; RVal (Some [49]); RCode 0; RVal None; RCode 0; RVal (Some [51])] /\
  spec_run ∅ ops r.1 (abs_str r.2.1).
Proof.
  intros ops h0 r. split; [vm_compute; reflexivity|].
  refine (proj2 (hash_refines_map 1 (conj eq_refl eq_refl) env_ok h0 stats0
                   (map (pair env_ok) ops) _ _ _ _)).
  - vm_compute. reflexivity.
  - left. vm_compute. discriminate.
  - repeat (constructor; [cbn; repeat constructor; lia|]). constructor.
  - vm_compute. reflexivity.
Defined.

(** ** Binary values *)

(** Values are binary safe: a [kvs_hash_set_len] that returns 0 makes
    [kvs_hash_get_len] return the same bytes, NULs included, until the key is
    written again, and leaves every other key's value as it was. *)
Theorem hash_set_get_len e e' k v h g :
  wf h -> Z.of_nat (size (abs h)) < 2 ^ 31 - 1 ->
  let s' := kvs_hash_set_len e k v (h, g) in
  s'.1 = 0 ->
  (kvs_hash_get_len e' k s'.2).1 = Some v /\
  (forall k', k' <> k -> (kvs_hash_get_len e' k' s'.2).1 = (kvs_hash_get_len e' k' (h, g)).1).
Proof.
  intros Hwf Hsz. destruct (set_len_spec e k v h g Hwf Hsz) as (rc & h' & g' & -> & Hw & Hc).
  cbn. intros ->. destruct Hc as [[_ Ha]|[? _]]; [|done].
  split; [|intros k' Hk'].
  - destruct (get_len_spec e' k h' g' Hw) as (? & ? & -> & _). by rewrite Ha, lookup_insert_eq.
  - destruct (get_len_spec e' k' h' g' Hw) as (? & ? & -> & _).
    destruct (get_len_spec e' k' h g Hwf) as (? & ? & -> & _).
    cbn. by rewrite Ha, lookup_insert_ne.
Qed.

Lemma hash_set_get_len_witness :
  let h0 := (kvs_hash_create 2 env_ok).2 in
  (kvs_hash_get_len env_ok [107] (kvs_hash_set_len env_ok [107] [0; 255; 0] (h0, stats0)).2).1
  = Some [0; 255; 0].
Proof.
  refine (proj1 (hash_set_get_len env_ok env_ok [107] [0; 255; 0] _ stats0 _ _ _)).
  - refine (proj1 (hash_create_spec 2 env_ok _ _ eq_refl _)); [lia|left; vm_compute; discriminate].
  - vm_compute. reflexivity.
  - vm_compute. reflexivity.
Defined.

(** ** The rehash ends *)

Definition rehash_steps (n : nat) (h : kvs_hash_t) : kvs_hash_t :=
  Nat.iter n (fun h => (rehash_step REHASH_STEP_BUCKETS h).2) h.

Lemma rehash_step_progress buckets h : wf h -> 0 < buckets -> 0 <= rehash_idx h ->
  let h' := (rehash_step buckets h).2 in
  rehash_idx h' = -1 \/ (rehash_idx h < rehash_idx h' /\ max_slots (ht0 h') = max_slots (ht0 h)).
Proof.
  intros Hwf Hb Hi. unfold rehash_step. rewrite decide_False by lia.
  destruct (wf_rehash _ Hwf) as [[? _]|[Hok Hlt]]; [lia|].
  destruct (rehash_loop_spec (Z.to_nat (max_slots (ht0 h) - rehash_idx h)) buckets h Hok)
    as (H1 & H2 & H3 & H4 & H5 & H6 & H7).
  case_decide; [by left|right]. cbn. split; [|done]. apply H7; lia.
Qed.

(** (C7) A rehash ends: each call's step moves the migration forward by at
    least one bucket, so after as many calls as there are buckets left the
    migration is over, with no entry lost, added or changed. *)
Theorem hash_rehash_completes n h :
  wf h -> 0 <= rehash_idx h ->
  max_slots (ht0 h) - rehash_idx h <= Z.of_nat n ->
  exists m, (m <= n)%nat /\ rehash_idx (rehash_steps m h) = -1 /\
            wf (rehash_steps m h) /\ abs (rehash_steps m h) = abs h.
Proof.
  intros Hwf Hi Hn.
  assert (forall m, wf (rehash_steps m h) /\ abs (rehash_steps m h) = abs h) as Hinv.
  { induction m as [|m [Hw Ha]]; [done|]. cbn.
    destruct (step_abs REHASH_STEP_BUCKETS (rehash_steps m h) Hw) as [? ?].
    split; [done|]. by rewrite <- Ha. }
  assert (forall m, (exists m', (m' <= m)%nat /\ rehash_idx (rehash_steps m' h) = -1) \/
            (rehash_idx h + Z.of_nat m <= rehash_idx (rehash_steps m h) /\
             max_slots (ht0 (rehash_steps m h)) = max_slots (ht0 h))) as Hp.
  { induction m as [|m IH]; [right; cbn; split; [lia|done]|].
    destruct IH as [(m' & ? & ?)|[IH1 IH2]]; [left; exists m'; split; [lia|done]|].
    destruct (rehash_step_progress REHASH_STEP_BUCKETS (rehash_steps m h)) as [Hd|[Hd Hs]];
      [apply Hinv|done|lia| |].
    - left. by exists (S m).
    - right. change (rehash_steps (S m) h)
        with (rehash_step REHASH_STEP_BUCKETS (rehash_steps m h)).2.
      rewrite Hs. split; [lia|done]. }
  destruct (Hp n) as [(m & Hm & Hd)|[Hd Hs]]; [exists m; split_and!; try done; apply Hinv|].
  destruct (Hinv n) as [Hw _]. destruct (wf_rehash _ Hw) as [[Hd' _]|[_ Hlt]].
  - exists n. split_and!; try done; apply Hinv.
  - lia.
Qed.

(** A table of one bucket after three insertions, which start a rehash. *)
Definition three_sets : kvs_hash_t :=
  (engine_run (Engine0 := hash_engine 1 (conj eq_refl eq_refl))
     [(env_ok, OSet [97] [49]); (env_ok, OSet [98] [50]); (env_ok, OSet [99] [51])]
     ((kvs_hash_create 1 env_ok).2, stats0)).2.1.

Lemma hash_rehash_completes_witness :
  rehash_idx three_sets = 0 /\
  exists m, (m <= 1)%nat /\ rehash_idx (rehash_steps m three_sets) = -1 /\
            wf (rehash_steps m three_sets) /\ abs (rehash_steps m three_sets) = abs three_sets.
Proof.
  split; [vm_compute; reflexivity|].
  apply (hash_rehash_completes 1 three_sets).
  - refine (proj1 (engine_run_refines (Engine0 := hash_engine 1 (conj eq_refl eq_refl)) _ _ _ _ _)).
    + refine (proj1 (hash_create_spec 1 env_ok _ _ eq_refl _)); [lia|left; vm_compute; discriminate].
    + vm_compute. split_and!; done.
    + repeat (constructor; [cbn; repeat constructor; lia|]). constructor.
  - vm_compute. discriminate.
  - vm_compute. discriminate.
Defined.

(** ** Sizes *)

Lemma rehash_step_slots buckets h : wf h -> slots (rehash_step buckets h).2 <= slots h.
Proof.
  intros Hwf. unfold rehash_step, slots. destruct (decide (rehash_idx h < 0)); [done|].
  destruct (wf_rehash _ Hwf) as [[? _]|[Hok Hlt]]; [lia|].
  destruct (rehash_loop_spec (Z.to_nat (max_slots (ht0 h) - rehash_idx h)) buckets h Hok)
    as (H1 & H2 & H3 & H4 & H5 & _).
  pose proof (tok_size _ _ (rh_t1 _ H1)).
  destruct (decide _); cbn; lia.
Qed.

Lemma start_rehash_slots e n h : wf h -> rehash_idx h = -1 -> 0 < n ->
  slots (start_rehash e n h).2 <= Z.max (slots h) n.
Proof.
  intros Hwf Hi Hn. pose proof (tok_size _ _ (wf_t0 _ Hwf)).
  unfold start_rehash, slots. destruct (m_table e); cbn; lia.
Qed.

Lemma idle h : wf h -> ~ rehash_idx h >= 0 -> rehash_idx h = -1.
Proof. intros Hwf Hi. destruct (wf_rehash _ Hwf) as [[-> _]|[[] _]]; [done|lia]. Qed.

Lemma maybe_expand_slots e h : wf h ->
  slots (maybe_expand e h).2 <= Z.max (slots h) (Z.of_nat (size (abs h))).
Proof.
  intros Hwf. pose proof (count_le h Hwf). pose proof (tok_size _ _ (wf_t0 _ Hwf)).
  unfold maybe_expand, HASH_LOAD_FACTOR. repeat case_decide; cbn [snd]; [lia..|].
  pose proof (start_rehash_slots e (max_slots (ht0 h) * 2) h Hwf (idle h Hwf ltac:(lia))). lia.
Qed.

Lemma maybe_shrink_slots init e h : wf h -> 0 < init ->
  slots (maybe_shrink init e h).2 <= Z.max (slots h) init.
Proof.
  intros Hwf Hin. pose proof (tok_size _ _ (wf_t0 _ Hwf)).
  unfold maybe_shrink. repeat case_decide; cbn [snd]; cbv zeta; try lia;
    (eapply Z.le_trans; [apply start_rehash_slots; [done|by apply idle|]|]).
  - lia.
  - lia.
  - lia.
  - rewrite Z.quot_div_nonneg by lia. assert (max_slots (ht0 h) / 2 <= slots h); [|lia].
    unfold slots. apply Z.div_le_upper_bound; lia.
Qed.

Lemma set_table_slots s idx c d h :
  slots (set_table s (add_count d (set_chain idx c (table_of s h))) h) = slots h.
Proof. by destruct s. Qed.

Lemma set_node_slots l n h : slots (set_node l n h) = slots h.
Proof. destruct l as [[[] idx] p]; done. Qed.

Lemma overwrite_at_slots e l v s : slots (overwrite_at e l v s).2.1 = slots s.1.
Proof.
  unfold overwrite_at. destruct (node_at l s.1) as [n|]; [|done].
  destruct (overwrite_value e v n). cbn. apply set_node_slots.
Qed.

Lemma set_len_slots e k v h g : wf h ->
  slots (kvs_hash_set_len e k v (h, g)).2.1 <= Z.max (slots h) (Z.of_nat (size (abs h)) + 1).
Proof.
  intros Hwf0. pose proof (rehash_step_slots REHASH_STEP_BUCKETS h Hwf0) as Hsl.
  unfold kvs_hash_set_len. cbn [fst snd].
  destruct (step_abs REHASH_STEP_BUCKETS h Hwf0) as [Hwf Habs].
  rewrite <- Habs. set (h1 := (rehash_step _ h).2) in *. clearbody h1.
  destruct (find_node_spec e k h1 g Hwf) as (l & g' & -> & Hl).
  destruct l as [l|]; [rewrite overwrite_at_slots; cbn; lia|].
  rewrite hash_raw_wf by done. cbv beta iota zeta. set (s := bool_decide (rehash_idx h1 >= 0)).
  destruct (create_node_len _ _ _ _) as [n|] eqn:E; [|cbn; lia].
  unfold create_node_len in E. destruct (m_node e), (m_value e); try done. injection E as <-.
  set (n := mk_node _ _ _ _ _ _). cbn [snd fst].
  destruct (insert_node_spec s h1 n) as [Hw Ha]; try done.
  { intros Hs. by apply bool_decide_eq_true in Hs. }
  { unfold s. destruct (bool_decide_reflect (rehash_idx h1 >= 0)); [by left|right].
    by apply idle. }
  { split; cbn; [done|done|lia]. }
  pose proof (maybe_expand_slots e _ Hw) as He. rewrite set_table_slots, Ha, map_size_insert in He.
  eapply Z.le_trans; [exact He|]. case_match; cbn; lia.
Qed.

Lemma mod_slots e k v h g : wf h -> slots (kvs_hash_mod e k v (h, g)).2.1 <= slots h.
Proof.
  intros Hwf0. pose proof (rehash_step_slots REHASH_STEP_BUCKETS h Hwf0) as Hsl.
  unfold kvs_hash_mod. cbn [fst snd].
  destruct (step_abs REHASH_STEP_BUCKETS h Hwf0) as [Hwf _].
  destruct (find_node_spec e k _ g Hwf) as (l & g' & -> & _).
  destruct l as [l|]; [rewrite overwrite_at_slots|]; done.
Qed.

Lemma lookup_slots e k h g : wf h ->
  slots (kvs_hash_get_len e k (h, g)).2.1 <= slots h /\
  slots (kvs_hash_exist e k (h, g)).2.1 <= slots h.
Proof.
  intros Hwf0. pose proof (rehash_step_slots REHASH_STEP_BUCKETS h Hwf0) as Hsl.
  unfold kvs_hash_get_len, kvs_hash_exist. cbn [fst snd].
  destruct (step_abs REHASH_STEP_BUCKETS h Hwf0) as [Hwf _].
  by destruct (find_node_spec e k _ g Hwf) as (l & g' & -> & _).
Qed.

Lemma del_in_slots init e k s h h' : wf h -> 0 < init -> in_use s h ->
  del_in init e k (hash_of (seed h) k) s h = Some h' -> slots h' <= Z.max (slots h) init.
Proof.
  intros Hwf Hin Hs. unfold del_in. destruct (decide _) as [Hd|]; [|done]. set (idx := hash_idx _ _).
  destruct (find_chain k (chain_at (table_of s h) idx)).1 as [p|] eqn:E; [|done].
  cbv zeta. rewrite decide_True by (cbn; apply Hd). intros [= <-].
  apply find_chain_Some in E as (n & Hn & Hk).
  destruct (delete_node_spec s idx p h k n Hwf) as [Hw _]; [done|].
  eapply Z.le_trans; [by apply maybe_shrink_slots|]. by rewrite set_table_slots.
Qed.

Lemma del_slots init e k h g : wf h -> 0 < init ->
  slots (kvs_hash_del init e k (h, g)).2.1 <= Z.max (slots h) init.
Proof.
  intros Hwf0 Hin. pose proof (rehash_step_slots REHASH_STEP_BUCKETS h Hwf0) as Hsl.
  unfold kvs_hash_del. cbn [fst snd].
  destruct (step_abs REHASH_STEP_BUCKETS h Hwf0) as [Hwf _].
  set (h1 := (rehash_step _ h).2) in *. rewrite hash_raw_wf by done.
  destruct (del_in init e k _ false h1) as [h2|] eqn:E.
  { apply del_in_slots in E; [cbn; lia|done|done|done]. }
  destruct (decide (rehash_idx h1 >= 0)) as [Hr|Hr]; [|cbn; lia].
  destruct (del_in init e k _ true h1) as [h2|] eqn:E2; [|cbn; lia].
  apply del_in_slots in E2; [cbn; lia|done|done|by intros _].
Qed.

Lemma exec_slots init e o h g : wf h -> 0 < init ->
  slots (exec init e o (h, g)).2.1 <=
    Z.max (slots h) (Z.max init (Z.of_nat (size (abs h)) + 1)).
Proof.
  intros Hwf Hin. unfold exec, kvs_hash_set, kvs_hash_get. destruct o.
  - pose proof (set_len_slots e k (cstr v) h g Hwf).
    destruct (kvs_hash_set_len _ _ _ _). cbn in *. lia.
  - destruct (lookup_slots e k h g Hwf) as [H _].
    destruct (kvs_hash_get_len _ _ _). cbn in *. lia.
  - pose proof (mod_slots e k v h g Hwf). destruct (kvs_hash_mod _ _ _ _). cbn in *. lia.
  - pose proof (del_slots init e k h g Hwf Hin). destruct (kvs_hash_del _ _ _ _). cbn in *. lia.
  - destruct (lookup_slots e k h g Hwf) as [_ H].
    destruct (kvs_hash_exist _ _ _). cbn in *. lia.
Qed.

Lemma hash_run_slots init Hin es h g :
  wf h -> Forall (fun p => op_ok p.2) es ->
  Z.of_nat (size (abs h)) + Z.of_nat (length es) < 2 ^ 31 - 1 ->
  let h' := (engine_run (Engine0 := hash_engine init Hin) es (h, g)).2.1 in
  slots h' <= Z.max (slots h) (Z.max init (Z.of_nat (size (abs h)) + Z.of_nat (length es))) /\
  count (ht0 h') + count (ht1 h') <= Z.of_nat (size (abs h)) + Z.of_nat (length es).
Proof.
  revert h g. induction es as [|[e o] es IH]; intros h g Hwf Hok Hl; cbn [engine_run].
  - cbn. split; [lia|]. rewrite hash_size_abs by done. unfold all. rewrite length_app.
    rewrite (tok_count _ _ (wf_t0 _ Hwf)).
    destruct (wf_rehash _ Hwf) as [[_ ->]|[[_ Ht1 _ _] _]]; [cbn; lia|].
    rewrite (tok_count _ _ Ht1). lia.
  - inversion Hok; subst. cbn in Hl. cbn [engine_exec hash_engine].
    pose proof (exec_slots init e o h g Hwf ltac:(lia)) as Hs.
    pose proof (hash_exec_step init e o h g Hin Hwf ltac:(lia) ltac:(done)) as Hst.
    destruct (exec init e o (h, g)) as [r [h' g']]. cbn in Hs, Hst. destruct Hst as [Hw Hst].
    apply spec_step_size in Hst. rewrite !size_abs_str in Hst.
    specialize (IH h' g' Hw ltac:(done) ltac:(lia)).
    destruct (engine_run es (h', g')) as [xs s'']. cbn in *. lia.
Qed.

(** The [int] arithmetic of the engine does not overflow: after any run of
    [n] calls from [kvs_hash_create], both bucket arrays have at most
    max(init, n) buckets and the two counts add up to at most [n], so for a run
    of fewer than 2^29 calls and the initial size of the code the products and sums
    [max_slots * 2] and [count + 1] stay below 2^31. *)
Theorem hash_sizes_bounded init (Hin : 0 < init < 2 ^ 31) e0 h0 g0 es :
  kvs_hash_create init e0 = (0, h0) -> (seed h0).1 <> 0 \/ (seed h0).2 <> 0 ->
  Forall (fun p => op_ok p.2) es -> Z.of_nat (length es) < 2 ^ 31 - 1 ->
  let h := (engine_run (Engine0 := hash_engine init Hin) es (h0, g0)).2.1 in
  max_slots (ht0 h) <= Z.max init (Z.of_nat (length es)) /\
  max_slots (ht1 h) <= Z.max init (Z.of_nat (length es)) /\
  count (ht0 h) + count (ht1 h) <= Z.of_nat (length es).
Proof.
  intros Hc Hs Hok Hl h. destruct (hash_create_spec init e0 h0 Hin Hc Hs) as [Hwf Habs].
  assert (slots h0 = init) as Hs0.
  { unfold kvs_hash_create in Hc. destruct (m_table e0); [|done]. injection Hc as <-.
    unfold seeded. destruct (clock e0) as [[? ?] ?]. unfold slots. cbn. lia. }
  pose proof (hash_run_slots init Hin es h0 g0 Hwf Hok) as H.
  rewrite Habs, map_size_empty in H. specialize (H ltac:(lia)). fold h in H.
  unfold slots in *. lia.
Qed.

Lemma hash_sizes_bounded_witness :
  let es := [(env_ok, OSet [97] [49]); (env_ok, OSet [98] [50]); (env_ok, OSet [99] [51])] in
  max_slots (ht1 three_sets) = 2 /\ max_slots (ht1 three_sets) <= 3.
Proof.
  intros es. split; [vm_compute; reflexivity|].
  refine (proj1 (proj2 (hash_sizes_bounded 1 (conj eq_refl eq_refl) env_ok
                          (kvs_hash_create 1 env_ok).2 stats0 es _ _ _ _))).
  - vm_compute. reflexivity.
  - left. vm_compute. discriminate.
  - repeat (constructor; [cbn; repeat constructor; lia|]). constructor.
  - vm_compute. reflexivity.
Defined.

End Hash.
