(* ===== verification/Array.v ===== *)
(** * Array: the array engine

    [src/storage/kvs_array.c]: a table of slots allocated on the first SET, a
    stack of free slots, and a hash table that maps each key to the decimal
    form of its slot.  The theorems state that the index, the slots and the
    free stack stay consistent through every operation and every allocation
    failure, and that the engine meets the contract of [Engine]; the index is
    used through the hash engine's specification only. *)

From S2P Require Import Prelude Cstring Engine Siphash Hash.

Module Array.

Definition KVS_ARRAY_SIZE : Z := 1048576.

(** [kvs_array_item_t]. *)
Record item := mk_item { ikey : option bytes; ivalue : option bytes }.
Definition null_item : item := mk_item None None.

(** [kvs_array_t].  A slot that is not in [table] is zeroed; [free_stack] are
    the first [free_count] entries of [free_list], the top first. *)
Record kvs_array_t := mk_array {
  table : option (gmap Z item);
  total : Z;
  next_slot : Z;
  free_stack : list Z;
  free_cap : Z;
  index : option Hash.kvs_hash_t;
}.

(** Allocation results by call site: the index block, the slot table, a key, a
    value and the grown free list, and the environment of the hash calls. *)
Record env := mk_env {
  m_index : bool;
  m_slots : bool;
  m_key : bool;
  m_val : bool;
  m_free : bool;
  henv : Hash.env;
}.

Definition slot_item (t : gmap Z item) (i : Z) : item := default null_item (t !! i).

Definition free_count (a : kvs_array_t) : Z := Z.of_nat (length (free_stack a)).

Definition set_item (i : Z) (x : item) (a : kvs_array_t) : kvs_array_t :=
  mk_array (<[i := x]> <$> table a) (total a) (next_slot a) (free_stack a) (free_cap a) (index a).
Definition set_total (n : Z) (a : kvs_array_t) : kvs_array_t :=
  mk_array (table a) n (next_slot a) (free_stack a) (free_cap a) (index a).
Definition set_index (h : Hash.kvs_hash_t) (a : kvs_array_t) : kvs_array_t :=
  mk_array (table a) (total a) (next_slot a) (free_stack a) (free_cap a) (Some h).

(** [free_list[free_count++] = slot], guarded by the capacity. *)
Definition push_free (slot : Z) (a : kvs_array_t) : kvs_array_t :=
  if decide (free_count a < free_cap a) then
    mk_array (table a) (total a) (next_slot a) (slot :: free_stack a) (free_cap a) (index a)
  else a.

Section Ops.

Context (HASH_INIT_SIZE : Z).

(** [kvs_array_create]. *)
Definition kvs_array_create (e : env) : Z * kvs_array_t :=
  if m_index e then
    let '(rc, h) := Hash.kvs_hash_create HASH_INIT_SIZE (henv e) in
    (rc, mk_array None 0 0 [] 0 (Some h))
  else (-1, mk_array None 0 0 [] 0 None).

(** [find_slot]. *)
Definition find_slot (e : env) (k : bytes) (s : kvs_array_t * Hash.stats) :
    Z * (kvs_array_t * Hash.stats) :=
  let '(a, g) := s in
  match index a with
  | None => (-1, s)
  | Some h =>
      let '(v, (h, g)) := Hash.kvs_hash_get (henv e) k (h, g) in
      let s := (set_index h a, g) in
      match v with
      | None => (-1, s)
      | Some v =>
          let slot := atoi v in
          (if decide (slot >= 0 /\ slot < KVS_ARRAY_SIZE) then slot else -1, s)
      end
  end.

(** [kvs_array_mod]. *)
Definition kvs_array_mod (e : env) (k v : bytes) (s : kvs_array_t * Hash.stats) :
    Z * (kvs_array_t * Hash.stats) :=
  let '(i, (a, g)) := find_slot e k s in
  if decide (i < 0) then (1, (a, g))
  else if m_val e then
    match table a with
    | Some t => (0, (set_item i (mk_item (ikey (slot_item t i)) (Some (cstr v))) a, g))
    | None => (-1, (a, g))
    end
  else (-2, (a, g)).

(** The free slot [kvs_array_set] takes: from the stack, else the next one. *)
Definition take_slot (a : kvs_array_t) : option Z * kvs_array_t :=
  match free_stack a with
  | x :: r => (Some x, mk_array (table a) (total a) (next_slot a) r (free_cap a) (index a))
  | [] =>
      let slot := next_slot a in
      let a := mk_array (table a) (total a) (i32 (next_slot a + 1)) [] (free_cap a) (index a) in
      if decide (slot >= KVS_ARRAY_SIZE) then (None, a) else (Some slot, a)
  end.

(** The part of [kvs_array_set] that adds a key that is not there. *)
Definition add_new (e : env) (k v : bytes) (s : kvs_array_t * Hash.stats) :
    Z * (kvs_array_t * Hash.stats) :=
  let '(a, g) := s in
  let '(slot, a) := take_slot a in
  match slot with
  | None => (-1, (a, g))
  | Some slot =>
      if m_key e && m_val e then
        let a := set_total (total a + 1) (set_item slot (mk_item (Some k) (Some (cstr v))) a) in
        match index a with
        | None => (-1, (a, g))
        | Some h =>
            let '(rc, (h, g)) := Hash.kvs_hash_set (henv e) k (sdec slot) (h, g) in
            let a := set_index h a in
            if decide (rc <> 0) then
              let a := set_total (total a - 1) (set_item slot null_item a) in
              (-2, (push_free slot a, g))
            else (0, (a, g))
        end
      else (-2, (push_free slot (set_item slot null_item a), g))
  end.

(** [kvs_array_set]. *)
Definition kvs_array_set (e : env) (k v : bytes) (s : kvs_array_t * Hash.stats) :
    Z * (kvs_array_t * Hash.stats) :=
  let '(a, g) := s in
  let a := match table a with
           | None => if m_slots e then
                       mk_array (Some ∅) (total a) (next_slot a) (free_stack a) (free_cap a) (index a)
                     else a
           | Some _ => a
           end in
  if decide (table a = None) then (-2, (a, g))
  else
    let '(i, (a, g)) := find_slot e k (a, g) in
    if decide (i >= 0) then kvs_array_mod e k v (a, g)
    else add_new e k v (a, g).

(** [kvs_array_get]; the string the caller reads. *)
Definition kvs_array_get (e : env) (k : bytes) (s : kvs_array_t * Hash.stats) :
    option bytes * (kvs_array_t * Hash.stats) :=
  let '(i, (a, g)) := find_slot e k s in
  if decide (i >= 0) then (table a ≫= (fun t => ivalue (slot_item t i)), (a, g))
  else (None, (a, g)).

(** [kvs_array_del]. *)
Definition grow_free (e : env) (a : kvs_array_t) : kvs_array_t :=
  if decide (free_count a = free_cap a) then
    if m_free e then
      let new_cap := if decide (free_cap a <> 0) then free_cap a * 2 else 16 in
      mk_array (table a) (total a) (next_slot a) (free_stack a) new_cap (index a)
    else a
  else a.

Definition kvs_array_del (e : env) (k : bytes) (s : kvs_array_t * Hash.stats) :
    Z * (kvs_array_t * Hash.stats) :=
  let '(i, (a, g)) := find_slot e k s in
  if decide (i < 0) then (1, (a, g))
  else
    let a := set_item i null_item a in
    let a := if decide (total a > 0) then set_total (total a - 1) a else a in
    let a := push_free i (grow_free e a) in
    match index a with
    | None => (0, (a, g))
    | Some h =>
        let '(_, (h, g)) := Hash.kvs_hash_del HASH_INIT_SIZE (henv e) k (h, g) in
        (0, (set_index h a, g))
    end.

(** [kvs_array_exist]. *)
Definition kvs_array_exist (e : env) (k : bytes) (s : kvs_array_t * Hash.stats) :
    Z * (kvs_array_t * Hash.stats) :=
  let '(i, s) := find_slot e k s in
  (if decide (i >= 0) then 0 else 1, s).

(** [kvs_array_destory]: the free list is gone, and [next_slot] and the
    capacity are left as they are. *)
Definition kvs_array_destory (a : kvs_array_t) : kvs_array_t :=
  match table a with
  | None => mk_array None (total a) (next_slot a) [] (free_cap a) None
  | Some _ => mk_array None 0 (next_slot a) [] (free_cap a) None
  end.

End Ops.

(** ** The abstract map and the invariant *)

(** The value stored for an index entry. *)
Definition stored (a : kvs_array_t) (v : bytes) : option bytes :=
  table a ≫= (fun t => ivalue (slot_item t (atoi v))).

Definition abs (a : kvs_array_t) : gmap bytes bytes :=
  match index a with
  | Some h => omap (stored a) (Hash.abs h)
  | None => ∅
  end.
#[global] Arguments abs : simpl never.

(** Slot [i] as the program reads it; the table may not exist yet. *)
Definition at_slot (a : kvs_array_t) (i : Z) : item :=
  match table a with Some t => slot_item t i | None => null_item end.

Record wf (a : kvs_array_t) : Prop := {
  wf_index : exists h, index a = Some h /\ Hash.wf h /\
    (** every key leads to its slot *)
    (forall k v, Hash.abs h !! k = Some v ->
       exists i, v = dec i /\ 0 <= i < KVS_ARRAY_SIZE /\ i < next_slot a /\
         ikey (at_slot a i) = Some k /\ is_Some (ivalue (at_slot a i)) /\ i ∉ free_stack a) /\
    total a = Z.of_nat (size (Hash.abs h));
  wf_free : NoDup (free_stack a) /\
    Forall (fun i => 0 <= i < KVS_ARRAY_SIZE /\ i < next_slot a) (free_stack a);
  wf_next : 0 <= next_slot a < 2 ^ 31;
  wf_cap : free_count a <= free_cap a;
}.

(** The calls of the engine contract. *)
Definition exec (init : Z) (e : env) (o : op) (s : kvs_array_t * Hash.stats) :
    res * (kvs_array_t * Hash.stats) :=
  match o with
  | OSet k v => let '(rc, s) := kvs_array_set e k v s in (RCode rc, s)
  | OGet k => let '(v, s) := kvs_array_get e k s in (RVal v, s)
  | OMod k v => let '(rc, s) := kvs_array_mod e k v s in (RCode rc, s)
  | ODel k => let '(rc, s) := kvs_array_del init e k s in (RCode rc, s)
  | OExist k => let '(rc, s) := kvs_array_exist e k s in (RCode rc, s)
  end.

(** No key leads to slot [i]. *)
Definition unmapped (a : kvs_array_t) (i : Z) : Prop :=
  forall h k v, index a = Some h -> Hash.abs h !! k = Some v -> v <> dec i.

(** A slot that belongs to the caller: neither mapped nor on the free stack. *)
Definition owned (a : kvs_array_t) (i : Z) : Prop :=
  0 <= i < KVS_ARRAY_SIZE /\ i < next_slot a /\ i ∉ free_stack a /\ unmapped a i.

(** ** Lemmas *)

Lemma at_slot_set i x a j : table a <> None ->
  at_slot (set_item i x a) j = if decide (j = i) then x else at_slot a j.
Proof.
  intros Ht. unfold at_slot, set_item, slot_item. cbn. destruct (table a) as [t|]; [|done]. cbn.
  case_decide as Hd.
  - subst j. by rewrite lookup_insert_eq.
  - by rewrite lookup_insert_ne.
Qed.

Lemma stored_at a v : stored a v = ivalue (at_slot a (atoi v)).
Proof. unfold stored, at_slot. by destruct (table a). Qed.

Lemma array_abs_lookup a h k : index a = Some h ->
  abs a !! k = Hash.abs h !! k ≫= fun v => ivalue (at_slot a (atoi v)).
Proof.
  intros Hh. unfold abs. rewrite Hh, lookup_omap. destruct (Hash.abs h !! k); [|done]. cbn.
  apply stored_at.
Qed.

Lemma slot_atoi i : 0 <= i < KVS_ARRAY_SIZE -> atoi (dec i) = i.
Proof. unfold KVS_ARRAY_SIZE. intros Hi. apply atoi_dec. lia. Qed.

(** The index seen through [wf]. *)
Lemma wf_lookup a h k v : wf a -> index a = Some h -> Hash.abs h !! k = Some v ->
  exists i, v = dec i /\ 0 <= i < KVS_ARRAY_SIZE /\ i < next_slot a /\
    ikey (at_slot a i) = Some k /\ is_Some (ivalue (at_slot a i)) /\ i ∉ free_stack a /\
    abs a !! k = ivalue (at_slot a i).
Proof.
  intros Hwf Hh Hk. destruct (wf_index _ Hwf) as (h' & Hh' & _ & Hm & _). simplify_eq.
  destruct (Hm k v Hk) as (i & -> & Hi & Hn & Hik & Hiv & Hf).
  exists i. split_and!; try done; try lia.
  rewrite (array_abs_lookup a h) by done. rewrite Hk. cbn. by rewrite slot_atoi.
Qed.

Lemma abs_is_Some a h k : wf a -> index a = Some h ->
  is_Some (abs a !! k) <-> is_Some (Hash.abs h !! k).
Proof.
  intros Hwf Hh. split.
  - rewrite (array_abs_lookup a h) by done. destruct (Hash.abs h !! k); [done|by intros [? ?]].
  - intros [v Hv]. destruct (wf_lookup a h k v Hwf Hh Hv) as (i & _ & _ & _ & _ & Hs & _ & ->). done.
Qed.

(** The index replaced by another table of the same content. *)
Lemma wf_set_index a h h' : wf a -> index a = Some h -> Hash.wf h' -> Hash.abs h' = Hash.abs h ->
  wf (set_index h' a) /\ abs (set_index h' a) = abs a.
Proof.
  intros Hwf Hh Hw Ha. split.
  - destruct Hwf as [(h0 & Hh0 & _ & Hm & Ht) Hf Hn Hc]. simplify_eq.
    split; try done. exists h'. cbn. by rewrite Ha.
  - unfold abs. cbn. rewrite Hh, Ha. done.
Qed.

Lemma find_slot_spec e k a g : wf a ->
  exists i a' g' h, find_slot e k (a, g) = (i, (a', g')) /\
    wf a' /\ index a' = Some h /\ abs a' = abs a /\
    table a' = table a /\ next_slot a' = next_slot a /\
    ((Hash.abs h !! k = Some (dec i) /\ 0 <= i < KVS_ARRAY_SIZE) \/
     (Hash.abs h !! k = None /\ i = -1)).
Proof.
  intros Hwf. destruct (wf_index _ Hwf) as (h & Hh & Hw & Hm & Ht). unfold find_slot, Hash.kvs_hash_get.
  rewrite Hh. destruct (Hash.get_len_spec (henv e) k h g Hw) as (h' & g' & -> & Hw' & Ha').
  destruct (wf_set_index a h h' Hwf Hh Hw' Ha') as [Hwa Haa].
  destruct (Hash.abs h !! k) as [v|] eqn:E; cbn.
  - destruct (Hm k v E) as (i & -> & Hi & _).
    eexists i, (set_index h' a), g', h'. rewrite cstr_id by (apply dec_cstr_ok; lia).
    rewrite slot_atoi, decide_True by (done || lia). split_and!; try done.
    left. by rewrite Ha'.
  - eexists (-1), (set_index h' a), g', h'. split_and!; try done. right. by rewrite Ha'.
Qed.

(** Writing a slot that no key leads to changes nothing. *)
Lemma set_item_unmapped a i x : wf a -> table a <> None -> unmapped a i -> 0 <= i < KVS_ARRAY_SIZE ->
  wf (set_item i x a) /\ abs (set_item i x a) = abs a.
Proof.
  intros Hwf Ht Hu Hi. pose proof Hwf as [(h & Hh & Hw & Hm & Htot) Hf Hn Hc].
  assert (forall k v, Hash.abs h !! k = Some v -> at_slot (set_item i x a) (atoi v) = at_slot a (atoi v)) as Heq.
  { intros k v Hk. destruct (Hm k v Hk) as (j & -> & Hj & _). rewrite at_slot_set by done.
    rewrite slot_atoi, decide_False; [done| |done]. intros ->. by apply (Hu h k (dec i)). }
  split.
  - split; try done. exists h. split_and!; try done. intros k v Hk.
    pose proof (Heq k v Hk) as Hq. destruct (Hm k v Hk) as (j & -> & Hj & Hjn & Hr).
    rewrite slot_atoi in Hq by done. exists j. by rewrite Hq.
  - apply map_eq. intros k. rewrite !(array_abs_lookup _ h) by done.
    destruct (Hash.abs h !! k) as [v|] eqn:E; [|done]. cbn. by rewrite (Heq k v E).
Qed.

Lemma push_free_spec a i : wf a -> owned a i ->
  wf (push_free i a) /\ abs (push_free i a) = abs a.
Proof.
  intros Hwf (Hi & Hin & Hnf & Hu). unfold push_free. case_decide as Hd; [|done]. split; [|done].
  destruct Hwf as [(h & Hh & Hw & Hm & Htot) [Hnd Hf] Hn Hc]. split; cbn.
  - exists h. split_and!; try done. intros k v Hk.
    destruct (Hm k v Hk) as (j & -> & Hj & Hjn & Hjk & Hjv & Hjf). exists j. split_and!; try done; try lia.
    apply not_elem_of_cons. split; [|done]. intros ->. by apply (Hu h k (dec i)).
  - split; [by apply NoDup_cons|]. by constructor.
  - done.
  - unfold free_count in *. cbn. lia.
Qed.

(** Taking a slot from the stack or from the end. *)
Lemma take_slot_spec a : wf a -> next_slot a < 2 ^ 31 - 1 ->
  exists o a', take_slot a = (o, a') /\ wf a' /\ table a' = table a /\ index a' = index a /\
    total a' = total a /\ (forall i, o = Some i -> owned a' i).
Proof.
  intros Hwf Hnx. pose proof Hwf as [(h & Hh & Hw & Hm & Htot) [Hnd Hf] Hn Hc].
  unfold take_slot, unmapped in *. unfold free_count in Hc.
  destruct (free_stack a) as [|x r] eqn:Ef.
  - rewrite i32_small by lia.
    assert (wf (mk_array (table a) (total a) (next_slot a + 1) [] (free_cap a) (index a))) as Hw'.
    { split; cbn; try done; try lia. exists h. split_and!; try done. intros k v Hk.
      destruct (Hm k v Hk) as (j & -> & Hj & Hjn & Hjk & Hjv & _).
      exists j. split_and!; try done; try lia. apply not_elem_of_nil. }
    case_decide as Hd; eexists _, _; (split; [done|]); split_and!; try done.
    intros i [= <-]. split_and!; cbn; try lia; [apply not_elem_of_nil|].
    intros h' k v Hh' Hk ->. cbn in Hh'. simplify_eq.
    destruct (Hm k _ Hk) as (j & Hj & ? & ? & _). apply dec_inj in Hj; lia.
  - apply NoDup_cons in Hnd as [Hxr Hnd]. inversion Hf as [|? ? Hx Hf']; subst.
    eexists _, _. split; [done|]. split_and!; try done.
    + split; cbn; try done.
      * exists h. split_and!; try done. intros k v Hk.
        destruct (Hm k v Hk) as (j & -> & Hj & Hjn & Hjk & Hjv & Hjf).
        exists j. split_and!; try done; try lia. set_solver.
      * unfold free_count. cbn in *. lia.
    + intros i [= <-]. split_and!; cbn; try lia; try done.
      intros h' k v Hh' Hk ->. cbn in Hh'. simplify_eq.
      destruct (Hm k _ Hk) as (j & Hj & ? & ? & _ & _ & Hjf). apply dec_inj in Hj; [|lia..].
      subst j. set_solver.
Qed.

(** A key that is in the index has a slot, so the table exists. *)
Lemma mapped_table a h k v : wf a -> index a = Some h -> Hash.abs h !! k = Some v -> table a <> None.
Proof.
  intros Hwf Hh Hk. destruct (wf_lookup a h k v Hwf Hh Hk) as (i & _ & _ & _ & Hik & _).
  unfold at_slot in Hik. by destruct (table a).
Qed.

(** A new value in the slot of a key. *)
Lemma set_value_spec a h k i v : wf a -> index a = Some h ->
  Hash.abs h !! k = Some (dec i) -> 0 <= i < KVS_ARRAY_SIZE ->
  let a' := set_item i (mk_item (ikey (at_slot a i)) (Some v)) a in
  wf a' /\ abs a' = <[k := v]> (abs a).
Proof.
  intros Hwf Hh Hk Hi a'. pose proof (mapped_table _ _ _ _ Hwf Hh Hk) as Ht.
  destruct (wf_lookup a h k _ Hwf Hh Hk) as (i' & Hii & Hi' & _ & Hik & _).
  apply dec_inj in Hii as <-; [|lia..].
  assert (forall j, at_slot a' j = if decide (j = i) then mk_item (Some k) (Some v) else at_slot a j) as Hat.
  { intros j. unfold a'. rewrite at_slot_set by done. by rewrite Hik. }
  split.
  - destruct Hwf as [(h' & Hh' & Hw & Hm & Htot) Hf Hn Hc]. split; try done.
    exists h'. split_and!; try done. intros k' v' Hk'.
    destruct (Hm k' v' Hk') as (j & -> & Hj & Hjn & Hjk & Hjv & Hjf). exists j.
    rewrite Hat. case_decide as Hd; split_and!; try done; cbn; try lia.
    subst j. congruence.
  - apply map_eq. intros k'. rewrite (array_abs_lookup a' h) by done.
    destruct (decide (k' = k)) as [->|Hne].
    + rewrite lookup_insert_eq, Hk. cbn. by rewrite slot_atoi, Hat, decide_True.
    + rewrite lookup_insert_ne by done. rewrite (array_abs_lookup a h) by done.
      destruct (Hash.abs h !! k') as [v'|] eqn:E; [|done]. cbn.
      destruct (wf_lookup a h k' v' Hwf Hh E) as (j & -> & Hj & _ & Hjk & _).
      rewrite slot_atoi, Hat, decide_False; [done| |done]. intros ->. congruence.
Qed.

(** A new key in a slot of its own. *)
Lemma add_key_spec a h h' k i v : wf a -> index a = Some h -> table a <> None -> owned a i ->
  Hash.abs h !! k = None -> Hash.wf h' -> Hash.abs h' = <[k := dec i]> (Hash.abs h) ->
  let a' := set_index h' (set_total (total a + 1) (set_item i (mk_item (Some k) (Some v)) a)) in
  wf a' /\ abs a' = <[k := v]> (abs a).
Proof.
  intros Hwf Hh Ht (Hi & Hin & Hif & Hu) Hk Hw' Ha' a'.
  assert (forall j, at_slot a' j = if decide (j = i) then mk_item (Some k) (Some v) else at_slot a j) as Hat.
  { intros j. change (at_slot a' j) with (at_slot (set_item i (mk_item (Some k) (Some v)) a) j).
    by rewrite at_slot_set. }
  assert (forall k' j, Hash.abs h !! k' = Some (dec j) -> j <> i) as Hne.
  { intros k' j Hk' ->. by apply (Hu h k' (dec i)). }
  split.
  - destruct Hwf as [(h0 & Hh0 & Hw & Hm & Htot) Hf Hn Hc]. simplify_eq. split; try done.
    exists h'. split_and!; try done.
    + intros k' v'. rewrite Ha'. intros [[<- <-]|[Hkk Hk']]%lookup_insert_Some.
      * exists i. rewrite Hat, decide_True by done. split_and!; try done; try (cbn; lia).
      * destruct (Hm k' v' Hk') as (j & -> & Hj & Hjn & Hjk & Hjv & Hjf). exists j.
        rewrite Hat, decide_False by exact (Hne k' j Hk'). split_and!; done || (cbn; lia).
    + rewrite Ha', map_size_insert_None by done. cbn. lia.
  - apply map_eq. intros k'. rewrite (array_abs_lookup a' h') by done. rewrite Ha'.
    destruct (decide (k' = k)) as [->|Hkk].
    + rewrite !lookup_insert_eq. cbn. by rewrite slot_atoi, Hat, decide_True.
    + rewrite !lookup_insert_ne by done. rewrite (array_abs_lookup a h) by done.
      destruct (Hash.abs h !! k') as [v'|] eqn:E; [|done]. cbn.
      destruct (wf_lookup a h k' v' Hwf Hh E) as (j & -> & Hj & _).
      rewrite slot_atoi, Hat, decide_False by (done || by eapply Hne). done.
Qed.

(** A key taken out, its slot cleared and handed to the caller. *)
Lemma remove_key_spec a h h' k i : wf a -> index a = Some h ->
  Hash.abs h !! k = Some (dec i) -> 0 <= i < KVS_ARRAY_SIZE ->
  Hash.wf h' -> Hash.abs h' = delete k (Hash.abs h) ->
  let a' := set_index h' (set_total (total a - 1) (set_item i null_item a)) in
  wf a' /\ abs a' = delete k (abs a) /\ owned a' i.
Proof.
  intros Hwf Hh Hk Hi Hw' Ha' a'. pose proof (mapped_table _ _ _ _ Hwf Hh Hk) as Ht.
  destruct (wf_lookup a h k _ Hwf Hh Hk) as (i' & Hii & Hi' & Hin & Hik & _ & Hif & _).
  apply dec_inj in Hii as <-; [|lia..].
  assert (forall j, at_slot a' j = if decide (j = i) then null_item else at_slot a j) as Hat.
  { intros j. change (at_slot a' j) with (at_slot (set_item i null_item a) j). by rewrite at_slot_set. }
  assert (forall k' j, k' <> k -> Hash.abs h !! k' = Some (dec j) -> 0 <= j -> j <> i) as Hne.
  { intros k' j Hkk Hk' Hj0 ->. destruct (wf_lookup a h k' _ Hwf Hh Hk') as (j & Hj & ? & _ & Hjk & _).
    apply dec_inj in Hj as <-; [congruence|lia..]. }
  split_and!.
  - destruct Hwf as [(h0 & Hh0 & Hw & Hm & Htot) Hf Hn Hc]. simplify_eq. split; try done.
    exists h'. split_and!; try done.
    + intros k' v'. rewrite Ha'. intros [Hkk Hk']%lookup_delete_Some.
      destruct (Hm k' v' Hk') as (j & -> & Hj & Hjn & Hjk & Hjv & Hjf). exists j.
      rewrite Hat, decide_False; [split_and!; done || (cbn; lia)|]. eapply Hne; [|done|lia]. done.
    + rewrite Ha', map_size_delete_Some by done. cbn. rewrite Htot.
      assert (size (Hash.abs h0) <> 0%nat) by (apply map_size_ne_0_lookup; by exists k, (dec i)). lia.
  - apply map_eq. intros k'. rewrite (array_abs_lookup a' h') by done. rewrite Ha'.
    destruct (decide (k' = k)) as [->|Hkk].
    + by rewrite !lookup_delete_eq.
    + rewrite !lookup_delete_ne by done. rewrite (array_abs_lookup a h) by done.
      destruct (Hash.abs h !! k') as [v'|] eqn:E; [|done]. cbn.
      destruct (wf_lookup a h k' v' Hwf Hh E) as (j & -> & Hj & _).
      rewrite slot_atoi, Hat, decide_False; [done| |done]. eapply Hne; [done..|lia].
  - split_and!; try done; try lia. intros h'' k' v' Hh'' Hk' ->. cbn in Hh''. simplify_eq.
    rewrite Ha' in Hk'. apply lookup_delete_Some in Hk' as [Hkk Hk'].
    by eapply (Hne k' i); [| |lia|].
Qed.

Lemma table_at a t i : table a = Some t -> slot_item t i = at_slot a i.
Proof. intros Ht. unfold at_slot. by rewrite Ht. Qed.

Lemma array_mod_spec e k v a g : wf a ->
  exists rc a' g', kvs_array_mod e k v (a, g) = (rc, (a', g')) /\ wf a' /\
    next_slot a' = next_slot a /\
    ((rc = 0 /\ is_Some (abs a !! k) /\ abs a' = <[k := cstr v]> (abs a)) \/
     (rc = 1 /\ abs a !! k = None /\ abs a' = abs a) \/
     (rc = -2 /\ is_Some (abs a !! k) /\ abs a' = abs a)).
Proof.
  intros Hwf. unfold kvs_array_mod.
  destruct (find_slot_spec e k a g Hwf) as (i & a1 & g1 & h & -> & Hw & Hh & <- & Ht & Hn & Hc).
  destruct Hc as [[Hk Hi]|[Hk ->]].
  - pose proof (proj2 (abs_is_Some a1 h k Hw Hh) (ex_intro _ _ Hk)) as Hs.
    rewrite decide_False by lia. destruct (m_val e).
    + pose proof (mapped_table _ _ _ _ Hw Hh Hk) as Hnt.
      destruct (table a1) as [t|] eqn:Et; [|done]. rewrite (table_at a1 t i) by done.
      destruct (set_value_spec a1 h k i (cstr v) Hw Hh Hk Hi) as [Hw' Ha'].
      eexists _, _, _. split; [done|]. split_and!; try done. left. done.
    + eexists _, _, _. split; [done|]. split_and!; try done. right. right. done.
  - rewrite decide_True by lia. eexists _, _, _. split; [done|]. split_and!; try done.
    right. left. split_and!; try done. apply eq_None_not_Some.
    rewrite (abs_is_Some a1 h k Hw Hh), Hk. by intros [? ?].
Qed.

Lemma get_spec e k a g : wf a ->
  exists a' g', kvs_array_get e k (a, g) = (abs a !! k, (a', g')) /\ wf a' /\ abs a' = abs a /\
    next_slot a' = next_slot a.
Proof.
  intros Hwf. unfold kvs_array_get.
  destruct (find_slot_spec e k a g Hwf) as (i & a1 & g1 & h & -> & Hw & Hh & Ha & Ht & Hn & Hc).
  exists a1, g1. rewrite <- Ha. split; [|by rewrite Ha]. destruct Hc as [[Hk Hi]|[Hk ->]].
  - rewrite decide_True by lia. f_equal. rewrite (array_abs_lookup a1 h), Hk by done. cbn.
    rewrite slot_atoi by done. unfold at_slot. by destruct (table a1).
  - rewrite decide_False by lia. f_equal. by rewrite (array_abs_lookup a1 h), Hk by done.
Qed.

Lemma array_exist_spec e k a g : wf a ->
  exists a' g', kvs_array_exist e k (a, g) =
    (if decide (is_Some (abs a !! k)) then 0 else 1, (a', g')) /\ wf a' /\ abs a' = abs a /\
    next_slot a' = next_slot a.
Proof.
  intros Hwf. unfold kvs_array_exist.
  destruct (find_slot_spec e k a g Hwf) as (i & a1 & g1 & h & -> & Hw & Hh & Ha & Ht & Hn & Hc).
  exists a1, g1. rewrite <- Ha. split; [|by rewrite Ha].
  pose proof (abs_is_Some a1 h k Hw Hh) as Hiff. destruct Hc as [[Hk Hi]|[Hk ->]].
  - rewrite (decide_True (P := i >= 0)) by lia. rewrite decide_True; [done|]. apply Hiff. eauto.
  - rewrite (decide_False (P := -1 >= 0)) by lia. rewrite decide_False; [done|].
    rewrite Hiff, Hk. by intros [? ?].
Qed.

Lemma grow_free_spec e a i : wf a -> owned a i ->
  wf (grow_free e a) /\ abs (grow_free e a) = abs a /\ owned (grow_free e a) i /\
  next_slot (grow_free e a) = next_slot a.
Proof.
  intros Hwf Ho. unfold grow_free. case_decide as Hc; [|done]. destruct (m_free e); [|done].
  split_and!; try done. destruct Hwf as [Hi Hf Hn Hcap]. split; try done.
  unfold free_count in *. cbn. case_decide; lia.
Qed.

Lemma push_free_fields i a :
  next_slot (push_free i a) = next_slot a /\ index (push_free i a) = index a /\
  table (push_free i a) = table a.
Proof. unfold push_free. by case_decide. Qed.

Lemma push_grow_index e i h a :
  set_index h (push_free i (grow_free e a)) = push_free i (grow_free e (set_index h a)).
Proof.
  unfold push_free, grow_free, free_count, set_index. cbn.
  destruct (decide (Z.of_nat (length (free_stack a)) = free_cap a)) as [?|?]; [destruct (m_free e)|];
    cbn; case_decide; done.
Qed.

Lemma array_del_spec init e k a g : wf a -> 0 < init < 2 ^ 31 ->
  exists rc a' g', kvs_array_del init e k (a, g) = (rc, (a', g')) /\ wf a' /\
    next_slot a' = next_slot a /\
    ((rc = 0 /\ is_Some (abs a !! k) /\ abs a' = delete k (abs a)) \/
     (rc = 1 /\ abs a !! k = None /\ abs a' = abs a)).
Proof.
  intros Hwf Hin. unfold kvs_array_del.
  destruct (find_slot_spec e k a g Hwf) as (i & a1 & g1 & h & -> & Hw & Hh & <- & Ht & Hn & Hc).
  destruct Hc as [[Hk Hi]|[Hk ->]].
  - pose proof (proj2 (abs_is_Some a1 h k Hw Hh) (ex_intro _ _ Hk)) as Hs.
    rewrite decide_False by lia. destruct (wf_index _ Hw) as (h0 & Hh0 & Hwh & _ & Htot). simplify_eq.
    assert (total a1 > 0) as Htp.
    { assert (size (Hash.abs h) <> 0%nat) by (apply map_size_ne_0_lookup; by exists k, (dec i)). lia. }
    rewrite (decide_True (P := total (set_item i null_item a1) > 0)) by exact Htp.
    set (a2 := set_total _ _). assert (index (push_free i (grow_free e a2)) = Some h) as Hidx.
    { destruct (push_free_fields i (grow_free e a2)) as (_ & -> & _).
      unfold grow_free. repeat case_match; done. }
    rewrite Hidx.
    destruct (Hash.hash_del_spec init (henv e) k h g1 Hwh Hin) as (rc & h' & -> & Hw' & Hd).
    destruct Hd as [(-> & _ & Ha')|(_ & ? & _)]; [|congruence].
    rewrite push_grow_index.
    destruct (remove_key_spec a1 h h' k i Hw Hh Hk Hi Hw' Ha') as (Hw3 & Ha3 & Ho3).
    destruct (grow_free_spec e (set_index h' a2) i) as (Hw4 & Ha4 & Ho4 & Hn4); [done..|].
    destruct (push_free_spec _ i Hw4 Ho4) as [Hw5 Ha5].
    destruct (push_free_fields i (grow_free e (set_index h' a2))) as (Hn5 & _).
    eexists _, _, _. split; [done|]. split_and!; try done.
    + by rewrite Hn5, Hn4.
    + left. split_and!; try done. rewrite Ha5, Ha4. exact Ha3.
  - rewrite decide_True by lia. eexists _, _, _. split; [done|]. split_and!; try done.
    right. split_and!; try done. apply eq_None_not_Some.
    rewrite (abs_is_Some a1 h k Hw Hh), Hk. by intros [? ?].
Qed.

(** Allocating the slot table of an array that has none. *)
Lemma alloc_table_spec a : wf a -> table a = None ->
  let a' := mk_array (Some ∅) (total a) (next_slot a) (free_stack a) (free_cap a) (index a) in
  wf a' /\ abs a' = abs a.
Proof.
  intros Hwf Ht a'. pose proof Hwf as [(h & Hh & Hw & Hm & Htot) Hf Hn Hc].
  assert (forall k, Hash.abs h !! k = None) as Hno.
  { intros k. destruct (Hash.abs h !! k) as [v|] eqn:E; [|done].
    by destruct (mapped_table a h k v Hwf Hh E). }
  split.
  - split; try done. exists h. split_and!; try done. intros k v Hk. by rewrite Hno in Hk.
  - apply map_eq. intros k. rewrite !(array_abs_lookup _ h) by done. by rewrite Hno.
Qed.

Lemma array_size_abs a : wf a -> total a = Z.of_nat (size (abs a)).
Proof.
  intros Hwf. destruct (wf_index _ Hwf) as (h & Hh & _ & _ & ->). f_equal.
  rewrite <- !size_dom. f_equal. apply set_eq. intros k. rewrite !elem_of_dom.
  symmetry. by apply abs_is_Some.
Qed.

Lemma add_new_spec e k v a g h : wf a -> index a = Some h -> table a <> None ->
  Hash.abs h !! k = None -> next_slot a < 2 ^ 31 - 1 -> total a < 2 ^ 31 - 1 ->
  exists rc a' g',
    add_new e k v (a, g) = (rc, (a', g')) /\ wf a' /\ next_slot a' <= next_slot a + 1 /\
    ((rc = 0 /\ abs a' = <[k := cstr v]> (abs a)) \/ (rc < 0 /\ abs a' = abs a)).
Proof.
  intros Hwf Hh Ht Hk Hnx Htot. unfold add_new.
  assert (next_slot (take_slot a).2 <= next_slot a + 1) as Hnt.
  { unfold take_slot. destruct (free_stack a); [case_decide|]; cbn; try lia;
      pose proof (wf_next _ Hwf); rewrite i32_small; lia. }
  destruct (take_slot_spec a Hwf Hnx) as (o & a1 & Etk & Hw1 & Ht1 & Hh1 & Htt1 & Ho).
  rewrite Etk in Hnt |- *. cbn in Hnt. rewrite <- Ht1 in Ht. rewrite <- Hh1 in Hh.
  assert (abs a1 = abs a) as Ha1 by (unfold abs, stored; by rewrite Hh1, Ht1).
  destruct o as [slot|].
  2: { eexists _, _, _. split; [done|]. split_and!; try done. right. by rewrite Ha1. }
  specialize (Ho slot eq_refl). pose proof Ho as (Hsl & Hsn & Hsf & Hsu).
  destruct (set_item_unmapped a1 slot null_item Hw1 Ht Hsu Hsl) as [Hw2 Ha2].
  assert (owned (set_item slot null_item a1) slot) as Ho2 by done.
  destruct (m_key e && m_val e).
  2: { destruct (push_free_spec _ slot Hw2 Ho2) as [Hw3 Ha3].
       destruct (push_free_fields slot (set_item slot null_item a1)) as (Hn3 & _).
       eexists _, _, _. split; [done|]. split_and!; try done; [by rewrite Hn3|].
       right. by rewrite Ha3, Ha2. }
  cbn [index set_total set_item]. rewrite Hh. unfold Hash.kvs_hash_set.
  assert (sdec slot = dec slot) as -> by (unfold sdec; rewrite decide_False; [done|lia]).
  rewrite cstr_id by (apply dec_cstr_ok; lia).
  destruct (wf_index _ Hw1) as (h0 & Hh0 & Hwh & _ & Htot1). simplify_eq.
  destruct (Hash.set_len_spec (henv e) k (dec slot) h g Hwh) as (rc & h' & g' & -> & Hw' & Hc); [lia|].
  destruct Hc as [[-> Ha']|(-> & Ha' & _)].
  - rewrite decide_False by auto.
    destruct (add_key_spec a1 h h' k slot (cstr v) Hw1 Hh Ht Ho Hk Hw' Ha') as [Hw3 Ha3].
    eexists _, _, _. split; [done|]. split_and!; try done. left. split; [done|].
    by rewrite <- Ha1.
  - rewrite decide_True by done.
    set (a3 := set_total _ _).
    assert (a3 = set_index h' (set_item slot null_item a1)) as ->.
    { unfold a3, set_index, set_item, set_total. cbn. destruct (table a1); [|done]. cbn.
      rewrite insert_insert_eq. f_equal. lia. }
    destruct (wf_set_index _ h h' Hw2 Hh Hw' Ha') as [Hw4 Ha4].
    assert (owned (set_index h' (set_item slot null_item a1)) slot) as Ho4.
    { split_and!; try done; try lia. intros h1 k1 v1 Hh1' Hk1. cbn in Hh1'. simplify_eq.
      rewrite Ha' in Hk1. by apply (Hsu h k1 v1). }
    destruct (push_free_spec _ slot Hw4 Ho4) as [Hw5 Ha5].
    destruct (push_free_fields slot (set_index h' (set_item slot null_item a1))) as (Hn5 & _).
    eexists _, _, _. split; [done|]. split_and!; try done; [by rewrite Hn5|].
    right. by rewrite Ha5, Ha4, Ha2.
Qed.

Lemma set_spec e k v a g : wf a -> next_slot a < 2 ^ 31 - 1 -> total a < 2 ^ 31 - 1 ->
  exists rc a' g', kvs_array_set e k v (a, g) = (rc, (a', g')) /\ wf a' /\
    next_slot a' <= next_slot a + 1 /\
    ((rc = 0 /\ abs a' = <[k := cstr v]> (abs a)) \/ (rc < 0 /\ abs a' = abs a)).
Proof.
  intros Hwf0 Hnx0 Htot0. unfold kvs_array_set.
  set (a0 := match table a with None => _ | Some _ => a end).
  assert (wf a0 /\ abs a0 = abs a /\ next_slot a0 = next_slot a /\ total a0 = total a)
    as (Hwf & <- & Hnx & Htot).
  { unfold a0. destruct (table a) eqn:Et; [done|]. destruct (m_slots e); [|done].
    destruct (alloc_table_spec a Hwf0 Et). done. }
  rewrite <- Hnx, <- Htot in *. clearbody a0. clear Hwf0 Hnx Htot.
  destruct (decide (table a0 = None)) as [|Ht].
  { eexists _, _, _. split; [done|]. split_and!; try done; [lia|]. by right. }
  destruct (find_slot_spec e k a0 g Hwf) as (i & a1 & g1 & h & -> & Hw & Hh & Ha & Ht1 & Hn & Hc).
  rewrite <- Ha. destruct Hc as [[Hk Hi]|[Hk ->]].
  - rewrite decide_True by lia.
    destruct (array_mod_spec e k v a1 g1 Hw) as (rc & a' & g' & -> & Hw' & Hn' & Hc).
    eexists _, _, _. split; [done|]. split_and!; try done; [lia|].
    destruct Hc as [(-> & _ & ->)|[(_ & Hno & _)|(-> & _ & ->)]]; [by left| |by right].
    apply eq_None_not_Some in Hno. destruct Hno. apply (abs_is_Some a1 h k Hw Hh). eauto.
  - rewrite decide_False by lia. rewrite <- Hn.
    apply (add_new_spec e k v a1 g1 h Hw Hh); try done; [by rewrite Ht1|lia|].
    rewrite (array_size_abs a1 Hw), Ha, <- (array_size_abs a0 Hwf). done.
Qed.

Lemma array_create_spec init e a : 0 < init < 2 ^ 31 ->
  kvs_array_create init e = (0, a) ->
  (forall h, index a = Some h -> (Hash.seed h).1 <> 0 \/ (Hash.seed h).2 <> 0) ->
  wf a /\ abs a = ∅ /\ next_slot a = 0.
Proof.
  unfold kvs_array_create. intros Hin Hc Hs. destruct (m_index e); [|done].
  destruct (Hash.kvs_hash_create init (henv e)) as [rc h] eqn:E. simplify_eq.
  destruct (Hash.hash_create_spec init (henv e) h Hin E (Hs h eq_refl)) as [Hw Ha].
  split_and!; [|by unfold abs; cbn; rewrite Ha, omap_empty|done]. split; cbn.
  - exists h. rewrite Ha. split_and!; done.
  - split; constructor.
  - done.
  - done.
Qed.

(** ** The engine contract *)

Lemma array_exec_step init e o a g :
  0 < init < 2 ^ 31 -> wf a -> next_slot a < 2 ^ 31 - 1 -> total a < 2 ^ 31 - 1 -> op_ok o ->
  let s' := exec init e o (a, g) in
  wf s'.2.1 /\ next_slot s'.2.1 <= next_slot a + 1 /\
  spec_step (abs a) o s'.1 (abs s'.2.1).
Proof.
  intros Hin Hwf Hnx Htot Hok. unfold exec. destruct o; cbn in Hok.
  - destruct (set_spec e k v a g Hwf Hnx Htot) as (rc & a' & g' & -> & Hw & Hn & Hc). cbn.
    rewrite cstr_id in Hc by apply Hok.
    split_and!; [done|done|]. destruct Hc as [(-> & ->)|(? & ->)]; by constructor.
  - destruct (get_spec e k a g Hwf) as (a' & g' & -> & Hw & Ha & Hn). cbn. rewrite Ha.
    split_and!; [done|lia|constructor].
  - destruct (array_mod_spec e k v a g Hwf) as (rc & a' & g' & -> & Hw & Hn & Hc). cbn.
    rewrite cstr_id in Hc by apply Hok.
    split_and!; [done|lia|]. destruct Hc as [(-> & ? & ->)|[(-> & ? & ->)|(-> & ? & ->)]]; by constructor.
  - destruct (array_del_spec init e k a g Hwf Hin) as (rc & a' & g' & -> & Hw & Hn & Hc). cbn.
    split_and!; [done|lia|]. destruct Hc as [(-> & ? & ->)|(-> & ? & ->)]; by constructor.
  - destruct (array_exist_spec e k a g Hwf) as (a' & g' & -> & Hw & Ha & Hn). cbn. rewrite Ha.
    split_and!; [done|lia|]. case_decide as Hd; constructor; [done|by apply eq_None_not_Some].
Qed.

Section Contract.

Context (init : Z) (Hinit : 0 < init < 2 ^ 31).

#[export] Program Instance array_engine : Engine (kvs_array_t * Hash.stats) env := {
  engine_wf s := wf s.1;
  engine_abs s := abs s.1;
  engine_room _ s := next_slot s.1 < 2 ^ 31 - 1 /\ total s.1 < 2 ^ 31 - 1;
  engine_exec := exec init;
}.
Next Obligation.
  intros e o [a g] Hwf [Hn Ht] Hok. cbn in *.
  by destruct (array_exec_step init e o a g Hinit Hwf Hn Ht Hok) as (? & _ & ?).
Qed.

Lemma array_run_room es a g :
  wf a -> Forall (fun p => op_ok p.2) es ->
  next_slot a + Z.of_nat (length es) < 2 ^ 31 - 1 -> total a + Z.of_nat (length es) < 2 ^ 31 - 1 ->
  run_room es (a, g).
Proof.
  revert a g. induction es as [|[e o] es IH]; intros a g Hwf Hok Hn Ht; cbn; [done|].
  inversion Hok; subst. cbn in Hn, Ht. split; [lia|].
  destruct (array_exec_step init e o a g Hinit Hwf) as (Hw & Hnx & Hs); [lia|lia|done|].
  apply spec_step_size in Hs. rewrite (array_size_abs a Hwf) in Ht.
  destruct (exec init e o (a, g)) as [r [a' g']]. cbn in *.
  apply IH; [done|done|lia|]. rewrite (array_size_abs a' Hw). lia.
Qed.

#[export] Program Instance array_capacity : Capacity (kvs_array_t * Hash.stats) env := {
  capacity n s := next_slot s.1 + Z.of_nat n < 2 ^ 31 /\ total s.1 + Z.of_nat n < 2 ^ 31;
}.
Next Obligation. intros n m [a g] Hle H. cbn in *. lia. Qed.
Next Obligation. intros n o [a g] H. cbn in *. lia. Qed.
Next Obligation.
  intros n e o [a g] Hwf [Hn Ht] Hok. cbn in Hwf, Hn, Ht |- *.
  destruct (array_exec_step init e o a g Hinit Hwf) as (Hw & Hnx & Hs); [lia|lia|done|].
  apply spec_step_size in Hs. rewrite (array_size_abs a Hwf) in Ht.
  destruct (exec init e o (a, g)) as [r [a' g']]. cbn in *.
  split; [lia|]. rewrite (array_size_abs a' Hw). lia.
Qed.

End Contract.

(** (C9) The array engine is a map: after [kvs_array_create], any sequence of
    SET, GET, MOD, DEL and EXIST calls, whatever allocations of the table, of
    keys, values, the free list or the index fail, and whether or not the
    table is full, returns what the contract over a finite map returns, and
    ends in a state in which the index, the slots and the free stack agree. *)
Theorem array_refines_map init (Hin : 0 < init < 2 ^ 31) e0 a0 g0 es :
  kvs_array_create init e0 = (0, a0) ->
  (forall h, index a0 = Some h -> (Hash.seed h).1 <> 0 \/ (Hash.seed h).2 <> 0) ->
  Forall (fun p => op_ok p.2) es -> Z.of_nat (length es) < 2 ^ 31 - 1 ->
  let r := engine_run (Engine0 := array_engine init Hin) es (a0, g0) in
  wf r.2.1 /\ spec_run ∅ (snd <$> es) r.1 (abs r.2.1).
Proof.
  intros Hc Hs Hok Hl r. destruct (array_create_spec init e0 a0 Hin Hc Hs) as (Hwf & Habs & Hn).
  destruct (engine_run_refines (Engine0 := array_engine init Hin) es (a0, g0)) as [Hw Hr]; [done| |done|].
  - apply array_run_room; [done|done|lia|]. rewrite (array_size_abs a0 Hwf), Habs, map_size_empty. lia.
  - cbn in Hr. by rewrite Habs in Hr.
Qed.

Definition env_ok : env := mk_env true true true true true Hash.env_ok.

Lemma array_refines_map_witness :
  let ops := [OSet [97] [49]; OSet [98] [50]; ODel [97]; OSet [99] [51]; OGet [99]; OGet [97]; OExist [98]] in
  let a0 := (kvs_array_create 2 env_ok).2 in
  let r := engine_run (Engine0 := array_engine 2 (conj eq_refl eq_refl))
             (map (pair env_ok) ops) (a0, Hash.stats0) in
  r.1 = [RCode 0; RCode 0; RCode 0; RCode 0; RVal (Some [51]); RVal None; RCode 0] /\
  next_slot r.2.1 = 2 /\ spec_run ∅ ops r.1 (abs r.2.1).
Proof.
  intros ops a0 r. split; [vm_compute; reflexivity|]. split; [vm_compute; reflexivity|].
  refine (proj2 (array_refines_map 2 (conj eq_refl eq_refl) env_ok a0 Hash.stats0
                   (map (pair env_ok) ops) _ _ _ _)).
  - vm_compute. reflexivity.
  - intros h [= <-]. left. vm_compute. discriminate.
  - repeat (constructor; [cbn; repeat constructor; lia|]). constructor.
  - vm_compute. reflexivity.
Defined.

End Array.
