(* ===== verification/Expire.v ===== *)
(** * Expire: the table of expiry times

    [src/expire/kvs_expire.c]: items reached both through hash buckets and
    through a binary min-heap ordered by expiry time, with a back pointer from
    each item to its heap position.  Items are shared between the two
    structures, so the model has a store of items addressed by pointers; the
    buckets and the heap hold pointers.  The theorems state that the heap
    order, the back pointers, the buckets and the count stay consistent, that
    the table is a map from (engine, key) to expiry time, and that the expiry
    cycle removes the items that are due, earliest first. *)

From S2P Require Import Prelude Cstring.

Module Expire.

(** [kvs_expire_item_t], less the chain link; [heap_index] -1 is [(size_t)-1]. *)
Record item := mk_item {
  ekey : bytes;
  engine : Z;
  expire_at_ms : Z;
  heap_index : Z;
}.

(** A pointer to an item. *)
Abbreviation ptr := nat (only parsing).

(** [kvs_expire_table_t] and the items it leads to.  [heap] are the first
    [heap_size] entries; a bucket is its chain of items, and [buckets] is
    [None] for NULL.  [next_ptr] is the address the next item gets. *)
Record table := mk_table {
  store : gmap nat item;
  next_ptr : ptr;
  buckets : option (gmap Z (list ptr));
  size : Z;
  count : Z;
  heap : list ptr;
  heap_alloc : bool;
  heap_cap : Z;
}.

Definition set_store (m : gmap nat item) (t : table) : table :=
  mk_table m (next_ptr t) (buckets t) (size t) (count t) (heap t) (heap_alloc t) (heap_cap t).
Definition set_buckets (b : option (gmap Z (list ptr))) (t : table) : table :=
  mk_table (store t) (next_ptr t) b (size t) (count t) (heap t) (heap_alloc t) (heap_cap t).
Definition set_count (n : Z) (t : table) : table :=
  mk_table (store t) (next_ptr t) (buckets t) (size t) n (heap t) (heap_alloc t) (heap_cap t).
Definition set_heap (h : list ptr) (t : table) : table :=
  mk_table (store t) (next_ptr t) (buckets t) (size t) (count t) h (heap_alloc t) (heap_cap t).

Definition KVS_EXPIRE_BUCKETS : Z := 8192.
Definition KVS_EXPIRE_HEAP_INIT_CAP : Z := 1024.

(** [expire_hash]: FNV-1a over the key and the engine. *)
Definition fnv_step (h c : Z) : Z := u32 (Z.lxor h c * 16777619).
Definition expire_hash (k : bytes) (eng : Z) (nbuckets : Z) : Z :=
  fnv_step (fold_left fnv_step k 2166136261) (u32 eng) mod nbuckets.

(** ** The heap *)

Definition heap_size (t : table) : nat := length (heap t).

(** [tab->heap[i]] and the expiry time of what it points to. *)
Definition heap_at (t : table) (i : nat) : ptr := default 0%nat (heap t !! i).
Definition due (t : table) (p : ptr) : Z := default 0 (expire_at_ms <$> store t !! p).

Definition set_index (i : Z) (x : item) : item :=
  mk_item (ekey x) (engine x) (expire_at_ms x) i.
Definition set_heap_index (p : ptr) (i : Z) (t : table) : table :=
  set_store (alter (set_index i) p (store t)) t.

(** [heap_swap]. *)
Definition heap_swap (i j : nat) (t : table) : table :=
  if decide (i = j) then t
  else
    let pi := heap_at t i in
    let pj := heap_at t j in
    let t := set_heap (<[j := pi]> (<[i := pj]> (heap t))) t in
    set_heap_index pi (Z.of_nat j) (set_heap_index pj (Z.of_nat i) t).

(** [heap_sift_up]; the index gets smaller with every round, so [idx] rounds
    are enough. *)
Fixpoint sift_up_loop (fuel : nat) (idx : nat) (t : table) : table :=
  match fuel with
  | O => t
  | S f =>
      if decide (idx = 0%nat) then t
      else
        let parent := ((idx - 1) / 2)%nat in
        if decide (due t (heap_at t parent) <= due t (heap_at t idx)) then t
        else sift_up_loop f parent (heap_swap parent idx t)
  end.
Definition heap_sift_up (idx : nat) (t : table) : table := sift_up_loop idx idx t.

(** The child [heap_sift_down] swaps with, or the index itself. *)
Definition smallest_of (idx : nat) (t : table) : nat :=
  let left := (idx * 2 + 1)%nat in
  let right := (left + 1)%nat in
  let s := idx in
  let s := if decide ((left < heap_size t)%nat /\ due t (heap_at t left) < due t (heap_at t s))
           then left else s in
  if decide ((right < heap_size t)%nat /\ due t (heap_at t right) < due t (heap_at t s))
  then right else s.

(** [heap_sift_down]; the index grows with every round and stays below
    [heap_size], so that many rounds are enough. *)
Fixpoint sift_down_loop (fuel : nat) (idx : nat) (t : table) : table :=
  match fuel with
  | O => t
  | S f =>
      let s := smallest_of idx t in
      if decide (s = idx) then t else sift_down_loop f s (heap_swap idx s t)
  end.
Definition heap_sift_down (idx : nat) (t : table) : table :=
  sift_down_loop (heap_size t) idx t.

(** [heap_ensure_cap]; [m] tells whether [kvs_realloc] succeeds. *)
Definition heap_ensure_cap (m : bool) (t : table) : Z * table :=
  if decide (Z.of_nat (heap_size t) < heap_cap t) then (0, t)
  else
    let new_cap := if decide (heap_cap t <> 0) then heap_cap t * 2 else KVS_EXPIRE_HEAP_INIT_CAP in
    if m then
      (0, mk_table (store t) (next_ptr t) (buckets t) (size t) (count t) (heap t) true new_cap)
    else (-1, t).

(** [heap_push]. *)
Definition heap_push (m : bool) (p : ptr) (t : table) : Z * table :=
  let '(rc, t) := heap_ensure_cap m t in
  if decide (rc <> 0) then (-1, t)
  else
    let n := heap_size t in
    let t := set_heap_index p (Z.of_nat n) (set_heap (heap t ++ [p]) t) in
    (0, heap_sift_up n t).

(** [heap_remove_at]. *)
Definition heap_remove_at (idx : nat) (t : table) : table :=
  if decide (idx >= heap_size t)%nat then t
  else
    let last := (heap_size t - 1)%nat in
    let t := if decide (idx <> last) then heap_swap idx last t else t in
    let t := set_heap_index (heap_at t last) (-1) t in
    let t := set_heap (take last (heap t)) t in
    if decide (idx < heap_size t)%nat then heap_sift_up idx (heap_sift_down idx t) else t.

(** [node->heap_index] as an index, when it is inside the heap. *)
Definition index_in_heap (p : ptr) (t : table) : option nat :=
  match store t !! p with
  | Some x => if decide (0 <= heap_index x < Z.of_nat (heap_size t))
              then Some (Z.to_nat (heap_index x)) else None
  | None => None
  end.

(** [heap_update]; the index is read again after sifting down. *)
Definition heap_update (p : ptr) (t : table) : table :=
  match index_in_heap p t with
  | None => t
  | Some i =>
      let t := heap_sift_down i t in
      match store t !! p with
      | Some x => heap_sift_up (Z.to_nat (heap_index x)) t
      | None => t
      end
  end.

(** ** The buckets *)

Definition bucket (t : table) (i : Z) : list ptr := default [] (buckets t ≫= (.!! i)).

(** [cur->engine == engine && strcmp(cur->key, key) == 0]. *)
Definition is_item (t : table) (eng : Z) (k : bytes) (p : ptr) : bool :=
  match store t !! p with
  | Some x => bool_decide (engine x = eng /\ strcmp (ekey x) k = 0)
  | None => false
  end.

(** The first pointer of a chain that satisfies a test. *)
Fixpoint find_first (f : ptr -> bool) (l : list ptr) : option ptr :=
  match l with
  | [] => None
  | p :: r => if f p then Some p else find_first f r
  end.

(** [expire_find]. *)
Definition expire_find (eng : Z) (k : bytes) (t : table) : option ptr :=
  find_first (is_item t eng k) (bucket t (expire_hash k eng (size t))).

(** Removing the first occurrence of a pointer from a chain. *)
Fixpoint unlink (p : ptr) (l : list ptr) : list ptr :=
  match l with
  | [] => []
  | q :: r => if decide (q = p) then r else q :: unlink p r
  end.

(** [expire_unlink_bucket]. *)
Definition expire_unlink_bucket (p : ptr) (t : table) : table :=
  match store t !! p with
  | Some x =>
      let idx := expire_hash (ekey x) (engine x) (size t) in
      set_buckets (<[idx := unlink p (bucket t idx)]> <$> buckets t) t
  | None => t
  end.

(** [expire_free_node]. *)
Definition expire_free_node (p : ptr) (t : table) : table :=
  let t := match index_in_heap p t with
           | Some i => heap_remove_at i t
           | None => t
           end in
  let t := expire_unlink_bucket p t in
  let t := set_store (delete p (store t)) t in
  if decide (count t > 0) then set_count (count t - 1) t else t.

(** ** Operations *)

(** [kvs_expire_create]; [mb], [mh]: the two [kvs_calloc]s succeed. *)
Definition kvs_expire_create (mb mh : bool) (t : table) : Z * table :=
  if mb then
    if mh then
      (0, mk_table (store t) (next_ptr t) (Some ∅) KVS_EXPIRE_BUCKETS 0 [] true
            KVS_EXPIRE_HEAP_INIT_CAP)
    else (-1, mk_table (store t) (next_ptr t) None KVS_EXPIRE_BUCKETS 0 (heap t) false (heap_cap t))
  else (-1, set_buckets None t).

(** [kvs_expire_destroy]. *)
Definition kvs_expire_destroy (t : table) : table :=
  match buckets t with
  | None => t
  | Some _ => mk_table ∅ (next_ptr t) None 0 0 [] false 0
  end.

(** [kvs_expire_set] at time [now]; [mn], [mk], [mh]: the item, its key and
    the grown heap can be allocated. *)
Definition kvs_expire_set (mn mk mh : bool) (now eng : Z) (k : bytes) (ttl_ms : Z) (t : table) :
    Z * table :=
  if decide (buckets t = None \/ ttl_ms <= 0) then (-1, t)
  else
    let expire_at := i64 (now + ttl_ms) in
    match expire_find eng k t with
    | Some p =>
        let t := set_store (alter (fun x => mk_item (ekey x) (engine x) expire_at (heap_index x))
                              p (store t)) t in
        (0, heap_update p t)
    | None =>
        if mn && mk then
          let p := next_ptr t in
          let idx := expire_hash k eng (size t) in
          let old := bucket t idx in
          let t := mk_table (<[p := mk_item k eng expire_at (-1)]> (store t)) (S p)
                     (<[idx := p :: old]> <$> buckets t) (size t) (count t) (heap t)
                     (heap_alloc t) (heap_cap t) in
          let '(rc, t) := heap_push mh p t in
          if decide (rc <> 0) then
            (-1, set_store (delete p (store t)) (set_buckets (<[idx := old]> <$> buckets t) t))
          else (0, set_count (count t + 1) t)
        else (-1, t)
    end.

(** [kvs_expire_del], which [kvs_expire_persist] calls. *)
Definition kvs_expire_del (eng : Z) (k : bytes) (t : table) : Z * table :=
  if decide (buckets t = None) then (-1, t)
  else
    match expire_find eng k t with
    | None => (1, t)
    | Some p => (0, expire_free_node p t)
    end.
Definition kvs_expire_persist (eng : Z) (k : bytes) (t : table) : Z * table :=
  kvs_expire_del eng k t.

(** [kvs_expire_is_expired] and [kvs_expire_ttl] at time [now]. *)
Definition kvs_expire_is_expired (now eng : Z) (k : bytes) (t : table) : bool :=
  match expire_find eng k t with
  | None => false
  | Some p => bool_decide (now >= due t p)
  end.

Definition kvs_expire_ttl (now eng : Z) (k : bytes) (t : table) : Z :=
  match expire_find eng k t with
  | None => -1
  | Some p =>
      if decide (now >= due t p) then -2
      else
        let remain_ms := due t p - now in
        let s := remain_ms `quot` 1000 in
        if decide (remain_ms `rem` 1000 <> 0) then s + 1 else s
  end.

Section Cycle.

(** What [engine_del] does to the engines. *)
Context {W : Type} (engine_del : Z -> bytes -> W -> W).

(** The loop of [kvs_active_expire_cycle]; [todo] is [budget - removed]. *)
Fixpoint expire_loop (todo : nat) (now : Z) (removed : Z) (t : table) (w : W) : Z * table * W :=
  match todo with
  | O => (removed, t, w)
  | S n =>
      if decide (heap_size t = 0%nat) then (removed, t, w)
      else
        let p := heap_at t 0 in
        if decide (due t p > now) then (removed, t, w)
        else
          let w := match store t !! p with
                   | Some x => engine_del (engine x) (ekey x) w
                   | None => w
                   end in
          expire_loop n now (removed + 1) (expire_free_node p t) w
  end.

(** [kvs_active_expire_cycle]. *)
Definition kvs_active_expire_cycle (budget now : Z) (t : table) (w : W) : Z * table * W :=
  if decide (budget <= 0 \/ heap_alloc t = false \/ heap_size t = 0%nat) then (0, t, w)
  else expire_loop (Z.to_nat budget) now 0 t w.

End Cycle.

(** ** Heap order *)

Definition parent (i : nat) : nat := ((i - 1) / 2)%nat.

(** [f] is the value at each index of a heap of [n] elements. *)
Definition heap_ordered (f : nat -> Z) (n : nat) : Prop :=
  forall i, (0 < i < n)%nat -> f (parent i) <= f i.

(** The children of [r] are not smaller than the parent of [r]. *)
Definition bridge (f : nat -> Z) (n r : nat) : Prop :=
  (0 < r)%nat -> forall c, (0 < c < n)%nat -> parent c = r -> f (parent r) <= f c.

(** Order everywhere but between [r] and its parent. *)
Definition up_ok (f : nat -> Z) (n r : nat) : Prop :=
  (forall i, (0 < i < n)%nat -> i <> r -> f (parent i) <= f i) /\ bridge f n r.
(** Order everywhere but between [r] and its children. *)
Definition down_ok (f : nat -> Z) (n r : nat) : Prop :=
  (forall i, (0 < i < n)%nat -> parent i <> r -> f (parent i) <= f i) /\ bridge f n r.
(** Order everywhere but around [r]. *)
Definition mid_ok (f : nat -> Z) (n r : nat) : Prop :=
  (forall i, (0 < i < n)%nat -> i <> r -> parent i <> r -> f (parent i) <= f i) /\ bridge f n r.

Definition swap_at (i j k : nat) : nat :=
  if decide (k = i) then j else if decide (k = j) then i else k.

Lemma parent_spec i : (i - 1 = 2 * parent i \/ i - 1 = 2 * parent i + 1)%nat.
Proof.
  unfold parent. pose proof (Nat.div_mod_eq (i - 1) 2).
  pose proof (Nat.mod_upper_bound (i - 1) 2). lia.
Qed.

Lemma parent_lt i : (0 < i)%nat -> (parent i < i)%nat.
Proof. pose proof (parent_spec i). lia. Qed.

Lemma parent_child i c : (0 < c)%nat -> parent c = i -> c = (i * 2 + 1)%nat \/ c = (i * 2 + 2)%nat.
Proof. pose proof (parent_spec c). lia. Qed.

Lemma parent_left i : parent (i * 2 + 1) = i.
Proof. pose proof (parent_spec (i * 2 + 1)). lia. Qed.

Lemma parent_right i : parent (i * 2 + 1 + 1) = i.
Proof. pose proof (parent_spec (i * 2 + 1 + 1)). lia. Qed.

Lemma heap_root f n i : heap_ordered f n -> (i < n)%nat -> f 0%nat <= f i.
Proof.
  intros Ho. induction i as [i IH] using lt_wf_ind. intros Hi.
  destruct (decide (i = 0%nat)) as [->|]; [lia|].
  pose proof (parent_lt i ltac:(lia)). specialize (IH (parent i) ltac:(lia) ltac:(lia)).
  specialize (Ho i ltac:(lia)). lia.
Qed.

Lemma ordered_up f n r : heap_ordered f n -> (r < n)%nat -> up_ok f n r.
Proof.
  intros Ho Hr. split; [intros; by apply Ho|]. intros Hr0 c Hc Hpc.
  pose proof (Ho c Hc). pose proof (Ho r ltac:(lia)). rewrite Hpc in *. lia.
Qed.

Lemma up_done f n r : up_ok f n r -> r = 0%nat \/ f (parent r) <= f r -> heap_ordered f n.
Proof.
  intros [Ho _] Hd i Hi. destruct (decide (i = r)) as [->|]; [|by apply Ho].
  destruct Hd; [lia|done].
Qed.

Lemma up_step f n r : up_ok f n r -> (0 < r < n)%nat -> f r < f (parent r) ->
  up_ok (fun k => f (swap_at (parent r) r k)) n (parent r).
Proof.
  intros [Ho Hb] Hr Hlt. pose proof (parent_lt r ltac:(lia)) as Hp. split.
  - intros i Hi Hne. unfold swap_at. pose proof (parent_lt i ltac:(lia)).
    destruct (decide (i = r)) as [->|Hir].
    + rewrite !decide_True by done. rewrite decide_False by lia. lia.
    + rewrite (decide_False (P := i = parent r)) by done.
      case_decide as H1; [|case_decide as H2].
      * specialize (Ho i Hi Hir). rewrite H1 in Ho. lia.
      * specialize (Hb ltac:(lia) i Hi H2). done.
      * by apply Ho.
  - intros Hp0 c Hc Hpc. unfold swap_at. pose proof (parent_lt (parent r) Hp0).
    rewrite (decide_False (P := parent (parent r) = parent r)) by lia.
    rewrite (decide_False (P := parent (parent r) = r)) by lia.
    pose proof (Ho (parent r) ltac:(lia) ltac:(lia)).
    rewrite (decide_False (P := c = parent r)) by (pose proof (parent_lt c); lia).
    case_decide as H1; [done|]. specialize (Ho c Hc H1). rewrite Hpc in Ho. lia.
Qed.

(** [s] is a smallest child of [j], smaller than [j]. *)
Definition small_child (f : nat -> Z) (n j s : nat) : Prop :=
  (0 < s < n)%nat /\ parent s = j /\ f s < f j /\
  forall c, (0 < c < n)%nat -> parent c = j -> f s <= f c.

Lemma down_done f n r : down_ok f n r ->
  (forall c, (0 < c < n)%nat -> parent c = r -> f r <= f c) -> heap_ordered f n.
Proof.
  intros [Ho _] Hd i Hi. destruct (decide (parent i = r)) as [Hp|]; [|by apply Ho].
  rewrite Hp. by apply Hd.
Qed.

(** Swapping with the smallest child moves the disorder one level down; the
    edge above [j] is mended if the children of [j] fit under its parent. *)
Lemma mid_step f n j s : mid_ok f n j -> small_child f n j s ->
  down_ok (fun k => f (swap_at j s k)) n s.
Proof.
  intros [Ho Hb] (Hs & Hps & Hlt & Hmin). pose proof (parent_lt s ltac:(lia)) as Hjs.
  rewrite Hps in Hjs. split.
  - intros i Hi Hpi. unfold swap_at. pose proof (parent_lt i ltac:(lia)).
    rewrite (decide_False (P := parent i = s)) by done.
    destruct (decide (parent i = j)) as [Hpj|Hpj].
    + rewrite (decide_False (P := i = j)) by lia. case_decide; [lia|]. by apply Hmin.
    + destruct (decide (i = j)) as [->|Hij].
      * apply (Hb ltac:(lia)); done.
      * rewrite (decide_False (P := i = s)) by (intros ->; by apply Hpj).
        by apply Ho.
  - intros Hs0 c Hc Hpc. unfold swap_at. pose proof (parent_lt c ltac:(lia)).
    rewrite Hps, (decide_True (P := j = j)) by done.
    rewrite (decide_False (P := c = j)) by lia. rewrite (decide_False (P := c = s)) by lia.
    rewrite <- Hpc. apply Ho; lia.
Qed.

Lemma down_mid f n j : down_ok f n j -> mid_ok f n j.
Proof. intros [Ho Hb]. split; [intros; by apply Ho|done]. Qed.

Lemma mid_up f n r : mid_ok f n r ->
  (forall c, (0 < c < n)%nat -> parent c = r -> f r <= f c) -> up_ok f n r.
Proof.
  intros [Ho Hb] Hd. split; [|done]. intros i Hi Hne.
  destruct (decide (parent i = r)) as [Hp|]; [|by apply Ho]. rewrite Hp. by apply Hd.
Qed.

(** ** Moving pointers in the heap *)

(** The items without their back pointers. *)
Definition items (t : table) : gmap nat item := set_index 0 <$> store t.

(** What sifting leaves alone: everything but the order of the heap and the
    back pointers. *)
Record reorder (t t' : table) : Prop := {
  ro_items : items t' = items t;
  ro_heap : heap t' ≡ₚ heap t;
  ro_next : next_ptr t' = next_ptr t;
  ro_buckets : buckets t' = buckets t;
  ro_size : size t' = size t;
  ro_count : count t' = count t;
  ro_alloc : heap_alloc t' = heap_alloc t;
  ro_cap : heap_cap t' = heap_cap t;
}.

(** Every pointer of the heap leads to an item that knows its position. *)
Definition back_ok (t : table) : Prop :=
  forall i p, heap t !! i = Some p ->
    exists x, store t !! p = Some x /\ heap_index x = Z.of_nat i.

(** The expiry time at a heap position. *)
Definition val (t : table) (i : nat) : Z := due t (heap_at t i).

#[export] Instance reorder_refl : Reflexive reorder.
Proof. intros t. by split. Qed.

#[export] Instance reorder_trans : Transitive reorder.
Proof. intros t1 t2 t3 [] []. split; try congruence. by transitivity (heap t2). Qed.

Lemma due_items t p : due t p = default 0 (expire_at_ms <$> items t !! p).
Proof. unfold due, items. rewrite lookup_fmap. by destruct (store t !! p). Qed.

Lemma reorder_due t t' p : reorder t t' -> due t' p = due t p.
Proof. intros []. by rewrite !due_items, ro_items0. Qed.

Lemma reorder_length t t' : reorder t t' -> heap_size t' = heap_size t.
Proof. intros []. unfold heap_size. by rewrite ro_heap0. Qed.

Lemma set_heap_index_items p i t : items (set_heap_index p i t) = items t.
Proof.
  unfold items, set_heap_index. cbn. apply map_eq. intros q. rewrite !lookup_fmap, lookup_alter.
  case_decide as Hd; [|done]. subst q. by destruct (store t !! p).
Qed.

Lemma heap_at_lookup t i : (i < heap_size t)%nat -> heap t !! i = Some (heap_at t i).
Proof.
  unfold heap_size, heap_at. intros Hi. by destruct (lookup_lt_is_Some_2 _ _ Hi) as [p ->].
Qed.

Lemma back_ok_inj t i j p : back_ok t -> heap t !! i = Some p -> heap t !! j = Some p -> i = j.
Proof.
  intros Hb Hi Hj. destruct (Hb i p Hi) as (x & Hx & ?). destruct (Hb j p Hj) as (y & Hy & ?).
  simplify_eq. lia.
Qed.

Lemma heap_swap_lookup i j t k :
  (i < heap_size t)%nat -> (j < heap_size t)%nat ->
  heap (heap_swap i j t) !! k = heap t !! swap_at i j k.
Proof.
  intros Hi Hj. unfold heap_swap, swap_at. case_decide as Hij.
  - subst j. repeat case_decide; by subst.
  - cbn. unfold heap_size in *.
    destruct (decide (k = j)) as [->|Hkj].
    + rewrite list_lookup_insert_eq by (rewrite length_insert; lia).
      rewrite decide_False by done. symmetry. by apply heap_at_lookup.
    + rewrite list_lookup_insert_ne by done. case_decide as Hki.
      * subst k. rewrite list_lookup_insert_eq by lia. symmetry. by apply heap_at_lookup.
      * by rewrite list_lookup_insert_ne.
Qed.

Lemma heap_swap_reorder i j t :
  (i < heap_size t)%nat -> (j < heap_size t)%nat -> reorder t (heap_swap i j t).
Proof.
  intros Hi Hj. unfold heap_swap. case_decide as Hij; [done|].
  split; try done.
  - by rewrite !set_heap_index_items.
  - cbn. apply Permutation_insert_swap; by apply heap_at_lookup.
Qed.

Lemma heap_swap_val i j t k :
  (i < heap_size t)%nat -> (j < heap_size t)%nat ->
  val (heap_swap i j t) k = val t (swap_at i j k).
Proof.
  intros Hi Hj. unfold val. rewrite (reorder_due t) by (by apply heap_swap_reorder).
  unfold heap_at. by rewrite heap_swap_lookup.
Qed.

Lemma heap_swap_back i j t :
  (i < heap_size t)%nat -> (j < heap_size t)%nat -> back_ok t -> back_ok (heap_swap i j t).
Proof.
  intros Hi Hj Hb k p. rewrite heap_swap_lookup by done.
  pose proof (heap_at_lookup t i Hi) as Hpi. pose proof (heap_at_lookup t j Hj) as Hpj.
  unfold heap_swap, swap_at. destruct (decide (i = j)) as [<-|Hij].
  { intros Hk. apply Hb. repeat case_decide; by subst. }
  set (pi := heap_at t i) in *. set (pj := heap_at t j) in *.
  assert (pi <> pj) as Hne by (intros E; rewrite E in Hpi; by destruct Hij; eapply back_ok_inj).
  cbn. destruct (decide (k = i)) as [->|Hki]; [|destruct (decide (k = j)) as [->|Hkj]]; intros Hk.
  - assert (p = pj) as -> by congruence. destruct (Hb j pj Hpj) as (x & Hx & _).
    exists (set_index (Z.of_nat i) x). split; [|done].
    by rewrite lookup_alter_ne, lookup_alter_eq, Hx.
  - assert (p = pi) as -> by congruence. destruct (Hb i pi Hpi) as (x & Hx & _).
    exists (set_index (Z.of_nat j) x). split; [|done].
    by rewrite lookup_alter_eq, lookup_alter_ne, Hx.
  - destruct (Hb k p Hk) as (x & Hx & Hxi). exists x. split; [|done].
    rewrite !lookup_alter_ne; [done| |].
    + intros ->. destruct Hkj. by eapply back_ok_inj.
    + intros ->. destruct Hki. by eapply back_ok_inj.
Qed.

(** The state a sift keeps. *)
Definition kept (t t' : table) : Prop := reorder t t' /\ back_ok t'.

Lemma heap_swap_kept i j t :
  (i < heap_size t)%nat -> (j < heap_size t)%nat -> back_ok t -> kept t (heap_swap i j t).
Proof. intros. split; [by apply heap_swap_reorder|by apply heap_swap_back]. Qed.

Lemma kept_trans t1 t2 t3 : kept t1 t2 -> kept t2 t3 -> kept t1 t3.
Proof. intros [H1 _] [H2 H3]. split; [by transitivity t2|done]. Qed.

Lemma up_ok_ext f g n r : (forall k, f k = g k) -> up_ok f n r -> up_ok g n r.
Proof.
  intros E [Ho Hb]. split; [intros i ? ?|intros ? c ? ?]; rewrite <- !E; [by apply Ho|by apply Hb].
Qed.

Lemma down_ok_ext f g n r : (forall k, f k = g k) -> down_ok f n r -> down_ok g n r.
Proof.
  intros E [Ho Hb]. split; [intros i ? ?|intros ? c ? ?]; rewrite <- !E; [by apply Ho|by apply Hb].
Qed.

(** [heap_sift_up] mends the edge above [idx]. *)
Lemma sift_up_spec fuel idx t :
  (idx <= fuel)%nat -> (idx < heap_size t)%nat -> back_ok t -> up_ok (val t) (heap_size t) idx ->
  let t' := sift_up_loop fuel idx t in
  kept t t' /\ heap_ordered (val t') (heap_size t').
Proof.
  revert idx t. induction fuel as [|f IH]; intros idx t Hf Hi Hb Hu;
    cbn [sift_up_loop].
  - split; [done|]. apply up_done with idx; [done|lia].
  - case_decide as H0; [split; [done|]; apply up_done with idx; auto|].
    cbv zeta. fold (parent idx). case_decide as Hle; [split; [done|]; apply up_done with idx; auto|].
    pose proof (parent_lt idx ltac:(lia)) as Hp.
    assert (parent idx < heap_size t)%nat as Hpn by lia.
    pose proof (heap_swap_kept (parent idx) idx t Hpn Hi Hb) as [Hr Hb'].
    pose proof (reorder_length _ _ Hr) as Hl.
    destruct (IH (parent idx) (heap_swap (parent idx) idx t)) as [Hk Ho]; [lia|lia|done| |].
    + rewrite Hl. eapply up_ok_ext; [|apply up_step; [done|lia|]].
      * intros k. cbn. by rewrite heap_swap_val.
      * unfold val, parent in *. lia.
    + split; [|done]. by eapply kept_trans.
Qed.

(** What [heap_sift_down] picks. *)
Lemma smallest_of_spec idx t : (idx < heap_size t)%nat ->
  let s := smallest_of idx t in
  (s = idx /\ forall c, (0 < c < heap_size t)%nat -> parent c = idx -> val t idx <= val t c) \/
  (s <> idx /\ small_child (val t) (heap_size t) idx s).
Proof.
  intros Hi. unfold smallest_of. fold (val t idx) (val t (idx * 2 + 1)) (val t (idx * 2 + 1 + 1)).
  assert (forall c, (0 < c < heap_size t)%nat -> parent c = idx ->
            (c = idx * 2 + 1 \/ c = idx * 2 + 1 + 1)%nat) as Hch.
  { intros c Hc Hp. apply parent_child in Hp; lia. }
  pose proof (parent_left idx) as Hpl. pose proof (parent_right idx) as Hpr.
  destruct (decide ((idx * 2 + 1 < heap_size t)%nat /\ val t (idx * 2 + 1) < val t idx)) as [Hl|Hl];
  [fold (val t (idx * 2 + 1))|fold (val t idx)]; case_decide as Hr; cbv zeta.
  - right. split; [lia|]. split_and!; try done; try lia. intros c Hc [-> | ->]%Hch; try done; lia.
  - right. split; [lia|]. split_and!; try done; try lia. intros c Hc [-> | ->]%Hch; try done; lia.
  - right. split; [lia|]. split_and!; try done; try lia. intros c Hc [-> | ->]%Hch; try done; lia.
  - left. split; [done|]. intros c Hc [-> | ->]%Hch; try done; lia.
Qed.

(** [heap_sift_down] mends the edges below [idx]. *)
Lemma sift_down_spec fuel idx t :
  (heap_size t <= fuel + idx)%nat -> (idx < heap_size t)%nat -> back_ok t ->
  down_ok (val t) (heap_size t) idx ->
  let t' := sift_down_loop fuel idx t in
  kept t t' /\ heap_ordered (val t') (heap_size t').
Proof.
  revert idx t. induction fuel as [|f IH]; intros idx t Hf Hi Hb Hd; [lia|].
  cbn [sift_down_loop]. cbv zeta. destruct (smallest_of_spec idx t Hi) as [[-> Hs]|[Hne Hs]].
  - rewrite decide_True by done. split; [done|]. by apply down_done with idx.
  - rewrite decide_False by done. set (s := smallest_of idx t) in *.
    pose proof Hs as ((Hs0 & Hsn) & Hps & _). pose proof (parent_lt s Hs0) as Hlt.
    pose proof (heap_swap_kept idx s t Hi Hsn Hb) as [Hr Hb'].
    pose proof (reorder_length _ _ Hr) as Hl.
    destruct (IH s (heap_swap idx s t)) as [Hk Ho]; [lia|lia|done| |].
    + rewrite Hl. eapply down_ok_ext; [|apply mid_step; [by apply down_mid|done]].
      intros k. cbn. by rewrite heap_swap_val.
    + split; [|done]. by eapply kept_trans.
Qed.

(** Sifting down after the value at [idx] has changed either way: nothing moves
    and only the edge above [idx] may be wrong, or the heap is in order. *)
Lemma sift_down_mid idx t :
  (idx < heap_size t)%nat -> back_ok t -> mid_ok (val t) (heap_size t) idx ->
  let t' := heap_sift_down idx t in
  kept t t' /\ ((t' = t /\ up_ok (val t) (heap_size t) idx) \/ heap_ordered (val t') (heap_size t')).
Proof.
  intros Hi Hb Hm. assert (exists n, heap_size t = S n) as [n En]
    by (exists (pred (heap_size t)); lia).
  assert (heap_sift_down idx t =
    let s := smallest_of idx t in
    if decide (s = idx) then t else sift_down_loop n s (heap_swap idx s t)) as Et
    by (unfold heap_sift_down; by rewrite En).
  rewrite Et. cbv zeta. destruct (smallest_of_spec idx t ltac:(lia)) as [[-> Hs]|[Hne Hs]].
  - rewrite decide_True by done. split; [done|]. left. split; [done|]. by apply mid_up.
  - rewrite decide_False by done. set (s := smallest_of idx t) in *.
    pose proof Hs as ((Hs0 & Hsn) & Hps & _). pose proof (parent_lt s Hs0) as Hlt.
    pose proof (heap_swap_kept idx s t ltac:(lia) Hsn Hb) as [Hr Hb'].
    pose proof (reorder_length _ _ Hr) as Hl.
    destruct (sift_down_spec n s (heap_swap idx s t)) as [Hk Ho]; [lia|lia|done| |].
    + rewrite Hl. eapply down_ok_ext; [|by apply mid_step].
      intros k. cbn. by rewrite heap_swap_val.
    + split; [by eapply kept_trans|]. by right.
Qed.

(** Down and up again from a position around which the order may be wrong. *)
Lemma sift_both idx t j :
  (idx < heap_size t)%nat -> back_ok t -> mid_ok (val t) (heap_size t) idx ->
  (j < heap_size t)%nat -> (heap_sift_down idx t = t -> j = idx) ->
  let t' := heap_sift_up j (heap_sift_down idx t) in
  kept t t' /\ heap_ordered (val t') (heap_size t').
Proof.
  intros Hi Hb Hm Hj Hjt. destruct (sift_down_mid idx t Hi Hb Hm) as [[Hr Hb'] Hc].
  pose proof (reorder_length _ _ Hr) as Hl. cbv zeta. unfold heap_sift_up.
  destruct (sift_up_spec j j (heap_sift_down idx t)) as [Hk Ho]; [done|lia|done| |].
  - destruct Hc as [[Ht Hu]|Ho]; [|apply ordered_up; [done|lia]].
    rewrite Ht, (Hjt Ht). done.
  - split; [|done]. by eapply kept_trans.
Qed.

(** ** Heap operations *)

(** The heap of a table is in order and its back pointers are right. *)
Definition heap_ok (t : table) : Prop := back_ok t /\ heap_ordered (val t) (heap_size t).

(** What the heap operations do not touch. *)
Record frame (t t' : table) : Prop := {
  fr_items : items t' = items t;
  fr_next : next_ptr t' = next_ptr t;
  fr_buckets : buckets t' = buckets t;
  fr_size : size t' = size t;
  fr_count : count t' = count t;
}.

Lemma reorder_frame t t' : reorder t t' -> frame t t'.
Proof. intros []. by split. Qed.

Lemma frame_trans t1 t2 t3 : frame t1 t2 -> frame t2 t3 -> frame t1 t3.
Proof. intros [] []. split; congruence. Qed.

Lemma frame_due t t' p : frame t t' -> due t' p = due t p.
Proof. intros []. by rewrite !due_items, fr_items0. Qed.

Lemma heap_ordered_ext f g n : (forall k, (k < n)%nat -> f k = g k) -> heap_ordered f n -> heap_ordered g n.
Proof.
  intros E Ho i Hi. pose proof (parent_lt i ltac:(lia)). rewrite <- !E by lia. by apply Ho.
Qed.

Lemma set_heap_index_lookup_ne p q i t : p <> q -> store (set_heap_index p i t) !! q = store t !! q.
Proof. intros Hne. cbn. by rewrite lookup_alter_ne. Qed.

Lemma push_at_end p x t :
  heap_ok t -> store t !! p = Some x -> p ∉ heap t ->
  let t' := heap_sift_up (heap_size t)
              (set_heap_index p (Z.of_nat (heap_size t)) (set_heap (heap t ++ [p]) t)) in
  frame t t' /\ heap_ok t' /\ heap t' ≡ₚ p :: heap t /\ heap_alloc t' = heap_alloc t.
Proof.
  intros [Hb Ho] Hx Hp. set (n := heap_size t).
  set (t1 := set_heap_index p (Z.of_nat n) (set_heap (heap t ++ [p]) t)).
  assert (heap_size t1 = S n) as Hn1 by (unfold heap_size; cbn; rewrite length_app; cbn; unfold n, heap_size; lia).
  assert (items t1 = items t) as Hit by (unfold t1; by rewrite set_heap_index_items).
  assert (forall k, (k < n)%nat -> val t1 k = val t k) as Hval.
  { intros k Hk. unfold val. rewrite !due_items, Hit. unfold heap_at. cbn.
    by rewrite lookup_app_l by done. }
  assert (back_ok t1) as Hb1.
  { intros i q Hq. cbn in Hq. apply lookup_app_Some in Hq as [Hq|[Hi Hq]].
    - assert (p <> q) by (intros ->; by apply Hp, list_elem_of_lookup_2 with i).
      unfold t1. rewrite set_heap_index_lookup_ne by done. by apply Hb.
    - apply list_lookup_singleton_Some in Hq as [Hi0 <-].
      exists (set_index (Z.of_nat n) x). cbn. rewrite lookup_alter_eq, Hx. split; [done|].
      cbn. unfold n, heap_size. lia. }
  destruct (sift_up_spec n n t1) as [[Hr Hb2] Ho2]; [done|lia|done| |].
  - rewrite Hn1. split.
    + intros i Hi Hne. pose proof (parent_lt i ltac:(lia)). rewrite !Hval by lia. apply Ho. fold n. lia.
    + intros Hn0 c Hc Hpc. pose proof (parent_lt c ltac:(lia)). lia.
  - split_and!.
    + eapply frame_trans; [|by apply reorder_frame]. by split.
    + done.
    + unfold heap_sift_up. rewrite (ro_heap _ _ Hr). cbn. by rewrite Permutation_app_comm.
    + apply Hr.
Qed.

Lemma heap_push_spec m p x t :
  heap_ok t -> store t !! p = Some x -> p ∉ heap t ->
  exists rc t', heap_push m p t = (rc, t') /\ frame t t' /\ heap_ok t' /\
    ((rc = 0 /\ heap t' ≡ₚ p :: heap t /\ (heap_alloc t = true -> heap_alloc t' = true)) \/
     (rc = -1 /\ t' = t /\ m = false)).
Proof.
  intros Hok Hx Hp. unfold heap_push, heap_ensure_cap.
  assert (forall t1, frame t t1 -> heap_ok t1 -> heap t1 = heap t -> store t1 = store t ->
    (heap_alloc t = true -> heap_alloc t1 = true) ->
    let t' := heap_sift_up (heap_size t1)
                (set_heap_index p (Z.of_nat (heap_size t1)) (set_heap (heap t1 ++ [p]) t1)) in
    frame t t' /\ heap_ok t' /\ heap t' ≡ₚ p :: heap t /\ (heap_alloc t = true -> heap_alloc t' = true))
    as Hpush.
  { intros t1 Hf1 Hok1 Hh1 Hs1 Ha1. destruct (push_at_end p x t1) as (Hf & Hk & Hh & Ha);
      [done|by rewrite Hs1|by rewrite Hh1|].
    split_and!; [by eapply frame_trans|done|by rewrite Hh, Hh1|]. by rewrite Ha. }
  case_decide as Hc; [|destruct m].
  - rewrite decide_False by auto. destruct (Hpush t) as (? & ? & ? & ?); try done.
    eexists _, _. split; [done|]. split_and!; try done. by left.
  - rewrite decide_False by auto.
    edestruct Hpush as (? & ? & ? & ?); [| | | | |eexists _, _; split; [reflexivity|split_and!; [eassumption..|by left]]]; try done.
  - rewrite decide_True by done. eexists _, _. split; [done|]. split_and!; try done. by right.
Qed.

(** The state after the last element has been cut off, before sifting. *)
Lemma cut_last_spec t p last :
  heap t = take last (heap t) ++ [p] -> back_ok t -> (last < heap_size t)%nat ->
  let t' := set_heap (take last (heap t)) (set_heap_index p (-1) t) in
  frame t t' /\ back_ok t' /\ (heap_size t' = last) /\
  (forall k, (k < last)%nat -> val t' k = val t k).
Proof.
  intros Hh Hb Hl t'. assert (heap_size t' = last) as Hs.
  { unfold heap_size, t'. cbn. rewrite length_take. unfold heap_size in Hl. lia. }
  assert (items t' = items t) as Hit.
  { unfold t'. transitivity (items (set_heap_index p (-1) t)); [done|apply set_heap_index_items]. }
  split_and!; [by split| |done|].
  - intros i q Hq. cbn in Hq. pose proof Hq as Hq'. apply lookup_take_Some in Hq as [Hq Hi].
    assert (heap t !! last = Some p) as Hlast.
    { rewrite Hh, lookup_app_r; rewrite length_take; unfold heap_size in Hl; [|lia].
      by replace (last - _)%nat with 0%nat by lia. }
    assert (p <> q) by (intros ->; pose proof (back_ok_inj t i last q Hb Hq Hlast); lia).
    destruct (Hb i q Hq) as (x & Hx & Hxi). exists x. split; [|done].
    unfold t'. cbn. by rewrite lookup_alter_ne.
  - intros k Hk. unfold val. rewrite !due_items, Hit. unfold heap_at, t'. cbn.
    by rewrite lookup_take_lt.
Qed.

Lemma take_last_eq {A} (l : list A) n p : l !! n = Some p -> length l = S n -> l = take n l ++ [p].
Proof.
  intros Hp Hl. rewrite <- (take_drop_middle l n p Hp) at 1. f_equal.
  rewrite drop_ge by lia. done.
Qed.

(** [heap_remove_at] takes out the element at [idx] and restores the order. *)
Lemma heap_remove_at_spec idx t :
  heap_ok t -> (idx < heap_size t)%nat ->
  let t' := heap_remove_at idx t in
  frame t t' /\ heap_ok t' /\ heap t ≡ₚ heap_at t idx :: heap t' /\ heap_alloc t' = heap_alloc t.
Proof.
  intros [Hb Ho] Hi. unfold heap_remove_at. rewrite decide_False by lia. cbv zeta.
  set (last := (heap_size t - 1)%nat).
  set (t1 := if decide (idx <> last) then heap_swap idx last t else t).
  assert (kept t t1 /\ heap_at t1 last = heap_at t idx /\
          forall k, (k < last)%nat -> k <> idx -> val t1 k = val t k) as ([Hr Hb1] & Hlast & Hv1).
  { unfold t1. case_decide as Hd.
    - split_and!; [apply heap_swap_kept; (done || lia)| |].
      + unfold heap_at. rewrite heap_swap_lookup by lia. unfold swap_at.
        rewrite decide_False by lia. by rewrite decide_True.
      + intros k Hk Hki. rewrite heap_swap_val by lia. unfold swap_at.
        by rewrite !decide_False by lia.
    - split_and!; [done| |done]. f_equal. lia. }
  clearbody t1. pose proof (reorder_length _ _ Hr) as Hl1.
  assert (heap t1 = take last (heap t1) ++ [heap_at t1 last]) as Hcut.
  { apply take_last_eq; [apply heap_at_lookup; lia|]. fold (heap_size t1). lia. }
  destruct (cut_last_spec t1 (heap_at t1 last) last Hcut Hb1 ltac:(lia)) as (Hf2 & Hb2 & Hs2 & Hv2).
  set (t2 := set_heap (take last (heap t1)) _) in *.
  change (set_heap (take last (heap (set_heap_index (heap_at t1 last) (-1) t1)))
            (set_heap_index (heap_at t1 last) (-1) t1)) with t2.
  assert (frame t t2) as Hf by (eapply frame_trans; [by apply reorder_frame|done]).
  assert (heap t ≡ₚ heap_at t idx :: heap t2) as Hp2.
  { rewrite <- (ro_heap _ _ Hr), Hcut, Hlast. cbn. by rewrite Permutation_app_comm. }
  assert (heap_alloc t2 = heap_alloc t) as Ha2 by apply Hr.
  assert (forall k, (k < last)%nat -> k <> idx -> val t2 k = val t k) as Hv
    by (intros k Hk Hki; rewrite Hv2 by lia; by apply Hv1).
  case_decide as Hd.
  - assert (mid_ok (val t2) (heap_size t2) idx) as Hm.
    { rewrite Hs2 in *. split.
      - intros i Hi' Hne Hpne. pose proof (parent_lt i ltac:(lia)). rewrite !Hv by lia. apply Ho. lia.
      - intros Hi0 c Hc Hpc. pose proof (parent_lt c ltac:(lia)). pose proof (parent_lt idx Hi0).
        rewrite !Hv by lia. pose proof (Ho c ltac:(lia)) as H1. pose proof (Ho idx ltac:(lia)).
        rewrite Hpc in H1. lia. }
    destruct (sift_both idx t2 idx Hd Hb2 Hm Hd ltac:(done)) as [[Hr3 Hb3] Ho3].
    split_and!; [|done| |].
    + eapply frame_trans; [done|by apply reorder_frame].
    + by rewrite (ro_heap _ _ Hr3).
    + by rewrite (ro_alloc _ _ Hr3).
  - split_and!; try done. split; [done|]. eapply heap_ordered_ext; [|]; [intros k Hk; symmetry; apply Hv; lia|].
    intros i Hi'. apply Ho. lia.
Qed.

(** [heap_update] after the expiry time of [p] changed. *)
Lemma heap_update_spec p i t :
  back_ok t -> heap t !! i = Some p -> mid_ok (val t) (heap_size t) i ->
  let t' := heap_update p t in
  frame t t' /\ heap_ok t' /\ heap t' ≡ₚ heap t /\ heap_alloc t' = heap_alloc t.
Proof.
  intros Hb Hp Hm. unfold heap_update, index_in_heap.
  pose proof (lookup_lt_Some _ _ _ Hp) as Hi. fold (heap_size t) in Hi.
  destruct (Hb i p Hp) as (x & Hx & Hxi). rewrite Hx, Hxi, decide_True by lia.
  rewrite Nat2Z.id. cbv zeta. destruct (sift_down_mid i t Hi Hb Hm) as [[Hr Hb'] _].
  assert (p ∈ heap (heap_sift_down i t)) as Hin.
  { rewrite (ro_heap _ _ Hr). by apply list_elem_of_lookup_2 with i. }
  apply list_elem_of_lookup in Hin as (j & Hj).
  destruct (Hb' j p Hj) as (y & -> & ->). rewrite Nat2Z.id.
  pose proof (lookup_lt_Some _ _ _ Hj) as Hjl. fold (heap_size (heap_sift_down i t)) in Hjl.
  pose proof (reorder_length _ _ Hr).
  destruct (sift_both i t j Hi Hb Hm ltac:(lia)) as [[Hr2 Hb2] Ho2].
  - intros E. rewrite E in Hj. by apply (back_ok_inj t j i p).
  - split_and!; [by apply reorder_frame|done|apply Hr2|apply Hr2].
Qed.

(** ** The table as a map *)

(** The name an item goes by. *)
Definition name (x : item) : Z * bytes := (engine x, ekey x).

(** The map the table stands for: expiry time by engine and key. *)
Definition abs (t : table) : gmap (Z * bytes) Z :=
  list_to_map ((fun px => (name px.2, expire_at_ms px.2)) <$> map_to_list (items t)).
#[global] Arguments abs : simpl never.

(** No two items have the same name. *)
Definition distinct (m : gmap nat item) : Prop :=
  forall p q x y, m !! p = Some x -> m !! q = Some y -> name x = name y -> p = q.

(** The buckets hold every item once, in the bucket of its hash. *)
Record buckets_ok (b : gmap Z (list ptr)) (sz : Z) (m : gmap nat item) : Prop := {
  bk_in : forall i l p, b !! i = Some l -> p ∈ l ->
            exists x, m !! p = Some x /\ expire_hash (ekey x) (engine x) sz = i;
  bk_all : forall p x, m !! p = Some x ->
            exists l, b !! expire_hash (ekey x) (engine x) sz = Some l /\ p ∈ l;
  bk_nodup : forall i l, b !! i = Some l -> NoDup l;
}.

Record wf (t : table) : Prop := {
  wf_buckets : exists b, buckets t = Some b /\ buckets_ok b (size t) (items t);
  wf_heap : heap_ok t;
  wf_members : forall p, p ∈ heap t <-> is_Some (items t !! p);
  wf_distinct : distinct (items t);
  wf_count : count t = Z.of_nat (length (heap t));
  wf_fresh : forall p, is_Some (items t !! p) -> (p < next_ptr t)%nat;
  wf_alloc : heap_alloc t = true;
}.

Lemma name_map_nodup m : distinct m ->
  NoDup (((fun px : nat * item => (name px.2, expire_at_ms px.2)) <$> map_to_list m).*1).
Proof.
  intros Hd. rewrite <- list_fmap_compose. apply NoDup_fmap_2_strong; [|apply NoDup_map_to_list].
  intros [p x] [q y] Hp Hq E. apply elem_of_map_to_list in Hp, Hq.
  assert (p = q) as -> by (by eapply Hd). by simplify_eq.
Qed.

Lemma expire_abs_lookup t nm at_ : distinct (items t) ->
  abs t !! nm = Some at_ <->
  exists p x, items t !! p = Some x /\ name x = nm /\ expire_at_ms x = at_.
Proof.
  intros Hd. unfold abs. rewrite <- elem_of_list_to_map by (by apply name_map_nodup).
  rewrite list_elem_of_fmap. split.
  - intros ([p x] & E & Hp). apply elem_of_map_to_list in Hp. simplify_eq. eauto.
  - intros (p & x & Hp & <- & <-). exists (p, x). by rewrite elem_of_map_to_list.
Qed.

Lemma expire_abs_lookup_None t nm : distinct (items t) ->
  abs t !! nm = None <-> forall p x, items t !! p = Some x -> name x <> nm.
Proof.
  intros Hd. rewrite eq_None_not_Some. split.
  - intros Hn p x Hp Hnm. apply Hn. exists (expire_at_ms x). apply expire_abs_lookup; eauto.
  - intros Hn [at_ Ha]. apply expire_abs_lookup in Ha as (p & x & Hp & Hnm & _); [|done]. by apply (Hn p x).
Qed.

Lemma abs_frame t t' : frame t t' -> abs t' = abs t.
Proof. intros []. unfold abs. by rewrite fr_items0. Qed.

(** Two tables that agree by name agree as maps. *)
Lemma abs_insert_new t t' p x : distinct (items t') ->
  items t !! p = None -> items t' = <[p := x]> (items t) -> distinct (items t) ->
  abs t' = <[name x := expire_at_ms x]> (abs t).
Proof.
  intros Hd' Hp E Hd. apply map_eq. intros nm. destruct (decide (name x = nm)) as [<-|Hne].
  - rewrite lookup_insert_eq. apply expire_abs_lookup; [done|]. exists p, x.
    by rewrite E, lookup_insert_eq.
  - rewrite lookup_insert_ne by done. apply option_eq. intros a. rewrite !expire_abs_lookup by done.
    rewrite E. split; intros (q & y & Hq & Hn & Ha); exists q, y.
    + destruct (decide (q = p)) as [->|]; [rewrite lookup_insert_eq in Hq; by simplify_eq|].
      by rewrite lookup_insert_ne in Hq.
    + rewrite lookup_insert_ne by (intros ->; congruence). done.
Qed.

Lemma abs_update t t' p x a : distinct (items t) ->
  items t !! p = Some x ->
  items t' = <[p := mk_item (ekey x) (engine x) a 0]> (items t) ->
  distinct (items t') /\ abs t' = <[name x := a]> (abs t).
Proof.
  intros Hd Hp E.
  assert (forall q y, items t' !! q = Some y -> exists y', items t !! q = Some y' /\ name y' = name y)
    as Hname.
  { intros q y. rewrite E. intros [[<- <-]|[Hne Hq]]%lookup_insert_Some; eauto. }
  assert (distinct (items t')) as Hd'.
  { intros q1 q2 y1 y2 H1 H2 Hn. destruct (Hname _ _ H1) as (z1 & ? & ?).
    destruct (Hname _ _ H2) as (z2 & ? & ?). eapply Hd; [done..|]. congruence. }
  split; [done|]. apply map_eq. intros nm. destruct (decide (name x = nm)) as [<-|Hne].
  - rewrite lookup_insert_eq. apply expire_abs_lookup; [done|]. eexists p, _.
    by rewrite E, lookup_insert_eq.
  - rewrite lookup_insert_ne by done. apply option_eq. intros b. rewrite !expire_abs_lookup by done.
    rewrite E. split; intros (q & y & Hq & Hn & Ha); exists q, y.
    + destruct (decide (q = p)) as [->|]; [rewrite lookup_insert_eq in Hq; by simplify_eq|].
      by rewrite lookup_insert_ne in Hq.
    + rewrite lookup_insert_ne by (intros ->; congruence). done.
Qed.

Lemma abs_delete t t' p x : distinct (items t) ->
  items t !! p = Some x -> items t' = delete p (items t) ->
  distinct (items t') /\ abs t' = delete (name x) (abs t).
Proof.
  intros Hd Hp E.
  assert (distinct (items t')) as Hd'.
  { intros q1 q2 y1 y2. rewrite E. intros [_ H1]%lookup_delete_Some [_ H2]%lookup_delete_Some.
    by apply Hd. }
  split; [done|]. apply map_eq. intros nm. destruct (decide (name x = nm)) as [<-|Hne].
  - rewrite lookup_delete_eq. apply expire_abs_lookup_None; [done|]. intros q y. rewrite E.
    intros [Hqp Hq]%lookup_delete_Some Hn. apply Hqp. by eapply Hd.
  - rewrite lookup_delete_ne by done. apply option_eq. intros b. rewrite !expire_abs_lookup by done.
    rewrite E. split; intros (q & y & Hq & Hn & Ha); exists q, y.
    + by apply lookup_delete_Some in Hq as [_ Hq].
    + rewrite lookup_delete_ne by (intros ->; congruence). done.
Qed.

(** ** Finding an item *)

Lemma find_first_Some f l p : find_first f l = Some p -> p ∈ l /\ f p = true.
Proof.
  induction l as [|q l IH]; cbn; [done|]. destruct (f q) eqn:E.
  - intros [= <-]. split; [left|done].
  - intros H. apply IH in H as [??]. split; [by right|done].
Qed.

Lemma find_first_None f l : find_first f l = None -> forall p, p ∈ l -> f p = false.
Proof.
  induction l as [|q l IH]; cbn; [intros _ p Hp; by apply not_elem_of_nil in Hp|].
  destruct (f q) eqn:E; [done|]. intros H p [->|Hp]%elem_of_cons; [done|]. by apply IH.
Qed.

Lemma items_lookup t p : items t !! p = set_index 0 <$> store t !! p.
Proof. unfold items. by rewrite lookup_fmap. Qed.

Lemma is_item_spec t eng k p : is_item t eng k p = true <->
  exists x, items t !! p = Some x /\ name x = (eng, k).
Proof.
  unfold is_item. rewrite items_lookup. destruct (store t !! p) as [x|].
  - rewrite bool_decide_eq_true, strcmp_eq. cbn. unfold name. split.
    + intros [<- <-]. by exists (set_index 0 x).
    + intros (y & [= <-] & [= <- <-]). done.
  - split; [done|]. by intros (x & ? & _).
Qed.

Lemma bucket_eq t b i : buckets t = Some b -> bucket t i = default [] (b !! i).
Proof. unfold bucket. by intros ->. Qed.

(** [expire_find] finds the item of a name, if there is one. *)
Lemma expire_find_spec eng k t : wf t ->
  match expire_find eng k t with
  | Some p => exists x, items t !! p = Some x /\ name x = (eng, k)
  | None => abs t !! (eng, k) = None
  end.
Proof.
  intros Hwf. destruct (wf_buckets _ Hwf) as (b & Hb & Hok). unfold expire_find.
  destruct (find_first _ _) as [p|] eqn:E.
  - apply find_first_Some in E as [_ Hp]. by apply is_item_spec.
  - apply expire_abs_lookup_None; [apply Hwf|]. intros p x Hp Hn.
    destruct (bk_all _ _ _ Hok p x Hp) as (l & Hl & Hpl).
    assert (is_item t eng k p = false) as Hf.
    { eapply find_first_None; [done|]. rewrite (bucket_eq t b) by done.
      unfold name in Hn. simplify_eq. by rewrite Hl. }
    assert (is_item t eng k p = true) as Ht by (apply is_item_spec; eauto). congruence.
Qed.

(** ** Removing an item *)

Lemma unlink_elem p q l : NoDup l -> q ∈ unlink p l <-> q ∈ l /\ q <> p.
Proof.
  induction 1 as [|r l Hr Hl IH]; cbn.
  - split; [intros H; by apply not_elem_of_nil in H|]. intros [H _]. by apply not_elem_of_nil in H.
  - case_decide as Hd; rewrite ?elem_of_cons.
    + subst r. split; [intros Hq; split; [by right|by intros ->]|]. intros [[->|Hq] Hn]; done.
    + rewrite IH. split; [intros [->|[]]; auto|]. intros [[->|?] ?]; auto.
Qed.

Lemma unlink_nodup p l : NoDup l -> NoDup (unlink p l).
Proof.
  induction 1 as [|r l Hr Hl IH]; cbn; [constructor|]. case_decide; [done|].
  apply NoDup_cons. split; [|done]. rewrite unlink_elem by done. by intros [? _].
Qed.

(** Taking an item's pointer out of its bucket and the item out of the store. *)
Lemma buckets_unlink b sz m p x :
  buckets_ok b sz m -> m !! p = Some x ->
  let idx := expire_hash (ekey x) (engine x) sz in
  buckets_ok (<[idx := unlink p (default [] (b !! idx))]> b) sz (delete p m).
Proof.
  intros [Hin Hall Hnd] Hp idx. destruct (Hall p x Hp) as (l & Hl & Hpl).
  unfold idx. rewrite Hl. cbn. pose proof (Hnd _ _ Hl) as Hndl. split.
  - intros i l' q [[<- <-]|[Hne Hi]]%lookup_insert_Some Hq.
    + apply unlink_elem in Hq as [Hq Hqp]; [|done].
      destruct (Hin _ _ q Hl Hq) as (y & Hy & Hyi). exists y. by rewrite lookup_delete_ne.
    + destruct (Hin i l' q Hi Hq) as (y & Hy & Hyi). exists y.
      rewrite lookup_delete_ne; [done|]. intros ->. congruence.
  - intros q y [Hqp Hq]%lookup_delete_Some. destruct (Hall q y Hq) as (l' & Hl' & Hql').
    destruct (decide (expire_hash (ekey y) (engine y) sz = expire_hash (ekey x) (engine x) sz)) as [E|E].
    + rewrite E, lookup_insert_eq. eexists. split; [done|]. apply unlink_elem; [done|].
      rewrite E in Hl'. simplify_eq. done.
    + rewrite lookup_insert_ne by done. by exists l'.
  - intros i l' [[<- <-]|[Hne Hi]]%lookup_insert_Some; [by apply unlink_nodup|by eapply Hnd].
Qed.

Lemma store_delete_heap_ok p t : heap_ok t -> p ∉ heap t ->
  heap_ok (set_store (delete p (store t)) t).
Proof.
  intros [Hb Ho] Hp. split.
  - intros i q Hq. destruct (Hb i q Hq) as (x & Hx & Hxi). exists x. split; [|done]. cbn.
    rewrite lookup_delete_ne; [done|]. intros ->. by apply Hp, list_elem_of_lookup_2 with i.
  - eapply heap_ordered_ext; [|done]. intros k Hk. unfold val, due, heap_at. cbn.
    destruct (heap t !! k) as [q|] eqn:E; [|apply lookup_ge_None in E; unfold heap_size in Hk; cbn in Hk; lia].
    cbn. rewrite lookup_delete_ne; [done|]. intros ->. by apply Hp, list_elem_of_lookup_2 with k.
Qed.

Lemma items_delete p t : items (set_store (delete p (store t)) t) = delete p (items t).
Proof. unfold items. cbn. by rewrite fmap_delete. Qed.

(** [expire_free_node] removes one item from the heap, its bucket and the
    store, and keeps the table well formed. *)
Lemma expire_free_node_spec p x t : wf t -> items t !! p = Some x ->
  let t' := expire_free_node p t in
  wf t' /\ items t' = delete p (items t) /\ abs t' = delete (name x) (abs t) /\
  heap t ≡ₚ p :: heap t'.
Proof.
  intros [(b & Hb & Hbk) Hh Hm Hd Hc Hfr Hal] Hp. unfold expire_free_node.
  assert (p ∈ heap t) as Hin by (apply Hm; eauto).
  apply list_elem_of_lookup in Hin as (i & Hi). pose proof (lookup_lt_Some _ _ _ Hi) as Hil.
  destruct (proj1 Hh i p Hi) as (y & Hy & Hyi).
  assert (index_in_heap p t = Some i) as ->.
  { unfold index_in_heap, heap_size. rewrite Hy, Hyi, decide_True by lia. by rewrite Nat2Z.id. }
  destruct (heap_remove_at_spec i t Hh Hil) as ([Hfi Hfn Hfb Hfs Hfc] & Hok1 & Hp1 & Ha1).
  set (t1 := heap_remove_at i t) in *. cbv zeta.
  assert (heap_at t i = p) as Hat by (unfold heap_at; by rewrite Hi). rewrite Hat in Hp1.
  assert (NoDup (heap t)) as Hnd.
  { apply NoDup_alt. intros j1 j2 q H1 H2. by eapply back_ok_inj; [apply Hh|..]. }
  rewrite Hp1 in Hnd. apply NoDup_cons in Hnd as [Hp1n Hnd1].
  assert (exists x1, store t1 !! p = Some x1 /\ set_index 0 x1 = x) as (x1 & Hx1 & Hx1e).
  { rewrite <- Hfi, items_lookup in Hp. destruct (store t1 !! p) as [x1|]; [|done].
    exists x1. by simplify_eq/=. }
  assert (ekey x1 = ekey x /\ engine x1 = engine x) as [Ek Ee] by (by subst x).
  unfold expire_unlink_bucket. rewrite Hx1, Ek, Ee.
  set (idx := expire_hash (ekey x) (engine x) (size t1)).
  set (t2 := set_buckets _ t1). set (t3 := set_store (delete p (store t2)) t2).
  assert (items t3 = delete p (items t)) as Hit.
  { transitivity (delete p (items t1)); [apply (items_delete p t2)|]. by rewrite Hfi. }
  assert (count t3 = count t) as Hc3 by done.
  assert (wf (set_count (count t - 1) t3) /\ abs (set_count (count t - 1) t3) = delete (name x) (abs t)
          /\ heap t ≡ₚ p :: heap (set_count (count t - 1) t3)) as (Hw & Hab & Hpe).
  { destruct (abs_delete t (set_count (count t - 1) t3) p x Hd Hp Hit) as [Hd' Hab].
    split_and!; [|done|done]. split.
    - exists (<[idx := unlink p (default [] (b !! idx))]> b). split.
      + cbn. rewrite Hfb, Hb. cbn. f_equal. f_equal. by rewrite (bucket_eq t1 b) by congruence.
      + change (items (set_count (count t - 1) t3)) with (items t3).
        change (size (set_count (count t - 1) t3)) with (size t1).
        unfold idx. rewrite Hit, Hfs. by apply buckets_unlink.
    - by apply (store_delete_heap_ok p t1).
    - intros q. change (heap (set_count (count t - 1) t3)) with (heap t1).
      change (items (set_count (count t - 1) t3)) with (items t3). rewrite Hit.
      destruct (decide (q = p)) as [->|Hqp].
      + rewrite lookup_delete_eq. split; [done|]. by intros [? ?].
      + rewrite lookup_delete_ne by done. rewrite <- Hm, Hp1, elem_of_cons. split; [by right|]. by intros [?|?].
    - done.
    - cbn. rewrite Hc, Hp1. cbn. lia.
    - intros q Hq. change (items (set_count (count t - 1) t3)) with (items t3) in Hq.
      rewrite Hit in Hq. cbn. rewrite Hfn. apply Hfr. destruct Hq as [z Hz].
      apply lookup_delete_Some in Hz as [_ Hz]. eauto.
    - cbn. by rewrite Ha1. }
  assert (count t > 0) as Hcp by (rewrite Hc, Hp1; cbn; lia).
  change (count t1) with (count t3). rewrite Hc3. rewrite decide_True by done. done.
Qed.

(** ** Setting an expiry time *)

(** A new time for an item that is in the heap. *)
Lemma change_time_spec p x a t : wf t -> items t !! p = Some x ->
  let t1 := set_store (alter (fun x => mk_item (ekey x) (engine x) a (heap_index x)) p (store t)) t in
  let t' := heap_update p t1 in
  wf t' /\ abs t' = <[name x := a]> (abs t).
Proof.
  intros [(b & Hb & Hbk) [Hbo Ho] Hm Hd Hc Hfr Hal] Hp t1.
  assert (items t1 = <[p := mk_item (ekey x) (engine x) a 0]> (items t)) as Hit.
  { apply map_eq. intros q. rewrite items_lookup. cbn. rewrite items_lookup in Hp.
    destruct (decide (p = q)) as [<-|Hne].
    - rewrite lookup_alter_eq, lookup_insert_eq. destruct (store t !! p) as [y|]; [|done].
      by simplify_eq/=.
    - rewrite lookup_alter_ne, lookup_insert_ne by done. by rewrite items_lookup. }
  assert (p ∈ heap t) as Hin by (apply Hm; eauto).
  apply list_elem_of_lookup in Hin as (i & Hi).
  assert (forall k, k <> i -> (k < heap_size t)%nat -> val t1 k = val t k) as Hv.
  { intros k Hk Hkn. unfold val. rewrite !due_items, Hit.
    change (heap_at t1 k) with (heap_at t k). rewrite lookup_insert_ne; [done|]. intros E.
    apply Hk. eapply back_ok_inj; [apply Hbo| |apply Hi]. rewrite E. by apply heap_at_lookup. }
  assert (back_ok t1) as Hb1.
  { intros k q Hq. destruct (Hbo k q Hq) as (y & Hy & Hyi). cbn.
    destruct (decide (p = q)) as [<-|Hne].
    - rewrite lookup_alter_eq, Hy. eexists. split; [done|]. done.
    - rewrite lookup_alter_ne by done. eauto. }
  destruct (heap_update_spec p i t1 Hb1 Hi) as (Hf & Hok & Hpe & Ha).
  { change (heap_size t1) with (heap_size t).
    pose proof (lookup_lt_Some _ _ _ Hi) as Hil. fold (heap_size t) in Hil. split.
    - intros j Hj Hne Hpne. pose proof (parent_lt j ltac:(lia)). rewrite !Hv by lia. by apply Ho.
    - intros Hi0 c Hcc Hpc. pose proof (parent_lt c ltac:(lia)). pose proof (parent_lt i Hi0).
      rewrite !Hv by lia. pose proof (Ho c Hcc) as H1. pose proof (Ho i ltac:(lia)).
      rewrite Hpc in H1. lia. }
  destruct (abs_update t t1 p x a Hd Hp Hit) as [Hd1 Hab1].
  pose proof Hf as [Hfi Hfn Hfb Hfs Hfc].
  split; [|by rewrite (abs_frame _ _ Hf)]. split.
  - exists b. rewrite Hfb, Hfs, Hfi. split; [done|]. rewrite Hit. destruct Hbk as [K1 K2 K3].
    split; [| |done].
    + intros j l q Hj Hq. destruct (K1 j l q Hj Hq) as (y & Hy & Hyj).
      destruct (decide (q = p)) as [->|Hqp].
      * rewrite lookup_insert_eq. eexists. split; [done|]. simplify_eq. done.
      * rewrite lookup_insert_ne by done. eauto.
    + intros q y [[<- <-]|[Hne Hq]]%lookup_insert_Some; [by apply (K2 p x)|by apply K2].
  - done.
  - intros q. rewrite Hpe, Hfi, Hit. change (heap t1) with (heap t). rewrite Hm.
    destruct (decide (q = p)) as [->|]; [rewrite lookup_insert_eq, Hp; done|by rewrite lookup_insert_ne].
  - by rewrite Hfi.
  - by rewrite Hfc, Hpe.
  - rewrite Hfi, Hfn, Hit. intros q Hq. apply Hfr.
    destruct (decide (q = p)) as [->|]; [by eauto|by rewrite lookup_insert_ne in Hq].
  - by rewrite Ha.
Qed.

(** The bucket side of linking a new item. *)
Lemma buckets_link b sz m p x :
  buckets_ok b sz m -> m !! p = None ->
  let idx := expire_hash (ekey x) (engine x) sz in
  buckets_ok (<[idx := p :: default [] (b !! idx)]> b) sz (<[p := x]> m).
Proof.
  intros [Hin Hall Hnd] Hp idx.
  assert (forall q, q ∈ default [] (b !! idx) ->
    exists y, m !! q = Some y /\ expire_hash (ekey y) (engine y) sz = idx) as Hold.
  { intros q Hq. destruct (b !! idx) as [l|] eqn:E; [by eapply Hin|by apply not_elem_of_nil in Hq]. }
  split.
  - intros i l q [[<- <-]|[Hne Hi]]%lookup_insert_Some Hq.
    + apply elem_of_cons in Hq as [->|Hq]; [exists x; by rewrite lookup_insert_eq|].
      destruct (Hold q Hq) as (y & Hy & ?). exists y. rewrite lookup_insert_ne by congruence. done.
    + destruct (Hin i l q Hi Hq) as (y & Hy & ?). exists y.
      rewrite lookup_insert_ne by congruence. done.
  - intros q y [[<- <-]|[Hne Hq]]%lookup_insert_Some.
    + fold idx. rewrite lookup_insert_eq. eexists. split; [done|]. left.
    + destruct (Hall q y Hq) as (l & Hl & Hql).
      destruct (decide (expire_hash (ekey y) (engine y) sz = idx)) as [E|E].
      * rewrite E, lookup_insert_eq. eexists. split; [done|]. right. rewrite <- E, Hl. done.
      * rewrite lookup_insert_ne by done. eauto.
  - intros i l [[<- <-]|[Hne Hi]]%lookup_insert_Some; [|by eapply Hnd].
    apply NoDup_cons. split; [intros (y & Hy & _)%Hold; congruence|].
    destruct (b !! idx) as [l|] eqn:E; [by eapply Hnd|constructor].
Qed.

(** A bucket rewritten with what it held. *)
Lemma buckets_restore b sz m idx :
  buckets_ok b sz m -> buckets_ok (<[idx := default [] (b !! idx)]> b) sz m.
Proof.
  intros [Hin Hall Hnd]. destruct (b !! idx) as [l|] eqn:E; [by rewrite insert_id|]. split.
  - intros i l q [[<- <-]|[Hne Hi]]%lookup_insert_Some Hq; [by apply not_elem_of_nil in Hq|by eapply Hin].
  - intros q y Hq. destruct (Hall q y Hq) as (l & Hl & Hql). exists l.
    rewrite lookup_insert_ne by (intros ->; congruence). done.
  - intros i l [[<- <-]|[Hne Hi]]%lookup_insert_Some; [constructor|by eapply Hnd].
Qed.

(** Linking a new item: the part of [kvs_expire_set] before [heap_push]. *)
Lemma link_spec k eng a t b : wf t -> buckets t = Some b ->
  abs t !! (eng, k) = None ->
  let p := next_ptr t in
  let x := mk_item k eng a (-1) in
  let idx := expire_hash k eng (size t) in
  let t1 := mk_table (<[p := x]> (store t)) (S p) (<[idx := p :: bucket t idx]> <$> buckets t)
              (size t) (count t) (heap t) (heap_alloc t) (heap_cap t) in
  items t1 = <[p := set_index 0 x]> (items t) /\ items t !! p = None /\ p ∉ heap t /\
  heap_ok t1 /\ distinct (items t1) /\
  buckets_ok (<[idx := p :: default [] (b !! idx)]> b) (size t) (items t1).
Proof.
  intros [(b' & Hb' & Hbk) Hh Hm Hd Hc Hfr Hal] Hb Hn p x idx t1.
  assert (b' = b) as -> by congruence.
  assert (items t1 = <[p := set_index 0 x]> (items t)) as Hit
    by (unfold items; cbn; by rewrite fmap_insert).
  assert (items t !! p = None) as Hp.
  { apply eq_None_not_Some. intros Hs. apply Hfr in Hs. unfold p in Hs. lia. }
  assert (p ∉ heap t) as Hph by (intros Hin; apply Hm in Hin; rewrite Hp in Hin; by destruct Hin).
  split_and!; try done.
  - destruct Hh as [Hbo Ho]. split.
    + intros i q Hq. destruct (Hbo i q Hq) as (y & Hy & Hyi). exists y. split; [|done]. cbn.
      rewrite lookup_insert_ne; [done|]. intros <-. by apply Hph, list_elem_of_lookup_2 with i.
    + eapply heap_ordered_ext; [|exact Ho]. intros i Hi. unfold val. rewrite !due_items, Hit.
      change (heap_at t1 i) with (heap_at t i). rewrite lookup_insert_ne; [done|]. intros E.
      apply Hph. rewrite E. apply list_elem_of_lookup_2 with i. by apply heap_at_lookup.
  - rewrite Hit. rewrite expire_abs_lookup_None in Hn by done.
    intros q1 q2 y1 y2 [[<- <-]|[? H1]]%lookup_insert_Some [[<- <-]|[? H2]]%lookup_insert_Some E.
    + done.
    + by destruct (Hn q2 y2 H2).
    + by destruct (Hn q1 y1 H1).
    + by eapply Hd.
  - rewrite Hit. by apply (buckets_link b (size t) (items t) p (set_index 0 x)).
Qed.

(** The linked item pushed onto the heap: the table has one more entry. *)
Lemma link_done_wf k eng a t t2 b : wf t -> buckets t = Some b -> abs t !! (eng, k) = None ->
  let p := next_ptr t in
  let idx := expire_hash k eng (size t) in
  let t1 := mk_table (<[p := mk_item k eng a (-1)]> (store t)) (S p)
              (<[idx := p :: bucket t idx]> <$> buckets t)
              (size t) (count t) (heap t) (heap_alloc t) (heap_cap t) in
  frame t1 t2 -> heap_ok t2 -> heap t2 ≡ₚ p :: heap t -> heap_alloc t2 = true ->
  let t' := set_count (count t2 + 1) t2 in
  wf t' /\ abs t' = <[(eng, k) := a]> (abs t).
Proof.
  intros Hwf Hb Hn p idx t1 [Hfi Hfn Hfb Hfs Hfc] Hok2 Hpe Hal2 t'.
  destruct (link_spec k eng a t b Hwf Hb Hn) as (Hit & Hp & _ & _ & Hd1 & Hbk1).
  fold p idx t1 in Hit, Hp, Hd1, Hbk1. destruct Hwf as [_ _ Hm Hd Hct Hfr _].
  assert (items t' = items t1) as Hi' by (change (items t') with (items t2); done).
  split.
  - split; rewrite ?Hi'; try done.
    + exists (<[idx := p :: default [] (b !! idx)]> b). split.
      * cbn. rewrite Hfb. cbn. rewrite Hb. cbn. by rewrite (bucket_eq t b).
      * change (size t') with (size t2). by rewrite Hfs.
    + intros q. change (heap t') with (heap t2). rewrite Hpe, Hit, elem_of_cons.
      destruct (decide (q = p)) as [->|].
      * rewrite lookup_insert_eq. split; [done|]. by left.
      * rewrite lookup_insert_ne by done. rewrite Hm. split; [by intros [?|?]|by right].
    + cbn. rewrite Hfc, Hpe. cbn. rewrite Hct. lia.
    + intros q Hq. rewrite Hit in Hq. cbn. rewrite Hfn. cbn.
      destruct (decide (q = p)) as [->|]; [lia|]. rewrite lookup_insert_ne in Hq by done.
      apply Hfr in Hq. fold p in Hq. lia.
  - rewrite (abs_insert_new t t' p (set_index 0 (mk_item k eng a (-1)))); try done; by rewrite Hi'.
Qed.

(** The link undone when the heap cannot grow: the table is as before. *)
Lemma link_undo_wf k eng a t b : wf t -> buckets t = Some b -> abs t !! (eng, k) = None ->
  let p := next_ptr t in
  let idx := expire_hash k eng (size t) in
  let t1 := mk_table (<[p := mk_item k eng a (-1)]> (store t)) (S p)
              (<[idx := p :: bucket t idx]> <$> buckets t)
              (size t) (count t) (heap t) (heap_alloc t) (heap_cap t) in
  let t' := set_store (delete p (store t1)) (set_buckets (<[idx := bucket t idx]> <$> buckets t1) t1) in
  wf t' /\ abs t' = abs t.
Proof.
  intros Hwf Hb Hn p idx t1 t'. destruct (link_spec k eng a t b Hwf Hb Hn) as (_ & Hp & _).
  fold p in Hp. destruct Hwf as [(b' & Hb' & Hbk) [Hbo Ho] Hm Hd Hct Hfr Hal].
  assert (b' = b) as -> by congruence.
  assert (store t' = store t) as Hst.
  { unfold t', t1. cbn. rewrite delete_insert_id; [done|].
    rewrite items_lookup in Hp. by destruct (store t !! p). }
  assert (items t' = items t) as Hit by (unfold items; by rewrite Hst).
  split; [|unfold abs; by rewrite Hit]. split; rewrite ?Hit; try done.
  - exists (<[idx := default [] (b !! idx)]> b). split; [|by apply buckets_restore].
    cbn. rewrite Hb. cbn. by rewrite insert_insert_eq, (bucket_eq t b) by done.
  - split.
    + intros i q Hq. rewrite Hst. by apply Hbo.
    + eapply heap_ordered_ext; [|exact Ho]. intros i _. unfold val, due. by rewrite Hst.
  - intros q Hq. cbn. apply Hfr in Hq. unfold p. lia.
Qed.

(** [kvs_expire_set]: the time is recorded, or the table is as before. *)
Lemma expire_set_spec mn mk mh now eng k ttl t : wf t ->
  exists rc t', kvs_expire_set mn mk mh now eng k ttl t = (rc, t') /\ wf t' /\
    ((rc = 0 /\ 0 < ttl /\ abs t' = <[(eng, k) := i64 (now + ttl)]> (abs t)) \/
     (rc = -1 /\ abs t' = abs t /\ (ttl <= 0 \/ mn && mk && mh = false))).
Proof.
  intros Hwf. destruct (wf_buckets _ Hwf) as (b & Hb & Hbk). unfold kvs_expire_set.
  destruct (decide _) as [[H0|H0]|H0]; [congruence| |].
  { eexists _, _. split; [done|]. split; [done|]. right. auto. }
  assert (0 < ttl) as Httl by (destruct (decide (ttl <= 0)); [destruct H0; auto|lia]).
  pose proof (expire_find_spec eng k t Hwf) as Hfind.
  destruct (expire_find eng k t) as [p|].
  - destruct Hfind as (x & Hx & Hn).
    destruct (change_time_spec p x (i64 (now + ttl)) t Hwf Hx) as [Hw Ha].
    eexists _, _. split; [done|]. split; [done|]. left. by rewrite Ha, Hn.
  - destruct (mn && mk) eqn:Em; [|eexists _, _; split_and!; [done..|]; right; auto].
    destruct (link_spec k eng (i64 (now + ttl)) t b Hwf Hb Hfind) as (_ & _ & Hph & Hok1 & _).
    cbv zeta. set (t1 := mk_table _ _ _ _ _ _ _ _) in *.
    destruct (heap_push_spec mh (next_ptr t) (mk_item k eng (i64 (now + ttl)) (-1)) t1 Hok1
                (lookup_insert_eq _ _ _) Hph) as (rc & t2 & -> & Hf & Hok2 & Hc).
    destruct Hc as [(-> & Hpe & Hal2)|(-> & -> & ->)].
    + rewrite decide_False by auto. eexists _, _. split; [done|].
      edestruct (link_done_wf k eng (i64 (now + ttl)) t t2 b Hwf Hb Hfind) as [Hw Ha]; try done.
      * apply Hal2, (wf_alloc _ Hwf).
      * split; [done|]. by left.
    + rewrite decide_True by done. eexists _, _. split; [done|].
      destruct (link_undo_wf k eng (i64 (now + ttl)) t b Hwf Hb Hfind) as [Hw Ha].
      split; [done|]. right. split_and!; [done|done|]. right. apply andb_false_r.
Qed.

Lemma expire_del_spec eng k t : wf t ->
  exists rc t', kvs_expire_del eng k t = (rc, t') /\ wf t' /\
    ((rc = 0 /\ is_Some (abs t !! (eng, k)) /\ abs t' = delete (eng, k) (abs t)) \/
     (rc = 1 /\ abs t !! (eng, k) = None /\ t' = t)).
Proof.
  intros Hwf. destruct (wf_buckets _ Hwf) as (b & Hb & _). unfold kvs_expire_del.
  rewrite decide_False by congruence. pose proof (expire_find_spec eng k t Hwf) as Hfind.
  destruct (expire_find eng k t) as [p|].
  - destruct Hfind as (x & Hx & Hn).
    destruct (expire_free_node_spec p x t Hwf Hx) as (Hw & _ & Ha & _).
    eexists _, _. split; [done|]. split; [done|]. left. rewrite Ha, Hn. split_and!; try done.
    exists (expire_at_ms x). apply expire_abs_lookup; [apply Hwf|]. eauto.
  - eexists _, _. split; [done|]. split; [done|]. by right.
Qed.

(** ** The expiry cycle *)

(** The item at the root of the heap is an earliest one. *)
Lemma root_spec t : wf t -> heap_size t <> 0%nat ->
  exists x, items t !! heap_at t 0 = Some x /\ due t (heap_at t 0) = expire_at_ms x /\
    forall nm a, abs t !! nm = Some a -> expire_at_ms x <= a.
Proof.
  intros Hwf Hs. destruct (wf_heap _ Hwf) as [_ Ho].
  pose proof (heap_at_lookup t 0 ltac:(lia)) as H0.
  assert (is_Some (items t !! heap_at t 0)) as [x Hx].
  { apply (wf_members _ Hwf). by apply list_elem_of_lookup_2 with 0%nat. }
  assert (due t (heap_at t 0) = expire_at_ms x) as Hd by (rewrite due_items, Hx; done).
  exists x. split_and!; [done|done|]. intros nm a Ha.
  apply expire_abs_lookup in Ha as (q & y & Hq & _ & <-); [|apply Hwf].
  assert (q ∈ heap t) as Hin by (apply (wf_members _ Hwf); eauto).
  apply list_elem_of_lookup in Hin as (i & Hi). pose proof (lookup_lt_Some _ _ _ Hi) as Hil.
  pose proof (heap_root (val t) (heap_size t) i Ho Hil) as Hle. unfold val in Hle.
  rewrite Hd in Hle. unfold heap_at in Hle. rewrite Hi in Hle. cbn in Hle.
  by rewrite due_items, Hq in Hle.
Qed.

Lemma heap_empty t : wf t -> heap_size t = 0%nat -> abs t = ∅.
Proof.
  intros Hwf H0. apply map_empty. intros nm. apply expire_abs_lookup_None; [apply Hwf|].
  intros p x Hp _. assert (p ∈ heap t) as Hin by (apply (wf_members _ Hwf); eauto).
  apply nil_length_inv in H0. rewrite H0 in Hin. by apply not_elem_of_nil in Hin.
Qed.

(** What a run of the cycle removed: [l] lists names and times in the order in
    which the items went. *)
Record removed_ok (m m' : gmap (Z * bytes) Z) (now : Z) (l : list ((Z * bytes) * Z)) : Prop := {
  rm_due : Forall (fun nt => nt.2 <= now) l;
  rm_was : Forall (fun nt => m !! nt.1 = Some nt.2) l;
  rm_left : m' = foldr delete m l.*1;
  rm_sorted : StronglySorted (fun x y => x.2 <= y.2) l;
  rm_first : forall nt nm a, nt ∈ l -> m' !! nm = Some a -> nt.2 <= a;
}.

Section CycleSpec.

Context {W : Type} (engine_del : Z -> bytes -> W -> W).

Definition del_all (l : list ((Z * bytes) * Z)) (w : W) : W :=
  fold_left (fun w nt => engine_del nt.1.1 nt.1.2 w) l w.

Lemma removed_cons m m1 m' now nm a l :
  m !! nm = Some a -> a <= now -> (forall nm' a', m !! nm' = Some a' -> a <= a') ->
  m1 = delete nm m -> removed_ok m1 m' now l -> removed_ok m m' now ((nm, a) :: l).
Proof.
  intros Hm Ha Hmin -> [Hd Hw Hl Hs Hf].
  assert (Forall (fun nt => m !! nt.1 = Some nt.2) l) as Hw'.
  { eapply Forall_impl; [exact Hw|]. intros nt Hnt. by apply lookup_delete_Some in Hnt as [_ ?]. }
  split.
  - by constructor.
  - by constructor.
  - rewrite Hl. cbn. clear. induction l as [|x l IH]; [done|]. cbn. rewrite IH. apply delete_delete.
  - constructor; [done|]. eapply Forall_impl; [exact Hw'|]. cbn. intros nt Hnt. by eapply Hmin.
  - intros nt nm' a' [->|Hin]%elem_of_cons Hm'; [|by eapply Hf]. cbn. apply (Hmin nm').
    assert (m' ⊆ m) as Hsub.
    { rewrite Hl. clear. induction l as [|x l IH]; cbn; [apply delete_subseteq|].
      etransitivity; [apply delete_subseteq|done]. }
    by eapply lookup_weaken.
Qed.

Lemma expire_loop_spec todo now r t w : wf t ->
  exists l t' w', expire_loop engine_del todo now r t w = (r + Z.of_nat (length l), t', w') /\
    wf t' /\ removed_ok (abs t) (abs t') now l /\ w' = del_all l w /\ (length l <= todo)%nat /\
    ((length l < todo)%nat -> forall nm a, abs t' !! nm = Some a -> now < a).
Proof.
  revert r t w. induction todo as [|n IH]; intros r t w Hwf; cbn [expire_loop].
  - exists [], t, w. cbn. rewrite Z.add_0_r. split_and!; try done; [|lia].
    split; cbn; try constructor. intros nt nm a Hin. by apply not_elem_of_nil in Hin.
  - assert (removed_ok (abs t) (abs t) now []) as Hnil.
    { split; cbn; try constructor. intros nt nm a Hin. by apply not_elem_of_nil in Hin. }
    destruct (decide (heap_size t = 0%nat)) as [H0|H0].
    { exists [], t, w. cbn. rewrite Z.add_0_r. split_and!; try done; [lia|].
      intros _ nm a. by rewrite (heap_empty t Hwf H0), lookup_empty. }
    destruct (root_spec t Hwf H0) as (x & Hx & Hdue & Hmin). cbv zeta. rewrite Hdue.
    destruct (decide (expire_at_ms x > now)) as [Hd|Hd].
    { exists [], t, w. cbn. rewrite Z.add_0_r. split_and!; try done; [lia|].
      intros _ nm a Ha. specialize (Hmin nm a Ha). lia. }
    destruct (expire_free_node_spec (heap_at t 0) x t Hwf Hx) as (Hw1 & _ & Ha1 & _).
    set (p := heap_at t 0) in *. set (t1 := expire_free_node p t) in *.
    assert (exists y, store t !! p = Some y /\ engine y = engine x /\ ekey y = ekey x)
      as (y & -> & -> & ->).
    { rewrite items_lookup in Hx. destruct (store t !! p) as [y|]; [|done]. simplify_eq/=. eauto. }
    destruct (IH (r + 1) t1 (engine_del (engine x) (ekey x) w) Hw1)
      as (l & t' & w' & -> & Hw' & Hrm & -> & Hle & Hlt).
    exists ((name x, expire_at_ms x) :: l), t', (del_all l (engine_del (engine x) (ekey x) w)).
    split; [cbn [length]; by replace (r + Z.of_nat (S (length l))) with (r + 1 + Z.of_nat (length l)) by lia|].
    split_and!; try done; cbn [length]; [|lia|].
    + eapply removed_cons; [|lia|done|done|done]. apply expire_abs_lookup; [apply Hwf|]. eauto.
    + intros Hl. apply Hlt. lia.
Qed.

End CycleSpec.

(** ** Properties *)

(** The states the program goes through from [kvs_expire_create] on. *)
Inductive reach : table -> Prop :=
  | r_create t t' : store t = ∅ -> heap t = [] ->
      kvs_expire_create true true t = (0, t') -> reach t'
  | r_set mn mk mh now eng k ttl t : reach t ->
      reach (kvs_expire_set mn mk mh now eng k ttl t).2
  | r_del eng k t : reach t -> reach (kvs_expire_del eng k t).2
  | r_cycle budget now t : reach t ->
      reach (kvs_active_expire_cycle (fun _ _ (w : unit) => w) budget now t tt).1.2.

Lemma expire_create_spec t : store t = ∅ -> heap t = [] ->
  let t' := (kvs_expire_create true true t).2 in wf t' /\ abs t' = ∅.
Proof.
  intros Hs Hh. cbn. set (t' := mk_table _ _ _ _ _ _ _ _).
  assert (items t' = ∅) as Hit by (unfold items, t'; cbn; by rewrite Hs, fmap_empty).
  split; [|unfold abs; by rewrite Hit]. split; try done.
  - exists ∅. split; [done|]. rewrite Hit. split.
    + intros i l p. by rewrite lookup_empty.
    + intros p x. by rewrite lookup_empty.
    + intros i l. by rewrite lookup_empty.
  - split; [|intros i Hi; cbn in Hi; lia]. intros i p Hp. cbn in Hp. by rewrite lookup_nil in Hp.
  - intros p. rewrite Hit, lookup_empty. split; [intros H; by apply not_elem_of_nil in H|]. by intros [? ?].
  - rewrite Hit. intros p q x y. by rewrite lookup_empty.
  - rewrite Hit. intros p [? ?]. by rewrite lookup_empty in *.
Qed.

Lemma cycle_spec {W} (engine_del : Z -> bytes -> W -> W) budget now t w : wf t ->
  exists l t', kvs_active_expire_cycle engine_del budget now t w =
      (Z.of_nat (length l), t', del_all engine_del l w) /\
    wf t' /\ removed_ok (abs t) (abs t') now l /\ Z.of_nat (length l) <= Z.max 0 budget /\
    (Z.of_nat (length l) < budget -> forall nm a, abs t' !! nm = Some a -> now < a).
Proof.
  intros Hwf. unfold kvs_active_expire_cycle. destruct (decide _) as [Hd|Hd].
  - exists [], t. cbn. split_and!; try done; [|lia|].
    + split; cbn; try constructor. intros nt nm a Hin. by apply not_elem_of_nil in Hin.
    + rewrite (wf_alloc _ Hwf) in Hd. destruct Hd as [?|[?|H0]]; [lia|done|].
      intros _ nm a. by rewrite (heap_empty t Hwf H0), lookup_empty.
  - destruct (expire_loop_spec engine_del (Z.to_nat budget) now 0 t w Hwf)
      as (l & t' & w' & -> & Hw' & Hrm & -> & Hle & Hlt).
    exists l, t'. split_and!; try done; [lia|]. intros Hl. apply Hlt. lia.
Qed.

Lemma reach_wf t : reach t -> wf t.
Proof.
  induction 1 as [t t' Hs Hh Hc|mn mk mh now eng k ttl t _ IH|eng k t _ IH|budget now t _ IH].
  - pose proof (expire_create_spec t Hs Hh) as [Hw _]. by rewrite Hc in Hw.
  - by destruct (expire_set_spec mn mk mh now eng k ttl t IH) as (rc & t' & -> & Hw & _).
  - by destruct (expire_del_spec eng k t IH) as (rc & t' & -> & Hw & _).
  - by destruct (cycle_spec (fun _ _ (w : unit) => w) budget now t tt IH) as (l & t' & -> & Hw & _).
Qed.

(** (C10) The expiry table stays consistent: in every state reached from
    [kvs_expire_create] through any calls of set, del and the expiry cycle,
    with any allocation failures, the heap is ordered by expiry time, every
    item knows its heap position, the heap, the buckets and the count agree on
    the set of items, each item is in the bucket of its hash once, and no two
    items share engine and key. *)
Theorem expire_invariant t : reach t ->
  heap_ordered (val t) (heap_size t) /\ back_ok t /\
  count t = Z.of_nat (heap_size t) /\
  (forall p, p ∈ heap t <-> is_Some (items t !! p)) /\
  (exists b, buckets t = Some b /\ buckets_ok b (size t) (items t)) /\
  distinct (items t).
Proof. intros [? [? ?] ? ? ? ? ?]%reach_wf. done. Qed.

Definition zero_table : table := mk_table ∅ 1 None 0 0 [] false 0.
Definition table0 : table := (kvs_expire_create true true zero_table).2.
(** Three keys with times 130, 120 and 125. *)
Definition table3 : table :=
  (kvs_expire_set true true true 100 0 [99] 25
    (kvs_expire_set true true true 100 0 [98] 20
      (kvs_expire_set true true true 100 0 [97] 30 table0).2).2).2.

Lemma reach_table3 : reach table3.
Proof. unfold table3. do 3 apply r_set. by apply (r_create zero_table). Qed.

Lemma expire_invariant_witness :
  heap_ordered (val table3) (heap_size table3) /\ map (due table3) (heap table3) = [120; 130; 125].
Proof. split; [exact (proj1 (expire_invariant table3 reach_table3))|vm_compute; reflexivity]. Defined.

(** Setting an expiry time works: when [kvs_expire_set] returns 0, the
    table afterwards maps this engine and key to now + ttl and every other pair
    as before; it returns -1 exactly in the cases where the ttl is not
    positive or memory runs out, and then nothing changes. *)
Theorem expire_set_functional mn mk mh now eng k ttl t :
  reach t ->
  let r := kvs_expire_set mn mk mh now eng k ttl t in
  (r.1 = 0 /\ 0 < ttl /\ abs r.2 = <[(eng, k) := i64 (now + ttl)]> (abs t)) \/
  (r.1 = -1 /\ abs r.2 = abs t /\ (ttl <= 0 \/ mn && mk && mh = false)).
Proof.
  intros Hwf%reach_wf.
  by destruct (expire_set_spec mn mk mh now eng k ttl t Hwf) as (rc & t' & -> & _ & Hc).
Qed.

Lemma expire_set_functional_witness :
  abs (kvs_expire_set true true true 200 0 [97] 50 table3).2 = <[(0, [97]) := 250]> (abs table3).
Proof.
  destruct (expire_set_functional true true true 200 0 [97] 50 table3 reach_table3)
    as [(_ & _ & H)|(H & _ & _)]; [exact H|vm_compute in H; discriminate H].
Defined.

(** (C12) The expiry cycle removes what is due, earliest first, and nothing
    else: the items it removes were in the table and due, it removes them in
    ascending order of time and none of them later than an item it leaves, it
    calls the engines' delete exactly for them in that order, it removes at
    most [budget] of them, and if it stops before the budget is used up no item
    that is left is due. *)
Theorem expire_cycle_earliest_first {W} (engine_del : Z -> bytes -> W -> W) budget now t w :
  reach t ->
  exists l t', kvs_active_expire_cycle engine_del budget now t w =
      (Z.of_nat (length l), t', fold_left (fun w nt => engine_del nt.1.1 nt.1.2 w) l w) /\
    removed_ok (abs t) (abs t') now l /\ Z.of_nat (length l) <= Z.max 0 budget /\
    (Z.of_nat (length l) < budget -> forall nm a, abs t' !! nm = Some a -> now < a).
Proof.
  intros Hwf%reach_wf.
  destruct (cycle_spec engine_del budget now t w Hwf) as (l & t' & E & _ & Hr & Hl & Hd).
  by exists l, t'.
Qed.

Lemma expire_cycle_earliest_first_witness :
  kvs_active_expire_cycle (fun e k w => w ++ [(e, k)]) 10 126 table3 []
    = (2, (kvs_active_expire_cycle (fun e k w => w ++ [(e, k)]) 10 126 table3 []).1.2,
       [(0, [98]); (0, [99])]) /\
  exists l t', kvs_active_expire_cycle (fun e k w => w ++ [(e, k)]) 10 126 table3 [] =
      (Z.of_nat (length l), t', fold_left (fun w nt => w ++ [(nt.1.1, nt.1.2)]) l []) /\
    removed_ok (abs table3) (abs t') 126 l /\ Z.of_nat (length l) <= Z.max 0 10 /\
    (Z.of_nat (length l) < 10 -> forall nm a, abs t' !! nm = Some a -> 126 < a).
Proof.
  split; [vm_compute; reflexivity|].
  exact (expire_cycle_earliest_first (fun e k w => w ++ [(e, k)]) 10 126 table3 [] reach_table3).
Defined.

(** What a lookup of a name finds. *)
Lemma find_due eng k t : wf t ->
  match expire_find eng k t with
  | Some p => abs t !! (eng, k) = Some (due t p)
  | None => abs t !! (eng, k) = None
  end.
Proof.
  intros Hwf. pose proof (expire_find_spec eng k t Hwf) as H.
  destruct (expire_find eng k t) as [p|]; [|done]. destruct H as (x & Hx & Hn).
  apply expire_abs_lookup; [apply Hwf|]. exists p, x. split_and!; try done. by rewrite due_items, Hx.
Qed.

(** TTL and expiry read the table: [kvs_expire_ttl] is -1 for a key
    without a time, -2 exactly when [kvs_expire_is_expired] holds, and
    otherwise the remaining time in seconds rounded up, which is at least 1. *)
Theorem expire_ttl_spec now eng k t :
  reach t ->
  match abs t !! (eng, k) with
  | None => kvs_expire_ttl now eng k t = -1 /\ kvs_expire_is_expired now eng k t = false
  | Some a =>
      if decide (now >= a)
      then kvs_expire_ttl now eng k t = -2 /\ kvs_expire_is_expired now eng k t = true
      else kvs_expire_is_expired now eng k t = false /\ 1 <= kvs_expire_ttl now eng k t /\
           1000 * (kvs_expire_ttl now eng k t - 1) < a - now <= 1000 * kvs_expire_ttl now eng k t
  end.
Proof.
  intros Hwf%reach_wf. pose proof (find_due eng k t Hwf) as H.
  unfold kvs_expire_ttl, kvs_expire_is_expired. destruct (expire_find eng k t) as [p|]; [|by rewrite H].
  rewrite H. set (a := due t p). case_decide as Hd; [by rewrite bool_decide_eq_true_2|].
  rewrite bool_decide_eq_false_2 by done.
  pose proof (Z.quot_rem' (a - now) 1000). pose proof (Z.rem_bound_pos (a - now) 1000).
  cbv zeta. case_decide; lia.
Qed.

Lemma expire_ttl_spec_witness : kvs_expire_ttl (-2480) 0 [98] table3 = 3.
Proof.
  pose proof (expire_ttl_spec (-2480) 0 [98] table3 reach_table3) as H.
  vm_compute in H. destruct H as (_ & _ & H1 & H2). vm_compute. reflexivity.
Defined.

End Expire.
