(* ===== verification/Mem.v ===== *)
(** * Mem: the memory allocator

    [src/memory/kvs_mem.c].  With the custom backend a request of at most 1 KB is
    served from slab pages, a larger one from a mapping of its own, and both from
    [malloc] when the kernel has no memory.  A 4-byte header before a small block,
    a 24-byte header before the others say which; [custom_free] tells them apart
    by their magic numbers.

    Pages are identified by the address of their memory.  The headers are kept per
    kind; a header read through a pointer of another kind is the bytes that are
    really there.  A read of unmapped memory or beyond a free stack ends the call
    with [None].  What [mmap] and [malloc] return is an argument. *)

From S2P Require Import Prelude Cstring.

Module Mem.

(** ** Data *)

Definition KVS_MEM_LIBC : Z := 0.
Definition KVS_MEM_JEMALLOC : Z := 1.
Definition KVS_MEM_CUSTOM : Z := 2.

Definition SMALL_CLASS_COUNT : Z := 19.
Definition SMALL_MAX_SIZE : Z := 1024.
Definition CHUNK_MAGIC : Z := 204.
Definition LARGE_MAGIC : Z := 3235823839.
Definition FALLBACK_MAGIC : Z := 3235823840.

(** The sizes of the headers in front of a block. *)
Definition sizeof_chunk : Z := 4.
Definition sizeof_hdr : Z := 24.
Definition SIZE_MAX : Z := 2 ^ 64 - 1.

Record small_chunk_t := Chunk { request_size : Z; magic : Z; class_idx : Z }.

Record slab_page_t := Page {
  p_mem : Z;
  p_size : Z;
  chunks_total : Z;
  chunks_in_use : Z;
  free_stack : list Z;
  free_top : nat;
}.
#[export] Instance eta_page : Eta slab_page_t := fun p =>
  Page (p_mem p) (p_size p) (chunks_total p) (chunks_in_use p) (free_stack p) (free_top p).

(** [pages] from the head of the list; [active_page] names one of them. *)
Record small_class_t := Class {
  size : Z;
  pages : list slab_page_t;
  active_page : option Z;
  total_chunks : Z;
  page_count : Z;
  page_bytes : Z;
}.
#[export] Instance eta_class : Eta small_class_t := fun c =>
  Class (size c) (pages c) (active_page c) (total_chunks c) (page_count c) (page_bytes c).

(** The header of a mapping and of a [malloc] block: magic, request and size. *)
Record hdr_t := Hdr { h_magic : Z; h_request_size : Z; h_size : Z }.

(** The counters of [kvs_mem_state_t]. *)
Record counts := Counts {
  alloc_calls : Z;
  free_calls : Z;
  calloc_calls : Z;
  realloc_calls : Z;
  small_alloc_calls : Z;
  small_free_calls : Z;
  large_alloc_calls : Z;
  large_free_calls : Z;
  fallback_alloc_calls : Z;
  fallback_free_calls : Z;
  current_small_inuse : Z;
  peak_small_inuse : Z;
  current_large_inuse_bytes : Z;
  peak_large_inuse_bytes : Z;
  current_fallback_inuse_bytes : Z;
  peak_fallback_inuse_bytes : Z;
  total_small_page_bytes : Z;
  total_large_map_bytes : Z;
  active_large_map_bytes : Z;
  peak_active_large_map_bytes : Z;
  current_requested_bytes : Z;
  current_allocated_bytes : Z;
}.
#[export] Instance eta_counts : Eta counts := fun k =>
  Counts (alloc_calls k) (free_calls k) (calloc_calls k) (realloc_calls k) (small_alloc_calls k) (small_free_calls k)
    (large_alloc_calls k) (large_free_calls k) (fallback_alloc_calls k) (fallback_free_calls k) (current_small_inuse k)
    (peak_small_inuse k) (current_large_inuse_bytes k) (peak_large_inuse_bytes k) (current_fallback_inuse_bytes k)
    (peak_fallback_inuse_bytes k) (total_small_page_bytes k) (total_large_map_bytes k) (active_large_map_bytes k)
    (peak_active_large_map_bytes k) (current_requested_bytes k) (current_allocated_bytes k).

(** [g_mem], the headers in memory by their address, and the bytes of the blocks.
    The headers are kept apart from the bytes, so a write of a header does not
    touch a block by construction: that the code leaves room for the header in
    front of a block is in the sizes of the definitions, not in a theorem. *)
Record kvs_mem_state_t := Mem {
  backend : Z;
  initialized : bool;
  cnt : counts;
  classes : list small_class_t;
  chunks : gmap Z small_chunk_t;
  larges : gmap Z hdr_t;
  fallbacks : gmap Z hdr_t;
  data : Z -> Z;
}.
#[export] Instance eta_mem : Eta kvs_mem_state_t := fun s =>
  Mem (backend s) (initialized s) (cnt s) (classes s) (chunks s) (larges s) (fallbacks s) (data s).

Definition class_sizes : list Z := [8; 16; 24; 32; 40; 56; 72; 96; 128; 136; 160; 200; 256; 320; 400; 512; 640; 800; 1024].
Definition counts0 : counts := Counts 0 0 0 0 0 0 0 0 0 0 0 0 0 0 0 0 0 0 0 0 0 0.
Definition g_mem0 : kvs_mem_state_t :=
  Mem KVS_MEM_LIBC false counts0 (map (fun z => Class z [] None 0 0 0) class_sizes) ∅ ∅ ∅ (fun _ => 0).

(** The answers of the system during a call: [mmap] and [malloc] by the size
    asked for (0 is no memory), whether a page's bookkeeping finds memory, the
    page size, and the environment variable. *)
Record env := Env {
  mmap : Z -> Z;
  malloc : Z -> Z;
  m_page : bool;
  m_stack : bool;
  pagesz : Z;
  backend_env : option bytes;
}.

(** ** Accounting *)

Definition update_peak_ull (peak value : Z) : Z := if decide (value > peak) then value else peak.
Definition payload_from_mapping_size (m : Z) : Z := if decide (m > sizeof_hdr) then m - sizeof_hdr else 0.
Definition account_live_alloc_locked (requested allocated : Z) (k : counts) : counts :=
  k <| current_requested_bytes ::= fun x => u64 (x + requested) |>
    <| current_allocated_bytes ::= fun x => u64 (x + allocated) |>.
(** [if (x >= n) x -= n; else x = 0;] *)
Definition reduce (n x : Z) : Z := if decide (x >= n) then x - n else 0.
Definition account_live_free_locked (requested allocated : Z) (k : counts) : counts :=
  k <| current_requested_bytes ::= reduce requested |> <| current_allocated_bytes ::= reduce allocated |>.
Definition custom_account_fallback_alloc (requested allocated : Z) (k : counts) : counts :=
  let cur := u64 (current_fallback_inuse_bytes k + requested) in
  account_live_alloc_locked requested allocated
    (k <| fallback_alloc_calls ::= fun x => u64 (x + 1) |> <| current_fallback_inuse_bytes := cur |>
       <| peak_fallback_inuse_bytes ::= fun p => update_peak_ull p cur |>).
Definition custom_account_fallback_free (requested allocated : Z) (k : counts) : counts :=
  account_live_free_locked requested allocated
    (k <| fallback_free_calls ::= fun x => u64 (x + 1) |> <| current_fallback_inuse_bytes ::= reduce requested |>).
Definition account_small_alloc (requested cls : Z) (k : counts) : counts :=
  let cur := u64 (current_small_inuse k + cls) in
  account_live_alloc_locked requested cls
    (k <| small_alloc_calls ::= fun x => u64 (x + 1) |> <| current_small_inuse := cur |>
       <| peak_small_inuse ::= fun p => update_peak_ull p cur |>).
Definition account_small_free (requested cls : Z) (k : counts) : counts :=
  account_live_free_locked requested cls
    (k <| small_free_calls ::= fun x => u64 (x + 1) |> <| current_small_inuse ::= reduce cls |>).
Definition account_large_alloc (requested mapped : Z) (k : counts) : counts :=
  let cur := u64 (current_large_inuse_bytes k + requested) in
  let act := u64 (active_large_map_bytes k + mapped) in
  account_live_alloc_locked requested (payload_from_mapping_size mapped)
    (k <| large_alloc_calls ::= fun x => u64 (x + 1) |> <| current_large_inuse_bytes := cur |>
       <| active_large_map_bytes := act |> <| total_large_map_bytes ::= fun x => u64 (x + mapped) |>
       <| peak_large_inuse_bytes ::= fun p => update_peak_ull p cur |>
       <| peak_active_large_map_bytes ::= fun p => update_peak_ull p act |>).
Definition account_large_free (requested mapped : Z) (k : counts) : counts :=
  account_live_free_locked requested (payload_from_mapping_size mapped)
    (k <| large_free_calls ::= fun x => u64 (x + 1) |> <| current_large_inuse_bytes ::= reduce requested |>
       <| active_large_map_bytes ::= reduce mapped |>).

(** ** Pages *)

Fixpoint class_from (sz : Z) (cs : list small_class_t) (i : nat) : option nat :=
  match cs with
  | [] => None
  | c :: r => if decide (sz <= size c) then Some i else class_from sz r (S i)
  end.
(** [None] is -1. *)
Definition class_index_for (sz : Z) (s : kvs_mem_state_t) : option nat := class_from sz (classes s) 0.

Definition set_class (i : nat) (c : small_class_t) (s : kvs_mem_state_t) : kvs_mem_state_t :=
  s <| classes ::= insert i c |>.
Definition page_at (a : Z) (c : small_class_t) : option slab_page_t :=
  List.find (fun p => bool_decide (p_mem p = a)) (pages c).
(** A page is changed in place. *)
Definition set_page (pg : slab_page_t) (c : small_class_t) : small_class_t :=
  c <| pages ::= map (fun p => if decide (p_mem p = p_mem pg) then pg else p) |>.

Definition chunk_total (c : small_class_t) : Z := sizeof_chunk + size c.
Definition chunk_count (c : small_class_t) : Z :=
  let page_size := if decide (chunk_total c > 65536 / 2) then 262144 else 65536 in
  let count := page_size / chunk_total c in
  if decide (count < 16) then 16 else count.
(** The headers of the chunks of a new page at [a]. *)
Definition fresh_chunks (a : Z) (ct : Z) (idx : Z) (count : Z) : gmap Z small_chunk_t :=
  list_to_map (map (fun i => (a + i * ct, Chunk 0 (u8 CHUNK_MAGIC) (u8 idx))) (seqZ 0 count)).
(** [None] is -1. *)
Definition slab_grow_locked (e : env) (idx : nat) (s : kvs_mem_state_t) : option kvs_mem_state_t :=
  c ← classes s !! idx;
  let alloc_size := chunk_total c * chunk_count c in
  let a := mmap e alloc_size in
  if decide (a = 0) then None
  else if m_page e then
    if m_stack e then
      let page := Page a alloc_size (chunk_count c) 0 (map u16 (seqZ 0 (chunk_count c))) (Z.to_nat (chunk_count c)) in
      Some (set_class idx (c <| pages ::= cons page |> <| active_page := Some a |> <| page_count ::= fun n => u64 (n + 1) |>
                             <| page_bytes ::= fun n => u64 (n + alloc_size) |> <| total_chunks ::= fun n => u64 (n + chunk_count c) |>) s
        <| cnt ::= fun k => k <| total_small_page_bytes ::= fun n => u64 (n + alloc_size) |> |>
        <| chunks ::= fun h => fresh_chunks a (chunk_total c) (Z.of_nat idx) (chunk_count c) ∪ h |>)
    else None
  else None.

(** ** Allocation *)

Definition fallback_malloc (e : env) (sz : Z) (s : kvs_mem_state_t) : Z * kvs_mem_state_t :=
  if decide (sz > SIZE_MAX - sizeof_hdr) then (0, s)
  else
    let hdr := malloc e (sizeof_hdr + sz) in
    if decide (hdr = 0) then (0, s)
    else (hdr + sizeof_hdr,
      s <| fallbacks ::= insert hdr (Hdr FALLBACK_MAGIC sz (sizeof_hdr + sz)) |> <| cnt ::= custom_account_fallback_alloc sz sz |>).

(** A chunk of page [pg] of class [idx] is handed out. *)
Definition take_chunk (idx : nat) (pg : slab_page_t) (sz : Z) (s : kvs_mem_state_t) : option (Z * kvs_mem_state_t) :=
  c ← classes s !! idx;
  let top := (free_top pg - 1)%nat in
  ci ← free_stack pg !! top;
  let chunk := p_mem pg + ci * chunk_total c in
  h ← chunks s !! chunk;
  Some (chunk + sizeof_chunk,
    set_class idx (set_page (pg <| free_top := top |> <| chunks_in_use ::= fun n => n + 1 |>) c) s
      <| chunks ::= insert chunk (Chunk (u16 sz) (magic h) (class_idx h)) |>
      <| cnt ::= account_small_alloc sz (size c) |>).

(** Another page with room, or a new page, or [malloc]. *)
Definition other_page (e : env) (idx : nat) (c : small_class_t) (sz : Z) (s : kvs_mem_state_t) : option (Z * kvs_mem_state_t) :=
  match List.find (fun p => bool_decide (0 < free_top p)%nat) (pages c) with
  | Some pg => take_chunk idx pg sz (set_class idx (c <| active_page := Some (p_mem pg) |>) s)
  | None =>
      match slab_grow_locked e idx s with
      | None => Some (fallback_malloc e sz s)
      | Some s =>
          c ← classes s !! idx; pg ← head (pages c);
          take_chunk idx pg sz (set_class idx (c <| active_page := Some (p_mem pg) |>) s)
      end
  end.
Definition small_malloc (e : env) (idx : nat) (sz : Z) (s : kvs_mem_state_t) : option (Z * kvs_mem_state_t) :=
  c ← classes s !! idx;
  match active_page c with
  | None => other_page e idx c sz s
  | Some a =>
      pg ← page_at a c;
      if decide (free_top pg = 0%nat) then other_page e idx c sz s else take_chunk idx pg sz s
  end.
Definition large_malloc (e : env) (sz : Z) (s : kvs_mem_state_t) : Z * kvs_mem_state_t :=
  let total := u64 (sizeof_hdr + sz) in
  let ps := if decide (pagesz e = 0) then 4096 else pagesz e in
  if decide (total < sz) then fallback_malloc e sz s
  else
    let rounded := u64 (total + ps - 1) / ps * ps in
    let hdr := mmap e rounded in
    if decide (hdr = 0) then fallback_malloc e sz s
    else (hdr + sizeof_hdr,
      s <| larges ::= insert hdr (Hdr LARGE_MAGIC sz rounded) |> <| cnt ::= account_large_alloc sz rounded |>).
Definition custom_malloc (e : env) (sz : Z) (s : kvs_mem_state_t) : option (Z * kvs_mem_state_t) :=
  let sz := if decide (sz = 0) then 1 else sz in
  if decide (sz <= SMALL_MAX_SIZE) then
    match class_index_for sz s with
    | None => Some (fallback_malloc e sz s)
    | Some idx => small_malloc e idx sz s
    end
  else Some (large_malloc e sz s).

(** ** Headers *)

(** The last four bytes of a 24-byte header, read as the header of a chunk: the
    upper half of its last field. *)
Definition tail_chunk (h : hdr_t) : small_chunk_t :=
  Chunk (h_size h / 2 ^ 32 mod 2 ^ 16) (h_size h / 2 ^ 48 mod 2 ^ 8) (h_size h / 2 ^ 56 mod 2 ^ 8).
(** The 24-byte header before [ptr]. *)
Definition read_hdr (ptr : Z) (s : kvs_mem_state_t) : option hdr_t :=
  match larges s !! (ptr - sizeof_hdr) with Some h => Some h | None => fallbacks s !! (ptr - sizeof_hdr) end.
(** The 4 bytes before [ptr]. *)
Definition read_chunk (ptr : Z) (s : kvs_mem_state_t) : option small_chunk_t :=
  match chunks s !! (ptr - sizeof_chunk) with Some h => Some h | None => tail_chunk <$> read_hdr ptr s end.

Definition is_chunk (h : small_chunk_t) : bool := bool_decide (magic h = CHUNK_MAGIC) && bool_decide (class_idx h < SMALL_CLASS_COUNT).

(** The size asked for, and the kind: 1 small, 2 mapped, 3 from [malloc]. *)
Definition custom_ptr_size (ptr : Z) (s : kvs_mem_state_t) : option (Z * Z) :=
  if decide (ptr = 0) then Some (0, 0)
  else
    ch ← read_chunk ptr s;
    if is_chunk ch then Some (request_size ch, 1)
    else
      h ← read_hdr ptr s;
      if decide (h_magic h = LARGE_MAGIC) then Some (h_request_size h, 2)
      else if decide (h_magic h = FALLBACK_MAGIC) then Some (h_request_size h, 3)
      else Some (0, 0).

(** ** Freeing *)

Definition find_page_for_chunk (c : small_class_t) (chunk : Z) : option slab_page_t :=
  List.find (fun p => bool_decide (p_mem p <= chunk < p_mem p + p_size p)) (pages c).

(** [munmap] of a page. *)
Definition unmap (pg : slab_page_t) (h : gmap Z small_chunk_t) : gmap Z small_chunk_t :=
  filter (fun kv => ¬ (p_mem pg <= kv.1 < p_mem pg + p_size pg)) h.

Definition free_chunks (c : small_class_t) : Z := foldr Z.add 0 (map (fun p => Z.of_nat (free_top p)) (pages c)).
Definition try_reclaim_page_locked (idx : nat) (target : slab_page_t) (s : kvs_mem_state_t) : option kvs_mem_state_t :=
  c ← classes s !! idx;
  if decide (free_chunks c - Z.of_nat (free_top target) < chunks_total target * 2) then Some s
  else Some (set_class idx (c <| pages ::= List.filter (fun p => bool_decide (p_mem p <> p_mem target)) |>
                              <| active_page ::= fun a => if decide (a = Some (p_mem target)) then None else a |>
                              <| page_count ::= fun n => u64 (n - 1) |>
                              <| page_bytes ::= fun n => u64 (n - p_size target) |>
                              <| total_chunks ::= fun n => u64 (n - chunks_total target) |>) s
    <| cnt ::= fun k => k <| total_small_page_bytes ::= fun n => u64 (n - p_size target) |> |>
    <| chunks ::= unmap target |>).

Definition small_free (chunk : Z) (h : small_chunk_t) (s : kvs_mem_state_t) : option kvs_mem_state_t :=
  let idx := Z.to_nat (class_idx h) in
  c ← classes s !! idx;
  pg ← find_page_for_chunk c chunk;
  let ci := (chunk - p_mem pg) / chunk_total c in
  if decide (free_top pg < length (free_stack pg))%nat then
    let pg1 := pg <| free_stack ::= insert (free_top pg) (u16 ci) |> <| free_top ::= S |> in
    let s1 := s <| cnt ::= account_small_free (request_size h) (size c) |> in
    if decide (chunks_in_use pg1 > 0) then
      let pg2 := pg1 <| chunks_in_use ::= fun n => n - 1 |> in
      let s2 := set_class idx (set_page pg2 c) s1 in
      if decide (chunks_in_use pg2 = 0) then try_reclaim_page_locked idx pg2 s2 else Some s2
    else Some (set_class idx (set_page pg1 c) s1)
  else None.
Definition custom_free (ptr : Z) (s : kvs_mem_state_t) : option kvs_mem_state_t :=
  if decide (ptr = 0) then Some s
  else
    ch ← read_chunk ptr s;
    if is_chunk ch then small_free (ptr - sizeof_chunk) ch s
    else
      let hdr := ptr - sizeof_hdr in
      h ← read_hdr ptr s;
      if decide (h_magic h = LARGE_MAGIC) then
        Some (s <| cnt ::= account_large_free (h_request_size h) (h_size h) |> <| larges ::= delete hdr |>)
      else if decide (h_magic h = FALLBACK_MAGIC) then
        Some (s <| cnt ::= custom_account_fallback_free (h_request_size h) (h_request_size h) |> <| fallbacks ::= delete hdr |>)
      else Some s.

(** ** The interface *)

Definition backend_from_name (name : option bytes) : Z :=
  match name with
  | None => KVS_MEM_LIBC
  | Some n =>
      if decide (n = []) then KVS_MEM_LIBC
      else if decide (n = str "libc" \/ n = str "system" \/ n = str "default") then KVS_MEM_LIBC
      else if decide (n = str "jemalloc") then KVS_MEM_JEMALLOC
      else if decide (n = str "custom" \/ n = str "pool") then KVS_MEM_CUSTOM
      else -1
  end.
Definition kvs_mem_init (e : env) (name : option bytes) (s : kvs_mem_state_t) : Z * kvs_mem_state_t :=
  let b := backend_from_name (match name with Some n => Some n | None => backend_env e end) in
  if decide (b < 0) then (-1, s) else (0, s <| backend := b |> <| initialized := true |>).

(** The other backends are the C library's. *)
Definition backend_malloc (e : env) (sz : Z) (s : kvs_mem_state_t) : option (Z * kvs_mem_state_t) :=
  if decide (backend s = KVS_MEM_CUSTOM) then custom_malloc e sz s else Some (malloc e sz, s).
Definition backend_free (ptr : Z) (s : kvs_mem_state_t) : option kvs_mem_state_t :=
  if decide (ptr = 0) then Some s
  else if decide (backend s = KVS_MEM_CUSTOM) then custom_free ptr s else Some s.

Definition memset0 (p n : Z) (s : kvs_mem_state_t) : kvs_mem_state_t :=
  s <| data ::= fun d a => if decide (p <= a < p + n) then 0 else d a |>.
Definition memcpy (p q n : Z) (s : kvs_mem_state_t) : kvs_mem_state_t :=
  s <| data ::= fun d a => if decide (p <= a < p + n) then d (q + (a - p)) else d a |>.

Definition backend_calloc (e : env) (n sz : Z) (s : kvs_mem_state_t) : option (Z * kvs_mem_state_t) :=
  if decide (n <> 0 /\ sz > SIZE_MAX / n) then Some (0, s)
  else
    let total := u64 (n * sz) in
    '(p, s) ← backend_malloc e total s;
    Some (p, if decide (p = 0) then s else memset0 p total s).
(** A pointer no header was found for, and the other backends, are left to the C library's [realloc]. *)
Definition backend_realloc (e : env) (ptr sz : Z) (s : kvs_mem_state_t) : option (Z * kvs_mem_state_t) :=
  if decide (ptr = 0) then backend_malloc e sz s
  else if decide (sz = 0) then s ← backend_free ptr s; Some (0, s)
  else if decide (backend s = KVS_MEM_CUSTOM) then
    '(oldsz, kind) ← custom_ptr_size ptr s;
    if decide (kind = 0) then Some (malloc e sz, s)
    else if decide (sz <= oldsz) then Some (ptr, s)
    else
      '(np, s) ← backend_malloc e sz s;
      if decide (np = 0) then Some (0, s)
      else
        s ← backend_free ptr (memcpy np ptr (if decide (oldsz < sz) then oldsz else sz) s);
        Some (np, s)
  else Some (malloc e sz, s).

Definition ensure_init (e : env) (s : kvs_mem_state_t) : kvs_mem_state_t :=
  if initialized s then s else (kvs_mem_init e None s).2.
Definition kvs_malloc (e : env) (sz : Z) (s : kvs_mem_state_t) : option (Z * kvs_mem_state_t) :=
  backend_malloc e sz (ensure_init e s <| cnt ::= fun k => k <| alloc_calls ::= fun n => u64 (n + 1) |> |>).
Definition kvs_calloc (e : env) (n sz : Z) (s : kvs_mem_state_t) : option (Z * kvs_mem_state_t) :=
  backend_calloc e n sz (ensure_init e s <| cnt ::= fun k => k <| calloc_calls ::= fun n => u64 (n + 1) |> |>).
Definition kvs_realloc (e : env) (ptr sz : Z) (s : kvs_mem_state_t) : option (Z * kvs_mem_state_t) :=
  backend_realloc e ptr sz (ensure_init e s <| cnt ::= fun k => k <| realloc_calls ::= fun n => u64 (n + 1) |> |>).
Definition kvs_free (e : env) (ptr : Z) (s : kvs_mem_state_t) : option kvs_mem_state_t :=
  backend_free ptr (ensure_init e s <| cnt ::= fun k => k <| free_calls ::= fun n => u64 (n + 1) |> |>).

(** ** Statistics *)

Record class_stats := ClassStats { cs_size : Z; cs_total_chunks : Z; cs_free_chunks : Z; cs_page_count : Z; cs_bytes_in_pages : Z }.
Record kvs_mem_stats_t := Stats {
  st_counts : counts;
  internal_fragment_bytes : Z;
  small_page_used_bytes : Z;
  internal_fragment_ppm : Z;
  page_utilization_ppm : Z;
  st_classes : list class_stats;
}.
Definition kvs_mem_get_stats (s : kvs_mem_state_t) : kvs_mem_stats_t :=
  let k := cnt s in
  let frag := if decide (current_allocated_bytes k >= current_requested_bytes k)
              then current_allocated_bytes k - current_requested_bytes k else 0 in
  Stats k frag (current_small_inuse k)
    (if decide (current_allocated_bytes k = 0) then 0 else u32 (u64 (frag * 1000000) / current_allocated_bytes k))
    (if decide (total_small_page_bytes k = 0) then 0 else u32 (u64 (current_small_inuse k * 1000000) / total_small_page_bytes k))
    (map (fun c => ClassStats (size c) (total_chunks c) (u64 (free_chunks c)) (page_count c) (page_bytes c)) (classes s)).

(** ** The blocks behind the state *)

Inductive kind := KSmall | KLarge | KFallback.
#[export] Instance kind_eq_dec : EqDecision kind.
Proof. solve_decision. Defined.

(** A block in use: the bytes asked for, the bytes it has, and its mapping. *)
Record block := Block { b_kind : kind; b_req : Z; b_cap : Z; b_map : Z }.
(** The size of the header in front of it. *)
Definition b_hdr (b : block) : Z := match b_kind b with KSmall => sizeof_chunk | _ => sizeof_hdr end.
Definition foot (b : block) : Z := b_hdr b + b_cap b.

Definition placed (s : kvs_mem_state_t) (i : nat) (c : small_class_t) (pg : slab_page_t) : Prop :=
  classes s !! i = Some c /\ pg ∈ pages c.
Definition free_list (pg : slab_page_t) : list Z := take (free_top pg) (free_stack pg).

Definition owns (s : kvs_mem_state_t) (p : Z) (b : block) : Prop :=
  match b_kind b with
  | KSmall => exists i c pg ci, placed s i c pg /\ 0 <= ci < chunk_count c /\ ci ∉ free_list pg /\
      p = p_mem pg + ci * chunk_total c + sizeof_chunk /\
      chunks s !! (p_mem pg + ci * chunk_total c) = Some (Chunk (b_req b) CHUNK_MAGIC (Z.of_nat i)) /\ b_cap b = size c /\ b_map b = 0
  | KLarge => larges s !! (p - sizeof_hdr) = Some (Hdr LARGE_MAGIC (b_req b) (b_map b)) /\ b_cap b = b_map b - sizeof_hdr
  | KFallback => fallbacks s !! (p - sizeof_hdr) = Some (Hdr FALLBACK_MAGIC (b_req b) (sizeof_hdr + b_req b)) /\
      b_cap b = b_req b /\ b_map b = 0
  end.

(** The mapped regions. *)
Inductive tag := TPage (i : nat) | TLarge | TFallback.
Definition region (s : kvs_mem_state_t) (t : tag) (a n : Z) : Prop :=
  match t with
  | TPage i => exists c pg, placed s i c pg /\ a = p_mem pg /\ n = p_size pg
  | TLarge => exists h, larges s !! a = Some h /\ n = h_size h
  | TFallback => exists h, fallbacks s !! a = Some h /\ n = h_size h
  end.

(** The user addresses of a 64-bit process end here. *)
Definition TOP : Z := 2 ^ 47.

Definition total (l : list Z) : Z := foldr Z.add 0 l.

Record page_ok (c : small_class_t) (pg : slab_page_t) : Prop := {
  po_total : chunks_total pg = chunk_count c;
  po_size : p_size pg = chunk_total c * chunk_count c;
  po_len : Z.of_nat (length (free_stack pg)) = chunk_count c;
  po_use : chunks_in_use pg = chunk_count c - Z.of_nat (free_top pg);
  po_top : (free_top pg <= length (free_stack pg))%nat;
  po_nodup : NoDup (free_list pg);
  po_range : Forall (fun ci => 0 <= ci < chunk_count c) (free_list pg);
}.
Record class_ok (i : nat) (c : small_class_t) : Prop := {
  co_size : class_sizes !! i = Some (size c);
  co_nodup : NoDup (map p_mem (pages c));
  co_active : forall a, active_page c = Some a -> a ∈ map p_mem (pages c);
  co_pages : forall pg, pg ∈ pages c -> page_ok c pg;
  co_count : page_count c = u64 (Z.of_nat (length (pages c)));
  co_bytes : page_bytes c = u64 (total (map p_size (pages c)));
  co_total : total_chunks c = u64 (total (map chunks_total (pages c)));
}.

(** The state is well formed and [live] are the blocks in use. *)
Record struct (s : kvs_mem_state_t) (live : gmap Z block) : Prop := {
  i_len : length (classes s) = 19%nat;
  i_class : forall i c, classes s !! i = Some c -> class_ok i c;
  i_space : forall t a n, region s t a n -> 0 < a /\ sizeof_hdr < n /\ a + n <= TOP;
  i_apart : forall t a n t' a' n', region s t a n -> region s t' a' n' -> (t = t' /\ a = a') \/ a + n <= a' \/ a' + n' <= a;
  i_chunk : forall i c pg ci, placed s i c pg -> 0 <= ci < chunk_count c ->
    exists r, chunks s !! (p_mem pg + ci * chunk_total c) = Some (Chunk r CHUNK_MAGIC (Z.of_nat i));
  i_only : forall a h, chunks s !! a = Some h -> exists i c pg ci, placed s i c pg /\ 0 <= ci < chunk_count c /\ a = p_mem pg + ci * chunk_total c;
  i_large : forall a h, larges s !! a = Some h -> h_magic h = LARGE_MAGIC;
  i_fallback : forall a h, fallbacks s !! a = Some h -> h_magic h = FALLBACK_MAGIC /\ h_size h = sizeof_hdr + h_request_size h;
  i_live : forall p b, live !! p = Some b <-> owns s p b;
  i_req : forall p b, live !! p = Some b -> 0 < b_req b <= b_cap b;
}.

(** *** Sums *)

Definition sumf (f : block -> Z) (m : gmap Z block) : Z := map_fold (fun _ b acc => f b + acc) 0 m.
Lemma sumf_insert f m p b : m !! p = None -> sumf f (<[p := b]> m) = f b + sumf f m.
Proof. intros H. unfold sumf. rewrite map_fold_insert_L; [done| |done]. intros. lia. Qed.
Lemma sumf_delete f m p b : m !! p = Some b -> sumf f m = f b + sumf f (delete p m).
Proof. intros H. rewrite <- (sumf_insert f (delete p m) p b) by apply lookup_delete_eq. by rewrite insert_delete_id. Qed.
Lemma sumf_le f g m : (forall p b, m !! p = Some b -> 0 <= f b <= g b) -> 0 <= sumf f m <= sumf g m.
Proof.
  induction m as [|p b m Hp IH] using map_ind; intros H; [unfold sumf; rewrite !map_fold_empty; lia|].
  rewrite !sumf_insert by done. pose proof (H p b (lookup_insert_eq _ _ _)).
  assert (0 <= sumf f m <= sumf g m); [|lia]. apply IH. intros q b' Hq. apply (H q). rewrite lookup_insert_ne; congruence.
Qed.

(** Disjoint intervals below a bound have at most that length in all. *)
Lemma intervals_bound (l : list (Z * Z)) B :
  NoDup (concat (map (fun i => seqZ i.1 i.2) l)) -> Forall (fun i => 0 <= i.1 /\ 0 <= i.2 /\ i.1 + i.2 <= B) l -> 0 <= B ->
  total (map snd l) <= B.
Proof.
  intros Hd Hl HB. assert (concat (map (fun i => seqZ i.1 i.2) l) ⊆+ seqZ 0 B) as Hs.
  { apply NoDup_submseteq; [done|]. intros x Hx. apply elem_of_concat in Hx as (k & Hx & Hk). apply list_elem_of_fmap in Hk as (i & -> & Hi).
    rewrite Forall_forall in Hl. apply Hl in Hi. rewrite elem_of_seqZ in *. lia. }
  apply submseteq_length in Hs. rewrite length_seqZ in Hs.
  assert (total (map snd l) = Z.of_nat (length (concat (map (fun i => seqZ i.1 i.2) l)))) as ->; [|lia].
  clear - Hl. induction Hl as [|i l Hi _ IH]; [done|]. cbn [map concat total foldr]. rewrite length_app, length_seqZ. unfold total in *. rewrite IH. lia.
Qed.

Lemma map_lookup {A B} (f : A -> B) (l : list A) i : map f l !! i = f <$> l !! i.
Proof. apply list_lookup_fmap. Qed.

(** *** Sizes *)

(** The sizes are such that a page has 63 to 5461 chunks, numbered in 16 bits. *)
Lemma class_bounds i c : class_sizes !! i = Some (size c) -> (i < 19)%nat /\ 8 <= size c <= 1024 /\ 16 <= chunk_count c <= 5461.
Proof.
  intros H. split; [by apply lookup_lt_Some in H|]. apply list_elem_of_lookup_2 in H. revert H. unfold chunk_count, chunk_total. generalize (size c). intros z Hz.
  assert (Forall (fun z => bool_decide (8 <= z <= 1024 /\ 16 <= (let page_size := if decide (sizeof_chunk + z > 65536 / 2) then 262144 else 65536 in
    let count := page_size / (sizeof_chunk + z) in if decide (count < 16) then 16 else count) <= 5461) = true) class_sizes) as Hf
    by (repeat constructor).
  rewrite Forall_forall in Hf. apply Hf in Hz. by apply bool_decide_eq_true in Hz.
Qed.

Section Struct.

Context {s : kvs_mem_state_t} {live : gmap Z block} (I : struct s live).

Lemma placed_bounds i c pg : placed s i c pg -> (i < 19)%nat /\ 8 <= size c <= 1024 /\ 16 <= chunk_count c <= 5461 /\ page_ok c pg.
Proof.
  intros [Hc Hp]. destruct (class_bounds i c) as (? & ? & ?); [by apply (i_class _ _ I)|]. split_and!; try lia.
  by apply (i_class _ _ I i).
Qed.
Lemma placed_region i c pg : placed s i c pg -> region s (TPage i) (p_mem pg) (p_size pg).
Proof. intros H. by exists c, pg. Qed.
(** A page is known by its address. *)
Lemma placed_inj i c pg i' c' pg' : placed s i c pg -> placed s i' c' pg' -> p_mem pg = p_mem pg' -> i = i' /\ c = c' /\ pg = pg'.
Proof.
  intros H H' He. pose proof (i_apart _ _ I _ _ _ _ _ _ (placed_region _ _ _ H) (placed_region _ _ _ H')) as Ha.
  pose proof (i_space _ _ I _ _ _ (placed_region _ _ _ H)). pose proof (i_space _ _ I _ _ _ (placed_region _ _ _ H')).
  unfold sizeof_hdr in *. destruct Ha as [[[= <-] _]|[?|?]]; [|lia|lia]. destruct H as [Hc Hp], H' as [Hc' Hp']. assert (c = c') as <- by congruence.
  split_and!; [done|done|]. pose proof (co_nodup _ _ (i_class _ _ I i c Hc)) as Hd.
  apply list_elem_of_lookup in Hp as [j Hj]. apply list_elem_of_lookup in Hp' as [j' Hj'].
  assert (j = j') as <-; [|congruence]. apply (NoDup_lookup _ _ _ (p_mem pg) Hd); rewrite map_lookup; [by rewrite Hj|by rewrite Hj', He].
Qed.

(** The chunk [ci] of a page lies in it. *)
Lemma chunk_inside i c pg ci : placed s i c pg -> 0 <= ci < chunk_count c ->
  p_mem pg <= p_mem pg + ci * chunk_total c /\ p_mem pg + ci * chunk_total c + chunk_total c <= p_mem pg + p_size pg.
Proof.
  intros H Hci. destruct (placed_bounds _ _ _ H) as (_ & Hs & _ & Ho). rewrite (po_size _ _ Ho). unfold chunk_total, sizeof_chunk. nia.
Qed.
(** A chunk is known by its address. *)
Lemma chunk_inj i c pg ci i' c' pg' ci' d d' : placed s i c pg -> 0 <= ci < chunk_count c -> placed s i' c' pg' -> 0 <= ci' < chunk_count c' ->
  0 <= d < chunk_total c -> 0 <= d' < chunk_total c' ->
  p_mem pg + ci * chunk_total c + d = p_mem pg' + ci' * chunk_total c' + d' -> i = i' /\ c = c' /\ pg = pg' /\ ci = ci' /\ d = d'.
Proof.
  intros H Hci H' Hci' Hd Hd' He. pose proof (chunk_inside _ _ _ _ H Hci). pose proof (chunk_inside _ _ _ _ H' Hci').
  assert (p_mem pg = p_mem pg') as Hm.
  { destruct (i_apart _ _ I _ _ _ _ _ _ (placed_region _ _ _ H) (placed_region _ _ _ H')) as [[_ ?]|[?|?]]; lia. }
  destruct (placed_inj _ _ _ _ _ _ H H' Hm) as (<- & <- & <-).
  assert (ci = ci') as <-; [|split_and!; try done; lia]. destruct (Z.lt_trichotomy ci ci') as [?|[?|?]]; [exfalso|done|exfalso]; nia.
Qed.

(** Where a block and its header lie. *)
Lemma owns_region p b : live !! p = Some b -> exists t a n, region s t a n /\ a <= p - b_hdr b /\ p + b_cap b <= a + n /\
  match t with TPage i => b_kind b = KSmall | TLarge => b_kind b = KLarge /\ a = p - b_hdr b | TFallback => b_kind b = KFallback /\ a = p - b_hdr b end.
Proof.
  intros H. apply (i_live _ _ I) in H. unfold owns, b_hdr in *. destruct (b_kind b) eqn:E.
  - destruct H as (i & c & pg & ci & Hp & Hci & _ & -> & _ & -> & _). exists (TPage i), (p_mem pg), (p_size pg).
    pose proof (chunk_inside _ _ _ _ Hp Hci). unfold chunk_total in *. split_and!; [by apply placed_region with c|lia|lia|done].
  - destruct H as (H & ->). exists TLarge, (p - sizeof_hdr), (b_map b). split_and!; [by eexists|lia|lia|done|done].
  - destruct H as (H & -> & _). exists TFallback, (p - sizeof_hdr), (sizeof_hdr + b_req b). split_and!; [by eexists|lia|lia|done|done].
Qed.

(** Two blocks in use share no byte, not even of their headers. *)
Lemma live_apart p b p' b' : live !! p = Some b -> live !! p' = Some b' -> p <> p' ->
  p + b_cap b <= p' - b_hdr b' \/ p' + b_cap b' <= p - b_hdr b.
Proof.
  intros H H' Hne. destruct (owns_region p b H) as (t & a & n & Hr & Ha & Hb & Hk). destruct (owns_region p' b' H') as (t' & a' & n' & Hr' & Ha' & Hb' & Hk').
  destruct (i_apart _ _ I _ _ _ _ _ _ Hr Hr') as [[<- <-]|[?|?]]; [|lia|lia].
  destruct t as [i| |].
  - apply (i_live _ _ I) in H, H'. unfold owns in H, H'. unfold b_hdr. rewrite Hk in *. rewrite Hk' in *.
    destruct H as (i1 & c1 & pg1 & ci1 & Hp1 & Hci1 & _ & -> & _ & -> & _). destruct H' as (i2 & c2 & pg2 & ci2 & Hp2 & Hci2 & _ & -> & _ & -> & _).
    pose proof (placed_bounds _ _ _ Hp1). pose proof (placed_bounds _ _ _ Hp2).
    destruct (decide (p_mem pg1 = p_mem pg2)) as [Hm|Hm].
    + destruct (placed_inj _ _ _ _ _ _ Hp1 Hp2 Hm) as (<- & <- & <-). unfold chunk_total, sizeof_chunk in *. assert (ci1 <> ci2) by congruence. nia.
    + pose proof (chunk_inside _ _ _ _ Hp1 Hci1). pose proof (chunk_inside _ _ _ _ Hp2 Hci2). unfold chunk_total in *.
      destruct (i_apart _ _ I _ _ _ _ _ _ (placed_region _ _ _ Hp1) (placed_region _ _ _ Hp2)) as [[_ ?]|[?|?]]; lia.
  - destruct Hk as [Hk1 Hk2], Hk' as [Hk1' Hk2']. unfold b_hdr in *. rewrite Hk1, Hk1' in *. lia.
  - destruct Hk as [Hk1 Hk2], Hk' as [Hk1' Hk2']. unfold b_hdr in *. rewrite Hk1, Hk1' in *. lia.
Qed.

(** All blocks in use fit the address space. *)
Lemma foot_bound : sumf foot live <= TOP.
Proof.
  assert (forall m, m ⊆ live -> sumf foot m = total (map snd (map (fun pb => (pb.1 - b_hdr pb.2, foot pb.2)) (map_to_list m)))) as Hsum.
  { intros m _. unfold sumf. rewrite map_fold_foldr. induction (map_to_list m) as [|[p b] l IH]; cbn; [done|]. by rewrite IH. }
  rewrite (Hsum live) by done. apply intervals_bound; [| |unfold TOP; lia].
  - assert (forall pb, pb ∈ map_to_list live -> live !! pb.1 = Some pb.2) as Hl by (intros [p b] Hin; by apply elem_of_map_to_list in Hin).
    pose proof (NoDup_fst_map_to_list live) as Hd. revert Hl Hd. induction (map_to_list live) as [|[p b] l IH]; intros Hl Hd; cbn; [constructor|].
    cbn in Hd. apply NoDup_cons in Hd as [Hp Hd]. apply NoDup_app. split_and!.
    + apply NoDup_seqZ.
    + intros x Hx Hin. apply elem_of_concat in Hin as (k & Hk & Hin). rewrite map_map in Hin. apply list_elem_of_fmap in Hin as ([p' b'] & -> & Hin).
      cbn in Hk. rewrite elem_of_seqZ in Hx, Hk. unfold foot in *.
      assert (p <> p') as Hne. { intros <-. apply Hp. apply list_elem_of_fmap. by exists (p, b'). }
      destruct (live_apart p b p' b') as [?|?]; [apply (Hl (p, b)); left|apply (Hl (p', b')); by right|done|lia|lia].
    + apply IH; [|done]. intros pb Hin. apply Hl. by right.
  - apply Forall_map, Forall_forall. intros [p b] Hin. apply elem_of_map_to_list in Hin. cbn. unfold foot.
    destruct (owns_region p b Hin) as (t & a & n & Hr & ? & ? & _). pose proof (i_space _ _ I _ _ _ Hr). pose proof (i_req _ _ I _ _ Hin).
    unfold b_hdr, sizeof_chunk, sizeof_hdr in *. destruct (b_kind b); lia.
Qed.

End Struct.

(** *** Changing a page *)

(** Only the size of the class matters. *)
Lemma count_size c c' : size c' = size c -> chunk_count c' = chunk_count c /\ chunk_total c' = chunk_total c.
Proof. intros H. unfold chunk_count, chunk_total. by rewrite H. Qed.
Lemma page_ok_size c c' pg : size c' = size c -> page_ok c pg -> page_ok c' pg.
Proof. intros H [O1 O2 O3 O4 O5 O6 O7]. destruct (count_size c c' H) as [E1 E2]. split; rewrite ?E1, ?E2; done. Qed.

Lemma set_page_elem c pg pg' q : NoDup (map p_mem (pages c)) -> pg ∈ pages c -> p_mem pg' = p_mem pg ->
  q ∈ pages (set_page pg' c) <-> q = pg' \/ (q ∈ pages c /\ p_mem q <> p_mem pg).
Proof.
  intros Hd Hp Hm. cbn. rewrite Hm. setoid_rewrite list_elem_of_fmap. split.
  - intros (x & -> & Hx). case_decide; [by left|by right].
  - intros [->|[Hq Hne]].
    + exists pg. by rewrite decide_True.
    + exists q. by rewrite decide_False.
Qed.
Lemma set_page_map {A} (f : slab_page_t -> A) c pg pg' : NoDup (map p_mem (pages c)) -> pg ∈ pages c -> p_mem pg' = p_mem pg ->
  f pg' = f pg -> map f (pages (set_page pg' c)) = map f (pages c).
Proof.
  intros Hd Hp Hm Hf. cbn. rewrite Hm, map_map. apply list_elem_of_lookup in Hp as [j Hj].
  apply list_eq. intros k. rewrite !map_lookup. destruct (pages c !! k) as [q|] eqn:Hk; [|done]. cbn. f_equal.
  case_decide as He; [|done]. assert (j = k) as <-; [|congruence].
  apply (NoDup_lookup _ _ _ (p_mem pg) Hd); rewrite map_lookup; [by rewrite Hj|by rewrite Hk; cbn; rewrite He].
Qed.

(** The state with another class at [i]. *)
Lemma placed_set s s' i c c' j c1 q : classes s !! i = Some c -> classes s' = <[i := c']> (classes s) ->
  placed s' j c1 q <-> (j <> i /\ placed s j c1 q) \/ (j = i /\ c1 = c' /\ q ∈ pages c').
Proof.
  intros Hc Hs. unfold placed. rewrite Hs. destruct (decide (j = i)) as [->|Hne].
  - rewrite list_lookup_insert_eq by (by eapply lookup_lt_Some). split; [intros [[= <-] ?]; tauto|]. intros [[? _]|(_ & -> & ?)]; done.
  - rewrite list_lookup_insert_ne by done. split; [tauto|]. intros [[_ ?]|[? _]]; done.
Qed.

(** No 24-byte header lies before a chunk's block. *)
Lemma chunk_no_hdr s live i c pg ci : struct s live -> placed s i c pg -> 0 <= ci < chunk_count c ->
  larges s !! (p_mem pg + ci * chunk_total c + sizeof_chunk - sizeof_hdr) = None /\
  fallbacks s !! (p_mem pg + ci * chunk_total c + sizeof_chunk - sizeof_hdr) = None.
Proof.
  intros I H Hci. pose proof (chunk_inside I _ _ _ _ H Hci) as Hin. destruct (placed_bounds I _ _ _ H) as (_ & Hs & _).
  set (p := p_mem pg + ci * chunk_total c + sizeof_chunk).
  assert (forall t a n, region s t a n -> t <> TPage i -> a <= p < a + n -> False) as Ha.
  { intros t a n Hr Ht Hp. destruct (i_apart _ _ I _ _ _ _ _ _ Hr (placed_region i c pg H)) as [[? _]|[?|?]];
      [done| |]; unfold p, chunk_total, sizeof_chunk in *; lia. }
  split.
  - destruct (larges s !! (p - sizeof_hdr)) as [h|] eqn:E; [|done]. exfalso. assert (region s TLarge (p - sizeof_hdr) (h_size h)) as Hr by (by exists h).
    apply (Ha _ _ _ Hr); [done|]. pose proof (i_space _ _ I _ _ _ Hr). unfold sizeof_hdr in *. lia.
  - destruct (fallbacks s !! (p - sizeof_hdr)) as [h|] eqn:E; [|done]. exfalso. assert (region s TFallback (p - sizeof_hdr) (h_size h)) as Hr by (by exists h).
    apply (Ha _ _ _ Hr); [done|]. pose proof (i_space _ _ I _ _ _ Hr). unfold sizeof_hdr in *. lia.
Qed.

(** A page changes its free chunks, headers keep their kind. *)
Section Swap.

Context {s : kvs_mem_state_t} {live : gmap Z block} (I : struct s live).
Context {i : nat} {c : small_class_t} {pg : slab_page_t} (Hpg : placed s i c pg).
Context {pg' : slab_page_t} (Hmem : p_mem pg' = p_mem pg) (Hsize : p_size pg' = p_size pg) (Htot : chunks_total pg' = chunks_total pg).
Context {s' : kvs_mem_state_t} (Hcs : classes s' = <[i := set_page pg' c]> (classes s)).

Lemma swap_placed j c1 q : placed s' j c1 q <->
  (j <> i /\ placed s j c1 q) \/ (j = i /\ c1 = set_page pg' c /\ (q = pg' \/ (q ∈ pages c /\ p_mem q <> p_mem pg))).
Proof.
  destruct Hpg as [Hc Hp]. rewrite (placed_set s s' i c _ j c1 q Hc Hcs). rewrite set_page_elem; [done| |done|done].
  apply (i_class _ _ I i c Hc).
Qed.
(** The same pages are there, with the same sizes. *)
Lemma swap_sim j c1 q : placed s' j c1 q -> exists c2 q2, placed s j c2 q2 /\ p_mem q = p_mem q2 /\ p_size q = p_size q2 /\ size c1 = size c2.
Proof.
  intros H. apply swap_placed in H as [[_ H]|(-> & -> & [->|[Hq _]])]; [by exists c1, q|by exists c, pg|].
  exists c, q. split; [|done]. split; [apply Hpg|done].
Qed.
Lemma swap_sim_back j c2 q2 : placed s j c2 q2 -> exists c1 q, placed s' j c1 q /\ p_mem q = p_mem q2 /\ p_size q = p_size q2 /\ size c1 = size c2.
Proof.
  intros H. destruct (decide (j = i)) as [->|Hne].
  - destruct H as [Hc2 Hq2]. destruct Hpg as [Hc Hp]. assert (c2 = c) as -> by congruence. destruct (decide (p_mem q2 = p_mem pg)) as [He|He].
    + exists (set_page pg' c), pg'. destruct (placed_inj I i c q2 i c pg) as (_ & _ & ->); [by split|by split|done|]. rewrite swap_placed. split; [|done]. right. auto.
    + exists (set_page pg' c), q2. rewrite swap_placed. split; [|done]. right. auto 6.
  - exists c2, q2. rewrite swap_placed. split; [by left|done].
Qed.

Context (Hok : page_ok c pg') (Hlarges : larges s' = larges s) (Hfallbacks : fallbacks s' = fallbacks s).
Context (Hchunks : forall a, option_map (fun h => (magic h, class_idx h)) (chunks s' !! a) = option_map (fun h => (magic h, class_idx h)) (chunks s !! a)).

Lemma swap_region t a n : region s' t a n <-> region s t a n.
Proof.
  destruct t; cbn; rewrite ?Hlarges, ?Hfallbacks; [|done|done]. split.
  - intros (c1 & q & H & -> & ->). destruct (swap_sim _ _ _ H) as (c2 & q2 & H2 & -> & -> & _). by exists c2, q2.
  - intros (c2 & q2 & H & -> & ->). destruct (swap_sim_back _ _ _ H) as (c1 & q & H1 & <- & <- & _). by exists c1, q.
Qed.

Lemma swap_class : class_ok i (set_page pg' c).
Proof.
  destruct Hpg as [Hc Hp]. pose proof (i_class _ _ I i c Hc) as Ho. pose proof (co_nodup _ _ Ho) as Hd. destruct Ho as [O1 O2 O3 O4 O5 O6 O7].
  split.
  - done.
  - by rewrite (set_page_map p_mem c pg pg') by done.
  - intros a Ha. rewrite (set_page_map p_mem c pg pg') by done. by apply O3.
  - intros q Hq. apply (set_page_elem c pg pg' q Hd Hp Hmem) in Hq as [->|[Hq _]]; [by apply (page_ok_size c)|by apply (page_ok_size c); [|apply O4]].
  - cbn. rewrite length_map. done.
  - rewrite (set_page_map p_size c pg pg') by done. done.
  - rewrite (set_page_map chunks_total c pg pg') by done. done.
Qed.

Lemma swap_struct live' : (forall p b, live' !! p = Some b <-> owns s' p b) -> (forall p b, live' !! p = Some b -> 0 < b_req b <= b_cap b) ->
  struct s' live'.
Proof.
  intros Hlive Hreq. destruct Hpg as [Hc Hp]. split; [| | | | | | | |exact Hlive|exact Hreq].
  - rewrite Hcs, length_insert. apply I.
  - intros j c1. rewrite Hcs. destruct (decide (j = i)) as [->|Hne].
    + rewrite list_lookup_insert_eq by (by eapply lookup_lt_Some). intros [= <-]. apply swap_class.
    + rewrite list_lookup_insert_ne by done. apply (i_class _ _ I).
  - intros t a n Hr. apply swap_region in Hr. by apply (i_space _ _ I t).
  - intros t a n t' a' n' Hr Hr'. apply swap_region in Hr, Hr'. by apply (i_apart _ _ I).
  - intros j c1 q ci Hq Hci. destruct (swap_sim _ _ _ Hq) as (c2 & q2 & H2 & -> & _ & Hsz).
    unfold chunk_count, chunk_total in *. rewrite Hsz in *. destruct (i_chunk _ _ I j c2 q2 ci H2 Hci) as [r Hr]. unfold chunk_total in Hr.
    pose proof (Hchunks (p_mem q2 + ci * (sizeof_chunk + size c2))) as He. rewrite Hr in He. cbn in He.
    destruct (chunks s' !! _) as [[r' m' k']|]; [|done]. cbn in He. injection He as -> ->. by exists r'.
  - intros a h Ha. pose proof (Hchunks a) as He. rewrite Ha in He. destruct (chunks s !! a) as [h0|] eqn:Ha0; [|done].
    destruct (i_only _ _ I a h0 Ha0) as (j & c2 & q2 & ci & H2 & Hci & ->). destruct (swap_sim_back _ _ _ H2) as (c1 & q & H1 & Hm & _ & Hsz).
    exists j, c1, q, ci. unfold chunk_count, chunk_total in *. rewrite Hsz, Hm. done.
  - rewrite Hlarges. apply I.
  - rewrite Hfallbacks. apply I.
Qed.

(** Only the chunk [ci] of the page changes hands. *)
Context {ci : Z} (Hci : 0 <= ci < chunk_count c).
Let ch : Z := p_mem pg + ci * chunk_total c.
Context (Hothers : forall a, a <> ch -> chunks s' !! a = chunks s !! a).
Context (Hfree : forall k, k <> ci -> k ∈ free_list pg' <-> k ∈ free_list pg).

Lemma swap_owns q b : q <> ch + sizeof_chunk -> owns s' q b <-> owns s q b.
Proof.
  intros Hne. unfold owns. rewrite Hlarges, Hfallbacks. destruct (b_kind b); [|done|done]. split.
  - intros (j & c1 & q1 & k & H & Hk & Hn & -> & Hh & Hb). assert (p_mem q1 + k * chunk_total c1 <> ch) as Hne' by lia.
    rewrite Hothers in Hh by done. apply swap_placed in H as [[Hj H]|(-> & -> & [->|[Hq Hm]])].
    + by exists j, c1, q1, k.
    + exists i, c, pg, k. rewrite Hmem in *. rewrite Hfree in Hn; [split_and!; first [done|apply Hpg|apply Hk|apply Hb]|]. intros ->. by apply Hne'.
    + exists i, c, q1, k. split_and!; first [done|apply Hk|apply Hb|split; [apply Hpg|done]].
  - intros (j & c1 & q1 & k & H & Hk & Hn & -> & Hh & Hb). assert (p_mem q1 + k * chunk_total c1 <> ch) as Hne' by lia.
    rewrite <- Hothers in Hh by done. destruct (decide (j = i)) as [->|Hj].
    + destruct H as [Hc1 Hq1]. destruct Hpg as [Hc Hp]. assert (c1 = c) as -> by congruence. destruct (decide (p_mem q1 = p_mem pg)) as [He|He].
      * destruct (placed_inj I i c q1 i c pg) as (_ & _ & ->); [by split|by split|done|].
        exists i, (set_page pg' c), pg', k. rewrite swap_placed, Hmem. rewrite <- Hfree in Hn; [split_and!; first [done|apply Hk|apply Hb|by auto 6]|]. intros ->. by apply Hne'.
      * exists i, (set_page pg' c), q1, k. rewrite swap_placed. split_and!; first [done|apply Hk|apply Hb|by auto 6].
    + exists j, c1, q1, k. rewrite swap_placed. split_and!; first [done|apply Hk|apply Hb|by auto 6].
Qed.
Lemma swap_owns_at b : owns s' (ch + sizeof_chunk) b <->
  b_kind b = KSmall /\ ci ∉ free_list pg' /\ chunks s' !! ch = Some (Chunk (b_req b) CHUNK_MAGIC (Z.of_nat i)) /\ b_cap b = size c /\ b_map b = 0.
Proof.
  unfold owns. destruct (chunk_no_hdr s live i c pg ci I Hpg Hci) as [N1 N2]. fold ch in N1, N2. rewrite Hlarges, Hfallbacks, N1, N2.
  destruct (b_kind b); [|split; [intros [? _]|intros [? _]]; done..]. split.
  - intros (j & c1 & q1 & k & H & Hk & Hn & He & Hh & Hb). destruct (swap_sim _ _ _ H) as (c2 & q2 & H2 & Hm2 & _ & Hs2).
    destruct (count_size c2 c1 Hs2) as [Ec Et]. rewrite Hm2, Ec, Et in *. destruct (placed_bounds I _ _ _ H2) as (_ & ? & _).
    destruct (placed_bounds I _ _ _ Hpg) as (_ & ? & _).
    destruct (chunk_inj I i c pg ci j c2 q2 k 0 0) as (<- & <- & <- & <- & _); try done; try (unfold ch, chunk_total, sizeof_chunk in *; lia).
    apply swap_placed in H as [[? _]|(_ & -> & [->|[_ ?]])]; [done| |done]. split_and!; try done; apply Hb.
  - intros (_ & Hn & Hh & Hb). exists i, (set_page pg' c), pg', ci. rewrite swap_placed, Hmem. split_and!; first [done|apply Hci|apply Hb|by auto 6].
Qed.

End Swap.

(** *** Handing out a chunk *)

Lemma u16_small z : 0 <= z < 2 ^ 16 -> u16 z = z.
Proof. intros H. unfold u16. by apply Z.mod_small. Qed.

(** The chunk on top of the free stack. *)
Lemma free_top_chunk c pg : page_ok c pg -> (0 < free_top pg)%nat ->
  exists ci, free_stack pg !! (free_top pg - 1)%nat = Some ci /\ 0 <= ci < chunk_count c /\
    free_list pg = take (free_top pg - 1) (free_stack pg) ++ [ci] /\ ci ∉ take (free_top pg - 1) (free_stack pg).
Proof.
  intros O Ht. destruct O as [_ _ _ _ O5 O6 O7]. destruct (lookup_lt_is_Some_2 (free_stack pg) (free_top pg - 1)) as [ci Hci]; [lia|].
  assert (free_list pg = take (free_top pg - 1) (free_stack pg) ++ [ci]) as He.
  { unfold free_list. replace (free_top pg) with (S (free_top pg - 1)) at 1 by lia. by apply take_S_r. }
  rewrite He in O6, O7. apply Forall_app in O7 as [_ O7]. rewrite Forall_singleton in O7. apply NoDup_app in O6 as (_ & O6 & _).
  exists ci. split_and!; [done|lia|lia|done|]. intros Hin. apply (O6 ci Hin). by left.
Qed.

Lemma take_page_ok c pg : page_ok c pg -> (0 < free_top pg)%nat ->
  page_ok c (pg <| free_top := (free_top pg - 1)%nat |> <| chunks_in_use ::= fun n => n + 1 |>).
Proof.
  intros O Ht. destruct (free_top_chunk c pg O Ht) as (ci & _ & _ & He & _). destruct O as [O1 O2 O3 O4 O5 O6 O7].
  rewrite He in O6, O7. apply NoDup_app in O6 as (O6 & _). apply Forall_app in O7 as [O7 _]. split; cbn; try done; lia.
Qed.

Lemma take_chunk_run s live i c pg sz : struct s live -> placed s i c pg -> (0 < free_top pg)%nat -> 0 < sz <= size c ->
  exists p s', take_chunk i pg sz s = Some (p, s') /\ 0 < p /\ live !! p = None /\
    struct s' (<[p := Block KSmall sz (size c) 0]> live) /\
    cnt s' = account_small_alloc sz (size c) (cnt s) /\ data s' = data s /\ backend s' = backend s /\ initialized s' = initialized s /\
    (exists pg', classes s' = <[i := set_page pg' c]> (classes s) /\ p_mem pg' = p_mem pg /\ p_size pg' = p_size pg).
Proof.
  intros I Hpg Ht Hsz. destruct (placed_bounds I _ _ _ Hpg) as (Hi & Hs & Hn & O). destruct (free_top_chunk c pg O Ht) as (ci & Hci & Hr & Hfl & Hnin).
  destruct (i_chunk _ _ I i c pg ci Hpg Hr) as [r0 Hch]. set (pg' := pg <| free_top := (free_top pg - 1)%nat |> <| chunks_in_use ::= fun n => n + 1 |>).
  pose proof (chunk_inside I _ _ _ _ Hpg Hr) as Hin. pose proof (i_space _ _ I _ _ _ (placed_region i c pg Hpg)) as Hsp.
  unfold take_chunk. destruct Hpg as [Hc Hp]. pose proof (conj Hc Hp : placed s i c pg) as Hpg. rewrite Hc. cbn [mbind option_bind]. rewrite Hci. cbn [mbind option_bind]. rewrite Hch. cbn [mbind option_bind].
  fold pg'. set (ch := p_mem pg + ci * chunk_total c) in *. set (p := ch + sizeof_chunk). rewrite u16_small by lia. cbn [magic class_idx].
  eexists p, _. split; [done|]. set (s' := upd cnt _ _). assert (classes s' = <[i := set_page pg' c]> (classes s)) as Hcs by done.
  assert (chunks s' = <[ch := Chunk sz CHUNK_MAGIC (Z.of_nat i)]> (chunks s)) as Hchs by done.
  assert (live !! p = None) as Hfresh.
  { destruct (live !! p) as [b|] eqn:Hb; [|done]. exfalso. apply (i_live _ _ I) in Hb. unfold owns in Hb. destruct (chunk_no_hdr s live i c pg ci I Hpg Hr) as [N1 N2].
    fold ch in N1, N2. fold p in N1, N2. destruct (b_kind b); [|by destruct Hb as [Hb _]; rewrite N1 in Hb|by destruct Hb as [Hb _]; rewrite N2 in Hb].
    destruct Hb as (i2 & c2 & pg2 & ci2 & H2 & Hr2 & Hn2 & He & _). destruct (placed_bounds I _ _ _ H2) as (_ & ? & _).
    destruct (chunk_inj I i c pg ci i2 c2 pg2 ci2 0 0) as (_ & _ & <- & <- & _); try done; try (unfold chunk_total, sizeof_chunk in *; lia).
    apply Hn2. rewrite Hfl. apply elem_of_app. right. by left. }
  split_and!; [unfold p, ch, sizeof_chunk; lia|done| |done..|].
  2: { exists pg'. by split_and!. }
  apply (swap_struct I Hpg (pg' := pg')); try done.
  - by apply take_page_ok.
  - intros a. rewrite Hchs. destruct (decide (a = ch)) as [->|Hne]; [rewrite lookup_insert_eq, Hch|rewrite lookup_insert_ne by done]; done.
  - assert (forall k, k <> ci -> k ∈ free_list pg' <-> k ∈ free_list pg) as Hfree.
    { intros k Hk. rewrite Hfl. unfold free_list, pg'. cbn. rewrite elem_of_app, list_elem_of_singleton. tauto. }
    assert (forall a, a <> ch -> chunks s' !! a = chunks s !! a) as Hoth by (intros a Ha; rewrite Hchs; by apply lookup_insert_ne).
    intros q b. destruct (decide (q = p)) as [->|Hne].
    + rewrite lookup_insert_eq. unfold p, ch. rewrite (swap_owns_at I Hpg (pg' := pg') eq_refl eq_refl Hcs eq_refl eq_refl Hr). fold ch.
      rewrite Hchs, lookup_insert_eq. split; [by intros [= <-]|]. intros (H1 & H2 & [= ->] & H3 & H4). destruct b; cbn in *. congruence.
    + rewrite lookup_insert_ne by done. rewrite (swap_owns I Hpg (pg' := pg') eq_refl Hcs eq_refl eq_refl (ci := ci) Hoth Hfree) by done. apply (i_live _ _ I).
  - intros q b Hb. destruct (decide (q = p)) as [->|Hne]; [rewrite lookup_insert_eq in Hb; injection Hb as <-; done|].
    rewrite lookup_insert_ne in Hb by done. by apply (i_req _ _ I q).
Qed.

(** *** A new page *)

(** The system hands out memory that is not in use. *)
Definition unused (s : kvs_mem_state_t) (a n : Z) : Prop :=
  0 < n /\ 0 < a /\ a + n <= TOP /\ forall t b m, region s t b m -> a + n <= b \/ b + m <= a.
Record honest (e : env) (s : kvs_mem_state_t) : Prop := {
  h_mmap : forall n, mmap e n <> 0 -> unused s (mmap e n) n;
  h_malloc : forall n, malloc e n <> 0 -> unused s (malloc e n) n;
  h_pagesz : 0 <= pagesz e < 2 ^ 32;
}.

Lemma fresh_in a ct i n k : (i < 19)%nat -> 0 < ct -> 0 <= k < n -> fresh_chunks a ct (Z.of_nat i) n !! (a + k * ct) = Some (Chunk 0 CHUNK_MAGIC (Z.of_nat i)).
Proof.
  intros Hi Hct Hk. unfold fresh_chunks. apply elem_of_list_to_map_1.
  - rewrite <- list_fmap_compose. apply NoDup_fmap_2_strong; [|apply NoDup_seqZ]. intros x y _ _. cbn. nia.
  - apply list_elem_of_fmap. exists k. split; [|apply elem_of_seqZ; lia]. do 2 f_equal. unfold u8. rewrite Z.mod_small; lia.
Qed.
Lemma fresh_only a ct i n x h : fresh_chunks a ct i n !! x = Some h -> exists k, x = a + k * ct /\ 0 <= k < n.
Proof.
  intros H. apply elem_of_list_to_map_2, list_elem_of_fmap in H as (k & [= -> _] & Hk). exists k. apply elem_of_seqZ in Hk. split; [done|lia].
Qed.

Lemma new_page_ok c a : 16 <= chunk_count c <= 5461 ->
  page_ok c (Page a (chunk_total c * chunk_count c) (chunk_count c) 0 (map u16 (seqZ 0 (chunk_count c))) (Z.to_nat (chunk_count c))).
Proof.
  intros H. assert (map u16 (seqZ 0 (chunk_count c)) = seqZ 0 (chunk_count c)) as ->.
  { rewrite <- (map_id (seqZ 0 (chunk_count c))) at 2. apply map_ext_in. intros k Hk. apply list_elem_of_In, elem_of_seqZ in Hk. apply u16_small. lia. }
  split; unfold free_list; cbn; try done; rewrite ?length_seqZ; try lia; rewrite take_ge by (rewrite length_seqZ; lia).
  - apply NoDup_seqZ.
  - apply Forall_forall. intros k Hk. apply elem_of_seqZ in Hk. lia.
Qed.

Section Grow.

Context {s : kvs_mem_state_t} {live : gmap Z block} (I : struct s live) {i : nat} {c : small_class_t} (Hc : classes s !! i = Some c).
Context {pg : slab_page_t} (Ho : page_ok c pg) (Hall : forall k, 0 <= k < chunk_count c -> k ∈ free_list pg) (Hnew : unused s (p_mem pg) (p_size pg)).
Context {c' : small_class_t} (Hs : size c' = size c) (Hp : pages c' = pg :: pages c) (Hok : class_ok i c').
Context {s' : kvs_mem_state_t} (Hcs : classes s' = <[i := c']> (classes s)) (Hlarges : larges s' = larges s) (Hfallbacks : fallbacks s' = fallbacks s).
Context (Hch : chunks s' = fresh_chunks (p_mem pg) (chunk_total c) (Z.of_nat i) (chunk_count c) ∪ chunks s).

Lemma grow_placed j c1 q : placed s' j c1 q <-> (j <> i /\ placed s j c1 q) \/ (j = i /\ c1 = c' /\ (q = pg \/ placed s i c q)).
Proof.
  rewrite (placed_set s s' i c c' j c1 q Hc Hcs), Hp. unfold placed. rewrite elem_of_cons. naive_solver.
Qed.
Lemma grow_region t a n : region s' t a n <-> region s t a n \/ (t = TPage i /\ a = p_mem pg /\ n = p_size pg).
Proof.
  destruct t as [j| |]; cbn; rewrite ?Hlarges, ?Hfallbacks; [|split; [by left|by intros [?|[? _]]]..]. split.
  - intros (c1 & q & H & -> & ->). apply grow_placed in H as [[_ H]|(-> & -> & [->|H])]; [left; by exists c1, q|by right|left; by exists c, q].
  - intros [(c1 & q & H & -> & ->)|(Hj & -> & ->)].
    + destruct (decide (j = i)) as [->|Hne]; [|exists c1, q; split; [apply grow_placed; by left|done]].
      assert (c1 = c) as -> by (destruct H; congruence). exists c', q. split; [apply grow_placed; by auto 6|done].
    + injection Hj as ->. exists c', pg. split; [apply grow_placed; by auto|done].
Qed.
Lemma grow_old j c1 q k : placed s j c1 q -> 0 <= k < chunk_count c1 -> chunks s' !! (p_mem q + k * chunk_total c1) = chunks s !! (p_mem q + k * chunk_total c1).
Proof.
  intros H Hk. rewrite Hch. destruct (fresh_chunks (p_mem pg) (chunk_total c) (Z.of_nat i) (chunk_count c) !! (p_mem q + k * chunk_total c1)) as [h|] eqn:E;
    [|by apply lookup_union_r]. exfalso.
  apply fresh_only in E as (k' & He & Hk'). pose proof (chunk_inside I _ _ _ _ H Hk). destruct Hnew as (_ & _ & _ & Hn).
  destruct (placed_bounds I _ _ _ H) as (_ & ? & _). destruct (class_bounds i c) as (_ & ? & _); [by apply (i_class _ _ I)|].
  pose proof (po_size _ _ Ho) as Hsz. unfold chunk_total, sizeof_chunk in *. destruct (Hn _ _ _ (placed_region _ _ _ H)) as [?|?]; nia.
Qed.

Lemma grow_struct : struct s' live.
Proof.
  pose proof (i_class _ _ I i c Hc) as Hco. destruct (class_bounds i c (co_size _ _ Hco)) as (Hi & Hb & Hn). destruct (count_size c c' Hs) as [Ec Et].
  split; [| | | | | | | | |apply (i_req _ _ I)].
  - rewrite Hcs, length_insert. apply I.
  - intros j c1. rewrite Hcs. destruct (decide (j = i)) as [->|Hne].
    + rewrite list_lookup_insert_eq by (by eapply lookup_lt_Some). by intros [= <-].
    + rewrite list_lookup_insert_ne by done. apply (i_class _ _ I).
  - intros t a n Hr. apply grow_region in Hr as [Hr|(_ & -> & ->)]; [by apply (i_space _ _ I t)|]. destruct Hnew as (_ & ? & ? & _).
    split_and!; [done| |done]. rewrite (po_size _ _ Ho). unfold chunk_total, sizeof_chunk, sizeof_hdr. nia.
  - intros t a n t' a' n' Hr Hr'. destruct Hnew as (_ & _ & _ & Hd). apply grow_region in Hr as [Hr|(-> & -> & ->)], Hr' as [Hr'|(-> & -> & ->)].
    + by apply (i_apart _ _ I).
    + destruct (Hd _ _ _ Hr); auto.
    + destruct (Hd _ _ _ Hr'); auto.
    + by left.
  - intros j c1 q k H Hk. apply grow_placed in H as [[_ H]|(-> & -> & [->|H])].
    + rewrite (grow_old _ _ _ _ H Hk). by apply (i_chunk _ _ I).
    + exists 0. rewrite Ec, Et in *. rewrite Hch. apply lookup_union_Some_l, fresh_in; [done|unfold chunk_total, sizeof_chunk; lia|done].
    + rewrite Ec, Et in *. rewrite (grow_old _ _ _ _ H Hk). by apply (i_chunk _ _ I).
  - intros a h Ha. rewrite Hch in Ha. apply lookup_union_Some_raw in Ha as [Ha|[_ Ha]].
    + apply fresh_only in Ha as (k & -> & Hk). exists i, c', pg, k. rewrite Ec, Et, grow_placed. split_and!; [auto|lia|lia|done].
    + destruct (i_only _ _ I a h Ha) as (j & c1 & q & k & H & Hk & ->). destruct (decide (j = i)) as [->|Hne].
      * assert (c1 = c) as -> by (destruct H; congruence). exists i, c', q, k. rewrite Ec, Et, grow_placed. split_and!; [auto 6|lia|lia|done].
      * exists j, c1, q, k. rewrite grow_placed. auto.
  - rewrite Hlarges. apply I.
  - rewrite Hfallbacks. apply I.
  - intros p b. rewrite (i_live _ _ I). unfold owns. rewrite Hlarges, Hfallbacks. destruct (b_kind b); [|done|done]. split.
    + intros (j & c1 & q & k & H & Hk & Hn' & -> & Hh & Hcap). destruct (decide (j = i)) as [->|Hne].
      * assert (c1 = c) as -> by (destruct H; congruence). exists i, c', q, k. rewrite Ec, Et, grow_placed, (grow_old _ _ _ _ H Hk), Hs. split_and!; first [done|apply Hk|apply Hcap|by auto 6].
      * exists j, c1, q, k. rewrite grow_placed, (grow_old _ _ _ _ H Hk). split_and!; first [done|apply Hk|apply Hcap|by auto 6].
    + intros (j & c1 & q & k & H & Hk & Hn' & -> & Hh & Hcap). apply grow_placed in H as [[_ H]|(-> & -> & [->|H])].
      * rewrite (grow_old _ _ _ _ H Hk) in Hh. by exists j, c1, q, k.
      * exfalso. rewrite Ec in Hk. by apply Hn', Hall.
      * rewrite Ec, Et, Hs in *. rewrite (grow_old _ _ _ _ H Hk) in Hh. by exists i, c, q, k.
Qed.

End Grow.

(** The pages are the same, the class is another one: [active_page] changed. *)
Section Relabel.

Context {s : kvs_mem_state_t} {live : gmap Z block} (I : struct s live) {i : nat} {c : small_class_t} (Hc : classes s !! i = Some c).
Context {a : Z} (Ha : a ∈ map p_mem (pages c)).
Let c' : small_class_t := c <| active_page := Some a |>.
Let s' : kvs_mem_state_t := set_class i c' s.

Lemma relabel_to j c1 q : placed s j c1 q -> exists c2, placed s' j c2 q /\ size c2 = size c1.
Proof.
  intros H. destruct (decide (j = i)) as [->|Hne].
  - exists c'. assert (c1 = c) as -> by (destruct H; congruence). split; [|done]. apply (placed_set s s' i c c'); [done|done|]. right. split_and!; [done|done|apply H].
  - exists c1. split; [|done]. apply (placed_set s s' i c c'); [done|done|]. auto.
Qed.
Lemma relabel_from j c2 q : placed s' j c2 q -> exists c1, placed s j c1 q /\ size c2 = size c1.
Proof.
  intros H. apply (placed_set s s' i c c') in H as [[_ H]|(-> & -> & H)]; [by exists c2| |done|done]. exists c. by split.
Qed.

Lemma relabel_region t b n : region s' t b n <-> region s t b n.
Proof.
  destruct t; [|done|done]. split; intros (c1 & q & H & -> & ->).
  - apply relabel_from in H as (c2 & H & _). by exists c2, q.
  - apply relabel_to in H as (c2 & H & _). by exists c2, q.
Qed.
Lemma relabel_owns p b : owns s' p b <-> owns s p b.
Proof.
  unfold owns. destruct (b_kind b); [|done|done]. split; intros (j & c1 & q & k & H & R).
  - apply relabel_from in H as (c2 & H & E). destruct (count_size _ _ E) as [Ec Et]. rewrite Ec, Et, E in R. by exists j, c2, q, k.
  - apply relabel_to in H as (c2 & H & E). symmetry in E. destruct (count_size _ _ E) as [Ec Et]. rewrite Ec, Et, E in R. by exists j, c2, q, k.
Qed.
Lemma relabel_struct : struct s' live.
Proof.
  split; [| | | | | |apply I|apply I| |apply I].
  - cbn. rewrite length_insert. apply I.
  - intros j c1. cbn. destruct (decide (j = i)) as [->|Hne].
    + rewrite list_lookup_insert_eq by (by eapply lookup_lt_Some). intros [= <-]. destruct (i_class _ _ I i c Hc) as [O1 O2 O3 O4 O5 O6 O7].
      split; try done; [by intros b [= <-]|]. intros q Hq. by apply (page_ok_size c); [|apply O4].
    + rewrite list_lookup_insert_ne by done. apply (i_class _ _ I).
  - intros t b n Hr. apply relabel_region in Hr. by apply (i_space _ _ I t).
  - intros t b n t' b' n' Hr Hr'. apply relabel_region in Hr, Hr'. by apply (i_apart _ _ I).
  - intros j c1 q k H Hk. apply relabel_from in H as (c2 & H & E). destruct (count_size _ _ E) as [Ec Et]. rewrite Ec, Et in *. by apply (i_chunk _ _ I).
  - intros b h Hb. destruct (i_only _ _ I b h Hb) as (j & c1 & q & k & H & Hk & ->). apply relabel_to in H as (c2 & H & E).
    destruct (count_size _ _ E) as [Ec Et]. exists j, c2, q, k. by rewrite Ec, Et.
  - intros p b. rewrite relabel_owns. apply (i_live _ _ I).
Qed.

End Relabel.

(** *** Blocks with a 24-byte header *)

(** The two kinds, mapped or from [malloc]. *)
Definition hdrs (big : bool) (s : kvs_mem_state_t) : gmap Z hdr_t := if big then larges s else fallbacks s.
Definition hdr_of (big : bool) (sz n : Z) : hdr_t := Hdr (if big then LARGE_MAGIC else FALLBACK_MAGIC) sz n.
Definition block_of (big : bool) (sz n : Z) : block := if big then Block KLarge sz (n - sizeof_hdr) n else Block KFallback sz sz 0.
Definition tag_of (big : bool) : tag := if big then TLarge else TFallback.

Lemma region_hdr s big a h : hdrs big s !! a = Some h -> region s (tag_of big) a (h_size h).
Proof. intros H. by destruct big; exists h. Qed.
Lemma owns_hdr s big sz n p : sizeof_hdr + sz = n \/ big = true ->
  hdrs big s !! (p - sizeof_hdr) = Some (hdr_of big sz n) -> owns s p (block_of big sz n).
Proof. intros Hn H. destruct big; cbn in *; [done|]. destruct Hn as [<-|?]; done. Qed.

Section Header.

Context {s : kvs_mem_state_t} {live : gmap Z block} (I : struct s live) {big : bool} {a sz n : Z}.
Context (Hn : sizeof_hdr + sz = n \/ (big = true /\ sizeof_hdr + sz <= n)) (Hsz : 0 < sz).
Context {s' : kvs_mem_state_t} (Hcs : classes s' = classes s) (Hch : chunks s' = chunks s) (Hother : hdrs (negb big) s' = hdrs (negb big) s).
Let p : Z := a + sizeof_hdr.

Lemma hdr_placed i c pg : placed s' i c pg <-> placed s i c pg.
Proof. unfold placed. by rewrite Hcs. Qed.
Lemma hdr_owns_small q b : b_kind b = KSmall -> owns s' q b <-> owns s q b.
Proof. intros Hk. unfold owns. rewrite Hk, Hch. by setoid_rewrite hdr_placed. Qed.
(** The parts of the invariant that are not about headers. *)
Lemma hdr_struct live' :
  (forall t b m, region s' t b m -> 0 < b /\ sizeof_hdr < m /\ b + m <= TOP) ->
  (forall t b m t' b' m', region s' t b m -> region s' t' b' m' -> (t = t' /\ b = b') \/ b + m <= b' \/ b' + m' <= b) ->
  (forall b h, larges s' !! b = Some h -> h_magic h = LARGE_MAGIC) ->
  (forall b h, fallbacks s' !! b = Some h -> h_magic h = FALLBACK_MAGIC /\ h_size h = sizeof_hdr + h_request_size h) ->
  (forall q b, live' !! q = Some b <-> owns s' q b) -> (forall q b, live' !! q = Some b -> 0 < b_req b <= b_cap b) -> struct s' live'.
Proof.
  intros H1 H2 H3 H4 H5 H6. split; try done; [rewrite Hcs; apply I..| |].
  - intros i c pg ci H. rewrite Hch. apply hdr_placed in H. by apply (i_chunk _ _ I).
  - intros b h. rewrite Hch. setoid_rewrite hdr_placed. apply (i_only _ _ I).
Qed.

(** *** A new one *)

Context (Hnew : unused s a n) (Hadd : hdrs big s' = <[a := hdr_of big sz n]> (hdrs big s)).

Lemma add_none : hdrs big s !! a = None.
Proof.
  destruct (hdrs big s !! a) as [h|] eqn:E; [|done]. apply region_hdr in E. pose proof (i_space _ _ I _ _ _ E). destruct Hnew as (? & _ & _ & Hd).
  destruct (Hd _ _ _ E); unfold sizeof_hdr in *; lia.
Qed.
Lemma add_region t b m : region s' t b m <-> region s t b m \/ (t = tag_of big /\ b = a /\ m = n).
Proof.
  pose proof add_none as Hno. destruct t as [i| |].
  - cbn. setoid_rewrite hdr_placed. split; [by left|]. intros [?|[Ht _]]; [done|]. by destruct big.
  - destruct big; cbn in *; [|rewrite Hother; split; [by left|by intros [?|[? _]]]]. rewrite Hadd. split.
    + intros (h & Hh & ->). apply lookup_insert_Some in Hh as [[<- <-]|[_ Hh]]; [by right|left; by exists h].
    + intros [(h & Hh & ->)|(_ & -> & ->)]; [|eexists; by rewrite lookup_insert_eq]. exists h. rewrite lookup_insert_ne; [done|congruence].
  - destruct big; cbn in *; [rewrite Hother; split; [by left|by intros [?|[? _]]]|]. rewrite Hadd. split.
    + intros (h & Hh & ->). apply lookup_insert_Some in Hh as [[<- <-]|[_ Hh]]; [by right|left; by exists h].
    + intros [(h & Hh & ->)|(_ & -> & ->)]; [|eexists; by rewrite lookup_insert_eq]. exists h. rewrite lookup_insert_ne; [done|congruence].
Qed.
Lemma add_fresh : live !! p = None.
Proof.
  destruct (live !! p) as [b|] eqn:E; [|done]. destruct (owns_region I p b E) as (t & a' & n' & Hr & H1 & H2 & _). pose proof (i_req _ _ I p b E).
  destruct Hnew as (_ & _ & _ & Hd). unfold p, b_hdr, sizeof_chunk, sizeof_hdr in *. destruct (Hd _ _ _ Hr), (b_kind b); lia.
Qed.
Lemma add_owns q b : q <> p -> owns s' q b <-> owns s q b.
Proof.
  intros Hne. destruct (b_kind b) eqn:Hk; [by apply hdr_owns_small|..]; unfold owns; rewrite Hk; destruct big; cbn in *;
    rewrite ?Hother, ?Hadd; try done; by rewrite lookup_insert_ne by (unfold p in Hne; lia).
Qed.
Lemma add_owns_at b : owns s' p b <-> b = block_of big sz n.
Proof.
  assert (p - sizeof_hdr = a) as Hpa by (unfold p; lia). split.
  - intros Ho. assert (owns s p b -> False) as Hno by (intros H; apply (i_live _ _ I) in H; by rewrite add_fresh in H).
    destruct (b_kind b) eqn:Hk; [apply hdr_owns_small in Ho; [done|done]|..]; unfold owns in *; rewrite Hk, Hpa in *; destruct big; cbn in *;
      rewrite ?Hother, ?Hadd, ?lookup_insert_eq in Ho; try done.
    + destruct Ho as [[= Hs Hm] Hc]. destruct b; cbn in *. congruence.
    + destruct Ho as ([= Hs Hm] & Hc & Hm'). destruct b; cbn in *. congruence.
  - intros ->. apply owns_hdr; [destruct Hn as [?|[? _]]; auto|]. by rewrite Hpa, Hadd, lookup_insert_eq.
Qed.
Lemma add_struct : struct s'  (<[p := block_of big sz n]> live).
Proof.
  pose proof (i_apart _ _ I) as Hap. apply hdr_struct.
  - intros t b m Hr. apply add_region in Hr as [Hr|(_ & -> & ->)]; [by apply (i_space _ _ I t)|]. destruct Hnew as (_ & ? & ? & _). unfold sizeof_hdr in *. lia.
  - intros t b m t' b' m' Hr Hr'. destruct Hnew as (_ & _ & _ & Hd). apply add_region in Hr as [Hr|(-> & -> & ->)], Hr' as [Hr'|(-> & -> & ->)].
    + by apply Hap.
    + destruct (Hd _ _ _ Hr); auto.
    + destruct (Hd _ _ _ Hr'); auto.
    + by left.
  - intros b h Hh. destruct big; cbn in *; [|rewrite Hother in Hh; by apply (i_large _ _ I b)]. rewrite Hadd in Hh.
    apply lookup_insert_Some in Hh as [[<- <-]|[_ Hh]]; [done|by apply (i_large _ _ I b)].
  - intros b h Hh. destruct big; cbn in *; [rewrite Hother in Hh; by apply (i_fallback _ _ I b)|]. rewrite Hadd in Hh.
    apply lookup_insert_Some in Hh as [[<- <-]|[_ Hh]]; [|by apply (i_fallback _ _ I b)]. cbn. destruct Hn as [?|[? _]]; [done|done].
  - intros q b. destruct (decide (q = p)) as [->|Hne]; [rewrite lookup_insert_eq, add_owns_at|rewrite lookup_insert_ne, add_owns by done; apply (i_live _ _ I)].
    split; [by intros [= <-]|by intros ->].
  - intros q b Hb. apply lookup_insert_Some in Hb as [[<- <-]|[_ Hb]]; [|by apply (i_req _ _ I q)].
    destruct big; cbn; destruct Hn as [?|[? ?]]; unfold sizeof_hdr in *; try done; lia.
Qed.

End Header.

Section Remove.

Context {s : kvs_mem_state_t} {live : gmap Z block} (I : struct s live) {big : bool} {p : Z}.
Let a : Z := p - sizeof_hdr.
Context {h : hdr_t} (Hin : hdrs big s !! a = Some h).
Context {s' : kvs_mem_state_t} (Hcs : classes s' = classes s) (Hch : chunks s' = chunks s) (Hother : hdrs (negb big) s' = hdrs (negb big) s).
Context (Hdel : hdrs big s' = delete a (hdrs big s)).

Lemma remove_region t b m : region s' t b m -> region s t b m.
Proof.
  destruct t as [i| |].
  - cbn. by setoid_rewrite (hdr_placed Hcs).
  - destruct big; cbn in *; [|by rewrite Hother]. rewrite Hdel. intros (h' & Hh & ->). apply lookup_delete_Some in Hh as [_ Hh]. by exists h'.
  - destruct big; cbn in *; [by rewrite Hother|]. rewrite Hdel. intros (h' & Hh & ->). apply lookup_delete_Some in Hh as [_ Hh]. by exists h'.
Qed.
Lemma remove_owns q b : q <> p -> owns s' q b <-> owns s q b.
Proof.
  intros Hne. destruct (b_kind b) eqn:Hk; [by apply (hdr_owns_small Hcs Hch)|..]; unfold owns; rewrite Hk; destruct big; cbn in *;
    rewrite ?Hother, ?Hdel; try done; by rewrite lookup_delete_ne by (unfold a; lia).
Qed.
Lemma remove_not b : owns s' p b -> False.
Proof.
  intros Ho. assert (owns s p b -> b_kind b = if big then KLarge else KFallback) as Hk.
  { intros Hl. pose proof (region_hdr s big a h Hin) as Hr. apply (i_live _ _ I) in Hl. destruct (owns_region I p b Hl) as (t & a' & n & Hr' & H1 & H2 & Hkt).
    pose proof (i_space _ _ I _ _ _ Hr). pose proof (i_req _ _ I _ _ Hl).
    destruct (i_apart _ _ I _ _ _ _ _ _ Hr Hr') as [[<- _]|[?|?]]; [destruct big; by destruct Hkt as [? _]|..];
      unfold a, b_hdr, sizeof_hdr, sizeof_chunk in *; destruct (b_kind b); lia. }
  destruct (b_kind b) eqn:E; [apply (hdr_owns_small Hcs Hch) in Ho; [|done]; apply Hk in Ho; by destruct big|..];
    unfold owns in *; rewrite E in *; fold a in Ho, Hk; destruct big; cbn in *; rewrite ?Hother, ?Hdel, ?lookup_delete_eq in Ho;
    try (by destruct Ho); apply Hk in Ho; done.
Qed.
Lemma remove_struct : struct s' (delete p live).
Proof.
  apply (hdr_struct I Hcs Hch).
  - intros t b' m Hr. apply remove_region in Hr. by apply (i_space _ _ I t).
  - intros t b1 m t' b' m' Hr Hr'. apply remove_region in Hr, Hr'. by apply (i_apart _ _ I).
  - intros b' h' Hh. destruct big; cbn in *; [rewrite Hdel in Hh; apply lookup_delete_Some in Hh as [_ Hh]|rewrite Hother in Hh]; by apply (i_large _ _ I b').
  - intros b' h' Hh. destruct big; cbn in *; [rewrite Hother in Hh|rewrite Hdel in Hh; apply lookup_delete_Some in Hh as [_ Hh]]; by apply (i_fallback _ _ I b').
  - intros q b'. destruct (decide (q = p)) as [->|Hne].
    + rewrite lookup_delete_eq. split; [done|]. intros Ho. by apply remove_not in Ho.
    + rewrite lookup_delete_ne by done. rewrite remove_owns by done. apply (i_live _ _ I).
  - intros q b' Hb. apply lookup_delete_Some in Hb as [_ Hb]. by apply (i_req _ _ I q).
Qed.

End Remove.

(** *** Giving a chunk back *)

Lemma find_unique {A} (P : A -> bool) (l : list A) x : x ∈ l -> P x = true -> (forall y, y ∈ l -> P y = true -> y = x) -> List.find P l = Some x.
Proof.
  intros Hx HP Hu. destruct (List.find P l) as [y|] eqn:E.
  - apply List.find_some in E as [Hy HPy]. apply list_elem_of_In in Hy. by rewrite (Hu y).
  - exfalso. apply list_elem_of_In in Hx. rewrite (List.find_none _ _ E x Hx) in HP. done.
Qed.

Lemma find_page s live i c pg ci : struct s live -> placed s i c pg -> 0 <= ci < chunk_count c ->
  find_page_for_chunk c (p_mem pg + ci * chunk_total c) = Some pg.
Proof.
  intros I H Hci. pose proof (chunk_inside I _ _ _ _ H Hci) as Hin. destruct (placed_bounds I _ _ _ H) as (_ & ? & _). unfold chunk_total, sizeof_chunk in *.
  apply find_unique; [apply H|apply bool_decide_eq_true; lia|]. intros q Hq Hb. apply bool_decide_eq_true in Hb.
  destruct H as [Hc Hp]. destruct (placed_inj I i c q i c pg) as (_ & _ & ->); [by split|by split| |done].
  destruct (i_apart _ _ I _ _ _ _ _ _ (placed_region i c q (conj Hc Hq)) (placed_region i c pg (conj Hc Hp))) as [[_ ?]|[?|?]]; lia.
Qed.

(** There is room on the stack for a chunk that is not on it. *)
Lemma push_room c pg ci : page_ok c pg -> 0 <= ci < chunk_count c -> ci ∉ free_list pg -> (free_top pg < length (free_stack pg))%nat.
Proof.
  intros O Hci Hn. assert (length (free_list pg ++ [ci]) <= length (seqZ 0 (chunk_count c)))%nat as Hl.
  { apply submseteq_length, NoDup_submseteq.
    - apply NoDup_app. split_and!; [apply O| |apply NoDup_singleton]. intros x Hx Hx'. apply list_elem_of_singleton in Hx' as ->. done.
    - intros x Hx. apply elem_of_seqZ. apply elem_of_app in Hx as [Hx|Hx]; [|apply list_elem_of_singleton in Hx as ->; lia].
      pose proof (po_range _ _ O) as Hr. rewrite Forall_forall in Hr. apply Hr in Hx. lia. }
  rewrite length_app, length_seqZ in Hl. unfold free_list in Hl. rewrite length_take in Hl. cbn in Hl. pose proof (po_len _ _ O). pose proof (po_top _ _ O). lia.
Qed.
Lemma push_list pg ci : (free_top pg < length (free_stack pg))%nat ->
  take (S (free_top pg)) (<[free_top pg := ci]> (free_stack pg)) = free_list pg ++ [ci].
Proof.
  intros H. rewrite (take_S_r _ _ ci) by (by apply list_lookup_insert_eq). rewrite take_insert_ge by lia. done.
Qed.
Definition pushed (pg : slab_page_t) (ci : Z) : slab_page_t :=
  pg <| free_stack ::= insert (free_top pg) ci |> <| free_top ::= S |> <| chunks_in_use ::= fun n => n - 1 |>.
Lemma pushed_ok c pg ci : page_ok c pg -> 0 <= ci < chunk_count c -> ci ∉ free_list pg -> page_ok c (pushed pg ci).
Proof.
  intros O Hci Hn. pose proof (push_room c pg ci O Hci Hn) as Hr. pose proof (push_list pg ci Hr) as Hp. destruct O as [O1 O2 O3 O4 O5 O6 O7].
  split; unfold free_list, pushed; cbn; rewrite ?length_insert; try done; try lia; rewrite Hp.
  - apply NoDup_app. split_and!; [done| |apply NoDup_singleton]. intros x Hx Hx'. apply list_elem_of_singleton in Hx' as ->. done.
  - apply Forall_app. split; [done|]. by apply Forall_singleton.
Qed.

Section Push.

Context {s : kvs_mem_state_t} {live : gmap Z block} (I : struct s live).
Context {i : nat} {c : small_class_t} {pg : slab_page_t} (Hpg : placed s i c pg) {ci : Z} (Hci : 0 <= ci < chunk_count c) (Hused : ci ∉ free_list pg).
Context {s' : kvs_mem_state_t} (Hcs : classes s' = <[i := set_page (pushed pg ci) c]> (classes s)).
Context (Hch : chunks s' = chunks s) (Hlarges : larges s' = larges s) (Hfallbacks : fallbacks s' = fallbacks s).

Lemma push_struct : struct s' (delete (p_mem pg + ci * chunk_total c + sizeof_chunk) live).
Proof.
  destruct (placed_bounds I _ _ _ Hpg) as (_ & _ & _ & O). pose proof (push_list pg ci (push_room c pg ci O Hci Hused)) as Hp.
  assert (free_list (pushed pg ci) = free_list pg ++ [ci]) as Hfl by exact Hp.
  apply (swap_struct I Hpg (pg' := pushed pg ci)); try done.
  - by apply pushed_ok.
  - intros a. by rewrite Hch.
  - assert (forall k, k <> ci -> k ∈ free_list (pushed pg ci) <-> k ∈ free_list pg) as Hfree.
    { intros k Hk. rewrite Hfl, elem_of_app, list_elem_of_singleton. tauto. }
    intros q b. destruct (decide (q = p_mem pg + ci * chunk_total c + sizeof_chunk)) as [->|Hne].
    + rewrite lookup_delete_eq. split; [done|]. intros Ho.
      apply (swap_owns_at I Hpg (pg' := pushed pg ci) eq_refl eq_refl Hcs Hlarges Hfallbacks Hci) in Ho as (_ & Hn & _).
      rewrite Hfl, elem_of_app, list_elem_of_singleton in Hn. tauto.
    + rewrite lookup_delete_ne by done.
      rewrite (swap_owns I Hpg (pg' := pushed pg ci) eq_refl Hcs Hlarges Hfallbacks (ci := ci) (fun a _ => f_equal (lookup a) Hch) Hfree) by done. apply (i_live _ _ I).
  - intros q b Hb. apply lookup_delete_Some in Hb as [_ Hb]. by apply (i_req _ _ I q).
Qed.

End Push.

(** *** Giving a page back *)

Lemma total_perm l l' : l ≡ₚ l' -> total l = total l'.
Proof. unfold total. induction 1; cbn in *; lia. Qed.
Lemma without_page c pg : NoDup (map p_mem (pages c)) -> pg ∈ pages c ->
  pages c ≡ₚ pg :: List.filter (fun p => bool_decide (p_mem p <> p_mem pg)) (pages c).
Proof.
  generalize (pages c). clear c. intros l Hd Hp. induction l as [|q l IH]; [by apply not_elem_of_nil in Hp|]. cbn in *. apply NoDup_cons in Hd as [Hq Hd].
  apply elem_of_cons in Hp as [->|Hp].
  - rewrite bool_decide_eq_false_2 by tauto. f_equiv. clear IH Hd. induction l as [|x l IHl]; [done|]. cbn in *. apply not_elem_of_cons in Hq as [? ?].
    rewrite bool_decide_eq_true_2 by done. f_equiv. by apply IHl.
  - assert (p_mem q <> p_mem pg) as Hne. { intros He. apply Hq. rewrite He. apply list_elem_of_fmap. by exists pg. }
    rewrite bool_decide_eq_true_2 by done. rewrite (IH Hd Hp) at 1. apply perm_swap.
Qed.

Section Reclaim.

Context {s : kvs_mem_state_t} {live : gmap Z block} (I : struct s live).
Context {i : nat} {c : small_class_t} {pg : slab_page_t} (Hpg : placed s i c pg) (Hidle : chunks_in_use pg = 0).
Context {c' : small_class_t} (Hs : size c' = size c) (Hok : class_ok i c').
Context (Hp : forall q, q ∈ pages c' <-> q ∈ pages c /\ p_mem q <> p_mem pg).
Context {s' : kvs_mem_state_t} (Hcs : classes s' = <[i := c']> (classes s)) (Hch : chunks s' = unmap pg (chunks s)).
Context (Hlarges : larges s' = larges s) (Hfallbacks : fallbacks s' = fallbacks s).

Lemma idle_free k : 0 <= k < chunk_count c -> k ∈ free_list pg.
Proof.
  intros Hk. destruct (placed_bounds I _ _ _ Hpg) as (_ & _ & _ & O). destruct (decide (k ∈ free_list pg)) as [|Hn]; [done|]. exfalso.
  pose proof (push_room c pg k O Hk Hn). pose proof (po_use _ _ O). pose proof (po_len _ _ O). lia.
Qed.
Lemma reclaim_placed j c1 q : placed s' j c1 q <-> (j <> i /\ placed s j c1 q) \/ (j = i /\ c1 = c' /\ placed s i c q /\ p_mem q <> p_mem pg).
Proof.
  destruct Hpg as [Hc _]. rewrite (placed_set s s' i c c' j c1 q Hc Hcs), Hp. unfold placed. naive_solver.
Qed.
Lemma reclaim_from j c1 q : placed s' j c1 q -> exists c2, placed s j c2 q /\ size c1 = size c2 /\ p_mem q <> p_mem pg.
Proof.
  intros H. apply reclaim_placed in H as [[Hj H]|(-> & -> & H & Hne)]; [|by exists c]. exists c1. split_and!; [done|done|].
  intros He. destruct (placed_inj I _ _ _ _ _ _ H Hpg He) as (? & _). done.
Qed.
Lemma reclaim_to j c1 q : placed s j c1 q -> p_mem q <> p_mem pg -> exists c2, placed s' j c2 q /\ size c2 = size c1.
Proof.
  intros H Hne. destruct (decide (j = i)) as [->|Hj]; [|exists c1; rewrite reclaim_placed; auto].
  assert (c1 = c) as -> by (destruct H, Hpg; congruence). exists c'. rewrite reclaim_placed. auto 7.
Qed.
Lemma reclaim_region t a n : region s' t a n -> region s t a n.
Proof.
  destruct t; cbn; rewrite ?Hlarges, ?Hfallbacks; [|done|done]. intros (c1 & q & H & -> & ->). apply reclaim_from in H as (c2 & H & _). by exists c2, q.
Qed.
(** The headers of other pages stay. *)
Lemma reclaim_chunks j c1 q k : placed s j c1 q -> 0 <= k < chunk_count c1 -> p_mem q <> p_mem pg ->
  chunks s' !! (p_mem q + k * chunk_total c1) = chunks s !! (p_mem q + k * chunk_total c1).
Proof.
  intros H Hk Hne. rewrite Hch. unfold unmap. pose proof (chunk_inside I _ _ _ _ H Hk). destruct (placed_bounds I _ _ _ H) as (_ & ? & _).
  unfold chunk_total, sizeof_chunk in *.
  assert (¬ (p_mem pg <= p_mem q + k * (4 + size c1) < p_mem pg + p_size pg)) as Hout.
  { destruct (i_apart _ _ I _ _ _ _ _ _ (placed_region _ _ _ H) (placed_region _ _ _ Hpg)) as [[_ ?]|[?|?]]; [done|lia|lia]. }
  destruct (chunks s !! _) as [h|] eqn:E.
  - by apply map_lookup_filter_Some_2.
  - apply map_lookup_filter_None_2. by left.
Qed.
Lemma reclaim_owns p b : owns s' p b <-> owns s p b.
Proof.
  unfold owns. rewrite Hlarges, Hfallbacks. destruct (b_kind b); [|done|done]. split; intros (j & c1 & q & k & H & Hk & Hn & -> & Hh & Hb).
  - apply reclaim_from in H as (c2 & H & E & Hne). destruct (count_size _ _ E) as [Ec Et]. rewrite Ec, Et, E in *.
    rewrite (reclaim_chunks _ _ _ _ H Hk Hne) in Hh. by exists j, c2, q, k.
  - assert (p_mem q <> p_mem pg) as Hne.
    { intros He. destruct (placed_inj I _ _ _ _ _ _ H Hpg He) as (-> & -> & ->). by apply Hn, idle_free. }
    rewrite <- (reclaim_chunks _ _ _ _ H Hk Hne) in Hh. apply reclaim_to in H as (c2 & H & E); [|done]. symmetry in E.
    destruct (count_size _ _ E) as [Ec Et]. rewrite Ec, Et, E in *. by exists j, c2, q, k.
Qed.
Lemma reclaim_struct : struct s' live.
Proof.
  destruct Hpg as [Hc _]. split; [| | | | | | | | |apply (i_req _ _ I)].
  - rewrite Hcs, length_insert. apply I.
  - intros j c1. rewrite Hcs. destruct (decide (j = i)) as [->|Hne].
    + rewrite list_lookup_insert_eq by (by eapply lookup_lt_Some). by intros [= <-].
    + rewrite list_lookup_insert_ne by done. apply (i_class _ _ I).
  - intros t a n Hr. apply reclaim_region in Hr. by apply (i_space _ _ I t).
  - intros t a n t' a' n' Hr Hr'. apply reclaim_region in Hr, Hr'. by apply (i_apart _ _ I).
  - intros j c1 q k H Hk. apply reclaim_from in H as (c2 & H & E & Hne). destruct (count_size _ _ E) as [Ec Et]. rewrite Ec, Et in *.
    rewrite (reclaim_chunks _ _ _ _ H Hk Hne). by apply (i_chunk _ _ I).
  - intros a h Ha. rewrite Hch in Ha. apply map_lookup_filter_Some in Ha as [Ha Hout]. cbn in Hout.
    destruct (i_only _ _ I a h Ha) as (j & c1 & q & k & H & Hk & ->). assert (p_mem q <> p_mem pg) as Hne.
    { intros He. destruct (placed_inj I _ _ _ _ _ _ H Hpg He) as (-> & -> & ->). apply Hout. pose proof (chunk_inside I _ _ _ _ H Hk).
      destruct (placed_bounds I _ _ _ H) as (_ & ? & _). unfold chunk_total, sizeof_chunk in *. lia. }
    apply reclaim_to in H as (c2 & H & E); [|done]. destruct (count_size _ _ E) as [Ec Et]. exists j, c2, q, k. by rewrite Ec, Et.
  - rewrite Hlarges. apply I.
  - rewrite Hfallbacks. apply I.
  - intros p b. rewrite reclaim_owns. apply (i_live _ _ I).
Qed.

End Reclaim.

(** A class without one of its pages. *)
Lemma without_class i c pg : class_ok i c -> pg ∈ pages c ->
  class_ok i (c <| pages ::= List.filter (fun p => bool_decide (p_mem p <> p_mem pg)) |>
                <| active_page ::= fun a => if decide (a = Some (p_mem pg)) then None else a |>
                <| page_count ::= fun n => u64 (n - 1) |> <| page_bytes ::= fun n => u64 (n - p_size pg) |>
                <| total_chunks ::= fun n => u64 (n - chunks_total pg) |>).
Proof.
  intros [O1 O2 O3 O4 O5 O6 O7] Hp. pose proof (without_page c pg O2 Hp) as Hw. set (l := List.filter _ _) in *.
  assert (forall f, total (map f (pages c)) = f pg + total (map f l)) as Ht.
  { intros f. rewrite (total_perm _ _ (Permutation_map f Hw)). done. }
  assert (forall q, q ∈ l <-> q ∈ pages c /\ p_mem q <> p_mem pg) as Hl.
  { intros q. unfold l. rewrite !list_elem_of_In, filter_In, bool_decide_eq_true. done. }
  split; cbn [size pages active_page page_count page_bytes total_chunks upd]; fold l.
  - done.
  - pose proof (Permutation_map p_mem Hw) as Hm. apply NoDup_ListNoDup in O2. apply (Permutation_NoDup Hm) in O2. inversion O2. by apply NoDup_ListNoDup.
  - intros a Ha. case_decide as Hd; [done|]. pose proof Ha as Ha'. apply O3, list_elem_of_fmap in Ha as (q & -> & Hq). apply list_elem_of_fmap. exists q. split; [done|]. apply Hl. split; [done|]. congruence.
  - intros q Hq. apply (page_ok_size c); [done|]. apply O4. by apply Hl in Hq as [? _].
  - rewrite O5, (Permutation_length Hw). unfold u64. rewrite Zminus_mod_idemp_l. cbn [length]. f_equal. lia.
  - rewrite O6, Ht. unfold u64. rewrite Zminus_mod_idemp_l. f_equal. lia.
  - rewrite O7, Ht. unfold u64. rewrite Zminus_mod_idemp_l. f_equal. lia.
Qed.

(** *** The counters *)

Definition of_kind (k : kind) (f : block -> Z) (b : block) : Z := if decide (b_kind b = k) then f b else 0.
Record counted (k : counts) (live : gmap Z block) : Prop := {
  n_small : current_small_inuse k = sumf (of_kind KSmall b_cap) live;
  n_large : current_large_inuse_bytes k = sumf (of_kind KLarge b_req) live;
  n_map : active_large_map_bytes k = sumf (of_kind KLarge b_map) live;
  n_fallback : current_fallback_inuse_bytes k = sumf (of_kind KFallback b_req) live;
  n_requested : current_requested_bytes k = sumf b_req live;
  n_allocated : current_allocated_bytes k = sumf b_cap live;
}.
Definition class_bytes (c : small_class_t) : Z := total (map p_size (pages c)).
Record inv (s : kvs_mem_state_t) (live : gmap Z block) : Prop := {
  v_struct : struct s live;
  v_counted : counted (cnt s) live;
  v_bytes : total_small_page_bytes (cnt s) = u64 (total (map class_bytes (classes s)));
}.

(** Each counter counts no more than the bytes that blocks take. *)
Definition modest (f : block -> Z) : Prop := forall b, 0 < b_req b <= b_cap b -> 0 <= b_map b <= foot b -> 0 <= f b <= foot b.
Lemma foot_cap b : b_cap b <= foot b.
Proof. unfold foot, b_hdr, sizeof_chunk, sizeof_hdr. destruct (b_kind b); lia. Qed.
Lemma modest_req : modest b_req.
Proof. intros b ? ?. pose proof (foot_cap b). lia. Qed.
Lemma modest_cap : modest b_cap.
Proof. intros b ? ?. pose proof (foot_cap b). lia. Qed.
Lemma modest_map : modest b_map.
Proof. intros b ? ?. lia. Qed.
Lemma modest_kind k f : modest f -> modest (of_kind k f).
Proof. intros H b H1 H2. unfold of_kind. specialize (H b H1 H2). case_decide; lia. Qed.
Create HintDb kv_mem discriminated.
#[local] Hint Resolve modest_req modest_cap modest_map modest_kind : kv_mem.

Lemma modest_bound s live f : struct s live -> modest f -> 0 <= sumf f live <= TOP.
Proof.
  intros I Hf. pose proof (foot_bound I) as Hb. assert (0 <= sumf f live <= sumf foot live); [|lia]. apply sumf_le. intros p b Hp.
  apply Hf; [by apply (i_req _ _ I p)|]. apply (i_live _ _ I) in Hp as Ho. pose proof (i_req _ _ I p b Hp) as Hr. unfold owns in Ho. unfold foot, b_hdr, sizeof_chunk, sizeof_hdr in *.
  destruct (b_kind b); [destruct Ho as (? & ? & ? & ? & _ & _ & _ & _ & _ & _ & ->)|destruct Ho as [_ Ho]|destruct Ho as (_ & _ & ->)]; lia.
Qed.
Lemma field_add s' live p b f : struct s' (<[p := b]> live) -> live !! p = None -> modest f ->
  u64 (sumf f live + f b) = sumf f (<[p := b]> live).
Proof.
  intros I Hp Hf. pose proof (modest_bound s' _ f I Hf) as Hb. rewrite (sumf_insert f live p b Hp) in *. unfold TOP, u64 in *. rewrite Z.mod_small; lia.
Qed.
Lemma field_sub s' live p b f : struct s' (delete p live) -> live !! p = Some b -> modest f -> reduce (f b) (sumf f live) = sumf f (delete p live).
Proof.
  intros I Hp Hf. pose proof (modest_bound s' _ f I Hf) as Hb. rewrite (sumf_delete f live p b Hp). unfold reduce. rewrite decide_True by lia. lia.
Qed.
(** A kind that does not count. *)
Lemma field_skip live p b k f : live !! p = None -> b_kind b <> k -> sumf (of_kind k f) (<[p := b]> live) = sumf (of_kind k f) live.
Proof. intros Hp Hk. rewrite sumf_insert by done. unfold of_kind at 1. by rewrite decide_False. Qed.
Lemma field_unskip live p b k f : live !! p = Some b -> b_kind b <> k -> sumf (of_kind k f) (delete p live) = sumf (of_kind k f) live.
Proof. intros Hp Hk. rewrite (sumf_delete _ live p b Hp). unfold of_kind at 2. by rewrite decide_False. Qed.

Ltac count_fields :=
  cbn [account_small_alloc account_small_free account_large_alloc account_large_free custom_account_fallback_alloc custom_account_fallback_free
    account_live_alloc_locked account_live_free_locked upd current_small_inuse current_large_inuse_bytes active_large_map_bytes
    current_fallback_inuse_bytes current_requested_bytes current_allocated_bytes].
Ltac added I Hp := first [by rewrite field_skip by done | by rewrite <- (field_add _ _ _ _ _ I Hp) by auto with kv_mem].
Ltac removed I Hp := first [by rewrite (field_unskip _ _ _ _ _ Hp) by done | by rewrite <- (field_sub _ _ _ _ _ I Hp) by auto with kv_mem].

Lemma counted_small_alloc s' k live p sz cap : struct s' (<[p := Block KSmall sz cap 0]> live) -> live !! p = None -> counted k live ->
  counted (account_small_alloc sz cap k) (<[p := Block KSmall sz cap 0]> live).
Proof. intros I Hp [C1 C2 C3 C4 C5 C6]. split; count_fields; rewrite ?C1, ?C2, ?C3, ?C4, ?C5, ?C6; added I Hp. Qed.
Lemma counted_fallback_alloc s' k live p sz n : struct s' (<[p := block_of false sz n]> live) -> live !! p = None -> counted k live ->
  counted (custom_account_fallback_alloc sz sz k) (<[p := block_of false sz n]> live).
Proof. intros I Hp [C1 C2 C3 C4 C5 C6]. split; count_fields; rewrite ?C1, ?C2, ?C3, ?C4, ?C5, ?C6; added I Hp. Qed.
Lemma payload n : sizeof_hdr < n -> payload_from_mapping_size n = n - sizeof_hdr.
Proof. intros H. unfold payload_from_mapping_size. by rewrite decide_True by lia. Qed.
Lemma counted_large_alloc s' k live p sz n : sizeof_hdr < n -> struct s' (<[p := block_of true sz n]> live) -> live !! p = None -> counted k live ->
  counted (account_large_alloc sz n k) (<[p := block_of true sz n]> live).
Proof. intros Hn I Hp [C1 C2 C3 C4 C5 C6]. split; count_fields; rewrite ?(payload n Hn), ?C1, ?C2, ?C3, ?C4, ?C5, ?C6; added I Hp. Qed.

Lemma counted_small_free s' k live p sz cap : struct s' (delete p live) -> live !! p = Some (Block KSmall sz cap 0) -> counted k live ->
  counted (account_small_free sz cap k) (delete p live).
Proof. intros I Hp [C1 C2 C3 C4 C5 C6]. split; count_fields; rewrite ?C1, ?C2, ?C3, ?C4, ?C5, ?C6; removed I Hp. Qed.
Lemma counted_fallback_free s' k live p sz n : struct s' (delete p live) -> live !! p = Some (block_of false sz n) -> counted k live ->
  counted (custom_account_fallback_free sz sz k) (delete p live).
Proof. intros I Hp [C1 C2 C3 C4 C5 C6]. split; count_fields; rewrite ?C1, ?C2, ?C3, ?C4, ?C5, ?C6; removed I Hp. Qed.
Lemma counted_large_free s' k live p sz n : sizeof_hdr < n -> struct s' (delete p live) -> live !! p = Some (block_of true sz n) -> counted k live ->
  counted (account_large_free sz n k) (delete p live).
Proof. intros Hn I Hp [C1 C2 C3 C4 C5 C6]. split; count_fields; rewrite ?(payload n Hn), ?C1, ?C2, ?C3, ?C4, ?C5, ?C6; removed I Hp. Qed.

(** The bytes in pages after a class changed. *)
Lemma total_insert l (i : nat) x y : l !! i = Some x -> total (<[i := y]> l) = total l - x + y.
Proof.
  revert i. induction l as [|z l IH]; intros [|i] H; [done|done|injection H as ->; cbn; lia|].
  change (total (z :: <[i := y]> l) = total (z :: l) - x + y). cbn [total foldr]. fold (total (<[i := y]> l)). fold (total l). rewrite (IH i H). lia.
Qed.
Lemma class_bytes_set cs i c c' : cs !! i = Some c -> total (map class_bytes (<[i := c']> cs)) = total (map class_bytes cs) - class_bytes c + class_bytes c'.
Proof.
  intros H. rewrite <- (total_insert (map class_bytes cs) i _ (class_bytes c')) by (by rewrite map_lookup, H). f_equal. apply list_eq. intros j.
  rewrite map_lookup. destruct (decide (j = i)) as [->|Hne].
  - rewrite !list_lookup_insert_eq; [done|rewrite length_map; by eapply lookup_lt_Some|by eapply lookup_lt_Some].
  - rewrite !list_lookup_insert_ne by done. by rewrite map_lookup.
Qed.

(** ** The calls *)

(** What a call leaves alone. *)
Definition same (s s' : kvs_mem_state_t) : Prop := data s' = data s /\ backend s' = backend s /\ initialized s' = initialized s.
#[export] Instance same_preorder : PreOrder same.
Proof. split; [by intros s|]. intros s1 s2 s3 (? & ? & ?) (? & ? & ?). split_and!; congruence. Qed.

(** A request of [sz] bytes was answered with NULL or with a new block. *)
Definition granted (sz : Z) (s : kvs_mem_state_t) (live : gmap Z block) (p : Z) (s' : kvs_mem_state_t) : Prop :=
  same s s' /\ (p = 0 /\ inv s' live \/ 0 < p /\ live !! p = None /\ exists b, b_req b = sz /\ inv s' (<[p := b]> live)).

Lemma fallback_run e s live sz : inv s live -> honest e s -> 0 < sz < 2 ^ 64 ->
  granted sz s live (fallback_malloc e sz s).1 (fallback_malloc e sz s).2.
Proof.
  intros V He Hsz. pose proof V as [I C B]. unfold fallback_malloc. case_decide; [split; [done|by left]|]. case_decide as Hm; [split; [done|by left]|].
  cbn [fst snd]. apply (h_malloc _ _ He) in Hm. set (a := malloc e _) in *. split; [done|]. right.
  set (s' := upd cnt _ _). assert (struct s' (<[a + sizeof_hdr := block_of false sz (sizeof_hdr + sz)]> live)) as I'.
  { apply (add_struct I (big := false) (a := a)); try done; [by left|lia]. }
  assert (live !! (a + sizeof_hdr) = None) as Hf by (apply (add_fresh I (big := false) (sz := sz) (n := sizeof_hdr + sz)); first [done|by left|lia]).
  split_and!; [destruct Hm as (_ & ? & _); unfold sizeof_hdr in *; lia|done|].
  exists (block_of false sz (sizeof_hdr + sz)). split; [done|]. split; [done| |exact B].
  by apply (counted_fallback_alloc s').
Qed.

(** The mapping of a large block: rounded up to whole pages, or nothing when that wraps. *)
Lemma rounded_cases total ps : 0 < ps < 2 ^ 32 -> 0 <= total < 2 ^ 64 ->
  u64 (total + ps - 1) / ps * ps = 0 \/ total <= u64 (total + ps - 1) / ps * ps.
Proof.
  intros Hps Ht. unfold u64. destruct (decide (total + ps - 1 < 2 ^ 64)) as [Hlt|Hge].
  - right. rewrite Z.mod_small by lia. pose proof (Z.div_mod (total + ps - 1) ps). pose proof (Z.mod_pos_bound (total + ps - 1) ps). lia.
  - left. assert ((total + ps - 1) mod 2 ^ 64 = total + ps - 1 - 2 ^ 64) as ->.
    { symmetry. apply Z.mod_unique_pos with 1; lia. }
    rewrite Z.div_small by lia. lia.
Qed.

Lemma large_run e s live sz : inv s live -> honest e s -> 0 < sz < 2 ^ 64 -> granted sz s live (large_malloc e sz s).1 (large_malloc e sz s).2.
Proof.
  intros V He Hsz. pose proof V as [I C B]. unfold large_malloc. set (ps := if decide (pagesz e = 0) then 4096 else pagesz e).
  assert (0 < ps < 2 ^ 32) as Hps by (pose proof (h_pagesz _ _ He); unfold ps; case_decide; lia).
  case_decide as Hw; [by apply fallback_run|]. set (n := u64 _ / ps * ps). case_decide as Hm; [by apply fallback_run|].
  apply (h_mmap _ _ He) in Hm. set (a := mmap e _) in *.
  assert (u64 (sizeof_hdr + sz) = sizeof_hdr + sz) as Ht.
  { unfold u64, sizeof_hdr in *. destruct (decide (24 + sz < 2 ^ 64)); [by apply Z.mod_small; lia|].
    exfalso. apply Hw. rewrite <- (Z.mod_unique_pos (24 + sz) (2 ^ 64) 1 (24 + sz - 2 ^ 64)); lia. }
  assert (sizeof_hdr + sz <= n) as Hn.
  { destruct (rounded_cases (u64 (sizeof_hdr + sz)) ps Hps) as [H0|H0]; [apply u64_range|fold n in H0; destruct Hm as (? & _); lia|fold n in H0; lia]. }
  assert (sizeof_hdr < n) as Hn' by lia. cbn [fst snd]. set (s' := upd cnt _ _).
  assert (struct s' (<[a + sizeof_hdr := block_of true sz n]> live)) as I'.
  { apply (add_struct I (big := true) (a := a)); try done; [by right|lia]. }
  assert (live !! (a + sizeof_hdr) = None) as Hf by (apply (add_fresh I (big := true) (sz := sz) (n := n)); first [done|by right|lia]).
  split; [done|]. right. split_and!; [destruct Hm as (_ & ? & _); unfold sizeof_hdr in *; lia|done|].
  exists (block_of true sz n). split; [done|]. split; [done| |exact B]. by apply (counted_large_alloc s').
Qed.

Lemma take_run s live i c pg sz : inv s live -> placed s i c pg -> (0 < free_top pg)%nat -> 0 < sz <= size c ->
  exists p s', take_chunk i pg sz s = Some (p, s') /\ granted sz s live p s'.
Proof.
  intros [I C B] Hpg Ht Hsz. destruct (take_chunk_run s live i c pg sz I Hpg Ht Hsz) as (p & s' & E & Hp & Hf & I' & Hc & Hd & Hb & Hi & pg' & Hcs & Hm & Hz).
  exists p, s'. split; [done|]. split; [done|]. right. split_and!; [done|done|]. eexists. split; [|split; [exact I'| |]].
  - done.
  - rewrite Hc. by apply (counted_small_alloc s').
  - rewrite Hc, Hcs, (class_bytes_set _ _ c) by apply Hpg. etrans; [exact B|]. f_equal.
    assert (class_bytes (set_page pg' c) = class_bytes c) as ->; [|lia]. unfold class_bytes. destruct Hpg as [Hc' Hp'].
    rewrite (set_page_map p_size c pg pg'); [done|apply (i_class _ _ I i c Hc')|done|done|done].
Qed.

(** A class with a new page. *)
Lemma with_class i c pg : class_ok i c -> page_ok c pg -> p_mem pg ∉ map p_mem (pages c) ->
  class_ok i (c <| pages ::= cons pg |> <| active_page := Some (p_mem pg) |> <| page_count ::= fun n => u64 (n + 1) |>
                <| page_bytes ::= fun n => u64 (n + p_size pg) |> <| total_chunks ::= fun n => u64 (n + chunks_total pg) |>).
Proof.
  intros [O1 O2 O3 O4 O5 O6 O7] Hp Hn. split; cbn [size pages active_page page_count page_bytes total_chunks upd map].
  - done.
  - by apply NoDup_cons.
  - intros a [= <-]. left.
  - intros q Hq. apply (page_ok_size c); [done|]. apply elem_of_cons in Hq as [->|Hq]; [done|by apply O4].
  - rewrite O5. unfold u64. rewrite Zplus_mod_idemp_l. cbn [length]. f_equal. lia.
  - rewrite O6. unfold u64. rewrite Zplus_mod_idemp_l. cbn [total foldr]. unfold total. f_equal. lia.
  - rewrite O7. unfold u64. rewrite Zplus_mod_idemp_l. cbn [total foldr]. unfold total. f_equal. lia.
Qed.

Lemma grow_run e s live i c : inv s live -> honest e s -> classes s !! i = Some c ->
  slab_grow_locked e i s = None \/
  exists s' c' pg, slab_grow_locked e i s = Some s' /\ inv s' live /\ same s s' /\ placed s' i c' pg /\ head (pages c') = Some pg /\
    (0 < free_top pg)%nat /\ size c' = size c.
Proof.
  intros [I C B] He Hc. pose proof (i_class _ _ I i c Hc) as Hco. destruct (class_bounds i c (co_size _ _ Hco)) as (Hi & Hb & Hn).
  unfold slab_grow_locked. rewrite Hc. cbn [mbind option_bind]. case_decide as Hm; [by left|]. apply (h_mmap _ _ He) in Hm.
  destruct (m_page e), (m_stack e); [|by left..]. right. set (a := mmap e _) in *. set (pg := Page a _ _ _ _ _).
  pose proof (new_page_ok c a Hn : page_ok c pg) as Ho.
  assert (p_mem pg ∉ map p_mem (pages c)) as Hnew.
  { intros Hin. apply list_elem_of_fmap in Hin as (q & Hq & Hin). cbn in Hq. destruct Hm as (? & _ & _ & Hd).
    pose proof (i_space _ _ I _ _ _ (placed_region i c q (conj Hc Hin))). destruct (Hd _ _ _ (placed_region i c q (conj Hc Hin))); unfold sizeof_hdr in *; lia. }
  pose proof (with_class i c pg Hco Ho Hnew) as Hco'. set (c' := upd total_chunks _ _) in Hco'.
  assert (forall k, 0 <= k < chunk_count c -> k ∈ free_list pg) as Hall.
  { intros k Hk. destruct (decide (k ∈ free_list pg)) as [|Hf]; [done|]. pose proof (push_room c pg k Ho Hk Hf). pose proof (po_len _ _ Ho). cbn in *. lia. }
  eexists _, c', pg. split; [reflexivity|]. set (s' := upd chunks _ _). assert (classes s' = <[i := c']> (classes s)) as Hcs by done.
  split_and!; [|done| |done|cbn; lia|done].
  - split.
    + by apply (grow_struct I Hc Ho Hall Hm (c' := c') eq_refl eq_refl Hco' Hcs).
    + by destruct C.
    + rewrite Hcs, (class_bytes_set _ _ c) by done. change (u64 (total_small_page_bytes (cnt s) + p_size pg) = u64 (total (map class_bytes (classes s)) - class_bytes c + (p_size pg + class_bytes c))).
      rewrite B. unfold u64. rewrite Zplus_mod_idemp_l. f_equal. lia.
  - split; [|left]. rewrite Hcs. apply list_lookup_insert_eq. by eapply lookup_lt_Some.
Qed.

Lemma other_run e s live i c sz : inv s live -> honest e s -> classes s !! i = Some c -> 0 < sz <= size c ->
  exists p s', other_page e i c sz s = Some (p, s') /\ granted sz s live p s'.
Proof.
  intros V He Hc Hsz. pose proof V as [I C B]. unfold other_page. destruct (class_bounds i c (co_size _ _ (i_class _ _ I i c Hc))) as (_ & ? & _).
  assert (forall s1 c1 pg, inv s1 live -> same s s1 -> placed s1 i c1 pg -> (0 < free_top pg)%nat -> size c1 = size c ->
    exists p s', take_chunk i pg sz (set_class i (c1 <| active_page := Some (p_mem pg) |>) s1) = Some (p, s') /\ granted sz s live p s') as Ht.
  { intros s1 c1 pg V1 Hs1 Hpg Hft Hz. destruct V1 as [I1 C1 B1]. pose proof Hpg as [Hc1 Hp1].
    assert (p_mem pg ∈ map p_mem (pages c1)) as Hin by (apply list_elem_of_fmap; by exists pg). pose proof (relabel_struct I1 Hc1 Hin) as I2.
    set (c2 := upd active_page _ _) in *. assert (inv (set_class i c2 s1) live) as V2.
    { split; [done|done|]. cbn [cnt set_class classes upd]. rewrite (class_bytes_set _ _ c1) by done. rewrite B1. f_equal.
      assert (class_bytes c2 = class_bytes c1) as -> by done. lia. }
    assert (placed (set_class i c2 s1) i c2 pg) as Hp2. { split; [apply list_lookup_insert_eq; by eapply lookup_lt_Some|done]. }
    destruct (take_run _ _ i c2 pg sz V2 Hp2 Hft) as (p & s' & E & Hs & G); [cbn; lia|]. exists p, s'. split; [done|]. split; [by etrans|done]. }
  destruct (List.find _ _) as [pg|] eqn:Ef.
  - apply List.find_some in Ef as [Hin Hf]. apply list_elem_of_In in Hin. apply bool_decide_eq_true in Hf. by apply (Ht s c pg).
  - destruct (grow_run e s live i c V He Hc) as [->|(s1 & c1 & pg & -> & V1 & Hs1 & Hp1 & Hh & Hft & Hz)].
    + destruct (fallback_malloc e sz s) as [p s'] eqn:E. exists p, s'. split; [done|].
      pose proof (fallback_run e s live sz V He) as G. rewrite E in G. apply G. lia.
    + destruct Hp1 as [Hc1 Hp1]. rewrite Hc1. cbn [mbind option_bind]. rewrite Hh. cbn [mbind option_bind]. by apply (Ht s1 c1 pg).
Qed.

Lemma small_run e s live i c sz : inv s live -> honest e s -> classes s !! i = Some c -> 0 < sz <= size c ->
  exists p s', small_malloc e i sz s = Some (p, s') /\ granted sz s live p s'.
Proof.
  intros V He Hc Hsz. pose proof V as [I _ _]. unfold small_malloc. rewrite Hc. cbn [mbind option_bind]. destruct (active_page c) as [a|] eqn:Ea; [|by apply other_run].
  pose proof (i_class _ _ I i c Hc) as Hco. apply (co_active _ _ Hco), list_elem_of_fmap in Ea as (pg & -> & Hp).
  assert (page_at (p_mem pg) c = Some pg) as ->.
  { apply find_unique; [done|by apply bool_decide_eq_true|]. intros q Hq Hb. apply bool_decide_eq_true in Hb.
    by destruct (placed_inj I i c q i c pg) as (_ & _ & ->). }
  cbn [mbind option_bind]. case_decide; [by apply other_run|]. apply (take_run s live i c pg sz V); [by split|lia|done].
Qed.

Lemma class_from_spec sz cs : forall k, match class_from sz cs k with
  | Some j => exists c, (k <= j)%nat /\ cs !! (j - k)%nat = Some c /\ sz <= size c
  | None => Forall (fun c => size c < sz) cs end.
Proof.
  induction cs as [|c cs IH]; intros k; cbn; [constructor|]. case_decide; [exists c; by rewrite Nat.sub_diag|]. specialize (IH (S k)).
  destruct (class_from sz cs (S k)) as [j|]; [|by constructor; [lia|]]. destruct IH as (c' & Hk & Hl & Hs). exists c'. split_and!; [lia| |done].
  by replace (j - k)%nat with (S (j - S k)) by lia.
Qed.
(** Every request of at most 1 KB has a class. *)
Lemma class_index_run s live sz : struct s live -> sz <= SMALL_MAX_SIZE -> exists i c, class_index_for sz s = Some i /\ classes s !! i = Some c /\ sz <= size c.
Proof.
  intros I Hsz. unfold class_index_for. pose proof (class_from_spec sz (classes s) 0) as H. destruct (class_from sz (classes s) 0) as [i|].
  - destruct H as (c & _ & Hc & Hs). rewrite Nat.sub_0_r in Hc. by exists i, c.
  - exfalso. destruct (lookup_lt_is_Some_2 (classes s) 18) as [c Hc]; [rewrite (i_len _ _ I); lia|]. pose proof (co_size _ _ (i_class _ _ I 18%nat c Hc)) as Hz.
    cbn in Hz. injection Hz as Hz. rewrite Forall_lookup in H. specialize (H 18%nat c Hc). unfold SMALL_MAX_SIZE in *. lia.
Qed.

Lemma slab_malloc_run e s live sz : inv s live -> honest e s -> 0 <= sz < 2 ^ 64 ->
  exists p s', custom_malloc e sz s = Some (p, s') /\ granted (Z.max 1 sz) s live p s'.
Proof.
  intros V He Hsz. unfold custom_malloc. replace (if decide (sz = 0) then 1 else sz) with (Z.max 1 sz) by (case_decide; lia).
  set (n := Z.max 1 sz). assert (0 < n < 2 ^ 64) as Hn by (unfold n; lia). case_decide as Hs.
  - destruct (class_index_run s live n (v_struct _ _ V) Hs) as (i & c & -> & Hc & Hc'). apply (small_run e s live i c n V He Hc). lia.
  - pose proof (large_run e s live n V He Hn) as G. destruct (large_malloc e n s) as [p s']. by exists p, s'.
Qed.

(** *** Which kind a pointer is *)

Definition kind_code (k : kind) : Z := match k with KSmall => 1 | KLarge => 2 | KFallback => 3 end.

Lemma read_small s live p b : struct s live -> live !! p = Some b -> b_kind b = KSmall ->
  exists i c pg ci, placed s i c pg /\ 0 <= ci < chunk_count c /\ ci ∉ free_list pg /\ p = p_mem pg + ci * chunk_total c + sizeof_chunk /\
    b = Block KSmall (b_req b) (size c) 0 /\ read_chunk p s = Some (Chunk (b_req b) CHUNK_MAGIC (Z.of_nat i)).
Proof.
  intros I Hp Hk. apply (i_live _ _ I) in Hp. unfold owns in Hp. rewrite Hk in Hp. destruct Hp as (i & c & pg & ci & Hpg & Hci & Hn & -> & Hh & Hc & Hm).
  exists i, c, pg, ci. split_and!; [done|lia|lia|done|done|destruct b; cbn in *; congruence|]. unfold read_chunk.
  replace (p_mem pg + ci * chunk_total c + sizeof_chunk - sizeof_chunk) with (p_mem pg + ci * chunk_total c) by lia. by rewrite Hh.
Qed.
(** The bytes before a large block never look like the header of a chunk. *)
Lemma read_hdr_block s live p b : struct s live -> live !! p = Some b -> b_kind b <> KSmall ->
  exists big sz n, b = block_of big sz n /\ hdrs big s !! (p - sizeof_hdr) = Some (hdr_of big sz n) /\ sizeof_hdr < n /\
    read_hdr p s = Some (hdr_of big sz n) /\ exists ch, read_chunk p s = Some ch /\ is_chunk ch = false.
Proof.
  intros I Hp Hk. pose proof (owns_region I p b Hp) as (t & a & m & Hr & Ha & Hb & Ht). pose proof (i_space _ _ I _ _ _ Hr) as Hsp. pose proof (i_req _ _ I _ _ Hp) as Hrq.
  apply (i_live _ _ I) in Hp. unfold owns in Hp.
  assert (exists big sz n, b = block_of big sz n /\ hdrs big s !! (p - sizeof_hdr) = Some (hdr_of big sz n) /\ sizeof_hdr < n /\ t = tag_of big) as (big & sz & n & -> & Hh & Hn & ->).
  { destruct (b_kind b) eqn:E; [done|destruct Hp as [Hp Hc]|destruct Hp as (Hp & Hc & Hm)].
    - exists true, (b_req b), (b_map b). split_and!; [destruct b; cbn in *; congruence|done|lia|by destruct t; destruct Ht].
    - exists false, (b_req b), (sizeof_hdr + b_req b). split_and!; [destruct b; cbn in *; congruence|done|lia|by destruct t; destruct Ht]. }
  exists big, sz, n. assert (a = p - sizeof_hdr) as -> by (destruct big; by destruct Ht).
  assert (read_hdr p s = Some (hdr_of big sz n)) as Hrd.
  { unfold read_hdr. destruct big; unfold hdrs in Hh; [by rewrite Hh|]. destruct (larges s !! _) as [h'|] eqn:E; [|done]. exfalso.
    pose proof (region_hdr s true _ h' E) as Hr'. pose proof (i_space _ _ I _ _ _ Hr'). destruct (i_apart _ _ I _ _ _ _ _ _ Hr Hr') as [[? _]|[?|?]]; unfold sizeof_hdr in *; lia || done. }
  split_and!; [done|done|done|done|]. exists (tail_chunk (hdr_of big sz n)). split.
  - unfold read_chunk. destruct (chunks s !! _) as [h'|] eqn:E; [|by rewrite Hrd]. exfalso.
    destruct (i_only _ _ I _ _ E) as (i & c & pg & ci & Hpg & Hci & He). pose proof (chunk_inside I _ _ _ _ Hpg Hci). destruct (placed_bounds I _ _ _ Hpg) as (_ & ? & _).
    destruct (i_apart _ _ I _ _ _ _ _ _ Hr (placed_region _ _ _ Hpg)) as [[Ht' _]|[?|?]]; [by destruct big|..];
      unfold chunk_total, sizeof_chunk, sizeof_hdr in *; lia.
  - unfold is_chunk, tail_chunk. cbn [magic]. rewrite bool_decide_eq_false_2; [done|]. assert (0 <= n < 2 ^ 48) as Hn'.
    { assert (m = n) as <-; [|unfold TOP, sizeof_hdr in *; lia]. destruct big; destruct Hr as (h' & Hh' & ->); cbn in *; rewrite Hh in Hh'; by injection Hh' as <-. }
    unfold hdr_of. cbn [h_size]. rewrite (Z.div_small n (2 ^ 48)) by lia. done.
Qed.

Lemma ptr_size_run s live p b : struct s live -> live !! p = Some b -> custom_ptr_size p s = Some (b_req b, kind_code (b_kind b)).
Proof.
  intros I Hp. unfold custom_ptr_size. rewrite decide_False.
  2: { destruct (owns_region I p b Hp) as (t & a & n & Hr & ? & _). pose proof (i_space _ _ I _ _ _ Hr). unfold b_hdr, sizeof_chunk, sizeof_hdr in *. destruct (b_kind b); lia. }
  destruct (decide (b_kind b = KSmall)) as [Hk|Hk].
  - destruct (read_small s live p b I Hp Hk) as (i & c & pg & ci & Hpg & _ & _ & _ & Hb & ->). cbn [mbind option_bind]. destruct (placed_bounds I _ _ _ Hpg) as (Hi & _).
    unfold is_chunk. cbn [magic class_idx]. rewrite !bool_decide_eq_true_2 by (unfold SMALL_CLASS_COUNT; done || lia). by rewrite Hk.
  - destruct (read_hdr_block s live p b I Hp Hk) as (big & sz & n & -> & _ & _ & Hr & ch & -> & Hch). cbn [mbind option_bind]. rewrite Hch, Hr. by destruct big.
Qed.

(** *** Freeing *)

Lemma reclaim_run s live i c pg : inv s live -> placed s i c pg -> chunks_in_use pg = 0 ->
  exists s', try_reclaim_page_locked i pg s = Some s' /\ inv s' live /\ same s s'.
Proof.
  intros [I C B] Hpg Hidle. unfold try_reclaim_page_locked. destruct Hpg as [Hc Hp]. rewrite Hc. cbn [mbind option_bind].
  case_decide; [by exists s|]. pose proof (i_class _ _ I i c Hc) as Hco. pose proof (without_class i c pg Hco Hp) as Hco'.
  set (c' := upd total_chunks _ _) in *. eexists. split; [reflexivity|]. set (s' := upd chunks _ _).
  assert (classes s' = <[i := c']> (classes s)) as Hcs by done. split; [|done]. split.
  - apply (reclaim_struct I (conj Hc Hp) Hidle (c' := c') eq_refl Hco'); try done.
    intros q. cbn. by rewrite !list_elem_of_In, filter_In, bool_decide_eq_true.
  - by destruct C.
  - rewrite Hcs, (class_bytes_set _ _ c) by done.
    assert (class_bytes c = p_size pg + class_bytes c') as ->.
    { unfold class_bytes. rewrite (total_perm _ _ (Permutation_map p_size (without_page c pg (co_nodup _ _ Hco) Hp))). done. }
    change (u64 (total_small_page_bytes (cnt s) - p_size pg) = u64 (total (map class_bytes (classes s)) - (p_size pg + class_bytes c') + class_bytes c')).
    rewrite B. unfold u64. rewrite Zminus_mod_idemp_l. f_equal. lia.
Qed.

Lemma small_free_run s live p b : inv s live -> live !! p = Some b -> b_kind b = KSmall ->
  exists s', (ch ← read_chunk p s; small_free (p - sizeof_chunk) ch s) = Some s' /\ inv s' (delete p live) /\ same s s'.
Proof.
  intros [I C B] Hp Hk. destruct (read_small s live p b I Hp Hk) as (i & c & pg & ci & Hpg & Hci & Hn & -> & Hb & ->). cbn [mbind option_bind].
  destruct (placed_bounds I _ _ _ Hpg) as (Hi & Hs & Hcc & O). unfold small_free. cbn [class_idx request_size]. rewrite Nat2Z.id.
  pose proof Hpg as [Hc Hin]. rewrite Hc. cbn [mbind option_bind].
  replace (p_mem pg + ci * chunk_total c + sizeof_chunk - sizeof_chunk) with (p_mem pg + ci * chunk_total c) by lia.
  rewrite (find_page s live i c pg ci I Hpg Hci). cbn [mbind option_bind].
  replace ((p_mem pg + ci * chunk_total c - p_mem pg) / chunk_total c) with ci
    by (replace (p_mem pg + ci * chunk_total c - p_mem pg) with (ci * chunk_total c) by lia; rewrite Z.div_mul; [done|unfold chunk_total, sizeof_chunk; lia]).
  rewrite u16_small by lia. rewrite decide_True by (by apply (push_room c pg ci)).
  rewrite decide_True by (pose proof (po_use _ _ O); pose proof (push_room c pg ci O Hci Hn); pose proof (po_len _ _ O); cbn; lia).
  set (s1 := set_class _ _ _). set (p := p_mem pg + ci * chunk_total c + sizeof_chunk) in *.
  assert (classes s1 = <[i := set_page (pushed pg ci) c]> (classes s)) as Hcs by done.
  assert (inv s1 (delete p live)) as V1.
  { assert (struct s1 (delete p live)) as I1 by (by apply (push_struct I Hpg Hci Hn Hcs)). split; [done| |].
    - rewrite Hb in Hp. by apply (counted_small_free s1).
    - rewrite Hcs, (class_bytes_set _ _ c) by done. etrans; [exact B|]. f_equal.
      assert (class_bytes (set_page (pushed pg ci) c) = class_bytes c) as ->; [|lia]. unfold class_bytes.
      rewrite (set_page_map p_size c pg); [done|apply (i_class _ _ I i c Hc)|done..]. }
  case_decide as Hz; [|by exists s1].
  destruct (reclaim_run s1 (delete p live) i (set_page (pushed pg ci) c) (pushed pg ci) V1) as (s2 & E & V2 & Hs2).
  { apply (swap_placed I Hpg (pg' := pushed pg ci) eq_refl Hcs). right. auto. }
  { exact Hz. }
  exists s2. split; [exact E|]. split; [done|]. by etrans.
Qed.

Lemma slab_free_run s live p b : inv s live -> live !! p = Some b -> exists s', custom_free p s = Some s' /\ inv s' (delete p live) /\ same s s'.
Proof.
  intros V Hp. pose proof V as [I C B]. unfold custom_free. rewrite decide_False.
  2: { destruct (owns_region I p b Hp) as (t & a & n & Hr & ? & _). pose proof (i_space _ _ I _ _ _ Hr). unfold b_hdr, sizeof_chunk, sizeof_hdr in *. destruct (b_kind b); lia. }
  destruct (decide (b_kind b = KSmall)) as [Hk|Hk].
  - destruct (small_free_run s live p b V Hp Hk) as (s' & E & H). exists s'. split; [|done].
    destruct (read_small s live p b I Hp Hk) as (i & c & pg & ci & Hpg & _ & _ & _ & _ & Hr). rewrite Hr in E |- *. cbn [mbind option_bind] in *.
    destruct (placed_bounds I _ _ _ Hpg) as (Hi & _). unfold is_chunk. cbn [magic class_idx]. rewrite !bool_decide_eq_true_2 by (unfold SMALL_CLASS_COUNT; done || lia). exact E.
  - destruct (read_hdr_block s live p b I Hp Hk) as (big & sz & n & -> & Hh & Hn & Hr & ch & -> & Hch). cbn [mbind option_bind]. rewrite Hch, Hr. cbn [mbind option_bind].
    destruct big; cbn [hdr_of h_magic].
    + rewrite decide_True by done. eexists. split; [reflexivity|]. split; [|done].
      assert (forall s', classes s' = classes s -> chunks s' = chunks s -> fallbacks s' = fallbacks s -> larges s' = delete (p - sizeof_hdr) (larges s) -> struct s' (delete p live)) as Hst.
      { intros s' ? ? ? ?. by apply (remove_struct I (big := true) Hh). }
      split; [by apply Hst|by apply (counted_large_free (s <| larges ::= delete (p - sizeof_hdr) |>)); [|apply Hst|..]|exact B].
    + rewrite decide_False, decide_True by done. eexists. split; [reflexivity|]. split; [|done].
      assert (forall s', classes s' = classes s -> chunks s' = chunks s -> larges s' = larges s -> fallbacks s' = delete (p - sizeof_hdr) (fallbacks s) -> struct s' (delete p live)) as Hst.
      { intros s' ? ? ? ?. by apply (remove_struct I (big := false) Hh). }
      split; [by apply Hst|by eapply (counted_fallback_free (s <| fallbacks ::= delete (p - sizeof_hdr) |>)); [apply Hst|..]|exact B].
Qed.

(** ** What an allocator promises *)

Inductive call := Malloc (n : Z) | Calloc (n sz : Z) | Realloc (p n : Z) | Free (p : Z).
Definition exec (e : env) (c : call) (s : kvs_mem_state_t) : option (Z * kvs_mem_state_t) :=
  match c with
  | Malloc n => kvs_malloc e n s
  | Calloc n sz => kvs_calloc e n sz s
  | Realloc p n => kvs_realloc e p n s
  | Free p => s ← kvs_free e p s; Some (0, s)
  end.

(** The blocks [m] with the sizes asked for, and a new one apart from them. *)
Definition fresh (m : gmap Z Z) (p n : Z) : Prop := 0 < p /\ forall q k, m !! q = Some k -> p + n <= q \/ q + k <= p.
(** The bytes outside of the block are as they were. *)
Definition outside (p n : Z) (d d' : Z -> Z) : Prop := forall a, a < p \/ p + n <= a -> d' a = d a.

Inductive alloc_step (m : gmap Z Z) (d : Z -> Z) : call -> Z -> gmap Z Z -> (Z -> Z) -> Prop :=
  | al_malloc n p : fresh m p (Z.max 1 n) -> alloc_step m d (Malloc n) p (<[p := Z.max 1 n]> m) d
  | al_malloc_null n : alloc_step m d (Malloc n) 0 m d
  | al_calloc n sz p d' : n * sz < 2 ^ 64 -> fresh m p (Z.max 1 (n * sz)) -> (forall a, p <= a < p + n * sz -> d' a = 0) ->
      outside p (n * sz) d d' -> alloc_step m d (Calloc n sz) p (<[p := Z.max 1 (n * sz)]> m) d'
  | al_calloc_null n sz : alloc_step m d (Calloc n sz) 0 m d
  | al_realloc_new n p : fresh m p (Z.max 1 n) -> alloc_step m d (Realloc 0 n) p (<[p := Z.max 1 n]> m) d
  | al_realloc_free p k : m !! p = Some k -> alloc_step m d (Realloc p 0) 0 (delete p m) d
  | al_realloc_stay p k n : m !! p = Some k -> 0 < n <= k -> alloc_step m d (Realloc p n) p m d
  | al_realloc_move p k n q d' : m !! p = Some k -> k < n -> fresh m q n -> (forall i, 0 <= i < k -> d' (q + i) = d (p + i)) ->
      outside q k d d' -> alloc_step m d (Realloc p n) q (delete p (<[q := n]> m)) d'
  | al_realloc_null p n : p = 0 \/ 0 < n -> alloc_step m d (Realloc p n) 0 m d
  | al_free p k : m !! p = Some k -> alloc_step m d (Free p) 0 (delete p m) d
  | al_free_null : alloc_step m d (Free 0) 0 m d.
Inductive alloc_run : gmap Z Z -> (Z -> Z) -> list call -> list Z -> gmap Z Z -> (Z -> Z) -> Prop :=
  | ar_nil m d : alloc_run m d [] [] m d
  | ar_cons m d c r m1 d1 cs rs m2 d2 : alloc_step m d c r m1 d1 -> alloc_run m1 d1 cs rs m2 d2 -> alloc_run m d (c :: cs) (r :: rs) m2 d2.

(** Sizes are [size_t]; a pointer given back is NULL or that of a block in use. *)
Definition size_ok (n : Z) : Prop := 0 <= n < 2 ^ 64.
Definition call_ok (m : gmap Z Z) (c : call) : Prop :=
  match c with
  | Malloc n => size_ok n
  | Calloc n sz => size_ok n /\ size_ok sz
  | Realloc p n => (p = 0 \/ is_Some (m !! p)) /\ size_ok n
  | Free p => p = 0 \/ is_Some (m !! p)
  end.

Definition sizes (live : gmap Z block) : gmap Z Z := b_req <$> live.
(** The state of a running allocator. *)
Record ready (s : kvs_mem_state_t) (live : gmap Z block) : Prop := {
  y_inv : inv s live;
  y_custom : backend s = KVS_MEM_CUSTOM;
  y_init : initialized s = true;
}.

Lemma granted_spec sz s live p s' : inv s live -> granted sz s live p s' -> backend s = KVS_MEM_CUSTOM -> initialized s = true ->
  (p = 0 /\ ready s' live) \/ (0 < p /\ live !! p = None /\ fresh (sizes live) p sz /\ exists b, b_req b = sz /\ ready s' (<[p := b]> live)).
Proof.
  intros V [(Hd & Hb & Hi) G] Hbk Hin. destruct G as [[-> V']|(Hp & Hn & b & Hr & V')]; [left; split; [done|]; split; [done|congruence..]|right].
  split_and!; [done|done| |exists b; split; [done|]; split; [done|congruence..]]. split; [done|]. intros q k Hq. unfold sizes in Hq.
  rewrite lookup_fmap in Hq. destruct (live !! q) as [b'|] eqn:E; [|done]. injection Hq as <-. pose proof (v_struct _ _ V') as I.
  assert (q <> p) as Hne by congruence. assert (<[p := b]> live !! p = Some b) as H1 by apply lookup_insert_eq.
  assert (<[p := b]> live !! q = Some b') as H2 by (by rewrite lookup_insert_ne).
  pose proof (i_req _ _ I _ _ H1). pose proof (i_req _ _ I _ _ H2). pose proof (live_apart I _ _ _ _ H1 H2 ltac:(done)) as Ha.
  unfold b_hdr, sizeof_chunk, sizeof_hdr in *. destruct (b_kind b), (b_kind b'); lia.
Qed.

(** The counters of calls do not matter. *)
Lemma honest_cnt e s f : honest e s -> honest e (s <| cnt ::= f |>).
Proof. intros [H1 H2 H3]. by split. Qed.
Lemma struct_same s s' live : classes s' = classes s -> chunks s' = chunks s -> larges s' = larges s -> fallbacks s' = fallbacks s -> struct s live -> struct s' live.
Proof.
  destruct s as [b i k cs ch lg fb d], s' as [b' i' k' cs' ch' lg' fb' d']. cbn. intros -> -> -> -> [H1 H2 H3 H4 H5 H6 H7 H8 H9 H10]. by split.
Qed.

(** The counters the invariant is about. *)
Definition tracked (k : counts) : list Z :=
  [current_small_inuse k; current_large_inuse_bytes k; active_large_map_bytes k; current_fallback_inuse_bytes k;
   current_requested_bytes k; current_allocated_bytes k; total_small_page_bytes k].
Lemma ready_same s s' live : classes s' = classes s -> chunks s' = chunks s -> larges s' = larges s -> fallbacks s' = fallbacks s ->
  tracked (cnt s') = tracked (cnt s) -> backend s' = backend s -> initialized s' = initialized s -> ready s live -> ready s' live.
Proof.
  intros H1 H2 H3 H4 H5 H6 H7 [[I [C1 C2 C3 C4 C5 C6] B] Hb Hi]. unfold tracked in H5. injection H5 as T1 T2 T3 T4 T5 T6 T7.
  split; [|congruence..]. split; [by apply (struct_same s)|split; congruence|]. by rewrite T7, H1.
Qed.

Lemma sizes_insert p b live : sizes (<[p := b]> live) = <[p := b_req b]> (sizes live).
Proof. apply fmap_insert. Qed.
Lemma sizes_delete p live : sizes (delete p live) = delete p (sizes live).
Proof. apply fmap_delete. Qed.
Lemma sizes_lookup p live : is_Some (sizes live !! p) -> exists b, live !! p = Some b /\ sizes live !! p = Some (b_req b).
Proof. unfold sizes. rewrite lookup_fmap. destruct (live !! p) as [b|]; [by exists b|]. by intros [? ?]. Qed.
Lemma live_pos s live p b : ready s live -> live !! p = Some b -> 0 < p.
Proof.
  intros [[I _ _] _ _] Hp. destruct (owns_region I p b Hp) as (t & a & n & Hr & ? & _). pose proof (i_space _ _ I _ _ _ Hr).
  unfold b_hdr, sizeof_chunk, sizeof_hdr in *. destruct (b_kind b); lia.
Qed.

(** [backend_malloc] of the custom backend. *)
Lemma backend_malloc_run e s live sz : ready s live -> honest e s -> size_ok sz ->
  exists p s', backend_malloc e sz s = Some (p, s') /\ data s' = data s /\
    ((p = 0 /\ ready s' live) \/
     (0 < p /\ live !! p = None /\ fresh (sizes live) p (Z.max 1 sz) /\ exists b, b_req b = Z.max 1 sz /\ ready s' (<[p := b]> live))).
Proof.
  intros [V Hb Hi] He Hsz. unfold backend_malloc. rewrite decide_True by done. destruct (slab_malloc_run e s live sz V He Hsz) as (p & s' & E & G).
  exists p, s'. split; [done|]. split; [by destruct G as [(? & _) _]|]. by apply (granted_spec _ s).
Qed.
Lemma backend_free_run s live p b : ready s live -> live !! p = Some b -> exists s', backend_free p s = Some s' /\ data s' = data s /\ ready s' (delete p live).
Proof.
  intros H Hp. pose proof (live_pos s live p b H Hp). destruct H as [V Hb Hi]. unfold backend_free. rewrite decide_False by lia. rewrite decide_True by done.
  destruct (slab_free_run s live p b V Hp) as (s' & E & V' & Hd & Hb' & Hi'). exists s'. split_and!; [done|done|]. split; [done|congruence..].
Qed.

(** A call in a ready state does what an allocator may do. *)
Definition conforms (c : call) (s : kvs_mem_state_t) (live : gmap Z block) (x : option (Z * kvs_mem_state_t)) : Prop :=
  exists r s' live', x = Some (r, s') /\ ready s' live' /\ alloc_step (sizes live) (data s) c r (sizes live') (data s').

Lemma malloc_conforms e s live n : ready s live -> honest e s -> size_ok n -> conforms (Malloc n) s live (backend_malloc e n s).
Proof.
  intros H He Hn. destruct (backend_malloc_run e s live n H He Hn) as (p & s' & -> & Hd & [[-> H']|(Hp & _ & Hf & b & Hb & H')]).
  - exists 0, s', live. rewrite Hd. split_and!; [done|done|constructor].
  - exists p, s', (<[p := b]> live). rewrite Hd, sizes_insert, Hb. split_and!; [done|done|by constructor].
Qed.
Lemma calloc_conforms e s live n sz : ready s live -> honest e s -> size_ok n -> size_ok sz -> conforms (Calloc n sz) s live (backend_calloc e n sz s).
Proof.
  intros H He Hn Hsz. unfold backend_calloc. case_decide as Hov; [exists 0, s, live; split_and!; [done|done|constructor]|].
  assert (n * sz < 2 ^ 64) as Hlt.
  { destruct (decide (n = 0)) as [->|Hne]; [lia|]. assert (sz <= SIZE_MAX / n) as Hle by lia. pose proof (Z.mul_div_le SIZE_MAX n). unfold size_ok, SIZE_MAX in *. nia. }
  assert (u64 (n * sz) = n * sz) as -> by (apply Z.mod_small; unfold size_ok in *; nia).
  destruct (backend_malloc_run e s live (n * sz) H He) as (p & s' & -> & Hd & G); [unfold size_ok in *; nia|]. cbn [mbind option_bind].
  destruct G as [[-> H']|(Hp & _ & Hf & b & Hb & H')].
  - exists 0, s', live. rewrite decide_True, Hd by done. split_and!; [done|done|constructor].
  - rewrite decide_False by lia. exists p, (memset0 p (n * sz) s'), (<[p := b]> live). split; [done|]. split; [by apply (ready_same s')|].
    rewrite sizes_insert, Hb. constructor; [done|done|..].
    + intros a Ha. cbn. by rewrite decide_True.
    + intros a Ha. cbn. rewrite decide_False by lia. by rewrite Hd.
Qed.
Lemma free_conforms s live p : ready s live -> p = 0 \/ is_Some (sizes live !! p) -> conforms (Free p) s live (s ← backend_free p s; Some (0, s)).
Proof.
  intros H [->|Hp].
  - exists 0, s, live. split_and!; [done|done|constructor].
  - apply sizes_lookup in Hp as (b & Hp & Hk). destruct (backend_free_run s live p b H Hp) as (s' & -> & Hd & H'). exists 0, s', (delete p live).
    rewrite sizes_delete, Hd. split_and!; [done|done|by econstructor].
Qed.
Lemma realloc_conforms e s live p n : ready s live -> honest e s -> p = 0 \/ is_Some (sizes live !! p) -> size_ok n ->
  conforms (Realloc p n) s live (backend_realloc e p n s).
Proof.
  intros H He Hp Hn. unfold backend_realloc. case_decide as Hp0.
  { subst p. destruct (backend_malloc_run e s live n H He Hn) as (p & s' & -> & Hd & [[-> H']|(Hp' & _ & Hf & b & Hb & H')]).
    - exists 0, s', live. rewrite Hd. split_and!; [done|done|constructor; by left].
    - exists p, s', (<[p := b]> live). rewrite Hd, sizes_insert, Hb. split_and!; [done|done|by constructor]. }
  destruct Hp as [?|Hp]; [done|]. apply sizes_lookup in Hp as (b & Hp & Hk). case_decide as Hn0.
  { subst n. destruct (backend_free_run s live p b H Hp) as (s' & -> & Hd & H'). exists 0, s', (delete p live). rewrite sizes_delete, Hd. split_and!; [done|done|by econstructor]. }
  rewrite decide_True by apply H. rewrite (ptr_size_run s live p b (v_struct _ _ (y_inv _ _ H)) Hp). cbn [mbind option_bind].
  rewrite decide_False by (by destruct (b_kind b)). case_decide as Hle.
  { exists p, s, live. split_and!; [done|done|]. apply (al_realloc_stay _ _ p (b_req b)); [done|]. unfold size_ok in *. lia. }
  destruct (backend_malloc_run e s live n H He Hn) as (q & s' & -> & Hd & [[-> H']|(Hq & Hqn & Hf & b' & Hb' & H')]); cbn [mbind option_bind].
  { exists 0, s', live. rewrite decide_True, Hd by done. split_and!; [done|done|]. constructor. right. unfold size_ok in *. lia. }
  rewrite decide_False by lia. rewrite decide_True by lia. replace (Z.max 1 n) with n in * by (unfold size_ok in *; lia).
  assert (q <> p) as Hne by congruence. set (s1 := memcpy q p (b_req b) s'). assert (ready s1 (<[q := b']> live)) as H1 by (by apply (ready_same s')).
  destruct (backend_free_run s1 (<[q := b']> live) p b H1) as (s2 & -> & Hd2 & H2); [by rewrite lookup_insert_ne|].
  exists q, s2, (delete p (<[q := b']> live)). split; [done|]. split; [done|]. rewrite sizes_delete, sizes_insert, Hb', Hd2.
  apply (al_realloc_move _ _ p (b_req b)); [done|lia|done|..].
  - intros i Hi. cbn. rewrite decide_True by lia. rewrite Hd. f_equal. lia.
  - intros a Ha. cbn. rewrite decide_False by lia. by rewrite Hd.
Qed.

Lemma exec_conforms e c s live : ready s live -> honest e s -> call_ok (sizes live) c -> conforms c s live (exec e c s).
Proof.
  intros H He Hc. assert (ensure_init e s = s) as Hi by (unfold ensure_init; by rewrite (y_init _ _ H)).
  destruct c as [n|n sz|p n|p]; cbn [exec call_ok] in *; unfold kvs_malloc, kvs_calloc, kvs_realloc, kvs_free; rewrite Hi; set (s1 := upd cnt _ s);
    assert (ready s1 live) as H1 by (by apply (ready_same s)); pose proof (honest_cnt e s _ He : honest e s1) as He1.
  - by apply (malloc_conforms e s1 live n).
  - destruct Hc. by apply (calloc_conforms e s1 live n sz).
  - destruct Hc. by apply (realloc_conforms e s1 live p n).
  - by apply (free_conforms s1 live p).
Qed.

(** ** Runs *)

Fixpoint run (cs : list (env * call)) (s : kvs_mem_state_t) : option (list Z * kvs_mem_state_t) :=
  match cs with
  | [] => Some ([], s)
  | (e, c) :: cs => '(r, s) ← exec e c s; '(rs, s) ← run cs s; Some (r :: rs, s)
  end.
(** The system is honest at every call, and the caller gives back only what is his. *)
Fixpoint legal (cs : list (env * call)) (s : kvs_mem_state_t) (m : gmap Z Z) : Prop :=
  match cs with
  | [] => True
  | (e, c) :: cs => honest e s /\ call_ok m c /\
      forall r s' m' d', exec e c s = Some (r, s') -> alloc_step m (data s) c r m' d' -> legal cs s' m'
  end.

Lemma run_conforms cs : forall s live, ready s live -> legal cs s (sizes live) ->
  exists rs s' live', run cs s = Some (rs, s') /\ ready s' live' /\ alloc_run (sizes live) (data s) (snd <$> cs) rs (sizes live') (data s').
Proof.
  induction cs as [|[e c] cs IH]; intros s live H Hl; cbn [run legal] in *; [by exists [], s, live; split_and!; [..|constructor]|].
  destruct Hl as (He & Hc & Hl). destruct (exec_conforms e c s live H He Hc) as (r & s1 & live1 & E & H1 & Hs). rewrite E. cbn [mbind option_bind].
  destruct (IH s1 live1 H1) as (rs & s2 & live2 & -> & H2 & Hr); [by eapply Hl|]. exists (r :: rs), s2, live2. split_and!; [done|done|by econstructor].
Qed.

(** The allocator after [kvs_mem_init("custom")]. *)
Definition started (e : env) : kvs_mem_state_t := (kvs_mem_init e (Some (str "custom")) g_mem0).2.
Lemma started_ready e : ready (started e) ∅.
Proof.
  assert (forall i c, classes g_mem0 !! i = Some c -> pages c = [] /\ class_ok i c) as Hc.
  { intros i c H. unfold g_mem0 in H. cbn [classes] in H. rewrite map_lookup in H. destruct (class_sizes !! i) as [z|] eqn:E; [|done]. cbn in H. injection H as <-.
    split; [done|]. split; cbn; try done; [constructor|]. by intros pg ?%not_elem_of_nil. }
  assert (forall i c pg, ~ placed (started e) i c pg) as Hp.
  { intros i c pg [H Hin]. destruct (Hc i c H) as [He _]. rewrite He in Hin. by apply not_elem_of_nil in Hin. }
  assert (forall t a n, ~ region (started e) t a n) as Hr.
  { intros [i| |] a n; cbn; [intros (c & pg & H & _); by apply Hp in H|..];
      intros (h & H & _); change ((∅ : gmap Z hdr_t) !! a = Some h) in H; by rewrite lookup_empty in H. }
  split; [|done|done]. split; [|done|done]. split; cbn; try done.
  - intros i c H. by apply Hc.
  - intros t a n H. by apply Hr in H.
  - intros t a n t' a' n' H. by apply Hr in H.
  - intros i c pg ci H. by apply Hp in H.
  - intros p b. rewrite lookup_empty. split; [done|]. unfold owns. destruct (b_kind b); [intros (i & c & pg & ci & H & _); by apply Hp in H|..].
    + intros [H _]. change ((∅ : gmap Z hdr_t) !! (p - sizeof_hdr) = Some (Hdr LARGE_MAGIC (b_req b) (b_map b))) in H. by rewrite lookup_empty in H.
    + intros [H _]. change ((∅ : gmap Z hdr_t) !! (p - sizeof_hdr) = Some (Hdr FALLBACK_MAGIC (b_req b) (sizeof_hdr + b_req b))) in H. by rewrite lookup_empty in H.
Qed.

(** *** Safety *)

(** C26: the custom allocator keeps the promise of [malloc].  After
    [kvs_mem_init("custom")], in any sequence of kvs_malloc, kvs_calloc,
    kvs_realloc and kvs_free calls in which the kernel and the C library hand
    out unused memory and only blocks in use are given back, no call reads
    unmapped memory or writes beyond a free stack; a new block shares no byte
    with any block in use; kvs_calloc clears it; kvs_realloc keeps the contents,
    and nothing else is written. *)
Theorem allocator_safe e cs :
  legal cs (started e) ∅ ->
  exists rs s m, run cs (started e) = Some (rs, s) /\ alloc_run ∅ (data (started e)) (snd <$> cs) rs m (data s).
Proof.
  intros Hl. destruct (run_conforms cs (started e) ∅ (started_ready e)) as (rs & s & live & E & _ & Hr); [by unfold sizes; rewrite fmap_empty|].
  exists rs, s, (sizes live). split; [done|]. unfold sizes in Hr at 1. by rewrite fmap_empty in Hr.
Qed.

(** *** Accounting *)

(** Without blocks in use, every chunk is free. *)
Lemma all_idle s i c pg : struct s ∅ -> placed s i c pg -> chunks_in_use pg = 0.
Proof.
  intros I Hpg. destruct (placed_bounds I _ _ _ Hpg) as (_ & _ & Hn & O). destruct (decide (Z.of_nat (free_top pg) = chunk_count c)) as [He|Hne]; [rewrite (po_use _ _ O); lia|].
  exfalso. assert (exists k, 0 <= k < chunk_count c /\ k ∉ free_list pg) as (k & Hk & Hf).
  { destruct (Forall_Exists_dec (fun k => k ∈ free_list pg) (fun k => k ∉ free_list pg) (fun k => decide _) (seqZ 0 (chunk_count c))) as [Ha|Hx].
    - assert (length (seqZ 0 (chunk_count c)) <= length (free_list pg))%nat as Hl.
      { apply submseteq_length, NoDup_submseteq; [apply NoDup_seqZ|]. by apply Forall_forall. }
      unfold free_list in Hl. rewrite length_seqZ, length_take in Hl. pose proof (po_top _ _ O). pose proof (po_len _ _ O). lia.
    - apply Exists_exists in Hx as (k & Hk & Hf). apply elem_of_seqZ in Hk. exists k. split; [lia|done]. }
  destruct (i_chunk _ _ I i c pg k Hpg Hk) as [r Hr].
  assert (owns s (p_mem pg + k * chunk_total c + sizeof_chunk) (Block KSmall r (size c) 0)) as Ho by (by exists i, c, pg, k).
  apply (i_live _ _ I) in Ho. by rewrite lookup_empty in Ho.
Qed.

(** C2: the statistics are exact.  After any legal run there are blocks in use,
    [live], which are those the pages, mappings and [malloc] blocks of the state
    hold ([owns]: a chunk that is not on the free stack of its page has the size of
    its class, a mapping what is left after the header) and whose sizes are those
    the sequence of calls left.  The requested bytes are the sum of the sizes asked
    for, the allocated bytes that of what the blocks have, the counters of small,
    mapped and [malloc] use and of active mappings the sums over the blocks of that
    kind (of what small blocks have, of what was asked for mapped and [malloc]
    blocks, of the mappings), and the reported fragmentation the difference of the first two; the page
    counters of every class and of all classes agree with the pages there are; and
    when nothing is in use every page is idle. *)
Theorem allocator_accounting e cs :
  legal cs (started e) ∅ ->
  exists rs s live, run cs (started e) = Some (rs, s) /\
    alloc_run ∅ (data (started e)) (snd <$> cs) rs (sizes live) (data s) /\
    (forall p b, live !! p = Some b <-> owns s p b) /\
    current_requested_bytes (cnt s) = sumf b_req live /\
    current_allocated_bytes (cnt s) = sumf b_cap live /\
    current_small_inuse (cnt s) = sumf (of_kind KSmall b_cap) live /\
    current_large_inuse_bytes (cnt s) = sumf (of_kind KLarge b_req) live /\
    active_large_map_bytes (cnt s) = sumf (of_kind KLarge b_map) live /\
    current_fallback_inuse_bytes (cnt s) = sumf (of_kind KFallback b_req) live /\
    internal_fragment_bytes (kvs_mem_get_stats s) = sumf b_cap live - sumf b_req live /\
    (forall i c, classes s !! i = Some c -> page_count c = u64 (Z.of_nat (length (pages c))) /\
       page_bytes c = u64 (class_bytes c) /\ total_chunks c = u64 (total (map chunks_total (pages c)))) /\
    total_small_page_bytes (cnt s) = u64 (total (map class_bytes (classes s))) /\
    (live = ∅ -> forall i c pg, placed s i c pg -> chunks_in_use pg = 0).
Proof.
  intros Hl. destruct (run_conforms cs (started e) ∅ (started_ready e)) as (rs & s & live & E & [[I C B] _ _] & Hr); [by unfold sizes; rewrite fmap_empty|].
  exists rs, s, live. unfold sizes in Hr at 1. rewrite fmap_empty in Hr. pose proof C as [C1 C2 C3 C4 C5 C6].
  assert (sumf b_req live <= sumf b_cap live) as Hle by (apply (sumf_le b_req b_cap); intros p b Hp; pose proof (i_req _ _ I p b Hp); lia).
  split_and!; try done.
  - apply (i_live _ _ I).
  - cbn. rewrite C5, C6, decide_True by lia. lia.
  - intros i c Hc. destruct (i_class _ _ I i c Hc). done.
  - intros -> i c pg Hpg. by apply (all_idle s i c pg).
Qed.

(** ** A small run *)

(** A system with one free region, and one without memory. *)
Definition os (a : Z) : env := Env (fun n => if decide (0 < n <= 2 ^ 20) then a else 0) (fun _ => 0) true true 4096 None.
Definition os_full : env := Env (fun _ => 0) (fun _ => 0) true true 4096 None.
Lemma os_full_honest s : honest os_full s.
Proof. split; cbn; [done..|lia]. Qed.
Lemma os_honest : honest (os 65536) (started os_full).
Proof.
  destruct (started_ready os_full) as [[I _ _] _ _]. split; cbn; [|done|lia]. intros n. case_decide; [|done]. intros _. unfold unused, TOP. split_and!; [lia|lia|lia|].
  intros t b m Hr. exfalso. clear - Hr. destruct t as [i| |]; destruct Hr as (x & Hr).
  - destruct Hr as (pg & [Hc Hp] & _). assert (pages x = []) as He; [|rewrite He in Hp; by apply not_elem_of_nil in Hp].
    change (map (fun z => Class z [] None 0 0 0) class_sizes !! i = Some x) in Hc. rewrite map_lookup in Hc. destruct (class_sizes !! i); [|done]. by injection Hc as <-.
  - destruct Hr as [Hr _]. change ((∅ : gmap Z hdr_t) !! b = Some x) in Hr. by rewrite lookup_empty in Hr.
  - destruct Hr as [Hr _]. change ((∅ : gmap Z hdr_t) !! b = Some x) in Hr. by rewrite lookup_empty in Hr.
Qed.

(** A block from a new page, one that the same page serves, and one there is no
    memory for; then the first is given back. *)
Definition first_ptr : Z := 65536 + 495 * 132 + 4.
Definition little : list (env * call) :=
  [(os 65536, Malloc 100); (os_full, Malloc 128); (os_full, Malloc 4096); (os_full, Free first_ptr)].
Example little_results : fst <$> run little (started os_full) = Some [first_ptr; first_ptr - 132; 0; 0].
Proof. vm_compute. reflexivity. Qed.

Lemma little_legal : legal little (started os_full) ∅.
Proof.
  cbn [legal little]. split; [exact os_honest|]. split; [cbn; unfold size_ok; lia|]. intros r1 s1 m1 d1 E1 A1.
  assert (r1 = first_ptr) as ->.
  { assert (fst <$> exec (os 65536) (Malloc 100) (started os_full) = Some first_ptr) as H by (vm_compute; reflexivity). rewrite E1 in H. by injection H. }
  assert (m1 !! first_ptr = Some 100) as M1. { inversion A1; subst. apply lookup_insert_eq. }
  split; [apply os_full_honest|]. split; [cbn; unfold size_ok; lia|]. intros r2 s2 m2 d2 E2 A2.
  assert (m2 !! first_ptr = Some 100) as M2.
  { inversion A2 as [n p [Hp Hf]| | | | | | | | | |]; subst; [|done]. rewrite lookup_insert_ne; [done|]. intros ->. destruct (Hf _ _ M1); lia. }
  split; [apply os_full_honest|]. split; [cbn; unfold size_ok; lia|]. intros r3 s3 m3 d3 E3 A3.
  assert (m3 !! first_ptr = Some 100) as M3.
  { inversion A3 as [n p [Hp Hf]| | | | | | | | | |]; subst; [|done]. rewrite lookup_insert_ne; [done|]. intros ->. destruct (Hf _ _ M2); lia. }
  split; [apply os_full_honest|]. split; [|done]. right. rewrite M3. by eexists.
Qed.

Lemma allocator_safe_witness :
  exists rs s m, run little (started os_full) = Some (rs, s) /\ alloc_run ∅ (data (started os_full)) (snd <$> little) rs m (data s).
Proof. apply allocator_safe. exact little_legal. Defined.
Lemma allocator_accounting_witness :
  exists rs s live, run little (started os_full) = Some (rs, s) /\
    alloc_run ∅ (data (started os_full)) (snd <$> little) rs (sizes live) (data s) /\
    current_allocated_bytes (cnt s) = sumf b_cap live.
Proof.
  destruct (allocator_accounting os_full little little_legal) as (rs & s & live & H1 & H2 & _ & _ & H3 & _).
  exact (ex_intro _ rs (ex_intro _ s (ex_intro _ live (conj H1 (conj H2 H3))))).
Defined.

(** The first block of a new page, for a pointer or a counter, is not aligned to 8 bytes. *)
Example first_block_misaligned : (fun r => r.1 mod 8) <$> exec (os 65536) (Malloc 8) (started os_full) = Some 4.
Proof. vm_compute. reflexivity. Qed.

End Mem.
