(* ===== verification/Resp.v ===== *)
(** * Resp: the wire protocol

    The RESP framing of [parse_resp_stream] in [src/main/kvstore.c] (arrays of
    bulk strings, inline commands and '+' control lines, with the leftover
    bytes kept for the next read), the framing of [pc_frame_ctx] in
    [src/ebpf_proxy/proxy_commit.c], which has to find the same commands in the
    captured stream, and the command builders [resp_build_cmd1..4].  The
    theorems state that what is built is parsed back, that splitting the stream
    into reads does not matter, and that the two framers agree.

    Positions are suffixes: the code's [buf + pos] is the list of bytes from
    [pos] on.  The interception of full-sync bytes on a replica is not part of
    this file. *)

From S2P Require Import Prelude Cstring.

Module Resp.

(** ** Scanning *)

(** The distance to the first CRLF: the loops
    [while (p + 1 < len && !(buf[p] == '\r' && buf[p + 1] == '\n')) p++]. *)
Fixpoint find_crlf (b : bytes) : option nat :=
  match b with
  | x :: t =>
      match t with
      | y :: _ => if decide (x = CR /\ y = LF) then Some O else S <$> find_crlf t
      | [] => None
      end
  | [] => None
  end.

(** The distance to the first newline. *)
Fixpoint find_lf (b : bytes) : option nat :=
  match b with
  | [] => None
  | x :: t => if decide (x = LF) then Some O else S <$> find_lf t
  end.

(** [split_inline_argv] on a C string: the words, at most [max]. *)
Fixpoint word (b : bytes) : bytes :=
  match b with
  | c :: r => if is_space c then [] else c :: word r
  | [] => []
  end.
Fixpoint split_inline_argv (fuel max : nat) (l : bytes) : list bytes :=
  match fuel, max with
  | S f, S m =>
      match skip_spaces l with
      | [] => []
      | r => word r :: split_inline_argv f m (drop (length (word r) + 1) r)
      end
  | _, _ => []
  end.

(** The arguments of one array, or why there are none: more bytes are needed,
    or the array is malformed, with the place the parser goes on from and
    whether a bulk length was bad. *)
Inductive scan :=
  | SArgs (args : list bytes) (rest : bytes)
  | SMore
  | SBad (bad_length : bool) (rest : bytes).

Section Scan.

(** How a bulk header is read, and whether argument [i] can be copied. *)
Context (blen_of : bytes -> option Z) (copied : nat -> bool).

Definition cons_arg (a : bytes) (s : scan) : scan :=
  match s with SArgs args rest => SArgs (a :: args) rest | s => s end.

(** The loop over the arguments; [n] are left, the next one has index [i]. *)
Fixpoint scan_args (n i : nat) (r : bytes) : scan :=
  match n with
  | O => SArgs [] r
  | S n' =>
      match r with
      | [] => SMore
      | c :: t =>
          if decide (c <> 36) then SBad false r
          else
            match find_crlf t with
            | None => SMore
            | Some h =>
                if decide (h >= 32)%nat then SBad false r
                else
                  match blen_of (take h t) with
                  | None => SBad true r
                  | Some bl =>
                      let d := drop (h + 2) t in
                      if decide (bl + 2 > Z.of_nat (length d)) then SMore
                      else if negb (copied i) then SBad false d
                      else
                        let d' := drop (Z.to_nat bl) d in
                        if decide (take 2 d' = crlf) then
                          cons_arg (take (Z.to_nat bl) d) (scan_args n' (S i) (drop 2 d'))
                        else SBad false d'
                  end
            end
      end
  end.

End Scan.

(** What one round of a framing loop does: stop for more bytes and keep all,
    stop and keep only the last byte, or go on. *)
Inductive outcome (A : Type) :=
  | Need
  | KeepLast
  | Take (xs : list A) (rest : bytes).
Arguments Need {A}.
Arguments KeepLast {A}.
Arguments Take {A}.

(** ** The server's parser *)

(** What the parser hands on: a command with its raw bytes, an error reply, or
    the words of a control line. *)
Inductive event :=
  | ECmd (argv : list bytes) (raw : bytes)
  | EErr (msg : bytes)
  | ECtl (argv : list bytes).

(** [argc = argc * 10 + digit] in [int] up to the first byte that is not a
    digit; the header is a C string. *)
Fixpoint read_int (wrap : Z -> Z) (acc : Z) (l : bytes) : Z * bytes :=
  match l with
  | c :: r => if is_digit c then read_int wrap (wrap (acc * 10 + (c - 48))) r else (acc, l)
  | [] => (acc, [])
  end.
Definition argc_of (b : bytes) : option nat :=
  let '(v, rest) := read_int i32 0 (cstr b) in
  if decide (rest <> [] \/ v <= 0 \/ v > 32) then None else Some (Z.to_nat v).
Definition blen_of (b : bytes) : option Z :=
  let '(v, rest) := read_int i64 0 (cstr b) in
  if decide (rest <> []) then None else if decide (v < 0) then None else Some v.

Section Parse.

(** Which allocations succeed: the copy of a control or inline line, and the
    copy of argument [i] (from the scratch buffer or the heap). *)
Context (line_ok : bool) (copied : nat -> bool).

(** A '+' line. *)
Definition control_step (b : bytes) : outcome event :=
  match find_crlf b with
  | None => KeepLast
  | Some n =>
      let line := take (n - 1) (drop 1 b) in
      let evs := if decide (n > 1)%nat
                 then if line_ok then [ECtl (split_inline_argv (length line) 8 (cstr line))] else []
                 else [] in
      Take evs (drop (n + 2) b)
  end.

(** An inline command. *)
Definition strip_cr (l : bytes) : bytes :=
  match last l with
  | Some c => if decide (c = CR) then take (length l - 1) l else l
  | None => l
  end.
Definition inline_step (b : bytes) : outcome event :=
  match find_lf b with
  | None => Need
  | Some e =>
      let line := strip_cr (take e b) in
      let rest := drop (e + 1) b in
      if decide (length line = 0%nat) then Take [] rest
      else if negb line_ok then Take [EErr (str "oom")] rest
      else
        let argv := split_inline_argv (length line) 32 (cstr line) in
        Take (if decide (argv <> []) then [ECmd argv (take (e + 1) b)] else []) rest
  end.

(** An array. *)
Definition array_step (b : bytes) : outcome event :=
  let t := drop 1 b in
  match find_crlf t with
  | None => Need
  | Some h =>
      let body := drop (h + 2) t in
      if decide (h >= 32)%nat then Take [] body
      else
        match argc_of (take h t) with
        | None => Take [EErr (str "invalid argc")] body
        | Some n =>
            match scan_args blen_of copied n 0 body with
            | SMore => Need
            | SBad bad rest => Take (if bad then [EErr (str "invalid bulk length")] else []) rest
            | SArgs args rest => Take [ECmd args (take (length b - length rest) b)] rest
            end
        end
  end.

(** One round of the loop of [parse_resp_stream]. *)
Definition parse_step (b : bytes) : outcome event :=
  match b with
  | [] => Need
  | c :: _ =>
      if decide (c = 43) then control_step b
      else if decide (c <> 42) then inline_step b
      else array_step b
  end.

End Parse.

(** ** The proxy's framer *)

Definition PC_CTX_BUF_CAP : Z := 2 * 1024 * 1024.

(** The digit loops of [pc_frame_ctx]: every byte is a digit and the value
    never exceeds [limit]. *)
Fixpoint strict_number (limit acc : Z) (l : bytes) : option Z :=
  match l with
  | [] => Some acc
  | c :: r =>
      if is_digit c then
        let acc := acc * 10 + (c - 48) in
        if decide (acc > limit) then None else strict_number limit acc r
      else None
  end.
Definition pc_argc_of (b : bytes) : option nat :=
  match strict_number 1000000 0 b with
  | Some v => if decide (v <= 0 \/ v > 32) then None else Some (Z.to_nat v)
  | None => None
  end.
Definition pc_blen_of (b : bytes) : option Z := strict_number PC_CTX_BUF_CAP 0 b.

(** One round of the loop of [pc_frame_ctx]; a frame is the raw command that
    [pc_frame_one] gets. *)
Definition pc_array_step (b : bytes) : outcome bytes :=
  let t := drop 1 b in
  match find_crlf t with
  | None => Need
  | Some h =>
      let body := drop (h + 2) t in
      if decide (h >= 32)%nat then Take [] body
      else
        match pc_argc_of (take h t) with
        | None => Take [] body
        | Some n =>
            match scan_args pc_blen_of (fun _ => true) n 0 body with
            | SMore => Need
            | SBad _ rest => Take [] rest
            | SArgs _ rest => Take [take (length b - length rest) b] rest
            end
        end
  end.
Definition pc_inline_step (b : bytes) : outcome bytes :=
  match find_lf b with
  | None => Need
  | Some e =>
      let line := strip_cr (take e b) in
      Take (if decide (skip_spaces line <> []) then [take (e + 1) b] else []) (drop (e + 1) b)
  end.
Definition pc_control_step (b : bytes) : outcome bytes :=
  match find_crlf (drop 1 b) with
  | None => Need
  | Some n => Take [] (drop (n + 3) b)
  end.
Definition pc_frame_step (b : bytes) : outcome bytes :=
  match b with
  | [] => Need
  | c :: _ =>
      if decide (c = 42) then pc_array_step b
      else if decide (c = 43) then pc_control_step b
      else pc_inline_step b
  end.

(** ** The loops *)

Section Loop.

Context {A : Type} (step : bytes -> outcome A).

(** The framing loop; every round that goes on takes at least one byte, so
    the length of the buffer bounds the rounds. *)
Fixpoint frame_loop (fuel : nat) (b : bytes) : list A * bytes :=
  match fuel with
  | O => ([], b)
  | S f =>
      match b with
      | [] => ([], [])
      | _ =>
          match step b with
          | Need => ([], b)
          | KeepLast => ([], drop (length b - 1) b)
          | Take xs rest => let '(ys, kept) := frame_loop f rest in (xs ++ ys, kept)
          end
      end
  end.
Definition frame (b : bytes) : list A * bytes := frame_loop (length b) b.

(** A stream that arrives in several reads: each read is appended to what the
    last one left over. *)
Fixpoint feed (kept : bytes) (chunks : list bytes) : list A * bytes :=
  match chunks with
  | [] => ([], kept)
  | c :: cs =>
      let '(xs, kept) := frame (kept ++ c) in
      let '(ys, kept) := feed kept cs in (xs ++ ys, kept)
  end.

End Loop.

(** [parse_resp_stream] and [pc_frame_ctx] on a buffer. *)
Definition parse_resp_stream (line_ok : bool) (copied : nat -> bool) (b : bytes) :
    list event * bytes := frame (parse_step line_ok copied) b.
Definition pc_frame_ctx (b : bytes) : list bytes * bytes := frame pc_frame_step b.

(** ** Building *)

(** [append_bulk] and the builders, into a buffer that is large enough. *)
Definition append_bulk (s : bytes) : bytes :=
  36 :: dec (Z.of_nat (length s)) ++ crlf ++ s ++ crlf.
Definition resp_build_cmd (args : list bytes) : bytes :=
  42 :: dec (Z.of_nat (length args)) ++ crlf ++ concat (map append_bulk args).
Definition resp_build_cmd1 (cmd : bytes) : bytes := resp_build_cmd [cmd].
Definition resp_build_cmd2 (cmd a1 : bytes) : bytes := resp_build_cmd [cmd; a1].
Definition resp_build_cmd3 (cmd a1 a2 : bytes) : bytes := resp_build_cmd [cmd; a1; a2].
Definition resp_build_cmd4 (cmd a1 a2 a3 : bytes) : bytes := resp_build_cmd [cmd; a1; a2; a3].

(** The reply builders: the bytes written when they fit, and the return value,
    which [snprintf] makes the length it needed. *)
Definition snprintf_fit (cap : nat) (s : bytes) : Z * bytes :=
  (Z.of_nat (length s), take (cap - 1) s).
Definition resp_simple_string (cap : nat) (s : bytes) : Z * bytes :=
  snprintf_fit cap (43 :: s ++ crlf).
Definition resp_error (cap : nat) (s : bytes) : Z * bytes :=
  snprintf_fit cap (str "-ERR " ++ s ++ crlf).
Definition resp_integer (cap : nat) (v : Z) : Z * bytes :=
  snprintf_fit cap (58 :: sdec v ++ crlf).
Definition resp_null_bulk (cap : nat) : Z * bytes := snprintf_fit cap (str "$-1" ++ crlf).
Definition resp_bulk (cap : nat) (s : bytes) : Z * bytes :=
  let hdr := 36 :: dec (Z.of_nat (length s)) ++ crlf in
  if decide (length hdr + length s + 2 > cap)%nat then (-1, take (cap - 1) hdr)
  else (Z.of_nat (length hdr + length s + 2), hdr ++ s ++ crlf).

(** ** Scanning is stable under more input *)

Lemma find_crlf_cons x y t :
  find_crlf (x :: y :: t) = if decide (x = CR /\ y = LF) then Some O else S <$> find_crlf (y :: t).
Proof. done. Qed.

Lemma find_crlf_lt b n : find_crlf b = Some n -> (n + 2 <= length b)%nat.
Proof.
  revert n. induction b as [|x t IH]; intros n; [done|]. destruct t as [|y t']; [done|].
  rewrite find_crlf_cons. case_decide; [intros [= <-]; cbn; lia|].
  destruct (find_crlf (y :: t')) as [m|]; [|done]. intros [= <-].
  specialize (IH m eq_refl). cbn in *. lia.
Qed.

Lemma find_crlf_app b c n : find_crlf b = Some n -> find_crlf (b ++ c) = Some n.
Proof.
  revert n. induction b as [|x t IH]; intros n; [done|]. destruct t as [|y t']; [done|].
  cbn [app]. rewrite !find_crlf_cons. case_decide; [done|].
  destruct (find_crlf (y :: t')) as [m|]; [|done]. intros [= <-].
  change (y :: t' ++ c) with ((y :: t') ++ c). by rewrite (IH m).
Qed.

Lemma find_lf_lt b n : find_lf b = Some n -> (n + 1 <= length b)%nat.
Proof.
  revert n. induction b as [|x t IH]; intros n; [done|]. cbn.
  case_decide; [intros [= <-]; lia|]. destruct (find_lf t) as [m|]; [|done]. intros [= <-].
  specialize (IH m eq_refl). lia.
Qed.

Lemma find_lf_app b c n : find_lf b = Some n -> find_lf (b ++ c) = Some n.
Proof.
  revert n. induction b as [|x t IH]; intros n; [done|]. cbn. case_decide; [done|].
  destruct (find_lf t) as [m|]; [|done]. intros [= <-]. by rewrite (IH m).
Qed.

Lemma drop_suffix {A} n (l : list A) : exists pre, l = pre ++ drop n l.
Proof. exists (take n l). by rewrite take_drop. Qed.

(** The bytes the parser goes on from, when it goes on. *)
Definition scan_rest (s : scan) : option bytes :=
  match s with SArgs _ r | SBad _ r => Some r | SMore => None end.
Definition scan_app (s : scan) (c : bytes) : scan :=
  match s with
  | SArgs a r => SArgs a (r ++ c)
  | SBad e r => SBad e (r ++ c)
  | SMore => SMore
  end.

Lemma scan_cons_app a s c : scan_app (cons_arg a s) c = cons_arg a (scan_app s c).
Proof. by destruct s. Qed.
Lemma scan_cons_rest a s : scan_rest (cons_arg a s) = scan_rest s.
Proof. by destruct s. Qed.

Lemma scan_args_app bo cp n i r c : (forall b v, bo b = Some v -> 0 <= v) ->
  scan_rest (scan_args bo cp n i r) <> None ->
  scan_args bo cp n i (r ++ c) = scan_app (scan_args bo cp n i r) c.
Proof.
  intros Hbo. revert i r. induction n as [|n IH]; intros i r; cbn [scan_args]; [done|].
  destruct r as [|x t]; [done|]. cbn [app]. case_decide; [done|].
  destruct (find_crlf t) as [h|] eqn:E; [|done].
  pose proof (find_crlf_lt _ _ E) as Hh. rewrite (find_crlf_app _ _ _ E).
  case_decide; [done|]. rewrite take_app_le by lia.
  destruct (bo (take h t)) as [bl|] eqn:Ebl; [|done]. apply Hbo in Ebl. rewrite drop_app_le by lia.
  set (d := drop (h + 2) t). cbv zeta. case_decide as Hb; [done|].
  rewrite (decide_False (P := bl + 2 > Z.of_nat (length (d ++ c)))) by (rewrite length_app; lia).
  destruct (cp i); cbn [negb]; [|done].
  rewrite drop_app_le by lia. rewrite (take_app_le (drop _ d)) by (rewrite length_drop; lia).
  case_decide; [|done]. rewrite scan_cons_rest, scan_cons_app, take_app_le by lia.
  intros Hr. rewrite <- IH by done. f_equal. rewrite drop_app_le by (rewrite length_drop; lia). done.
Qed.

Lemma scan_args_suffix bo cp n i r rest :
  scan_rest (scan_args bo cp n i r) = Some rest -> exists pre, r = pre ++ rest.
Proof.
  revert i r. induction n as [|n IH]; intros i r; cbn [scan_args].
  - intros [= <-]. by exists [].
  - destruct r as [|x t]; [done|]. case_decide; [intros [= <-]; by exists []|].
    destruct (find_crlf t) as [h|]; [|done]. case_decide; [intros [= <-]; by exists []|].
    destruct (bo (take h t)) as [bl|]; [|intros [= <-]; by exists []]. cbv zeta.
    case_decide; [done|].
    assert (forall r', (exists pre, drop (h + 2) t = pre ++ r') -> exists pre, x :: t = pre ++ r') as Hpre.
    { intros r' [pre Hp]. exists (x :: take (h + 2) t ++ pre). cbn. f_equal.
      by rewrite <- app_assoc, <- Hp, take_drop. }
    destruct (negb (cp i)); [intros [= <-]; apply Hpre; by exists []|].
    case_decide.
    + rewrite scan_cons_rest. intros Hr. apply IH in Hr as [pre Hp]. apply Hpre.
      exists (take (Z.to_nat bl) (drop (h + 2) t) ++ take 2 (drop (Z.to_nat bl) (drop (h + 2) t)) ++ pre).
      rewrite <- !app_assoc, <- Hp, !take_drop. done.
    + intros [= <-]. apply Hpre. apply drop_suffix.
Qed.

(** ** Rounds *)

Section Rounds.

Context {A : Type}.

Definition take_app (o : outcome A) (c : bytes) : outcome A :=
  match o with Take xs r => Take xs (r ++ c) | o => o end.

(** A step function that decides on what it has seen: more bytes do not change
    a round that goes on, and such a round consumes a part of the buffer. *)
Record framer (step : bytes -> outcome A) : Prop := {
  fr_app : forall b c xs r, step b = Take xs r -> step (b ++ c) = Take xs (r ++ c);
  fr_suffix : forall b xs r, step b = Take xs r -> exists pre, pre <> [] /\ b = pre ++ r;
}.

Context (step : bytes -> outcome A) (Hstep : framer step).

Lemma step_shorter b xs r : step b = Take xs r -> (length r < length b)%nat.
Proof.
  intros H. apply (fr_suffix _ Hstep) in H as (pre & Hp & ->). rewrite length_app.
  destruct pre; [done|]. cbn. lia.
Qed.

Lemma frame_loop_fuel f f' b :
  (length b <= f)%nat -> (length b <= f')%nat -> frame_loop step f b = frame_loop step f' b.
Proof.
  revert f' b. induction f as [|f IH]; intros f' b Hf Hf'.
  - destruct b; [|cbn in Hf; lia]. by destruct f'.
  - destruct f' as [|f']; [destruct b; [done|cbn in Hf'; lia]|]. cbn [frame_loop].
    destruct b as [|x t]; [done|]. destruct (step (x :: t)) as [| |xs r] eqn:E; [done..|].
    apply step_shorter in E. by rewrite (IH f') by lia.
Qed.

(** The loop, one round unfolded. *)
Lemma frame_unfold b :
  frame step b =
    match b with
    | [] => ([], [])
    | _ =>
        match step b with
        | Need => ([], b)
        | KeepLast => ([], drop (length b - 1) b)
        | Take xs rest => let '(ys, kept) := frame step rest in (xs ++ ys, kept)
        end
    end.
Proof.
  unfold frame at 1. destruct b as [|x t]; [done|]. cbn [length frame_loop].
  destruct (step (x :: t)) as [| |xs r] eqn:E; [done..|]. unfold frame.
  rewrite (frame_loop_fuel _ (length r)); [done| |done]. apply step_shorter in E. cbn in E. lia.
Qed.

(** Splitting the input is the same as having it at once, as long as the
    first part does not end inside a line whose start is dropped. *)
Lemma frame_app b c :
  (forall x, step x <> KeepLast) ->
  frame step (b ++ c) =
    let '(xs, kept) := frame step b in
    let '(ys, kept') := frame step (kept ++ c) in (xs ++ ys, kept').
Proof.
  intros Hk. induction b as [b IH] using (induction_ltof1 _ (@length _)). unfold ltof in IH.
  rewrite (frame_unfold b). destruct b as [|x t]; [cbn [app]; by destruct (frame step c)|].
  destruct (step (x :: t)) as [| |xs r] eqn:E.
  - cbv iota beta. by destruct (frame step ((x :: t) ++ c)).
  - by apply Hk in E.
  - rewrite (frame_unfold ((x :: t) ++ c)). cbn [app].
    change (x :: t ++ c) with ((x :: t) ++ c). rewrite (fr_app _ Hstep _ _ _ _ E).
    rewrite IH by (by eapply step_shorter).
    destruct (frame step r) as [ys kept]. destruct (frame step (kept ++ c)) as [zs kept'].
    by rewrite app_assoc.
Qed.

Lemma feed_concat kept cs :
  (forall x, step x <> KeepLast) ->
  frame step kept = ([], kept) ->
  feed step kept cs = frame step (kept ++ concat cs).
Proof.
  intros Hk. revert kept. induction cs as [|c cs IH]; intros kept Hkept; cbn.
  - by rewrite app_nil_r, Hkept.
  - rewrite app_assoc, (frame_app (kept ++ c)) by done.
    destruct (frame step (kept ++ c)) as [xs k] eqn:E. rewrite IH; [done|].
    pose proof (frame_app (kept ++ c) [] Hk) as H. rewrite app_nil_r, E, app_nil_r in H.
    destruct (frame step k) as [ys k']. injection H as H1 <-. f_equal.
    symmetry in H1. apply (f_equal length) in H1. rewrite length_app in H1.
    apply nil_length_inv. lia.
Qed.

End Rounds.

(** ** Both parsers are framers *)

Lemma blen_of_nonneg b v : blen_of b = Some v -> 0 <= v.
Proof.
  unfold blen_of. destruct (read_int i64 0 (cstr b)) as [w rest]. repeat case_decide; try done.
  intros [= <-]. lia.
Qed.

Lemma strict_number_nonneg limit acc l v :
  0 <= acc -> strict_number limit acc l = Some v -> 0 <= v.
Proof.
  revert acc. induction l as [|c r IH]; intros acc Ha; cbn; [by intros [= <-]|].
  destruct (is_digit c) eqn:E; [|done]. apply is_digit_spec in E. case_decide; [done|].
  apply IH. lia.
Qed.

Lemma pc_blen_of_nonneg b v : pc_blen_of b = Some v -> 0 <= v.
Proof. by apply strict_number_nonneg. Qed.

(** The raw bytes of a round are what it consumed. *)
Lemma raw_app (b c rest : bytes) : (exists pre, b = pre ++ rest) ->
  take (length (b ++ c) - length (rest ++ c)) (b ++ c) = take (length b - length rest) b.
Proof.
  intros [pre ->]. rewrite <- !app_assoc, !length_app.
  replace (length pre + (length rest + length c) - (length rest + length c))%nat with (length pre) by lia.
  replace (length pre + length rest - length rest)%nat with (length pre) by lia.
  by rewrite !take_app_length.
Qed.

Lemma array_scan_suffix b h bo cp n rest :
  find_crlf (drop 1 b) = Some h ->
  scan_rest (scan_args bo cp n 0 (drop (h + 2) (drop 1 b))) = Some rest ->
  exists pre, pre <> [] /\ b = pre ++ rest.
Proof.
  intros Hh Hr. apply find_crlf_lt in Hh. apply scan_args_suffix in Hr as [pre Hp].
  destruct b as [|x t]; [cbn in Hh; lia|]. cbn in *. rewrite ?drop_0 in *.
  exists (x :: take (h + 2) t ++ pre). split; [done|]. cbn. f_equal.
  by rewrite <- app_assoc, <- Hp, take_drop.
Qed.

Lemma drop_suffix_ne n (b : bytes) : (0 < n)%nat -> b <> [] -> exists pre, pre <> [] /\ b = pre ++ drop n b.
Proof.
  intros Hn Hb. exists (take n b). rewrite take_drop. split; [|done].
  destruct b, n; try done; lia.
Qed.

Lemma array_step_framer cp b xs r c :
  array_step cp b = Take xs r ->
  array_step cp (b ++ c) = Take xs (r ++ c) /\ exists pre, pre <> [] /\ b = pre ++ r.
Proof.
  unfold array_step. destruct b as [|x t]; [done|]. cbn [app drop]. rewrite ?drop_0.
  destruct (find_crlf t) as [h|] eqn:E; [|done]. pose proof (find_crlf_lt _ _ E) as Hh.
  rewrite (find_crlf_app _ _ _ E). cbv zeta. rewrite drop_app_le by lia.
  assert (forall n, exists pre, pre <> [] /\ x :: t = pre ++ drop n t) as Hsuf.
  { intros n. apply (drop_suffix_ne (S n) (x :: t)); [lia|done]. }
  case_decide; [intros [= <- <-]; split; [done|apply Hsuf]|].
  rewrite take_app_le by lia. destruct (argc_of (take h t)) as [n|].
  2: { intros [= <- <-]. split; [done|apply Hsuf]. }
  pose proof (scan_args_app blen_of cp n 0 (drop (h + 2) t) c blen_of_nonneg) as Ha.
  pose proof (array_scan_suffix (x :: t) h blen_of cp n) as Hs. cbn [drop] in Hs. rewrite drop_0 in Hs.
  destruct (scan_args blen_of cp n 0 (drop (h + 2) t)) as [args rest| |bad rest]; [|done|];
    rewrite Ha by done; cbn [scan_app]; intros [= <- <-].
  - destruct (Hs rest E eq_refl) as (pre & Hp & Hb). split; [|eauto].
    change (x :: t ++ c) with ((x :: t) ++ c). rewrite raw_app by eauto. done.
  - split; [done|]. by apply Hs.
Qed.

Lemma strip_lf_app b c e : find_lf b = Some e ->
  take e (b ++ c) = take e b /\ drop (e + 1) (b ++ c) = drop (e + 1) b ++ c /\
  take (e + 1) (b ++ c) = take (e + 1) b.
Proof.
  intros He. apply find_lf_lt in He. by rewrite !take_app_le, drop_app_le by lia.
Qed.

Lemma parse_step_framer lo cp : framer (parse_step lo cp).
Proof.
  assert (forall b c xs r, parse_step lo cp b = Take xs r ->
    parse_step lo cp (b ++ c) = Take xs (r ++ c) /\ exists pre, pre <> [] /\ b = pre ++ r) as H.
  { intros b c xs r. destruct b as [|x t]; [done|]. unfold parse_step. cbn [app].
    destruct (decide (x = 43)); [|destruct (decide (x <> 42))].
    - unfold control_step. change (x :: t ++ c) with ((x :: t) ++ c).
      destruct (find_crlf (x :: t)) as [n|] eqn:E; [|done].
      pose proof (find_crlf_lt _ _ E) as Hn. rewrite (find_crlf_app _ _ _ E).
      rewrite !drop_app_le by lia. rewrite take_app_le by (rewrite length_drop; lia).
      intros [= <- <-]. split; [done|]. apply drop_suffix_ne; [lia|done].
    - unfold inline_step. change (x :: t ++ c) with ((x :: t) ++ c).
      destruct (find_lf (x :: t)) as [e|] eqn:E; [|done]. rewrite (find_lf_app _ _ _ E).
      destruct (strip_lf_app _ c _ E) as (-> & -> & ->). cbv zeta.
      intros Ht. assert (r = drop (e + 1) (x :: t)) as -> by (repeat case_match; congruence).
      split; [repeat case_match; congruence|]. apply drop_suffix_ne; [lia|done].
    - change (x :: t ++ c) with ((x :: t) ++ c). apply array_step_framer. }
  split; intros b; [intros c xs r Hb; by apply H|]. intros xs r Hb. by destruct (H b [] xs r Hb).
Qed.

Lemma pc_frame_step_framer : framer pc_frame_step.
Proof.
  assert (forall b c xs r, pc_frame_step b = Take xs r ->
    pc_frame_step (b ++ c) = Take xs (r ++ c) /\ exists pre, pre <> [] /\ b = pre ++ r) as H.
  { intros b c xs r. destruct b as [|x t]; [done|]. unfold pc_frame_step. cbn [app].
    assert (forall n, exists pre, pre <> [] /\ x :: t = pre ++ drop n t) as Hsuf.
    { intros n. apply (drop_suffix_ne (S n) (x :: t)); [lia|done]. }
    destruct (decide (x = 42)); [|destruct (decide (x = 43))].
    - unfold pc_array_step. cbn [drop]. rewrite ?drop_0.
      destruct (find_crlf t) as [h|] eqn:E; [|done]. pose proof (find_crlf_lt _ _ E) as Hh.
      rewrite (find_crlf_app _ _ _ E). cbv zeta. rewrite drop_app_le by lia.
      case_decide; [intros [= <- <-]; split; [done|apply Hsuf]|].
      rewrite take_app_le by lia. destruct (pc_argc_of (take h t)) as [n|].
      2: { intros [= <- <-]. split; [done|apply Hsuf]. }
      pose proof (scan_args_app pc_blen_of (fun _ => true) n 0 (drop (h + 2) t) c pc_blen_of_nonneg) as Ha.
      pose proof (array_scan_suffix (x :: t) h pc_blen_of (fun _ => true) n) as Hs.
      cbn [drop] in Hs. rewrite drop_0 in Hs.
      destruct (scan_args pc_blen_of _ n 0 (drop (h + 2) t)) as [args rest| |bad rest]; [|done|];
        rewrite Ha by done; cbn [scan_app]; intros [= <- <-].
      + destruct (Hs rest E eq_refl) as (pre & Hp & Hb). split; [|eauto].
        change (x :: t ++ c) with ((x :: t) ++ c). rewrite raw_app by eauto. done.
      + split; [done|]. by apply Hs.
    - unfold pc_control_step. cbn [drop]. rewrite ?drop_0.
      destruct (find_crlf t) as [m|] eqn:E; [|done]. pose proof (find_crlf_lt _ _ E) as Hm.
      rewrite (find_crlf_app _ _ _ E). change (x :: t ++ c) with ((x :: t) ++ c).
      rewrite drop_app_le by (cbn; lia). intros [= <- <-]. split; [done|].
      apply drop_suffix_ne; [lia|done].
    - unfold pc_inline_step. change (x :: t ++ c) with ((x :: t) ++ c).
      destruct (find_lf (x :: t)) as [e|] eqn:E; [|done]. rewrite (find_lf_app _ _ _ E).
      destruct (strip_lf_app _ c _ E) as (-> & -> & ->). cbv zeta. intros [= <- <-].
      split; [done|]. apply drop_suffix_ne; [lia|done]. }
  split; intros b; [intros c xs r Hb; by apply H|]. intros xs r Hb. by destruct (H b [] xs r Hb).
Qed.

(** What the proxy frames is what it consumes, so a frame is not empty and not
    longer than the buffer. *)
Lemma pc_frame_step_raw b xs r : pc_frame_step b = Take xs r ->
  xs = [] \/ xs = [take (length b - length r) b].
Proof.
  destruct b as [|x t]; [done|]. unfold pc_frame_step. case_decide; [|case_decide].
  - unfold pc_array_step. repeat case_match; try done; intros [= <- <-]; auto.
  - unfold pc_control_step. case_match; [|done]. intros [= <- <-]. by left.
  - unfold pc_inline_step. destruct (find_lf (x :: t)) as [e|] eqn:E; [|done]. apply find_lf_lt in E.
    intros [= <- <-]. case_decide; [|by left]. right. f_equal. f_equal. rewrite length_drop. lia.
Qed.
Lemma pc_frames_bounded b : Forall (fun f => (0 < length f <= length b)%nat) (pc_frame_ctx b).1 /\
  (length (pc_frame_ctx b).2 <= length b)%nat.
Proof.
  induction b as [b IH] using (induction_ltof1 _ (@length _)). unfold ltof in IH.
  unfold pc_frame_ctx in *. rewrite (frame_unfold _ pc_frame_step_framer b).
  destruct b as [|x t]; [by split|]. destruct (pc_frame_step (x :: t)) as [| |xs r] eqn:E.
  - by split.
  - cbn [fst snd]. rewrite length_drop. split; [constructor|lia].
  - pose proof (step_shorter _ pc_frame_step_framer _ _ _ E) as Hr. specialize (IH r Hr).
    destruct (frame pc_frame_step r) as [ys kept]. cbn [fst snd] in *. destruct IH as [IH1 IH2].
    split; [|lia]. apply Forall_app. split.
    + destruct (pc_frame_step_raw _ _ _ E) as [-> | ->]; constructor; [|constructor].
      rewrite length_take. lia.
    + eapply Forall_impl; [exact IH1|]. intros f ?. cbn beta in *. lia.
Qed.

(** ** Commands on the wire *)

(** A command as a client sends it: an array of bulk strings or an inline line
    (without its newline). *)
Inductive wire :=
  | WArray (args : list bytes)
  | WInline (line : bytes).

Definition encode (w : wire) : bytes :=
  match w with
  | WArray args => resp_build_cmd args
  | WInline line => line ++ [LF]
  end.

(** What the server makes of it. *)
Definition command_of (w : wire) : event :=
  match w with
  | WArray args => ECmd args (encode w)
  | WInline line =>
      ECmd (split_inline_argv (length (strip_cr line)) 32 (strip_cr line)) (encode w)
  end.

(** The commands both framers handle alike: up to 32 arguments that fit the
    proxy's buffer; lines without NUL that hold a word and do not look like an
    array or a control line. *)
Definition wire_ok (w : wire) : Prop :=
  match w with
  | WArray args =>
      (1 <= length args <= 32)%nat /\ Forall (fun a => Z.of_nat (length a) <= PC_CTX_BUF_CAP) args
  | WInline line =>
      cstr_ok line /\ LF ∉ line /\ skip_spaces (strip_cr line) <> [] /\
      head line <> Some 42 /\ head line <> Some 43
  end.

Lemma find_crlf_line l r : CR ∉ l -> find_crlf (l ++ crlf ++ r) = Some (length l).
Proof.
  unfold crlf. induction l as [|x l IH]; intros Hl; [done|].
  apply not_elem_of_cons in Hl as [Hx Hl]. specialize (IH Hl).
  destruct l as [|y l]; cbn [app length] in *; rewrite find_crlf_cons;
    rewrite decide_False by (by intros [? _]); by rewrite IH.
Qed.

Lemma dec_no_cr n : 0 <= n -> CR ∉ dec n.
Proof.
  intros Hn Hin. pose proof (dec_digit n Hn) as Hd. rewrite Forall_forall in Hd.
  specialize (Hd _ Hin). unfold CR in Hd. lia.
Qed.

Lemma digits_length fuel n : (length (digits fuel n) <= fuel)%nat.
Proof.
  revert n. induction fuel as [|f IH]; intros n; cbn; [lia|]. case_decide; cbn; [lia|].
  rewrite length_app. cbn. specialize (IH (n / 10)). lia.
Qed.

Lemma dec_short n : 0 <= n < 2 ^ 31 -> (length (dec n) < 32)%nat.
Proof.
  intros Hn. unfold dec. pose proof (digits_length (S (Z.to_nat (Z.log2 n))) n).
  destruct (decide (n = 0)) as [->|]; [cbn in *; lia|].
  assert (Z.log2 n < 31) by (apply Z.log2_lt_pow2; lia). pose proof (Z.log2_nonneg n). lia.
Qed.

Lemma read_digits_mono acc l : 0 <= acc -> Forall (fun c => 48 <= c <= 57) l ->
  acc <= fst (read_digits acc l).
Proof.
  intros Ha H. revert acc Ha. induction H as [|c l Hc _ IH]; intros acc Ha; cbn; [lia|].
  rewrite (proj2 (is_digit_spec c)) by done. specialize (IH (acc * 10 + (c - 48))). lia.
Qed.

(** Reading digits in a machine type that holds the value is reading them. *)
Lemma read_int_digits wrap B acc l :
  (forall z, 0 <= z < B -> wrap z = z) -> 0 <= acc ->
  Forall (fun c => 48 <= c <= 57) l -> fst (read_digits acc l) < B ->
  read_int wrap acc l = (fst (read_digits acc l), []).
Proof.
  intros Hw Ha H. revert acc Ha. induction H as [|c l Hc Hl IH]; intros acc Ha HB; cbn in *; [done|].
  rewrite (proj2 (is_digit_spec c)) in * by done.
  pose proof (read_digits_mono (acc * 10 + (c - 48)) l ltac:(lia) Hl).
  rewrite Hw by lia. apply IH; [lia|done].
Qed.

Lemma strict_number_digits limit acc l : 0 <= acc ->
  Forall (fun c => 48 <= c <= 57) l -> fst (read_digits acc l) <= limit ->
  strict_number limit acc l = Some (fst (read_digits acc l)).
Proof.
  intros Ha H. revert acc Ha. induction H as [|c l Hc Hl IH]; intros acc Ha HB; cbn in *; [done|].
  rewrite (proj2 (is_digit_spec c)) in * by done.
  pose proof (read_digits_mono (acc * 10 + (c - 48)) l ltac:(lia) Hl).
  rewrite decide_False by lia. apply IH; [lia|done].
Qed.


Lemma argc_of_dec n : (1 <= n <= 32)%nat -> argc_of (dec (Z.of_nat n)) = Some n.
Proof.
  intros Hn. unfold argc_of. rewrite cstr_id by (apply dec_cstr_ok; lia).
  rewrite (read_int_digits i32 (2 ^ 31)); try lia.
  - rewrite dec_value by lia. rewrite decide_False by (intros [?|?]; [done|lia]). f_equal. lia.
  - intros z Hz. apply i32_small. lia.
  - apply dec_digit. lia.
  - rewrite dec_value; lia.
Qed.

Lemma blen_of_dec n : Z.of_nat n < 2 ^ 31 -> blen_of (dec (Z.of_nat n)) = Some (Z.of_nat n).
Proof.
  intros Hn. unfold blen_of. rewrite cstr_id by (apply dec_cstr_ok; lia).
  rewrite (read_int_digits i64 (2 ^ 63)); try lia.
  - rewrite dec_value by lia. rewrite (decide_False (P := [] <> [])) by auto.
    by rewrite decide_False by lia.
  - intros z Hz. apply i64_small. lia.
  - apply dec_digit. lia.
  - rewrite dec_value; lia.
Qed.

Lemma pc_argc_of_dec n : (1 <= n <= 32)%nat -> pc_argc_of (dec (Z.of_nat n)) = Some n.
Proof.
  intros Hn. unfold pc_argc_of. rewrite strict_number_digits; [|lia|apply dec_digit; lia|].
  - rewrite dec_value by lia. rewrite decide_False by lia. f_equal. lia.
  - rewrite dec_value; lia.
Qed.

Lemma pc_blen_of_dec n : Z.of_nat n <= PC_CTX_BUF_CAP -> pc_blen_of (dec (Z.of_nat n)) = Some (Z.of_nat n).
Proof.
  intros Hn. unfold pc_blen_of. rewrite strict_number_digits; [|lia|apply dec_digit; lia|].
  - by rewrite dec_value by lia.
  - rewrite dec_value; lia.
Qed.

(** Built arguments are scanned back. *)
Lemma scan_args_built bo cp args i r :
  (forall j, cp j = true) ->
  Forall (fun a => Z.of_nat (length a) < 2 ^ 31 /\
                   bo (dec (Z.of_nat (length a))) = Some (Z.of_nat (length a))) args ->
  scan_args bo cp (length args) i (concat (map append_bulk args) ++ r) = SArgs args r.
Proof.
  intros Hcp H. revert i. induction H as [|a args [Hlen Hbo] _ IH]; intros i; [done|].
  cbn [length scan_args map concat]. unfold append_bulk at 1.
  rewrite <- !app_assoc. cbn [app]. rewrite (decide_False (P := 36 <> 36)) by auto.
  rewrite <- !app_assoc. rewrite find_crlf_line by (apply dec_no_cr; lia).
  pose proof (dec_short (Z.of_nat (length a)) ltac:(lia)) as Hsh. rewrite decide_False by lia.
  rewrite take_app_length, Hbo. cbv zeta.
  assert (forall x, drop (length (dec (Z.of_nat (length a))) + 2)
            (dec (Z.of_nat (length a)) ++ crlf ++ x) = x) as Hdrop.
  { intros x. rewrite drop_app_ge by lia.
    by replace (_ + 2 - _)%nat with 2%nat by lia. }
  rewrite Hdrop. rewrite !length_app. change (length crlf) with 2%nat.
  rewrite decide_False by lia. rewrite Hcp. cbn [negb]. rewrite Nat2Z.id.
  rewrite drop_app_length, take_app_length. cbn [take app crlf drop].
  rewrite decide_True by done. rewrite IH. done.
Qed.

Lemma raw_prefix (b r : bytes) : take (length (b ++ r) - length r) (b ++ r) = b.
Proof.
  rewrite length_app. replace (length b + length r - length r)%nat with (length b) by lia.
  apply take_app_length.
Qed.

(** The head of a built command, taken apart. *)
Lemma build_head (args : list bytes) r : (1 <= length args <= 32)%nat ->
  let t := dec (Z.of_nat (length args)) ++ crlf ++ concat (map append_bulk args) ++ r in
  drop 1 (resp_build_cmd args ++ r) = t /\
  find_crlf t = Some (length (dec (Z.of_nat (length args)))) /\
  (length (dec (Z.of_nat (length args))) < 32)%nat /\
  take (length (dec (Z.of_nat (length args)))) t = dec (Z.of_nat (length args)) /\
  drop (length (dec (Z.of_nat (length args))) + 2) t = concat (map append_bulk args) ++ r.
Proof.
  intros Ha t. split_and!.
  - unfold resp_build_cmd, t. cbn [app drop]. by rewrite drop_0, <- !app_assoc.
  - apply find_crlf_line, dec_no_cr. lia.
  - apply dec_short. lia.
  - apply take_app_length.
  - unfold t. rewrite drop_app_ge by lia. by replace (_ + 2 - _)%nat with 2%nat by lia.
Qed.

Lemma array_step_build cp args r :
  (forall j, cp j = true) -> (1 <= length args <= 32)%nat ->
  Forall (fun a => Z.of_nat (length a) < 2 ^ 31) args ->
  array_step cp (resp_build_cmd args ++ r) = Take [ECmd args (resp_build_cmd args)] r.
Proof.
  intros Hcp Hn Ha. destruct (build_head args r Hn) as (Hd & Hf & Hsh & Ht & Hb).
  unfold array_step. rewrite Hd, Hf. cbv zeta. rewrite decide_False by lia.
  rewrite Ht, argc_of_dec by done. rewrite Hb, scan_args_built; [|done|].
  - by rewrite raw_prefix.
  - eapply Forall_impl; [exact Ha|]. intros a Hla. split; [done|]. by apply blen_of_dec.
Qed.

Lemma pc_array_step_build args r :
  (1 <= length args <= 32)%nat ->
  Forall (fun a => Z.of_nat (length a) <= PC_CTX_BUF_CAP) args ->
  pc_array_step (resp_build_cmd args ++ r) = Take [resp_build_cmd args] r.
Proof.
  intros Hn Ha. destruct (build_head args r Hn) as (Hd & Hf & Hsh & Ht & Hb).
  unfold pc_array_step. rewrite Hd, Hf. cbv zeta. rewrite decide_False by lia.
  rewrite Ht, pc_argc_of_dec by done. rewrite Hb, scan_args_built; [|done|].
  - by rewrite raw_prefix.
  - eapply Forall_impl; [exact Ha|]. intros a Hla. split; [unfold PC_CTX_BUF_CAP in *; lia|].
    by apply pc_blen_of_dec.
Qed.

Lemma find_lf_line l r : LF ∉ l -> find_lf (l ++ LF :: r) = Some (length l).
Proof.
  induction l as [|x l IH]; intros Hl; [done|]. apply not_elem_of_cons in Hl as [Hx Hl].
  cbn. rewrite decide_False by auto. by rewrite IH.
Qed.

Lemma strip_cr_prefix l : strip_cr l `prefix_of` l.
Proof.
  unfold strip_cr. destruct (last l) as [c|]; [|done]. case_decide; [|done].
  exists (drop (length l - 1) l). by rewrite take_drop.
Qed.

Lemma strip_cr_ok l : cstr_ok l -> cstr_ok (strip_cr l).
Proof.
  intros H. destruct (strip_cr_prefix l) as [k E]. rewrite E in H.
  by apply Forall_app in H as [H _].
Qed.

Lemma line_parts (line r : bytes) : LF ∉ line ->
  find_lf (line ++ [LF] ++ r) = Some (length line) /\
  take (length line) (line ++ [LF] ++ r) = line /\
  drop (length line + 1) (line ++ [LF] ++ r) = r /\
  take (length line + 1) (line ++ [LF] ++ r) = line ++ [LF].
Proof.
  intros Hl. split_and!.
  - by apply find_lf_line.
  - apply take_app_length.
  - rewrite drop_app_ge by lia. by replace (_ + 1 - _)%nat with 1%nat by lia.
  - rewrite app_assoc, take_app_le by (rewrite length_app; cbn; lia).
    apply take_ge. rewrite length_app. cbn. lia.
Qed.

Lemma split_nonempty l : skip_spaces l <> [] -> split_inline_argv (length l) 32 l <> [].
Proof. destruct l; [done|]. cbn. by destruct (if is_space z then _ else _). Qed.

(** Each framer takes a whole command off the front of its buffer. *)
Lemma parse_step_encode cp w r : (forall j, cp j = true) -> wire_ok w ->
  parse_step true cp (encode w ++ r) = Take [command_of w] r.
Proof.
  intros Hcp Hw. destruct w as [args|line]; cbn [wire_ok encode command_of] in *.
  - destruct Hw as [Hn Ha]. unfold parse_step.
    change (resp_build_cmd args ++ r) with
      (42 :: (dec (Z.of_nat (length args)) ++ crlf ++ concat (map append_bulk args)) ++ r) at 1.
    cbv iota beta. rewrite (decide_False (P := 42 = 43)) by done.
    rewrite (decide_False (P := 42 <> 42)) by auto. apply array_step_build; [done..|].
    eapply Forall_impl; [exact Ha|]. cbn. unfold PC_CTX_BUF_CAP. lia.
  - destruct Hw as (Hok & Hlf & Hsk & H42 & H43). rewrite <- app_assoc.
    assert (parse_step true cp (line ++ [LF] ++ r) = inline_step true (line ++ [LF] ++ r)) as ->.
    { unfold parse_step. destruct line as [|x l]; [done|]. cbn [app].
      rewrite decide_False by (intros ->; by apply H43).
      rewrite decide_True by (intros ->; by apply H42). done. }
    unfold inline_step. destruct (line_parts line r Hlf) as (-> & -> & -> & ->). cbv zeta.
    rewrite cstr_id by (by apply strip_cr_ok).
    rewrite decide_False by (intros E; apply nil_length_inv in E; by rewrite E in Hsk).
    cbn [negb]. by rewrite decide_True by (by apply split_nonempty).
Qed.

Lemma pc_frame_step_encode w r : wire_ok w ->
  pc_frame_step (encode w ++ r) = Take [encode w] r.
Proof.
  intros Hw. destruct w as [args|line]; cbn [wire_ok encode] in *.
  - destruct Hw as [Hn Ha]. unfold pc_frame_step.
    change (resp_build_cmd args ++ r) with
      (42 :: (dec (Z.of_nat (length args)) ++ crlf ++ concat (map append_bulk args)) ++ r) at 1.
    cbv iota beta. rewrite decide_True by done. by apply pc_array_step_build.
  - destruct Hw as (Hok & Hlf & Hsk & H42 & H43). rewrite <- app_assoc.
    assert (pc_frame_step (line ++ [LF] ++ r) = pc_inline_step (line ++ [LF] ++ r)) as ->.
    { unfold pc_frame_step. destruct line as [|x l]; [done|]. cbn [app].
      rewrite decide_False by (intros ->; by apply H42).
      rewrite decide_False by (intros ->; by apply H43). done. }
    unfold pc_inline_step. destruct (line_parts line r Hlf) as (-> & -> & -> & ->). cbv zeta.
    by rewrite decide_True.
Qed.

(** ** Streams of commands *)

Section Streams.

Context {A C : Type} (step : bytes -> outcome A) (Hstep : framer step).
Context (enc : C -> bytes) (f : C -> A) (ok : C -> Prop).
Context (Hne : forall c, ok c -> enc c <> []).
Context (Htake : forall c r, ok c -> step (enc c ++ r) = Take [f c] r).
Context (Hkeep : forall c p, ok c -> p `prefix_of` enc c -> step p <> KeepLast).

(** Cut anywhere, a stream of commands frames into the commands that are
    complete, and the rest is kept. *)
Lemma frame_commands cmds b : Forall ok cmds -> b `prefix_of` concat (map enc cmds) ->
  exists n kept, frame step b = (map f (take n cmds), kept) /\
    b = concat (map enc (take n cmds)) ++ kept /\ frame step kept = ([], kept).
Proof.
  intros Hok. revert b. induction Hok as [|c cs Hc _ IH]; intros b Hb; cbn in Hb.
  - apply prefix_nil_inv in Hb as ->. by exists 0%nat, [].
  - destruct (prefix_weak_total (enc c) b (enc c ++ concat (map enc cs))) as [Hp|Hp];
      [by eexists|done| |].
    + destruct Hp as [b' ->]. apply prefix_app_inv in Hb.
      destruct (IH b' Hb) as (n & kept & Hf & Hb' & Hk). exists (S n), kept.
      split_and!; [|cbn; by rewrite <- app_assoc, <- Hb'|done].
      rewrite frame_unfold by done. rewrite Htake by done.
      destruct (enc c ++ b') as [|x e] eqn:E; [apply app_eq_nil in E as [E _]; by apply Hne in E|].
      by rewrite Hf.
    + destruct (decide (b = enc c)) as [->|Hneq].
      { exists 1%nat, []. cbn [take]. rewrite take_0. cbn [map concat]. rewrite !app_nil_r.
        split_and!; [|done|done].
        assert (step (enc c) = Take [f c] []) as Hs by (by rewrite <- (Htake c []), app_nil_r).
        rewrite frame_unfold by done. rewrite Hs.
        destruct (enc c) as [|x e] eqn:E; [by apply Hne in E|]. done. }
      assert (frame step b = ([], b)) as Hfb; [|by exists 0%nat, b].
      rewrite frame_unfold by done.
      destruct b as [|x t]; [done|]. destruct (step (x :: t)) as [| |xs r] eqn:E; [done| |].
      * by apply (Hkeep c) in E.
      * destruct Hp as [k Hk]. pose proof (Htake c [] Hc) as Ht. rewrite app_nil_r, Hk in Ht.
        rewrite (fr_app _ Hstep _ _ _ _ E) in Ht. injection Ht as _ Hrk.
        apply app_eq_nil in Hrk as [_ ->]. rewrite app_nil_r in Hk. by rewrite Hk in Hneq.
Qed.

(** However the stream is cut into reads, the same commands come out and
    nothing is left over. *)
Lemma feed_commands cmds kept chunks :
  Forall ok cmds -> kept ++ concat chunks = concat (map enc cmds) ->
  frame step kept = ([], kept) -> feed step kept chunks = (map f cmds, []).
Proof.
  revert cmds kept. induction chunks as [|c cs IH]; intros cmds kept Hok Hcat Hk.
  - cbn in *. rewrite app_nil_r in Hcat. destruct Hok as [|w ws Hw Hws]; [by rewrite Hcat|].
    rewrite Hcat in Hk. cbn [map concat] in Hk. rewrite frame_unfold in Hk by done.
    rewrite Htake in Hk by done. destruct (enc w ++ concat (map enc ws)) as [|x t] eqn:E.
    + apply app_eq_nil in E as [E _]. by apply Hne in E.
    + destruct (frame step (concat (map enc ws))). by injection Hk.
  - cbn [feed]. cbn [concat] in Hcat. rewrite app_assoc in Hcat.
    destruct (frame_commands cmds (kept ++ c) Hok) as (n & kept' & -> & Hb & Hk'); [by eexists|].
    rewrite Hb, <- app_assoc in Hcat.
    assert (concat (map enc cmds) = concat (map enc (take n cmds)) ++ concat (map enc (drop n cmds))) as Hsp
      by (by rewrite <- concat_app, <- map_app, take_drop).
    rewrite Hsp in Hcat. apply app_inv_head in Hcat.
    rewrite (IH (drop n cmds) kept'); [|by apply Forall_drop|done|done].
    by rewrite <- map_app, take_drop.
Qed.

(** Whatever follows the commands, they come out first. *)
Lemma frame_all cmds tl : Forall ok cmds ->
  (frame step (concat (map enc cmds) ++ tl)).1 = map f cmds ++ (frame step tl).1.
Proof.
  induction 1 as [|c cs Hc _ IH]; [done|]. cbn [map concat]. rewrite <- app_assoc, frame_unfold, Htake by done.
  destruct (enc c ++ concat (map enc cs) ++ tl) as [|x e] eqn:E; [apply app_eq_nil in E as [E _]; by apply Hne in E|].
  destruct (frame step (concat (map enc cs) ++ tl)). cbn in *. by rewrite IH.
Qed.
Lemma feed_starts cmds kept chunks rest :
  Forall ok cmds -> kept ++ concat chunks = concat (map enc cmds) ++ rest ->
  frame step kept = ([], kept) -> map f cmds `prefix_of` (feed step kept chunks).1.
Proof.
  revert cmds kept. induction chunks as [|c cs IH]; intros cmds kept Hok Hcat Hk.
  - cbn in Hcat. rewrite app_nil_r in Hcat. rewrite Hcat in Hk. apply (f_equal fst) in Hk.
    rewrite frame_all in Hk by done. apply app_eq_nil in Hk as [-> _]. apply prefix_nil.
  - cbn [feed]. cbn [concat] in Hcat. rewrite app_assoc in Hcat.
    destruct (prefix_weak_total (kept ++ c) (concat (map enc cmds)) (concat (map enc cmds) ++ rest)) as [Hp|[tl Hp]].
    + by exists (concat cs).
    + by exists rest.
    + destruct (frame_commands cmds (kept ++ c) Hok Hp) as (n & kept' & -> & Hb & Hk').
      rewrite Hb, <- app_assoc in Hcat.
      assert (concat (map enc cmds) = concat (map enc (take n cmds)) ++ concat (map enc (drop n cmds))) as Hsp
        by (by rewrite <- concat_app, <- map_app, take_drop).
      rewrite Hsp, <- app_assoc in Hcat. apply app_inv_head in Hcat.
      pose proof (IH (drop n cmds) kept' (Forall_drop _ _ _ Hok) Hcat Hk') as H.
      destruct (feed step kept' cs). cbn [fst] in *.
      rewrite <- (take_drop n cmds) at 1. rewrite map_app. by apply prefix_app.
    + rewrite Hp. pose proof (frame_all cmds tl Hok) as H. destruct (frame step (concat (map enc cmds) ++ tl)) as [xs kept'].
      cbn [fst] in H. subst xs. destruct (feed step kept' cs). cbn [fst]. rewrite <- app_assoc. by eexists.
Qed.

End Streams.

(** ** Properties *)

Lemma encode_ne w : wire_ok w -> encode w <> [].
Proof. destruct w as [args|line]; cbn; [done|]. intros _. by destruct line. Qed.

Lemma encode_no_plus cp w p : wire_ok w -> p `prefix_of` encode w ->
  parse_step true cp p <> KeepLast.
Proof.
  intros Hw [k Hk]. destruct p as [|x t]; [done|]. unfold parse_step.
  assert (x <> 43) as Hx.
  { destruct w as [args|line]; cbn in *; [by injection Hk as <-|].
    destruct Hw as (_ & _ & _ & _ & H43). destruct line as [|y l]; injection Hk as <-; [done|].
    intros ->. by apply H43. }
  rewrite decide_False by done. case_decide; unfold inline_step, array_step; repeat case_match; done.
Qed.

(** (C14) What is built is parsed: when a stream starts with commands, each an
    array of 1 to 32 arguments of any bytes or an inline line, then however it
    is cut into reads and whatever bytes follow, [parse_resp_stream] hands on
    exactly these commands first, in order, with their arguments and raw bytes;
    and when nothing follows, it hands on nothing else and keeps nothing. *)
Theorem parse_build_roundtrip cp cmds rest chunks :
  (forall j, cp j = true) -> Forall wire_ok cmds ->
  concat chunks = concat (map encode cmds) ++ rest ->
  exists evs kept, feed (parse_step true cp) [] chunks = (map command_of cmds ++ evs, kept) /\
    (rest = [] -> evs = [] /\ kept = []).
Proof.
  intros Hcp Hok Hcat.
  assert (Ht : forall w r, wire_ok w -> parse_step true cp (encode w ++ r) = Take [command_of w] r)
    by (intros w r Hw; by apply parse_step_encode).
  assert (Hp : forall w p, wire_ok w -> p `prefix_of` encode w -> parse_step true cp p <> KeepLast)
    by (intros w p Hw; by apply encode_no_plus).
  pose proof (parse_step_framer true cp) as Hfr. destruct (decide (rest = [])) as [->|Hr].
  - exists [], []. split; [|done]. rewrite app_nil_r in Hcat |- *. by apply (feed_commands _ Hfr _ _ _ encode_ne Ht Hp).
  - destruct (feed_starts _ Hfr _ _ _ encode_ne Ht Hp cmds [] chunks rest Hok Hcat eq_refl) as [evs He].
    destruct (feed _ _ _) as [xs kept]. cbn in He. subst xs. by exists evs, kept.
Qed.

Definition sample : list wire :=
  [WArray [str "SET"; [107; 0; 13; 10]; [255]]; WInline (str "PING x"); WArray [str "DEL"; str "k"]].

Lemma sample_ok : Forall wire_ok sample.
Proof.
  assert (forall args, (1 <= length args <= 32)%nat ->
    Forall (fun a => (length a <= 8)%nat) args -> wire_ok (WArray args)) as Harr.
  { intros args Hn Ha. split; [done|]. eapply Forall_impl; [exact Ha|].
    unfold PC_CTX_BUF_CAP. cbn. lia. }
  constructor; [|constructor; [|constructor; [|constructor]]].
  - apply Harr; [cbn; lia|]. repeat constructor; cbn; lia.
  - split_and!; [repeat constructor; cbn; lia| |vm_compute; discriminate|vm_compute; discriminate..].
    by apply (bool_decide_unpack (LF ∉ str "PING x")).
  - apply Harr; [cbn; lia|]. repeat constructor; cbn; lia.
Qed.

Lemma parse_build_roundtrip_witness :
  exists evs kept,
    feed (parse_step true (fun _ => true)) []
      [take 7 (concat (map encode sample)); drop 7 (concat (map encode sample)) ++ str "*1"]
    = (map command_of sample ++ evs, kept) /\ (str "*1" = [] -> evs = [] /\ kept = []).
Proof.
  apply (parse_build_roundtrip (fun _ => true) sample); [done|exact sample_ok|reflexivity].
Defined.

(** (C15) The proxy sees the commands the server sees: on any stream of such
    commands, cut into any reads on the server's side and any capture records
    on the proxy's side, the frames [pc_frame_ctx] finds are the raw bytes of
    the commands [parse_resp_stream] executes, one for one and in order. *)
Theorem proxy_frames_server_commands cp cmds chunks records :
  (forall j, cp j = true) -> Forall wire_ok cmds ->
  concat chunks = concat (map encode cmds) -> concat records = concat (map encode cmds) ->
  exists evs frames,
    feed (parse_step true cp) [] chunks = (evs, []) /\
    feed pc_frame_step [] records = (frames, []) /\
    Forall2 (fun ev fr => exists argv, ev = ECmd argv fr) evs frames.
Proof.
  intros Hcp Hok Hc Hr. exists (map command_of cmds), (map encode cmds). split_and!.
  - apply (feed_commands (parse_step true cp) (parse_step_framer true cp) encode command_of wire_ok);
      try done; [apply encode_ne|intros w r Hw; by apply parse_step_encode
                |intros w p Hw; by apply encode_no_plus].
  - apply (feed_commands pc_frame_step pc_frame_step_framer encode encode wire_ok); try done;
      [apply encode_ne|intros w r Hw; by apply pc_frame_step_encode|].
    intros w p _ _. unfold pc_frame_step, pc_array_step, pc_control_step, pc_inline_step.
    repeat case_match; done.
  - clear. induction cmds as [|w ws IH]; cbn; constructor; [|done]. destruct w; cbn; eauto.
Qed.

Lemma proxy_frames_server_commands_witness :
  exists evs frames,
    feed (parse_step true (fun _ => true)) [] [concat (map encode sample)] = (evs, []) /\
    feed pc_frame_step [] (map (fun x => [x]) (concat (map encode sample))) = (frames, []) /\
    Forall2 (fun ev fr => exists argv, ev = ECmd argv fr) evs frames.
Proof.
  apply (proxy_frames_server_commands (fun _ => true) sample); [done|exact sample_ok|reflexivity..].
Defined.

(** Reads do not matter to the proxy: for every byte stream, well formed
    or not, framing it piece by piece gives the same frames and the same
    leftover as framing it at once. *)
Theorem proxy_framing_chunk_independent chunks :
  feed pc_frame_step [] chunks = pc_frame_ctx (concat chunks).
Proof.
  unfold pc_frame_ctx. apply (feed_concat _ pc_frame_step_framer [] chunks); [|done].
  intros x. unfold pc_frame_step, pc_array_step, pc_control_step, pc_inline_step.
  repeat case_match; done.
Qed.

(** A control line that is cut by a read is lost on the server: the
    parser drops all but the last byte of an incomplete '+' line, so the
    events of a stream depend on where the reads fall. *)
Theorem control_line_split_lost :
  let line := str "+FULLRESYNCWR 1 2 3 4" ++ crlf in
  (feed (parse_step true (fun _ => true)) [] [line]).1 =
    [ECtl [str "FULLRESYNCWR"; str "1"; str "2"; str "3"; str "4"]] /\
  (feed (parse_step true (fun _ => true)) [] [take 10 line; drop 10 line]).1 =
    [ECmd [str "NCWR"; str "1"; str "2"; str "3"; str "4"] (str "NCWR 1 2 3 4" ++ crlf)].
Proof. vm_compute. done. Qed.

End Resp.
