(* ===== verification/CommitWire.v ===== *)
(** * CommitWire: the control messages of the commit gate

    The structs of [include/kvstore/replication/commit_gate.h], which the master
    ([kvs_commit.c]) writes to a SEQPACKET socket and the proxy
    ([proxy_commit.c]) reads from it, as the bytes they have in memory on a
    little-endian machine, and the checksum both sides compute over a command
    (FNV-1a, 64 bits). *)

From S2P Require Import Prelude.

Module CommitWire.

Definition REPL_COMMIT_MAGIC : Z := 0x4b564d43.
Definition REPL_COMMIT_VERSION : Z := 1.
Definition REPL_COMMIT_BATCH_MAX : Z := 64.

Definition REPL_COMMIT_MSG_HELLO : Z := 1.
Definition REPL_COMMIT_MSG_BASELINE : Z := 2.
Definition REPL_COMMIT_MSG_IGNORE : Z := 3.
Definition REPL_COMMIT_MSG_FORGET : Z := 4.
Definition REPL_COMMIT_MSG_RESUME : Z := 5.
Definition REPL_COMMIT_MSG_BATCH : Z := 6.

Definition REPL_COMMIT_FLAG_WRITE : Z := 1.
Definition REPL_COMMIT_FLAG_SKIP : Z := 2.

(** [repl_commit_msg_t], [repl_commit_desc_t], [repl_commit_kv_t]. *)
Record msg := Msg {
  m_magic : Z; m_version : Z; m_type : Z; m_count : Z; m_epoch : Z; m_global_seq : Z }.
Record desc := Desc {
  cookie : Z; session_id : Z; command_seq : Z; global_seq : Z; crc : Z; raw_len : Z; flags : Z }.
Record kv := Kv { k_cookie : Z; k_value : Z }.

(** Their bytes, in the order of their fields. *)
Definition msg_size : nat := 32.
Definition desc_size : nat := 48.
Definition kv_size : nat := 16.
Definition put_msg (m : msg) : bytes :=
  le_bytes 4 (m_magic m) ++ le_bytes 4 (m_version m) ++ le_bytes 4 (m_type m) ++
  le_bytes 4 (m_count m) ++ le_bytes 8 (m_epoch m) ++ le_bytes 8 (m_global_seq m).
Definition put_desc (d : desc) : bytes :=
  le_bytes 8 (cookie d) ++ le_bytes 8 (session_id d) ++ le_bytes 8 (command_seq d) ++
  le_bytes 8 (global_seq d) ++ le_bytes 8 (crc d) ++ le_bytes 4 (raw_len d) ++ le_bytes 4 (flags d).
Definition put_kv (k : kv) : bytes := le_bytes 8 (k_cookie k) ++ le_bytes 8 (k_value k).

(** [memcpy (&h, buf, sizeof (h))] and its like. *)
Definition get_msg (b : bytes) : msg :=
  Msg (le_val b.[0, 4]) (le_val b.[4, 4]) (le_val b.[8, 4]) (le_val b.[12, 4])
      (le_val b.[16, 8]) (le_val b.[24, 8]).
Definition get_desc (b : bytes) : desc :=
  Desc (le_val b.[0, 8]) (le_val b.[8, 8]) (le_val b.[16, 8]) (le_val b.[24, 8])
       (le_val b.[32, 8]) (le_val b.[40, 4]) (le_val b.[44, 4]).
Definition get_kv (b : bytes) : kv := Kv (le_val b.[0, 8]) (le_val b.[8, 8]).

(** [kvs_cmd_crc64]; the proxy has the same loop in [pc_try_match]. *)
Definition crc_step (h c : Z) : Z := u64 (Z.lxor h c * 1099511628211).
Definition kvs_cmd_crc64 (b : bytes) : Z := fold_left crc_step b 1469598103934665603.

(** ** What is written is what is read *)

Definition u32_ok (z : Z) : Prop := 0 <= z < 2 ^ 32.
Definition u64_ok (z : Z) : Prop := 0 <= z < 2 ^ 64.
Definition msg_ok (m : msg) : Prop :=
  u32_ok (m_magic m) /\ u32_ok (m_version m) /\ u32_ok (m_type m) /\ u32_ok (m_count m) /\
  u64_ok (m_epoch m) /\ u64_ok (m_global_seq m).
Definition desc_ok (d : desc) : Prop :=
  u64_ok (cookie d) /\ u64_ok (session_id d) /\ u64_ok (command_seq d) /\ u64_ok (global_seq d) /\
  u64_ok (crc d) /\ u32_ok (raw_len d) /\ u32_ok (flags d).
Definition kv_ok (k : kv) : Prop := u64_ok (k_cookie k) /\ u64_ok (k_value k).

(** Walk over the fields before the one that is read. *)
Ltac field :=
  rewrite <- ?app_assoc;
  repeat (rewrite slice_skip by (rewrite length_le_bytes; lia); rewrite length_le_bytes; cbn [Nat.sub]);
  first [ rewrite slice_here by (by rewrite length_le_bytes)
        | rewrite slice_all by (by rewrite length_le_bytes) ];
  rewrite le_val_bytes by (unfold u32_ok, u64_ok in *; lia).

Lemma length_put_msg m : length (put_msg m) = msg_size.
Proof. unfold put_msg. by rewrite !length_app, !length_le_bytes. Qed.
Lemma length_put_desc d : length (put_desc d) = desc_size.
Proof. unfold put_desc. by rewrite !length_app, !length_le_bytes. Qed.
Lemma length_put_kv k : length (put_kv k) = kv_size.
Proof. unfold put_kv. by rewrite !length_app, !length_le_bytes. Qed.

Lemma get_put_msg m r : msg_ok m -> get_msg (put_msg m ++ r) = m.
Proof.
  destruct m as [a b c d e f]. unfold msg_ok, get_msg, put_msg. cbn [m_magic m_version m_type m_count
    m_epoch m_global_seq]. intros (?&?&?&?&?&?). do 6 field. done.
Qed.
Lemma get_put_desc d r : desc_ok d -> get_desc (put_desc d ++ r) = d.
Proof.
  destruct d as [a b c d e f g]. unfold desc_ok, get_desc, put_desc. cbn [cookie session_id command_seq
    global_seq crc raw_len flags]. intros (?&?&?&?&?&?&?). do 7 field. done.
Qed.
Lemma get_put_kv k r : kv_ok k -> get_kv (put_kv k ++ r) = k.
Proof.
  destruct k as [a b]. unfold kv_ok, get_kv, put_kv. cbn [k_cookie k_value].
  intros (?&?). do 2 field. done.
Qed.

Lemma crc_range b : u64_ok (kvs_cmd_crc64 b).
Proof.
  unfold kvs_cmd_crc64, u64_ok. set (h := 1469598103934665603).
  assert (H : 0 <= h < 2 ^ 64) by (unfold h; lia). clearbody h. revert h H.
  induction b as [|c b IH]; intros h H; cbn; [lia|]. apply IH, u64_range.
Qed.

End CommitWire.
