(* ===== verification/ProxyCommit.v ===== *)
(** * ProxyCommit: the proxy's side of the commit gate

    [src/ebpf_proxy/proxy_commit.c].  The proxy captures the bytes clients send
    to the master, cuts them into commands per connection, and may hand a
    command on to the replica only when the master has confirmed it with a
    WRITE descriptor of the same connection, sequence number, length and
    checksum; commands are handed on in the order of their global sequence
    number.  Any gap, mismatch or overflow is a fault.

    The state is the file's globals.  The queues of commands and descriptors
    are lists, the hash table of connections is a function from bucket indices
    to chains, and a context is reached by its cookie, as the code reaches it by
    a pointer from [pc_get_ctx].  The clock, [malloc], the [g_emit] callback and
    the memory of freed descriptors answer from an environment that is indexed by a counter of the calls, so
    every call can answer differently.  [log] is the history of what came in and
    went out; no operation reads it. *)

From S2P Require Import Prelude Cstring Resp CommitWire.

Module ProxyCommit.

Definition PC_MAX_COOKIES : Z := 4096.
Definition PC_MAX_CTX : Z := 4096.
Definition PC_CTX_BUF_CAP : Z := 2 * 1024 * 1024.
Definition PC_MEMORY_MAX : Z := 256 * 1024 * 1024.
Definition PC_TIMEOUT_MS : Z := 2000.

(** ** Data *)

Record cmd := Cmd {
  c_seq : Z; c_global_seq : Z; c_len : Z; c_state : Z; c_created_ms : Z; c_data : bytes }.
#[export] Instance eta_cmd : Eta cmd :=
  fun c => Cmd (c_seq c) (c_global_seq c) (c_len c) (c_state c) (c_created_ms c) (c_data c).

(** The [len] bytes from [data] on, which is what leaves the queue. *)
Definition c_bytes (c : cmd) : bytes := take (Z.to_nat (c_len c)) (c_data c).

Record desc := Desc {
  d_seq : Z; d_global_seq : Z; d_crc : Z; d_len : Z; d_flags : Z; d_created_ms : Z }.

Record ctx := Ctx {
  x_cookie : Z;
  buf : bytes; buf_cap : Z;
  baseline_set : bool; ignored : bool;
  next_seq : Z; last_recv_seq : Z; recv_seq_valid : bool;
  cmds : list cmd; descs : list desc;
  last_activity_ms : Z }.
#[export] Instance eta_ctx : Eta ctx :=
  fun x => Ctx (x_cookie x) (buf x) (buf_cap x) (baseline_set x) (ignored x) (next_seq x)
    (last_recv_seq x) (recv_seq_valid x) (cmds x) (descs x) (last_activity_ms x).
(** What [calloc] gives, with its cookie. *)
Definition new_ctx (k : Z) : ctx := Ctx k [] 0 false false 0 0 false [] [] 0.

Record rec := Rec { r_global_seq : Z; r_data : bytes }.

(** The history: commands framed, descriptors and markers received, commands
    delivered at once, stored for recovery or replayed from it, faults and
    purges. *)
Inductive event :=
  | EFrame (k seq : Z) (data : bytes)
  | EDesc (k : Z) (d : desc)
  | EDeliver (gs : Z) (data : bytes) (ok : bool)
  | EStore (gs : Z) (data : bytes)
  | EReplay (gs : Z) (data : bytes) (ok : bool)
  | EFreed (d d' : desc)
  | EResume (marker : Z)
  | EFault (reason : Z)
  | EPurge.

Record stats := Stats {
  st_desc : Z; st_writes : Z; st_skips : Z; st_timeout : Z; st_desync : Z; st_gap : Z;
  st_channel : Z; st_emitted : Z; st_mem_hard : Z }.
#[export] Instance eta_stats : Eta stats :=
  fun t => Stats (st_desc t) (st_writes t) (st_skips t) (st_timeout t) (st_desync t) (st_gap t)
    (st_channel t) (st_emitted t) (st_mem_hard t).

Record st := St {
  listening : bool; master_fd : bool;
  epoch : Z; session_epoch : Z; faulted : bool;
  buckets : Z -> list ctx;
  next_global : Z; ready : list cmd;
  buffering : bool; wait_resume : bool; wait_resume_ms : Z; resume_event : bool;
  recs : list rec; rec_bytes : Z; pending_bytes : Z;
  g_st : stats; ctx_count : Z; pending_cmd_count : Z;
  calls : nat; log : list event }.
#[export] Instance eta_st : Eta st :=
  fun s => St (listening s) (master_fd s) (epoch s) (session_epoch s) (faulted s) (buckets s)
    (next_global s) (ready s) (buffering s) (wait_resume s) (wait_resume_ms s) (resume_event s)
    (recs s) (rec_bytes s) (pending_bytes s) (g_st s) (ctx_count s) (pending_cmd_count s)
    (calls s) (log s).
(** The globals before any call, once the listener is up. *)
Definition init : st :=
  St true false 0 0 false (fun _ => []) 0 [] false false 0 false [] 0 0
    (Stats 0 0 0 0 0 0 0 0 0) 0 0 0 [].

(** The world: the clock, [malloc], the delivery callback, and what a
    descriptor reads as once it has been freed: [pc_try_match] reads its flags
    and global number then, and they may be anything, each time. *)
Record env := Env {
  now_at : nat -> Z;
  malloc_at : nat -> bool;
  emit_at : nat -> bytes -> bool;
  after_free : nat -> desc -> desc }.

Section Ops.

Context (E : env).

Definition call (s : st) : st := s <| calls ::= S |>.
Definition note (e : event) (s : st) : st := s <| log ::= fun l => l ++ [e] |>.
Definition pc_now_ms (s : st) : Z * st := (now_at E (calls s), call s).
Definition malloc (s : st) : bool * st := (malloc_at E (calls s), call s).
Definition g_emit (data : bytes) (s : st) : bool * st := (emit_at E (calls s) data, call s).

(** [pc_fault]: the first fault counts; the timeout report reads the clock. *)
Definition pc_fault (reason : Z) (s : st) : st :=
  if faulted s then s
  else
    let s := s <| faulted := true |> in
    let s := s <| g_st ::= fun t =>
      if decide (reason = 1) then t <| st_timeout ::= fun n => u64 (n + 1) |>
      else if decide (reason = 2) then t <| st_desync ::= fun n => u64 (n + 1) |>
      else if decide (reason = 3) then t <| st_gap ::= fun n => u64 (n + 1) |>
      else if decide (reason = 4) then t <| st_channel ::= fun n => u64 (n + 1) |>
      else t |> in
    let s := if decide (reason = 1) then call s else s in
    note (EFault reason) s.

Definition mem_hard (s : st) : st :=
  s <| g_st ::= fun t => t <| st_mem_hard ::= fun n => u64 (n + 1) |> |>.

(** ** The table of connections *)

Definition pc_hash (k : Z) : Z :=
  Z.land (u32 (Z.shiftr (u64 (k * 11400714819323198485)) 52)) (PC_MAX_COOKIES - 1).

Definition find_ctx (k : Z) (chain : list ctx) : option ctx :=
  snd <$> list_find (fun x => x_cookie x = k) chain.
Definition the_ctx (k : Z) (s : st) : option ctx := find_ctx k (buckets s (pc_hash k)).

(** A store through the pointer to the context of [k]. *)
Fixpoint alter_chain (k : Z) (f : ctx -> ctx) (chain : list ctx) : list ctx :=
  match chain with
  | [] => []
  | x :: r => if decide (x_cookie x = k) then f x :: r else x :: alter_chain k f r
  end.
Definition set_bucket (b : Z) (chain : list ctx) (s : st) : st :=
  s <| buckets ::= fun t i => if decide (i = b) then chain else t i |>.
Definition set_ctx (k : Z) (f : ctx -> ctx) (s : st) : st :=
  set_bucket (pc_hash k) (alter_chain k f (buckets s (pc_hash k))) s.

Definition pc_get_ctx (k : Z) (create : bool) (s : st) : option ctx * st :=
  match the_ctx k s with
  | Some x => (Some x, s)
  | None =>
      if negb create then (None, s)
      else if decide (ctx_count s >= PC_MAX_CTX) then (None, mem_hard s)
      else
        let '(ok, s) := malloc s in
        if negb ok then (None, s)
        else
          let x := new_ctx k in
          let s := set_bucket (pc_hash k) (x :: buckets s (pc_hash k)) s in
          (Some x, s <| ctx_count ::= fun n => i32 (n + 1) |>)
  end.

Definition pc_cmd_free (c : cmd) (s : st) : st :=
  let s := if decide (pending_bytes s >= c_len c)
           then s <| pending_bytes ::= fun n => n - c_len c |> else s in
  if decide (pending_cmd_count s > 0) then s <| pending_cmd_count ::= fun n => n - 1 |> else s.
Definition pc_cmds_free (l : list cmd) (s : st) : st := fold_left (fun s c => pc_cmd_free c s) l s.

Definition reset_ctx (x : ctx) : ctx :=
  x <| cmds := [] |> <| descs := [] |> <| buf := [] |> <| baseline_set := false |>
    <| ignored := false |> <| next_seq := 0 |> <| recv_seq_valid := false |> <| last_recv_seq := 0 |>.
Definition pc_ctx_reset (x : ctx) (s : st) : st :=
  set_ctx (x_cookie x) reset_ctx (pc_cmds_free (cmds x) s).

Fixpoint unlink (k : Z) (chain : list ctx) : list ctx :=
  match chain with
  | [] => []
  | x :: r => if decide (x_cookie x = k) then r else x :: unlink k r
  end.
Definition pc_remove_ctx (x : ctx) (s : st) : st :=
  let b := pc_hash (x_cookie x) in
  let s := set_bucket b (unlink (x_cookie x) (buckets s b)) s in
  let s := pc_cmds_free (cmds x) s in
  if decide (ctx_count s > 0) then s <| ctx_count ::= fun n => n - 1 |> else s.

Definition pc_ready_free_all (s : st) : st :=
  (pc_cmds_free (ready s) s) <| ready := [] |>.
Definition pc_recovery_free_all (s : st) : st := s <| recs := [] |> <| rec_bytes := 0 |>.

Definition bucket_indices : list Z := seqZ 0 PC_MAX_COOKIES.
Definition all_ctxs (s : st) : list ctx := concat (map (buckets s) bucket_indices).

Definition proxy_commit_purge (s : st) : st :=
  let s := (fold_left (fun s x => pc_cmds_free (cmds x) s) (all_ctxs s) s)
             <| buckets := fun _ => [] |> in
  let s := pc_recovery_free_all (pc_ready_free_all s) in
  note EPurge
    (s <| next_global := 0 |> <| wait_resume := false |> <| wait_resume_ms := 0 |>
       <| resume_event := false |> <| pending_bytes := 0 |> <| ctx_count := 0 |>
       <| pending_cmd_count := 0 |> <| faulted := false |>).

(** ** Handing on in global order *)

Fixpoint ready_insert (c : cmd) (l : list cmd) : list cmd :=
  match l with
  | [] => [c]
  | x :: r => if decide (c_global_seq x < c_global_seq c) then x :: ready_insert c r else c :: l
  end.
Definition pc_ready_insert (c : cmd) (s : st) : st := s <| ready ::= ready_insert c |>.

Definition over_memory (s : st) : Prop := u64 (pending_bytes s + rec_bytes s) > PC_MEMORY_MAX.
#[export] Instance over_memory_decision s : Decision (over_memory s) := _.

Definition pc_recovery_append (c : cmd) (s : st) : st :=
  let '(ok, s) := malloc s in
  if negb ok then pc_fault 1 s
  else
    let s := s <| recs ::= fun l => l ++ [Rec (c_global_seq c) (c_bytes c)] |>
               <| rec_bytes ::= fun n => u64 (n + c_len c) |> in
    let s := note (EStore (c_global_seq c) (c_bytes c)) s in
    if decide (over_memory s) then pc_fault 5 (mem_hard s) else s.

(** Whether the command was stored or delivered (the code's 0). *)
Definition pc_emit_cmd (c : cmd) (s : st) : bool * st :=
  if decide (buffering s = true \/ wait_resume s = true \/ rec_bytes s > 0) then
    let s := pc_recovery_append c s in (negb (faulted s), s)
  else
    let '(ok, s) := g_emit (c_bytes c) s in
    let s := note (EDeliver (c_global_seq c) (c_bytes c) ok) s in
    if negb ok then (false, pc_fault 1 s)
    else (true, s <| g_st ::= fun t => t <| st_emitted ::= fun n => u64 (n + c_len c) |> |>).

Fixpoint drain_loop (fuel : nat) (s : st) : st :=
  match fuel with
  | O => s
  | S f =>
      match ready s with
      | [] => s
      | c :: r =>
          let s := if decide (next_global s = 0)
                   then s <| next_global := c_global_seq c |> else s in
          if decide (c_global_seq c < next_global s) then pc_fault 2 s
          else if decide (c_global_seq c > next_global s) then s
          else
            let s := s <| ready := r |> in
            let '(ok, s) := pc_emit_cmd c s in
            let s := pc_cmd_free c s in
            if negb ok then s
            else drain_loop f (s <| next_global ::= fun n => u64 (n + 1) |>)
      end
  end.
(** Every round takes a command off the list, so its length bounds the rounds. *)
Definition pc_drain_ready (s : st) : st := drain_loop (length (ready s)) s.

(** ** Matching commands with descriptors *)

(** A read of a descriptor after [free]. *)
Definition read_freed (d : desc) (s : st) : desc * st :=
  let d' := after_free E (calls s) d in (d', note (EFreed d d') (call s)).

(** The loop; [true] when it returned from the function on a mismatch.  The
    descriptor is freed before its flags and global sequence number are read. *)
Fixpoint match_loop (fuel : nat) (k : Z) (s : st) : bool * st :=
  match fuel with
  | O => (false, s)
  | S f =>
      match the_ctx k s with
      | Some x =>
          match cmds x, descs x with
          | c :: cs, d :: ds =>
              if decide (c_seq c <> d_seq d) then (true, pc_fault 2 s)
              else if decide (c_len c <> d_len d) then (true, pc_fault 2 s)
              else if decide (CommitWire.kvs_cmd_crc64 (c_bytes c) <> d_crc d) then (true, pc_fault 2 s)
              else
                let s := set_ctx k (fun x => x <| cmds := cs |> <| descs := ds |>) s in
                let '(d, s) := read_freed d s in
                if decide (Z.land (d_flags d) CommitWire.REPL_COMMIT_FLAG_WRITE <> 0) then
                  let c := c <| c_global_seq := d_global_seq d |> <| c_state := 1 |> in
                  let s := s <| g_st ::= fun t => t <| st_writes ::= fun n => u64 (n + 1) |> |> in
                  match_loop f k (pc_drain_ready (pc_ready_insert c s))
                else
                  let s := s <| g_st ::= fun t => t <| st_skips ::= fun n => u64 (n + 1) |> |> in
                  match_loop f k (pc_cmd_free c s)
          | _, _ => (false, s)
          end
      | None => (false, s)
      end
  end.
(** A head of one queue that waits too long for the other. *)
Definition stuck (now : Z) (x : ctx) : bool :=
  match cmds x, descs x with
  | c :: _, [] => bool_decide (now - c_created_ms c > PC_TIMEOUT_MS)
  | [], d :: _ => bool_decide (now - d_created_ms d > PC_TIMEOUT_MS)
  | _, _ => false
  end.
(** Every round takes a descriptor, so their number bounds the rounds. *)
Definition pc_try_match (k : Z) (s : st) : st :=
  let '(now, s) := pc_now_ms s in
  match the_ctx k s with
  | None => s
  | Some x =>
      let '(returned, s) := match_loop (length (descs x)) k s in
      if returned then s
      else
        match the_ctx k s with
        | Some x => if stuck now x then pc_fault 1 s else s
        | None => s
        end
  end.

(** ** Framing *)

Definition pc_frame_one (k : Z) (data : bytes) (s : st) : st :=
  let '(ok, s) := malloc s in
  if negb ok then pc_fault 1 s
  else
    match the_ctx k s with
    | None => s
    | Some x =>
        let seq := next_seq x in
        let '(now, s) := pc_now_ms s in
        let len := Z.of_nat (length data) in
        let c := Cmd seq 0 (u32 len) 0 now data in
        let s := set_ctx k (fun x => x <| next_seq ::= fun n => u64 (n + 1) |>
                                       <| cmds ::= fun l => l ++ [c] |>) s in
        let s := note (EFrame k seq data) s in
        let s := s <| pending_bytes ::= fun n => u64 (n + len) |>
                   <| pending_cmd_count ::= fun n => i64 (n + 1) |> in
        if decide (over_memory s) then pc_fault 1 (mem_hard s)
        else pc_try_match k s
    end.

(** [pc_frame_ctx]: cut the buffer ([Resp.pc_frame_ctx]), pass the commands on
    one by one, keep the rest. *)
Definition pc_frame_ctx (k : Z) (s : st) : st :=
  match the_ctx k s with
  | None => s
  | Some x =>
      if negb (baseline_set x) then s
      else
        let '(frames, kept) := Resp.pc_frame_ctx (buf x) in
        let s := fold_left (fun s data => pc_frame_one k data s) frames s in
        set_ctx k (fun x => x <| buf := kept |>) s
  end.

(** ** Input *)

Definition mk_desc (now : Z) (d : CommitWire.desc) : desc :=
  Desc (CommitWire.command_seq d) (CommitWire.global_seq d) (CommitWire.crc d)
    (CommitWire.raw_len d) (CommitWire.flags d) now.
Definition pc_on_desc (w : CommitWire.desc) (s : st) : st :=
  if faulted s then s
  else
    let k := CommitWire.cookie w in
    let '(found, s) := pc_get_ctx k true s in
    match found with
    | None => pc_fault 1 s
    | Some x =>
        if ignored x then s
        else
          let '(ok, s) := malloc s in
          if negb ok then pc_fault 1 s
          else
            let '(now, s) := pc_now_ms s in
            let d := mk_desc now w in
            let s := set_ctx k (fun x => x <| descs ::= fun l => l ++ [d] |>) s in
            let s := note (EDesc k d) s in
            if negb (baseline_set x) then s else pc_try_match k s
    end.

(** The doubling of the buffer's capacity; the need is at most 2 MB, so 64
    rounds are more than enough. *)
Fixpoint grow (fuel : nat) (nc need : Z) : Z :=
  match fuel with
  | O => nc
  | S f => if decide (nc < need) then grow f (nc * 2) need else nc
  end.
Definition proxy_commit_on_record (k recv_seq : Z) (payload : bytes) (s : st) : st :=
  if faulted s then s
  else
    let '(found, s) := pc_get_ctx k true s in
    match found with
    | None => pc_fault 1 s
    | Some x =>
        if ignored x then s
        else if decide (recv_seq_valid x = true /\ recv_seq <> u64 (last_recv_seq x + 1))
        then pc_fault 3 s
        else
          let '(now, s) := pc_now_ms s in
          let s := set_ctx k (fun x => x <| last_recv_seq := recv_seq |> <| recv_seq_valid := true |>
                                         <| last_activity_ms := now |>) s in
          let need := Z.of_nat (length (buf x)) + Z.of_nat (length payload) in
          if decide (need > PC_CTX_BUF_CAP) then pc_fault 1 s
          else
            let big := bool_decide (need > buf_cap x) in
            let '(ok, s) := if big then malloc s else (true, s) in
            if negb ok then pc_fault 1 s
            else
              let nc := grow 64 (if decide (buf_cap x = 0) then 4096 else buf_cap x) need in
              let s := set_ctx k (fun x => x <| buf ::= fun b => b ++ payload |>
                                             <| buf_cap ::= fun c => if big then nc else c |>) s in
              if baseline_set x then pc_frame_ctx k s else pc_try_match k s
    end.

Definition pc_on_baseline (k value : Z) (s : st) : st :=
  let '(found, s) := pc_get_ctx k true s in
  match found with
  | None => pc_fault 1 s
  | Some x =>
      let had := baseline_set x in
      let s := pc_cmds_free (cmds x) s in
      let s := set_ctx k (fun x =>
        x <| cmds := [] |> <| descs := [] |> <| next_seq := if decide (value <> 0) then value else 1 |>
          <| baseline_set := true |> <| ignored := false |> <| recv_seq_valid := false |>
          <| last_recv_seq := 0 |> <| buf ::= fun b => if had then [] else b |>) s in
      pc_try_match k (pc_frame_ctx k s)
  end.

(** The walk over the recovery list: what is dropped, replayed, or lost after a
    failed delivery. *)
Fixpoint resume_loop (marker : Z) (failed : bool) (l : list rec) (s : st) : bool * st :=
  match l with
  | [] => (failed, s)
  | r :: rest =>
      if failed then resume_loop marker true rest s
      else if decide (r_global_seq r <= marker) then resume_loop marker false rest s
      else
        let '(ok, s) := g_emit (r_data r) s in
        let s := note (EReplay (r_global_seq r) (r_data r) ok) s in
        if ok then
          resume_loop marker false rest
            (s <| g_st ::= fun t => t <| st_emitted ::= fun n => u64 (n + Z.of_nat (length (r_data r))) |> |>)
        else resume_loop marker true rest s
  end.
Definition pc_on_resume (marker : Z) (s : st) : st :=
  let '(failed, s) := resume_loop marker false (recs s) (note (EResume marker) s) in
  let s := s <| recs := [] |> <| rec_bytes := 0 |> <| wait_resume := false |>
             <| wait_resume_ms := 0 |> in
  if failed then pc_fault 1 s else s <| resume_event := true |>.

Definition pc_epoch_stale (e : Z) (s : st) : bool :=
  bool_decide (e <> 0 /\ session_epoch s <> 0 /\ e <> session_epoch s).

(** The descriptors of a batch, one after the other, until a fault. *)
Fixpoint batch_loop (n : nat) (payload : bytes) (s : st) : st :=
  match n with
  | O => s
  | S n' =>
      let s := s <| g_st ::= fun t => t <| st_desc ::= fun n => u64 (n + 1) |> |> in
      let s := pc_on_desc (CommitWire.get_desc (take CommitWire.desc_size payload)) s in
      if faulted s then s else batch_loop n' (drop CommitWire.desc_size payload) s
  end.

Definition pc_process_msg (b : bytes) (s : st) : st :=
  if decide (length b < CommitWire.msg_size)%nat then s
  else
    let h := CommitWire.get_msg b in
    if decide (CommitWire.m_magic h <> CommitWire.REPL_COMMIT_MAGIC \/
               CommitWire.m_version h <> CommitWire.REPL_COMMIT_VERSION) then pc_fault 4 s
    else
      let payload := drop CommitWire.msg_size b in
      let kv := CommitWire.get_kv payload in
      let short := bool_decide (length payload < CommitWire.kv_size)%nat in
      let stale := pc_epoch_stale (CommitWire.m_epoch h) s in
      let t := CommitWire.m_type h in
      if decide (t = CommitWire.REPL_COMMIT_MSG_HELLO) then
        proxy_commit_purge (s <| epoch := CommitWire.m_epoch h |> <| session_epoch := 0 |>)
      else if decide (t = CommitWire.REPL_COMMIT_MSG_BASELINE) then
        if short then pc_fault 2 s
        else pc_on_baseline (CommitWire.k_cookie kv) (CommitWire.k_value kv)
               (s <| session_epoch := CommitWire.m_epoch h |>)
      else if decide (t = CommitWire.REPL_COMMIT_MSG_IGNORE) then
        if short || stale then s
        else
          let '(found, s) := pc_get_ctx (CommitWire.k_cookie kv) true s in
          match found with
          | Some x => set_ctx (CommitWire.k_cookie kv) (fun x => x <| ignored := true |>) (pc_ctx_reset x s)
          | None => s
          end
      else if decide (t = CommitWire.REPL_COMMIT_MSG_FORGET) then
        if short || stale then s
        else
          let '(found, s) := pc_get_ctx (CommitWire.k_cookie kv) false s in
          match found with
          | Some x => pc_remove_ctx x s
          | None => s
          end
      else if decide (t = CommitWire.REPL_COMMIT_MSG_RESUME) then
        if stale then s else pc_on_resume (CommitWire.m_global_seq h) s
      else if decide (t = CommitWire.REPL_COMMIT_MSG_BATCH) then
        if stale then s
        else
          let n := CommitWire.m_count h in
          if decide (Z.of_nat (length payload) < n * Z.of_nat CommitWire.desc_size \/
                     n > CommitWire.REPL_COMMIT_BATCH_MAX) then pc_fault 2 s
          else batch_loop (Z.to_nat n) payload s
      else s.

(** ** The channel and the poll *)

(** What [recv] on the control socket answers. *)
Inductive recv_rc := RGot (b : bytes) | REof | RAgain | RIntr | RError.

Definition pc_accept_master (accepted : bool) (s : st) : st :=
  if accepted then proxy_commit_purge (s <| master_fd := true |>) else s.
Fixpoint pc_read_master (answers : list recv_rc) (s : st) : st :=
  match answers with
  | [] => s
  | RGot b :: r =>
      let s := pc_process_msg b s in
      if faulted s then s else pc_read_master r s
  | RIntr :: r => pc_read_master r s
  | RAgain :: _ => s
  | REof :: _ | RError :: _ => pc_fault 4 (s <| master_fd := false |>)
  end.

Definition proxy_commit_poll (buf_on : bool) (accepted : bool) (answers : list recv_rc) (s : st) : st :=
  if negb (listening s) then s
  else
    let s := if negb (master_fd s) then pc_accept_master accepted s else pc_read_master answers s in
    let s :=
      if decide (buf_on <> buffering s) then
        let s := s <| buffering := buf_on |> in
        if decide (buf_on = false /\ rec_bytes s > 0 /\ wait_resume s = false) then
          let '(now, s) := pc_now_ms s in
          s <| wait_resume := true |> <| wait_resume_ms := now |>
        else s
      else s in
    let '(late, s) :=
      if wait_resume s then
        let '(now, s) := pc_now_ms s in (bool_decide (now - wait_resume_ms s > PC_TIMEOUT_MS), s)
      else (false, s) in
    if late then pc_fault 1 s
    else
      let '(now, s) := pc_now_ms s in
      let hole :=
        match ready s with
        | c :: _ => bool_decide (next_global s <> 0 /\ c_global_seq c > next_global s /\
                                 now - c_created_ms c > PC_TIMEOUT_MS)
        | [] => false
        end in
      if hole then pc_fault 1 s
      else if existsb (fun x => negb (ignored x) && stuck now x) (all_ctxs s) then pc_fault 1 s
      else s.

Definition proxy_commit_recovery_pending (s : st) : bool :=
  bool_decide (wait_resume s = true \/ rec_bytes s > 0).
Definition proxy_commit_take_resume_event (s : st) : bool * st :=
  (resume_event s, s <| resume_event := false |>).

(** The calls the proxy's main loop makes. *)
Inductive request :=
  | QRecord (k recv_seq : Z) (payload : bytes)
  | QPoll (buf_on accepted : bool) (answers : list recv_rc)
  | QPurge
  | QTakeResume.
Definition serve (s : st) (q : request) : st :=
  match q with
  | QRecord k n p => proxy_commit_on_record k n p s
  | QPoll b a rs => proxy_commit_poll b a rs s
  | QPurge => proxy_commit_purge s
  | QTakeResume => snd (proxy_commit_take_resume_event s)
  end.
Definition run (qs : list request) (s : st) : st := fold_left serve qs s.

End Ops.

(** ** Facts about the table *)

Lemma pc_hash_range k : 0 <= pc_hash k < PC_MAX_COOKIES.
Proof.
  unfold pc_hash, PC_MAX_COOKIES. change (4096 - 1) with (Z.ones 12).
  rewrite Z.land_ones by lia. apply Z.mod_pos_bound. lia.
Qed.
Lemma elem_bucket_indices b : b ∈ bucket_indices <-> 0 <= b < PC_MAX_COOKIES.
Proof. unfold bucket_indices. rewrite elem_of_seqZ. lia. Qed.
Lemma NoDup_bucket_indices : NoDup bucket_indices.
Proof. apply NoDup_seqZ. Qed.
#[local] Opaque bucket_indices pc_hash.

(** The chain of a bucket among all contexts. *)
Lemma all_ctxs_bucket s b : 0 <= b < PC_MAX_COOKIES ->
  exists R, all_ctxs s ≡ₚ buckets s b ++ R /\
    forall chain, all_ctxs (set_bucket b chain s) ≡ₚ chain ++ R.
Proof.
  intros Hb. assert (Hin : b ∈ bucket_indices) by (by apply elem_bucket_indices).
  pose proof NoDup_bucket_indices as Hnd.
  apply list_elem_of_split in Hin as (l1 & l2 & Hl). rewrite Hl in Hnd.
  apply NoDup_app in Hnd as (_ & Hn1 & Hn2). apply NoDup_cons in Hn2 as [Hn2 _].
  exists (concat (map (buckets s) l1) ++ concat (map (buckets s) l2)).
  unfold all_ctxs. rewrite Hl. split.
  - rewrite map_app, concat_app. cbn. solve_Permutation.
  - intros chain. rewrite map_app, concat_app. cbn [map concat].
    assert (Hb2 : buckets (set_bucket b chain s) b = chain).
    { cbn. by rewrite decide_True. }
    rewrite Hb2.
    assert (Hsame : forall l, b ∉ l -> map (buckets (set_bucket b chain s)) l = map (buckets s) l).
    { intros l Hn. apply map_ext_in. intros i Hi. cbn. rewrite decide_False; [done|].
      intros ->. apply Hn. by apply list_elem_of_In. }
    rewrite !Hsame; [solve_Permutation|done|].
    intros Hx. apply (Hn1 b Hx). apply list_elem_of_here.
Qed.

Lemma find_ctx_split k chain x : find_ctx k chain = Some x ->
  x_cookie x = k /\ exists a b, chain = a ++ x :: b /\
    (forall f, alter_chain k f chain = a ++ f x :: b) /\ unlink k chain = a ++ b.
Proof.
  unfold find_ctx. induction chain as [|y r IH]; cbn [list_find alter_chain unlink]; [done|].
  case_decide as Hy; cbn.
  - intros [= ->]. split; [done|]. by exists [], r.
  - destruct (list_find _ r) as [[i z]|] eqn:Hr; cbn in *; [|done].
    intros Hz. destruct (IH Hz) as (Hk & a & b & -> & Hf & Hu). split; [done|].
    exists (y :: a), b. cbn. rewrite Hu. split_and!; [done| |done]. intros f. by rewrite Hf.
Qed.

Lemma set_ctx_perm k s x : the_ctx k s = Some x ->
  x_cookie x = k /\ exists R, all_ctxs s ≡ₚ x :: R /\ (forall f, all_ctxs (set_ctx k f s) ≡ₚ f x :: R) /\
    all_ctxs (set_bucket (pc_hash k) (unlink k (buckets s (pc_hash k))) s) ≡ₚ R.
Proof.
  intros Hx. apply find_ctx_split in Hx as (Hk & a & b & Hc & Hf & Hu). split; [done|].
  destruct (all_ctxs_bucket s (pc_hash k)) as (R & HR & Hset); [apply pc_hash_range|].
  exists (a ++ b ++ R). split_and!; [rewrite HR, Hc; solve_Permutation| |].
  - intros f. unfold set_ctx. rewrite Hset, Hf. solve_Permutation.
  - rewrite Hset, Hu. solve_Permutation.
Qed.

Lemma set_ctx_none k f s : the_ctx k s = None -> all_ctxs s ≡ₚ all_ctxs (set_ctx k f s).
Proof.
  intros Hx. destruct (all_ctxs_bucket s (pc_hash k)) as (R & HR & Hset); [apply pc_hash_range|].
  unfold set_ctx. rewrite HR, Hset. apply Permutation_app_tail.
  assert (He : alter_chain k f (buckets s (pc_hash k)) = buckets s (pc_hash k)); [|rewrite He; reflexivity].
  clear HR Hset. unfold the_ctx, find_ctx in Hx. induction (buckets s (pc_hash k)) as [|y r IH]; [done|].
  cbn [list_find alter_chain] in *. case_decide; [done|].
  destruct (list_find _ r) as [[]|]; [done|]. f_equal. by apply IH.
Qed.

Lemma new_ctx_perm k s :
  all_ctxs (set_bucket (pc_hash k) (new_ctx k :: buckets s (pc_hash k)) s) ≡ₚ new_ctx k :: all_ctxs s.
Proof.
  destruct (all_ctxs_bucket s (pc_hash k)) as (R & HR & Hset); [apply pc_hash_range|].
  by rewrite Hset, HR.
Qed.

Lemma the_ctx_bucket k chain s :
  the_ctx k (set_bucket (pc_hash k) chain s) = find_ctx k chain.
Proof. unfold the_ctx. cbn. by rewrite decide_True. Qed.

Lemma the_ctx_set k f s : (forall x, x_cookie (f x) = x_cookie x) ->
  the_ctx k (set_ctx k f s) = f <$> the_ctx k s.
Proof.
  intros Hf. unfold set_ctx. rewrite the_ctx_bucket. unfold the_ctx, find_ctx.
  induction (buckets s (pc_hash k)) as [|y r IH]; cbn [alter_chain list_find]; [done|].
  destruct (decide (x_cookie y = k)) as [Hy|Hy]; cbn [list_find].
  - rewrite decide_True by (by rewrite Hf). done.
  - rewrite decide_False by done. destruct (list_find _ (alter_chain _ _ _)) as [[]|],
      (list_find _ r) as [[]|]; cbn in *; congruence.
Qed.

Lemma pc_get_ctx_cases E k create s x s' : pc_get_ctx E k create s = (x, s') ->
  (x = the_ctx k s /\ s' = s) \/
  (the_ctx k s = None /\ x = None /\ (s' = mem_hard s \/ s' = call s)) \/
  (the_ctx k s = None /\ x = Some (new_ctx k) /\ ctx_count s < PC_MAX_CTX /\
   s' = (set_bucket (pc_hash k) (new_ctx k :: buckets s (pc_hash k)) (call s))
          <| ctx_count ::= fun n => i32 (n + 1) |>).
Proof.
  unfold pc_get_ctx. destruct (the_ctx k s) as [y|] eqn:Hy; [intros [= <- <-]; by left|].
  destruct create; cbn [negb]; [|intros [= <- <-]; by left]. case_decide.
  - intros [= <- <-]. right. left. auto.
  - unfold malloc. destruct (malloc_at E (calls s)); cbn [negb]; intros [= <- <-]; right.
    + right. split_and!; try done. lia.
    + left. auto.
Qed.

Lemma pc_get_ctx_found E k create s x s' : pc_get_ctx E k create s = (Some x, s') ->
  the_ctx k s' = Some x /\ faulted s' = faulted s /\ log s' = log s.
Proof.
  intros H. apply pc_get_ctx_cases in H as [[-> ->]|[(?&?&_)|(_&[= ->]&_&->)]]; try done.
  split; [|done]. change (the_ctx k (set_bucket (pc_hash k)
    (new_ctx k :: buckets (call s) (pc_hash k)) (call s)) = Some (new_ctx k)).
  rewrite the_ctx_bucket. unfold find_ctx. cbn. by rewrite decide_True.
Qed.

(** ** What the history has to satisfy *)

(** A descriptor for these bytes and the framed command it is about; after it
    was freed it read as a WRITE under this global number. *)
Definition authorised (l : list event) (gs : Z) (data : bytes) : Prop :=
  exists k d d', EDesc k d ∈ l /\ EFrame k (d_seq d) data ∈ l /\
    d_len d = Z.of_nat (length data) /\ d_crc d = CommitWire.kvs_cmd_crc64 data /\
    EFreed d d' ∈ l /\ Z.land (d_flags d') CommitWire.REPL_COMMIT_FLAG_WRITE <> 0 /\ d_global_seq d' = gs.

(** What an event hands on, whether or not the delivery succeeds. *)
Definition hands_on (e : event) : option (Z * bytes) :=
  match e with
  | EDeliver gs data _ | EStore gs data | EReplay gs data _ => Some (gs, data)
  | _ => None
  end.
Definition log_authorised (l : list event) : Prop :=
  forall pre e post gs data, l = pre ++ e :: post -> hands_on e = Some (gs, data) ->
    authorised pre gs data.

(** The events since the last purge and before the first fault after it. *)
Definition live_step (a : bool * list event) (e : event) : bool * list event :=
  match e with
  | EPurge => (true, [])
  | EFault _ => (false, a.2)
  | _ => if a.1 then (true, a.2 ++ [e]) else a
  end.
Definition live (l : list event) : bool * list event := fold_left live_step l (true, []).

(** The global numbers committed (delivered at once or stored), and those that
    reached the replica's queue (delivered at once or replayed). *)
Definition commits (e : event) : option Z :=
  match e with
  | EDeliver gs _ true | EStore gs _ => Some gs
  | _ => None
  end.
Definition emits (e : event) : option Z :=
  match e with
  | EDeliver gs _ true | EReplay gs _ true => Some gs
  | _ => None
  end.
Definition committed (seg : list event) : list Z := omap commits seg.
Definition emitted (seg : list event) : list Z := omap emits seg.

Definition numbers_ok (gs : list Z) : Prop := Forall (fun g => 0 <= g < UINT64_MAX) gs.
Definition in_order (seg : list event) : Prop :=
  numbers_ok (committed seg) ->
  (exists g0 n, committed seg = seqZ g0 n) /\ StronglySorted Z.lt (emitted seg).
Definition log_ordered (l : list event) : Prop :=
  forall pre, pre `prefix_of` l -> in_order (live pre).2.

(** ** The invariant *)

Definition size_ok (c : cmd) : Prop :=
  c_len c = Z.of_nat (length (c_data c)) /\ 0 < c_len c <= PC_CTX_BUF_CAP.
Definition cmd_ok (l : list event) (k : Z) (c : cmd) : Prop :=
  size_ok c /\ EFrame k (c_seq c) (c_data c) ∈ l.
Definition ctx_ok (l : list event) (x : ctx) : Prop :=
  Z.of_nat (length (buf x)) <= PC_CTX_BUF_CAP /\ Forall (cmd_ok l (x_cookie x)) (cmds x) /\
  Forall (fun d => EDesc (x_cookie x) d ∈ l) (descs x).
Definition ready_ok (l : list event) (c : cmd) : Prop :=
  size_ok c /\ authorised l (c_global_seq c) (c_data c).
Definition rec_ok (l : list event) (r : rec) : Prop :=
  r_data r <> [] /\ authorised l (r_global_seq r) (r_data r).

(** The stored commands follow the emitted ones, all of them committed, and the
    next number is the one after the last commit. *)
Definition queue_order (seg : list event) (next : Z) (rs : list rec) : Prop :=
  numbers_ok (committed seg) ->
  exists g0 n, 0 <= g0 /\ 0 <= n /\ committed seg = seqZ g0 n /\ (0 < n -> next = g0 + n) /\
    StronglySorted Z.lt (emitted seg ++ map r_global_seq rs) /\
    Forall (fun g => g0 <= g < g0 + n) (emitted seg ++ map r_global_seq rs).

Record W (l : list event) (cs : list ctx) (rd : list cmd) (rs : list rec) (f : bool) (nx : Z) : Prop := {
  W_ctxs : Forall (ctx_ok l) cs;
  W_ready : Forall (ready_ok l) rd;
  W_recs : Forall (rec_ok l) rs;
  W_auth : log_authorised l;
  W_ord : log_ordered l;
  W_fault : f = negb (live l).1;
  W_live : f = false -> queue_order (live l).2 nx rs }.

Definition total {A} (f : A -> Z) (l : list A) : Z := foldr (fun x n => f x + n) 0 l.
Definition queued (cs : list ctx) (rd : list cmd) : list cmd := concat (map cmds cs) ++ rd.
Definition rec_len (r : rec) : Z := Z.of_nat (length (r_data r)).

(** The counters are what they count, and within the memory budget. *)
Record M (cs : list ctx) (rd : list cmd) (rs : list rec) (rb pb pc nc : Z) : Prop := {
  M_pending : pb = total c_len (queued cs rd);
  M_count : pc = Z.of_nat (length (queued cs rd));
  M_rec : rb = total rec_len rs;
  M_max : pb + rb <= PC_MEMORY_MAX;
  M_ctx : nc = Z.of_nat (length cs) /\ nc <= PC_MAX_CTX }.

Definition wf (s : st) : Prop :=
  W (log s) (all_ctxs s) (ready s) (recs s) (faulted s) (next_global s).
Definition mem (s : st) : Prop :=
  M (all_ctxs s) (ready s) (recs s) (rec_bytes s) (pending_bytes s) (pending_cmd_count s) (ctx_count s).
Definition good (s : st) : Prop := wf s /\ (faulted s = false -> mem s).

(** *** The history grows *)

Lemma live_snoc l e : live (l ++ [e]) = live_step (live l) e.
Proof. unfold live. by rewrite fold_left_app. Qed.
Lemma live_off l e : (live l).1 = false -> e <> EPurge -> live (l ++ [e]) = live l.
Proof. rewrite live_snoc. destruct (live l) as [b g]. cbn. intros -> He. by destruct e. Qed.
Lemma live_on l e : (live l).1 = true -> e <> EPurge -> (forall r, e <> EFault r) ->
  live (l ++ [e]) = (true, (live l).2 ++ [e]).
Proof. rewrite live_snoc. destruct (live l) as [b g]. cbn. intros -> He Hf. destruct e; try done. by destruct (Hf reason). Qed.

Lemma authorised_mono l e gs data : authorised l gs data -> authorised (l ++ [e]) gs data.
Proof. intros (k & d & d' & H1 & H2 & H3 & H4 & H5 & H). exists k, d, d'. rewrite !elem_of_app. tauto. Qed.
Lemma ctx_ok_mono l e x : ctx_ok l x -> ctx_ok (l ++ [e]) x.
Proof.
  intros (Hb & Hc & Hd). split_and!; [done| |].
  - eapply Forall_impl; [exact Hc|]. intros c [Hs Hi]. split; [done|]. rewrite elem_of_app. by left.
  - eapply Forall_impl; [exact Hd|]. intros d Hi. rewrite elem_of_app. by left.
Qed.
Lemma log_authorised_snoc l e : log_authorised l ->
  (forall gs data, hands_on e = Some (gs, data) -> authorised l gs data) -> log_authorised (l ++ [e]).
Proof.
  intros Hl He pre e' post gs data Heq Hh.
  destruct post as [|p post' _] using rev_ind.
  - apply app_inj_tail in Heq as [<- <-]. by apply He.
  - rewrite app_comm_cons, app_assoc in Heq. apply app_inj_tail in Heq as [-> _]. by eapply Hl.
Qed.
Lemma log_ordered_snoc l e : log_ordered l -> in_order (live (l ++ [e])).2 -> log_ordered (l ++ [e]).
Proof.
  intros Hl He pre [post Heq]. destruct post as [|p post' _] using rev_ind.
  - rewrite app_nil_r in Heq. by subst.
  - rewrite app_assoc in Heq. apply app_inj_tail in Heq as [-> _]. apply Hl. by exists post'.
Qed.
Lemma queue_in_order seg nx rs : queue_order seg nx rs -> in_order seg.
Proof.
  intros H Hr. destruct (H Hr) as (g0 & n & _ & _ & Hc & _ & Hs & _). split; [by exists g0, n|].
  clear -Hs. induction (emitted seg) as [|a r IH]; [constructor|]. cbn in Hs. inversion Hs; subst.
  constructor; [by apply IH|]. by apply Forall_app in H2 as [? _].
Qed.

(** *** Steps of the queues *)

Lemma committed_snoc seg e :
  committed (seg ++ [e]) = committed seg ++ match commits e with Some g => [g] | None => [] end.
Proof. unfold committed. rewrite omap_app. by destruct e as [| | ? ? []| | ? ? []| | | |]. Qed.
Lemma emitted_snoc seg e :
  emitted (seg ++ [e]) = emitted seg ++ match emits e with Some g => [g] | None => [] end.
Proof. unfold emitted. rewrite omap_app. by destruct e as [| | ? ? []| | ? ? []| | | |]. Qed.
Lemma StronglySorted_snoc (l : list Z) x :
  StronglySorted Z.lt l -> Forall (fun y => y < x) l -> StronglySorted Z.lt (l ++ [x]).
Proof.
  induction 1 as [|y l Hs IH Hf]; intros H; cbn; [by repeat constructor|].
  apply Forall_cons in H as [Hy Hl]. constructor; [by apply IH|].
  apply Forall_app. split; [done|]. by repeat constructor.
Qed.

Lemma qo_neutral seg nx rs e : commits e = None -> emits e = None ->
  queue_order seg nx rs -> queue_order (seg ++ [e]) nx rs.
Proof.
  intros Hc He H. unfold queue_order. rewrite committed_snoc, emitted_snoc, Hc, He, !app_nil_r. done.
Qed.

(** A commit under the next number, at the end of the queue. *)
Lemma qo_commit seg gs rs :
  queue_order seg gs rs -> numbers_ok (committed seg ++ [gs]) ->
  exists g0 n, 0 <= g0 /\ 0 <= n /\ committed seg ++ [gs] = seqZ g0 n /\ (0 < n -> u64 (gs + 1) = g0 + n) /\
    StronglySorted Z.lt ((emitted seg ++ map r_global_seq rs) ++ [gs]) /\
    Forall (fun g => g0 <= g < g0 + n) ((emitted seg ++ map r_global_seq rs) ++ [gs]).
Proof.
  intros H Hr. apply Forall_app in Hr as [Hr Hg]. apply Forall_cons in Hg as [Hg _]. unfold UINT64_MAX in Hg.
  destruct (H Hr) as (g0 & n & H0 & Hn & Hc & Hnx & Hs & Hf). rewrite u64_small by lia.
  destruct (decide (n = 0)) as [->|Hn0].
  - exists gs, 1. rewrite Hc. destruct (emitted seg ++ map r_global_seq rs) as [|y r].
    + split_and!; try lia; [by rewrite (seqZ_cons gs), !seqZ_nil by lia|by repeat constructor|].
      repeat constructor; lia.
    + apply Forall_cons in Hf as [Hy _]. lia.
  - specialize (Hnx ltac:(lia)). subst gs. exists g0, (n + 1). split_and!; try lia.
    + rewrite Hc. rewrite seqZ_app by lia. by rewrite (seqZ_cons (g0 + n) 1), (seqZ_nil (Z.succ (g0 + n))) by lia.
    + apply StronglySorted_snoc; [done|]. eapply Forall_impl; [exact Hf|]. intros; cbn in *. lia.
    + apply Forall_app. split; [eapply Forall_impl; [exact Hf|]; intros; cbn in *; lia|].
      repeat constructor; lia.
Qed.
Lemma qo_store seg gs data rs : queue_order seg gs rs ->
  queue_order (seg ++ [EStore gs data]) (u64 (gs + 1)) (rs ++ [Rec gs data]).
Proof.
  intros H. unfold queue_order. rewrite committed_snoc, emitted_snoc, app_nil_r, map_app, app_assoc.
  cbn [commits map r_global_seq]. by apply qo_commit.
Qed.
Lemma qo_deliver seg gs data : queue_order seg gs [] ->
  queue_order (seg ++ [EDeliver gs data true]) (u64 (gs + 1)) [].
Proof.
  intros H. pose proof (qo_commit seg gs [] H) as Hc. cbn [map] in Hc. rewrite app_nil_r in Hc.
  unfold queue_order. rewrite committed_snoc, emitted_snoc. cbn [commits emits map]. by rewrite app_nil_r.
Qed.
Lemma qo_replay seg nx r rs : queue_order seg nx (r :: rs) ->
  queue_order (seg ++ [EReplay (r_global_seq r) (r_data r) true]) nx rs.
Proof.
  unfold queue_order. rewrite committed_snoc, emitted_snoc. cbn [commits emits map].
  by rewrite app_nil_r, <- app_assoc.
Qed.
Lemma StronglySorted_drop (a b : list Z) x :
  StronglySorted Z.lt (a ++ x :: b) -> StronglySorted Z.lt (a ++ b).
Proof.
  induction a as [|y a IH]; cbn; intros H; inversion H; subst; [done|].
  constructor; [by apply IH|]. apply Forall_app in H3 as [? H3]. apply Forall_cons in H3 as [_ ?].
  by apply Forall_app.
Qed.
Lemma qo_drop seg nx r rs : queue_order seg nx (r :: rs) -> queue_order seg nx rs.
Proof.
  intros H Hr. destruct (H Hr) as (g0 & n & H0 & Hn & Hc & Hnx & Hs & Hf). exists g0, n.
  split_and!; try done.
  - by eapply StronglySorted_drop.
  - apply Forall_app in Hf as [? Hf]. apply Forall_cons in Hf as [_ ?]. by apply Forall_app.
Qed.
Lemma qo_first seg gs rs : queue_order seg 0 rs -> queue_order seg gs rs.
Proof.
  intros H Hr. destruct (H Hr) as (g0 & n & H0 & Hn & Hc & Hnx & Hs & Hf). exists g0, n.
  split_and!; try done. intros. lia.
Qed.

(** *** Steps of the invariant *)

Lemma W_perm l cs cs' rd rs f nx : cs ≡ₚ cs' -> W l cs rd rs f nx -> W l cs' rd rs f nx.
Proof. intros Hp []. constructor; try done. by rewrite <- Hp. Qed.

Lemma W_snoc l e cs rd rs rs' f nx nx' :
  W l cs rd rs f nx -> e <> EPurge -> (forall r, e <> EFault r) ->
  (forall gs data, hands_on e = Some (gs, data) -> authorised l gs data) ->
  Forall (rec_ok (l ++ [e])) rs' ->
  (f = false -> queue_order ((live l).2 ++ [e]) nx' rs') ->
  W (l ++ [e]) cs rd rs' f nx'.
Proof.
  intros [Hc Hrd Hrs Ha Ho Hf Hl] Hp Hfl Hauth Hrs' Hq. constructor; try done.
  - eapply Forall_impl; [exact Hc|]. intros x. apply ctx_ok_mono.
  - eapply Forall_impl; [exact Hrd|]. intros c [? ?]. split; [done|]. by apply authorised_mono.
  - by apply log_authorised_snoc.
  - apply log_ordered_snoc; [done|]. destruct (live l).1 eqn:Hon.
    + rewrite live_on by done. cbn [snd]. eapply queue_in_order, Hq. by rewrite Hf.
    + rewrite live_off by done. apply Ho. reflexivity.
  - destruct (live l).1 eqn:Hon; [rewrite live_on by done|rewrite live_off by done]; rewrite Hf; [done|].
    by rewrite Hon.
  - intros Hff. rewrite Hff in Hf. destruct (live l).1 eqn:Hon; [|done].
    rewrite live_on by done. by apply Hq.
Qed.

Lemma recs_mono l e rs : Forall (rec_ok l) rs -> Forall (rec_ok (l ++ [e])) rs.
Proof. intros H. eapply Forall_impl; [exact H|]. intros r [? ?]. split; [done|]. by apply authorised_mono. Qed.

(** An event that hands nothing on successfully. *)
Lemma W_note l e cs rd rs f nx : W l cs rd rs f nx -> e <> EPurge -> (forall r, e <> EFault r) ->
  commits e = None -> emits e = None ->
  (forall gs data, hands_on e = Some (gs, data) -> authorised l gs data) ->
  W (l ++ [e]) cs rd rs f nx.
Proof.
  intros H Hp Hf Hc He Ha. eapply W_snoc; try done; [by eapply recs_mono, W_recs|].
  intros Hff. apply qo_neutral; try done. by apply H.
Qed.

Lemma W_faults l r cs rd rs nx nx' :
  W l cs rd rs false nx -> W (l ++ [EFault r]) cs rd rs true nx'.
Proof.
  intros [Hc Hrd Hrs Ha Ho Hf Hl].
  assert (Hlive : live (l ++ [EFault r]) = (false, (live l).2)) by (by rewrite live_snoc).
  constructor; rewrite ?Hlive; try done.
  - eapply Forall_impl; [exact Hc|]. intros x. apply ctx_ok_mono.
  - eapply Forall_impl; [exact Hrd|]. intros c [? ?]. split; [done|]. by apply authorised_mono.
  - by apply recs_mono.
  - by apply log_authorised_snoc.
  - apply log_ordered_snoc; [done|]. rewrite Hlive. apply Ho. reflexivity.
Qed.

Lemma W_next l cs rd rs f nx nx' : W l cs rd rs f nx -> (f = false -> nx = 0) -> W l cs rd rs f nx'.
Proof.
  intros [] H. constructor; try done. intros Hf. specialize (H Hf). subst. by apply qo_first, W_live0.
Qed.

(** A fault is noted, and puts an end to the accounting. *)
Lemma good_fault_next r s nx :
  W (log s) (all_ctxs s) (ready s) (recs s) (faulted s) nx -> good (pc_fault r s).
Proof.
  unfold pc_fault, good, wf. destruct (faulted s) eqn:Hf; intros H.
  - split; [|by rewrite Hf]. rewrite Hf. by eapply W_next.
  - split; [|by destruct (decide (r = 1))]. destruct (decide (r = 1)); cbn; by eapply W_faults.
Qed.
Lemma good_fault r s : wf s -> good (pc_fault r s).
Proof. apply good_fault_next. Qed.
Lemma pc_fault_faulted r s : faulted (pc_fault r s) = true.
Proof. unfold pc_fault. destruct (faulted s) eqn:Hf; [done|]. by destruct (decide (r = 1)). Qed.

Lemma W_store l cs rd rs f gs data : W l cs rd rs f gs -> authorised l gs data -> data <> [] ->
  W (l ++ [EStore gs data]) cs rd (rs ++ [Rec gs data]) f (u64 (gs + 1)).
Proof.
  intros H Ha Hd. eapply W_snoc; try done.
  - by intros gs' data' [= <- <-].
  - apply Forall_app. split; [by eapply recs_mono, W_recs|].
    repeat constructor; [done|]. by apply authorised_mono.
  - intros Hf. by apply qo_store, H.
Qed.
Lemma W_deliver l cs rd rs f gs data : W l cs rd rs f gs -> authorised l gs data ->
  (f = false -> rs = []) -> W (l ++ [EDeliver gs data true]) cs rd rs f (u64 (gs + 1)).
Proof.
  intros H Ha Hrs. eapply W_snoc; try done.
  - by intros gs' data' [= <- <-].
  - by eapply recs_mono, W_recs.
  - intros Hf. rewrite (Hrs Hf). apply qo_deliver. rewrite <- (Hrs Hf). by apply H.
Qed.
Lemma W_tail l cs c rd rs f nx : W l cs (c :: rd) rs f nx -> W l cs rd rs f nx /\ ready_ok l c.
Proof. intros []. apply Forall_cons in W_ready0 as [? ?]. split; [by constructor|done]. Qed.

(** *** Counting *)

Lemma total_app {A} (f : A -> Z) l1 l2 : total f (l1 ++ l2) = total f l1 + total f l2.
Proof. induction l1; cbn; unfold total in *; lia. Qed.
#[export] Instance total_proper {A} (f : A -> Z) : Proper ((≡ₚ) ==> eq) (total f).
Proof. intros l1 l2. unfold total. induction 1; cbn; lia. Qed.
Lemma total_nonneg {A} (f : A -> Z) l : Forall (fun x => 0 <= f x) l -> 0 <= total f l.
Proof. induction 1; cbn; unfold total in *; lia. Qed.
#[export] Instance queued_proper : Proper ((≡ₚ) ==> (≡ₚ) ==> (≡ₚ)) queued.
Proof.
  intros a b Hab c d Hcd. unfold queued. rewrite Hcd. apply Permutation_app_tail.
  induction Hab; cbn; try done; [by rewrite IHHab|solve_Permutation|by etransitivity].
Qed.
Lemma queued_cons x cs rd : queued (x :: cs) rd = cmds x ++ queued cs rd.
Proof. unfold queued. cbn. by rewrite app_assoc. Qed.
Lemma M_perm cs cs' rd rd' rs rb pb pc nc : cs ≡ₚ cs' -> rd ≡ₚ rd' ->
  M cs rd rs rb pb pc nc -> M cs' rd' rs rb pb pc nc.
Proof. intros Hp Hr []. constructor; try done; by rewrite <- Hp, <- ?Hr. Qed.

(** Every queued command has its size. *)
Lemma queued_sizes l cs rd : Forall (ctx_ok l) cs -> Forall (ready_ok l) rd -> Forall size_ok (queued cs rd).
Proof.
  intros Hcs Hrd. unfold queued. apply Forall_app. split.
  - apply Forall_concat, Forall_map. eapply Forall_impl; [exact Hcs|].
    intros x (_ & Hc & _). eapply Forall_impl; [exact Hc|]. by intros c [? _].
  - eapply Forall_impl; [exact Hrd|]. by intros c [? _].
Qed.
Lemma W_sizes l cs rd rs f nx : W l cs rd rs f nx -> Forall size_ok (queued cs rd).
Proof. intros []. by eapply queued_sizes. Qed.
Lemma sizes_nonneg (L : list cmd) : Forall size_ok L -> 0 <= total c_len L.
Proof. intros H. apply total_nonneg. eapply Forall_impl; [exact H|]. intros c [_ ?]. lia. Qed.
Lemma c_bytes_ok c : size_ok c -> c_bytes c = c_data c.
Proof. intros [H _]. unfold c_bytes. apply take_ge. lia. Qed.

(** Freeing a command touches the two counters, and is exact when they are. *)
Lemma pc_cmd_free_shape c s : exists p n, pc_cmd_free c s = s <| pending_bytes := p |> <| pending_cmd_count := n |> /\
  forall t m, pending_bytes s = c_len c + t -> 0 <= t -> pending_cmd_count s = 1 + m -> 0 <= m -> p = t /\ n = m.
Proof.
  exists (if decide (pending_bytes s >= c_len c) then pending_bytes s - c_len c else pending_bytes s),
    (if decide (pending_cmd_count s > 0) then pending_cmd_count s - 1 else pending_cmd_count s).
  split; [|intros; repeat case_decide; lia].
  unfold pc_cmd_free. destruct (decide (pending_bytes s >= c_len c)); cbn [pending_cmd_count upd];
    case_decide; by destruct s.
Qed.
Lemma pc_cmds_free_shape L : forall s, exists p n,
  pc_cmds_free L s = s <| pending_bytes := p |> <| pending_cmd_count := n |> /\
  forall t m, Forall size_ok L -> pending_bytes s = total c_len L + t -> 0 <= t ->
    pending_cmd_count s = Z.of_nat (length L) + m -> 0 <= m -> p = t /\ n = m.
Proof.
  induction L as [|c L IH]; intros s; cbn [pc_cmds_free fold_left].
  - exists (pending_bytes s), (pending_cmd_count s). split; [by destruct s|]. cbn. intros. lia.
  - destruct (pc_cmd_free_shape c s) as (p & n & Hs & Hx).
    destruct (IH (pc_cmd_free c s)) as (p' & n' & Hs' & Hx').
    exists p', n'. split; [unfold pc_cmds_free in Hs'; by rewrite Hs', Hs|].
    intros t m Hok Hp Ht Hn Hm. apply Forall_cons in Hok as [Hc HL]. cbn in Hp, Hn.
    pose proof (sizes_nonneg _ HL).
    destruct (Hx (total c_len L + t) (Z.of_nat (length L) + m)) as [-> ->]; unfold total in *; try lia.
    apply Hx'; rewrite ?Hs; done.
Qed.

Lemma M_budget l cs rd rs rb pb pc nc :
  M cs rd rs rb pb pc nc -> Forall (ready_ok l) rd -> Forall (ctx_ok l) cs -> 0 <= pb /\ 0 <= rb.
Proof.
  intros [Hp _ Hr _ _] Hrd Hcs. split.
  - rewrite Hp. by eapply sizes_nonneg, queued_sizes.
  - rewrite Hr. apply total_nonneg, Forall_true. intros. unfold rec_len. lia.
Qed.

(** The memory of a command that has left the ready list is given back. *)
Lemma M_pop cs c rd rs rb pb pc nc rs' rb' :
  M cs (c :: rd) rs rb pb pc nc -> Forall size_ok (queued cs rd) -> rb' = total rec_len rs' ->
  pb - c_len c + rb' <= PC_MEMORY_MAX ->
  exists t m, pb = c_len c + t /\ 0 <= t /\ pc = 1 + m /\ 0 <= m /\ M cs rd rs' rb' t m nc.
Proof.
  intros [Hp Hc Hr Hm Hx] Hs Hrb Hmax.
  assert (Hq : queued cs (c :: rd) ≡ₚ c :: queued cs rd) by (unfold queued; solve_Permutation).
  rewrite Hq in Hp, Hc. exists (total c_len (queued cs rd)), (Z.of_nat (length (queued cs rd))).
  change (total c_len (c :: queued cs rd)) with (c_len c + total c_len (queued cs rd)) in Hp.
  cbn [length] in Hc. pose proof (sizes_nonneg _ Hs). split_and!; try lia. constructor; try done; lia.
Qed.
Lemma good_free c s : wf s ->
  (faulted s = false -> exists t m, pending_bytes s = c_len c + t /\ 0 <= t /\
     pending_cmd_count s = 1 + m /\ 0 <= m /\
     M (all_ctxs s) (ready s) (recs s) (rec_bytes s) t m (ctx_count s)) -> good (pc_cmd_free c s).
Proof.
  intros Hw Hm. destruct (pc_cmd_free_shape c s) as (p & n & -> & Hx). split; [exact Hw|].
  intros Hf. destruct (Hm Hf) as (t & m & H1 & H2 & H3 & H4 & HM).
  destruct (Hx t m) as [-> ->]; done.
Qed.

Lemma good_free_next c s :
  W (log s) (all_ctxs s) (ready s) (recs s) (faulted s) (u64 (next_global s + 1)) ->
  (faulted s = false -> exists t m, pending_bytes s = c_len c + t /\ 0 <= t /\
     pending_cmd_count s = 1 + m /\ 0 <= m /\
     M (all_ctxs s) (ready s) (recs s) (rec_bytes s) t m (ctx_count s)) ->
  good ((pc_cmd_free c s) <| next_global ::= fun n => u64 (n + 1) |>).
Proof.
  intros Hw Hm. destruct (pc_cmd_free_shape c s) as (p & n & -> & Hx). split; [exact Hw|].
  intros Hf. destruct (Hm Hf) as (t & m & H1 & H2 & H3 & H4 & HM).
  destruct (Hx t m) as [-> ->]; done.
Qed.

Lemma no_bytes_no_recs l rs : Forall (rec_ok l) rs -> total rec_len rs <= 0 -> rs = [].
Proof.
  intros H Ht. destruct rs as [|r rs]; [done|]. apply Forall_cons in H as [[Hr _] H].
  assert (0 <= total rec_len rs).
  { apply total_nonneg. eapply Forall_impl; [exact H|]. intros. unfold rec_len. lia. }
  cbn in Ht. unfold rec_len, total in *. destruct (r_data r); [done|]. cbn in Ht. lia.
Qed.

Section Preserve.

Context (E : env).

Lemma fault_free r c s nx :
  W (log s) (all_ctxs s) (ready s) (recs s) (faulted s) nx ->
  faulted (pc_fault r s) = true /\ good (pc_cmd_free c (pc_fault r s)).
Proof.
  intros H. split; [apply pc_fault_faulted|]. apply good_free.
  - by eapply good_fault_next.
  - by rewrite pc_fault_faulted.
Qed.

(** A command at the head of the ready list whose turn it is. *)
Lemma append_step c r s s1 : good s -> ready s = c :: r -> next_global s = c_global_seq c ->
  s1 = pc_recovery_append E c (s <| ready := r |>) ->
  if faulted s1 then good (pc_cmd_free c s1)
  else good ((pc_cmd_free c s1) <| next_global ::= fun n => u64 (n + 1) |>).
Proof.
  intros [Hw Hm] Hrd Hnx ->. unfold wf in Hw. rewrite Hrd in Hw. apply W_tail in Hw as [Hw [Hsz Ha]].
  pose proof (conj Hsz Ha : ready_ok _ _) as Hrok.
  pose proof (c_bytes_ok _ Hsz) as Hb. pose proof (W_sizes _ _ _ _ _ _ Hw) as Hall.
  unfold pc_recovery_append, malloc. rewrite Hb.
  assert (Hne : c_data c <> []) by (destruct Hsz; intros Hn; rewrite Hn in *; cbn in *; lia).
  destruct (malloc_at E _); cbn [negb].
  - pose proof Hw as Hst. rewrite Hnx in Hst. apply (fun H => W_store _ _ _ _ _ _ _ H Ha Hne) in Hst.
    case_decide as Ho.
    + match goal with |- context [pc_fault 5 ?t] =>
        destruct (fault_free 5 c t _ Hst) as [-> Hg] end. exact Hg.
    + cbn [faulted note upd call]. destruct (faulted s) eqn:Hf.
      * apply good_free; [|cbn; congruence]. unfold wf; cbn. rewrite Hf. by eapply W_next.
      * specialize (Hm eq_refl). unfold mem in Hm. rewrite Hrd in Hm.
        apply good_free_next; cbn; rewrite ?Hf, ?Hnx; [exact Hst|intros _].
        destruct Hsz as [Hlen Hsz]. pose proof (W_sizes _ _ _ _ _ _ Hw) as Hq. apply sizes_nonneg in Hq.
        destruct (M_budget _ _ _ _ _ _ _ _ Hm (Forall_cons_2 _ _ _ Hrok (W_ready _ _ _ _ _ _ Hw))
          (W_ctxs _ _ _ _ _ _ Hw)) as [Hp0 Hr0].
        unfold over_memory in Ho. cbn in Ho. unfold PC_MEMORY_MAX, PC_CTX_BUF_CAP in *.
        pose proof (M_max _ _ _ _ _ _ _ Hm) as Hmax. unfold PC_MEMORY_MAX in Hmax.
        rewrite (u64_small (rec_bytes s + _)) in * by lia. rewrite u64_small in Ho by lia.
        eapply M_pop; [exact Hm|exact Hall| |unfold PC_MEMORY_MAX; lia].
        rewrite total_app, <- (M_rec _ _ _ _ _ _ _ Hm). cbn. unfold rec_len. cbn. lia.
  - match goal with |- context [pc_fault 1 ?t] => destruct (fault_free 1 c t _ Hw) as [-> Hg] end. exact Hg.
Qed.

Lemma emit_step c r s ok s1 : good s -> ready s = c :: r -> next_global s = c_global_seq c ->
  pc_emit_cmd E c (s <| ready := r |>) = (ok, s1) ->
  if ok then good ((pc_cmd_free c s1) <| next_global ::= fun n => u64 (n + 1) |>)
  else good (pc_cmd_free c s1).
Proof.
  intros Hg Hrd Hnx. unfold pc_emit_cmd. case_decide as Hb.
  - intros [= <- <-]. pose proof (append_step c r s _ Hg Hrd Hnx eq_refl) as H. by destruct (faulted _).
  - destruct Hg as [Hw Hm]. unfold wf in Hw. rewrite Hrd in Hw. apply W_tail in Hw as [Hw [Hsz Ha]].
    pose proof (c_bytes_ok _ Hsz) as Hcb. pose proof (W_sizes _ _ _ _ _ _ Hw) as Hall.
    rewrite Hcb. unfold g_emit. destruct (emit_at E _ _); cbn [negb]; intros [= <- <-].
    + assert (Hrs : faulted s = false -> recs s = []).
      { intros Hf. specialize (Hm Hf). eapply no_bytes_no_recs; [exact (W_recs _ _ _ _ _ _ Hw)|].
        rewrite <- (M_rec _ _ _ _ _ _ _ Hm). cbn in Hb. lia. }
      apply good_free_next; cbn.
      * rewrite Hnx in Hw |- *. by apply W_deliver.
      * intros Hf. specialize (Hm Hf). unfold mem in Hm. rewrite Hrd in Hm.
        eapply M_pop; [exact Hm|exact Hall|by apply Hm|]. destruct Hm, Hsz. lia.
    + eapply fault_free, W_note; try done. by intros ? ? [= <- <-].
Qed.

Lemma drain_good fuel : forall s, good s -> good (drain_loop E fuel s).
Proof.
  induction fuel as [|f IH]; intros s Hg; cbn [drain_loop]; [done|].
  destruct (ready s) as [|c r] eqn:Hrd; [done|].
  set (s0 := if decide (next_global s = 0) then _ else _).
  assert (Hs0 : good s0 /\ ready s0 = c :: r).
  { subst s0. case_decide as H0; [|done]. split; [|done]. destruct Hg as [Hw Hm]. split; [|exact Hm].
    unfold wf in *. cbn. by eapply W_next. }
  clearbody s0. destruct Hs0 as [Hg0 Hrd0]. case_decide as H1; [by apply good_fault, Hg0|].
  case_decide as H2; [done|]. destruct (pc_emit_cmd E c _) as [ok s1] eqn:He.
  pose proof (emit_step _ _ _ _ _ Hg0 Hrd0 ltac:(lia) He) as H. destruct ok; cbn [negb]; auto.
Qed.

(** A store to a context that leaves its commands alone. *)
Lemma good_ctx k f s x : good s -> the_ctx k s = Some x ->
  (ctx_ok (log s) x -> ctx_ok (log s) (f x)) -> cmds (f x) = cmds x -> good (set_ctx k f s).
Proof.
  intros [Hw Hm] Hx Hok Hc. apply set_ctx_perm in Hx as (_ & R & Hp & Hp' & _). split.
  - unfold wf in *. eapply W_perm; [symmetry; apply Hp'|]. eapply W_perm in Hw; [|exact Hp].
    destruct Hw as [Hcs]. constructor; try done. apply Forall_cons in Hcs as [? ?].
    constructor; auto.
  - intros Hf. specialize (Hm Hf). unfold mem in *. eapply M_perm; [symmetry; apply Hp'|reflexivity|].
    eapply M_perm in Hm; [|exact Hp|reflexivity].
    destruct Hm. constructor; try done; rewrite ?queued_cons, ?Hc in *; done.
Qed.

Lemma ready_insert_perm c l : ready_insert c l ≡ₚ c :: l.
Proof. induction l as [|y r IH]; cbn; [done|]. case_decide; [rewrite IH; constructor|done]. Qed.

(** The head command of a connection goes to the ready list, or is dropped. *)
Lemma ctx_pop_ok l x c cs d ds : ctx_ok l x -> cmds x = c :: cs -> descs x = d :: ds ->
  ctx_ok l (x <| cmds := cs |> <| descs := ds |>) /\ cmd_ok l (x_cookie x) c /\ EDesc (x_cookie x) d ∈ l.
Proof.
  intros (Hb & Hc & Hd) H1 H2. rewrite H1, Forall_cons in Hc. rewrite H2, Forall_cons in Hd.
  destruct Hc, Hd. by split_and!.
Qed.
Lemma the_ctx_ok k s x : wf s -> the_ctx k s = Some x -> ctx_ok (log s) x.
Proof.
  intros Hw Hx. apply set_ctx_perm in Hx as (_ & R & Hp & _). destruct Hw as [Hcs].
  rewrite Hp, Forall_cons in Hcs. tauto.
Qed.
Lemma pop_wf k s x c cs d ds rd : wf s -> the_ctx k s = Some x -> cmds x = c :: cs -> descs x = d :: ds ->
  Forall (ready_ok (log s)) rd ->
  W (log s) (all_ctxs (set_ctx k (fun x => x <| cmds := cs |> <| descs := ds |>) s)) rd (recs s)
    (faulted s) (next_global s).
Proof.
  intros Hw Hx Hc Hd Hrd. pose proof (the_ctx_ok _ _ _ Hw Hx) as Hok.
  apply set_ctx_perm in Hx as (_ & R & Hp & Hp' & _).
  eapply W_perm; [symmetry; apply Hp'|]. eapply W_perm in Hw; [|exact Hp].
  destruct Hw as [Hcs]. constructor; try done. apply Forall_cons in Hcs as [_ HR].
  constructor; [by eapply ctx_pop_ok|done].
Qed.
Lemma pop_mem k s x c cs ds c' : mem s -> the_ctx k s = Some x -> cmds x = c :: cs -> c_len c' = c_len c ->
  M (all_ctxs (set_ctx k (fun x => x <| cmds := cs |> <| descs := ds |>) s)) (c' :: ready s) (recs s)
    (rec_bytes s) (pending_bytes s) (pending_cmd_count s) (ctx_count s).
Proof.
  intros Hm Hx Hc Hlen. apply set_ctx_perm in Hx as (_ & R & Hp & Hp' & _).
  eapply M_perm; [symmetry; apply Hp'|reflexivity|]. eapply M_perm in Hm; [|exact Hp|reflexivity].
  destruct Hm as [H1 H2 H3 H4 H5]. rewrite queued_cons, Hc in *.
  assert (Hq : forall z, queued (z :: R) (c' :: ready s) ≡ₚ c' :: cmds z ++ queued R (ready s))
    by (intros; unfold queued; cbn; solve_Permutation).
  constructor; try done; rewrite Hq; [rewrite H1; cbn; lia|rewrite H2; cbn; lia].
Qed.

Lemma pop_ready k s x c cs d ds c' : good s -> the_ctx k s = Some x -> cmds x = c :: cs ->
  descs x = d :: ds -> c_len c' = c_len c -> ready_ok (log s) c' ->
  good (pc_ready_insert c' ((set_ctx k (fun x => x <| cmds := cs |> <| descs := ds |>) s)
    <| g_st ::= fun t => t <| st_writes ::= fun n => u64 (n + 1) |> |>)).
Proof.
  intros [Hw Hm] Hx Hc Hd Hlen Hok. split.
  - refine (pop_wf k s x c cs d ds _ Hw Hx Hc Hd _). cbn. rewrite ready_insert_perm.
    constructor; [done|]. by apply Hw.
  - intros Hf. eapply M_perm; [reflexivity|symmetry; apply ready_insert_perm|].
    exact (pop_mem k s x c cs ds c' (Hm Hf) Hx Hc Hlen).
Qed.
Lemma pop_drop k s x c cs d ds : good s -> the_ctx k s = Some x -> cmds x = c :: cs ->
  descs x = d :: ds ->
  good (pc_cmd_free c ((set_ctx k (fun x => x <| cmds := cs |> <| descs := ds |>) s)
    <| g_st ::= fun t => t <| st_skips ::= fun n => u64 (n + 1) |> |>)).
Proof.
  intros [Hw Hm] Hx Hc Hd. pose proof (pop_wf _ _ _ _ _ _ _ (ready s) Hw Hx Hc Hd) as Hw'.
  specialize (Hw' ltac:(by apply Hw)).
  apply good_free; [exact Hw'|]. intros Hf. specialize (Hm Hf).
  pose proof (pop_mem _ _ _ _ _ ds c Hm Hx Hc eq_refl) as Hm'.
  eapply M_pop; [exact Hm'|by eapply W_sizes|by apply Hm|].
  destruct (ctx_pop_ok _ _ _ _ _ _ (the_ctx_ok _ _ _ Hw Hx) Hc Hd) as (_ & [[_ Hs] _] & _).
  destruct Hm. cbn. lia.
Qed.

Lemma note_good e s : good s -> e <> EPurge -> (forall r, e <> EFault r) -> hands_on e = None ->
  good (note e s).
Proof.
  intros [Hw Hm] Hp Hf Hh. split; [|exact Hm]. apply W_note; try done.
  - by destruct e as [| | ? ? []| | ? ? []| | | |].
  - by destruct e as [| | ? ? []| | ? ? []| | | |].
  - by rewrite Hh.
Qed.

Lemma freed_good d d' s : good s -> good (note (EFreed d d') (call s)).
Proof. intros Hg. by apply (note_good _ (call s)). Qed.

Lemma match_good fuel : forall k s, good s -> good (match_loop E fuel k s).2.
Proof.
  induction fuel as [|f IH]; intros k s Hg; cbn [match_loop]; [done|].
  destruct (the_ctx k s) as [x|] eqn:Hx; [|done].
  destruct (cmds x) as [|c cs] eqn:Hc; [done|]. destruct (descs x) as [|d ds] eqn:Hd; [done|].
  repeat (case_decide; [by apply good_fault, Hg|]). cbn [read_freed].
  set (d' := after_free E _ d). pose proof (freed_good d d' s Hg) as Hg'.
  destruct (ctx_pop_ok _ _ _ _ _ _ (the_ctx_ok _ _ _ (proj1 Hg') Hx) Hc Hd) as (_ & [Hsz Hfr] & Hde).
  case_decide as Hwr; apply IH.
  - apply drain_good. eapply (pop_ready k (note (EFreed d d') (call s))); try done. split; [done|]. cbn.
    exists (x_cookie x), d, d'. rewrite <- H, <- H0, <- H1, (c_bytes_ok _ Hsz). split_and!; try done; [apply Hsz|set_solver].
  - by eapply (pop_drop k (note (EFreed d d') (call s))).
Qed.

Lemma good_call s : good s -> good (call s).
Proof. exact id. Qed.

Lemma try_match_good k s : good s -> good (pc_try_match E k s).
Proof.
  intros Hg. unfold pc_try_match, pc_now_ms. destruct (the_ctx k (call s)) as [x|]; [|done].
  pose proof (match_good (length (descs x)) k _ (good_call _ Hg)) as H.
  destruct (match_loop _ _ _ _) as [[] s1]; [done|]. destruct (the_ctx k s1) as [y|]; [|done].
  destruct (stuck _ y); [|done]. by apply good_fault, H.
Qed.

(** A framed command joins the queue of its connection. *)
Lemma push_wf k s x c e : wf s -> the_ctx k s = Some x -> size_ok c -> e = EFrame k (c_seq c) (c_data c) ->
  W (log s ++ [e])
    (all_ctxs (set_ctx k (fun x => x <| next_seq ::= fun n => u64 (n + 1) |> <| cmds ::= fun l => l ++ [c] |>) s))
    (ready s) (recs s) (faulted s) (next_global s).
Proof.
  intros Hw Hx Hsz ->. apply set_ctx_perm in Hx as (Hk & R & Hp & Hp' & _). subst k.
  eapply W_perm; [symmetry; apply Hp'|]. eapply W_perm in Hw; [|exact Hp].
  assert (Hw' : W (log s ++ [EFrame (x_cookie x) (c_seq c) (c_data c)]) (x :: R) (ready s) (recs s)
    (faulted s) (next_global s)) by (by apply W_note).
  destruct Hw' as [Hcs]. constructor; try done. apply Forall_cons in Hcs as [(Hb & Hcm & Hds) HR]. constructor; [|done].
  split_and!; [done| |done]. cbn. apply Forall_app. split; [done|].
  constructor; [|constructor]. split; [done|]. apply elem_of_app. right. apply list_elem_of_here.
Qed.
Lemma push_mem k s x c len : mem s -> the_ctx k s = Some x -> c_len c = len -> 0 <= len -> 0 <= pending_bytes s ->
  pending_bytes s + len + rec_bytes s <= PC_MEMORY_MAX -> 
  M (all_ctxs (set_ctx k (fun x => x <| next_seq ::= fun n => u64 (n + 1) |> <| cmds ::= fun l => l ++ [c] |>) s))
    (ready s) (recs s) (rec_bytes s) (pending_bytes s + len) (pending_cmd_count s + 1) (ctx_count s).
Proof.
  intros Hm Hx Hlen Hl0 Hp0 Hmax. apply set_ctx_perm in Hx as (_ & R & Hp & Hp' & _).
  eapply M_perm; [symmetry; apply Hp'|reflexivity|]. eapply M_perm in Hm; [|exact Hp|reflexivity].
  destruct Hm as [H1 H2 H3 H4 H5]. rewrite queued_cons in *. constructor; rewrite ?queued_cons; try done; try lia; cbn [cmds upd].
  - rewrite !total_app in *. assert (total c_len [c] = c_len c) by (unfold total; cbn; lia). lia.
  - rewrite !length_app in *. cbn [length]. lia.
Qed.

Lemma sizes_count (L : list cmd) : Forall size_ok L -> Z.of_nat (length L) <= total c_len L.
Proof. induction 1 as [|c L [_ Hc] _ IH]; unfold total in *; cbn [length foldr]; lia. Qed.
Lemma good_bounds s : good s -> faulted s = false ->
  0 <= pending_bytes s /\ 0 <= rec_bytes s /\ pending_bytes s + rec_bytes s <= PC_MEMORY_MAX /\
  0 <= pending_cmd_count s <= PC_MEMORY_MAX.
Proof.
  intros [Hw Hm] Hf. specialize (Hm Hf). pose proof (W_sizes _ _ _ _ _ _ Hw) as Hs.
  destruct (M_budget _ _ _ _ _ _ _ _ Hm (W_ready _ _ _ _ _ _ Hw) (W_ctxs _ _ _ _ _ _ Hw)).
  apply sizes_count in Hs. destruct Hm. lia.
Qed.

Lemma frame_one_good k data s : (0 < length data)%nat -> Z.of_nat (length data) <= PC_CTX_BUF_CAP ->
  good s -> good (pc_frame_one E k data s).
Proof.
  intros Hd0 Hd1 Hg. unfold pc_frame_one, malloc. destruct (malloc_at E (calls s)); cbn [negb].
  2: { by apply good_fault, Hg. }
  destruct (the_ctx k (call s)) as [x|] eqn:Hx; [|done]. unfold pc_now_ms. cbv zeta.
  unfold PC_CTX_BUF_CAP in Hd1. rewrite (u32_small (Z.of_nat (length data))) by lia.
  set (c := Cmd _ _ _ _ _ _).
  assert (Hsz : size_ok c) by (split; cbn; unfold PC_CTX_BUF_CAP; lia).
  pose proof (push_wf k s x c _ (proj1 Hg) Hx Hsz eq_refl) as Hw.
  case_decide as Ho; [apply good_fault; exact Hw|]. apply try_match_good. split; [exact Hw|].
  intros Hf. cbn in Hf. destruct (good_bounds _ Hg Hf) as (Hp & Hr & Hmax & Hc).
  unfold over_memory in Ho. cbn in Ho. unfold PC_MEMORY_MAX in *.
  unfold mem. cbn. rewrite (u64_small (pending_bytes s + Z.of_nat (length data))) in * by lia.
  rewrite u64_small in Ho by lia.
  unfold i64. rewrite Z.mod_small by lia.
  replace (pending_cmd_count s + 1 + 2 ^ 63 - 2 ^ 63) with (pending_cmd_count s + 1) by lia.
  refine (push_mem k s x c (Z.of_nat (length data)) (proj2 Hg Hf) Hx eq_refl _ Hp _); [lia|].
  unfold PC_MEMORY_MAX. lia.
Qed.

Lemma good_same_ctx s k f : good s -> (forall x, ctx_ok (log s) x -> ctx_ok (log s) (f x)) ->
  (forall x, cmds (f x) = cmds x) -> good (set_ctx k f s).
Proof.
  intros Hg Hok Hc. destruct (the_ctx k s) as [x|] eqn:Hx; [by eapply good_ctx; eauto|].
  apply (set_ctx_none k f) in Hx. destruct Hg as [Hw Hm]. split.
  - unfold wf in *. by eapply W_perm.
  - intros Hf. specialize (Hm Hf). by eapply M_perm.
Qed.

Lemma frame_ctx_good k s : good s -> good (pc_frame_ctx E k s).
Proof.
  intros Hg. unfold pc_frame_ctx. destruct (the_ctx k s) as [x|] eqn:Hx; [|done].
  destruct (baseline_set x); cbn [negb]; [|done].
  destruct (the_ctx_ok _ _ _ (proj1 Hg) Hx) as (Hb & _).
  pose proof (Resp.pc_frames_bounded (buf x)) as [Hf Hk].
  destruct (Resp.pc_frame_ctx (buf x)) as [frames kept]. cbn [fst snd] in *.
  assert (Hg' : good (fold_left (fun s data => pc_frame_one E k data s) frames s)).
  { clear Hx. revert s Hg. induction frames as [|f fs IH]; intros s Hg; [done|].
    apply Forall_cons in Hf as [Hf0 Hf]. cbn [fold_left]. apply IH; [done|].
    apply frame_one_good; [lia|lia|done]. }
  revert Hg'. generalize (fold_left (fun s data => pc_frame_one E k data s) frames s). intros s' Hg'.
  apply good_same_ctx; [done| |reflexivity]. intros y (_ & ? & ?). split_and!; [|done|done].
  change (Z.of_nat (length kept) <= PC_CTX_BUF_CAP). lia.
Qed.

Lemma get_ctx_good k create s x s' : good s -> pc_get_ctx E k create s = (x, s') -> good s'.
Proof.
  intros [Hw Hm] H. apply pc_get_ctx_cases in H as [[_ ->]|[(_&_&[-> | ->])|(_&_&Hc&->)]]; [done..|].
  split.
  - unfold wf in *. cbn. eapply W_perm; [symmetry; apply (new_ctx_perm k (call s))|]. destruct Hw as [Hcs].
    constructor; try done. constructor; [|done]. split_and!; [done|constructor|constructor].
  - intros Hf. specialize (Hm Hf). unfold mem in *. cbn.
    eapply M_perm; [symmetry; apply (new_ctx_perm k (call s))|reflexivity|]. destruct Hm as [H1 H2 H3 H4 [H5 H6]].
    unfold PC_MAX_CTX in *. assert (Hi : i32 (ctx_count s + 1) = ctx_count s + 1).
    { unfold i32. rewrite Z.mod_small by lia. lia. }
    cbn in Hi. rewrite Hi. constructor; rewrite ?queued_cons; try done.
    change (all_ctxs (call s)) with (all_ctxs s). unfold PC_MAX_CTX. cbn [length]. lia.
Qed.

Lemma on_desc_good w s : good s -> good (pc_on_desc E w s).
Proof.
  intros Hg. unfold pc_on_desc. destruct (faulted s); [done|].
  destruct (pc_get_ctx E _ true s) as [[x|] s1] eqn:He; pose proof (get_ctx_good _ _ _ _ _ Hg He) as Hg1.
  2: { by apply good_fault, Hg1. }
  apply pc_get_ctx_found in He as (Hx & _ & _). destruct (ignored x); [done|].
  unfold malloc, pc_now_ms. destruct (malloc_at E (calls s1)); cbn [negb]; [|by apply good_fault, Hg1].
  set (d := mk_desc _ w). set (k := CommitWire.cookie w) in *.
  assert (Hg2 : good (set_ctx k (fun x => x <| descs ::= fun l => l ++ [d] |>)
    (note (EDesc k d) (call (call s1))))).
  { eapply good_ctx; [by apply note_good|exact Hx| |reflexivity].
    intros (? & ? & Hd). split_and!; [done..|]. cbn [x_cookie descs upd log note]. apply Forall_app. split; [done|].
    constructor; [|constructor]. apply elem_of_app. right.
    apply set_ctx_perm in Hx as [-> _]. apply list_elem_of_here. }
  destruct (baseline_set x); cbn [negb]; [apply try_match_good|]; exact Hg2.
Qed.

Lemma on_record_good k n payload s : good s -> good (proxy_commit_on_record E k n payload s).
Proof.
  intros Hg. unfold proxy_commit_on_record. destruct (faulted s); [done|].
  destruct (pc_get_ctx E k true s) as [[x|] s1] eqn:He; pose proof (get_ctx_good _ _ _ _ _ Hg He) as Hg1.
  2: { by apply good_fault, Hg1. }
  apply pc_get_ctx_found in He as (Hx & _ & _). destruct (ignored x); [done|].
  case_decide as Hgap; [by apply good_fault, Hg1|]. unfold pc_now_ms. cbv zeta.
  set (f := fun x : ctx => x <| last_recv_seq := n |> <| recv_seq_valid := true |>
    <| last_activity_ms := now_at E (calls s1) |>).
  assert (Hg2 : good (set_ctx k f (call s1))) by (apply good_same_ctx; [exact Hg1|by intros ? ?|done]).
  assert (Hx2 : the_ctx k (set_ctx k f (call s1)) = Some (f x)).
  { rewrite the_ctx_set by done. change (the_ctx k (call s1)) with (the_ctx k s1). by rewrite Hx. }
  case_decide as Hcap; [by apply good_fault, Hg2|].
  set (s2 := set_ctx k f (call s1)) in *. clearbody s2.
  set (big := bool_decide _). destruct (if big then _ else _) as [ok s3] eqn:Hs3.
  assert (Hg3 : good s3 /\ the_ctx k s3 = Some (f x)) by (destruct big; injection Hs3 as _ <-; done).
  destruct Hg3 as [Hg3 Hx3]. destruct ok; cbn [negb]; [|by apply good_fault, Hg3].
  match goal with |- context [set_ctx k ?g s3] => assert (Hg4 : good (set_ctx k g s3)) end.
  { eapply good_ctx; [exact Hg3|exact Hx3| |reflexivity]. intros (_ & ? & ?). split_and!; [|done|done].
    cbn. rewrite length_app. unfold PC_CTX_BUF_CAP in *. lia. }
  destruct (baseline_set x); [by apply frame_ctx_good|by apply try_match_good].
Qed.

(** The queues of a connection are emptied. *)
Lemma M_without x R rd rs rb pb pc nc :
  M (x :: R) rd rs rb pb pc nc -> Forall size_ok (queued (x :: R) rd) ->
  exists t m, Forall size_ok (cmds x) /\ pb = total c_len (cmds x) + t /\ 0 <= t /\
    pc = Z.of_nat (length (cmds x)) + m /\ 0 <= m /\ M R rd rs rb t m (nc - 1) /\ nc > 0.
Proof.
  intros [H1 H2 H3 H4 H5] Hs. rewrite queued_cons in *. apply Forall_app in Hs as [Hs1 Hs2].
  rewrite total_app in H1. rewrite length_app in H2.
  pose proof (sizes_nonneg _ Hs1). pose proof (sizes_nonneg _ Hs2). cbn [length] in H5.
  eexists _, _. split_and!; [done|exact H1|done|rewrite H2, Nat2Z.inj_add; reflexivity|lia| |lia].
  constructor; try done; lia.
Qed.
Lemma clear_good k f s x : good s -> the_ctx k s = Some x -> cmds (f x) = [] ->
  (ctx_ok (log s) x -> ctx_ok (log s) (f x)) -> good (set_ctx k f (pc_cmds_free (cmds x) s)).
Proof.
  intros [Hw Hm] Hx Hc Hok. pose proof (the_ctx_ok _ _ _ Hw Hx) as Hxok.
  destruct (pc_cmds_free_shape (cmds x) s) as (p & n & -> & Hex).
  apply set_ctx_perm in Hx as (_ & R & Hp & Hp' & _). eapply W_perm in Hw; [|exact Hp]. split.
  - unfold wf. eapply W_perm; [symmetry; apply (Hp' f)|].
    destruct Hw as [Hcs]. constructor; try done. apply Forall_cons in Hcs as [? ?]. constructor; auto.
  - intros Hf. specialize (Hm Hf). unfold mem in *.
    eapply M_perm; [symmetry; apply (Hp' f)|reflexivity|]. eapply M_perm in Hm; [|exact Hp|reflexivity].
    destruct (M_without _ _ _ _ _ _ _ _ Hm (W_sizes _ _ _ _ _ _ Hw)) as (t & m & ? & ? & ? & ? & ? & HM & ?).
    destruct (Hex t m) as [-> ->]; try done.
    destruct HM. constructor; rewrite ?queued_cons, ?Hc; try done.
    pose proof (M_ctx _ _ _ _ _ _ _ Hm) as Hn. exact Hn.
Qed.

Lemma baseline_good k v s : good s -> good (pc_on_baseline E k v s).
Proof.
  intros Hg. unfold pc_on_baseline.
  destruct (pc_get_ctx E k true s) as [[x|] s1] eqn:He; pose proof (get_ctx_good _ _ _ _ _ Hg He) as Hg1.
  2: { by apply good_fault, Hg1. }
  apply pc_get_ctx_found in He as (Hx & _ & _). apply try_match_good, frame_ctx_good.
  eapply clear_good; [done|exact Hx|reflexivity|]. intros (Hb & _ & _).
  split_and!; [|constructor..]. cbn. destruct (baseline_set x); [|done]. cbn. unfold PC_CTX_BUF_CAP. lia.
Qed.

Lemma reset_good k s x : good s -> the_ctx k s = Some x ->
  good (set_ctx k (fun x => x <| ignored := true |>) (pc_ctx_reset x s)).
Proof.
  intros Hg Hx. pose proof (set_ctx_perm _ _ _ Hx) as [Hk _].
  apply good_same_ctx; [|by intros ? ?|done]. unfold pc_ctx_reset. rewrite Hk.
  eapply clear_good; [done..|]. intros _. split_and!; [done|constructor..].
Qed.

Lemma remove_good k s x : good s -> the_ctx k s = Some x -> good (pc_remove_ctx x s).
Proof.
  intros [Hw Hm] Hx. pose proof (set_ctx_perm _ _ _ Hx) as (Hk & R & Hp & _ & Hu).
  unfold pc_remove_ctx. rewrite Hk.
  destruct (pc_cmds_free_shape (cmds x) (set_bucket (pc_hash k) (unlink k (buckets s (pc_hash k))) s))
    as (p & n & -> & Hex).
  assert (Hw' : W (log s) R (ready s) (recs s) (faulted s) (next_global s)).
  { eapply W_perm in Hw; [|exact Hp]. destruct Hw as [Hcs]. constructor; try done.
    by apply Forall_cons in Hcs as [_ ?]. }
  assert (HM : faulted s = false -> M R (ready s) (recs s) (rec_bytes s) p n (ctx_count s - 1) /\ ctx_count s > 0).
  { intros Hf. specialize (Hm Hf). unfold mem in Hm. eapply M_perm in Hm; [|exact Hp|reflexivity].
    eapply W_perm in Hw; [|exact Hp].
    destruct (M_without _ _ _ _ _ _ _ _ Hm (W_sizes _ _ _ _ _ _ Hw)) as (t & m & ? & ? & ? & ? & ? & ? & ?).
    by destruct (Hex t m) as [-> ->]. }
  set (s1 := set_bucket (pc_hash k) (unlink k (buckets s (pc_hash k))) s) in *.
  assert (Hgo : forall s', log s' = log s -> all_ctxs s' = all_ctxs s1 -> ready s' = ready s -> recs s' = recs s ->
    faulted s' = faulted s -> next_global s' = next_global s -> rec_bytes s' = rec_bytes s -> 
    pending_bytes s' = p -> pending_cmd_count s' = n -> (faulted s = false -> ctx_count s' = ctx_count s - 1) -> good s').
  { intros s' E1 E2 E3 E4 E5 E6 E7 E8 E9 E10. unfold good, wf, mem. rewrite E1, E2, E3, E4, E5, E6, E7, E8, E9. split.
    - by eapply W_perm.
    - intros Hf. destruct (HM Hf). rewrite (E10 Hf). by eapply M_perm. }
  case_decide as Hd; apply Hgo; try done. intros Hf. destruct (HM Hf). cbn in Hd. lia.
Qed.

(** Only the clock, the counters and the history move while the recovery list
    is walked, and the history stays in order. *)
Lemma resume_loop_good marker l : forall failed s,
  W (log s) (all_ctxs s) (ready s) l (faulted s) (next_global s) ->
  exists n t l', (resume_loop E marker failed l s).2 = s <| calls := n |> <| g_st := t |> <| log := l' |> /\
    W l' (all_ctxs s) (ready s) [] (faulted s) (next_global s).
Proof.
  induction l as [|r l IH]; intros failed s Hw; cbn [resume_loop].
  - exists (calls s), (g_st s), (log s). split; [by destruct s|done].
  - assert (Hdrop : forall lg, W lg (all_ctxs s) (ready s) (r :: l) (faulted s) (next_global s) ->
      W lg (all_ctxs s) (ready s) l (faulted s) (next_global s)).
    { intros lg [? ? Hr ? ? ? Hq]. constructor; try done; [by apply Forall_cons in Hr as [_ ?]|].
      intros Hf. eapply qo_drop. by apply Hq. }
    destruct failed; [apply IH; by apply Hdrop|]. case_decide; [apply IH; by apply Hdrop|].
    pose proof (W_recs _ _ _ _ _ _ Hw) as Hr. apply Forall_cons in Hr as [[Hne Ha] Hr].
    unfold g_emit. destruct (emit_at E (calls s) (r_data r)).
    + match goal with |- context [resume_loop E marker false l ?t] => destruct (IH false t) as (n & t' & l' & -> & Hw') end.
      * cbn. eapply W_snoc; [exact Hw|done|done| | |].
        -- by intros ? ? [= <- <-].
        -- by apply recs_mono.
        -- intros Hf. by apply qo_replay, Hw.
      * exists n, t', l'. split; [by destruct s|exact Hw'].
    + match goal with |- context [resume_loop E marker true l ?t] => destruct (IH true t) as (n & t' & l' & -> & Hw') end.
      * cbn. apply Hdrop. apply W_note; try done. by intros ? ? [= <- <-].
      * exists n, t', l'. split; [by destruct s|exact Hw'].
Qed.

Lemma resume_good marker s : good s -> good (pc_on_resume E marker s).
Proof.
  intros Hg. unfold pc_on_resume.
  pose proof (note_good (EResume marker) s Hg ltac:(done) ltac:(done) eq_refl) as [Hw Hm].
  destruct (resume_loop_good marker (recs s) false _ Hw) as (n & t & l' & Hs & Hw').
  destruct (resume_loop E marker false (recs s) _) as [failed s1]. cbn [snd] in Hs. subst s1.
  destruct failed.
  - apply good_fault. exact Hw'.
  - split; [exact Hw'|]. intros Hf. specialize (Hm Hf). destruct Hm as [H1 H2 H3 H4 H5].
    constructor; try done. change (rec_bytes s = total rec_len (recs s)) in H3.
    change (pending_bytes s + rec_bytes s <= PC_MEMORY_MAX) in H4.
    change (pending_bytes s + 0 <= PC_MEMORY_MAX). assert (0 <= total rec_len (recs s)); [|lia].
    apply total_nonneg, Forall_true. intros. unfold rec_len. lia.
Qed.

Lemma fresh_good l s : log_authorised l -> log_ordered l -> log s = l ++ [EPurge] -> all_ctxs s = [] ->
  ready s = [] -> recs s = [] -> faulted s = false -> rec_bytes s = 0 -> pending_bytes s = 0 ->
  pending_cmd_count s = 0 -> ctx_count s = 0 -> good s.
Proof.
  intros Ha Ho E1 E2 E3 E4 E5 E6 E7 E8 E9. unfold good, wf, mem.
  rewrite E1, E2, E3, E4, E5, E6, E7, E8, E9. split; [|intros _; by constructor].
  assert (Hl : live (l ++ [EPurge]) = (true, [])) by (by rewrite live_snoc).
  assert (Hq : forall nx, queue_order [] nx []).
  { intros nx _. exists 0, 0. split_and!; try done; try lia; constructor. }
  constructor; rewrite ?Hl; try done; try apply Forall_nil_2.
  - by apply log_authorised_snoc.
  - apply log_ordered_snoc; [done|]. rewrite Hl. eapply queue_in_order, (Hq 0).
Qed.
Lemma purge_good s : wf s -> good (proxy_commit_purge s).
Proof.
  intros Hw. unfold proxy_commit_purge, pc_ready_free_all.
  assert (Hfold : forall cs s, exists p n, fold_left (fun s x => pc_cmds_free (cmds x) s) cs s =
    s <| pending_bytes := p |> <| pending_cmd_count := n |>).
  { intros cs. induction cs as [|x cs IH]; intros s0; cbn [fold_left].
    - exists (pending_bytes s0), (pending_cmd_count s0). by destruct s0.
    - destruct (pc_cmds_free_shape (cmds x) s0) as (p & n & -> & _).
      destruct (IH (s0 <| pending_bytes := p |> <| pending_cmd_count := n |>)) as (p' & n' & ->).
      by exists p', n'. }
  destruct (Hfold (all_ctxs s) s) as (p & n & ->).
  match goal with |- context [pc_cmds_free ?L ?t] =>
    destruct (pc_cmds_free_shape L t) as (p' & n' & -> & _) end.
  assert (Hnil : concat (map (fun _ : Z => [] : list ctx) bucket_indices) = []) by (by induction bucket_indices).
  apply (fresh_good (log s)); try done; apply Hw.
Qed.

Lemma process_good b s : good s -> good (pc_process_msg E b s).
Proof.
  intros Hg. unfold pc_process_msg. repeat (case_decide; [try done; by apply good_fault, Hg|]).
  cbv zeta. set (kv := CommitWire.get_kv _). set (h := CommitWire.get_msg b).
  case_decide; [apply purge_good, Hg|].
  case_decide; [case_bool_decide; [by apply good_fault, Hg|by apply baseline_good]|].
  case_decide.
  { destruct (_ || _); [done|]. destruct (pc_get_ctx E _ true s) as [[x|] s1] eqn:He;
      pose proof (get_ctx_good _ _ _ _ _ Hg He); [|done].
    apply pc_get_ctx_found in He as (Hx & _). by eapply reset_good. }
  case_decide.
  { destruct (_ || _); [done|]. destruct (pc_get_ctx E _ false s) as [[x|] s1] eqn:He;
      pose proof (get_ctx_good _ _ _ _ _ Hg He); [|done].
    apply pc_get_ctx_found in He as (Hx & _). by eapply remove_good. }
  case_decide; [destruct (pc_epoch_stale _ s); [done|by apply resume_good]|].
  case_decide; [|done]. destruct (pc_epoch_stale _ s); [done|]. case_decide; [by apply good_fault, Hg|].
  generalize (drop CommitWire.msg_size b). clear -Hg. revert s Hg.
  induction (Z.to_nat (CommitWire.m_count h)) as [|n IH]; intros s Hg pl; cbn [batch_loop]; [done|].
  match goal with |- context [pc_on_desc E ?w ?t] => pose proof (on_desc_good w t Hg) as H end.
  destruct (faulted _); [exact H|]. by apply IH.
Qed.

Lemma read_good answers : forall s, good s -> good (pc_read_master E answers s).
Proof.
  induction answers as [|[] r IH]; intros s Hg; cbn [pc_read_master]; try done; auto.
  - pose proof (process_good b s Hg). destruct (faulted _); auto.
  - apply good_fault, Hg.
  - apply good_fault, Hg.
Qed.

Lemma poll_good b a rs s : good s -> good (proxy_commit_poll E b a rs s).
Proof.
  intros Hg. unfold proxy_commit_poll. destruct (listening s); cbn [negb]; [|done].
  set (s1 := if negb (master_fd s) then _ else _).
  assert (Hg1 : good s1).
  { subst s1. destruct (master_fd s); cbn [negb]; [by apply read_good|].
    unfold pc_accept_master. destruct a; [apply purge_good, Hg|done]. }
  clearbody s1. set (s2 := if decide (b <> buffering s1) then _ else _).
  assert (Hg2 : good s2) by (subst s2; repeat case_decide; exact Hg1).
  clearbody s2. destruct (if wait_resume s2 then _ else _) as [late s3] eqn:Hl.
  assert (Hg3 : good s3) by (destruct (wait_resume s2); injection Hl as _ <-; exact Hg2).
  destruct late; [apply good_fault, Hg3|]. unfold pc_now_ms.
  match goal with |- good (if ?h then _ else _) => destruct h end; [apply good_fault, Hg3|].
  destruct (existsb _ _); [apply good_fault, Hg3|exact Hg3].
Qed.

Lemma run_good qs : forall s, good s -> good (run E qs s).
Proof.
  induction qs as [|q qs IH]; intros s Hg; [done|]. cbn [run fold_left]. apply IH.
  destruct q; cbn [serve].
  - by apply on_record_good.
  - by apply poll_good.
  - apply purge_good, Hg.
  - exact Hg.
Qed.

End Preserve.

Lemma init_good : good init.
Proof.
  assert (Hnil : concat (map (fun _ : Z => [] : list ctx) bucket_indices) = []) by (by induction bucket_indices).
  assert (H : log_ordered []).
  { intros pre Hp. apply prefix_nil_inv in Hp as ->. intros _. split; [by exists 0, 0|constructor]. }
  split; [|intros _]; unfold wf, mem, all_ctxs; cbn; rewrite Hnil.
  - constructor; try done; try apply Forall_nil_2.
    + intros pre e post gs data Hl. by destruct pre.
    + intros _. exists 0, 0. split_and!; try done; try lia; constructor.
  - constructor; try done.
Qed.

(** ** Theorems *)

(** C18: whatever the main loop calls, and whatever the clock, the allocator, the
    receiver and the memory of freed descriptors answer, the gate never hands on
    (delivers, stores or replays) bytes without a descriptor of the master for
    them: before that, the same bytes were framed on some connection under some
    sequence number, a descriptor for that connection and number arrived with
    their length and their checksum, and this descriptor, read as the code does
    after freeing it, had the WRITE flag and the global number the bytes are
    handed on under. *)
Theorem gate_authorised E qs pre e post gs data :
  log (run E qs init) = pre ++ e :: post -> hands_on e = Some (gs, data) ->
  exists k d d', EDesc k d ∈ pre /\ EFrame k (d_seq d) data ∈ pre /\
    d_len d = Z.of_nat (length data) /\ d_crc d = CommitWire.kvs_cmd_crc64 data /\
    EFreed d d' ∈ pre /\ Z.land (d_flags d') CommitWire.REPL_COMMIT_FLAG_WRITE <> 0 /\ d_global_seq d' = gs.
Proof.
  intros Hl Hh. destruct (run_good E qs init init_good) as [Hw _].
  by eapply (W_auth _ _ _ _ _ _ Hw).
Qed.

(** C19: at any point of any history, since the last purge and up to the first
    fault, the numbers of the commands the gate committed are consecutive, with
    none missing and none twice, and the commands that went out (at once or
    replayed after a resume) went out in strictly increasing order. *)
Theorem gate_in_order E qs pre :
  pre `prefix_of` log (run E qs init) ->
  Forall (fun g => 0 <= g < UINT64_MAX) (committed (live pre).2) ->
  (exists g0 n, committed (live pre).2 = seqZ g0 n) /\
  StronglySorted Z.lt (emitted (live pre).2).
Proof.
  intros Hp Hn. destruct (run_good E qs init init_good) as [Hw _].
  by apply (W_ord _ _ _ _ _ _ Hw).
Qed.

(** C20: as long as there is no fault the counters are exact and bounded: the
    pending bytes and commands are those of the queues of all connections and
    of the ready list, the recovery bytes those of the recovery list, together
    at most the memory budget, and there are at most [PC_MAX_CTX] contexts. *)
Theorem gate_memory_bounded E qs s :
  s = run E qs init -> faulted s = false ->
  pending_bytes s = total c_len (concat (map cmds (all_ctxs s)) ++ ready s) /\
  pending_cmd_count s = Z.of_nat (length (concat (map cmds (all_ctxs s)) ++ ready s)) /\
  rec_bytes s = total (fun r => Z.of_nat (length (r_data r))) (recs s) /\
  pending_bytes s + rec_bytes s <= PC_MEMORY_MAX /\
  ctx_count s = Z.of_nat (length (all_ctxs s)) /\ ctx_count s <= PC_MAX_CTX.
Proof.
  intros -> Hf. destruct (run_good E qs init init_good) as [_ Hm].
  destruct (Hm Hf) as [? ? ? ? [? ?]]. by split_and!.
Qed.

(** *** The resume *)

Definition due (marker : Z) (l : list rec) : list rec := filter (fun r => marker < r_global_seq r) l.
Definition replay (ok : bool) (r : rec) : event := EReplay (r_global_seq r) (r_data r) ok.

Lemma resume_failed E marker l s : resume_loop E marker true l s = (true, s).
Proof. induction l; cbn; auto. Qed.

(** The walk delivers the due records one by one until a delivery fails. *)
Lemma resume_loop_spec E marker l : forall s failed s', resume_loop E marker false l s = (failed, s') ->
  exists n, (forall i r, (i < n)%nat -> due marker l !! i = Some r -> emit_at E (calls s + i) (r_data r) = true) /\
    faulted s' = faulted s /\ recs s' = recs s /\
    if failed then exists r, due marker l !! n = Some r /\ emit_at E (calls s + n) (r_data r) = false /\
      log s' = log s ++ map (replay true) (take n (due marker l)) ++ [replay false r]
    else n = length (due marker l) /\ log s' = log s ++ map (replay true) (due marker l).
Proof.
  induction l as [|r l IH]; intros s failed s'; cbn [resume_loop].
  - intros [= <- <-]. exists 0%nat. cbn. rewrite app_nil_r. split_and!; done || lia.
  - unfold due. case_decide as Hd.
    + intros H. rewrite filter_cons_False by lia. by apply IH.
    + rewrite filter_cons_True by lia. unfold g_emit. destruct (emit_at E (calls s) (r_data r)) eqn:Hok.
      * intros H. apply IH in H as (n & Hall & Hf & Hr & Hres). exists (S n). split_and!; try done.
        -- intros [|i] r' Hi Hl; [injection Hl as ->; by rewrite Nat.add_0_r|]. cbn [calls call note upd] in Hall.
           rewrite <- (Hall i r' ltac:(lia) Hl). f_equal. lia.
        -- destruct failed.
           ++ destruct Hres as (r' & Hl & He & Hlog). exists r'. split_and!; [done| |].
              ** rewrite <- He. cbn [calls call note upd]. f_equal. lia.
              ** rewrite Hlog. cbn. by rewrite <- app_assoc.
           ++ destruct Hres as [-> Hlog]. split; [done|]. rewrite Hlog. cbn. by rewrite <- app_assoc.
      * rewrite resume_failed. intros [= <- <-]. exists 0%nat. split_and!; try (done || lia).
        exists r. rewrite Nat.add_0_r. cbn. done.
Qed.

(** A resume drops the stored commands up to the marker and replays the
    others, all of them and in their order, until the receiver refuses one; then
    the gate faults and hands on nothing more of them.  Either way the recovery
    list is empty afterwards. *)
Theorem resume_replays_after_marker E marker s s' :
  faulted s = false -> s' = pc_on_resume E marker s ->
  recs s' = [] /\ rec_bytes s' = 0 /\ wait_resume s' = false /\
  exists n, (forall i r, (i < n)%nat -> due marker (recs s) !! i = Some r ->
                         emit_at E (calls s + i) (r_data r) = true) /\
    ((n = length (due marker (recs s)) /\ faulted s' = false /\ resume_event s' = true /\
      log s' = log s ++ [EResume marker] ++ map (replay true) (due marker (recs s))) \/
     exists r, due marker (recs s) !! n = Some r /\ emit_at E (calls s + n) (r_data r) = false /\
      faulted s' = true /\
      log s' = log s ++ [EResume marker] ++ map (replay true) (take n (due marker (recs s))) ++
                 [replay false r; EFault 1]).
Proof.
  intros Hf ->. unfold pc_on_resume.
  destruct (resume_loop E marker false (recs s) _) as [failed s1] eqn:Hr.
  apply resume_loop_spec in Hr as (n & Hall & Hff & Hrecs & Hres). cbn in Hff. rewrite Hf in Hff.
  destruct failed.
  - unfold pc_fault. cbn [faulted upd]. rewrite Hff. destruct (decide (1 = 1)); [|done].
    cbn [recs rec_bytes wait_resume faulted log note upd call]. split_and!; try done. exists n. split; [done|].
    destruct Hres as (r & Hl & He & Hlog). right. exists r. split_and!; try done. rewrite Hlog.
    cbn [log note upd]. by rewrite <- !app_assoc.
  - destruct Hres as [Hn Hlog]. cbn. split_and!; try done. exists n. split; [done|]. left.
    split_and!; try done. rewrite Hlog. cbn. by rewrite <- app_assoc.
Qed.

(** ** Runs *)

(** One connection, one confirmed write under global number 5. *)
Definition E0 : env := Env (fun _ => 0) (fun _ => true) (fun _ _ => true) (fun _ d => d).
Definition hello : bytes := CommitWire.put_msg
  (CommitWire.Msg CommitWire.REPL_COMMIT_MAGIC 1 CommitWire.REPL_COMMIT_MSG_HELLO 0 9 0).
Definition baseline (k v : Z) : bytes := CommitWire.put_msg
  (CommitWire.Msg CommitWire.REPL_COMMIT_MAGIC 1 CommitWire.REPL_COMMIT_MSG_BASELINE 1 3 0) ++
  CommitWire.put_kv (CommitWire.Kv k v).
Definition batch (ds : list CommitWire.desc) : bytes := CommitWire.put_msg
  (CommitWire.Msg CommitWire.REPL_COMMIT_MAGIC 1 CommitWire.REPL_COMMIT_MSG_BATCH
     (Z.of_nat (length ds)) 3 0) ++ concat (map CommitWire.put_desc ds).
Definition set_a : bytes := Resp.resp_build_cmd [str "SET"; str "a"; str "1"].
Definition confirm (k seq gs : Z) (data : bytes) : CommitWire.desc :=
  CommitWire.Desc k 3 seq gs (CommitWire.kvs_cmd_crc64 data) (Z.of_nat (length data))
    CommitWire.REPL_COMMIT_FLAG_WRITE.
Definition qs0 : list request :=
  [QPoll false true []; QPoll false false [RGot hello; RGot (baseline 7 1)];
   QRecord 7 40 set_a; QPoll false false [RGot (batch [confirm 7 1 5 set_a])]].

(** A second write, still waiting for its descriptor. *)
Definition qs1 : list request := qs0 ++ [QRecord 7 41 set_a].

Definition confirmed : desc :=
  Desc 1 5 (CommitWire.kvs_cmd_crc64 set_a) (Z.of_nat (length set_a)) 1 0.
Lemma gate_authorised_witness :
  authorised [EPurge; EPurge; EFrame 7 1 set_a; EDesc 7 confirmed; EFreed confirmed confirmed] 5 set_a.
Proof.
  apply (gate_authorised E0 qs0 _ (EDeliver 5 set_a true) []).
  - vm_compute. reflexivity.
  - reflexivity.
Defined.

Lemma gate_in_order_witness :
  (exists g0 n, committed (live (log (run E0 qs0 init))).2 = seqZ g0 n) /\
  StronglySorted Z.lt (emitted (live (log (run E0 qs0 init))).2).
Proof.
  apply (gate_in_order E0 qs0 (log (run E0 qs0 init))).
  - exists []. symmetry. apply app_nil_r.
  - replace (committed (live (log (run E0 qs0 init))).2) with [5] by (vm_compute; reflexivity).
    repeat constructor; unfold UINT64_MAX; lia.
Defined.

Lemma gate_memory_bounded_witness :
  0 < pending_bytes (run E0 qs1 init) /\ pending_bytes (run E0 qs1 init) + 0 <= PC_MEMORY_MAX.
Proof.
  split; [vm_compute; reflexivity|].
  destruct (gate_memory_bounded E0 qs1 (run E0 qs1 init)) as (_ & _ & _ & H & _).
  - reflexivity.
  - vm_compute. reflexivity.
  - revert H. vm_compute. trivial.
Defined.

(** Three stored commands, a resume with the marker on the second. *)
Definition stored : st :=
  init <| recs := [Rec 4 set_a; Rec 5 set_a; Rec 6 set_a] |>
       <| rec_bytes := 3 * Z.of_nat (length set_a) |>.
Lemma resume_replays_after_marker_witness :
  log (pc_on_resume E0 5 stored) = [EResume 5; EReplay 6 set_a true] /\
  recs (pc_on_resume E0 5 stored) = [].
Proof.
  split; [vm_compute; reflexivity|].
  by apply (resume_replays_after_marker E0 5 stored).
Defined.

End ProxyCommit.
