(* ===== verification/CommitMaster.v ===== *)
(** * CommitMaster: the master's side of the commit gate

    [src/replication/kvs_commit.c] and the places in [src/main/kvstore.c] that
    number the commands of a client.  Every command a client connection executes
    gets one descriptor, WRITE with the next global number when the command was
    a successful write and SKIP otherwise; descriptors are sent in batches over
    a SEQPACKET channel.

    Connections are records reached by a pointer (a [nat]) in the list of all
    connections.  What [send], [poll] and [connect] answer comes from an
    environment; what is sent, allowed for capture, shut down or invalidated is
    the output list [out]. *)

From S2P Require Import Prelude Cstring CommitWire.

Module CommitMaster.

(** ** Data *)

(** The fields of [conn_t] that the gate reads. *)
Record conn := Conn {
  is_listener : bool; is_replica : bool; repl_socket_cookie : Z;
  repl_parsed_seq : Z; cur_cmd_seq : Z; cur_cmd_len : Z; cur_cmd_crc : Z; cur_cmd_committed : bool;
  in_len : Z }.
#[export] Instance eta_conn : Eta conn :=
  fun c => Conn (is_listener c) (is_replica c) (repl_socket_cookie c) (repl_parsed_seq c)
    (cur_cmd_seq c) (cur_cmd_len c) (cur_cmd_crc c) (cur_cmd_committed c) (in_len c).

Inductive output :=
  | Sent (b : bytes)
  | Allow (k : Z) (on : bool)
  | Shutdown (p : nat)
  | Invalidate (reason : Z).

Record st := St {
  commit_fd : bool; epoch : Z; global_seq : Z; session : Z;
  batch : list CommitWire.desc;
  desc_count : Z; write_count : Z; skip_count : Z;
  fault_reason : bytes;
  conns : list (nat * conn);
  capture_active : bool; reconnected : bool; ever_connected : bool; failure_pending : Z;
  calls : nat; out : list output }.
#[export] Instance eta_st : Eta st :=
  fun s => St (commit_fd s) (epoch s) (global_seq s) (session s) (batch s) (desc_count s)
    (write_count s) (skip_count s) (fault_reason s) (conns s) (capture_active s) (reconnected s)
    (ever_connected s) (failure_pending s) (calls s) (out s).

(** What [send] answers, and [poll] after a full socket. *)
Inductive send_rc := SOk | SAgain (writable : bool) | SIntr | SFail.

Section Ops.

(** [commit_active_mode], which the configuration decides, and the channel. *)
Context (active_mode : bool) (send_at : nat -> send_rc).

Definition emit (o : output) (s : st) : st := s <| out ::= fun l => l ++ [o] |>.
Definition set_fault (r : bytes) (s : st) : st := s <| fault_reason := take 31 r |>.
Definition CHANNEL : bytes := str "CHANNEL".

(** ** Connections *)

Definition find_conn (p : nat) (s : st) : option conn :=
  snd <$> (snd <$> list_find (fun x => x.1 = p) (conns s)).
Fixpoint alter_conn (p : nat) (f : conn -> conn) (l : list (nat * conn)) : list (nat * conn) :=
  match l with
  | [] => []
  | (q, c) :: r => if decide (q = p) then (q, f c) :: r else (q, c) :: alter_conn p f r
  end.
Definition set_conn (p : nat) (f : conn -> conn) (s : st) : st := s <| conns ::= alter_conn p f |>.
Definition kvs_conn_register (p : nat) (c : conn) (s : st) : st := s <| conns ::= cons (p, c) |>.
Fixpoint unlink_conn (p : nat) (l : list (nat * conn)) : list (nat * conn) :=
  match l with
  | [] => []
  | (q, c) :: r => if decide (q = p) then r else (q, c) :: unlink_conn p r
  end.
Definition kvs_conn_unregister (p : nat) (s : st) : st := s <| conns ::= unlink_conn p |>.

(** [c->is_replica = b] *)
Definition mark_replica (p : nat) (b : bool) (s : st) : st := set_conn p (fun c => c <| is_replica := b |>) s.

Definition repl_ebpf_cookie_allow (k : Z) (on : bool) (s : st) : st :=
  if decide (k = 0) then s else emit (Allow k on) s.
Definition commit_eligible (c : conn) : bool :=
  negb (is_listener c) && negb (is_replica c) && bool_decide (repl_socket_cookie c <> 0) && active_mode.

(** ** Sending *)

(** Up to two attempts; anything but a full send in the end closes the channel. *)
Fixpoint attempts (n : nat) (s : st) : bool * st :=
  match n with
  | O => (false, s)
  | S n' =>
      let rc := send_at (calls s) in
      let s := s <| calls ::= S |> in
      match rc with
      | SOk => (true, s)
      | SAgain true | SIntr => attempts n' s
      | SAgain false | SFail => (false, s)
      end
  end.
Definition commit_send_locked (b : bytes) (s : st) : bool * st :=
  if negb (commit_fd s) then (false, s)
  else
    let '(ok, s) := attempts 2 s in
    if ok then (true, emit (Sent b) s)
    else (false, set_fault CHANNEL (s <| commit_fd := false |>)).

(** The message of a batch, and of the other types. *)
Definition batch_msg (sid : Z) (ds : list CommitWire.desc) : bytes :=
  CommitWire.put_msg (CommitWire.Msg CommitWire.REPL_COMMIT_MAGIC CommitWire.REPL_COMMIT_VERSION
    CommitWire.REPL_COMMIT_MSG_BATCH (u32 (Z.of_nat (length ds))) sid 0) ++
  concat (map CommitWire.put_desc ds).
Definition commit_flush_locked (s : st) : st :=
  if decide (length (batch s) = 0%nat) then s
  else
    let '(ok, s) := commit_send_locked (batch_msg (session s) (batch s)) s in
    let s := if ok then s <| desc_count ::= fun n => u64 (n + Z.of_nat (length (batch s))) |> else s in
    s <| batch := [] |>.
Definition repl_commit_flush (s : st) : st := commit_flush_locked s.
Definition commit_batch_add (d : CommitWire.desc) (s : st) : st :=
  let s := s <| batch ::= fun l => l ++ [d] |> in
  if decide (Z.of_nat (length (batch s)) >= CommitWire.REPL_COMMIT_BATCH_MAX)
  then commit_flush_locked s else s.

(** ** Publishing *)

Definition may_publish (c : conn) (s : st) : Prop :=
  commit_eligible c = true /\ cur_cmd_committed c = false /\ cur_cmd_seq c <> 0 /\ session s <> 0.
Definition repl_commit_publish_write (p : nat) (s : st) : st :=
  match find_conn p s with
  | None => s
  | Some c =>
      if decide (may_publish c s) then
        let s := set_conn p (fun c => c <| cur_cmd_committed := true |>) s in
        if negb (commit_fd s) then set_fault CHANNEL s
        else
          let s := s <| global_seq ::= fun n => u64 (n + 1) |> in
          let d := CommitWire.Desc (repl_socket_cookie c) (session s) (cur_cmd_seq c) (global_seq s)
                     (cur_cmd_crc c) (cur_cmd_len c) CommitWire.REPL_COMMIT_FLAG_WRITE in
          commit_batch_add d (s <| write_count ::= fun n => u64 (n + 1) |>)
      else s
  end.
Definition repl_commit_publish_skip (p : nat) (s : st) : st :=
  match find_conn p s with
  | None => s
  | Some c =>
      if decide (may_publish c s) then
        let s := set_conn p (fun c => c <| cur_cmd_committed := true |>) s in
        if negb (commit_fd s) then s
        else
          let d := CommitWire.Desc (repl_socket_cookie c) (session s) (cur_cmd_seq c) 0
                     (cur_cmd_crc c) (cur_cmd_len c) CommitWire.REPL_COMMIT_FLAG_SKIP in
          commit_batch_add d (s <| skip_count ::= fun n => u64 (n + 1) |>)
      else s
  end.

(** A client command in [parse_resp_stream]: it is numbered and measured, then
    executed ([wrote] is whether [handle_parsed_command] reached the publishing
    of a write), and what was not published as a write is published as a skip. *)
Definition begin_command (p : nat) (raw : bytes) (s : st) : st :=
  set_conn p (fun c =>
    if is_replica c then c
    else
      let c := c <| repl_parsed_seq ::= fun n => u64 (n + 1) |> in
      c <| cur_cmd_seq := repl_parsed_seq c |> <| cur_cmd_len := u32 (Z.of_nat (length raw)) |>
        <| cur_cmd_crc := CommitWire.kvs_cmd_crc64 (take (Z.to_nat (u32 (Z.of_nat (length raw)))) raw) |>
        <| cur_cmd_committed := false |>) s.
Definition run_command (p : nat) (raw : bytes) (wrote : bool) (s : st) : st :=
  let s := begin_command p raw s in
  let s := if wrote then repl_commit_publish_write p s else s in
  repl_commit_publish_skip p s.

(** ** Control messages *)

Definition commit_send_msg (type : Z) (kv : option CommitWire.kv) (gs ep : Z) (s : st) : bool * st :=
  commit_send_locked
    (CommitWire.put_msg (CommitWire.Msg CommitWire.REPL_COMMIT_MAGIC CommitWire.REPL_COMMIT_VERSION type
       (if kv then 1 else 0) ep gs) ++
     match kv with Some k => CommitWire.put_kv k | None => [] end) s.
Definition send_kv (type : Z) (k v ep : Z) (s : st) : st :=
  if commit_fd s then (commit_send_msg type (Some (CommitWire.Kv k v)) 0 ep s).2 else s.

Definition repl_commit_baseline (c : conn) (s : st) : st :=
  if negb (commit_eligible c) then s
  else
    let s := repl_ebpf_cookie_allow (repl_socket_cookie c) true s in
    send_kv CommitWire.REPL_COMMIT_MSG_BASELINE (repl_socket_cookie c)
      (u64 (repl_parsed_seq c + 1)) (session s) s.
Definition repl_commit_ignore (c : conn) (s : st) : st :=
  if decide (repl_socket_cookie c = 0) then s
  else
    let s := repl_ebpf_cookie_allow (repl_socket_cookie c) false s in
    send_kv CommitWire.REPL_COMMIT_MSG_IGNORE (repl_socket_cookie c) 0 (session s) s.
Definition repl_commit_forget (c : conn) (s : st) : st :=
  if decide (repl_socket_cookie c = 0) then s
  else
    let s := repl_ebpf_cookie_allow (repl_socket_cookie c) false s in
    send_kv CommitWire.REPL_COMMIT_MSG_FORGET (repl_socket_cookie c) 0 0 s.

(** [repl_commit_resume]: 0 or -1. *)
Definition repl_commit_resume (marker : Z) (s : st) : Z * st :=
  if negb active_mode || bool_decide (session s = 0) then (0, s)
  else if negb (commit_fd s) then (-1, s)
  else
    let '(ok, s) := commit_send_msg CommitWire.REPL_COMMIT_MSG_RESUME None marker (session s) s in
    if ok then (0, s) else (-1, set_fault CHANNEL s).

(** ** Sessions and the channel *)

Definition commit_send_all_baselines (s : st) : st :=
  fold_left (fun s x =>
    let '(p, c) := x in
    if is_listener c || is_replica c then s
    else if decide (in_len c > 0) then emit (Shutdown p) s
    else repl_commit_baseline c s) (conns s) s.
Definition repl_commit_session_begin (sid : Z) (s : st) : st :=
  let s := s <| session := sid |> <| capture_active := true |> in
  if negb active_mode then s else commit_send_all_baselines s.
Definition repl_commit_session_end (s : st) : st :=
  s <| session := 0 |> <| capture_active := false |> <| batch := [] |>.

(** The channel part of the health tick: [hup] is what [poll] reports of the
    open channel, [connects] whether a new one comes up, [ep] the new epoch. *)
Definition commit_health_tick (hup connects : bool) (ep : Z) (s : st) : st :=
  if negb active_mode then s
  else
    let s := if commit_fd s && hup then set_fault CHANNEL (s <| commit_fd := false |>) else s in
    if commit_fd s || negb connects then s
    else
      let s := s <| commit_fd := true |> <| epoch := ep |> in
      let '(ok, s) := commit_send_locked
        (CommitWire.put_msg (CommitWire.Msg CommitWire.REPL_COMMIT_MAGIC CommitWire.REPL_COMMIT_VERSION
           CommitWire.REPL_COMMIT_MSG_HELLO 0 ep 0)) s in
      if ok then (set_fault (str "NONE") s) <| ever_connected := true |> <| reconnected := true |> else s.

Definition repl_commit_rearm_tick (s : st) : bool * st :=
  if decide (failure_pending s <> 0) then
    (true, emit (Invalidate (failure_pending s)) (s <| failure_pending := 0 |>))
  else if reconnected s && bool_decide (session s <> 0) && commit_fd s then
    (true, commit_send_all_baselines (s <| reconnected := false |>))
  else (false, s).

(** [repl_ebpf_set_capture_active] *)
Definition set_capture_active (on : bool) (s : st) : st := s <| capture_active := on |>.

(** [g_proxy_failure_pending = reason], by the health thread. *)
Definition set_failure (reason : Z) (s : st) : st := s <| failure_pending := reason |>.

(** ** What the master should publish *)

Inductive action :=
  | Command (p : nat) (raw : bytes) (wrote : bool)
  | Flush.
Definition act (s : st) (a : action) : st :=
  match a with
  | Command p raw wrote => run_command p raw wrote s
  | Flush => repl_commit_flush s
  end.

(** The descriptors of a list of commands: one for each, numbered by the
    connection ([seqs] are the last numbers given) and, for writes, globally. *)
Fixpoint published (cookies : nat -> option Z) (sid : Z) (seqs : nat -> Z) (g : Z) (l : list action) :
    list CommitWire.desc :=
  match l with
  | [] => []
  | Flush :: r => published cookies sid seqs g r
  | Command p raw wrote :: r =>
      match cookies p with
      | None => published cookies sid seqs g r
      | Some k =>
          let g' := if wrote then u64 (g + 1) else g in
          let n := u64 (seqs p + 1) in
          CommitWire.Desc k sid n (if wrote then g' else 0) (CommitWire.kvs_cmd_crc64 raw)
            (Z.of_nat (length raw))
            (if wrote then CommitWire.REPL_COMMIT_FLAG_WRITE else CommitWire.REPL_COMMIT_FLAG_SKIP) ::
          published cookies sid (fun q => if decide (q = p) then n else seqs q) g' r
      end
  end.
Definition cookie_of (s : st) (p : nat) : option Z :=
  match find_conn p s with
  | Some c => if commit_eligible c then Some (repl_socket_cookie c) else None
  | None => None
  end.
Definition seq_of (s : st) (p : nat) : Z :=
  match find_conn p s with Some c => repl_parsed_seq c | None => 0 end.

End Ops.

(** ** Facts *)

Lemma find_set_same p f s : find_conn p (set_conn p f s) = f <$> find_conn p s.
Proof.
  unfold find_conn, set_conn. cbn. induction (conns s) as [|[q c] r IH]; cbn [alter_conn list_find]; [done|].
  destruct (decide (q = p)) as [->|Hq]; cbn [list_find].
  - by rewrite !decide_True by done.
  - rewrite !decide_False by done. destruct (list_find _ (alter_conn _ _ _)) as [[]|],
      (list_find _ r) as [[]|]; cbn in *; congruence.
Qed.
Lemma find_set_other p q f s : p <> q -> find_conn q (set_conn p f s) = find_conn q s.
Proof.
  intros Hpq. unfold find_conn, set_conn. cbn.
  induction (conns s) as [|[o c] r IH]; cbn [alter_conn list_find]; [done|].
  destruct (decide (o = p)) as [->|Ho]; cbn [list_find].
  - by rewrite !decide_False by done.
  - cbn [fst]. case_decide; [done|]. destruct (list_find _ (alter_conn _ _ _)) as [[]|],
      (list_find _ r) as [[]|]; cbn in *; congruence.
Qed.

(** *** Publishing a list of descriptors

    Batches went out, together with what is still collected they are the
    collected and the new descriptors in order; once the channel is lost,
    nothing more goes out. *)
Definition size_ok (ds : list CommitWire.desc) : Prop :=
  1 <= Z.of_nat (length ds) <= CommitWire.REPL_COMMIT_BATCH_MAX.
Definition pub (s s' : st) (ds : list CommitWire.desc) : Prop :=
  session s' = session s /\ (commit_fd s = false -> commit_fd s' = false) /\
  exists dss, out s' = out s ++ map (fun b => Sent (batch_msg (session s) b)) dss /\
    Forall size_ok dss /\ (commit_fd s = false -> dss = []) /\
    if commit_fd s' then concat dss ++ batch s' = batch s ++ ds
    else concat dss `prefix_of` batch s ++ ds /\ batch s' = [] /\ fault_reason s' = CHANNEL.

Lemma pub_trans s s1 s2 ds1 ds2 : pub s s1 ds1 -> pub s1 s2 ds2 -> pub s s2 (ds1 ++ ds2).
Proof.
  intros (Hs & Hfd & dss & Ho & Hz & Hd & H1) (Hs' & Hfd' & dss' & Ho' & Hz' & Hd' & H2).
  split; [congruence|]. split; [auto|]. exists (dss ++ dss').
  rewrite Ho', Ho, Hs, map_app, app_assoc. split; [done|]. split; [by apply Forall_app|].
  split; [intros H; by rewrite (Hd H), (Hd' (Hfd H))|]. rewrite concat_app.
  destruct (commit_fd s1) eqn:H3.
  - destruct (commit_fd s2).
    + by rewrite <- app_assoc, H2, app_assoc, H1, <- app_assoc.
    + destruct H2 as (Hp & Hb & Hf). split_and!; try done.
      replace (batch s ++ ds1 ++ ds2) with (concat dss ++ batch s1 ++ ds2)
        by (by rewrite !app_assoc, H1).
      by apply prefix_app.
  - rewrite (Hfd' eq_refl) in *. rewrite (Hd' eq_refl) in *. cbn. rewrite app_nil_r.
    destruct H1 as (Hp & Hb & Hf), H2 as (Hp' & Hb' & Hf'). split_and!; try done.
    rewrite app_assoc. by apply prefix_app_r.
Qed.
Lemma pub_refl s : (commit_fd s = false -> batch s = [] /\ fault_reason s = CHANNEL) -> pub s s [].
Proof.
  intros H. split_and!; try done. exists []. cbn. rewrite !app_nil_r. split_and!; try done.
  destruct (commit_fd s) eqn:Hf; [done|]. destruct (H eq_refl) as [-> ->]. by split_and!.
Qed.

Section Publish.

Context (send_at : nat -> send_rc).

Abbreviation flush := (commit_flush_locked send_at).
Abbreviation add := (commit_batch_add send_at).

Lemma attempts_shape n s : exists k, (attempts send_at n s).2 = s <| calls := k |>.
Proof.
  revert s. induction n as [|n IH]; intros s; cbn [attempts]; [exists (calls s); by destruct s|].
  destruct (send_at (calls s)) as [|[]| |]; cbn [snd]; try (by eexists);
    destruct (IH (s <| calls ::= S |>)) as [k ->]; by exists k.
Qed.

(** A flush sends the whole batch or loses the channel. *)
Lemma pub_flush s : commit_fd s = true -> Z.of_nat (length (batch s)) <= CommitWire.REPL_COMMIT_BATCH_MAX ->
  pub s (flush s) [] /\ batch (flush s) = [] /\ conns (flush s) = conns s /\
  global_seq (flush s) = global_seq s.
Proof.
  intros Hfd Hlen. unfold commit_flush_locked. case_decide as Hb.
  - apply nil_length_inv in Hb. split_and!; try done. apply pub_refl. congruence.
  - unfold commit_send_locked. rewrite Hfd. cbn [negb].
    destruct (attempts_shape 2 s) as [k Hk]. destruct (attempts send_at 2 s) as [[] s1]; cbn [snd] in Hk; subst s1.
    + split_and!; try done. split_and!; [done|done|]. exists [batch s]. cbn. rewrite Hfd, !app_nil_r.
      split_and!; try done. constructor; [|constructor]. split; [lia|done].
    + split_and!; try done. split_and!; [done|done|]. exists []. cbn. rewrite app_nil_r.
      split_and!; try done. apply prefix_nil.
Qed.

Lemma pub_add d s : commit_fd s = true -> Z.of_nat (length (batch s)) < CommitWire.REPL_COMMIT_BATCH_MAX ->
  pub s (add d s) [d] /\ Z.of_nat (length (batch (add d s))) < CommitWire.REPL_COMMIT_BATCH_MAX /\
  conns (add d s) = conns s /\ global_seq (add d s) = global_seq s.
Proof.
  intros Hfd Hlen. unfold commit_batch_add. set (s1 := s <| batch ::= _ |>).
  assert (Hp1 : pub s s1 [d]).
  { split_and!; [done|done|]. exists []. cbn. rewrite Hfd, app_nil_r. by split_and!. }
  assert (Hl1 : Z.of_nat (length (batch s1)) = Z.of_nat (length (batch s)) + 1)
    by (cbn; rewrite length_app; cbn; lia).
  case_decide as Hge.
  - destruct (pub_flush s1) as (Hp & Hb & Hc & Hg); [done|lia|]. rewrite Hb, Hc, Hg.
    split_and!; try done. by apply (pub_trans s s1 _ [d] []).
  - split_and!; try done. lia.
Qed.

(** The batch has room, or the channel is lost and noted. *)
Definition ok (s : st) : Prop :=
  if commit_fd s then Z.of_nat (length (batch s)) < CommitWire.REPL_COMMIT_BATCH_MAX
  else batch s = [] /\ fault_reason s = CHANNEL.

Lemma ok_dead s : ok s -> commit_fd s = false -> batch s = [] /\ fault_reason s = CHANNEL.
Proof. unfold ok. intros H Hf. by rewrite Hf in H. Qed.
Lemma pub_ok s s' ds : pub s s' ds ->
  (commit_fd s' = true -> Z.of_nat (length (batch s')) < CommitWire.REPL_COMMIT_BATCH_MAX) -> ok s'.
Proof.
  intros (_ & _ & dss & _ & _ & _ & H) Hl. unfold ok. destruct (commit_fd s'); [auto|]. tauto.
Qed.

Definition mark (s s' : st) (p : nat) : Prop :=
  conns s' = alter_conn p (fun c => c <| cur_cmd_committed := true |>) (conns s).

Lemma publish_write_spec p s c : find_conn p s = Some c -> may_publish true c s -> ok s ->
  exists ds, pub s (repl_commit_publish_write true send_at p s) ds /\
    ok (repl_commit_publish_write true send_at p s) /\
    mark s (repl_commit_publish_write true send_at p s) p /\
    (commit_fd s = true ->
       ds = [CommitWire.Desc (repl_socket_cookie c) (session s) (cur_cmd_seq c) (u64 (global_seq s + 1))
               (cur_cmd_crc c) (cur_cmd_len c) CommitWire.REPL_COMMIT_FLAG_WRITE] /\
       global_seq (repl_commit_publish_write true send_at p s) = u64 (global_seq s + 1)).
Proof.
  intros Hc Hm Ho. unfold repl_commit_publish_write. rewrite Hc, decide_True by done.
  change (commit_fd (set_conn p _ s)) with (commit_fd s). destruct (commit_fd s) eqn:Hfd; cbn [negb].
  - eexists. cbv zeta.
    match goal with |- context [commit_batch_add send_at ?d ?t] =>
      destruct (pub_add d t) as (Hp & Hl & Hcs & Hg); [exact Hfd|unfold ok in Ho; rewrite Hfd in Ho; exact Ho|] end.
    unfold mark. rewrite Hcs, Hg. split_and!; [exact Hp|by eapply pub_ok|done|done].
  - exists []. split_and!; try done.
    + destruct (ok_dead _ Ho Hfd) as [Hb Hf]. split_and!; [done|done|]. exists []. cbn.
      rewrite ?Hfd, Hb, app_nil_r. by split_and!.
    + unfold ok. cbn. rewrite ?Hfd. by destruct (ok_dead _ Ho Hfd).
Qed.
Lemma publish_skip_spec p s c : find_conn p s = Some c -> may_publish true c s -> ok s ->
  exists ds, pub s (repl_commit_publish_skip true send_at p s) ds /\
    ok (repl_commit_publish_skip true send_at p s) /\
    mark s (repl_commit_publish_skip true send_at p s) p /\
    (commit_fd s = true ->
       ds = [CommitWire.Desc (repl_socket_cookie c) (session s) (cur_cmd_seq c) 0
               (cur_cmd_crc c) (cur_cmd_len c) CommitWire.REPL_COMMIT_FLAG_SKIP] /\
       global_seq (repl_commit_publish_skip true send_at p s) = global_seq s).
Proof.
  intros Hc Hm Ho. unfold repl_commit_publish_skip. rewrite Hc, decide_True by done.
  change (commit_fd (set_conn p _ s)) with (commit_fd s). destruct (commit_fd s) eqn:Hfd; cbn [negb].
  - eexists. cbv zeta.
    match goal with |- context [commit_batch_add send_at ?d ?t] =>
      destruct (pub_add d t) as (Hp & Hl & Hcs & Hg); [exact Hfd|unfold ok in Ho; rewrite Hfd in Ho; exact Ho|] end.
    unfold mark. rewrite Hcs, Hg. split_and!; [exact Hp|by eapply pub_ok|done|done].
  - exists []. split_and!; try done. refine (pub_refl s _). intros. by apply ok_dead.
Qed.
Lemma publish_skip_done p s c : find_conn p s = Some c -> cur_cmd_committed c = true ->
  repl_commit_publish_skip true send_at p s = s.
Proof.
  intros Hc Hd. unfold repl_commit_publish_skip. rewrite Hc. rewrite decide_False; [done|].
  intros (_ & H & _). congruence.
Qed.

Lemma cookie_of_ext s s' q : (forall q, option_map (fun c => (commit_eligible true c, repl_socket_cookie c)) (find_conn q s') =
    option_map (fun c => (commit_eligible true c, repl_socket_cookie c)) (find_conn q s)) ->
  cookie_of true s' q = cookie_of true s q.
Proof.
  intros H. unfold cookie_of. specialize (H q). destruct (find_conn q s), (find_conn q s'); cbn in H; try done.
  injection H as -> ->. done.
Qed.
Lemma find_mark s s' p q : mark s s' p ->
  find_conn q s' = if decide (q = p) then (fun c => c <| cur_cmd_committed := true |>) <$> find_conn p s
                   else find_conn q s.
Proof.
  intros H. assert (Hf : find_conn q s' = find_conn q (set_conn p (fun c => c <| cur_cmd_committed := true |>) s)).
  { unfold find_conn. by rewrite H. }
  rewrite Hf. case_decide as Hq; [subst; apply find_set_same|by apply find_set_other].
Qed.

(** One command of an eligible connection: one descriptor, one number more. *)
Definition next_desc (k sid n g : Z) (raw : bytes) (wrote : bool) : CommitWire.desc :=
  CommitWire.Desc k sid n (if wrote then u64 (g + 1) else 0) (CommitWire.kvs_cmd_crc64 raw)
    (Z.of_nat (length raw))
    (if wrote then CommitWire.REPL_COMMIT_FLAG_WRITE else CommitWire.REPL_COMMIT_FLAG_SKIP).
Definition commanded (p : nat) (raw : bytes) (wrote : bool) (c : conn) (s s' : st) : Prop :=
  exists ds, pub s s' ds /\ ok s' /\
    (forall q, cookie_of true s' q = cookie_of true s q) /\
    (forall q, seq_of s' q = if decide (q = p) then u64 (seq_of s p + 1) else seq_of s q) /\
    (commit_fd s = true ->
       ds = [next_desc (repl_socket_cookie c) (session s) (u64 (repl_parsed_seq c + 1)) (global_seq s) raw wrote] /\
       global_seq s' = if wrote then u64 (global_seq s + 1) else global_seq s).

(** The connection once the command has been numbered. *)
Definition numbered (raw : bytes) (c : conn) : conn :=
  Conn (is_listener c) (is_replica c) (repl_socket_cookie c) (u64 (repl_parsed_seq c + 1))
    (u64 (repl_parsed_seq c + 1)) (Z.of_nat (length raw)) (CommitWire.kvs_cmd_crc64 raw) false (in_len c).
Lemma begin_spec p raw s c : find_conn p s = Some c -> is_replica c = false -> Z.of_nat (length raw) < 2 ^ 32 ->
  find_conn p (begin_command p raw s) = Some (numbered raw c).
Proof.
  intros Hc Hr Hraw. unfold begin_command. rewrite find_set_same, Hc.
  cbn [option_fmap option_map fmap]. rewrite Hr. f_equal. rewrite u32_small, take_ge by lia. reflexivity.
Qed.
(** Publishing completes the command. *)
Lemma published_one p raw wrote s c s2 ds : find_conn p s = Some c -> is_replica c = false ->
  Z.of_nat (length raw) < 2 ^ 32 ->
  pub s s2 ds -> ok s2 -> mark (begin_command p raw s) s2 p ->
  (commit_fd s = true ->
     ds = [next_desc (repl_socket_cookie c) (session s) (u64 (repl_parsed_seq c + 1)) (global_seq s) raw wrote] /\
     global_seq s2 = if wrote then u64 (global_seq s + 1) else global_seq s) ->
  commanded p raw wrote c s s2.
Proof.
  intros Hc Hr Hraw Hp Ho Hmk Hd. pose proof (begin_spec p raw s c Hc Hr Hraw) as Hc1.
  assert (Hother : forall q, q <> p -> find_conn q (begin_command p raw s) = find_conn q s)
    by (intros; by apply find_set_other).
  exists ds. split_and!; [exact Hp|done| | |done].
  - intros q0. apply cookie_of_ext. intros q. rewrite (find_mark _ _ _ _ Hmk). case_decide as Hq.
    + subst q. by rewrite Hc1, Hc.
    + by rewrite Hother.
  - intros q. unfold seq_of. rewrite (find_mark _ _ _ _ Hmk). case_decide as Hq.
    + by rewrite Hc1, Hc.
    + by rewrite Hother.
Qed.
Lemma command_spec p raw wrote s c :
  find_conn p s = Some c -> commit_eligible true c = true -> ok s -> session s <> 0 ->
  Z.of_nat (length raw) < 2 ^ 32 -> 0 <= repl_parsed_seq c < UINT64_MAX ->
  commanded p raw wrote c s (run_command true send_at p raw wrote s).
Proof.
  intros Hc He Ho Hsid Hraw Hseq. unfold run_command.
  assert (Hr : is_replica c = false).
  { unfold commit_eligible in He. destruct (is_replica c); [|done]. by rewrite andb_false_r in He. }
  pose proof (begin_spec p raw s c Hc Hr Hraw) as Hc1.
  assert (Hm1 : may_publish true (numbered raw c) (begin_command p raw s)).
  { split_and!; [exact He|done| |exact Hsid]. cbn. unfold UINT64_MAX in Hseq. rewrite u64_small by lia. lia. }
  destruct wrote.
  - destruct (publish_write_spec p _ _ Hc1 Hm1 Ho) as (ds & Hp & Ho2 & Hmk & Hd).
    rewrite (publish_skip_done p _ ((numbered raw c) <| cur_cmd_committed := true |>));
      [by eapply published_one| |done].
    rewrite (find_mark _ _ _ _ Hmk), decide_True by done. by rewrite Hc1.
  - destruct (publish_skip_spec p _ _ Hc1 Hm1 Ho) as (ds & Hp & Ho2 & Hmk & Hd). by eapply published_one.
Qed.

(** A command of a connection that takes no part leaves the channel alone. *)
Lemma command_other p raw wrote s : cookie_of true s p = None ->
  forall s', s' = run_command true send_at p raw wrote s ->
  out s' = out s /\ batch s' = batch s /\ session s' = session s /\ commit_fd s' = commit_fd s /\
  fault_reason s' = fault_reason s /\ global_seq s' = global_seq s /\
  (forall q, cookie_of true s' q = cookie_of true s q) /\
  (forall q, q <> p -> seq_of s' q = seq_of s q).
Proof.
  intros Hk s' ->. set (s1 := begin_command p raw s).
  assert (Hck : forall q, cookie_of true s1 q = cookie_of true s q).
  { intros q0. apply cookie_of_ext. intros q. unfold s1, begin_command. destruct (decide (p = q)) as [->|].
    - rewrite find_set_same. destruct (find_conn q s) as [c|]; [|done]. cbn. by destruct (is_replica c).
    - by rewrite find_set_other. }
  assert (Hnot : forall c, find_conn p s1 = Some c -> ~ may_publish true c s1).
  { intros c Hc (He & _). specialize (Hck p). rewrite Hk in Hck. unfold cookie_of in Hck.
    by rewrite Hc, He in Hck. }
  assert (Hrun : run_command true send_at p raw wrote s = s1).
  { unfold run_command. fold s1. assert (Hw : repl_commit_publish_write true send_at p s1 = s1).
    { unfold repl_commit_publish_write. destruct (find_conn p s1) as [c|]; [|done].
      rewrite decide_False; [done|]. by apply Hnot. }
    replace (if wrote then _ else _) with s1 by (by destruct wrote).
    unfold repl_commit_publish_skip. destruct (find_conn p s1) as [c|]; [|done].
    rewrite decide_False; [done|]. by apply Hnot. }
  rewrite Hrun. split_and!; try done. intros q Hq. unfold seq_of, s1, begin_command.
  by rewrite find_set_other.
Qed.

Lemma published_ext cs cs' sid seqs seqs' g l : (forall q, cs q = cs' q) ->
  (forall q, cs q <> None -> seqs q = seqs' q) -> published cs sid seqs g l = published cs' sid seqs' g l.
Proof.
  revert seqs seqs' g. induction l as [|[p raw wrote|] r IH]; intros seqs seqs' g Hc Hs; cbn [published]; auto.
  rewrite <- Hc. destruct (cs p) as [k|] eqn:Hk; [|by apply IH].
  rewrite (Hs p) by congruence. f_equal. apply IH; [done|]. intros q Hq. case_decide; auto.
Qed.

(** Once the channel is lost, nothing goes out. *)
Definition dead (o : list output) (sid : Z) (s : st) : Prop :=
  commit_fd s = false /\ batch s = [] /\ fault_reason s = CHANNEL /\ out s = o /\ session s = sid.
Lemma dead_write o sid p s : dead o sid s -> dead o sid (repl_commit_publish_write true send_at p s).
Proof.
  intros (H1 & H). unfold repl_commit_publish_write. destruct (find_conn p s); [|done].
  case_decide; [|done]. change (commit_fd (set_conn p _ s)) with (commit_fd s). rewrite H1.
  destruct H as (? & ? & ? & ?). by split_and!.
Qed.
Lemma dead_skip o sid p s : dead o sid s -> dead o sid (repl_commit_publish_skip true send_at p s).
Proof.
  intros (H1 & H). unfold repl_commit_publish_skip. destruct (find_conn p s); [|done].
  case_decide; [|done]. change (commit_fd (set_conn p _ s)) with (commit_fd s). rewrite H1. done.
Qed.
Lemma dead_run o sid l : forall s, dead o sid s -> dead o sid (fold_left (act true send_at) l s).
Proof.
  induction l as [|a l IH]; intros s Hd; [done|]. cbn [fold_left]. apply IH.
  destruct a as [p raw wrote|]; cbn [act].
  - unfold run_command. apply dead_skip. destruct wrote; [apply dead_write|]; exact Hd.
  - destruct Hd as (H1 & H2 & H). unfold repl_commit_flush, commit_flush_locked.
    rewrite decide_True by (by rewrite H2). done.
Qed.
Lemma pub_dead s l ds : ok s -> commit_fd s = false -> pub s (fold_left (act true send_at) l s) ds.
Proof.
  intros Ho Hfd. destruct (ok_dead _ Ho Hfd) as [Hb Hf].
  destruct (dead_run (out s) (session s) l s) as (H1 & H2 & H3 & H4 & H5); [by split_and!|].
  split_and!; [done|done|]. exists []. rewrite H1, H2, H3, H4, Hb, app_nil_r. split_and!; try done.
  apply prefix_nil.
Qed.

(** Commands fit in 32 bits and no connection runs out of numbers. *)
Definition raw_ok (a : action) : Prop :=
  match a with Command _ raw _ => Z.of_nat (length raw) < 2 ^ 32 | Flush => True end.
Definition seqs_ok (s : st) (n : nat) : Prop :=
  forall q, cookie_of true s q <> None -> 0 <= seq_of s q /\ seq_of s q + Z.of_nat n <= UINT64_MAX.
Definition publishes (s : st) (l : list action) : list CommitWire.desc :=
  published (cookie_of true s) (session s) (seq_of s) (global_seq s) l.

(** One action, up to what the later ones have to publish. *)
Lemma action_pub a l s : ok s -> commit_fd s = true -> session s <> 0 -> raw_ok a -> seqs_ok s (S (length l)) ->
  exists ds rest, publishes s (a :: l) = ds ++ rest /\ pub s (act true send_at s a) ds /\
    ok (act true send_at s a) /\ rest = publishes (act true send_at s a) l /\
    seqs_ok (act true send_at s a) (length l).
Proof.
  intros Ho Hfd Hsid Ha Hseq. unfold publishes, seqs_ok in *. unfold UINT64_MAX in *.
  destruct a as [p raw wrote|]; cbn [act published].
  - destruct (cookie_of true s p) as [k|] eqn:Hk.
    + pose proof Hk as Hk'. unfold cookie_of in Hk. destruct (find_conn p s) as [c|] eqn:Hc; [|done].
      destruct (commit_eligible true c) eqn:He; [|done]. injection Hk as <-.
      assert (Hsq : seq_of s p = repl_parsed_seq c) by (unfold seq_of; by rewrite Hc).
      destruct (Hseq p) as [Hs0 Hs1]; [congruence|]. rewrite Hsq in *.
      destruct (command_spec p raw wrote s c Hc He Ho Hsid Ha ltac:(unfold UINT64_MAX; lia))
        as (ds & Hp & Ho1 & Hck & Hsn & Hd).
      destruct (Hd Hfd) as [-> Hg]. eexists [_], _. rewrite Hg. pose proof Hp as [Hss _].
      split_and!; [reflexivity|destruct wrote; exact Hp|done| |].
      * rewrite Hss. apply published_ext; [done|]. intros q _. by rewrite Hsn, Hsq.
      * intros q Hq. rewrite Hck in Hq. rewrite Hsn, Hsq. destruct (Hseq q Hq). case_decide; [|lia].
        rewrite u64_small by lia. lia.
    + destruct (command_other p raw wrote s Hk _ eq_refl) as (E1 & E2 & E3 & E4 & E5 & E6 & E7 & E8).
      eexists [], _. rewrite E3, E6. split_and!; [reflexivity| | | |].
      * split_and!; [done|congruence|]. exists []. rewrite E1, E2, E4, Hfd, !app_nil_r. by split_and!.
      * unfold ok in *. by rewrite E4, E2, E5.
      * apply published_ext; [done|]. intros q Hq. rewrite E8; [done|]. by intros ->.
      * intros q Hq. rewrite E7 in Hq. rewrite E8 by congruence. destruct (Hseq q Hq). lia.
  - unfold ok in Ho. rewrite Hfd in Ho. destruct (pub_flush s Hfd ltac:(lia)) as (Hp & Hb & Hcs & Hg).
    assert (Hf : forall q, find_conn q (repl_commit_flush send_at s) = find_conn q s)
      by (intros; unfold find_conn, repl_commit_flush; by rewrite Hcs).
    eexists [], _. pose proof Hp as [Hss _]. unfold repl_commit_flush in *.
    split_and!; [reflexivity|exact Hp|eapply pub_ok; [exact Hp|]; by rewrite Hb| |].
    + rewrite Hss, Hg. apply published_ext; intros; unfold cookie_of, seq_of; by rewrite Hf.
    + intros q. unfold cookie_of, seq_of. rewrite Hf. intros Hq. destruct (Hseq q Hq). unfold seq_of in *. lia.
Qed.

Lemma run_pub l : forall s, ok s -> session s <> 0 -> Forall raw_ok l -> seqs_ok s (length l) ->
  pub s (fold_left (act true send_at) l s) (publishes s l).
Proof.
  induction l as [|a l IH]; intros s Ho Hsid Hok Hseq; cbn [fold_left].
  { apply pub_refl. intros. by apply ok_dead. }
  destruct (commit_fd s) eqn:Hfd; [|by apply (pub_dead s (a :: l))].
  apply Forall_cons in Hok as [Ha Hok].
  destruct (action_pub a l s Ho Hfd Hsid Ha Hseq) as (ds & rest & -> & Hp & Ho1 & -> & Hs1).
  eapply pub_trans; [exact Hp|]. apply IH; try done. by destruct Hp as [-> _].
Qed.

End Publish.

(** C22: the master publishes every command of every client connection exactly
    once and in order, whatever [send] answers: the batches it sent, followed by
    the descriptors it still collects, are the descriptors of the commands, one
    for each, numbered by connection and, for writes, globally; after a send has
    failed the batches sent are a prefix of them, nothing more is sent, and the
    failure is noted. *)
Theorem master_publishes_all send_at s l s' :
  s' = fold_left (act true send_at) l s ->
  commit_fd s = true -> session s <> 0 -> Z.of_nat (length (batch s)) < CommitWire.REPL_COMMIT_BATCH_MAX ->
  Forall raw_ok l -> seqs_ok s (length l) ->
  exists dss,
    out s' = out s ++ map (fun ds => Sent (batch_msg (session s) ds)) dss /\
    Forall (fun ds => 1 <= Z.of_nat (length ds) <= CommitWire.REPL_COMMIT_BATCH_MAX) dss /\
    if commit_fd s' then concat dss ++ batch s' = batch s ++ publishes s l
    else concat dss `prefix_of` batch s ++ publishes s l /\ batch s' = [] /\
         fault_reason s' = str "CHANNEL".
Proof.
  intros -> Hfd Hsid Hb Hok Hseq.
  destruct (run_pub send_at l s) as (_ & _ & dss & H1 & H2 & _ & H3); try done.
  { unfold ok. by rewrite Hfd. }
  by exists dss.
Qed.

(** Two connections, a write, a read and a write, then a flush. *)
Definition conn0 (k : Z) : conn := Conn false false k 0 0 0 0 true 0.
Definition master0 : st :=
  St true 1 0 3 [] 0 0 0 (str "NONE") [(0%nat, conn0 7); (1%nat, conn0 8)] true false true 0 0 [].
Definition acts0 : list action :=
  [Command 0 (str "SET a 1" ++ crlf) true; Command 1 (str "GET a" ++ crlf) false;
   Command 1 (str "DEL a" ++ crlf) true; Flush].
Lemma master_publishes_all_witness :
  length (out (fold_left (act true (fun _ => SOk)) acts0 master0)) = 1%nat /\
  exists dss, concat dss = publishes master0 acts0.
Proof.
  split; [vm_compute; reflexivity|].
  destruct (master_publishes_all (fun _ => SOk) master0 acts0 _ eq_refl) as (dss & _ & _ & H).
  - reflexivity.
  - discriminate.
  - reflexivity.
  - repeat constructor.
  - intros [|[|q]]; vm_compute; intros Hq; try (split; discriminate).
  - exists dss. replace (commit_fd _) with true in H by (vm_compute; reflexivity).
    replace (batch (fold_left _ _ _)) with (@nil CommitWire.desc) in H by (vm_compute; reflexivity).
    rewrite app_nil_r in H. exact H.
Defined.

End CommitMaster.
