(* ===== verification/Session.v ===== *)
(** * Session: replication sessions and the barrier around a resync

    The master's side of a replica's life, in [src/main/kvstore.c]
    ([repl_add_slave] to [repl_barrier_tick], the handlers of REPLSYNC, REPLACK
    and REPLDONE) and [src/replication/kvs_repl.c] (the session functions).  A
    session lasts from the first replica to the last; while a replica is brought
    up to date over its control connection, a barrier keeps the proxy from
    forwarding live writes over its own connection.

    The state is that of the commit gate ([CommitMaster]) with the list of
    replicas, the barrier and the control map shared with the proxy; the proxy's
    answers to the barrier, the clock, and whether a snapshot could be sent come
    with the action.  Whether the control map is open is fixed for a run; a map
    that is opened only later is not modelled.  What leaves the model is the
    output list. *)

From S2P Require Import Prelude Cstring CommitWire CommitMaster.

Module Session.

(** ** Data *)

(** The entries of the control map that the master writes. *)
Inductive ctlkey := FULLSYNC_STATE | CAPTURE_ENABLE | SESSION_VALID | SESSION_ID | CACHE_INVALID | PROXY_STATE.
#[export] Instance ctlkey_eq_dec : EqDecision ctlkey.
Proof. solve_decision. Defined.

Definition REPL_INVALID_COMMIT_CHANNEL : Z := 6.
Definition REPL_INVALID_BARRIER_TIMEOUT : Z := 8.
Definition REPL_BARRIER_HOLD_MAX_MS : Z := 15000.

(** The replication fields of [conn_t]; [is_replica] is in the gate's record. *)
Record conn := Conn {
  draining : bool; fullsync_pending : bool; fwd_healthy : bool; fwd_last_active : Z;
  recovery_mode : Z; ebpf_tcp : bool; fd_open : bool }.
#[export] Instance eta_conn : Eta conn :=
  fun c => Conn (draining c) (fullsync_pending c) (fwd_healthy c) (fwd_last_active c) (recovery_mode c)
    (ebpf_tcp c) (fd_open c).
Definition conn0 : conn := Conn false false false 0 0 false true.

Inductive output :=
  | Ctl (k : ctlkey) (v : Z)
  | ShutdownWr (p : nat)
  | ShutdownRdwr (p : nat)
  | Forward (p : nat) (raw : bytes)
  | Continue (p : nat) (from upto : Z)
  | Snapshot (p : nat) (base : Z).

Record st := St {
  replicas : list nat; conns : gmap nat conn; ctl : ctlkey -> Z; gate : CommitMaster.st;
  session_id : Z; session_seq : Z; master_offset : Z;
  barrier_active : bool; ack_gated : bool; end_offset : Z; resume_global : Z; resume_valid : bool;
  deadline : Z; fullsync_in_progress : bool; invalid_count : Z; last_reason : Z; out : list output }.
#[export] Instance eta_st : Eta st :=
  fun s => St (replicas s) (conns s) (ctl s) (gate s) (session_id s) (session_seq s) (master_offset s)
    (barrier_active s) (ack_gated s) (end_offset s) (resume_global s) (resume_valid s) (deadline s)
    (fullsync_in_progress s) (invalid_count s) (last_reason s) (out s).

Section Ops.

(** [commit_active_mode], whether the control map can be opened,
    [repl_proxy_barrier_needed], whether the configured transport feeds replicas
    through the proxy, the channel of the gate, and the process id. *)
Context (active_mode ctl_open barrier_needed proxy_transport : bool) (send_at : nat -> CommitMaster.send_rc) (pid : Z).

Definition emit (o : output) (s : st) : st := s <| out ::= fun l => l ++ [o] |>.
Definition get (p : nat) (s : st) : conn := default conn0 (conns s !! p).
Definition put (p : nat) (f : conn -> conn) (s : st) : st := s <| conns ::= insert p (f (get p s)) |>.
Definition is_replica (p : nat) (s : st) : bool :=
  match CommitMaster.find_conn p (gate s) with Some c => CommitMaster.is_replica c | None => false end.
Definition mark_replica (p : nat) (b : bool) (s : st) : st := s <| gate ::= CommitMaster.mark_replica p b |>.

(** ** The control map *)

Definition repl_ebpf_client_ctl_set (k : ctlkey) (v : Z) (s : st) : st :=
  if ctl_open then emit (Ctl k v) (s <| ctl ::= fun f k' => if decide (k' = k) then v else f k' |>) else s.
Definition repl_ebpf_client_ctl_get (k : ctlkey) (s : st) : Z := if ctl_open then ctl s k else 0.

Definition repl_notify_ebpf_proxy_session (valid : bool) (sid : Z) (s : st) : st :=
  if valid then
    let s := repl_ebpf_client_ctl_set SESSION_ID sid s in
    let s := repl_ebpf_client_ctl_set CACHE_INVALID 0 s in
    let s := repl_ebpf_client_ctl_set SESSION_VALID 1 s in
    repl_ebpf_client_ctl_set CAPTURE_ENABLE 1 s
  else
    let s := repl_ebpf_client_ctl_set CAPTURE_ENABLE 0 s in
    let s := repl_ebpf_client_ctl_set SESSION_VALID 0 s in
    let s := repl_ebpf_client_ctl_set SESSION_ID 0 s in
    repl_ebpf_client_ctl_set CACHE_INVALID 1 s.

(** ** Sessions *)

(** The number of a session, from the clock, the process and a counter; the loop
    skips a zero, which two different counters cannot both give. *)
Definition session_number (now n : Z) : Z :=
  u64 (Z.lxor (Z.lxor (u64 (Z.shiftl now 16)) (u64 (Z.shiftl pid 8))) n).
Fixpoint fresh_session (fuel : nat) (now n : Z) : Z * Z :=
  let n := u64 (n + 1) in
  let sid := session_number now n in
  match fuel with
  | O => (sid, n)
  | S f => if decide (sid = 0) then fresh_session f now n else (sid, n)
  end.
Definition repl_session_begin (now : Z) (s : st) : Z * st :=
  let '(sid, n) := fresh_session 1 now (session_seq s) in
  (sid, s <| session_seq := n |> <| session_id := sid |>
          <| gate ::= CommitMaster.repl_commit_session_begin active_mode send_at sid |>).
Definition repl_session_end (s : st) : st :=
  s <| gate ::= CommitMaster.repl_commit_session_end |> <| session_id := 0 |>.

(** [repl_ebpf_set_capture_enable] *)
Definition repl_ebpf_set_capture_enable (on : bool) (s : st) : st :=
  (repl_ebpf_client_ctl_set CAPTURE_ENABLE (if on then 1 else 0) s)
    <| gate ::= CommitMaster.set_capture_active on |>.

(** Every replica fed by the proxy is cut off. *)
Definition cut_off (s : st) (p : nat) : st :=
  if ebpf_tcp (get p s) then
    let s := put p (fun c => c <| draining := true |> <| recovery_mode := 0 |>) s in
    if fd_open (get p s) then emit (ShutdownRdwr p) s else s
  else s.
Definition repl_session_invalidate (reason : Z) (s : st) : st :=
  let s := if decide (reason <> 0)
           then s <| invalid_count ::= fun n => u64 (n + 1) |> <| last_reason := reason |> else s in
  let s := repl_ebpf_set_capture_enable false s in
  fold_left cut_off (replicas s) s.

(** ** The barrier *)

(** A poll of the proxy's answer until the deadline: the values read. *)
Definition polled (v : Z) (reads : list Z) : bool :=
  existsb (fun r => (if ctl_open then r else 0) =? v) reads.

(** [repl_barrier_begin]: 0 or -1, and [catchup_end]. *)
Definition repl_barrier_begin (down up : list Z) (s : st) : Z * Z * st :=
  if negb barrier_needed then (0, master_offset s, s)
  else if barrier_active s then (0, master_offset s, s)
  else
    let no_marker s := s <| resume_global := 0 |> <| resume_valid := false |> in
    let s := repl_ebpf_client_ctl_set PROXY_STATE 0 s in
    let stale := bool_decide (repl_ebpf_client_ctl_get FULLSYNC_STATE s <> 0) in
    let s := if stale then repl_ebpf_client_ctl_set FULLSYNC_STATE 0 s else s in
    if stale && negb (polled 0 down) then (-1, master_offset s, no_marker s)
    else
      let s := repl_ebpf_client_ctl_set PROXY_STATE 0 s in
      let s := repl_ebpf_client_ctl_set FULLSYNC_STATE 1 s in
      let s := s <| resume_global := CommitMaster.global_seq (gate s) |> <| resume_valid := true |> in
      if negb (polled 1 up)
      then (-1, master_offset s, no_marker (repl_ebpf_client_ctl_set FULLSYNC_STATE 0 s))
      else
        (0, master_offset s,
         s <| barrier_active := true |> <| ack_gated := false |> <| end_offset := master_offset s |>
           <| deadline := 0 |>).

Definition repl_barrier_release (s : st) : st :=
  if negb (barrier_active s) then s
  else
    let s := s <| barrier_active := false |> <| ack_gated := false |> <| deadline := 0 |> in
    let s :=
      if barrier_needed then
        let '(rc, s) :=
          if active_mode && resume_valid s then
            let '(rc, g) := CommitMaster.repl_commit_resume active_mode send_at (resume_global s) (gate s) in
            (rc, s <| gate := g |>)
          else (0, s) in
        if decide (rc <> 0) then repl_session_invalidate REPL_INVALID_COMMIT_CHANNEL s
        else repl_ebpf_client_ctl_set FULLSYNC_STATE 0 s
      else s in
    s <| resume_global := 0 |> <| resume_valid := false |>.

Definition repl_barrier_cancel (s : st) : st :=
  if negb (barrier_active s) && negb (resume_valid s) then s
  else s <| barrier_active := false |> <| ack_gated := false |> <| deadline := 0 |>
         <| resume_global := 0 |> <| resume_valid := false |>.

(** [repl_barrier_hold_max_ms], from the environment variable if it is set. *)
Definition repl_barrier_hold_max_ms (e : option Z) : Z :=
  let v := match e with Some v => v | None => REPL_BARRIER_HOLD_MAX_MS end in
  if decide (v < 1000) then 1000 else v.
Definition repl_barrier_gate_on_ack (e : option Z) (now : Z) (s : st) : st :=
  if negb (barrier_active s) then s
  else s <| ack_gated := true |> <| deadline := now + repl_barrier_hold_max_ms e |>.
Definition repl_barrier_note_applied (applied : Z) (s : st) : st :=
  if negb (barrier_active s) || negb (ack_gated s) then s
  else if decide (applied >= end_offset s) then repl_barrier_release s else s.
Definition repl_barrier_tick (now : Z) (s : st) : st :=
  if negb (barrier_active s) || negb (ack_gated s) || bool_decide (deadline s = 0) then s
  else if decide (now < deadline s) then s
  else repl_session_invalidate REPL_INVALID_BARRIER_TIMEOUT (repl_barrier_cancel s).

(** ** Replicas *)

Definition fresh_replica (c : conn) : conn :=
  c <| draining := false |> <| fullsync_pending := false |> <| fwd_healthy := false |> <| fwd_last_active := 0 |>.
Definition repl_add_slave (now : Z) (p : nat) (s : st) : st :=
  let first := bool_decide (replicas s = []) in
  if decide (p ∈ replicas s) then put p fresh_replica (mark_replica p true s)
  else
    let s := put p fresh_replica (mark_replica p true s) in
    let s := s <| replicas ::= cons p |> in
    if first then
      let '(sid, s) := repl_session_begin now s in
      repl_notify_ebpf_proxy_session true sid s
    else s.

Fixpoint unlink (p : nat) (l : list nat) : list nat :=
  match l with
  | [] => []
  | q :: r => if decide (q = p) then r else q :: unlink p r
  end.
(** The replica leaves the list; [true] when it was in it and the last. *)
Definition repl_unlink_replica_locked (p : nat) (s : st) : bool * st :=
  let found := bool_decide (p ∈ replicas s) in
  let s := s <| replicas ::= unlink p |> in
  let s := put p fresh_replica (mark_replica p false s) in
  (found && bool_decide (replicas s = []), s).
Definition repl_end_session_notify (s : st) : st :=
  repl_notify_ebpf_proxy_session false 0 (repl_session_end (repl_barrier_cancel s)).
Definition repl_remove_slave (p : nat) (s : st) : st :=
  let '(last, s) := repl_unlink_replica_locked p s in
  if last then repl_end_session_notify s else s.
Definition repl_reject_replica (p : nat) (s : st) : st :=
  let s := put p (fun c => c <| draining := true |> <| fullsync_pending := false |>) s in
  if fd_open (get p s) then emit (ShutdownWr p) s else s.

(** The walk of [repl_broadcast] over the list as it was at the start: a draining
    replica is unlinked on the way, the others stay. *)
Fixpoint broadcast_loop (stalled : nat -> bool) (raw : bytes) (ps : list nat) (ended : bool) (s : st) :
    bool * st :=
  match ps with
  | [] => (ended, s)
  | p :: r =>
      let c := get p s in
      if draining c then
        let '(last, s) := repl_unlink_replica_locked p s in
        broadcast_loop stalled raw r (ended || last) s
      else if fullsync_pending c || fullsync_in_progress s || ebpf_tcp c || fwd_healthy c || stalled p
      then broadcast_loop stalled raw r ended s
      else broadcast_loop stalled raw r ended (emit (Forward p raw) s)
  end.
Definition repl_broadcast (stalled : nat -> bool) (raw : bytes) (s : st) : st :=
  if decide (replicas s = []) then s
  else
    let '(ended, s) := broadcast_loop stalled raw (replicas s) false s in
    if ended then repl_end_session_notify s else s.

(** ** Handlers *)

(** REPLSYNC: what the replica asks for, whether a partial resync is possible,
    and whether the snapshot could be sent. *)
Definition commit_ignore (p : nat) (s : st) : st :=
  if active_mode then
    match CommitMaster.find_conn p (gate s) with
    | Some c => s <| gate ::= CommitMaster.repl_commit_ignore send_at c |>
    | None => s
    end
  else s.
Definition queue_snapshot (p : nat) (base : Z) (s : st) : st :=
  emit (Snapshot p base) (s <| fullsync_in_progress := true |>).
Definition handle_replsync (p : nat) (req : Z) (can_continue snapshot_ok : bool) (down up : list Z)
    (e : option Z) (now : Z) (s : st) : st :=
  let s := if proxy_transport then put p (fun c => c <| ebpf_tcp := true |>) s else s in
  let '(rc, catchup_end, s) := repl_barrier_begin down up s in
  if decide (rc <> 0) then repl_reject_replica p (commit_ignore p s)
  else
    let s := commit_ignore p (repl_add_slave now p s) in
    let s := put p (fun c => c <| fullsync_pending := negb can_continue |>) s in
    if can_continue then
      let s := emit (Continue p req catchup_end) s in
      if decide (req >= catchup_end) then repl_barrier_release s else repl_barrier_gate_on_ack e now s
    else
      let s := queue_snapshot p catchup_end s in
      if snapshot_ok then s else repl_barrier_release (repl_reject_replica p s).

Definition handle_replack (p : nat) (applied : Z) (s : st) : st :=
  if ebpf_tcp (get p s) && bool_decide (repl_ebpf_client_ctl_get CACHE_INVALID s = 1) then
    repl_reject_replica p (repl_ebpf_client_ctl_set CACHE_INVALID 0 s)
  else repl_barrier_note_applied applied s.
Definition handle_repldone (p : nat) (s : st) : st :=
  if is_replica p s then
    let s := put p (fun c => c <| fullsync_pending := false |>) s in
    repl_barrier_release (s <| fullsync_in_progress := false |>)
  else s.

(** [close_conn], the part that concerns replication. *)
Definition close_conn (p : nat) (s : st) : st :=
  let s := if is_replica p s then repl_remove_slave p s else s in
  let s := if active_mode then
             match CommitMaster.find_conn p (gate s) with
             | Some c => s <| gate ::= CommitMaster.repl_commit_forget send_at c |>
             | None => s
             end
           else s in
  s <| gate ::= CommitMaster.kvs_conn_unregister p |>.

(** The owner thread's tick of the gate, which invalidates the session when a
    failure is pending. *)
Definition rearm_tick (s : st) : st :=
  let reason := CommitMaster.failure_pending (gate s) in
  let s := s <| gate ::= fun g => (CommitMaster.repl_commit_rearm_tick active_mode send_at g).2 |> in
  if decide (reason <> 0) then repl_session_invalidate reason s else s.

(** ** Runs *)

Inductive action :=
  | Accept (p : nat) (c : CommitMaster.conn)
  | Replsync (p : nat) (req : Z) (can_continue snapshot_ok : bool) (down up : list Z) (e : option Z) (now : Z)
  | Replack (p : nat) (applied : Z)
  | Repldone (p : nat)
  | Close (p : nat)
  | Broadcast (stalled : nat -> bool) (raw : bytes)
  | Tick (now : Z)
  | Rearm
  | Wrote (n : Z)
  | Gate (a : CommitMaster.action)
  | Health (hup connects : bool) (ep : Z)
  | Failure (reason : Z)
  | ProxyInvalid.

Definition act (a : action) (s : st) : st :=
  match a with
  | Accept p c => s <| gate ::= CommitMaster.kvs_conn_register p c |> <| conns ::= insert p conn0 |>
  | Replsync p req cc ok down up e now => handle_replsync p req cc ok down up e now s
  | Replack p applied => handle_replack p applied s
  | Repldone p => handle_repldone p s
  | Close p => close_conn p s
  | Broadcast stalled raw => repl_broadcast stalled raw s
  | Tick now => repl_barrier_tick now s
  | Rearm => rearm_tick s
  | Wrote n => s <| master_offset ::= fun o => u64 (o + n) |>
  | Gate a => s <| gate ::= fun g => CommitMaster.act active_mode send_at g a |>
  | Health hup connects ep => s <| gate ::= CommitMaster.commit_health_tick active_mode send_at hup connects ep |>
  | Failure reason => s <| gate ::= CommitMaster.set_failure reason |>
  | ProxyInvalid => if ctl_open then s <| ctl ::= fun f k => if decide (k = CACHE_INVALID) then 1 else f k |> else s
  end.

(** A new connection is not yet known and no replica; REPLSYNC comes from a
    connection that is. *)
Definition allowed (a : action) (s : st) : Prop :=
  match a with
  | Accept p c => CommitMaster.find_conn p (gate s) = None /\ CommitMaster.is_replica c = false
  | Replsync p _ _ _ _ _ _ _ => is_Some (CommitMaster.find_conn p (gate s))
  | _ => True
  end.

Inductive reachable : st -> Prop :=
  | reach_init g off : CommitMaster.session g = 0 -> CommitMaster.conns g = [] ->
      reachable (St [] ∅ (fun _ => 0) g 0 0 off false false 0 0 false 0 false 0 0 [])
  | reach_step s a : reachable s -> allowed a s -> reachable (act a s).

End Ops.

(** ** The gate under a session *)

(** Who is registered, and who of them is a replica. *)
Definition flags (g : CommitMaster.st) : list (nat * bool) :=
  map (fun x => (x.1, CommitMaster.is_replica x.2)) (CommitMaster.conns g).
Definition same_gate (g g' : CommitMaster.st) : Prop :=
  CommitMaster.session g' = CommitMaster.session g /\ flags g' = flags g.

Lemma same_refl g : same_gate g g.
Proof. done. Qed.
Lemma same_trans g1 g2 g3 : same_gate g1 g2 -> same_gate g2 g3 -> same_gate g1 g3.
Proof. intros [H1 H2] [H3 H4]. split; congruence. Qed.

Section GateFacts.

Context (active_mode : bool) (send_at : nat -> CommitMaster.send_rc).

Lemma same_send b g : same_gate g (CommitMaster.commit_send_locked send_at b g).2.
Proof.
  unfold CommitMaster.commit_send_locked. destruct (CommitMaster.commit_fd g); [|done]. cbn [negb].
  destruct (CommitMaster.attempts_shape send_at 2 g) as [k Hk].
  destruct (CommitMaster.attempts send_at 2 g) as [[] g1]; cbn [snd] in *; subst; done.
Qed.
Lemma same_send_kv ty k v ep g : same_gate g (CommitMaster.send_kv send_at ty k v ep g).
Proof. unfold CommitMaster.send_kv. destruct (CommitMaster.commit_fd g); [apply same_send|done]. Qed.
Lemma same_allow k on g : same_gate g (CommitMaster.repl_ebpf_cookie_allow k on g).
Proof. unfold CommitMaster.repl_ebpf_cookie_allow. by case_decide. Qed.

Lemma same_baseline c g : same_gate g (CommitMaster.repl_commit_baseline active_mode send_at c g).
Proof.
  unfold CommitMaster.repl_commit_baseline. destruct (negb _); [done|].
  eapply same_trans; [apply same_allow|apply same_send_kv].
Qed.
Lemma same_ignore c g : same_gate g (CommitMaster.repl_commit_ignore send_at c g).
Proof.
  unfold CommitMaster.repl_commit_ignore. case_decide; [done|].
  eapply same_trans; [apply same_allow|apply same_send_kv].
Qed.
Lemma same_forget c g : same_gate g (CommitMaster.repl_commit_forget send_at c g).
Proof.
  unfold CommitMaster.repl_commit_forget. case_decide; [done|].
  eapply same_trans; [apply same_allow|apply same_send_kv].
Qed.
Lemma same_baselines g : same_gate g (CommitMaster.commit_send_all_baselines active_mode send_at g).
Proof.
  unfold CommitMaster.commit_send_all_baselines. generalize (CommitMaster.conns g) as l. intros l. revert g.
  induction l as [|[p c] l IH]; intros g; cbn [fold_left]; [done|].
  eapply same_trans; [|apply IH]. destruct (_ || _); [done|]. case_decide; [done|]. apply same_baseline.
Qed.
Lemma same_resume m g : same_gate g (CommitMaster.repl_commit_resume active_mode send_at m g).2.
Proof.
  unfold CommitMaster.repl_commit_resume. destruct (_ || _); [done|].
  destruct (CommitMaster.commit_fd g); cbn [negb]; [|done].
  unfold CommitMaster.commit_send_msg.
  match goal with |- context [CommitMaster.commit_send_locked send_at ?b g] => pose proof (same_send b g) as Hs end.
  destruct (CommitMaster.commit_send_locked send_at _ g) as [[] g1]; exact Hs.
Qed.
Lemma same_health hup connects ep g :
  same_gate g (CommitMaster.commit_health_tick active_mode send_at hup connects ep g).
Proof.
  unfold CommitMaster.commit_health_tick. destruct (negb active_mode); [done|].
  set (g1 := if CommitMaster.commit_fd g && hup then _ else g).
  assert (H1 : same_gate g g1) by (unfold g1; by destruct (_ && _)).
  destruct (_ || _); [done|]. eapply same_trans; [exact H1|].
  match goal with |- context [CommitMaster.commit_send_locked send_at ?b ?t] =>
    pose proof (same_send b t) as Hs end.
  destruct (CommitMaster.commit_send_locked send_at _ _) as [[] g2]; exact Hs.
Qed.
Lemma same_rearm g : same_gate g (CommitMaster.repl_commit_rearm_tick active_mode send_at g).2.
Proof.
  unfold CommitMaster.repl_commit_rearm_tick. case_decide; [done|]. destruct (_ && _ && _); [|done]. cbn [snd].
  match goal with |- context [CommitMaster.commit_send_all_baselines _ _ ?t] =>
    exact (same_baselines t) end.
Qed.

Lemma same_flush g : same_gate g (CommitMaster.commit_flush_locked send_at g).
Proof.
  unfold CommitMaster.commit_flush_locked. case_decide; [done|].
  match goal with |- context [CommitMaster.commit_send_locked send_at ?b g] => pose proof (same_send b g) as Hs end.
  destruct (CommitMaster.commit_send_locked send_at _ g) as [[] g1]; exact Hs.
Qed.
Lemma same_add d g : same_gate g (CommitMaster.commit_batch_add send_at d g).
Proof.
  unfold CommitMaster.commit_batch_add. case_decide; [|done].
  match goal with |- same_gate _ (CommitMaster.commit_flush_locked send_at ?t) => exact (same_flush t) end.
Qed.
(** An update of a connection that leaves the replica flag alone. *)
Lemma same_set_conn p f g : (forall c, CommitMaster.is_replica (f c) = CommitMaster.is_replica c) ->
  same_gate g (CommitMaster.set_conn p f g).
Proof.
  intros Hf. split; [done|]. unfold flags, CommitMaster.set_conn. cbn.
  induction (CommitMaster.conns g) as [|[q c] l IH]; cbn; [done|]. case_decide; cbn; [by rewrite Hf|by rewrite IH].
Qed.
Lemma same_publish_write p g : same_gate g (CommitMaster.repl_commit_publish_write active_mode send_at p g).
Proof.
  unfold CommitMaster.repl_commit_publish_write. destruct (CommitMaster.find_conn p g) as [c|]; [|done].
  case_decide; [|done]. cbv zeta.
  match goal with |- context [CommitMaster.set_conn p ?f g] => eapply same_trans; [by apply (same_set_conn p f)|] end.
  destruct (negb _); [done|].
  match goal with |- same_gate _ (CommitMaster.commit_batch_add send_at ?d ?t) => exact (same_add d t) end.
Qed.
Lemma same_publish_skip p g : same_gate g (CommitMaster.repl_commit_publish_skip active_mode send_at p g).
Proof.
  unfold CommitMaster.repl_commit_publish_skip. destruct (CommitMaster.find_conn p g) as [c|]; [|done].
  case_decide; [|done]. cbv zeta.
  match goal with |- context [CommitMaster.set_conn p ?f g] => eapply same_trans; [by apply (same_set_conn p f)|] end.
  destruct (negb _); [done|].
  match goal with |- same_gate _ (CommitMaster.commit_batch_add send_at ?d ?t) => exact (same_add d t) end.
Qed.
Lemma same_act a g : same_gate g (CommitMaster.act active_mode send_at g a).
Proof.
  destruct a as [p raw wrote|]; cbn [CommitMaster.act]; [|apply same_flush].
  unfold CommitMaster.run_command. eapply same_trans; [|apply same_publish_skip].
  unfold CommitMaster.begin_command.
  match goal with |- context [CommitMaster.set_conn p ?f g] => eapply same_trans; [apply (same_set_conn p f)|] end.
  { intros c. cbv beta. destruct (CommitMaster.is_replica c) eqn:E; [done|]. exact E. }
  destruct wrote; [apply same_publish_write|done].
Qed.
Lemma flags_session_begin sid g :
  CommitMaster.session (CommitMaster.repl_commit_session_begin active_mode send_at sid g) = sid /\
  flags (CommitMaster.repl_commit_session_begin active_mode send_at sid g) = flags g.
Proof.
  unfold CommitMaster.repl_commit_session_begin. destruct (negb active_mode); [done|].
  match goal with |- context [CommitMaster.commit_send_all_baselines _ _ ?t] =>
    exact (same_baselines t) end.
Qed.

End GateFacts.

(** *** The registry *)

Lemma flag_keys g : (flags g).*1 = map fst (CommitMaster.conns g).
Proof. unfold flags. induction (CommitMaster.conns g) as [|[] l IH]; cbn; congruence. Qed.
Lemma find_flag p g : NoDup (flags g).*1 ->
  match CommitMaster.find_conn p g with
  | Some c => (p, CommitMaster.is_replica c) ∈ flags g
  | None => p ∉ (flags g).*1
  end.
Proof.
  rewrite flag_keys. unfold CommitMaster.find_conn, flags. intros _.
  induction (CommitMaster.conns g) as [|[q c] l IH]; cbn; [apply not_elem_of_nil|].
  case_decide as E; cbn in *; [subst; apply list_elem_of_here|].
  destruct (list_find _ l) as [[i [q' c']]|]; cbn in *.
  - by apply list_elem_of_further.
  - apply not_elem_of_cons. by split.
Qed.
Lemma flag_unique g p b b' : NoDup (flags g).*1 -> (p, b) ∈ flags g -> (p, b') ∈ flags g -> b = b'.
Proof.
  intros Hn H1 H2. induction (flags g) as [|[q x] l IH]; [by apply not_elem_of_nil in H1|].
  cbn in Hn. apply NoDup_cons in Hn as [Hq Hn].
  apply elem_of_cons in H1, H2. destruct H1 as [E1|H1], H2 as [E2|H2]; [congruence| | |auto]; destruct Hq.
  - injection E1 as -> ->. apply list_elem_of_fmap. by exists (q, b').
  - injection E2 as -> ->. apply list_elem_of_fmap. by exists (q, b).
Qed.
Lemma is_replica_flag p s : NoDup (flags (gate s)).*1 -> is_replica p s = true <-> (p, true) ∈ flags (gate s).
Proof.
  intros Hn. pose proof (find_flag p (gate s) Hn) as H. unfold is_replica.
  destruct (CommitMaster.find_conn p (gate s)) as [c|].
  - split; [by intros <-|]. intros H'. by eapply flag_unique.
  - split; [done|]. intros H'. destruct H. apply list_elem_of_fmap. by exists (p, true).
Qed.

Lemma flags_mark p b g : NoDup (flags g).*1 ->
  flags (CommitMaster.mark_replica p b g) = map (fun x => if decide (x.1 = p) then (x.1, b) else x) (flags g).
Proof.
  rewrite flag_keys. unfold flags, CommitMaster.mark_replica, CommitMaster.set_conn. cbn.
  induction (CommitMaster.conns g) as [|[q c] l IH]; cbn; [done|]. intros Hn. apply NoDup_cons in Hn as [Hq Hn].
  case_decide as E; cbn; [|by rewrite IH]. f_equal. subst q. clear IH Hn.
  induction l as [|[q c'] l IH]; cbn; [done|]. cbn in Hq. apply not_elem_of_cons in Hq as [Hne Hq].
  rewrite decide_False by done. by rewrite <- IH.
Qed.
Lemma flags_mark_keys p b g : NoDup (flags g).*1 ->
  (flags (CommitMaster.mark_replica p b g)).*1 = (flags g).*1.
Proof.
  intros Hn. rewrite flags_mark by done. induction (flags g) as [|[q x] l IH]; cbn; [done|].
  cbn in Hn. apply NoDup_cons in Hn as [_ Hn]. case_decide; cbn; f_equal; auto.
Qed.
Lemma flags_mark_elem p b g q : NoDup (flags g).*1 ->
  (q, true) ∈ flags (CommitMaster.mark_replica p b g) <->
  if decide (q = p) then b = true /\ p ∈ (flags g).*1 else (q, true) ∈ flags g.
Proof.
  intros Hn. rewrite flags_mark by done. etrans; [apply list_elem_of_fmap|]. case_decide as E; subst.
  - split.
    + intros ([q x] & Eq & Hin). cbn in Eq. case_decide as E; subst; [|congruence]. injection Eq as <-.
      split; [done|]. apply list_elem_of_fmap. by exists (p, x).
    + intros [-> Hin]. apply list_elem_of_fmap in Hin as ([q x] & -> & Hin). exists (q, x). cbn.
      by rewrite decide_True.
  - split.
    + intros ([q' x] & Eq & Hin). cbn in Eq. case_decide; subst; [congruence|]. by injection Eq as -> ->.
    + intros Hin. exists (q, true). cbn. by rewrite decide_False.
Qed.
Lemma flags_unregister p g : flags (CommitMaster.kvs_conn_unregister p g) `sublist_of` flags g /\
  (NoDup (flags g).*1 -> forall q b, (q, b) ∈ flags (CommitMaster.kvs_conn_unregister p g) <-> (q, b) ∈ flags g /\ q <> p).
Proof.
  rewrite flag_keys. unfold flags, CommitMaster.kvs_conn_unregister. cbn.
  induction (CommitMaster.conns g) as [|[q c] l [IH1 IH2]]; cbn.
  { split; [done|]. intros _ q b. split; [intros H; by apply not_elem_of_nil in H|intros [H _]; by apply not_elem_of_nil in H]. }
  case_decide as E; cbn.
  - split; [by constructor|]. subst q. intros Hn q b. apply NoDup_cons in Hn as [Hp Hn]. rewrite elem_of_cons. split.
    + intros Hin. split; [by right|]. intros ->. apply Hp. apply list_elem_of_fmap in Hin as ([q' c'] & [= -> ->] & Hin).
      apply list_elem_of_fmap. by exists (q', c').
    + intros [[[= -> ->]|Hin] Hne]; done.
  - split; [by constructor|]. intros Hn q' b. apply NoDup_cons in Hn as [Hp Hn]. rewrite !elem_of_cons, IH2 by done.
    split; [|tauto]. intros [[= -> ->]|[H1 H2]]; tauto.
Qed.

Lemma drop_elem p l q : NoDup l -> q ∈ unlink p l <-> q ∈ l /\ q <> p.
Proof.
  induction l as [|x l IH]; cbn; intros Hn; [split; [intros H|intros [H _]]; by apply not_elem_of_nil in H|].
  apply NoDup_cons in Hn as [Hx Hn]. case_decide as E; subst.
  - rewrite elem_of_cons. split; [intros H; split; [by right|by intros ->]|intros [[->|H] Hne]; done].
  - rewrite !elem_of_cons, IH by done. split; [|tauto]. intros [->|[H1 H2]]; tauto.
Qed.
Lemma drop_nodup p l : NoDup l -> NoDup (unlink p l).
Proof.
  induction l as [|x l IH]; cbn; intros Hn; [done|]. apply NoDup_cons in Hn as [Hx Hn]. case_decide; [done|].
  apply NoDup_cons. rewrite drop_elem by done. split; [tauto|auto].
Qed.

(** ** The invariant *)

Section Invariant.

Context (active_mode ctl_open barrier_needed proxy_transport : bool) (send_at : nat -> CommitMaster.send_rc) (pid : Z).

Abbreviation ctl_set := (repl_ebpf_client_ctl_set ctl_open).
Abbreviation release := (repl_barrier_release active_mode ctl_open barrier_needed send_at).
Abbreviation begin_ := (repl_barrier_begin ctl_open barrier_needed).

(** Everything but that the session is live exactly while there are replicas,
    which fails for a moment when the last one leaves. *)
Record winv (s : st) : Prop := {
  inv_reg : NoDup (flags (gate s)).*1;
  inv_flag : forall p, p ∈ replicas s <-> (p, true) ∈ flags (gate s);
  inv_nodup : NoDup (replicas s);
  inv_gate : CommitMaster.session (gate s) = session_id s;
  inv_ctl : ctl_open = true ->
    ctl s SESSION_ID = session_id s /\
    ctl s SESSION_VALID = (if decide (session_id s = 0) then 0 else 1) /\
    (ctl s CAPTURE_ENABLE = 0 \/ ctl s CAPTURE_ENABLE = 1 /\ session_id s <> 0);
  inv_barrier : barrier_active s = true ->
    barrier_needed = true /\ ctl_open = true /\ ctl s FULLSYNC_STATE = 1 /\ resume_valid s = true }.
Definition live (s : st) : Prop := replicas s = [] <-> session_id s = 0.
Definition inv (s : st) : Prop := winv s /\ live s.

(** A change that leaves the session alone. *)
Definition keeps (s s' : st) : Prop :=
  replicas s' = replicas s /\ session_id s' = session_id s /\ same_gate (gate s) (gate s') /\
  ctl s' SESSION_ID = ctl s SESSION_ID /\ ctl s' SESSION_VALID = ctl s SESSION_VALID /\
  (ctl s' CAPTURE_ENABLE = ctl s CAPTURE_ENABLE \/ ctl s' CAPTURE_ENABLE = 0) /\
  (barrier_active s' = true -> barrier_active s = true /\ ctl s' FULLSYNC_STATE = ctl s FULLSYNC_STATE /\
     resume_valid s' = resume_valid s).

Lemma keeps_refl s : keeps s s.
Proof. unfold keeps. split_and!; try done. by left. Qed.
Lemma keeps_trans s1 s2 s3 : keeps s1 s2 -> keeps s2 s3 -> keeps s1 s3.
Proof.
  intros (? & ? & ? & ? & ? & Hc & Hb) (? & ? & ? & ? & ? & Hc' & Hb'). unfold keeps.
  split_and!; try congruence; [by eapply same_trans| |].
  - destruct Hc' as [->| ->]; [|by right]. tauto.
  - intros H'. destruct (Hb' H') as (Ha & -> & ->). destruct (Hb Ha) as (? & -> & ->). done.
Qed.
Lemma keeps_winv s s' : keeps s s' -> winv s -> winv s'.
Proof.
  intros (Hr & Hi & [Hs Hf] & H1 & H2 & Hc & Hb) W. split.
  - rewrite Hf. apply W.
  - intros p. rewrite Hr, Hf. apply W.
  - rewrite Hr. apply W.
  - rewrite Hs, Hi. apply W.
  - intros Ho. destruct (inv_ctl _ W Ho) as (? & ? & ?). rewrite H1, H2, Hi. split_and!; try done.
    destruct Hc as [-> | ->]; [done|by left].
  - intros H. destruct (Hb H) as (Ha & -> & ->). by apply W.
Qed.
Lemma keeps_live s s' : keeps s s' -> live s -> live s'.
Proof. intros (Hr & Hi & _). unfold live. by rewrite Hr, Hi. Qed.
Lemma keeps_inv s s' : keeps s s' -> inv s -> inv s'.
Proof. intros K [W L]. split; [by eapply keeps_winv|by eapply keeps_live]. Qed.

(** A step that changes no field the invariant reads. *)
Ltac kept := unfold keeps; split_and!; try done; by left.

Lemma keeps_ctl k v s : match k with CAPTURE_ENABLE => v = 0 | CACHE_INVALID | PROXY_STATE => True | FULLSYNC_STATE => barrier_active s = false | _ => False end ->
  keeps s (ctl_set k v s).
Proof.
  intros Hk. unfold repl_ebpf_client_ctl_set. destruct ctl_open; [|apply keeps_refl].
  unfold keeps. cbn [replicas session_id gate ctl barrier_active resume_valid upd emit].
  destruct k; try done; cbn; split_and!; try done; try (by left); try (by right); intros H; cbn in H; congruence.
Qed.
Lemma keeps_put p f s : keeps s (put p f s).
Proof. kept. Qed.
Lemma keeps_emit o s : keeps s (emit o s).
Proof. kept. Qed.
Lemma keeps_gate s g : same_gate (gate s) g -> keeps s (s <| gate := g |>).
Proof. intros H. unfold keeps. split_and!; try done; try apply H. by left. Qed.

Lemma keeps_cut ps s : keeps s (fold_left cut_off ps s).
Proof.
  revert s. induction ps as [|p ps IH]; intros s; cbn [fold_left]; [apply keeps_refl|].
  eapply keeps_trans; [|apply IH]. unfold cut_off. destruct (ebpf_tcp _); [|apply keeps_refl].
  destruct (fd_open _); [eapply keeps_trans; [apply keeps_put|apply keeps_emit]|apply keeps_put].
Qed.
Lemma keeps_invalidate reason s : keeps s (repl_session_invalidate ctl_open reason s).
Proof.
  unfold repl_session_invalidate. cbv zeta. eapply keeps_trans; [|apply keeps_cut].
  set (s1 := if decide (reason <> 0) then _ else s).
  assert (K1 : keeps s s1) by (unfold s1; case_decide; kept).
  eapply keeps_trans; [exact K1|]. unfold repl_ebpf_set_capture_enable.
  eapply keeps_trans; [by apply (keeps_ctl CAPTURE_ENABLE 0)|]. kept.
Qed.
Lemma keeps_release s : keeps s (release s).
Proof.
  unfold repl_barrier_release. destruct (barrier_active s) eqn:E; cbn [negb]; [|apply keeps_refl]. cbv zeta.
  set (s1 := s <| barrier_active := false |> <| ack_gated := false |> <| deadline := 0 |>).
  assert (K1 : keeps s s1) by kept.
  assert (K2 : forall t, barrier_active t = false -> keeps t (t <| resume_global := 0 |> <| resume_valid := false |>)).
  { intros t Ht. unfold keeps. split_and!; try done; [by left|]. intros H. cbn in H. congruence. }
  eapply keeps_trans; [exact K1|]. destruct barrier_needed; [|by apply K2].
  assert (H2 : exists rc s2, (if active_mode && resume_valid s1 then
       let '(rc, g) := CommitMaster.repl_commit_resume active_mode send_at (resume_global s1) (gate s1) in
       (rc, s1 <| gate := g |>) else (0, s1)) = (rc, s2) /\ keeps s1 s2).
  { destruct (_ && _); [|by exists 0, s1; split; [|apply keeps_refl]].
    pose proof (same_resume active_mode send_at (resume_global s1) (gate s1)) as H.
    destruct (CommitMaster.repl_commit_resume _ _ _ _) as [rc g]. eexists _, _. split; [done|]. by apply keeps_gate. }
  destruct H2 as (rc & s2 & -> & K3).
  assert (Hb2 : barrier_active s2 = false).
  { destruct (barrier_active s2) eqn:E2; [|done]. destruct K3 as (_ & _ & _ & _ & _ & _ & Hb). by destruct (Hb E2). }
  case_decide.
  - eapply keeps_trans; [exact K3|]. pose proof (keeps_invalidate REPL_INVALID_COMMIT_CHANNEL s2) as K4.
    eapply keeps_trans; [exact K4|]. apply K2. destruct (barrier_active (repl_session_invalidate _ _ s2)) eqn:E4; [|done].
    destruct K4 as (_ & _ & _ & _ & _ & _ & Hb). destruct (Hb E4). congruence.
  - eapply keeps_trans; [exact K3|].
    eapply keeps_trans; [by apply (keeps_ctl FULLSYNC_STATE 0)|]. apply K2.
    unfold repl_ebpf_client_ctl_set. by destruct ctl_open.
Qed.
Lemma keeps_cancel s : keeps s (repl_barrier_cancel s).
Proof. unfold repl_barrier_cancel. destruct (_ && _); [apply keeps_refl|]. kept. Qed.
Lemma keeps_gate_on_ack e now s : keeps s (repl_barrier_gate_on_ack e now s).
Proof. unfold repl_barrier_gate_on_ack. destruct (negb _); [apply keeps_refl|]. kept. Qed.
Lemma keeps_reject p s : keeps s (repl_reject_replica p s).
Proof.
  unfold repl_reject_replica. cbv zeta.
  destruct (fd_open _); [eapply keeps_trans; [apply keeps_put|apply keeps_emit]|apply keeps_put].
Qed.
Lemma keeps_commit_ignore p s : keeps s (commit_ignore active_mode send_at p s).
Proof.
  unfold commit_ignore. destruct active_mode; [|apply keeps_refl].
  destruct (CommitMaster.find_conn p (gate s)) as [c|]; [|apply keeps_refl]. apply keeps_gate. apply same_ignore.
Qed.
Lemma keeps_note_applied a s : keeps s (repl_barrier_note_applied active_mode ctl_open barrier_needed send_at a s).
Proof.
  unfold repl_barrier_note_applied. destruct (_ || _); [apply keeps_refl|].
  case_decide; [apply keeps_release|apply keeps_refl].
Qed.
Lemma keeps_tick now s : keeps s (repl_barrier_tick ctl_open now s).
Proof.
  unfold repl_barrier_tick. destruct (_ || _); [apply keeps_refl|]. case_decide; [apply keeps_refl|].
  eapply keeps_trans; [apply keeps_cancel|apply keeps_invalidate].
Qed.

(** *** The barrier goes up *)

Lemma begin_inv down up s rc ce s' : inv s -> begin_ down up s = (rc, ce, s') ->
  inv s' /\ gate s' = gate s /\ replicas s' = replicas s.
Proof.
  intros I. unfold repl_barrier_begin. destruct barrier_needed eqn:En; cbn [negb]; [|by intros [= <- <- <-]].
  destruct (barrier_active s) eqn:Ea; [by intros [= <- <- <-]|]. cbv zeta.
  assert (Hset : forall k v t, keeps s t -> (k = PROXY_STATE \/ k = FULLSYNC_STATE) ->
    barrier_active t = false -> gate t = gate s ->
    keeps s (ctl_set k v t) /\ barrier_active (ctl_set k v t) = false /\ gate (ctl_set k v t) = gate s).
  { intros k v t K Hk Hb Hg. split_and!.
    - eapply keeps_trans; [exact K|]. apply keeps_ctl. by destruct Hk as [-> | ->].
    - unfold repl_ebpf_client_ctl_set. by destruct ctl_open.
    - unfold repl_ebpf_client_ctl_set. by destruct ctl_open. }
  assert (Hno : forall t, keeps s t -> barrier_active t = false -> gate t = gate s ->
    let t' := t <| resume_global := 0 |> <| resume_valid := false |> in
    inv t' /\ gate t' = gate s /\ replicas t' = replicas s).
  { intros t K Hb Hg t'. split_and!; [|done|apply K]. eapply keeps_inv; [|exact I]. eapply keeps_trans; [exact K|].
    unfold keeps. split_and!; try done; [by left|]. intros H. cbn in H. congruence. }
  destruct (Hset PROXY_STATE 0 s (keeps_refl s) (or_introl eq_refl) Ea eq_refl) as (K1 & B1 & G1).
  set (s1 := ctl_set PROXY_STATE 0 s) in *.
  set (s2 := if bool_decide _ then ctl_set FULLSYNC_STATE 0 s1 else s1).
  assert (H2 : keeps s s2 /\ barrier_active s2 = false /\ gate s2 = gate s).
  { unfold s2. case_bool_decide; [|done]. apply Hset; auto. }
  destruct H2 as (K2 & B2 & G2). destruct (_ && _); [intros [= <- <- <-]; exact (Hno _ K2 B2 G2)|].
  destruct (Hset PROXY_STATE 0 s2 K2 (or_introl eq_refl) B2 G2) as (K3 & B3 & G3).
  set (s3 := ctl_set PROXY_STATE 0 s2) in *.
  destruct (Hset FULLSYNC_STATE 1 s3 K3 (or_intror eq_refl) B3 G3) as (K4 & B4 & G4).
  set (s4 := ctl_set FULLSYNC_STATE 1 s3) in *.
  set (s5 := s4 <| resume_global := _ |> <| resume_valid := true |>).
  assert (K5 : keeps s s5).
  { eapply keeps_trans; [exact K4|]. unfold keeps. split_and!; try done; [by left|]. intros H. cbn in H. congruence. }
  destruct (polled ctl_open 1 up) eqn:Ep; cbn [negb].
  - intros [= <- <- <-]. split_and!; [|exact G4|apply K5]. pose proof (keeps_inv _ _ K5 I) as [W L].
    split; [|exact L]. split; try apply W. intros _. destruct ctl_open; [done|exfalso].
    unfold polled in Ep. apply existsb_exists in Ep as (x & _ & Hx). done.
  - destruct (Hset FULLSYNC_STATE 0 s5 K5 (or_intror eq_refl) B4 G4) as (K6 & B6 & G6).
    intros [= <- <- <-]. exact (Hno _ K6 B6 G6).
Qed.

(** *** Replicas come and go *)

Lemma session_number_fresh now n : (fresh_session pid 1 now n).1 <> 0.
Proof.
  cbn [fresh_session]. case_decide as E; [|done]. cbn [fst]. intros E2.
  unfold session_number in *. set (a := Z.lxor _ (u64 (Z.shiftl pid 8))) in *.
  assert (Hx : forall m, u64 (Z.lxor a m) = 0 -> Z.land a (Z.ones 64) = Z.land m (Z.ones 64)).
  { intros m H. unfold u64 in H. rewrite <- Z.land_ones in H by lia.
    apply Z.bits_inj. intros i. apply (f_equal (fun z => Z.testbit z i)) in H.
    rewrite Z.land_spec, Z.lxor_spec, Z.bits_0 in H. rewrite !Z.land_spec.
    destruct (Z.testbit a i), (Z.testbit m i), (Z.testbit (Z.ones 64) i); done. }
  apply Hx in E, E2. rewrite E in E2. rewrite !Z.land_ones in E2 by lia. fold (u64 (u64 (n + 1))) in E2.
  unfold u64 in E2. rewrite !Z.mod_mod in E2 by lia. rewrite Zplus_mod_idemp_l in E2.
  pose proof (Z.mod_pos_bound (n + 1) (2 ^ 64)). pose proof (Z.div_mod (n + 1) (2 ^ 64)).
  pose proof (Z.mod_pos_bound (n + 1 + 1) (2 ^ 64)). pose proof (Z.div_mod (n + 1 + 1) (2 ^ 64)). lia.
Qed.

Lemma mark_winv p b s s' : winv s -> NoDup (replicas s') ->
  gate s' = CommitMaster.mark_replica p b (gate s) -> session_id s' = session_id s -> ctl s' = ctl s ->
  barrier_active s' = barrier_active s -> resume_valid s' = resume_valid s ->
  (forall q, q ∈ replicas s' <-> if decide (q = p) then b = true /\ p ∈ (flags (gate s)).*1 else q ∈ replicas s) ->
  winv s'.
Proof.
  intros W Hn Hg Hi Hc Hb Hr Hq. split.
  - rewrite Hg, flags_mark_keys by apply W. apply W.
  - intros q. rewrite Hq, Hg, flags_mark_elem by apply W. case_decide; [done|]. apply W.
  - done.
  - rewrite Hg, Hi. apply W.
  - rewrite Hc, Hi. apply W.
  - rewrite Hb, Hc, Hr. apply W.
Qed.

Lemma ctl_eq k v s k' : ctl_open = true -> ctl (ctl_set k v s) k' = if decide (k' = k) then v else ctl s k'.
Proof. intros ->. done. Qed.
Lemma notify_frame valid sid s :
  let s' := repl_notify_ebpf_proxy_session ctl_open valid sid s in
  replicas s' = replicas s /\ session_id s' = session_id s /\ gate s' = gate s /\
  barrier_active s' = barrier_active s /\ resume_valid s' = resume_valid s /\
  (ctl_open = true -> ctl s' FULLSYNC_STATE = ctl s FULLSYNC_STATE /\
     ctl s' SESSION_ID = (if valid then sid else 0) /\ ctl s' SESSION_VALID = (if valid then 1 else 0) /\
     ctl s' CAPTURE_ENABLE = (if valid then 1 else 0)).
Proof.
  unfold repl_notify_ebpf_proxy_session, repl_ebpf_client_ctl_set. by destruct valid, ctl_open.
Qed.

Lemma add_inv now p s : inv s -> p ∈ (flags (gate s)).*1 ->
  inv (repl_add_slave active_mode ctl_open send_at pid now p s).
Proof.
  intros [W L] Hp. unfold repl_add_slave. case_decide as Hin.
  { split; [|exact L]. apply (mark_winv p true s); try done; [apply W|]. intros q. cbn.
    case_decide; [subst; tauto|done]. }
  set (s1 := put p fresh_replica (mark_replica p true s) <| replicas ::= cons p |>).
  assert (W1 : winv s1).
  { apply (mark_winv p true s); try done; [apply NoDup_cons; split; [done|apply W]|].
    intros q. cbn. rewrite elem_of_cons. case_decide as E; [subst; tauto|]. tauto. }
  case_bool_decide as Hf.
  - unfold repl_session_begin. destruct (fresh_session pid 1 now (session_seq s1)) as [sid n] eqn:Es.
    pose proof (session_number_fresh now (session_seq s1)) as Hsid. rewrite Es in Hsid. cbn [fst] in Hsid.
    set (s2 := s1 <| session_seq := n |> <| session_id := sid |> <| gate ::= _ |>).
    destruct (flags_session_begin active_mode send_at sid (gate s1)) as [Hgs Hgf].
    destruct (notify_frame true sid s2) as (Hr & Hi & Hg & Hb & Hv & Hc). cbv zeta in *.
    split.
    + split.
      * rewrite Hg. change (gate s2) with (CommitMaster.repl_commit_session_begin active_mode send_at sid (gate s1)).
        rewrite Hgf. apply W1.
      * intros q. rewrite Hr, Hg. change (gate s2) with (CommitMaster.repl_commit_session_begin active_mode send_at sid (gate s1)).
        rewrite Hgf. apply W1.
      * rewrite Hr. apply W1.
      * rewrite Hg, Hi. exact Hgs.
      * intros Ho. destruct (Hc Ho) as (_ & -> & -> & ->). rewrite Hi. change (session_id s2) with sid.
        rewrite decide_False by done. split_and!; try done. by right.
      * rewrite Hb, Hv. intros Hba. destruct (inv_barrier _ W1 Hba) as (? & Ho & ? & ?). destruct (Hc Ho) as (-> & _). done.
    + unfold live. rewrite Hr, Hi. cbn. split; [done|]. intros E. by destruct Hsid.
  - split; [exact W1|]. unfold live in *. cbn. split; [done|]. intros E. destruct Hf. by apply L.
Qed.

Lemma unlink_winv p s last s' : winv s -> repl_unlink_replica_locked p s = (last, s') ->
  winv s' /\ session_id s' = session_id s /\ replicas s' = unlink p (replicas s) /\
  last = bool_decide (p ∈ replicas s) && bool_decide (unlink p (replicas s) = []) /\
  barrier_active s' = barrier_active s.
Proof.
  intros W. unfold repl_unlink_replica_locked. intros [= <- <-]. split_and!; try done.
  apply (mark_winv p false s); try done; [apply drop_nodup, W|]. intros q. cbn.
  rewrite drop_elem by apply W. case_decide; [subst; split; [tauto|intros [? _]; done]|tauto].
Qed.

Lemma end_inv s : winv s -> replicas s = [] -> inv (repl_end_session_notify ctl_open s).
Proof.
  intros W Hr. unfold repl_end_session_notify. pose proof (keeps_winv _ _ (keeps_cancel s) W) as W1.
  assert (Hr1 : replicas (repl_barrier_cancel s) = []) by (destruct (keeps_cancel s) as (-> & _); done).
  set (s1 := repl_barrier_cancel s) in *. set (s2 := repl_session_end s1).
  assert (Hf : barrier_active s1 = false).
  { unfold s1, repl_barrier_cancel. by destruct (barrier_active s) eqn:E, (resume_valid s). }
  destruct (notify_frame false 0 s2) as (Hr2 & Hi & Hg & Hb & Hv & Hc). cbv zeta in *. split.
  - split.
    + rewrite Hg. apply W1.
    + intros q. rewrite Hr2, Hg. apply W1.
    + rewrite Hr2. apply W1.
    + by rewrite Hg, Hi.
    + intros Ho. destruct (Hc Ho) as (_ & -> & -> & ->). rewrite Hi. cbn. split_and!; try done. by left.
    + rewrite Hb. cbn. congruence.
  - unfold live. rewrite Hr2, Hi. done.
Qed.

Lemma remove_inv p s : inv s -> inv (repl_remove_slave ctl_open p s) /\ p ∉ replicas (repl_remove_slave ctl_open p s).
Proof.
  intros [W L]. unfold repl_remove_slave. destruct (repl_unlink_replica_locked p s) as [last s'] eqn:E.
  destruct (unlink_winv p s last s' W E) as (W' & Hi & Hr & Hl & _).
  assert (Hp : p ∉ replicas s') by (rewrite Hr, drop_elem by apply W; tauto).
  destruct last.
  - symmetry in Hl. apply andb_true_iff in Hl as [_ Hl]. apply bool_decide_eq_true in Hl. rewrite <- Hr in Hl.
    pose proof (end_inv s' W' Hl) as I. split; [done|].
    unfold repl_end_session_notify. destruct (notify_frame false 0 (repl_session_end (repl_barrier_cancel s'))) as (-> & _).
    cbn. by destruct (keeps_cancel s') as (-> & _).
  - split; [|done]. split; [done|]. unfold live in *. rewrite Hi, <- L, Hr. split.
    + intros Hu. destruct (replicas s) as [|q r] eqn:Er; [done|]. symmetry in Hl. apply andb_false_iff in Hl.
      rewrite !bool_decide_eq_false in Hl. destruct Hl as [Hl|Hl]; [|done].
      cbn in Hu. case_decide; [|done]. subst. destruct Hl. apply list_elem_of_here.
    + by intros ->.
Qed.

Lemma broadcast_winv stalled raw ps ended s ended' s' A : winv s -> session_id s <> 0 ->
  replicas s = A ++ ps -> (ended = true <-> replicas s = []) ->
  broadcast_loop stalled raw ps ended s = (ended', s') ->
  winv s' /\ session_id s' <> 0 /\ (ended' = true <-> replicas s' = []).
Proof.
  revert A ended s. induction ps as [|p ps IH]; intros A ended s W Hi Hr He; cbn [broadcast_loop].
  - by intros [= <- <-].
  - assert (Hne : replicas s <> []) by (rewrite Hr; by destruct A).
    assert (ended = false) as -> by (destruct ended; [by destruct Hne, He as [He _]; auto|done]).
    destruct (draining _).
    + destruct (repl_unlink_replica_locked p s) as [last s1] eqn:E.
      destruct (unlink_winv p s last s1 W E) as (W1 & Hi1 & Hr1 & Hl & _). intros H.
      assert (Hin : p ∈ replicas s) by (rewrite Hr; apply elem_of_app; right; apply list_elem_of_here).
      assert (Hu : unlink p (replicas s) = A ++ ps).
      { rewrite Hr. pose proof (inv_nodup _ W) as Hn. rewrite Hr in Hn.
        apply NoDup_app in Hn as (_ & Hd & _). clear - Hd. induction A as [|a A IH]; cbn; [by rewrite decide_True|].
        rewrite decide_False; [|intros ->; apply (Hd p); apply list_elem_of_here]. f_equal. apply IH.
        intros x Hx. apply Hd. by apply list_elem_of_further. }
      apply (IH A _ s1) in H; [done|done|by rewrite Hi1|by rewrite Hr1|].
      rewrite Hl, Hr1, (bool_decide_eq_true_2 _ Hin). cbn. apply bool_decide_eq_true.
    + destruct (_ || _); [|intros H].
      * intros H. apply (IH (A ++ [p]) false s) in H; try done. by rewrite <- app_assoc.
      * apply (IH (A ++ [p]) false) in H; [done| |done|by rewrite <- app_assoc|done].
        eapply keeps_winv; [apply keeps_emit|done].
Qed.
Lemma broadcast_inv stalled raw s : inv s -> inv (repl_broadcast ctl_open stalled raw s).
Proof.
  intros [W L]. unfold repl_broadcast. case_decide as Hr; [done|].
  destruct (broadcast_loop stalled raw (replicas s) false s) as [ended s'] eqn:E.
  assert (Hi : session_id s <> 0) by (intros H; by apply Hr, L).
  destruct (broadcast_winv stalled raw (replicas s) false s ended s' [] W Hi eq_refl) as (W' & Hi' & He); [done|done|].
  destruct ended; [apply end_inv; [done|by apply He]|]. split; [done|]. unfold live. split; [|done].
  intros H. by apply He in H.
Qed.

Lemma find_reg p s : winv s -> is_Some (CommitMaster.find_conn p (gate s)) -> p ∈ (flags (gate s)).*1.
Proof.
  intros W [c Hc]. pose proof (find_flag p (gate s) (inv_reg _ W)) as H. rewrite Hc in H.
  apply list_elem_of_fmap. by exists (p, CommitMaster.is_replica c).
Qed.
Lemma replsync_inv p req cc ok down up e now s : inv s -> is_Some (CommitMaster.find_conn p (gate s)) ->
  inv (handle_replsync active_mode ctl_open barrier_needed proxy_transport send_at pid p req cc ok down up e now s).
Proof.
  intros I0 Hp0. unfold handle_replsync. cbv zeta.
  set (s0 := if proxy_transport then _ else s).
  assert (K0 : keeps s s0) by (unfold s0; destruct proxy_transport; [apply keeps_put|apply keeps_refl]).
  assert (I : inv s0) by (by eapply keeps_inv).
  assert (Hp : is_Some (CommitMaster.find_conn p (gate s0))) by (unfold s0; by destruct proxy_transport).
  destruct (begin_ down up s0) as [[rc ce] s1] eqn:E.
  destruct (begin_inv down up s0 rc ce s1 I E) as (I1 & Hg & _). case_decide.
  - eapply keeps_inv; [|exact I1]. eapply keeps_trans; [apply keeps_commit_ignore|apply keeps_reject].
  - assert (I2 : inv (repl_add_slave active_mode ctl_open send_at pid now p s1)).
    { apply add_inv; [done|]. rewrite Hg. apply find_reg; [apply I|done]. }
    set (s2 := repl_add_slave _ _ _ _ _ _ s1) in *.
    assert (I3 : inv (put p (fun c => c <| fullsync_pending := negb cc |>) (commit_ignore active_mode send_at p s2))).
    { eapply keeps_inv; [|exact I2]. eapply keeps_trans; [apply keeps_commit_ignore|apply keeps_put]. }
    set (s3 := put p _ (commit_ignore active_mode send_at p s2)) in *. destruct cc.
    + eapply keeps_inv; [|exact I3]. eapply keeps_trans; [apply keeps_emit|].
      case_decide; [apply keeps_release|apply keeps_gate_on_ack].
    + assert (K4 : keeps s3 (queue_snapshot p ce s3)).
      { unfold keeps. split_and!; try done. by left. }
      destruct ok; eapply keeps_inv; try exact I3; [exact K4|]. eapply keeps_trans; [exact K4|].
      eapply keeps_trans; [apply keeps_reject|apply keeps_release].
Qed.

Lemma close_inv p s : inv s -> inv (close_conn active_mode ctl_open send_at p s) /\
  p ∉ replicas (close_conn active_mode ctl_open send_at p s).
Proof.
  intros I. unfold close_conn. cbv zeta. set (s1 := if is_replica p s then _ else s).
  assert (H1 : inv s1 /\ p ∉ replicas s1).
  { unfold s1. destruct (is_replica p s) eqn:E; [by apply remove_inv|]. split; [done|]. intros Hin.
    destruct I as [W _]. apply W, is_replica_flag in Hin; [congruence|apply W]. }
  destruct H1 as [I1 Hp1]. set (s2 := if active_mode then _ else s1).
  assert (K2 : keeps s1 s2).
  { unfold s2. destruct active_mode; [|apply keeps_refl].
    destruct (CommitMaster.find_conn p (gate s1)); [|apply keeps_refl]. apply keeps_gate, same_forget. }
  destruct (keeps_inv _ _ K2 I1) as [W2 L2]. assert (Hp2 : p ∉ replicas s2) by (by destruct K2 as (-> & _)).
  destruct (flags_unregister p (gate s2)) as [Hsub Hel]. split; [|done]. split; [|done].
  split; try apply W2.
  - apply (sublist_NoDup _ (flags (gate s2)).*1); [apply W2|]. cbn [gate upd].
    clear - Hsub. induction Hsub; cbn; by constructor.
  - intros q. cbn [replicas gate upd]. rewrite (Hel (inv_reg _ W2)), <- (inv_flag _ W2).
    split; [|tauto]. intros Hq. split; [done|]. by intros ->.
Qed.

Lemma act_inv a s : inv s -> allowed a s -> inv (act active_mode ctl_open barrier_needed proxy_transport send_at pid a s).
Proof.
  intros I. destruct a; cbn [act allowed]; intros Ha.
  - destruct Ha as [Hf Hc], I as [W L]. split; [|exact L].
    pose proof (find_flag p (gate s) (inv_reg _ W)) as Hn. rewrite Hf in Hn.
    split; try apply W; cbn [replicas gate upd].
    + unfold flags. cbn. apply NoDup_cons. split; [done|apply W].
    + intros q. unfold flags. cbn. rewrite elem_of_cons. rewrite Hc. etrans; [apply (inv_flag _ W)|].
      split; [by right|]. intros [E|H]; [congruence|done].
  - by apply replsync_inv.
  - unfold handle_replack. destruct (_ && _); eapply keeps_inv; try exact I; [|apply keeps_note_applied].
    eapply keeps_trans; [by apply (keeps_ctl CACHE_INVALID 0)|apply keeps_reject].
  - unfold handle_repldone. destruct (is_replica p s); [|done]. eapply keeps_inv; [|exact I].
    eapply keeps_trans; [apply (keeps_put p (fun c => c <| fullsync_pending := false |>))|].
    eapply keeps_trans; [|apply keeps_release]. unfold keeps. split_and!; try done. by left.
  - by apply close_inv.
  - by apply broadcast_inv.
  - eapply keeps_inv; [apply keeps_tick|done].
  - unfold rearm_tick. cbv zeta. assert (K : keeps s (s <| gate ::= fun g => (CommitMaster.repl_commit_rearm_tick active_mode send_at g).2 |>)).
    { apply (keeps_gate s), same_rearm. }
    case_decide; (eapply keeps_inv; [|exact I]); [|done]. eapply keeps_trans; [exact K|apply keeps_invalidate].
  - eapply keeps_inv; [|exact I]. unfold keeps. split_and!; try done. by left.
  - eapply keeps_inv; [|exact I]. apply (keeps_gate s), same_act.
  - eapply keeps_inv; [|exact I]. apply (keeps_gate s), same_health.
  - eapply keeps_inv; [|exact I]. by apply (keeps_gate s).
  - destruct ctl_open; [|done]. eapply keeps_inv; [|exact I]. unfold keeps. split_and!; try done. by left.
Qed.

Lemma reachable_inv s : reachable active_mode ctl_open barrier_needed proxy_transport send_at pid s -> inv s.
Proof.
  induction 1 as [g off Hs Hc|s a _ IH Ha]; [|by apply act_inv].
  split; [|done]. split; cbn; try done.
  - unfold flags. rewrite Hc. constructor.
  - intros p. unfold flags. rewrite Hc. cbn. split; intros H; by apply not_elem_of_nil in H.
  - constructor.
  - intros _. split_and!; try done. by left.
Qed.

(** *** Who lowers the barrier *)

Abbreviation fs s := (ctl s FULLSYNC_STATE).

Lemma fs_ctl k v s : k <> FULLSYNC_STATE -> fs (ctl_set k v s) = fs s.
Proof. intros Hk. unfold repl_ebpf_client_ctl_set. destruct ctl_open; [|done]. cbn. by rewrite decide_False by congruence. Qed.
Lemma fs_cut ps s : fs (fold_left cut_off ps s) = fs s.
Proof.
  revert s. induction ps as [|p ps IH]; intros s; cbn [fold_left]; [done|]. rewrite IH. unfold cut_off.
  destruct (ebpf_tcp _); [|done]. cbv zeta. by destruct (fd_open _).
Qed.
Lemma fs_invalidate reason s : fs (repl_session_invalidate ctl_open reason s) = fs s.
Proof.
  unfold repl_session_invalidate. cbv zeta. rewrite fs_cut. unfold repl_ebpf_set_capture_enable. cbn [ctl upd].
  rewrite fs_ctl by done. by case_decide.
Qed.
Lemma fs_cancel s : fs (repl_barrier_cancel s) = fs s.
Proof. unfold repl_barrier_cancel. by destruct (_ && _). Qed.
Lemma fs_notify valid sid s : fs (repl_notify_ebpf_proxy_session ctl_open valid sid s) = fs s.
Proof. unfold repl_notify_ebpf_proxy_session. destruct valid; cbv zeta; by rewrite !fs_ctl. Qed.
Lemma fs_end s : fs (repl_end_session_notify ctl_open s) = fs s.
Proof. unfold repl_end_session_notify. rewrite fs_notify. cbn [ctl upd repl_session_end]. apply fs_cancel. Qed.
Lemma fs_remove p s : fs (repl_remove_slave ctl_open p s) = fs s.
Proof.
  unfold repl_remove_slave. cbn [repl_unlink_replica_locked]. cbv zeta.
  destruct (_ && _); [by rewrite fs_end|done].
Qed.
Lemma fs_broadcast stalled raw ps ended s : fs (broadcast_loop stalled raw ps ended s).2 = fs s.
Proof.
  revert ended s. induction ps as [|p ps IH]; intros ended s; cbn [broadcast_loop]; [done|].
  destruct (draining _); [cbn [repl_unlink_replica_locked]; cbv zeta; by rewrite IH|].
  destruct (_ || _); by rewrite IH.
Qed.
Lemma fs_reject p s : fs (repl_reject_replica p s) = fs s.
Proof. unfold repl_reject_replica. cbv zeta. by destruct (fd_open _). Qed.
Lemma fs_ignore p s : fs (commit_ignore active_mode send_at p s) = fs s.
Proof. unfold commit_ignore. destruct active_mode; [|done]. by destruct (CommitMaster.find_conn p (gate s)). Qed.
Lemma fs_add now p s : fs (repl_add_slave active_mode ctl_open send_at pid now p s) = fs s.
Proof.
  unfold repl_add_slave. case_decide; [done|]. case_bool_decide; [|done]. cbv zeta. unfold repl_session_begin.
  destruct (fresh_session _ _ _ _) as [sid n]. by rewrite fs_notify.
Qed.
(** The RESUME message with this marker. *)
Definition resume_msg (marker sid : Z) : bytes :=
  CommitWire.put_msg (CommitWire.Msg CommitWire.REPL_COMMIT_MAGIC CommitWire.REPL_COMMIT_VERSION
    CommitWire.REPL_COMMIT_MSG_RESUME 0 sid marker).
(** It is the last thing that went out on the commit channel. *)
Definition resumed (marker : Z) (s : st) : Prop :=
  exists pre, CommitMaster.out (gate s) = pre ++ [CommitMaster.Sent (resume_msg marker (session_id s))].

Lemma resume_sends marker g g' : active_mode = true -> CommitMaster.session g <> 0 ->
  CommitMaster.repl_commit_resume active_mode send_at marker g = (0, g') ->
  exists pre, CommitMaster.out g' = pre ++ [CommitMaster.Sent (resume_msg marker (CommitMaster.session g))].
Proof.
  intros Ha Hs. unfold CommitMaster.repl_commit_resume. rewrite Ha, bool_decide_eq_false_2 by done. cbn [negb orb].
  destruct (CommitMaster.commit_fd g) eqn:Hf; [|done]. cbn [negb]. unfold CommitMaster.commit_send_msg, CommitMaster.commit_send_locked.
  rewrite Hf. cbn [negb]. destruct (CommitMaster.attempts send_at 2 g) as [[] g1]; [|done].
  intros [= <-]. exists (CommitMaster.out g1). unfold resume_msg.
  rewrite <- (app_nil_r (CommitWire.put_msg _)). reflexivity.
Qed.
(** A release that lowers it has sent the RESUME message. *)
Lemma fs_release s : fs s = 1 -> fs (release s) = 0 -> active_mode = true -> resume_valid s = true ->
  CommitMaster.session (gate s) = session_id s -> session_id s <> 0 -> resumed (resume_global s) (release s).
Proof.
  intros H1. pose proof (keeps_release s) as (_ & Hi & _). revert Hi.
  unfold repl_barrier_release. destruct (barrier_active s); cbn [negb]; [|congruence].
  destruct barrier_needed; [|cbn; congruence]. intros Hi H0 Ha Hv Hg Hne. cbn [resume_valid resume_global gate upd] in *.
  rewrite Ha, Hv in *. cbn [andb] in *.
  destruct (CommitMaster.repl_commit_resume true send_at (resume_global s) (gate s)) as [rc g] eqn:Hr.
  case_decide as Hrc; [cbn [ctl upd] in H0; rewrite fs_invalidate in H0; cbn in H0; congruence|].
  subst rc. rewrite <- Ha in Hr at 1. apply resume_sends in Hr as [pre Hp]; [|done|congruence].
  exists pre. rewrite Hi, <- Hg, <- Hp. unfold repl_ebpf_client_ctl_set. by destruct ctl_open.
Qed.

(** The barrier is up only while there are replicas. *)
Definition guarded (s : st) : Prop := barrier_active s = true -> replicas s <> [].
Lemma keeps_guarded s s' : keeps s s' -> guarded s -> guarded s'.
Proof. intros (Hr & _ & _ & _ & _ & _ & Hb) G H. rewrite Hr. apply G. by apply Hb. Qed.
Lemma end_guarded s : guarded (repl_end_session_notify ctl_open s).
Proof.
  unfold guarded, repl_end_session_notify.
  destruct (notify_frame false 0 (repl_session_end (repl_barrier_cancel s))) as (_ & _ & _ & -> & _).
  cbn. unfold repl_barrier_cancel. by destruct (barrier_active s) eqn:E, (resume_valid s); cbn; rewrite ?E.
Qed.
Lemma add_nonempty now p s : replicas (repl_add_slave active_mode ctl_open send_at pid now p s) <> [].
Proof.
  unfold repl_add_slave. case_decide as Hp; [cbn; by destruct (replicas s); [apply not_elem_of_nil in Hp|]|].
  cbv zeta. case_bool_decide; [|done]. unfold repl_session_begin. destruct (fresh_session _ _ _ _) as [sid n].
  match goal with |- context [repl_notify_ebpf_proxy_session _ true sid ?t] => by destruct (notify_frame true sid t) as (-> & _) end.
Qed.
Lemma replsync_guarded p req cc ok down up e now s : guarded s ->
  guarded (handle_replsync active_mode ctl_open barrier_needed proxy_transport send_at pid p req cc ok down up e now s).
Proof.
  intros G. unfold handle_replsync. cbv zeta. set (s0 := if proxy_transport then _ else s).
  assert (G0 : guarded s0) by (unfold s0; by destruct proxy_transport).
  destruct (begin_ down up s0) as [[rc ce] s1] eqn:E. case_decide as Hrc.
  - eapply keeps_guarded; [eapply keeps_trans; [apply keeps_commit_ignore|apply keeps_reject]|].
    revert E. unfold repl_barrier_begin. destruct barrier_needed; cbn [negb]; [|intros [= <- _ _]; done].
    destruct (barrier_active s0) eqn:Ea; [intros [= <- _ _]; done|]. cbv zeta.
    assert (forall k v t, barrier_active (ctl_set k v t) = barrier_active t) as Hk
      by (intros; unfold repl_ebpf_client_ctl_set; by destruct ctl_open).
    destruct (_ && _); [|destruct (negb _)]; intros [= <- _ <-]; try done; intros Hb; cbn in Hb;
      rewrite ?Hk in Hb; cbn in Hb; rewrite ?Hk in Hb; destruct (bool_decide _) in Hb; rewrite ?Hk in Hb; congruence.
  - set (s2 := repl_add_slave _ _ _ _ _ _ s1). assert (G2 : guarded s2) by (intros _; apply add_nonempty).
    assert (G3 : guarded (put p (fun c => c <| fullsync_pending := negb cc |>) (commit_ignore active_mode send_at p s2))).
    { eapply keeps_guarded; [|exact G2]. eapply keeps_trans; [apply keeps_commit_ignore|apply keeps_put]. }
    set (s3 := put p _ (commit_ignore active_mode send_at p s2)) in *.
    assert (G4 : guarded (queue_snapshot p ce s3)) by (exact G3). destruct cc.
    + eapply keeps_guarded; [|exact G3]. eapply keeps_trans; [apply keeps_emit|].
      case_decide; [apply keeps_release|apply keeps_gate_on_ack].
    + destruct ok; [exact G4|]. eapply keeps_guarded; [|exact G4]. eapply keeps_trans; [apply keeps_reject|apply keeps_release].
Qed.
Lemma close_guarded p s : inv s -> guarded s -> guarded (close_conn active_mode ctl_open send_at p s).
Proof.
  intros [W L] G. unfold close_conn. cbv zeta. set (s1 := if is_replica p s then _ else s).
  assert (G1 : guarded s1).
  { unfold s1. destruct (is_replica p s) eqn:Ep; [|done]. unfold repl_remove_slave.
    destruct (repl_unlink_replica_locked p s) as [last s'] eqn:E. destruct last; [apply end_guarded|].
    destruct (unlink_winv p s false s' W E) as (_ & _ & Hr & Hl & _). intros _ Hx. rewrite Hr in Hx.
    rewrite Hx, bool_decide_eq_true_2 in Hl; [done|]. apply W. by apply is_replica_flag; [apply W|]. }
  intros Hb. cbn [replicas upd barrier_active] in *. revert Hb.
  destruct active_mode; [|exact G1]. destruct (CommitMaster.find_conn p (gate s1)); exact G1.
Qed.
Lemma broadcast_guarded stalled raw s : inv s -> guarded s -> guarded (repl_broadcast ctl_open stalled raw s).
Proof.
  intros [W L] G. unfold repl_broadcast. case_decide as Hr; [done|].
  destruct (broadcast_loop stalled raw (replicas s) false s) as [ended s'] eqn:E.
  assert (Hi : session_id s <> 0) by (intros H; by apply Hr, L).
  destruct (broadcast_winv stalled raw (replicas s) false s ended s' [] W Hi eq_refl) as (_ & _ & He); [done|done|].
  destruct ended; [apply end_guarded|]. intros _ Hx. by apply He in Hx.
Qed.
Lemma act_guarded a s : inv s -> guarded s -> guarded (act active_mode ctl_open barrier_needed proxy_transport send_at pid a s).
Proof.
  intros I G. destruct a; cbn [act]; try exact G.
  - by apply replsync_guarded.
  - unfold handle_replack. destruct (_ && _); eapply keeps_guarded; try exact G; [|apply keeps_note_applied].
    eapply keeps_trans; [by apply (keeps_ctl CACHE_INVALID 0)|apply keeps_reject].
  - unfold handle_repldone. destruct (is_replica p s); [|done]. eapply keeps_guarded; [apply keeps_release|exact G].
  - by apply close_guarded.
  - by apply broadcast_guarded.
  - eapply keeps_guarded; [apply keeps_tick|done].
  - unfold rearm_tick. cbv zeta. case_decide; [|exact G]. eapply keeps_guarded; [apply keeps_invalidate|exact G].
  - destruct ctl_open; exact G.
Qed.
Lemma reachable_guarded s : reachable active_mode ctl_open barrier_needed proxy_transport send_at pid s -> guarded s.
Proof. induction 1 as [|s a R IH Ha]; [done|]. apply act_guarded; [by apply reachable_inv|done]. Qed.

(** The state in which a REPLSYNC releases the barrier. *)
Lemma replsync_resumes p req cc ok down up e now s : inv s -> is_Some (CommitMaster.find_conn p (gate s)) ->
  barrier_active s = true -> active_mode = true ->
  let s' := handle_replsync active_mode ctl_open barrier_needed proxy_transport send_at pid p req cc ok down up e now s in
  fs s' = 0 -> resumed (resume_global s) s'.
Proof.
  intros I Hp Hb Ha. destruct (inv_barrier _ (proj1 I) Hb) as (Hneed & Ho & H1 & Hv).
  unfold handle_replsync. cbv zeta. set (s0 := if proxy_transport then _ else s).
  assert (K0 : keeps s s0) by (unfold s0; destruct proxy_transport; [apply keeps_put|apply keeps_refl]).
  assert (Hs0 : fs s0 = 1 /\ barrier_active s0 = true /\ resume_global s0 = resume_global s /\ resume_valid s0 = true /\
    gate s0 = gate s) by (unfold s0; by destruct proxy_transport).
  destruct Hs0 as (Hf0 & Hb0 & Hg0 & Hv0 & Hgt). unfold repl_barrier_begin. rewrite Hneed, Hb0. cbn [negb].
  rewrite decide_False by (intros Hx; by apply Hx).
  assert (I2 : inv (repl_add_slave active_mode ctl_open send_at pid now p s0)).
  { apply add_inv; [by eapply keeps_inv|]. rewrite Hgt. apply find_reg; [apply I|done]. }
  assert (Hm : forall t, resume_global (commit_ignore active_mode send_at p t) = resume_global t /\
    resume_valid (commit_ignore active_mode send_at p t) = resume_valid t).
  { intros t. unfold commit_ignore. rewrite Ha. by destruct (CommitMaster.find_conn p (gate t)). }
  assert (Hadd : resume_global (repl_add_slave active_mode ctl_open send_at pid now p s0) = resume_global s0 /\
    resume_valid (repl_add_slave active_mode ctl_open send_at pid now p s0) = resume_valid s0).
  { unfold repl_add_slave. case_decide; [done|]. cbv zeta. case_bool_decide; [|done]. unfold repl_session_begin.
    destruct (fresh_session _ _ _ _) as [sid n]. unfold repl_notify_ebpf_proxy_session, repl_ebpf_client_ctl_set.
    by destruct ctl_open. }
  pose proof (add_nonempty now p s0) as Hne. pose proof (fs_add now p s0) as Hfa.
  set (s2 := repl_add_slave _ _ _ _ _ _ s0) in *. clearbody s2.
  set (s3 := put p _ (commit_ignore active_mode send_at p s2)).
  assert (K3 : keeps s2 s3) by (eapply keeps_trans; [apply keeps_commit_ignore|apply keeps_put]).
  destruct (keeps_inv _ _ K3 I2) as [W3 L3].
  assert (Hi3 : session_id s3 <> 0).
  { intros Hx. apply L3 in Hx. destruct K3 as (K3 & _). rewrite K3 in Hx. done. }
  assert (E3 : fs s3 = 1 /\ resume_global s3 = resume_global s /\ resume_valid s3 = true /\ CommitMaster.session (gate s3) = session_id s3).
  { destruct (Hm s2) as [M1 M2], Hadd as [A1 A2]. split_and!; [| | |apply W3].
    - change (fs s3) with (fs (commit_ignore active_mode send_at p s2)). rewrite fs_ignore. congruence.
    - change (resume_global s3) with (resume_global (commit_ignore active_mode send_at p s2)). congruence.
    - change (resume_valid s3) with (resume_valid (commit_ignore active_mode send_at p s2)). congruence. }
  clearbody s3. destruct E3 as (F3 & G3 & V3 & S3).
  assert (Hrel : forall t, fs t = 1 -> resume_global t = resume_global s -> resume_valid t = true ->
    CommitMaster.session (gate t) = session_id t -> session_id t <> 0 -> fs (release t) = 0 -> resumed (resume_global s) (release t)).
  { intros t T1 T2 T3 T4 T5 T6. rewrite <- T2. by apply fs_release. }
  rewrite Hneed in Hrel.
  destruct cc.
  - case_decide; [by apply Hrel|]. unfold repl_barrier_gate_on_ack. intros Hx. exfalso. revert Hx.
    destruct (negb _); cbn; congruence.
  - destruct ok; [cbn; congruence|]. apply Hrel; rewrite ?fs_reject; try done;
      unfold repl_reject_replica; cbv zeta; destruct (fd_open _); done.
Qed.

Definition confirmed (a : action) (s : st) : Prop :=
  match a with
  | Repldone p => p ∈ replicas s
  | Replack _ applied => ack_gated s = true /\ applied >= end_offset s
  | Replsync _ req cc ok _ _ _ _ => cc = true /\ req >= master_offset s \/ cc = false /\ ok = false
  | _ => False
  end.

Lemma release_confirmed a s : inv s -> barrier_active s = true ->
  fs (act active_mode ctl_open barrier_needed proxy_transport send_at pid a s) = 0 -> confirmed a s.
Proof.
  intros [W L] Hb H0. destruct (inv_barrier _ W Hb) as (Hneed & Ho & H1 & _).
  destruct a; cbn [act confirmed] in *; try (cbn in H0; congruence).
  - revert H0. unfold handle_replsync. cbv zeta. set (s0 := if proxy_transport then _ else s).
    assert (Hs0 : fs s0 = fs s /\ barrier_active s0 = true /\ master_offset s0 = master_offset s)
      by (unfold s0; by destruct proxy_transport).
    destruct Hs0 as (Hf0 & Hb0 & Hm0). unfold repl_barrier_begin. rewrite Hneed, Hb0. cbn [negb].
    rewrite decide_False by (intros Hx; by apply Hx). destruct can_continue.
    + case_decide as Hreq; [left; split; [done|lia]|]. intros H0. exfalso. unfold repl_barrier_gate_on_ack in H0.
      destruct (negb _) in H0; cbn [ctl upd emit put] in H0; rewrite fs_ignore, fs_add in H0; congruence.
    + destruct snapshot_ok; [|by right]. intros H0. exfalso. cbn [ctl upd emit put queue_snapshot] in H0.
      rewrite fs_ignore, fs_add in H0. congruence.
  - revert H0. unfold handle_replack. destruct (_ && _).
    + rewrite fs_reject, fs_ctl by done. congruence.
    + unfold repl_barrier_note_applied. rewrite Hb. cbn [negb orb]. destruct (ack_gated s); cbn [negb]; [|congruence].
      case_decide; [done|congruence].
  - revert H0. unfold handle_repldone. destruct (is_replica p s) eqn:E; [|congruence]. intros _.
    apply W. by apply is_replica_flag; [apply W|].
  - revert H0. unfold close_conn. cbv zeta. cbn [ctl upd].
    set (s1 := if is_replica p s then _ else s). assert (Hf : fs s1 = fs s) by (unfold s1; destruct (is_replica p s); [apply fs_remove|done]).
    destruct active_mode; [destruct (CommitMaster.find_conn p (gate s1)); cbn|]; congruence.
  - revert H0. unfold repl_broadcast. case_decide; [congruence|].
    pose proof (fs_broadcast stalled raw (replicas s) false s) as Hf.
    destruct (broadcast_loop stalled raw (replicas s) false s) as [[] s1]; cbn [snd] in Hf; rewrite ?fs_end; congruence.
  - revert H0. unfold repl_barrier_tick. destruct (_ || _); [congruence|]. case_decide; [congruence|].
    rewrite fs_invalidate, fs_cancel. congruence.
  - revert H0. unfold rearm_tick. cbv zeta. case_decide; rewrite ?fs_invalidate; cbn; congruence.
  - revert H0. rewrite Ho. cbn [ctl upd]. rewrite decide_False by done. congruence.
Qed.

(** *** What a timeout does *)

Lemma cut_off_conns ps s p : ebpf_tcp (get p s) = true -> p ∈ ps \/ draining (get p s) = true ->
  draining (get p (fold_left cut_off ps s)) = true.
Proof.
  revert s. induction ps as [|q ps IH]; intros s He Hp; cbn [fold_left].
  { destruct Hp as [Hp|Hp]; [by apply not_elem_of_nil in Hp|done]. }
  assert (Hget : forall f r, get r (put q f s) = if decide (r = q) then f (get q s) else get r s).
  { intros f r. unfold get, put. cbn [conns upd]. case_decide as E; [subst; by rewrite lookup_insert_eq|].
    by rewrite lookup_insert_ne. }
  set (s1 := put q (fun c => c <| draining := true |> <| recovery_mode := 0 |>) s).
  assert (Hs1 : forall r, get r (cut_off s q) = if ebpf_tcp (get q s) then get r s1 else get r s).
  { intros r. unfold cut_off. destruct (ebpf_tcp (get q s)); [|done]. cbv zeta. by destruct (fd_open _). }
  apply IH; rewrite Hs1; unfold s1; destruct (ebpf_tcp (get q s)) eqn:Eq; rewrite ?Hget; try case_decide; subst; try done.
  - by right.
  - destruct Hp as [Hp|Hp]; [|by right]. apply elem_of_cons in Hp as [->|Hp]; [done|by left].
  - destruct Hp as [Hp|Hp]; [|by right]. apply elem_of_cons in Hp as [->|Hp]; [congruence|by left].
Qed.

Lemma cut_off_frame ps s : gate (fold_left cut_off ps s) = gate s /\
  ctl (fold_left cut_off ps s) = ctl s /\ replicas (fold_left cut_off ps s) = replicas s /\
  barrier_active (fold_left cut_off ps s) = barrier_active s /\ last_reason (fold_left cut_off ps s) = last_reason s.
Proof.
  revert s. induction ps as [|q ps IH]; intros s; cbn [fold_left]; [done|].
  destruct (IH (cut_off s q)) as (-> & -> & -> & -> & ->). unfold cut_off. destruct (ebpf_tcp _); [|done].
  cbv zeta. by destruct (fd_open _).
Qed.

End Invariant.

Section Theorems.

Context (active_mode ctl_open barrier_needed proxy_transport : bool) (send_at : nat -> CommitMaster.send_rc) (pid : Z).

Abbreviation reach := (reachable active_mode ctl_open barrier_needed proxy_transport send_at pid).
Abbreviation step := (act active_mode ctl_open barrier_needed proxy_transport send_at pid).

(** C32: whatever connections come, resync, fail, drain and close, a session is
    live exactly while there are replicas; the gate and the proxy's control map
    carry its number; the proxy captures only while a session is live; the list
    of replicas holds every replica connection once and none that is closed; and
    while the barrier is up the proxy is told to buffer. *)
Theorem session_invariant s : reach s ->
  (replicas s = [] <-> session_id s = 0) /\
  CommitMaster.session (gate s) = session_id s /\
  NoDup (replicas s) /\ (forall p, p ∈ replicas s <-> is_replica p s = true) /\
  (ctl_open = true -> ctl s SESSION_ID = session_id s /\
     (ctl s SESSION_VALID = 1 <-> session_id s <> 0) /\ (ctl s CAPTURE_ENABLE = 1 -> session_id s <> 0)) /\
  (barrier_active s = true -> ctl s FULLSYNC_STATE = 1).
Proof.
  intros R. destruct (reachable_inv _ _ _ _ _ _ _ R) as [W L].
  split_and!; [apply L|apply W|apply W| | |].
  - intros p. rewrite is_replica_flag by apply W. apply W.
  - intros Ho. destruct (inv_ctl _ _ _ W Ho) as (H1 & H2 & H3). split_and!; [done| |].
    + rewrite H2. case_decide; split; done.
    + intros Hc. destruct H3 as [H3|[_ H3]]; [congruence|done].
  - intros Hb. by destruct (inv_barrier _ _ _ W Hb) as (_ & _ & ? & _).
Qed.

(** C33: once the barrier is up, the proxy is told to go on only by a REPLDONE
    of a replica, by an acknowledgement that reaches the barrier's offset, or by
    a REPLSYNC that has nothing to catch up or whose snapshot could not be sent;
    no write, broadcast, timeout, channel loss, closed connection or failed
    barrier does it.  With the commit gate on, whichever of these it was, a RESUME
    message with the marker the barrier recorded went out on the commit channel
    first, as the last message there. *)
Theorem barrier_release_confirmed s a : reach s -> allowed a s -> barrier_active s = true ->
  ctl (step a s) FULLSYNC_STATE = 0 ->
  confirmed a s /\ (active_mode = true -> resumed (resume_global s) (step a s)).
Proof.
  intros R Hal Hb H0. pose proof (reachable_inv _ _ _ _ _ _ _ R) as I.
  pose proof (release_confirmed _ _ _ _ _ _ a s I Hb H0) as Hc. split; [done|].
  intros Ha. pose proof I as [W L]. destruct (inv_barrier _ _ _ W Hb) as (Hneed & Ho & H1 & Hv).
  assert (Hi : session_id s <> 0).
  { intros Hx. apply L in Hx. by apply (reachable_guarded _ _ _ _ _ _ _ R) in Hx. }
  assert (Hg : CommitMaster.session (gate s) = session_id s) by apply W.
  destruct a; try done; cbn [act allowed] in *.
  - by apply replsync_resumes.
  - revert H0. unfold handle_replack. destruct (_ && _); [rewrite fs_reject, fs_ctl by done; congruence|].
    unfold repl_barrier_note_applied. destruct (_ || _); [congruence|]. case_decide; [|congruence].
    intros H0. by apply fs_release.
  - revert H0. unfold handle_repldone. destruct (is_replica p s); [|congruence]. cbv zeta.
    match goal with |- ctl (repl_barrier_release _ _ _ _ ?t) _ = 0 -> _ => intros H0; by apply (fs_release _ _ _ _ t) end.
Qed.

(** C34: when a replica does not acknowledge in time, the master gives up
    without letting the proxy go on: nothing is sent on the commit channel, the
    proxy stays told to buffer, capture is off, and every replica the proxy feeds
    is draining. *)
Theorem barrier_timeout_fails_closed s now : reach s ->
  barrier_active s = true -> ack_gated s = true -> deadline s <> 0 -> deadline s <= now ->
  let s' := step (Tick now) s in
  barrier_active s' = false /\ ctl s' FULLSYNC_STATE = 1 /\ ctl s' CAPTURE_ENABLE = 0 /\
  CommitMaster.out (gate s') = CommitMaster.out (gate s) /\ last_reason s' = REPL_INVALID_BARRIER_TIMEOUT /\
  replicas s' = replicas s /\
  forall p, p ∈ replicas s -> ebpf_tcp (get p s) = true -> draining (get p s') = true.
Proof.
  intros R Hb Ha Hd Hn. cbv zeta. destruct (reachable_inv _ _ _ _ _ _ _ R) as [W L].
  destruct (inv_barrier _ _ _ W Hb) as (Hneed & Ho & H1 & Hv).
  cbn [act]. unfold repl_barrier_tick. rewrite Hb, Ha, bool_decide_eq_false_2 by done. cbn [negb orb].
  rewrite decide_False by lia. unfold repl_session_invalidate, repl_barrier_cancel. rewrite Hb, Hv.
  cbn [negb andb]. cbv zeta. rewrite decide_True by done.
  match goal with |- context [fold_left cut_off (replicas ?t) ?t] => set (t1 := t) end.
  destruct (cut_off_frame (replicas t1) t1) as (-> & -> & -> & -> & ->).
  assert (Hr : replicas t1 = replicas s).
  { unfold t1, repl_ebpf_set_capture_enable, repl_ebpf_client_ctl_set. by rewrite Ho. }
  split_and!; try (unfold t1, repl_ebpf_set_capture_enable, repl_ebpf_client_ctl_set; rewrite Ho; done).
  intros p Hp He. apply cut_off_conns; [|left; by rewrite Hr].
  unfold t1, repl_ebpf_set_capture_enable, repl_ebpf_client_ctl_set. by rewrite Ho.
Qed.

End Theorems.

(** ** Runs in numbers *)

Definition client (k : Z) : CommitMaster.conn := CommitMaster.Conn false false k 0 0 0 0 false 0.
Definition gate0 : CommitMaster.st :=
  CommitMaster.St true 0 0 0 [] 0 0 0 [] [] false false false 0 0 [].
Definition state0 : st := St [] ∅ (fun _ => 0) gate0 0 0 1000 false false 0 0 false 0 false 0 0 [].
Definition send_ok (_ : nat) : CommitMaster.send_rc := CommitMaster.SOk.
Abbreviation step0 := (act true true true true send_ok 7).
Abbreviation reach0 := (reachable true true true true send_ok 7).

Lemma reach_run l s : reach0 s ->
  (fix ok l s := match l with [] => True | a :: r => allowed a s /\ ok r (step0 a s) end) l s ->
  reach0 (fold_left (fun s a => step0 a s) l s).
Proof. revert s. induction l as [|a l IH]; intros s R Hl; [done|]. destruct Hl. apply IH; [by constructor|done]. Qed.

(** A replica 200 bytes behind is resynced from the backlog; the barrier is up. *)
Definition catching_up : list action :=
  [Accept 1 (client 11); Accept 2 (client 12); Replsync 2 800 true true [] [0; 1] None 5000].
Definition state1 : st := fold_left (fun s a => step0 a s) catching_up state0.
Lemma state1_reach : reach0 state1.
Proof.
  apply reach_run; [by apply reach_init|]. split; [done|]. split; [done|]. split; [|done]. vm_compute. by eexists.
Qed.

Lemma session_invariant_witness : reach0 state1 /\ replicas state1 = [2%nat] /\ session_id state1 <> 0 /\
  ctl state1 CAPTURE_ENABLE = 1 /\ ctl state1 FULLSYNC_STATE = 1.
Proof.
  pose proof (session_invariant true true true true send_ok 7 state1 state1_reach) as (H1 & _ & _ & _ & H5 & H6).
  split_and!; [exact state1_reach|vm_compute; reflexivity| |vm_compute; reflexivity|].
  - apply H5; vm_compute; reflexivity.
  - apply H6. vm_compute. reflexivity.
Defined.

Lemma barrier_release_confirmed_witness :
  ctl (step0 (Replack 2 1000) state1) FULLSYNC_STATE = 0 /\ confirmed (Replack 2 1000) state1 /\
  ctl (step0 (Replack 2 999) state1) FULLSYNC_STATE = 1.
Proof.
  split_and!; [vm_compute; reflexivity| |vm_compute; reflexivity].
  refine (proj1 (barrier_release_confirmed true true true true send_ok 7 state1 (Replack 2 1000) state1_reach I _ _));
    vm_compute; reflexivity.
Defined.

Lemma barrier_timeout_fails_closed_witness :
  deadline state1 = 20000 /\ ctl (step0 (Tick 20000) state1) FULLSYNC_STATE = 1 /\
  draining (get 2 (step0 (Tick 20000) state1)) = true.
Proof.
  pose proof (barrier_timeout_fails_closed true true true true send_ok 7 state1 20000 state1_reach
    eq_refl eq_refl ltac:(vm_compute; discriminate) ltac:(vm_compute; discriminate)) as (_ & H2 & _ & _ & _ & _ & H7).
  split_and!; [vm_compute; reflexivity|exact H2|]. apply H7; [|vm_compute; reflexivity].
  vm_compute. apply list_elem_of_here.
Defined.

(** *** What goes wrong with two replicas

    Replica 1 needs a snapshot while replica 2 is catching up: the barrier is
    still the one of replica 2, and the acknowledgement of replica 2 lowers it
    while replica 1 is still loading its snapshot. *)
Definition state2 : st := step0 (Replsync 1 0 false true [] [] None 6000) state1.
Example barrier_shared_by_two_replicas :
  fullsync_pending (get 1 state2) = true /\ ctl state2 FULLSYNC_STATE = 1 /\
  let s := step0 (Replack 2 1000) state2 in
  fullsync_pending (get 1 s) = true /\ ctl s FULLSYNC_STATE = 0.
Proof. vm_compute. split_and!; reflexivity. Qed.

(** A snapshot that cannot be sent leaves the flag that stops broadcasts set:
    nothing is forwarded to the other replicas any more. *)
Example failed_snapshot_stops_broadcast :
  let tcp := act false false false false send_ok 7 in
  let s := fold_left (fun s a => tcp a s)
    [Accept 1 (client 11); Accept 2 (client 12); Replsync 2 1000 true true [] [] None 5000;
     Replsync 1 0 false false [] [] None 5000; Close 1] state0 in
  replicas s = [2%nat] /\ fullsync_in_progress s = true /\
  out (tcp (Broadcast (fun _ => false) [1; 2; 3]) s) = out s.
Proof. vm_compute. split_and!; reflexivity. Qed.

End Session.
