(* ===== verification/ProxyCache.v ===== *)
(** * ProxyCache: the proxy's cache of a replication session

    [src/ebpf_proxy/proxy_cache.c].  Writes that cannot be sent at once are kept
    in a list, each with the session that produced it; a flush sends those of
    the current session in order and drops the others, and a cache that reaches
    its hard limit gives up the whole session rather than lose a part of it.

    The list of nodes is a list; [send] answers from a list of answers, one per
    call, and the bytes it took are the output.  A flush that is still waiting
    when the answers end returns nothing. *)

From S2P Require Import Prelude.

Module ProxyCache.

Definition PROXY_CACHE_MAX_BYTES : Z := 256 * 1024 * 1024.
Definition PROXY_CACHE_HIGH_BYTES : Z := 192 * 1024 * 1024.
Definition PROXY_CACHE_LOW_BYTES : Z := 128 * 1024 * 1024.
Definition CACHE_APPEND_OK : Z := 0.
Definition CACHE_APPEND_FAIL : Z := -1.
Definition CACHE_APPEND_FULL : Z := -2.

Record node := Node { n_session : Z; n_data : bytes }.
Definition n_len (n : node) : Z := Z.of_nat (length (n_data n)).

Record cache := Cache {
  nodes : list node;
  total_bytes : Z; node_count : Z; dropped : Z; drop_bytes : Z; hard_hit : Z; max_bytes : Z;
  over_high : bool; invalid : bool }.
#[export] Instance eta_cache : Eta cache :=
  fun c => Cache (nodes c) (total_bytes c) (node_count c) (dropped c) (drop_bytes c) (hard_hit c)
    (max_bytes c) (over_high c) (invalid c).

Definition cache_init : cache := Cache [] 0 0 0 0 0 0 false false.

(** The head node leaves, counted as dropped or as sent. *)
Definition unlink_head (drop : bool) (c : cache) : cache :=
  match nodes c with
  | [] => c
  | n :: r =>
      let c := c <| nodes := r |> <| total_bytes ::= fun t => u64 (t - n_len n) |>
                 <| node_count ::= fun t => u64 (t - 1) |> in
      if drop then c <| dropped ::= fun t => u64 (t + 1) |> <| drop_bytes ::= fun t => u64 (t + n_len n) |>
      else c
  end.
Fixpoint cache_drop_head (n : nat) (c : cache) : cache :=
  match n with
  | O => c
  | S n' => match nodes c with [] => c | _ => cache_drop_head n' (unlink_head true c) end
  end.
(** The count passed is the largest [size_t]; the list is shorter. *)
Definition cache_clear (c : cache) : cache :=
  (cache_drop_head (length (nodes c)) c)
    <| nodes := [] |> <| total_bytes := 0 |> <| node_count := 0 |> <| over_high := false |>.

Definition cache_append (malloc_ok : bool) (data : bytes) (sid : Z) (c : cache) : Z * cache :=
  let len := Z.of_nat (length data) in
  if decide (len = 0) then (CACHE_APPEND_FAIL, c)
  else if invalid c then (CACHE_APPEND_FULL, c)
  else if decide (u64 (total_bytes c + len) > PROXY_CACHE_MAX_BYTES) then
    (CACHE_APPEND_FULL,
     (cache_clear c) <| invalid := true |> <| hard_hit ::= fun t => u64 (t + 1) |>)
  else if negb malloc_ok then (CACHE_APPEND_FAIL, c)
  else
    let c := c <| nodes ::= fun l => l ++ [Node sid data] |>
               <| total_bytes ::= fun t => u64 (t + len) |> <| node_count ::= fun t => u64 (t + 1) |> in
    let c := if decide (total_bytes c > max_bytes c) then c <| max_bytes := total_bytes c |> else c in
    let c := if negb (over_high c) && bool_decide (total_bytes c >= PROXY_CACHE_HIGH_BYTES)
             then c <| over_high := true |>
             else if over_high c && bool_decide (total_bytes c <= PROXY_CACHE_LOW_BYTES)
             then c <| over_high := false |> else c in
    (CACHE_APPEND_OK, c).

Definition cache_over_high (c : cache) : bool := over_high c.
Definition cache_is_invalid (c : cache) : bool := invalid c.
Definition cache_reset_for_new_session (c : cache) : cache := (cache_clear c) <| invalid := false |>.
Definition cache_destroy (c : cache) : cache := cache_init.
Definition cache_stats (c : cache) : Z * Z * Z := (dropped c, drop_bytes c, max_bytes c).

(** ** Sending *)

(** What [send] answers: some bytes (at least one) taken, an interrupt, a full
    socket, an error. *)
Inductive send_rc := STook (n : nat) | SIntr | SAgain | SError.

(** [send_full]: the result, what went out, and the answers left. *)
Fixpoint send_full (answers : list send_rc) (data : bytes) : option (bool * bytes * list send_rc) :=
  match data, answers with
  | [], _ => Some (true, [], answers)
  | _, [] => None
  | _, STook n :: r =>
      match send_full r (drop (S n) data) with
      | Some (ok, o, r') => Some (ok, take (S n) data ++ o, r')
      | None => None
      end
  | _, SIntr :: r | _, SAgain :: r => send_full r data
  | _, SError :: r => Some (false, [], r)
  end.

(** The walk over the list; [ns] are the nodes from the current one on.  Every
    node that is passed is unlinked, so the nodes before it are gone. *)
Fixpoint flush_loop (sid : Z) (answers : list send_rc) (ns : list node) (c : cache) :
    option (Z * bytes * cache) :=
  match ns with
  | [] => Some (0, [], c)
  | n :: r =>
      if decide (n_session n <> sid) then flush_loop sid answers r (unlink_head true c)
      else
        match send_full answers (n_data n) with
        | None => None
        | Some (false, o, _) => Some (0, o, c)
        | Some (true, o, answers') =>
            match flush_loop sid answers' r (unlink_head false c) with
            | Some (k, o', c') => Some (k + 1, o ++ o', c')
            | None => None
            end
        end
  end.
(** The water mark after a flush. *)
Definition settle (c : cache) : cache :=
  match nodes c with
  | [] => c <| total_bytes := 0 |> <| node_count := 0 |> <| over_high := false |>
  | _ => if decide (total_bytes c <= PROXY_CACHE_LOW_BYTES) then c <| over_high := false |> else c
  end.
Definition cache_flush (fd_ok : bool) (sid : Z) (answers : list send_rc) (c : cache) :
    option (Z * bytes * cache) :=
  if negb fd_ok then Some (-1, [], c)
  else
    match flush_loop sid answers (nodes c) c with
    | None => None
    | Some (sent, o, c) => Some (sent, o, settle c)
    end.

(** ** The invariant *)

Definition sum (l : list node) : Z := foldr (fun n t => n_len n + t) 0 l.
Record wf (c : cache) : Prop := {
  wf_nonempty : Forall (fun n => n_data n <> []) (nodes c);
  wf_total : total_bytes c = sum (nodes c);
  wf_count : node_count c = Z.of_nat (length (nodes c));
  wf_max : total_bytes c <= PROXY_CACHE_MAX_BYTES;
  wf_invalid : invalid c = true -> nodes c = [];
  wf_high : PROXY_CACHE_HIGH_BYTES <= total_bytes c -> over_high c = true;
  wf_low : over_high c = true -> PROXY_CACHE_LOW_BYTES < total_bytes c }.

Lemma sum_cons n l : sum (n :: l) = n_len n + sum l.
Proof. done. Qed.
Lemma sum_app l1 l2 : sum (l1 ++ l2) = sum l1 + sum l2.
Proof. unfold sum. induction l1; cbn [foldr app]; lia. Qed.
Lemma sum_nonneg l : 0 <= sum l.
Proof. unfold sum. induction l; cbn [foldr]; unfold n_len in *; lia. Qed.
Lemma sum_count l : Forall (fun n => n_data n <> []) l -> Z.of_nat (length l) <= sum l.
Proof.
  induction 1 as [|n l Hn _ IH]; [done|]. rewrite sum_cons. cbn [length].
  unfold n_len. destruct (n_data n); [done|]. cbn [length]. lia.
Qed.

Lemma init_wf : wf cache_init.
Proof. constructor; try done. Qed.

Lemma drop_all_flags n c : invalid (cache_drop_head n c) = invalid c /\ max_bytes (cache_drop_head n c) = max_bytes c.
Proof.
  revert c. induction n as [|n IH]; intros c; cbn [cache_drop_head]; [done|].
  destruct (nodes c) eqn:Hn; [done|]. destruct (IH (unlink_head true c)) as [-> ->].
  unfold unlink_head. by rewrite Hn.
Qed.
Lemma clear_wf c : wf (cache_clear c) /\ invalid (cache_clear c) = invalid c /\ nodes (cache_clear c) = [].
Proof.
  destruct (drop_all_flags (length (nodes c)) c) as [Hi _]. split_and!; [|exact Hi|done].
  constructor; cbn; try done.
Qed.

(** The head leaves: the counters stay exact. *)
Definition exact (c : cache) : Prop :=
  Forall (fun n => n_data n <> []) (nodes c) /\ total_bytes c = sum (nodes c) /\
  node_count c = Z.of_nat (length (nodes c)) /\ total_bytes c <= PROXY_CACHE_MAX_BYTES.
Lemma unlink_exact d c n r : exact c -> nodes c = n :: r ->
  exact (unlink_head d c) /\ nodes (unlink_head d c) = r /\
  total_bytes (unlink_head d c) <= total_bytes c /\
  invalid (unlink_head d c) = invalid c /\ over_high (unlink_head d c) = over_high c.
Proof.
  intros (Hne & Ht & Hc & Hm) Hn. unfold unlink_head, exact. rewrite Hn in *. pose proof (sum_nonneg r).
  pose proof (sum_count _ Hne) as Hk. apply Forall_cons in Hne as [_ Hne].
  rewrite sum_cons in *. cbn [length] in *. unfold n_len, PROXY_CACHE_MAX_BYTES in *.
  assert (u64 (total_bytes c - Z.of_nat (length (n_data n))) = sum r) as H1 by (rewrite u64_small; lia).
  assert (u64 (node_count c - 1) = Z.of_nat (length r)) as H2 by (rewrite u64_small; lia).
  destruct d; cbn; rewrite H1, H2; split_and!; try done; lia.
Qed.

(** A buffer that C can have. *)
Definition data_ok (data : bytes) : Prop := Z.of_nat (length data) < 2 ^ 63.

Lemma append_spec ok data sid c rc c' : wf c -> data_ok data -> cache_append ok data sid c = (rc, c') ->
  wf c' /\
  ((rc = CACHE_APPEND_OK /\ invalid c' = false /\ nodes c' = nodes c ++ [Node sid data]) \/
   (rc = CACHE_APPEND_FAIL /\ c' = c) \/
   (rc = CACHE_APPEND_FULL /\ invalid c' = true)).
Proof.
  intros Hw Hd. unfold cache_append, data_ok in *. case_decide as H0; [intros [= <- <-]; split; [done|]; auto|].
  destruct (invalid c) eqn:Hi; [intros [= <- <-]; split; [done|]; auto|].
  case_decide as Hx.
  { intros [= <- <-]. destruct (clear_wf c) as ([] & _ & Hn). split; [constructor; cbn; try done|]. auto. }
  destruct ok; cbn [negb]; [|intros [= <- <-]; split; [done|]; auto].
  destruct Hw as [Hne Ht Hc Hm Hinv Hh Hl]. pose proof (sum_nonneg (nodes c)).
  pose proof (sum_count _ Hne). unfold PROXY_CACHE_MAX_BYTES in *.
  rewrite u64_small in Hx by lia.
  set (c1 := c <| nodes ::= _ |> <| total_bytes ::= _ |> <| node_count ::= _ |>).
  assert (HE : nodes c1 = nodes c ++ [Node sid data] /\ total_bytes c1 = total_bytes c + Z.of_nat (length data) /\
    node_count c1 = node_count c + 1 /\ over_high c1 = over_high c /\ invalid c1 = false).
  { split_and!; [done|apply u64_small; lia|apply u64_small; lia|done|done]. }
  clearbody c1. destruct HE as (E1 & E2 & E3 & E4 & E5).
  set (c2 := if decide (total_bytes c1 > max_bytes c1) then _ else _).
  assert (HF : nodes c2 = nodes c1 /\ total_bytes c2 = total_bytes c1 /\ node_count c2 = node_count c1 /\
    over_high c2 = over_high c1 /\ invalid c2 = invalid c1) by (subst c2; by case_decide).
  clearbody c2. destruct HF as (F1 & F2 & F3 & F4 & F5). rewrite F2, F4, E2, E4.
  intros [= <- <-].
  assert (Hwf : forall b c3, nodes c3 = nodes c2 -> total_bytes c3 = total_bytes c2 -> node_count c3 = node_count c2 ->
    invalid c3 = invalid c2 -> over_high c3 = b ->
    (PROXY_CACHE_HIGH_BYTES <= total_bytes c + Z.of_nat (length data) -> b = true) ->
    (b = true -> PROXY_CACHE_LOW_BYTES < total_bytes c + Z.of_nat (length data)) -> wf c3).
  { intros b c3 G1 G2 G3 G4 G5 G6 G7. constructor; rewrite ?G1, ?G2, ?G3, ?G4, ?G5, ?F1, ?F2, ?F3, ?F5, ?E1, ?E2, ?E3, ?E5; try done.
    - apply Forall_app. split; [done|]. repeat constructor. cbn. intros ->. cbn in H0. lia.
    - rewrite sum_app, sum_cons. unfold n_len. cbn [n_data sum foldr]. lia.
    - rewrite length_app. cbn [length]. lia.
  }
  unfold PROXY_CACHE_HIGH_BYTES, PROXY_CACHE_LOW_BYTES in *.
  split.
  - destruct (over_high c) eqn:Ho; cbn [negb andb].
    + case_bool_decide; [apply (Hwf false)|apply (Hwf true)]; try done; try congruence; unfold PROXY_CACHE_HIGH_BYTES, PROXY_CACHE_LOW_BYTES; lia.
    + case_bool_decide; [apply (Hwf true)|apply (Hwf false)]; try done; try congruence; unfold PROXY_CACHE_HIGH_BYTES, PROXY_CACHE_LOW_BYTES; lia.
  - left. split; [done|]. destruct (over_high c); cbn [negb andb]; case_bool_decide; split; try done; cbn; congruence.
Qed.

(** ** The flush *)

Lemma send_full_spec answers : forall data ok o r, send_full answers data = Some (ok, o, r) ->
  if ok then o = data else exists q, q <> [] /\ data = o ++ q.
Proof.
  induction answers as [|a answers IH]; intros [|x data] ok o r H; cbn [send_full] in H; try done;
    try (injection H as <- <- _; done).
  destruct a as [n| | |]; [|by apply IH in H..|].
  - destruct (send_full answers (drop (S n) (x :: data))) as [[[ok' o'] r']|] eqn:He; [|done].
    injection H as <- <- _. apply IH in He. destruct ok'.
    + rewrite He. apply (take_drop (S n) (x :: data)).
    + destruct He as (q & Hq & He). exists q. split; [done|].
      cbn [app drop] in *. by rewrite <- app_assoc, <- He, take_drop.
  - injection H as <- <- _. by exists (x :: data).
Qed.

Definition mine (sid : Z) (l : list node) : list node := filter (fun n => n_session n = sid) l.
Definition payload (l : list node) : bytes := concat (map n_data l).

(** What a flush takes off the list, what it leaves, and what went out: the data
    of the session's nodes taken, and a proper prefix of the node it got stuck
    on. *)
Definition flushed (sid : Z) (ns rest : list node) (k : Z) (o : bytes) : Prop :=
  exists gone part, ns = gone ++ rest /\ k = Z.of_nat (length (mine sid gone)) /\
    o = payload (mine sid gone) ++ part /\
    match rest with
    | [] => part = []
    | n :: _ => n_session n = sid /\ exists q, q <> [] /\ n_data n = part ++ q
    end.

Lemma flush_loop_spec sid ns : forall answers c k o c', exact c -> nodes c = ns ->
  flush_loop sid answers ns c = Some (k, o, c') ->
  exact c' /\ invalid c' = invalid c /\ over_high c' = over_high c /\ total_bytes c' <= total_bytes c /\
  flushed sid ns (nodes c') k o.
Proof.
  induction ns as [|n ns IH]; intros answers c k o c' He Hn; cbn [flush_loop].
  - intros [= <- <- <-]. split_and!; try done. exists [], []. by rewrite Hn.
  - case_decide as Hs.
    + intros H. destruct (unlink_exact true c n ns He Hn) as (He' & Hn' & Ht & Hi & Ho).
      apply IH in H as (E1 & E2 & E3 & E4 & gone & part & -> & -> & -> & Hr); [|done..].
      rewrite E2, E3. split_and!; try done; [lia|]. exists (n :: gone), part.
      unfold mine. rewrite filter_cons_False by done. by split_and!.
    + destruct (send_full answers (n_data n)) as [[[[] o1] r1]|] eqn:Hsf; [| |done].
      * destruct (flush_loop sid r1 ns (unlink_head false c)) as [[[k1 o2] c1]|] eqn:Hl; [|done].
        intros [= <- <- <-]. destruct (unlink_exact false c n ns He Hn) as (He' & Hn' & Ht & Hi & Ho).
        apply IH in Hl as (E1 & E2 & E3 & E4 & gone & part & -> & -> & -> & Hr); [|done..].
        rewrite E2, E3. split_and!; try done; [lia|]. exists (n :: gone), part.
        apply send_full_spec in Hsf as ->. unfold mine. rewrite filter_cons_True by done.
        split_and!; try done; [cbn [length]; lia|]. unfold payload. cbn. by rewrite app_assoc.
      * intros [= <- <- <-]. split_and!; try done. rewrite Hn. exists [], o1. split_and!; try done.
        by apply send_full_spec in Hsf.
Qed.

Lemma settle_wf c : exact c -> (invalid c = true -> nodes c = []) ->
  (PROXY_CACHE_HIGH_BYTES <= total_bytes c -> over_high c = true) ->
  wf (settle c) /\ invalid (settle c) = invalid c /\ nodes (settle c) = nodes c.
Proof.
  intros (E1 & E2 & E3 & E4) Hi Hh. unfold settle. destruct (nodes c) as [|n r] eqn:Hn.
  - split_and!; [|done|done]. constructor; cbn; rewrite ?Hn; try done.
  - case_decide as Hl; (split_and!; [|done|done]);
      constructor; cbn [nodes total_bytes node_count invalid over_high upd]; rewrite ?Hn; try done;
      unfold PROXY_CACHE_HIGH_BYTES, PROXY_CACHE_LOW_BYTES in *; try lia.
Qed.

(** A flush that returns has taken a first part of the list off: of these
    nodes it sent exactly the ones of the session, whole and in order, and
    dropped the others; it returns how many it sent.  If it did not get to the
    end, it stopped at a node of the session of which only a proper prefix went
    out, and that node and all after it are still there.  The counters and the
    water mark are exact again. *)
Theorem cache_flush_exact sid answers c k o c' :
  wf c -> cache_flush true sid answers c = Some (k, o, c') ->
  wf c' /\ invalid c' = invalid c /\
  exists gone part, nodes c = gone ++ nodes c' /\ k = Z.of_nat (length (mine sid gone)) /\
    o = concat (map n_data (mine sid gone)) ++ part /\
    match nodes c' with
    | [] => part = []
    | n :: _ => n_session n = sid /\ exists q, q <> [] /\ n_data n = part ++ q
    end.
Proof.
  intros [Hne Ht Hc Hm Hinv Hh Hl] H. unfold cache_flush in H. cbn [negb] in H.
  destruct (flush_loop sid answers (nodes c) c) as [[[k1 o1] c1]|] eqn:Hf; [|done].
  apply flush_loop_spec in Hf as ((E1 & E2 & E3 & E4) & Hi & Ho & Hle & Hfl); [|by split_and!|done].
  injection H as <- <- <-.
  destruct (settle_wf c1) as (Hw & Hi' & Hn').
  - by split_and!.
  - rewrite Hi. intros Hx. rewrite (Hinv Hx) in Hfl. destruct Hfl as (gone & part & Hg & _).
    symmetry in Hg. by apply app_eq_nil in Hg as [_ ->].
  - rewrite Ho. intros. apply Hh. lia.
  - rewrite Hi', Hn'. by split_and!.
Qed.

(** ** A session *)

Inductive op :=
  | OAppend (malloc_ok : bool) (data : bytes)
  | OFlush (answers : list send_rc).

(** What the cache accepted, and for every flush the number of pieces it
    returned and the bytes [send] took during it, in order. *)
Record history := History { accepted : list bytes; flushes : list (Z * bytes) }.

Fixpoint run (sid : Z) (ops : list op) (h : history) (c : cache) : option (history * cache) :=
  match ops with
  | [] => Some (h, c)
  | OAppend ok data :: r =>
      let '(rc, c') := cache_append ok data sid c in
      run sid r (if decide (rc = CACHE_APPEND_OK)
                 then History (accepted h ++ [data]) (flushes h) else h) c'
  | OFlush answers :: r =>
      match cache_flush true sid answers c with
      | None => None
      | Some (k, o, c') => run sid r (History (accepted h) (flushes h ++ [(k, o)])) c'
      end
  end.
Definition op_ok (o : op) : Prop := match o with OAppend _ data => data_ok data | OFlush _ => True end.

(** The pieces a list of flushes reported as sent. *)
Definition reported (fs : list (Z * bytes)) : nat := sum_list (map (fun f => Z.to_nat f.1) fs).

(** A flush after [n] pieces had been reported: it put on the wire the next
    [k] accepted pieces, whole and in order, then at most a proper first part of
    the piece after them. *)
Definition flush_sent (A : list bytes) (n k : nat) (o : bytes) : Prop :=
  (n + k <= length A)%nat /\
  exists part, o = concat (take k (drop n A)) ++ part /\
    (part = [] \/ exists piece q, A !! (n + k)%nat = Some piece /\ q <> [] /\ piece = part ++ q).
Definition flushes_sent (A : list bytes) (fs : list (Z * bytes)) : Prop :=
  forall l k o r, fs = l ++ (k, o) :: r -> flush_sent A (reported l) (Z.to_nat k) o.

Definition in_session (sid : Z) (h : history) (c : cache) : Prop :=
  wf c /\ Forall (fun n => n_session n = sid) (nodes c) /\ flushes_sent (accepted h) (flushes h) /\
  (reported (flushes h) <= length (accepted h))%nat /\
  (invalid c = false -> drop (reported (flushes h)) (accepted h) = map n_data (nodes c)).

Lemma reported_app l1 l2 : reported (l1 ++ l2) = (reported l1 + reported l2)%nat.
Proof. unfold reported. rewrite map_app. induction (map _ l1); cbn; lia. Qed.
Lemma reported_snoc l k o : reported (l ++ [(k, o)]) = (reported l + Z.to_nat k)%nat.
Proof. rewrite reported_app. unfold reported. cbn. lia. Qed.

Lemma flush_sent_app A B n k o : flush_sent A n k o -> flush_sent (A ++ B) n k o.
Proof.
  intros [Hn (part & -> & Hp)]. split; [rewrite length_app; lia|]. exists part. split.
  - rewrite drop_app_le by lia. by rewrite take_app_le by (rewrite length_drop; lia).
  - destruct Hp as [->|(piece & q & Hl & Hq & ->)]; [by left|]. right. exists (part ++ q), q.
    split_and!; try done. by apply lookup_app_l_Some.
Qed.
Lemma flushes_sent_snoc A fs k o : flushes_sent A fs -> flush_sent A (reported fs) (Z.to_nat k) o ->
  flushes_sent A (fs ++ [(k, o)]).
Proof.
  intros H Hn l k' o' r He. destruct r as [|x r _] using rev_ind.
  - by apply app_inj_tail in He as [-> [= -> ->]].
  - rewrite app_comm_cons, app_assoc in He. apply app_inj_tail in He as [He _]. by eapply H.
Qed.

Lemma mine_all sid l : Forall (fun n => n_session n = sid) l -> mine sid l = l.
Proof.
  unfold mine. induction 1 as [|n l Hn _ IH]; [done|]. rewrite filter_cons_True by done. by rewrite IH.
Qed.

(** What a flush sends, when everything in the cache is the session's. *)
Lemma flushed_sent sid A n ns rest k o : Forall (fun x => n_session x = sid) ns -> drop n A = map n_data ns ->
  (n <= length A)%nat -> flushed sid ns rest k o ->
  flush_sent A n (Z.to_nat k) o /\ drop (n + Z.to_nat k) A = map n_data rest.
Proof.
  intros Hs Hd Hn (gone & part & -> & -> & -> & Hr). apply Forall_app in Hs as [Hs _].
  rewrite (mine_all _ _ Hs), Nat2Z.id. rewrite map_app in Hd.
  assert (Hl : (length A = n + length gone + length rest)%nat).
  { pose proof (f_equal length Hd) as H. rewrite length_drop, length_app, !length_map in H. lia. }
  assert (Hd' : drop (n + length gone) A = map n_data rest).
  { rewrite <- drop_drop, Hd, <- (length_map n_data gone). apply drop_app_length. }
  split; [|done]. split; [lia|]. exists part. split.
  - rewrite Hd, <- (length_map n_data gone), take_app_length. done.
  - destruct rest as [|x rest]; [by left|]. right. destruct Hr as (_ & q & Hq & He).
    exists (n_data x), q. split_and!; try done.
    rewrite <- (Nat.add_0_r (n + length gone)), <- lookup_drop, Hd'. done.
Qed.

Lemma flush_session sid answers h c k o c' : in_session sid h c -> cache_flush true sid answers c = Some (k, o, c') ->
  in_session sid (History (accepted h) (flushes h ++ [(k, o)])) c'.
Proof.
  intros (Hw & Hs & Hp & Hle & Ha) H. pose proof Hw as [Hne Ht Hc Hm Hinv Hh Hl].
  unfold cache_flush in H. cbn [negb] in H.
  destruct (flush_loop sid answers (nodes c) c) as [[[k1 o1] c1]|] eqn:Hf; [|done]. injection H as <- <- <-.
  apply flush_loop_spec in Hf as ((E1 & E2 & E3 & E4) & Hi & Ho & Ht' & Hfl); [|by split_and!|done].
  assert (Hrest : nodes c1 `suffix_of` nodes c) by (destruct Hfl as (gone & ? & ? & _); by exists gone).
  destruct (settle_wf c1) as (Hw' & Hi' & Hn').
  { by split_and!. }
  { rewrite Hi. intros Hx. rewrite (Hinv Hx) in Hrest. by apply suffix_nil_inv in Hrest. }
  { rewrite Ho. intros. apply Hh. lia. }
  assert (flush_sent (accepted h) (reported (flushes h)) (Z.to_nat k1) o1 /\
    (invalid c = false -> drop (reported (flushes h) + Z.to_nat k1) (accepted h) = map n_data (nodes c1))) as [Hsent Hd].
  { destruct (invalid c) eqn:Hx.
    - rewrite (Hinv eq_refl) in Hfl. destruct Hfl as (gone & part & Hg & -> & -> & Hr).
      symmetry in Hg. apply app_eq_nil in Hg as [-> Hnil]. rewrite Hnil in Hr. subst part. split; [|done].
      split; [cbn; lia|]. exists []. split; [done|by left].
    - destruct (flushed_sent _ _ _ _ _ _ _ Hs (Ha eq_refl) Hle Hfl). by split. }
  split_and!; cbn [accepted flushes]; rewrite ?Hi', ?Hn', ?reported_snoc.
  - done.
  - destruct Hrest as [gone Hg]. rewrite Hg in Hs. by apply Forall_app in Hs as [_ Hs].
  - by apply flushes_sent_snoc.
  - apply Hsent.
  - by rewrite Hi.
Qed.
Lemma append_session sid ok data h c rc c' : in_session sid h c -> data_ok data ->
  cache_append ok data sid c = (rc, c') ->
  in_session sid (if decide (rc = CACHE_APPEND_OK) then History (accepted h ++ [data]) (flushes h) else h) c'.
Proof.
  intros (Hw & Hs & Hp & Hle & Ha) Hd H. pose proof H as H'.
  apply append_spec in H as (Hw' & [(-> & Hi & Hn)|[(-> & ->)|(-> & Hi)]]); [..|done|done].
  - rewrite decide_True by done. split_and!; [done| | | |]; cbn [accepted flushes].
    + rewrite Hn. apply Forall_app. split; [done|]. by repeat constructor.
    + intros l k o r He. eapply flush_sent_app, Hp, He.
    + rewrite length_app. lia.
    + intros _. rewrite Hn, map_app, drop_app_le by done. f_equal. apply Ha.
      revert H'. unfold cache_append. case_decide; [done|]. by destruct (invalid c).
  - by split_and!.
  - rewrite decide_False by done. split_and!; [done| |done|done|congruence].
    by rewrite (wf_invalid _ Hw' Hi).
Qed.

(** C24: in a session, nothing is lost, repeated or reordered: whatever mixture
    of appends and flushes, the bytes each flush put on the wire are the next
    accepted pieces, as many as it reports, whole and in order, and then at most
    a proper first part of the piece it failed on (which the next flush sends
    again from its start); and what is still cached is exactly the accepted
    pieces not reported yet, unless the cache has been marked invalid. *)
Theorem cache_session_lossless sid ops c0 h c :
  Forall op_ok ops ->
  run sid ops (History [] []) (cache_reset_for_new_session c0) = Some (h, c) ->
  wf c /\
  (forall l k o r, flushes h = l ++ (k, o) :: r -> flush_sent (accepted h) (reported l) (Z.to_nat k) o) /\
  (reported (flushes h) <= length (accepted h))%nat /\
  (invalid c = false -> drop (reported (flushes h)) (accepted h) = map n_data (nodes c)).
Proof.
  assert (H0 : in_session sid (History [] []) (cache_reset_for_new_session c0)).
  { destruct (clear_wf c0) as ([] & _ & Hn). split_and!; [constructor; cbn; try done|constructor| |done|done].
    by intros [] ? ? ?. }
  revert H0. generalize (History [] []), (cache_reset_for_new_session c0). intros h1 c1 H1 Hok. revert h1 c1 H1.
  induction Hok as [|o ops Ho Hok IH]; intros h1 c1 H1; cbn [run].
  - intros [= <- <-]. destruct H1 as (? & _ & ? & ? & ?). by split_and!.
  - destruct o as [ok data|answers].
    + destruct (cache_append ok data sid c1) as [rc c2] eqn:Ha. intros H. eapply IH; [|exact H].
      by eapply append_session.
    + destruct (cache_flush true sid answers c1) as [[[k o] c2]|] eqn:Hf; [|done]. intros H.
      eapply IH; [|exact H]. by eapply flush_session.
Qed.

(** Two pieces of session 2 around one of session 1; the socket takes three
    bytes, is interrupted, then takes the rest. *)
Definition cache0 : cache :=
  (cache_append true [7; 8] 2 (cache_append true [9] 1 (cache_append true [1; 2; 3; 4] 2 cache_init).2).2).2.
Lemma cache0_wf : wf cache0.
Proof.
  assert (H : forall d s c, wf c -> data_ok d -> wf (cache_append true d s c).2).
  { intros d s c Hc Hd. by eapply append_spec; [exact Hc|exact Hd|apply surjective_pairing]. }
  unfold cache0. apply H; [apply H; [apply H; [apply init_wf|]|]|]; done.
Qed.
Lemma cache_flush_exact_witness :
  exists c', cache_flush true 2 [STook 2; SIntr; STook 0; STook 9] cache0 = Some (2, [1; 2; 3; 4; 7; 8], c') /\ wf c'.
Proof.
  eexists. split; [vm_compute; reflexivity|].
  apply (cache_flush_exact 2 [STook 2; SIntr; STook 0; STook 9] cache0 2 [1; 2; 3; 4; 7; 8]).
  - apply cache0_wf.
  - vm_compute. reflexivity.
Defined.
Lemma cache_session_lossless_witness :
  exists h c, run 2 [OAppend true [1; 2]; OAppend true [5; 6]; OFlush [STook 1; STook 0; SError]; OAppend true [3]]
    (History [] []) (cache_reset_for_new_session cache0) = Some (h, c) /\
    flushes h = [(1, [1; 2; 5])] /\ drop (reported (flushes h)) (accepted h) = map n_data (nodes c) /\ nodes c = [Node 2 [5; 6]; Node 2 [3]].
Proof.
  eexists _, _. split; [vm_compute; reflexivity|]. split; [reflexivity|]. split; [|reflexivity].
  eapply (cache_session_lossless 2
    [OAppend true [1; 2]; OAppend true [5; 6]; OFlush [STook 1; STook 0; SError]; OAppend true [3]] cache0).
  - repeat constructor.
  - vm_compute. reflexivity.
  - reflexivity.
Defined.

End ProxyCache.
