(* ===== verification/Forwarder.v ===== *)
(** * Forwarder: how the proxy passes committed writes on to the replica

    [src/ebpf_proxy/main.c] and the connection of [src/ebpf_proxy/proxy_slave.c].
    The main thread hands committed commands in ([commit_emit]): to the cache
    while the state is BUFFERING, to the forwarding queue otherwise.  The
    forwarding thread takes a batch off the queue, flushes the cache if asked to,
    and sends the batch with [writev]; what it cannot send goes to the cache.  The
    main thread also follows the master's registers (barrier, session, capture
    gate) and reconnects.

    Each function that runs under one lock is one definition; [cycle] is one
    round of the forwarding thread in its three regions [fwd_take],
    [fwd_flush] and [fwd_send], between which the main thread may run in [step].
    The relation [fine] splits the rounds further, down to the single [writev]
    under [g_state_lock] and the single critical region of the main thread, so
    that commands enter the queue while a batch is in flight; every [step] is a
    run of it ([step_steps]).  A call
    that is still waiting when its answers end returns nothing.  [conn] is what
    the current connection was given and [closed] what the earlier ones were. *)

From S2P Require Import Prelude ProxyCache.

Module Forwarder.

Definition MAX_PFWD_QUEUE_BYTES : Z := 64 * 1024 * 1024.
Definition PFWD_BATCH_MAX : nat := 256.
Definition PFWD_BATCH_BYTES_MAX : Z := 512 * 1024.
Definition PFWD_BACKPRESSURE_HIGH : Z := 4 * 1024 * 1024.
Definition PFWD_BACKPRESSURE_LOW : Z := 1024 * 1024.
Definition CAPTURE_RECORD_HDR_SZ : nat := 24.

Inductive proxy_state := STATE_FORWARDING | STATE_BUFFERING.
#[export] Instance proxy_state_eq_dec : EqDecision proxy_state.
Proof. solve_decision. Defined.

Record fwd := Fwd {
  g_state : proxy_state;
  pfwd : list bytes; pfwd_bytes : Z; pfwd_stop : bool; cache_flush_pending : bool;
  fwdq_bp_state : Z; enq_bytes : Z; sent_bytes : Z; inflight_bytes : Z;
  g_cache : ProxyCache.cache;
  session_id : Z; session_valid : Z; cache_invalid_remote : Z; fs_req_seen : Z; proxy_state_ctl : Z;
  capture_drop : bool; dropped_bytes : Z; fault_code : Z; fault_handled : bool; shutdown : bool;
  connected : bool; reconnects : Z; conn : bytes; closed : list bytes }.
#[export] Instance eta_fwd : Eta fwd :=
  fun s => Fwd (g_state s) (pfwd s) (pfwd_bytes s) (pfwd_stop s) (cache_flush_pending s)
    (fwdq_bp_state s) (enq_bytes s) (sent_bytes s) (inflight_bytes s) (g_cache s)
    (session_id s) (session_valid s) (cache_invalid_remote s) (fs_req_seen s) (proxy_state_ctl s)
    (capture_drop s) (dropped_bytes s) (fault_code s) (fault_handled s) (shutdown s)
    (connected s) (reconnects s) (conn s) (closed s).

Definition fwd_init : fwd :=
  Fwd STATE_FORWARDING [] 0 false false 0 0 0 0 ProxyCache.cache_init 0 0 0 0 0 false 0 0 false false
    false 0 [] [].

Definition zlen (b : bytes) : Z := Z.of_nat (length b).
Definition zlens (l : list bytes) : Z := foldr (fun b t => zlen b + t) 0 l.

(** ** The connection *)

Definition proxy_slave_is_connected (s : fwd) : bool := connected s.
(** [proxy_slave_disconnect] and [proxy_slave_mark_down] drop the descriptor. *)
Definition proxy_slave_disconnect (s : fwd) : fwd :=
  if connected s then s <| connected := false |> <| closed ::= fun l => l ++ [conn s] |> <| conn := [] |> else s.

(** What one [proxy_slave_writev] met: the bytes taken or a failure, the value of
    [errno] afterwards, and what the polls that follow it answered. *)
Inductive errno := EINTR | EAGAIN | EOTHER.
Inductive poll_rc := PNoFd | PIntr | PFail | PTimeout | PErr | POut.
Record writev_rc := Writev { w_took : option nat; w_errno : errno; w_polls : list poll_rc }.
(** Without a connection it fails, and [errno] is whatever it was. *)
Definition proxy_slave_writev (up : bool) (a : writev_rc) (avail : nat) : option nat :=
  if up then (fun n => Nat.min n avail) <$> w_took a else None.

(** ** Locked accessors *)

Definition set_state (x : proxy_state) (s : fwd) : fwd := s <| g_state := x |>.
Definition cache_enq_wrap (malloc_ok : bool) (data : bytes) (s : fwd) : Z * fwd :=
  let '(rc, c) := ProxyCache.cache_append malloc_ok data (session_id s) (g_cache s) in
  (rc, s <| g_cache := c |>).
Definition cache_clear_wrap (s : fwd) : fwd := s <| g_cache ::= ProxyCache.cache_clear |>.
Definition cache_reset_for_new_session_wrap (s : fwd) : fwd :=
  s <| g_cache ::= ProxyCache.cache_reset_for_new_session |>.
Definition cache_flush_allowed (s : fwd) : bool :=
  bool_decide (session_valid s <> 0) && negb (ProxyCache.invalid (g_cache s)).
Definition request_cache_flush (s : fwd) : fwd := s <| cache_flush_pending := true |>.

Definition fwdq_pending (s : fwd) : Z := u64 (pfwd_bytes s + inflight_bytes s).
Definition fwdq_set_backpressure_locked (s : fwd) : fwd :=
  if bool_decide (fwdq_bp_state s = 0) && bool_decide (fwdq_pending s > PFWD_BACKPRESSURE_HIGH)
  then s <| fwdq_bp_state := 1 |> else s.
Definition fwdq_clear_backpressure_locked (s : fwd) : fwd :=
  if bool_decide (fwdq_bp_state s = 1) && bool_decide (fwdq_pending s < PFWD_BACKPRESSURE_LOW)
  then s <| fwdq_bp_state := 0 |> else s.

(** ** The queue *)

(** Waits (no result) while the queue is full. *)
Definition proxy_fwd_enqueue (malloc_ok : bool) (buf : bytes) (s : fwd) : option (Z * fwd) :=
  if pfwd_stop s then Some (-1, s)
  else if decide (u64 (pfwd_bytes s + zlen buf) > MAX_PFWD_QUEUE_BYTES) then None
  else if negb malloc_ok then Some (-1, s)
  else
    let s := s <| pfwd ::= fun q => q ++ [buf] |> <| pfwd_bytes ::= fun t => u64 (t + zlen buf) |>
               <| enq_bytes ::= fun t => u64 (t + zlen buf) |> in
    Some (0, fwdq_set_backpressure_locked s).

Definition proxy_fwd_drain_to_cache_or_discard (s : fwd) : fwd :=
  fwdq_clear_backpressure_locked (s <| pfwd := [] |> <| pfwd_bytes := 0 |>).

(** The batch: at most [n] nodes and so many bytes. *)
Fixpoint take_batch (n : nat) (batch_bytes : Z) (q : list bytes) : list bytes * list bytes :=
  match n, q with
  | S n', b :: r =>
      if decide (u64 (batch_bytes + zlen b) <= PFWD_BATCH_BYTES_MAX) then
        let '(got, rest) := take_batch n' (u64 (batch_bytes + zlen b)) r in (b :: got, rest)
      else ([], q)
  | _, _ => ([], q)
  end.

(** ** The forwarding thread *)

(** Waits while there is nothing to do; returns the batch and whether a flush was
    requested. *)
Definition fwd_take (s : fwd) : option (list bytes * bool * fwd) :=
  if bool_decide (pfwd s = []) && negb (cache_flush_pending s) && negb (pfwd_stop s) then None
  else
    let flush := cache_flush_pending s in
    let s := s <| cache_flush_pending := false |> in
    let '(batch, rest) := take_batch PFWD_BATCH_MAX 0 (pfwd s) in
    let s := s <| pfwd := rest |> <| pfwd_bytes ::= fun t => u64 (t - zlens batch) |> in
    let s := if bool_decide (batch = []) then s else fwdq_clear_backpressure_locked s in
    Some (batch, flush, s).

Definition fwd_flush (flush : bool) (answers : list ProxyCache.send_rc) (s : fwd) : option fwd :=
  if negb flush then Some s
  else
    let forwarding := bool_decide (g_state s = STATE_FORWARDING) in
    if negb (cache_flush_allowed s) then Some (cache_clear_wrap s)
    else if forwarding && proxy_slave_is_connected s then
      match ProxyCache.cache_flush true (session_id s) answers (g_cache s) with
      | None => None
      | Some (_, o, c) =>
          let s := s <| g_cache := c |> <| conn ::= fun w => w ++ o |> in
          Some (match ProxyCache.nodes c with [] => s | _ => proxy_slave_disconnect s end)
      end
    else Some s.

(** The inner loop on a full socket: whether it gave up. *)
Fixpoint poll_loop (ps : list poll_rc) : option bool :=
  match ps with
  | [] => None
  | PNoFd :: _ | PFail :: _ | PErr :: _ => Some true
  | POut :: _ => Some false
  | PIntr :: r | PTimeout :: r => poll_loop r
  end.
(** The buffers still to be sent after [left] bytes of them went. *)
Fixpoint advance (left : nat) (iov : list bytes) : list bytes :=
  match iov with
  | [] => []
  | b :: r => if decide (length b <= left)%nat then advance (left - length b) r else drop left b :: r
  end.
(** [iov] is what is left from [iov[idx]] on; returns whether it gave up, what is
    left then, and what the connection took. *)
Fixpoint send_loop (up : bool) (answers : list writev_rc) (iov : list bytes) (sent total : nat) :
    option (bool * list bytes * bytes) :=
  if bool_decide (iov = []) || negb (bool_decide (sent < total)%nat) then Some (false, iov, [])
  else
    match answers with
    | [] => None
    | a :: r =>
        match proxy_slave_writev up a (length (concat iov)) with
        | None =>
            match w_errno a with
            | EINTR => send_loop up r iov sent total
            | EAGAIN =>
                match poll_loop (w_polls a) with
                | None => None
                | Some true => Some (true, iov, [])
                | Some false => send_loop up r iov sent total
                end
            | EOTHER => Some (true, iov, [])
            end
        | Some O => Some (true, iov, [])
        | Some w =>
            match send_loop up r (advance w iov) (sent + w) total with
            | Some (g, iov', o) => Some (g, iov', take w (concat iov) ++ o)
            | None => None
            end
        end
    end.

(** The results of [cache_enq_wrap] are not looked at; [mallocs] answers its
    allocations in turn. *)
Fixpoint cache_enq_all (mallocs : list bool) (l : list bytes) (s : fwd) : fwd :=
  match l with
  | [] => s
  | b :: r => cache_enq_all (tail mallocs) r (cache_enq_wrap (default true (head mallocs)) b s).2
  end.

Definition proxy_fwd_send_batch (mallocs : list bool) (answers : list writev_rc) (batch : list bytes) (s : fwd) :
    option fwd :=
  let total := length (concat batch) in
  match g_state s with
  | STATE_FORWARDING =>
      match send_loop (connected s) answers batch 0 total with
      | None => None
      | Some (gave_up, iov, o) =>
          let sent := length o in
          let s := s <| conn ::= fun w => w ++ o |>
                     <| sent_bytes ::= fun t => u64 (t + zlen o) |>
                     <| inflight_bytes ::= fun t =>
                          u64 (u64 (u64 (t + Z.of_nat total) - zlen o) - (Z.of_nat total - zlen o)) |> in
          Some (if bool_decide (sent < total)%nat && gave_up
                then request_cache_flush (proxy_slave_disconnect (cache_enq_all mallocs iov s))
                else s)
      end
  | STATE_BUFFERING => Some (cache_enq_all mallocs batch s)
  end.
Definition fwd_send (mallocs : list bool) (answers : list writev_rc) (batch : list bytes) (s : fwd) : option fwd :=
  match batch with [] => Some s | _ => proxy_fwd_send_batch mallocs answers batch s end.

(** What the environment answers in one round of the thread. *)
Record round := Round { r_flush : list ProxyCache.send_rc; r_send : list writev_rc; r_malloc : list bool }.
Definition cycle (r : round) (s : fwd) : option fwd :=
  '(batch, flush, s) ← fwd_take s;
  s ← fwd_flush flush (r_flush r) s;
  fwd_send (r_malloc r) (r_send r) batch s.
(** The thread ends on a round that found nothing to do after the stop. *)
Definition fwd_exits (s : fwd) : bool :=
  match fwd_take s with
  | Some ([], false, s') => pfwd_stop s'
  | _ => false
  end.
Definition proxy_fwd_stop (s : fwd) : fwd :=
  s <| pfwd_stop := true |> <| cache_flush_pending := false |> <| pfwd := [] |> <| pfwd_bytes := 0 |>.

(** ** The main thread *)

Definition commit_fault_cb (reason : Z) (s : fwd) : fwd :=
  if shutdown s then s
  else proxy_slave_disconnect
    (set_state STATE_BUFFERING (s <| fault_code := reason |> <| capture_drop := true |>)).

Definition commit_emit (malloc_ok : bool) (buf : bytes) (s : fwd) : option (Z * fwd) :=
  if capture_drop s then Some (-1, s <| dropped_bytes ::= fun t => u64 (t + zlen buf) |>)
  else
    match g_state s with
    | STATE_BUFFERING =>
        let '(rc, s) := cache_enq_wrap malloc_ok buf s in
        let s := if decide (rc = -2) then commit_fault_cb 5 s else s in
        Some (if decide (rc = 0) then 0 else -1, s)
    | STATE_FORWARDING =>
        if proxy_slave_is_connected s then proxy_fwd_enqueue malloc_ok buf s
        else Some (-1, s <| dropped_bytes ::= fun t => u64 (t + zlen buf) |>)
    end.

(** [discarded] bytes are consumed from the ring and thrown away on the way. *)
Definition proxy_capture_drop_pending (discarded : Z) (s : fwd) : fwd :=
  let s := (set_state STATE_BUFFERING s) <| capture_drop := true |> in
  let s := s <| dropped_bytes ::= fun t => u64 (t + discarded) |> in
  let s := s <| dropped_bytes ::= fun t => u64 (t + pfwd_bytes s) |> in
  let s := proxy_fwd_drain_to_cache_or_discard s in
  let s := s <| dropped_bytes ::= fun t => u64 (t + ProxyCache.total_bytes (g_cache s)) |>
             <| g_cache := ProxyCache.cache_init |> in
  proxy_slave_disconnect s.
Definition proxy_capture_resume (s : fwd) : fwd :=
  s <| capture_drop := false |> <| fault_code := 0 |> <| fault_handled := false |>.
Definition proxy_capture_gate_poll (gate_en gate_fault discarded : Z) (s : fwd) : fwd :=
  let want_drop := bool_decide (gate_en <> 1) || bool_decide (gate_fault <> 0) in
  if want_drop && negb (capture_drop s) then proxy_capture_drop_pending discarded s
  else if negb want_drop && capture_drop s then proxy_capture_resume s
  else s.
(** The main loop's reaction to a fault that was signalled. *)
Definition handle_fault (discarded : Z) (s : fwd) : fwd :=
  if bool_decide (fault_code s <> 0) && negb (fault_handled s)
  then (proxy_capture_drop_pending discarded s) <| fault_handled := true |> else s.

(** The record of the ring that the commit module gets, if any: cookie, sequence
    number, the length of the payload and the bytes that are there for it.  The
    sum that is checked is one of 32-bit integers. *)
Definition ringbuf_callback (gate_on : bool) (data : bytes) (s : fwd) : option (Z * Z * Z * bytes) * fwd :=
  if capture_drop s && (negb gate_on || bool_decide (fault_code s <> 0))
  then (None, s <| dropped_bytes ::= fun t => u64 (t + zlen data) |>)
  else
    let s := s <| capture_drop := false |> in
    if decide (length data < CAPTURE_RECORD_HDR_SZ)%nat then (None, s)
    else
      let payload_len := le_val data.[16, 4] in
      if decide (payload_len = 0 \/ u32 (Z.of_nat CAPTURE_RECORD_HDR_SZ + payload_len) > zlen data) then (None, s)
      else (Some (le_val data.[0, 8], le_val data.[8, 8], payload_len, drop CAPTURE_RECORD_HDR_SZ data), s).

(** The session registers, [sid] and the two flags as they are read. *)
Definition poll_session_state (sid valid cinv : Z) (s : fwd) : fwd :=
  if bool_decide (sid = session_id s) && bool_decide (i32 valid = session_valid s) &&
     bool_decide (i32 cinv = cache_invalid_remote s) then s
  else
    let s := if bool_decide (sid <> session_id s) then
               let s := s <| session_id := sid |> in
               let s := if decide (sid <> 0) then cache_reset_for_new_session_wrap s else cache_clear_wrap s in
               proxy_fwd_drain_to_cache_or_discard s
             else s in
    let s := s <| session_valid := i32 valid |> <| cache_invalid_remote := i32 cinv |> in
    if decide (session_valid s = 0) then proxy_fwd_drain_to_cache_or_discard (cache_clear_wrap s)
    else if decide (cinv <> 0) then cache_clear_wrap s
    else s.

(** The barrier register, by its edges. *)
Definition poll_barrier (fs_val : Z) (s : fwd) : fwd :=
  if bool_decide (fs_val <> 0) && bool_decide (fs_req_seen s = 0) then
    let s := set_state STATE_BUFFERING (s <| fs_req_seen := 1 |>) in
    (cache_reset_for_new_session_wrap (proxy_fwd_drain_to_cache_or_discard s)) <| proxy_state_ctl := 1 |>
  else if bool_decide (fs_val = 0) && bool_decide (fs_req_seen s = 1) then
    let s := (set_state STATE_FORWARDING (s <| fs_req_seen := 0 |>)) <| proxy_state_ctl := 0 |> in
    if cache_flush_allowed s then request_cache_flush s else cache_clear_wrap s
  else s.

(** The reconnection of a replica that is not connected, once [connect] succeeds. *)
Definition slave_connected (s : fwd) : fwd :=
  s <| connected := true |> <| conn := [] |> <| reconnects ::= fun t => u64 (t + 1) |>.
Definition after_connect (s : fwd) : fwd :=
  if cache_flush_allowed s then request_cache_flush s else cache_clear_wrap s.
Definition reconnect (s : fwd) : fwd :=
  if proxy_slave_is_connected s then s else after_connect (slave_connected s).

(** ** Interleavings *)

(** Where the forwarding thread is between its critical regions. *)
Inductive pos := Idle | Taken (batch : list bytes) (flush : bool) | Flushed (batch : list bytes).
Record config := Config { thread : pos; sys : fwd }.

Inductive op :=
  | OEmit (malloc_ok : bool) (buf : bytes)
  | OGate (gate_en gate_fault discarded : Z)
  | OFault (discarded : Z)
  | ORecord (gate_on : bool) (data : bytes)
  | OSession (sid valid cinv : Z)
  | OBarrier (fs_val : Z)
  | OReconnect
  | OTake
  | OFlush (answers : list ProxyCache.send_rc)
  | OSend (mallocs : list bool) (answers : list writev_rc)
  | OCycle (r : round).

(** A region is entered where the thread is; nothing when it has to wait. *)
Definition step (o : op) (k : config) : option config :=
  let s := sys k in
  match o with
  | OEmit ok buf => '(_, s') ← commit_emit ok buf s; Some (Config (thread k) s')
  | OGate en ft d => Some (Config (thread k) (proxy_capture_gate_poll en ft d s))
  | OFault d => Some (Config (thread k) (handle_fault d s))
  | ORecord on data => Some (Config (thread k) (ringbuf_callback on data s).2)
  | OSession sid v c => Some (Config (thread k) (poll_session_state sid v c s))
  | OBarrier v => Some (Config (thread k) (poll_barrier v s))
  | OReconnect => Some (Config (thread k) (reconnect s))
  | OTake =>
      match thread k with
      | Idle => '(batch, flush, s') ← fwd_take s; Some (Config (Taken batch flush) s')
      | _ => None
      end
  | OFlush answers =>
      match thread k with
      | Taken batch flush => s' ← fwd_flush flush answers s; Some (Config (Flushed batch) s')
      | _ => None
      end
  | OSend mallocs answers =>
      match thread k with
      | Flushed batch => s' ← fwd_send mallocs answers batch s; Some (Config Idle s')
      | _ => None
      end
  | OCycle r =>
      match thread k with
      | Idle => s' ← cycle r s; Some (Config Idle s')
      | _ => None
      end
  end.
Fixpoint run (ops : list op) (k : config) : option config :=
  match ops with
  | [] => Some k
  | o :: r => k' ← step o k; run r k'
  end.

(** ** Interleavings within a round *)

(** The steps of the main thread, one for each region that it runs under a lock or
    on its own variables.  They may follow each other in any way here, which
    includes the orders of the functions above. *)
Definition shared (s : fwd) :=
  (g_state s, (pfwd s, pfwd_bytes s, pfwd_stop s, cache_flush_pending s, fwdq_bp_state s),
   (enq_bytes s, sent_bytes s, inflight_bytes s), g_cache s, (connected s, conn s, closed s)).
Inductive main_step : fwd -> fwd -> Prop :=
  | main_own s s' : shared s' = shared s -> main_step s s'
  | main_state x s : main_step s (set_state x s)
  | main_enqueue ok buf rc s s' : ProxyCache.data_ok buf ->
      proxy_fwd_enqueue ok buf s = Some (rc, s') -> main_step s s'
  | main_drain s : main_step s (proxy_fwd_drain_to_cache_or_discard s)
  | main_cache ok buf s : ProxyCache.data_ok buf -> main_step s (cache_enq_wrap ok buf s).2
  | main_clear s : main_step s (cache_clear_wrap s)
  | main_reset s : main_step s (cache_reset_for_new_session_wrap s)
  | main_destroy s : main_step s (s <| g_cache := ProxyCache.cache_init |>)
  | main_ask s : main_step s (request_cache_flush s)
  | main_down s : main_step s (proxy_slave_disconnect s)
  | main_up s : connected s = false -> main_step s (slave_connected s).

(** Where the forwarding thread is.  [FSending]: in the loop around [writev], with
    [g_state_lock] held, the buffers still to be sent, the bytes sent and their
    total; [FSent]: out of the loop, before the rest is taken off the bytes in
    flight; [FPutting]: buffers on their way to the cache, after a failure or
    because the state was BUFFERING. *)
Inductive fpos :=
  | FIdle
  | FTook (batch : list bytes) (flush : bool)
  | FChecked (batch : list bytes) (forwarding : bool)
  | FRefused (batch : list bytes)
  | FFlushing (batch : list bytes)
  | FLooking (batch : list bytes)
  | FBroken (batch : list bytes)
  | FReady (batch : list bytes)
  | FSending (iov : list bytes) (sent total : nat)
  | FSent (gave_up : bool) (iov : list bytes) (sent total : nat)
  | FPutting (l : list bytes) (failed : bool)
  | FAsking.
Definition holds_state_lock (p : fpos) : bool := match p with FSending _ _ _ => true | _ => false end.

(** One turn of the loop around [writev]. *)
Definition writev_turn (a : writev_rc) (iov : list bytes) (sent total : nat) (s : fwd) : option (fpos * fwd) :=
  match proxy_slave_writev (connected s) a (length (concat iov)) with
  | None =>
      match w_errno a with
      | EINTR => Some (FSending iov sent total, s)
      | EAGAIN =>
          match poll_loop (w_polls a) with
          | None => None
          | Some true => Some (FSent true iov sent total, s)
          | Some false => Some (FSending iov sent total, s)
          end
      | EOTHER => Some (FSent true iov sent total, s)
      end
  | Some O => Some (FSent true iov sent total, s)
  | Some w =>
      Some (FSending (advance w iov) (sent + w) total,
        s <| conn ::= fun c => c ++ take w (concat iov) |>
          <| sent_bytes ::= fun t => u64 (t + Z.of_nat w) |>
          <| inflight_bytes ::= fun t => u64 (t - Z.of_nat w) |>)
  end.

(** The steps of the two threads.  The main thread cannot set the state while the
    forwarding thread holds its lock. *)
Inductive fine : fpos * fwd -> fpos * fwd -> Prop :=
  | fine_main p s s' : main_step s s' -> (holds_state_lock p = true -> g_state s' = g_state s) ->
      fine (p, s) (p, s')
  | fine_take batch flush s s' : fwd_take s = Some (batch, flush, s') -> fine (FIdle, s) (FTook batch flush, s')
  | fine_no_flush batch s : fine (FTook batch false, s) (FReady batch, s)
  | fine_check batch s :
      fine (FTook batch true, s) (FChecked batch (bool_decide (g_state s = STATE_FORWARDING)), s)
  | fine_refuse batch f s : cache_flush_allowed s = false -> fine (FChecked batch f, s) (FRefused batch, s)
  | fine_clear batch s : fine (FRefused batch, s) (FReady batch, cache_clear_wrap s)
  | fine_allow batch f s : cache_flush_allowed s = true ->
      fine (FChecked batch f, s)
           (if f && proxy_slave_is_connected s then FFlushing batch else FReady batch, s)
  | fine_flush batch answers k o c s :
      ProxyCache.cache_flush (connected s) (session_id s) answers (g_cache s) = Some (k, o, c) ->
      fine (FFlushing batch, s) (FLooking batch, s <| g_cache := c |> <| conn ::= fun w => w ++ o |>)
  | fine_look batch s :
      fine (FLooking batch, s)
           (match ProxyCache.nodes (g_cache s) with [] => FReady batch | _ => FBroken batch end, s)
  | fine_broken batch s : fine (FBroken batch, s) (FReady batch, proxy_slave_disconnect s)
  | fine_skip s : fine (FReady [], s) (FIdle, s)
  | fine_begin batch s : batch <> [] -> g_state s = STATE_FORWARDING ->
      fine (FReady batch, s)
           (FSending batch 0 (length (concat batch)),
            s <| inflight_bytes ::= fun t => u64 (t + Z.of_nat (length (concat batch))) |>)
  | fine_divert batch s : batch <> [] -> g_state s = STATE_BUFFERING ->
      fine (FReady batch, s) (FPutting batch false, s)
  | fine_turn a iov sent total s p' s' : iov <> [] -> (sent < total)%nat ->
      writev_turn a iov sent total s = Some (p', s') -> fine (FSending iov sent total, s) (p', s')
  | fine_out iov sent total s : iov = [] \/ ~ (sent < total)%nat ->
      fine (FSending iov sent total, s) (FSent false iov sent total, s)
  | fine_settle g iov sent total s :
      fine (FSent g iov sent total, s)
           (if bool_decide (sent < total)%nat && g then FPutting iov true else FIdle,
            s <| inflight_bytes ::= fun t => u64 (t - (Z.of_nat total - Z.of_nat sent)) |>)
  | fine_put ok b r f s : fine (FPutting (b :: r) f, s) (FPutting r f, (cache_enq_wrap ok b s).2)
  | fine_put_done s : fine (FPutting [] false, s) (FIdle, s)
  | fine_down s : fine (FPutting [] true, s) (FAsking, proxy_slave_disconnect s)
  | fine_ask s : fine (FAsking, s) (FIdle, request_cache_flush s).

(** ** The invariant *)

Definition op_ok (o : op) : Prop := match o with OEmit _ buf => ProxyCache.data_ok buf | _ => True end.

(** [n] bytes are in flight.  The counters are exact, the queue is bounded, and the back-pressure signal to
    the master lies between its two water marks: above the high one it is up, and
    it is never up below the low one. *)
Record wfi (n : Z) (s : fwd) : Prop := {
  wf_bytes : pfwd_bytes s = zlens (pfwd s);
  wf_queue : pfwd_bytes s <= MAX_PFWD_QUEUE_BYTES;
  wf_bp : fwdq_bp_state s = 0 /\ pfwd_bytes s <= PFWD_BACKPRESSURE_HIGH \/
          fwdq_bp_state s = 1 /\ PFWD_BACKPRESSURE_LOW <= pfwd_bytes s;
  wf_inflight : inflight_bytes s = n;
  wf_range : 0 <= n <= PFWD_BATCH_BYTES_MAX;
  wf_cache : ProxyCache.wf (g_cache s);
  wf_conn : connected s = false -> conn s = [] }.
Arguments wf_bytes {_ _}. Arguments wf_queue {_ _}. Arguments wf_bp {_ _}. Arguments wf_inflight {_ _}.
Arguments wf_range {_ _}. Arguments wf_cache {_ _}. Arguments wf_conn {_ _}.
(** Between two rounds of the forwarding thread nothing is in flight. *)
Notation wf := (wfi 0).
Definition batch_ok (l : list bytes) : Prop := Forall ProxyCache.data_ok l.
Definition pos_ok (p : pos) : Prop :=
  match p with Idle => True | Taken b _ | Flushed b => batch_ok b end.

Lemma zlens_app l1 l2 : zlens (l1 ++ l2) = zlens l1 + zlens l2.
Proof. unfold zlens. induction l1 as [|b l IH]; cbn [app foldr]; lia. Qed.
Lemma zlens_nonneg l : 0 <= zlens l.
Proof. unfold zlens. induction l as [|b l IH]; cbn [foldr]; unfold zlen in *; lia. Qed.
Lemma zlens_batch l : zlens l <= MAX_PFWD_QUEUE_BYTES -> batch_ok l.
Proof.
  induction l as [|b l IH]; intros H; [constructor|]. cbn [zlens foldr] in H. pose proof (zlens_nonneg l).
  unfold zlens in *. constructor; [|apply IH; unfold zlen in *; lia].
  unfold ProxyCache.data_ok, MAX_PFWD_QUEUE_BYTES, zlen in *. lia.
Qed.

Lemma take_batch_split n : forall t q got rest, take_batch n t q = (got, rest) -> q = got ++ rest.
Proof.
  induction n as [|n IH]; intros t [|b q] got rest; cbn [take_batch]; try (by intros [= <- <-]).
  case_decide; [|by intros [= <- <-]].
  destruct (take_batch n (u64 (t + zlen b)) q) as [g r] eqn:Ht. apply IH in Ht as ->. by intros [= <- <-].
Qed.

Lemma clear_bp_frame s : exists b, fwdq_clear_backpressure_locked s = s <| fwdq_bp_state := b |>.
Proof.
  unfold fwdq_clear_backpressure_locked. destruct (_ && _); [by exists 0|].
  exists (fwdq_bp_state s). by destruct s.
Qed.

(** The queue lost a part; the signal is cleared if it fell below the mark. *)
Lemma shrink_wf n s s1 : wfi n s -> zlens (pfwd s1) <= zlens (pfwd s) -> pfwd_bytes s1 = zlens (pfwd s1) ->
  n = 0 \/ pfwd s1 = [] ->
  fwdq_bp_state s1 = fwdq_bp_state s -> inflight_bytes s1 = inflight_bytes s ->
  g_cache s1 = g_cache s -> connected s1 = connected s -> conn s1 = conn s ->
  wfi n (fwdq_clear_backpressure_locked s1).
Proof.
  intros [H1 H2 H3 H4 H4' H5 H6] Hq E1 Hz E2 E3 E4 E5 E6. pose proof (zlens_nonneg (pfwd s1)).
  assert (n = 0 \/ zlens (pfwd s1) = 0) as Hz' by (destruct Hz as [?| ->]; [by left|by right]).
  unfold MAX_PFWD_QUEUE_BYTES, PFWD_BACKPRESSURE_HIGH, PFWD_BACKPRESSURE_LOW, PFWD_BATCH_BYTES_MAX in *.
  unfold fwdq_clear_backpressure_locked, fwdq_pending.
  rewrite E3, H4, E1, u64_small by lia. unfold PFWD_BACKPRESSURE_LOW. rewrite E2.
  repeat case_bool_decide; cbn [andb]; constructor; cbn [pfwd pfwd_bytes fwdq_bp_state inflight_bytes g_cache connected conn upd];
    rewrite ?E1, ?E2, ?E3, ?E4, ?E5, ?E6;
    unfold MAX_PFWD_QUEUE_BYTES, PFWD_BACKPRESSURE_HIGH, PFWD_BACKPRESSURE_LOW, PFWD_BATCH_BYTES_MAX in *; try done; lia.
Qed.

(** Only these parts of the state matter to the invariant. *)
Lemma wf_ext n s s' : wfi n s -> pfwd s' = pfwd s -> pfwd_bytes s' = pfwd_bytes s ->
  fwdq_bp_state s' = fwdq_bp_state s -> inflight_bytes s' = inflight_bytes s ->
  ProxyCache.wf (g_cache s') -> (connected s' = false -> conn s' = []) -> wfi n s'.
Proof. intros [H1 H2 H3 H4 H4' H5 H6] E1 E2 E3 E4 Hc Hk. constructor; rewrite ?E1, ?E2, ?E3, ?E4; done. Qed.

Ltac frame H := apply (wf_ext _ _ _ H); try done; try apply H.

Lemma disconnect_wf n s : wfi n s -> wfi n (proxy_slave_disconnect s).
Proof. intros H. unfold proxy_slave_disconnect. destruct (connected s); [frame H|done]. Qed.
Lemma drain_wf n s : wfi n s -> wfi n (proxy_fwd_drain_to_cache_or_discard s).
Proof. intros H. apply (shrink_wf n s _ H); try done; [apply zlens_nonneg|by right]. Qed.
Lemma fwd_clear_wf n s : wfi n s -> wfi n (cache_clear_wrap s).
Proof. intros H. frame H. Qed.
Lemma reset_wf n s : wfi n s -> wfi n (cache_reset_for_new_session_wrap s).
Proof. intros H. frame H. Qed.
Lemma enq_wf n ok data s : wfi n s -> ProxyCache.data_ok data -> wfi n (cache_enq_wrap ok data s).2.
Proof.
  intros H Hd. unfold cache_enq_wrap. destruct (ProxyCache.cache_append _ _ _ _) as [rc c] eqn:Ha.
  apply ProxyCache.append_spec in Ha as [Hc _]; [|apply H|done]. frame H.
Qed.
Lemma enq_all_wf l : forall ms s, wf s -> batch_ok l -> wf (cache_enq_all ms l s).
Proof.
  induction l as [|b l IH]; intros ms s H Hb; [done|]. apply Forall_cons in Hb as [Hb Hl].
  cbn [cache_enq_all]. by apply IH; [apply enq_wf|].
Qed.
Lemma after_connect_wf s : wf s -> wf (after_connect s).
Proof. intros H. unfold after_connect. destruct (cache_flush_allowed s); [frame H|by apply fwd_clear_wf]. Qed.

Lemma enqueue_wf n ok buf s rc s' : wfi n s -> ProxyCache.data_ok buf -> proxy_fwd_enqueue ok buf s = Some (rc, s') -> wfi n s'.
Proof.
  intros H Hd. unfold proxy_fwd_enqueue. destruct (pfwd_stop s); [by intros [= <- <-]|].
  case_decide as Hm; [done|]. destruct ok; cbn [negb]; [|by intros [= <- <-]]. intros [= <- <-].
  destruct H as [H1 H2 H3 H4 H4' H5 H6]. unfold ProxyCache.data_ok, MAX_PFWD_QUEUE_BYTES, PFWD_BATCH_BYTES_MAX in *.
  pose proof (zlens_nonneg (pfwd s)). assert (0 <= zlen buf < 2 ^ 63) by (unfold zlen; lia).
  rewrite u64_small in Hm by lia.
  unfold fwdq_set_backpressure_locked, fwdq_pending. cbn [fwdq_bp_state pfwd_bytes inflight_bytes upd].
  rewrite H4, !u64_small by (rewrite ?u64_small; lia).
  assert (zlens (pfwd s ++ [buf]) = pfwd_bytes s + zlen buf) as Hq.
  { rewrite zlens_app, H1. cbn [zlens foldr]. lia. }
  unfold PFWD_BACKPRESSURE_HIGH, PFWD_BACKPRESSURE_LOW in *.
  repeat case_bool_decide; cbn [andb]; constructor; cbn [pfwd pfwd_bytes fwdq_bp_state inflight_bytes g_cache connected conn upd];
    rewrite ?Hq, ?u64_small by lia; unfold MAX_PFWD_QUEUE_BYTES, PFWD_BACKPRESSURE_HIGH, PFWD_BACKPRESSURE_LOW, PFWD_BATCH_BYTES_MAX in *;
    try done; lia.
Qed.

(** A batch is a first part of the queue; nothing else changes but the counters. *)
Lemma take_spec s batch flush s' : wf s -> fwd_take s = Some (batch, flush, s') ->
  wf s' /\ batch_ok batch /\ pfwd s = batch ++ pfwd s' /\ flush = cache_flush_pending s /\
  cache_flush_pending s' = false /\
  g_state s' = g_state s /\ g_cache s' = g_cache s /\ connected s' = connected s /\ conn s' = conn s /\
  closed s' = closed s /\ session_id s' = session_id s /\ session_valid s' = session_valid s.
Proof.
  intros H. unfold fwd_take. destruct (_ && _ && _); [done|].
  destruct (take_batch PFWD_BATCH_MAX 0 _) as [got rest] eqn:Ht. apply take_batch_split in Ht.
  cbn [pfwd upd] in Ht. intros [= <- <- <-].
  pose proof H as [H1 H2 H3 H4 _ H5 H6]. rewrite Ht, zlens_app in H1.
  pose proof (zlens_nonneg got). pose proof (zlens_nonneg rest).
  assert (u64 (pfwd_bytes s - zlens got) = zlens rest) as Hu.
  { unfold MAX_PFWD_QUEUE_BYTES in *. rewrite u64_small; lia. }
  case_bool_decide as Hg.
  - subst got. cbn [app] in *. split_and!; try done; [|constructor].
    apply (wf_ext _ _ _ H); try done. by cbn [pfwd_bytes upd]; rewrite Hu, H1.
  - match goal with |- context [fwdq_clear_backpressure_locked ?t] => set (s1 := t) end.
    split_and!; [|apply zlens_batch; lia|..]; try done; try (destruct (clear_bp_frame s1) as [b ->]; done).
    apply (shrink_wf 0 s); try done; [|by left]. cbn [pfwd s1 upd]. rewrite Ht, zlens_app. lia.
Qed.

Lemma advance_concat iov : forall w, concat (advance w iov) = drop w (concat iov).
Proof.
  induction iov as [|b r IH]; intros w; cbn [advance concat]; [by rewrite drop_nil|].
  case_decide; [by rewrite IH, drop_app_ge by lia|]. cbn [concat]. by rewrite drop_app_le by lia.
Qed.
Lemma advance_ok iov : forall w, batch_ok iov -> batch_ok (advance w iov).
Proof.
  induction iov as [|b r IH]; intros w Hb; cbn [advance]; [done|]. apply Forall_cons in Hb as [Hb Hr].
  case_decide; [by apply IH|]. constructor; [|done]. unfold ProxyCache.data_ok in *. rewrite length_drop. lia.
Qed.

(** Whatever [writev] and [poll] answer, what was taken and what is left make up
    the batch; without a connection nothing is taken; what is left unless it gave
    up is empty. *)
Lemma send_loop_spec up answers : forall (iov : list bytes) sent total g (iov' : list bytes) o,
  total = (sent + length (concat iov))%nat -> send_loop up answers iov sent total = Some (g, iov', o) ->
  concat iov = o ++ concat iov' /\ (up = false -> o = []) /\ (g = false -> concat iov' = []) /\
  (batch_ok iov -> batch_ok iov').
Proof.
  assert (Hend : forall (iov : list bytes) sent total, total = (sent + length (concat iov))%nat ->
    iov = [] \/ ~ (sent < total)%nat -> concat iov = []).
  { intros iov sent total -> [->|H]; [done|]. apply length_zero_iff_nil. lia. }
  induction answers as [|a answers IH]; intros iov sent total g iov' o Ht; cbn [send_loop];
    repeat case_bool_decide; cbn [orb negb]; try done;
    try (intros [= <- <- <-]; split_and!; try done; intros _; eapply Hend; eauto; fail).
  destruct (proxy_slave_writev up a _) as [w|] eqn:Hw.
  - unfold proxy_slave_writev in Hw. destruct up; [|done]. destruct (w_took a) as [n|]; [|done].
    injection Hw as <-. destruct (Nat.min n _) as [|w] eqn:Hm; [by intros [= <- <- <-]|].
    destruct (send_loop true answers (advance (S w) iov) _ _) as [[[g1 iov1] o1]|] eqn:Hs; [|done].
    intros [= <- <- <-]. apply IH in Hs as (E1 & _ & E3 & E4).
    + split_and!; [|done|done|intros; by apply E4, advance_ok].
      rewrite <- app_assoc, <- E1, advance_concat. by rewrite take_drop.
    + rewrite Ht, advance_concat, length_drop. lia.
  - destruct (w_errno a); [by apply IH| |by intros [= <- <- <-]].
    destruct (poll_loop (w_polls a)) as [[]|]; [by intros [= <- <- <-]|by apply IH|done].
Qed.

(** The cache after a number of appends. *)
Fixpoint append_all (sid : Z) (ms : list bool) (l : list bytes) (c : ProxyCache.cache) : ProxyCache.cache :=
  match l with
  | [] => c
  | b :: r => append_all sid (tail ms) r (ProxyCache.cache_append (default true (head ms)) b sid c).2
  end.
Lemma enq_all_eq l : forall ms s,
  cache_enq_all ms l s = s <| g_cache := append_all (session_id s) ms l (g_cache s) |>.
Proof.
  induction l as [|b l IH]; intros ms s; cbn [cache_enq_all append_all]; [by destruct s|].
  rewrite IH. unfold cache_enq_wrap.
  by destruct (ProxyCache.cache_append _ b (session_id s) (g_cache s)) as [rc c].
Qed.

(** Every node in the cache is of the session. *)
Definition of_session (sid : Z) (c : ProxyCache.cache) : Prop :=
  Forall (fun n => ProxyCache.n_session n = sid) (ProxyCache.nodes c).
Definition cached (c : ProxyCache.cache) : bytes := ProxyCache.payload (ProxyCache.nodes c).
Lemma payload_app l1 l2 : ProxyCache.payload (l1 ++ l2) = ProxyCache.payload l1 ++ ProxyCache.payload l2.
Proof. unfold ProxyCache.payload. by rewrite map_app, concat_app. Qed.

(** One append that had its memory: kept at the end, unless the cache is given up. *)
Lemma append_cached sid b c : ProxyCache.wf c -> of_session sid c -> ProxyCache.data_ok b ->
  let c' := (ProxyCache.cache_append true b sid c).2 in
  ProxyCache.wf c' /\ of_session sid c' /\
  (ProxyCache.invalid c' = false -> ProxyCache.invalid c = false /\ cached c' = cached c ++ b).
Proof.
  intros Hw Hs Hb. cbn zeta. destruct (ProxyCache.cache_append true b sid c) as [rc c'] eqn:Ha. cbn [snd].
  assert (ProxyCache.invalid c = false \/ c' = c) as Hi.
  { revert Ha. unfold ProxyCache.cache_append. case_decide; [intros [= _ <-]; by right|].
    destruct (ProxyCache.invalid c); [intros [= _ <-]; by right|by left]. }
  assert (rc = ProxyCache.CACHE_APPEND_FAIL -> b = []) as Hf.
  { revert Ha. unfold ProxyCache.cache_append. case_decide as H0; [intros _ _; apply length_zero_iff_nil; lia|].
    destruct (ProxyCache.invalid c); [intros [= <- _]; done|]. case_decide; intros [= <- _]; done. }
  apply ProxyCache.append_spec in Ha as (Hw' & [(-> & Hv & Hn)|[(-> & ->)|(-> & Hv)]]); [..|done|done].
  - split_and!; [done| |].
    + unfold of_session. rewrite Hn. apply Forall_app. split; [done|]. by repeat constructor.
    + intros _. split; [destruct Hi as [Hi| ->]; done|]. unfold cached. rewrite Hn, payload_app. f_equal.
      apply app_nil_r.
  - rewrite (Hf eq_refl), app_nil_r. by split_and!.
  - split_and!; [done| |congruence]. unfold of_session. by rewrite (ProxyCache.wf_invalid _ Hw' Hv).
Qed.
Lemma append_all_cached sid l : forall ms c, ProxyCache.wf c -> of_session sid c -> batch_ok l -> Forall (eq true) ms ->
  let c' := append_all sid ms l c in
  ProxyCache.wf c' /\ of_session sid c' /\
  (ProxyCache.invalid c' = false -> ProxyCache.invalid c = false /\ cached c' = cached c ++ concat l).
Proof.
  induction l as [|b l IH]; intros ms c Hw Hs Hb Hm; cbn zeta; cbn [append_all concat].
  - rewrite app_nil_r. by split_and!.
  - apply Forall_cons in Hb as [Hb Hl]. destruct (append_cached sid b c) as (Hw1 & Hs1 & H1); [done..|].
    assert (default true (head ms) = true /\ Forall (eq true) (tail ms)) as [-> Ht].
    { destruct Hm as [|? ? <- ?]; by cbn. }
    destruct (IH (tail ms) (ProxyCache.cache_append true b sid c).2) as (Hw2 & Hs2 & H2); [done..|].
    split_and!; [done..|]. intros Hi. destruct (H2 Hi) as [Hi1 ->]. destruct (H1 Hi1) as [Hi0 ->].
    by rewrite <- app_assoc.
Qed.

Lemma inflight_balanced t T a : u64 (u64 (u64 (t + T) - a) - (T - a)) = u64 t.
Proof.
  unfold u64. rewrite Zminus_mod_idemp_l, <- Z.sub_add_distr, Zminus_mod_idemp_l. f_equal. lia.
Qed.

Lemma flush_cache_wf sid answers c k o c' : ProxyCache.wf c -> ProxyCache.cache_flush true sid answers c = Some (k, o, c') ->
  ProxyCache.wf c' /\ ProxyCache.invalid c' = ProxyCache.invalid c /\
  ProxyCache.flushed sid (ProxyCache.nodes c) (ProxyCache.nodes c') k o.
Proof.
  intros [Hne Ht Hc Hm Hinv Hh Hl] H. unfold ProxyCache.cache_flush in H. cbn [negb] in H.
  destruct (ProxyCache.flush_loop sid answers (ProxyCache.nodes c) c) as [[[k1 o1] c1]|] eqn:Hf; [|done].
  apply ProxyCache.flush_loop_spec in Hf as ((E1 & E2 & E3 & E4) & Hi & Ho & Hle & Hfl); [|by split_and!|done].
  injection H as <- <- <-. destruct (ProxyCache.settle_wf c1) as (Hw & Hi' & Hn').
  - by split_and!.
  - rewrite Hi. intros Hx. rewrite (Hinv Hx) in Hfl. destruct Hfl as (gone & part & Hg & _).
    symmetry in Hg. by apply app_eq_nil in Hg as [_ ->].
  - rewrite Ho. intros. apply Hh. lia.
  - by rewrite Hi', Hn'.
Qed.

Lemma flush_wf flush answers s s' : wf s -> fwd_flush flush answers s = Some s' -> wf s'.
Proof.
  intros H. unfold fwd_flush. destruct flush; cbn [negb]; [|by intros [= <-]].
  destruct (cache_flush_allowed s); cbn [negb]; [|intros [= <-]; by apply fwd_clear_wf].
  destruct (_ && _) eqn:Hc; [|by intros [= <-]]. apply andb_prop in Hc as [_ Hc].
  unfold proxy_slave_is_connected in Hc.
  destruct (ProxyCache.cache_flush true _ _ _) as [[[k o] c]|] eqn:Hf; [|done]. intros [= <-].
  apply flush_cache_wf in Hf as (Hw & _); [|apply H].
  match goal with |- wf (match _ with [] => ?t | _ => _ end) => assert (wf t) as Ht by (frame H; cbn [connected upd]; congruence) end.
  destruct (ProxyCache.nodes c); [done|by apply disconnect_wf].
Qed.

Lemma send_wf ms answers batch s s' : wf s -> batch_ok batch -> fwd_send ms answers batch s = Some s' -> wf s'.
Proof.
  intros H Hb. unfold fwd_send. destruct batch as [|b0 bs]; [by intros [= <-]|]. remember (b0 :: bs) as batch.
  unfold proxy_fwd_send_batch. destruct (g_state s); [|intros [= <-]; by apply enq_all_wf].
  destruct (send_loop _ _ _ _ _) as [[[g iov] o]|] eqn:Hl; [|done]. intros [= <-].
  apply send_loop_spec in Hl as (_ & Ho & _ & Hok); [|done].
  match goal with |- context [cache_enq_all ms iov ?t] => set (s1 := t) end.
  assert (wf s1) as H1.
  { frame H; cbn [inflight_bytes upd s1].
    - rewrite inflight_balanced, (wf_inflight H). done.
    - intros Hc. subst s1. cbn [conn upd connected] in *. by rewrite (Ho Hc), (wf_conn H Hc). }
  clearbody s1. destruct (_ && _); [|done].
  assert (wf (proxy_slave_disconnect (cache_enq_all ms iov s1))) as H2.
  { apply disconnect_wf, enq_all_wf; auto. }
  frame H2.
Qed.

Lemma emit_wf ok buf s rc s' : wf s -> ProxyCache.data_ok buf -> commit_emit ok buf s = Some (rc, s') -> wf s'.
Proof.
  intros H Hd. unfold commit_emit. destruct (capture_drop s); [intros [= <- <-]; frame H|].
  destruct (g_state s).
  - destruct (proxy_slave_is_connected s); [by apply enqueue_wf|intros [= <- <-]; frame H].
  - pose proof (enq_wf 0 ok buf s H Hd) as He. destruct (cache_enq_wrap ok buf s) as [rc1 s1]. cbn [snd] in He.
    intros [= <- <-]. case_decide; [|done]. unfold commit_fault_cb. destruct (shutdown s1); [done|].
    apply disconnect_wf. frame He.
Qed.
Lemma drop_pending_wf d s : wf s -> wf (proxy_capture_drop_pending d s).
Proof.
  intros H. unfold proxy_capture_drop_pending. apply disconnect_wf.
  match goal with |- context [proxy_fwd_drain_to_cache_or_discard ?t] =>
    assert (wf (proxy_fwd_drain_to_cache_or_discard t)) as Hd by (apply drain_wf; frame H);
    set (s1 := proxy_fwd_drain_to_cache_or_discard t) in * end.
  clearbody s1. frame Hd.
Qed.
Lemma session_wf sid v c s : wf s -> wf (poll_session_state sid v c s).
Proof.
  intros H. unfold poll_session_state. destruct (_ && _ && _); [done|].
  match goal with |- context [session_valid (?t <| session_valid := _ |> <| cache_invalid_remote := _ |>)] =>
    assert (wf t) as Ht by (destruct (bool_decide _); [|done]; apply drain_wf; case_decide; frame H); set (s1 := t) in * end.
  clearbody s1. match goal with |- context [cache_clear_wrap ?t] => assert (wf t) as H2 by (frame Ht); set (s2 := t) in * end.
  clearbody s2. case_decide; [by apply drain_wf, fwd_clear_wf|]. by case_decide; [apply fwd_clear_wf|].
Qed.
Lemma barrier_wf v s : wf s -> wf (poll_barrier v s).
Proof.
  intros H. unfold poll_barrier. destruct (_ && _).
  - match goal with |- context [cache_reset_for_new_session_wrap ?t] =>
      assert (wf (cache_reset_for_new_session_wrap t)) as Ht by (apply reset_wf, drain_wf; frame H);
      set (s1 := cache_reset_for_new_session_wrap t) in * end.
    clearbody s1. frame Ht.
  - destruct (_ && _); [|done].
    match goal with |- wf (if cache_flush_allowed ?t then _ else _) => assert (wf t) as Ht by (frame H); set (s1 := t) in * end.
    clearbody s1. destruct (cache_flush_allowed s1); [frame Ht|by apply fwd_clear_wf].
Qed.

Lemma step_wf o k k' : op_ok o -> wf (sys k) -> pos_ok (thread k) -> step o k = Some k' ->
  wf (sys k') /\ pos_ok (thread k').
Proof.
  intros Ho Hw Hp. destruct o; cbn [step op_ok] in *.
  - destruct (commit_emit _ _ _) as [[rc s']|] eqn:He; [|done]. intros [= <-]. split; [|done]. by eapply emit_wf.
  - intros [= <-]. split; [|done]. unfold proxy_capture_gate_poll. cbn [sys].
    destruct (_ && negb _); [by apply drop_pending_wf|]. destruct (_ && _); [frame Hw|done].
  - intros [= <-]. split; [|done]. unfold handle_fault. cbn [sys]. destruct (_ && _); [|done].
    pose proof (drop_pending_wf discarded _ Hw) as Hd.
    set (s1 := proxy_capture_drop_pending _ _) in *. clearbody s1. frame Hd.
  - intros [= <-]. split; [|done]. unfold ringbuf_callback. cbn [sys].
    destruct (_ && _); [frame Hw|]. case_decide; [frame Hw|]. case_decide; frame Hw.
  - intros [= <-]. split; [|done]. by apply session_wf.
  - intros [= <-]. split; [|done]. by apply barrier_wf.
  - intros [= <-]. split; [|done]. unfold reconnect. cbn [sys].
    destruct (proxy_slave_is_connected _); [done|]. apply after_connect_wf. frame Hw.
  - destruct (thread k); [|done..]. destruct (fwd_take _) as [[[b f] s']|] eqn:He; [|done]. intros [= <-].
    apply take_spec in He as (H1 & H2 & _); [|done]. done.
  - destruct (thread k); [done| |done]. destruct (fwd_flush _ _ _) as [s'|] eqn:He; [|done]. intros [= <-].
    apply flush_wf in He; done.
  - destruct (thread k); [done..|]. destruct (fwd_send _ _ _ _) as [s'|] eqn:He; [|done]. intros [= <-].
    apply send_wf in He; done.
  - destruct (thread k); [|done..]. unfold cycle. destruct (fwd_take _) as [[[b f] s1]|] eqn:He; [|done]. cbn [mbind option_bind].
    apply take_spec in He as (H1 & H2 & _); [|done].
    destruct (fwd_flush _ _ _) as [s2|] eqn:Hf; [|done]. cbn [mbind option_bind]. apply flush_wf in Hf; [|done].
    destruct (fwd_send _ _ _ _) as [s3|] eqn:Hs; [|done]. intros [= <-]. apply send_wf in Hs; done.
Qed.

Lemma run_wf ops : forall k k', Forall op_ok ops -> wf (sys k) -> pos_ok (thread k) -> run ops k = Some k' ->
  wf (sys k') /\ pos_ok (thread k').
Proof.
  induction ops as [|o ops IH]; intros k k' Hok Hw Hp; cbn [run]; [by intros [= <-]|].
  apply Forall_cons in Hok as [Ho Hok]. destruct (step o k) as [k1|] eqn:Hs; [|done]. cbn [mbind option_bind].
  destruct (step_wf o k k1 Ho Hw Hp Hs). by apply IH.
Qed.
Lemma fwd_init_wf : wf (sys (Config Idle fwd_init)).
Proof. constructor; try done. by left. Qed.

(** *** The invariant between any two steps *)

(** The bytes of the batch that have not been sent, while it is being sent. *)
Definition in_air (p : fpos) : Z :=
  match p with FSending iov _ _ | FSent _ iov _ _ => zlens iov | _ => 0 end.
Definition small_batch (l : list bytes) : Prop := batch_ok l /\ zlens l <= PFWD_BATCH_BYTES_MAX.
Definition fpos_ok (p : fpos) : Prop :=
  match p with
  | FIdle | FAsking => True
  | FTook b _ | FChecked b _ | FRefused b | FFlushing b | FLooking b | FBroken b | FReady b => small_batch b
  | FSending iov sent total | FSent _ iov sent total =>
      batch_ok iov /\ (total = sent + length (concat iov))%nat /\ Z.of_nat total <= PFWD_BATCH_BYTES_MAX
  | FPutting l _ => batch_ok l
  end.
Definition fine_ok (c : fpos * fwd) : Prop := wfi (in_air c.1) c.2 /\ fpos_ok c.1.

Lemma zlens_concat l : zlens l = Z.of_nat (length (concat l)).
Proof.
  unfold zlens, zlen. induction l as [|b l IH]; cbn [foldr concat]; [done|]. rewrite length_app. lia.
Qed.
Lemma take_batch_bytes n : forall t q got rest, take_batch n t q = (got, rest) -> 0 <= t <= PFWD_BATCH_BYTES_MAX ->
  batch_ok q -> t + zlens got <= PFWD_BATCH_BYTES_MAX.
Proof.
  unfold PFWD_BATCH_BYTES_MAX.
  induction n as [|n IH]; intros t [|b q] got rest; cbn [take_batch]; try (intros [= <- <-]; cbn; lia).
  case_decide as Hd; [|intros [= <- <-]; cbn; lia]. unfold PFWD_BATCH_BYTES_MAX in Hd.
  destruct (take_batch n (u64 (t + zlen b)) q) as [g r] eqn:Ht. intros [= <- <-] Hb Hq.
  apply Forall_cons in Hq as [Hl Hq]. unfold ProxyCache.data_ok in Hl.
  assert (u64 (t + zlen b) = t + zlen b) as Hu by (apply u64_small; unfold zlen; lia).
  rewrite Hu in *. apply IH in Ht; [|unfold zlen in *; lia|done]. cbn [zlens foldr]. unfold zlens in *. lia.
Qed.
Lemma take_small s batch flush s' : wf s -> fwd_take s = Some (batch, flush, s') -> small_batch batch.
Proof.
  intros H Ht. split; [by apply take_spec in Ht as (_ & ? & _)|]. revert Ht. unfold fwd_take.
  destruct (_ && _ && _); [done|]. destruct (take_batch PFWD_BATCH_MAX 0 _) as [got rest] eqn:Hb. intros [= <- _ _].
  apply take_batch_bytes in Hb; [lia|unfold PFWD_BATCH_BYTES_MAX; lia|].
  apply zlens_batch. change (zlens (pfwd s) <= MAX_PFWD_QUEUE_BYTES). rewrite <- (wf_bytes H). apply (wf_queue H).
Qed.

Lemma main_step_wf n s s' : wfi n s -> main_step s s' -> wfi n s'.
Proof.
  intros H Hs. destruct Hs as [s s' He| | | | | | | | | |s Hc].
  - injection He as _ E1 E2 _ _ E3 _ _ E4 E5 E6 E7 _. apply (wf_ext n s); try done.
    + rewrite E5. apply H.
    + rewrite E6, E7. apply H.
  - frame H.
  - by eapply enqueue_wf.
  - by apply drain_wf.
  - by apply enq_wf.
  - by apply fwd_clear_wf.
  - by apply reset_wf.
  - frame H.
  - frame H.
  - by apply disconnect_wf.
  - frame H.
Qed.

Lemma writev_turn_ok a iov sent total s p' s' : fine_ok (FSending iov sent total, s) ->
  writev_turn a iov sent total s = Some (p', s') -> fine_ok (p', s').
Proof.
  intros [H (Hb & Ht & Hm)]. unfold writev_turn.
  assert (Hst : forall g, fine_ok (FSent g iov sent total, s)) by (intros g; by split).
  destruct (proxy_slave_writev (connected s) a _) as [w|] eqn:Hw.
  - unfold proxy_slave_writev in Hw. destruct (connected s) eqn:Hc; [|done]. destruct (w_took a) as [n|]; [|done].
    injection Hw as <-. destruct (Nat.min n _) as [|w] eqn:Hmin; intros [= <- <-]; [done|].
    set (v := S w) in *. assert (v <= length (concat iov))%nat by lia. clearbody v.
    pose proof H as [H1 H2 H3 H4 H4' H5 H6]. cbn [fst snd in_air] in *.
    assert (zlens (advance v iov) = zlens iov - Z.of_nat v) as Hz by
      (rewrite !zlens_concat, advance_concat, length_drop; lia).
    assert (0 <= zlens iov - Z.of_nat v) by (rewrite zlens_concat; lia).
    split; cbn [fst snd in_air fpos_ok].
    + constructor; cbn [pfwd pfwd_bytes fwdq_bp_state inflight_bytes g_cache connected conn upd]; try done; [| |congruence].
      * rewrite Hz, H4, u64_small; [done|]. unfold PFWD_BATCH_BYTES_MAX in *. lia.
      * lia.
    + split_and!; [by apply advance_ok| |done]. rewrite advance_concat, length_drop. lia.
  - destruct (w_errno a); [by intros [= <- <-]| |by intros [= <- <-]].
    destruct (poll_loop (w_polls a)) as [[]|]; [by intros [= <- <-]..|done].
Qed.

Lemma fine_step_ok c c' : fine_ok c -> fine c c' -> fine_ok c'.
Proof.
  intros Hok Hs. pose proof Hok as [H Hp].
  destruct Hs as [p s s' Hm _|b f s s' Ht| | | | |b f s _|b answers k o c s Hf|b s| | |b s Hb Hg| |a iov sent total s p' s' _ _ Ht
    |iov sent total s Ho|g iov sent total s|ok b r f s| | |]; cbn [fst snd in_air fpos_ok] in *; try done.
  - split; [by eapply main_step_wf|done].
  - split; [by apply take_spec in Ht as (? & _)|by eapply take_small].
  - split; [by apply fwd_clear_wf|done].
  - by destruct (f && _).
  - split; [|done]. cbn [fst snd in_air]. destruct (connected s) eqn:Hc.
    + apply flush_cache_wf in Hf as (Hw & _); [|apply H]. frame H; cbn; congruence.
    + cbn in Hf. injection Hf as _ <- <-. frame H. intros Hx. cbn. by rewrite app_nil_r, (wf_conn H Hx).
  - by destruct (ProxyCache.nodes _).
  - split; [by apply disconnect_wf|done].
  - destruct Hp as [Hb1 Hb2]. rewrite zlens_concat in Hb2. pose proof H as [H1 H2 H3 H4 H4' H5 H6]. split; cbn.
    + constructor; cbn [pfwd pfwd_bytes fwdq_bp_state inflight_bytes g_cache connected conn upd]; try done;
        rewrite zlens_concat; [|lia]. rewrite H4. unfold PFWD_BATCH_BYTES_MAX in *. rewrite u64_small; lia.
    + by split_and!.
  - by split; [|apply Hp].
  - by eapply writev_turn_ok.
  - destruct Hp as (Hb & Ht & Hm). pose proof H as [H1 H2 H3 H4 H4' H5 H6].
    assert (wf (s <| inflight_bytes ::= fun t => u64 (t - (Z.of_nat total - Z.of_nat sent)) |>)) as Hw.
    { constructor; cbn [pfwd pfwd_bytes fwdq_bp_state inflight_bytes g_cache connected conn upd]; try done.
      - rewrite H4, zlens_concat. replace (_ - _) with 0 by lia. done. }
    by destruct (bool_decide _ && g).
  - apply Forall_cons in Hp as [Hb Hr]. split; [by apply enq_wf|done].
  - split; [by apply disconnect_wf|done].
  - split; [|done]. frame H.
Qed.

Lemma fine_run_ok c c' : fine_ok c -> rtc fine c c' -> fine_ok c'.
Proof. intros H Hr. induction Hr as [|x y z Hs _ IH]; [done|]. by apply IH, (fine_step_ok x). Qed.


(** *** The regions above are made of these steps *)

Lemma mains p s s' : holds_state_lock p = false -> rtc main_step s s' -> rtc fine (p, s) (p, s').
Proof.
  intros Hp Hr. induction Hr as [|x y z Hs _ IH]; [done|]. eapply rtc_l; [|exact IH].
  apply fine_main; [done|]. by rewrite Hp.
Qed.

Lemma drop_pending_steps d s : rtc main_step s (proxy_capture_drop_pending d s).
Proof.
  unfold proxy_capture_drop_pending. cbv zeta.
  match goal with |- context [proxy_fwd_drain_to_cache_or_discard ?t] => transitivity t; [|set (s1 := t)] end.
  - eapply rtc_l; [apply (main_state STATE_BUFFERING)|]. apply rtc_once, main_own. reflexivity.
  - eapply rtc_l; [apply main_drain|]. generalize (proxy_fwd_drain_to_cache_or_discard s1). intros u.
    eapply rtc_r; [|apply main_down]. eapply rtc_r; [|apply main_destroy]. apply rtc_once, main_own. reflexivity.
Qed.
Lemma after_connect_steps s : rtc main_step s (after_connect s).
Proof. unfold after_connect. destruct (cache_flush_allowed s); apply rtc_once; [apply main_ask|apply main_clear]. Qed.
Lemma session_steps sid v c s : rtc main_step s (poll_session_state sid v c s).
Proof.
  unfold poll_session_state. destruct (_ && _ && _); [done|].
  match goal with |- context [session_valid (?t <| session_valid := _ |> <| cache_invalid_remote := _ |>)] =>
    assert (rtc main_step s t) as Ht; [|set (s1 := t) in *] end.
  { destruct (bool_decide _); [|done]. eapply rtc_r; [|apply main_drain].
    eapply rtc_l; [apply (main_own s (s <| session_id := sid |>)); reflexivity|].
    case_decide; apply rtc_once; [apply main_reset|apply main_clear]. }
  clearbody s1. etrans; [exact Ht|]. eapply rtc_l; [apply (main_own s1 (s1 <| session_valid := i32 v |> <| cache_invalid_remote := i32 c |>)); reflexivity|].
  case_decide; [eapply rtc_l; [apply main_clear|apply rtc_once, main_drain]|]. case_decide; [apply rtc_once, main_clear|done].
Qed.
Lemma barrier_steps v s : rtc main_step s (poll_barrier v s).
Proof.
  unfold poll_barrier. destruct (_ && _).
  - eapply rtc_l; [apply (main_own s (s <| fs_req_seen := 1 |>)); reflexivity|].
    eapply rtc_l; [apply (main_state STATE_BUFFERING)|]. eapply rtc_l; [apply main_drain|].
    eapply rtc_l; [apply main_reset|]. generalize (cache_reset_for_new_session_wrap (proxy_fwd_drain_to_cache_or_discard
      (set_state STATE_BUFFERING (s <| fs_req_seen := 1 |>)))). intros u. apply rtc_once, main_own. reflexivity.
  - destruct (_ && _); [|done].
    transitivity ((set_state STATE_FORWARDING (s <| fs_req_seen := 0 |>)) <| proxy_state_ctl := 0 |>);
      [|apply after_connect_steps].
    eapply rtc_l; [apply (main_own s (s <| fs_req_seen := 0 |>)); reflexivity|].
    eapply rtc_l; [apply (main_state STATE_FORWARDING)|]. apply rtc_once, main_own. reflexivity.
Qed.
Lemma emit_steps ok buf s rc s' : ProxyCache.data_ok buf -> commit_emit ok buf s = Some (rc, s') -> rtc main_step s s'.
Proof.
  intros Hd. unfold commit_emit. destruct (capture_drop s); [intros [= _ <-]; by apply rtc_once, main_own|].
  destruct (g_state s).
  - destruct (proxy_slave_is_connected s); [|intros [= _ <-]; by apply rtc_once, main_own].
    intros He. by eapply rtc_once, main_enqueue.
  - pose proof (main_cache ok buf s Hd) as Hm. destruct (cache_enq_wrap ok buf s) as [rc1 s1]. cbn [snd] in Hm.
    intros [= _ <-]. eapply rtc_l; [exact Hm|]. case_decide; [|done]. unfold commit_fault_cb.
    destruct (shutdown s1); [done|]. eapply rtc_r; [|apply main_down]. eapply rtc_r; [|apply main_state].
    apply rtc_once, main_own. reflexivity.
Qed.

Lemma flush_steps b flush answers s s' : fwd_flush flush answers s = Some s' ->
  rtc fine (FTook b flush, s) (FReady b, s').
Proof.
  unfold fwd_flush. destruct flush; cbn [negb]; [|intros [= <-]; apply rtc_once, fine_no_flush].
  intros H. eapply rtc_l; [apply fine_check|]. destruct (cache_flush_allowed s) eqn:Ha; cbn [negb] in H.
  2: { injection H as <-. eapply rtc_l; [by apply fine_refuse|]. apply rtc_once, fine_clear. }
  eapply rtc_l; [by apply fine_allow|]. destruct (_ && _) eqn:Hc; [|by injection H as <-].
  apply andb_prop in Hc as [_ Hc]. unfold proxy_slave_is_connected in Hc.
  destruct (ProxyCache.cache_flush true _ _ _) as [[[k o] c]|] eqn:Hf; [|done]. injection H as <-.
  eapply rtc_l; [apply (fine_flush b answers k o c); by rewrite Hc|]. eapply rtc_l; [apply fine_look|].
  cbn [g_cache upd]. destruct (ProxyCache.nodes c); [done|]. apply rtc_once, fine_broken.
Qed.

Lemma put_steps f l : forall ms s, rtc fine (FPutting l f, s) (FPutting [] f, cache_enq_all ms l s).
Proof.
  induction l as [|b l IH]; intros ms s; cbn [cache_enq_all]; [done|].
  eapply rtc_l; [apply (fine_put (default true (head ms)))|]. apply IH.
Qed.
(** The counters a [writev] of [n] bytes moves. *)
Definition sent_on (o : bytes) (s : fwd) : fwd :=
  s <| conn ::= fun c => c ++ o |> <| sent_bytes ::= fun t => u64 (t + zlen o) |>
    <| inflight_bytes ::= fun t => u64 (t - zlen o) |>.
Lemma sent_on_nil s : u64 (sent_bytes s) = sent_bytes s -> u64 (inflight_bytes s) = inflight_bytes s -> sent_on [] s = s.
Proof.
  intros H1 H2. destruct s. unfold sent_on. change (zlen []) with 0. cbn in H1, H2. cbv -[Z.add Z.sub u64 app]. by rewrite Z.add_0_r, Z.sub_0_r, app_nil_r, H1, H2.
Qed.
Lemma sent_on_app o1 o2 s : sent_on o2 (sent_on o1 s) = sent_on (o1 ++ o2) s.
Proof.
  destruct s. cbv -[Z.add Z.sub u64 app zlen].
  assert (zlen (o1 ++ o2) = zlen o1 + zlen o2) as -> by (unfold zlen; rewrite length_app; lia).
  unfold u64. rewrite Zplus_mod_idemp_l, Zminus_mod_idemp_l, <- app_assoc. f_equal; f_equal; lia.
Qed.
Lemma send_loop_steps answers : forall iov sent total g iov' o s,
  u64 (sent_bytes s) = sent_bytes s -> u64 (inflight_bytes s) = inflight_bytes s ->
  send_loop (connected s) answers iov sent total = Some (g, iov', o) ->
  rtc fine (FSending iov sent total, s) (FSent g iov' (sent + length o) total, sent_on o s).
Proof.
  induction answers as [|a answers IH]; intros iov sent total g iov' o s H1 H2; cbn [send_loop];
    (destruct (bool_decide (iov = []) || _) eqn:Hg;
     [intros [= <- <- <-]; rewrite sent_on_nil, Nat.add_0_r by done; apply rtc_once, fine_out;
      apply orb_prop in Hg as [Hg|Hg]; [left; by apply bool_decide_eq_true in Hg|right; by apply negb_true_iff, bool_decide_eq_false in Hg]|]);
    [done|].
  apply orb_false_iff in Hg as [Hn Ht]. apply bool_decide_eq_false in Hn. apply negb_false_iff, bool_decide_eq_true in Ht.
  destruct (proxy_slave_writev (connected s) a _) as [[|w]|] eqn:Hw.
  - intros [= <- <- <-]. rewrite sent_on_nil, Nat.add_0_r by done. apply rtc_once, (fine_turn a); try done.
    unfold writev_turn. by rewrite Hw.
  - assert (S w <= length (concat iov))%nat as Hle.
    { unfold proxy_slave_writev in Hw. destruct (connected s); [|done]. destruct (w_took a); [|done]. injection Hw. lia. }
    destruct (send_loop _ answers _ _ _) as [[[g1 iov1] o1]|] eqn:Hs; [|done]. intros [= <- <- <-].
    assert (sent_on (take (S w) (concat iov)) s = s <| conn ::= fun c => c ++ take (S w) (concat iov) |>
      <| sent_bytes ::= fun t => u64 (t + Z.of_nat (S w)) |> <| inflight_bytes ::= fun t => u64 (t - Z.of_nat (S w)) |>) as He.
    { unfold sent_on, zlen. rewrite length_take, Nat.min_l by lia. done. }
    eapply rtc_l; [apply (fine_turn a); [done..|]; unfold writev_turn; by rewrite Hw|]. rewrite <- He.
    rewrite <- sent_on_app, length_app, length_take, Nat.min_l, Nat.add_assoc by lia.
    apply IH; [..|exact Hs]; unfold sent_on; cbn [sent_bytes inflight_bytes upd]; unfold u64; by rewrite Zmod_mod.
  - intros H. destruct (w_errno a) eqn:Hx.
    + eapply rtc_l; [apply (fine_turn a); [done..|]; unfold writev_turn; by rewrite Hw, Hx|]. by apply IH.
    + destruct (poll_loop (w_polls a)) as [[]|] eqn:Hp; [| |done].
      * injection H as <- <- <-. rewrite sent_on_nil, Nat.add_0_r by done. apply rtc_once, (fine_turn a); try done.
        unfold writev_turn. by rewrite Hw, Hx, Hp.
      * eapply rtc_l; [apply (fine_turn a); [done..|]; unfold writev_turn; by rewrite Hw, Hx, Hp|]. by apply IH.
    + injection H as <- <- <-. rewrite sent_on_nil, Nat.add_0_r by done. apply rtc_once, (fine_turn a); try done.
      unfold writev_turn. by rewrite Hw, Hx.
Qed.
Lemma send_steps ms answers batch s s' : u64 (sent_bytes s) = sent_bytes s ->
  fwd_send ms answers batch s = Some s' -> rtc fine (FReady batch, s) (FIdle, s').
Proof.
  intros Hs. unfold fwd_send. destruct batch as [|b r]; [intros [= <-]; apply rtc_once, fine_skip|].
  assert (b :: r <> []) as Hne by done. revert Hne. generalize (b :: r) as batch. intros batch Hne.
  unfold proxy_fwd_send_batch. destruct (g_state s) eqn:Hg.
  - destruct (send_loop _ _ _ _ _) as [[[g iov] o]|] eqn:Hl; [|done]. intros H.
    eapply rtc_l; [by apply fine_begin|].
    match goal with |- rtc fine (FSending _ _ _, ?t) _ => assert (connected t = connected s) as Hc by done; set (s1 := t) in * end.
    etrans; [apply (send_loop_steps answers _ _ _ g iov o s1); [done|unfold s1; cbn; unfold u64; by rewrite Zmod_mod|exact Hl]|].
    eapply rtc_l; [apply fine_settle|]. cbn [Nat.add].
    match type of H with context [cache_enq_all ms iov ?t] => match goal with |- rtc fine (_, ?u) _ => assert (u = t) as He end end.
    { subst s1. destruct s. unfold sent_on, zlen. cbn. done. }
    rewrite He. clear He. destruct (bool_decide _ && g); injection H as <-; [|done].
    etrans; [apply (put_steps true iov ms)|]. eapply rtc_l; [apply fine_down|]. apply rtc_once, fine_ask.
  - intros [= <-]. eapply rtc_l; [by apply fine_divert|]. etrans; [apply (put_steps false batch ms)|].
    apply rtc_once, fine_put_done.
Qed.

(** A step of [step] is a run of these steps. *)
Definition fine_of (k : config) : fpos * fwd :=
  (match thread k with Idle => FIdle | Taken b f => FTook b f | Flushed b => FReady b end, sys k).
Lemma flush_sent_bytes f answers s s' : fwd_flush f answers s = Some s' -> sent_bytes s' = sent_bytes s.
Proof.
  unfold fwd_flush. repeat case_match; try done; intros [= <-]; try done. unfold proxy_slave_disconnect. by case_match.
Qed.
Lemma take_sent_bytes s b f s' : fwd_take s = Some (b, f, s') -> sent_bytes s' = sent_bytes s.
Proof.
  unfold fwd_take. destruct (_ && _ && _); [done|]. destruct (take_batch _ _ _). intros [= _ _ <-].
  case_bool_decide; [done|]. match goal with |- context [fwdq_clear_backpressure_locked ?t] => by destruct (clear_bp_frame t) as [? ->] end.
Qed.
Lemma step_steps o k k' : op_ok o -> u64 (sent_bytes (sys k)) = sent_bytes (sys k) -> step o k = Some k' ->
  rtc fine (fine_of k) (fine_of k').
Proof.
  intros Ho Hu. destruct o; cbn [step op_ok] in *; unfold fine_of.
  - destruct (commit_emit _ _ _) as [[rc s']|] eqn:He; [|done]. intros [= <-]. apply mains; [by destruct (thread k)|]. by eapply emit_steps.
  - intros [= <-]. apply mains; [by destruct (thread k)|]. unfold proxy_capture_gate_poll. cbn [sys].
    destruct (_ && negb _); [apply drop_pending_steps|]. destruct (_ && _); [by apply rtc_once, main_own|done].
  - intros [= <-]. apply mains; [by destruct (thread k)|]. unfold handle_fault. cbn [sys].
    destruct (_ && _); [|done]. etrans; [apply (drop_pending_steps discarded)|].
    generalize (proxy_capture_drop_pending discarded (sys k)). intros u. apply rtc_once, main_own. reflexivity.
  - intros [= <-]. apply mains; [by destruct (thread k)|]. unfold ringbuf_callback. cbn [sys].
    repeat case_match; by apply rtc_once, main_own.
  - intros [= <-]. apply mains; [by destruct (thread k)|]. apply session_steps.
  - intros [= <-]. apply mains; [by destruct (thread k)|]. apply barrier_steps.
  - intros [= <-]. apply mains; [by destruct (thread k)|]. unfold reconnect, proxy_slave_is_connected. cbn [sys].
    destruct (connected (sys k)) eqn:Hc; [done|]. eapply rtc_l; [by apply main_up|]. apply after_connect_steps.
  - destruct (thread k); [|done..]. destruct (fwd_take _) as [[[b f] s']|] eqn:He; [|done]. intros [= <-]. by apply rtc_once, fine_take.
  - destruct (thread k); [done| |done]. destruct (fwd_flush _ _ _) as [s'|] eqn:He; [|done]. intros [= <-]. by eapply flush_steps.
  - destruct (thread k); [done..|]. destruct (fwd_send _ _ _ _) as [s'|] eqn:He; [|done]. intros [= <-]. by eapply send_steps.
  - destruct (thread k); [|done..]. unfold cycle. destruct (fwd_take _) as [[[b f] s1]|] eqn:He; [|done]. cbn [mbind option_bind].
    destruct (fwd_flush _ _ _) as [s2|] eqn:Hf; [|done]. cbn [mbind option_bind].
    destruct (fwd_send _ _ _ _) as [s3|] eqn:Hs; [|done]. intros [= <-].
    eapply rtc_l; [by apply fine_take|]. etrans; [by eapply flush_steps|]. eapply send_steps; [|exact Hs].
    by rewrite (flush_sent_bytes _ _ _ _ Hf), (take_sent_bytes _ _ _ _ He).
Qed.

(** ** The stream the replica sees *)

(** A stretch of the stream: what a connection that is closed moved it on by, and
    what else that connection carried of the bytes that follow. *)
Definition stretch : Type := bytes * bytes.
Definition carried (l : list stretch) : list bytes := map (fun x => x.1 ++ x.2) l.
Definition progress (l : list stretch) : bytes := concat (map fst l).
Fixpoint resends (l : list stretch) (stream : bytes) : Prop :=
  match l with
  | [] => True
  | (d, p) :: r => exists rest, stream = d ++ rest /\ p `prefix_of` rest /\ resends r rest
  end.
Lemma resends_grow l : forall stream x, resends l stream -> resends l (stream ++ x).
Proof.
  induction l as [|[d p] l IH]; intros stream x; [done|]. intros (rest & -> & Hp & Hr).
  exists (rest ++ x). split_and!; [by rewrite app_assoc|by apply prefix_app_r|by apply IH].
Qed.
Lemma resends_snoc l : forall d p rest, resends l (progress l ++ d ++ rest) -> p `prefix_of` rest ->
  resends (l ++ [(d, p)]) (progress l ++ d ++ rest).
Proof.
  induction l as [|[d0 p0] l IH]; intros d p rest Hr Hp; cbn [app resends].
  - exists rest. done.
  - destruct Hr as (rest0 & He & Hp0 & Hr). exists rest0. unfold progress in He. cbn [map concat fst] in He.
    rewrite <- app_assoc in He. apply app_inv_head in He as <-. split_and!; [|done|by apply IH].
    unfold progress. cbn [map concat fst]. by rewrite <- app_assoc.
Qed.

(** The stream [acc] that was accepted is what the closed connections moved it on
    by, what the present one carried, the cache, and then [tail]. *)
Definition D (cl0 : list bytes) (acc tail : bytes) (s : fwd) : Prop :=
  exists l, closed s = cl0 ++ carried l /\ acc = progress l ++ conn s ++ cached (g_cache s) ++ tail /\ resends l acc.

(** The connection is lost after carrying [d] and [part], of which [d] counts. *)
Lemma D_close cl0 acc l w d part rest tail s' :
  acc = progress l ++ w ++ d ++ rest -> resends l acc -> part `prefix_of` rest ->
  closed s' = (cl0 ++ carried l) ++ [w ++ d ++ part] -> conn s' = [] -> rest = cached (g_cache s') ++ tail ->
  D cl0 acc tail s'.
Proof.
  intros Ha Hr Hp Hc Hn Hq. exists (l ++ [(w ++ d, part)]).
  unfold carried, progress. rewrite !map_app, concat_app. cbn [map concat fst snd].
  rewrite Hn, app_nil_r. cbn [app]. split_and!.
  - rewrite Hc. unfold carried. by rewrite <- !app_assoc.
  - rewrite Ha, Hq. unfold progress. by rewrite <- !app_assoc.
  - rewrite Ha in *. rewrite (app_assoc w) in *. by apply resends_snoc.
Qed.

Lemma mine_session sid l l' c : of_session sid c -> ProxyCache.nodes c = l ++ l' ->
  ProxyCache.mine sid l = l /\ Forall (fun n => ProxyCache.n_session n = sid) l'.
Proof.
  unfold of_session. intros H He. rewrite He in H. apply Forall_app in H as [H1 H2].
  split; [by apply ProxyCache.mine_all|done].
Qed.

(** When the thread may send its batch: nothing older is waiting in the cache, or
    it cannot send at all. *)
Definition may_send (s : fwd) : Prop := ProxyCache.nodes (g_cache s) = [] \/ connected s = false.

(** What a stage of the thread leaves as it was. *)
Definition same_session (s s' : fwd) : Prop :=
  session_id s' = session_id s /\ session_valid s' = session_valid s /\ g_state s' = g_state s /\ pfwd s' = pfwd s.

Lemma flush_stage cl0 acc tail flush answers s s' :
  wf s -> of_session (session_id s) (g_cache s) -> session_valid s <> 0 ->
  (g_state s = STATE_FORWARDING -> flush = true \/ may_send s) ->
  (ProxyCache.invalid (g_cache s) = false -> D cl0 acc tail s) ->
  fwd_flush flush answers s = Some s' ->
  same_session s s' /\ of_session (session_id s') (g_cache s') /\
  (g_state s = STATE_FORWARDING -> may_send s') /\
  ProxyCache.invalid (g_cache s') = ProxyCache.invalid (g_cache s) /\ 
  (ProxyCache.invalid (g_cache s') = false -> D cl0 acc tail s').
Proof.
  intros Hw Hs Hv Hm HD. unfold fwd_flush.
  destruct flush; cbn [negb]; [|intros [= <-]; split_and!; try done; intros Hf; by destruct (Hm Hf)].
  unfold cache_flush_allowed. rewrite bool_decide_true by done. cbn [andb]. rewrite negb_involutive.
  destruct (ProxyCache.invalid (g_cache s)) eqn:Hi.
  { assert (ProxyCache.invalid (g_cache (cache_clear_wrap s)) = true) as Hi'.
    { rewrite <- Hi. apply (ProxyCache.clear_wf (g_cache s)). }
    intros [= <-]. rewrite Hi'. split_and!; try done; [by apply Forall_nil_2|by left]. }
  case_bool_decide as Hf; cbn [andb]; [|intros [= <-]; split_and!; try done; solve [auto|congruence]].
  unfold proxy_slave_is_connected. destruct (connected s) eqn:Hc; [|intros [= <-]; split_and!; try done; auto; by right].
  destruct (ProxyCache.cache_flush true _ _ _) as [[[k o] c]|] eqn:Hfl; [|done]. intros [= <-].
  apply flush_cache_wf in Hfl as (Hcw & Hci & gone & part & Hg & _ & -> & Hrest); [|apply Hw].
  destruct (mine_session _ _ _ _ Hs Hg) as [-> Hs']. destruct (HD eq_refl) as (l & E1 & E2 & E3).
  assert (cached (g_cache s) = ProxyCache.payload gone ++ cached c) as Hpay by (unfold cached; by rewrite Hg, payload_app).
  rewrite Hpay in E2. destruct (ProxyCache.nodes c) as [|n r] eqn:Hn.
  - subst part. rewrite app_nil_r. split_and!; try done; [unfold of_session; cbn; by rewrite Hn|left; by cbn|by rewrite <- Hi|].
    intros _. exists l. split_and!; [done| |done]. rewrite E2. cbn [conn g_cache upd]. by rewrite <- !app_assoc.
  - destruct Hrest as (_ & q & _ & Hq). unfold proxy_slave_disconnect. cbn [connected upd]. rewrite Hc.
    split_and!; try done; [unfold of_session; cbn; by rewrite Hn|by right|by rewrite <- Hi|].
    intros _. rewrite <- !app_assoc in E2. eapply (D_close cl0 acc l (conn s) (ProxyCache.payload gone) part); try done.
    + unfold cached. rewrite Hn. unfold ProxyCache.payload. cbn [map concat]. rewrite Hq, <- !app_assoc. eexists. done.
    + cbn [closed conn upd]. by rewrite E1.
Qed.

(** The batch after the flush: sent on, or kept in the cache from the first byte
    that was not sent. *)
Lemma send_stage cl0 acc tail ms answers batch s s' :
  wf s -> of_session (session_id s) (g_cache s) -> g_state s = STATE_FORWARDING -> may_send s ->
  batch_ok batch -> Forall (eq true) ms ->
  (ProxyCache.invalid (g_cache s) = false -> D cl0 acc (concat batch ++ tail) s) ->
  proxy_fwd_send_batch ms answers batch s = Some s' ->
  same_session s s' /\ of_session (session_id s') (g_cache s') /\
  (cache_flush_pending s' = true \/ may_send s') /\
  (ProxyCache.invalid (g_cache s') = false -> D cl0 acc tail s').
Proof.
  intros Hw Hs Hf Hm Hb Hms HD. unfold proxy_fwd_send_batch. rewrite Hf.
  destruct (send_loop _ _ _ _ _) as [[[g iov] o]|] eqn:Hl; [|done]. intros [= <-].
  apply send_loop_spec in Hl as (Hsplit & Hup & Hg & Hok); [|done]. specialize (Hok Hb).
  match goal with |- context [cache_enq_all ms iov ?t] => set (s1 := t) end.
  assert (g_cache s1 = g_cache s /\ session_id s1 = session_id s /\ session_valid s1 = session_valid s /\
    g_state s1 = g_state s /\ pfwd s1 = pfwd s /\ connected s1 = connected s /\ closed s1 = closed s /\
    conn s1 = conn s ++ o) as (E1 & E2 & E3 & E4 & E5 & E6 & E7 & E8) by done.
  clearbody s1.
  assert (Hstop : o = [] \/ cached (g_cache s) = []).
  { destruct Hm as [Hm|Hm]; [right; unfold cached; by rewrite Hm|left; by apply Hup]. }
  destruct (bool_decide (length o < length (concat batch))%nat && g) eqn:Hq.
  - rewrite enq_all_eq, E1, E2.
    destruct (append_all_cached (session_id s) iov ms (g_cache s)) as (Hw2 & Hs2 & Hc2); [apply Hw|done..|].
    set (c2 := append_all _ _ _ _) in *. clearbody c2.
    unfold request_cache_flush, proxy_slave_disconnect. cbn [connected upd]. rewrite E6.
    destruct (connected s) eqn:Hc; (split_and!; [by split_and!|by cbn; rewrite E2|by left|]);
      cbn [g_cache upd]; intros Hi; destruct (Hc2 Hi) as [Hi0 Hp]; destruct (HD Hi0) as (l & F1 & F2 & F3).
    + destruct Hm as [Hm|Hm]; [|congruence]. assert (cached (g_cache s) = []) as He by (unfold cached; by rewrite Hm).
      rewrite He in *. rewrite Hsplit in F2. cbn [app] in F2. rewrite <- app_assoc in F2.
      eapply (D_close cl0 acc l (conn s) o []); try done.
      * apply prefix_nil.
      * cbn [closed conn upd]. rewrite E7, E8, F1. by rewrite app_nil_r.
      * cbn [g_cache upd]. by rewrite Hp.
    + rewrite (Hup eq_refl) in *. cbn [app] in Hsplit. exists l. cbn [closed conn g_cache upd].
      rewrite E7, E8, Hp, app_nil_r, <- Hsplit. split_and!; [done| |done]. by rewrite <- app_assoc.
  - assert (concat iov = []) as He.
    { apply andb_false_iff in Hq as [Hq|Hq]; [|by apply Hg]. apply bool_decide_eq_false in Hq.
      rewrite Hsplit, length_app in Hq. apply length_zero_iff_nil. lia. }
    rewrite He, app_nil_r in Hsplit. split_and!; [by split_and!|by rewrite E1, E2|right|].
    + unfold may_send. by rewrite E1, E6.
    + rewrite E1. intros Hi. destruct (HD Hi) as (l & F1 & F2 & F3). exists l.
      rewrite E7, E8, E1. split_and!; [done| |done]. rewrite F2, Hsplit.
      destruct Hstop as [-> | ->]; cbn [app]; [by rewrite app_nil_r|by rewrite <- app_assoc].
Qed.

(** The steps of a generation: from one barrier to the next nothing is thrown away
    on purpose.  The forwarding thread is not interrupted within a round and finds
    memory for what it puts back. *)
Definition plain (o : op) : Prop :=
  match o with
  | OEmit _ buf => ProxyCache.data_ok buf
  | OReconnect => True
  | OBarrier v => v = 0
  | OCycle r => Forall (eq true) (r_malloc r)
  | _ => False
  end.
Definition accept (o : op) (s : fwd) : bytes :=
  match o with
  | OEmit ok buf => match commit_emit ok buf s with Some (rc, _) => if decide (rc = 0) then buf else [] | None => [] end
  | _ => []
  end.
(** The stream [commit_emit] took responsibility for. *)
Fixpoint accepted (ops : list op) (k : config) : bytes :=
  match ops with
  | [] => []
  | o :: r => accept o (sys k) ++ match step o k with Some k' => accepted r k' | None => [] end
  end.

Record J (cl0 : list bytes) (acc : bytes) (s : fwd) : Prop := {
  J_wf : wf s;
  J_session : of_session (session_id s) (g_cache s);
  J_valid : session_valid s <> 0;
  J_order : match g_state s with
            | STATE_BUFFERING => pfwd s = []
            | STATE_FORWARDING => cache_flush_pending s = true \/ may_send s
            end;
  J_stream : ProxyCache.invalid (g_cache s) = false -> D cl0 acc (concat (pfwd s)) s }.

Lemma append_valid ok b sid c : (ProxyCache.cache_append ok b sid c).1 = ProxyCache.CACHE_APPEND_OK ->
  ProxyCache.invalid c = false.
Proof. unfold ProxyCache.cache_append. case_decide; [done|]. by destruct (ProxyCache.invalid c). Qed.

Lemma D_grow cl0 acc tail b s : D cl0 acc tail s -> D cl0 (acc ++ b) (tail ++ b) s.
Proof.
  intros (l & E1 & E2 & E3). exists l. split_and!; [done| |by apply resends_grow].
  rewrite E2. by rewrite <- !app_assoc.
Qed.
Lemma D_ext cl0 acc tail s s' : D cl0 acc tail s -> closed s' = closed s -> conn s' = conn s ->
  g_cache s' = g_cache s -> D cl0 acc tail s'.
Proof. intros (l & E1 & E2 & E3) F1 F2 F3. exists l. by rewrite F1, F2, F3. Qed.

Lemma J_enqueue cl0 acc ok buf s rc s' : J cl0 acc s -> ProxyCache.data_ok buf -> g_state s = STATE_FORWARDING ->
  proxy_fwd_enqueue ok buf s = Some (rc, s') -> J cl0 (acc ++ if decide (rc = 0) then buf else []) s'.
Proof.
  intros [H1 H2 H3 H4 H5] Hd Hf He. pose proof (enqueue_wf _ _ _ _ _ _ H1 Hd He) as Hw.
  revert He. unfold proxy_fwd_enqueue. rewrite Hf in H4.
  destruct (pfwd_stop s); [intros [= <- <-]; rewrite app_nil_r; constructor; by rewrite ?Hf|].
  case_decide; [done|]. destruct ok; cbn [negb]; [|intros [= <- <-]; rewrite app_nil_r; constructor; by rewrite ?Hf].
  intros [= <- <-]. rewrite decide_True by done.
  match goal with |- J _ _ ?t => assert (exists b, t = (s <| pfwd := pfwd s ++ [buf] |>
    <| pfwd_bytes := u64 (pfwd_bytes s + zlen buf) |> <| enq_bytes := u64 (enq_bytes s + zlen buf) |>) <| fwdq_bp_state := b |>) as [b Hb] end.
  { unfold fwdq_set_backpressure_locked. destruct (_ && _); [by exists 1|]. by exists (fwdq_bp_state s). }
  rewrite Hb in *. constructor; try done; cbn [g_state pfwd g_cache upd]; [by rewrite Hf|].
  intros Hi. rewrite concat_app. cbn [concat]. rewrite app_nil_r. apply (D_ext _ _ _ s); try done. by apply D_grow, H5.
Qed.

Lemma J_buffer cl0 acc ok buf s : J cl0 acc s -> ProxyCache.data_ok buf -> g_state s = STATE_BUFFERING ->
  let '(rc, s1) := cache_enq_wrap ok buf s in
  J cl0 (acc ++ if decide (rc = 0) then buf else []) (if decide (rc = -2) then commit_fault_cb 5 s1 else s1).
Proof.
  intros [H1 H2 H3 H4 H5] Hd Hb. pose proof (enq_wf 0 ok buf s H1 Hd) as Hw. revert Hw. unfold cache_enq_wrap.
  pose proof (append_valid ok buf (session_id s) (g_cache s)) as Hv. rewrite Hb in H4.
  destruct (ProxyCache.cache_append ok buf (session_id s) (g_cache s)) as [rc c] eqn:Ha. cbn [fst snd] in *. intros Hw.
  apply ProxyCache.append_spec in Ha as (Hcw & [(-> & Hi & Hn)|[(-> & ->)|(-> & Hi)]]); [..|apply H1|done].
  - cbn [decide]. rewrite decide_True, decide_False by done. constructor; try done; cbn [g_state pfwd g_cache upd session_id]; [|by rewrite Hb|].
    + unfold of_session. rewrite Hn. apply Forall_app. split; [done|]. by repeat constructor.
    + intros _. destruct (H5 (Hv eq_refl)) as (l & E1 & E2 & E3). exists l. rewrite H4 in *. cbn [concat] in *.
      split_and!; [done| |by apply resends_grow]. rewrite E2. cbn [conn g_cache upd]. unfold cached. rewrite Hn, payload_app.
      unfold ProxyCache.payload at 3. cbn [map concat ProxyCache.n_data]. by rewrite !app_nil_r, <- !app_assoc.
  - rewrite !decide_False by done. rewrite app_nil_r. constructor; try done; cbn [g_state upd]; by rewrite Hb.
  - rewrite decide_False, decide_True by done. rewrite app_nil_r.
    assert (ProxyCache.nodes c = []) as Hn by (by apply Hcw).
    unfold commit_fault_cb. cbn [shutdown upd]. destruct (shutdown s).
    + constructor; try done; cbn [g_state upd g_cache pfwd]; [unfold of_session; by rewrite Hn|by rewrite Hb|congruence].
    + assert (wf (proxy_slave_disconnect (set_state STATE_BUFFERING (s <| g_cache := c |> <| fault_code := 5 |> <| capture_drop := true |>)))) as Hw2.
      { apply disconnect_wf. frame Hw. }
      revert Hw2. unfold proxy_slave_disconnect. cbn [connected upd set_state]. intros Hw2.
      destruct (connected s); constructor; try done; cbn [g_cache upd set_state]; try congruence; unfold of_session; by rewrite Hn.
Qed.

Lemma J_emit cl0 acc ok buf s rc s' : J cl0 acc s -> ProxyCache.data_ok buf -> commit_emit ok buf s = Some (rc, s') ->
  J cl0 (acc ++ if decide (rc = 0) then buf else []) s'.
Proof.
  intros HJ Hd. unfold commit_emit. 
  assert (Hrej : J cl0 (acc ++ []) (s <| dropped_bytes ::= fun t => u64 (t + zlen buf) |>)).
  { rewrite app_nil_r. destruct HJ as [H1 H2 H3 H4 H5]. constructor; try done. frame H1. }
  destruct (capture_drop s); [by intros [= <- <-]|]. destruct (g_state s) eqn:Hg.
  - destruct (proxy_slave_is_connected s); [by apply J_enqueue|by intros [= <- <-]].
  - pose proof (J_buffer cl0 acc ok buf s HJ Hd Hg) as H. destruct (cache_enq_wrap ok buf s) as [rc1 s1].
    intros [= <- <-]. destruct (decide (rc1 = 0)); [rewrite decide_True by done|rewrite decide_False by done]; done.
Qed.

Lemma J_cycle cl0 acc r s s' : J cl0 acc s -> Forall (eq true) (r_malloc r) -> cycle r s = Some s' -> J cl0 acc s'.
Proof.
  intros [H1 H2 H3 H4 H5] Hm. unfold cycle.
  destruct (fwd_take s) as [[[b f] s1]|] eqn:Ht; [|done]. cbn [mbind option_bind].
  apply take_spec in Ht as (W1 & Hb & Hq & -> & Hp & E1 & E2 & E3 & E4 & E5 & E6 & E7); [|done].
  destruct (fwd_flush _ _ _) as [s2|] eqn:Hf; [|done]. cbn [mbind option_bind].
  pose proof (flush_wf _ _ _ _ W1 Hf) as W2.
  apply (flush_stage cl0 acc (concat b ++ concat (pfwd s1))) in Hf as ((F1 & F2 & F3 & F4) & F5 & F6 & F7 & F8);
    [|done|by rewrite E2, E6|by rewrite E7| |].
  - intros Hs. pose proof (send_wf _ _ _ _ _ W2 Hb Hs) as W3. revert Hs. unfold fwd_send.
    destruct (g_state s) eqn:Hg.
    + assert (g_state s2 = STATE_FORWARDING) as G2 by congruence. destruct b as [|b0 bs].
      * intros [= <-]. constructor; try done; [congruence|rewrite G2; right; apply F6; congruence|]. by rewrite F4.
      * intros Hs. apply (send_stage cl0 acc (concat (pfwd s1))) in Hs as ((G3 & G4 & G5 & G6) & G7 & G8 & G9);
          [|done|done|done|apply F6; congruence|done|done|done].
        constructor; try done; [congruence|by rewrite G5, G2|]. by rewrite G6, F4.
    + rewrite H4 in Hq. symmetry in Hq. apply app_eq_nil in Hq as [-> Hq]. intros [= <-].
      constructor; try done; [congruence|by rewrite F3, E1, F4|]. by rewrite F4.
  - rewrite E1. intros Hg. rewrite Hg in H4. unfold may_send in *. by rewrite E2, E3.
  - rewrite E2. intros Hi. specialize (H5 Hi). rewrite Hq, concat_app in H5. by apply (D_ext _ _ _ s).
Qed.

(** A flush is requested, or the cache was given up. *)
Lemma J_after_connect cl0 acc s : wf s -> of_session (session_id s) (g_cache s) -> session_valid s <> 0 ->
  (g_state s = STATE_BUFFERING -> pfwd s = []) ->
  (ProxyCache.invalid (g_cache s) = false -> D cl0 acc (concat (pfwd s)) s) -> J cl0 acc (after_connect s).
Proof.
  intros H1 H2 H3 H4 H5. pose proof (after_connect_wf s H1) as Hw. revert Hw.
  unfold after_connect, cache_flush_allowed. rewrite bool_decide_true by done. cbn [andb].
  destruct (ProxyCache.invalid (g_cache s)) eqn:Hi; cbn [negb]; intros Hw.
  - assert (ProxyCache.invalid (ProxyCache.cache_clear (g_cache s)) = true) as Hi'.
    { rewrite <- Hi. apply (ProxyCache.clear_wf (g_cache s)). }
    constructor; try done; cbn [g_state pfwd g_cache upd cache_clear_wrap]; [by apply Forall_nil_2| |congruence].
    destruct (g_state s); [right; by left|by apply H4].
  - constructor; try done; cbn [g_state pfwd g_cache upd request_cache_flush].
    + destruct (g_state s); [by left|by apply H4].
    + intros _. apply (D_ext _ _ _ s); try done. by apply H5.
Qed.

Lemma J_step cl0 acc o k k' : plain o -> J cl0 acc (sys k) -> step o k = Some k' ->
  J cl0 (acc ++ accept o (sys k)) (sys k').
Proof.
  intros Hp HJ. pose proof HJ as [H1 H2 H3 H4 H5]. destruct o; try done; cbn [step accept plain] in *.
  - destruct (commit_emit _ _ _) as [[rc s']|] eqn:He; [|done]. intros [= <-]. by eapply J_emit.
  - subst fs_val. intros [= <-]. rewrite app_nil_r. cbn [sys]. unfold poll_barrier.
    rewrite bool_decide_false by lia. cbn [andb]. destruct (_ && _); [|done].
    match goal with |- J _ _ (if cache_flush_allowed ?t then _ else _) => apply (J_after_connect cl0 acc t) end; try done.
    frame H1.
  - intros [= <-]. rewrite app_nil_r. cbn [sys]. unfold reconnect, proxy_slave_is_connected.
    destruct (connected (sys k)) eqn:Hc; [done|]. apply J_after_connect; try done.
    + frame H1.
    + cbn [g_state upd slave_connected]. intros Hg. by rewrite Hg in H4.
    + intros Hi. apply (D_ext _ _ _ (sys k)); try done; [by apply H5|]. cbn [conn upd slave_connected].
      by rewrite (wf_conn H1 Hc).
  - destruct (thread k); [|done..]. destruct (cycle r (sys k)) as [s'|] eqn:He; [|done]. intros [= <-].
    rewrite app_nil_r. by eapply J_cycle.
Qed.

Lemma J_run cl0 ops : forall acc k k', Forall plain ops -> J cl0 acc (sys k) -> run ops k = Some k' ->
  J cl0 (acc ++ accepted ops k) (sys k').
Proof.
  induction ops as [|o ops IH]; intros acc k k' Hok HJ; cbn [run accepted].
  - intros [= <-]. by rewrite app_nil_r.
  - apply Forall_cons in Hok as [Ho Hok]. destruct (step o k) as [k1|] eqn:Hs; [|done]. cbn [mbind option_bind].
    rewrite app_assoc. apply IH; [done|]. by eapply J_step.
Qed.

(** C36: from a barrier on, in a valid session, the replica gets the accepted
    commands as one stream, in order and without a gap, across any number of
    connections, provided the barrier goes up between two rounds of the
    forwarding thread, its later rounds are not interrupted by the main thread, and it finds
    memory for what it puts back into the cache.  Whatever the socket answers (short
    writes, interrupts, full buffers, errors) and however whole rounds of the forwarding
    thread, new commands, reconnections and the end of the barrier follow each other: unless the cache
    had to be given up, what was on the connection before and then accepted is
    what the closed connections moved the stream on by, then what the present
    one carried, then the cache, then the queue.  A closed connection may have
    carried a first part of what follows as well, which is sent again. *)
Theorem forward_lossless_in_order pre k0 k1 ops k :
  Forall op_ok pre -> run pre (Config Idle fwd_init) = Some k0 -> thread k0 = Idle ->
  fs_req_seen (sys k0) = 0 -> session_valid (sys k0) <> 0 ->
  step (OBarrier 1) k0 = Some k1 -> Forall plain ops -> run ops k1 = Some k ->
  ProxyCache.invalid (g_cache (sys k)) = false ->
  exists l, let stream := conn (sys k0) ++ accepted ops k1 in
    closed (sys k) = closed (sys k0) ++ map (fun x => x.1 ++ x.2) l /\
    stream = concat (map fst l) ++ conn (sys k) ++
      concat (map ProxyCache.n_data (ProxyCache.nodes (g_cache (sys k)))) ++ concat (pfwd (sys k)) /\
    resends l stream.
Proof.
  intros Hpre Hrun _ Hfs Hv [= <-] Hok Hr Hi. set (k1 := Config (thread k0) _) in *.
  destruct (run_wf _ _ _ Hpre fwd_init_wf I Hrun) as [Hw _].
  assert (HJ : J (closed (sys k0)) (conn (sys k0)) (sys k1)).
  { pose proof (barrier_wf 1 _ Hw) as Hb. unfold k1. cbn [sys]. revert Hb. unfold poll_barrier.
    rewrite Hfs, !bool_decide_true by done. cbn [andb]. unfold proxy_fwd_drain_to_cache_or_discard.
    match goal with |- context [fwdq_clear_backpressure_locked ?t] => destruct (clear_bp_frame t) as [b ->] end.
    intros Hb. constructor; try done; [by apply Forall_nil_2|]. intros _. exists []. split_and!; [by rewrite app_nil_r|..|done].
    by rewrite !app_nil_r. }
  destruct (J_stream _ _ _ (J_run _ _ _ _ _ Hok HJ Hr) Hi) as (l & E1 & E2 & E3). by exists l.
Qed.

(** ** Progress *)

Lemma take_batch_head n t b q got rest : take_batch (S n) t (b :: q) = (got, rest) ->
  u64 (t + zlen b) <= PFWD_BATCH_BYTES_MAX -> got <> [].
Proof.
  intros H Hd. cbn [take_batch] in H. rewrite decide_True in H by done.
  destruct (take_batch n _ q). by injection H as <- _.
Qed.

(** A socket that takes what it is offered: the whole batch goes out. *)
Lemma send_loop_all n e ps batch : (length (concat batch) <= n)%nat ->
  exists iov, send_loop true [Writev (Some n) e ps] batch 0 (length (concat batch)) = Some (false, iov, concat batch).
Proof.
  intros Hn. destruct (decide (length (concat batch) = 0%nat)) as [Hz|Hz].
  - apply length_zero_iff_nil in Hz. rewrite Hz. exists batch. cbn [send_loop length].
    rewrite (bool_decide_false (0 < 0)%nat) by lia. by rewrite orb_true_r.
  - assert (batch <> []) as Hb by (intros ->; done).
    cbn [send_loop proxy_slave_writev w_took fmap option_fmap option_map].
    rewrite (bool_decide_false (batch = [])), (bool_decide_true (0 < _)%nat) by (done || lia). cbn [orb negb].
    rewrite Nat.min_r by lia. destruct (length (concat batch)) as [|w] eqn:Hw; [lia|]. cbn [Nat.add].
    rewrite (bool_decide_false (S w < S w)%nat) by lia. rewrite orb_true_r. eexists.
    by rewrite app_nil_r, <- Hw, firstn_all.
Qed.

Definition sends_all (r : round) : Prop :=
  exists n e ps, r_send r = [Writev (Some n) e ps] /\ PFWD_BATCH_BYTES_MAX <= Z.of_nat n.
Lemma cycle_sends r s b q : wf s -> g_state s = STATE_FORWARDING -> connected s = true -> cache_flush_pending s = false ->
  pfwd s = b :: q -> zlen b <= PFWD_BATCH_BYTES_MAX -> sends_all r ->
  exists got s', cycle r s = Some s' /\ wf s' /\ got <> [] /\ pfwd s = got ++ pfwd s' /\ conn s' = conn s ++ concat got /\
    g_state s' = STATE_FORWARDING /\ connected s' = true /\ cache_flush_pending s' = false /\ g_cache s' = g_cache s.
Proof.
  intros Hw Hg Hc Hp Hq Hb (n & e & ps & Hr & Hn).
  assert (exists got s1, fwd_take s = Some (got, false, s1) /\ got <> [] /\ zlens got <= PFWD_BATCH_BYTES_MAX) as (got & s1 & Ht & Hne & Hz).
  { unfold fwd_take. rewrite Hq, bool_decide_false by done. cbn [andb]. cbn [pfwd upd].
    rewrite ?Hq, Hp. destruct (take_batch PFWD_BATCH_MAX 0 (b :: q)) as [got rest] eqn:Ht.
    eexists got, _. split; [done|]. split.
    - apply (take_batch_head 255 0 b q _ _ Ht). unfold PFWD_BATCH_BYTES_MAX in *. rewrite u64_small; unfold zlen in *; lia.
    - apply take_batch_bytes in Ht; [|done|].
      + lia.
      + rewrite <- Hq. apply zlens_batch. rewrite <- (wf_bytes Hw). apply Hw. }
  pose proof (take_spec _ _ _ _ Hw Ht) as (W1 & Hbk & Hs & _ & E0 & E1 & E2 & E3 & E4 & E5 & E6 & E7).
  exists got. unfold cycle. rewrite Ht. cbn [mbind option_bind fwd_flush negb]. unfold fwd_send.
  destruct got as [|g0 gs]; [done|]. remember (g0 :: gs) as got.
  destruct (send_loop_all n e ps got) as [iov Hl]; [rewrite zlens_concat in Hz; lia|].
  assert (Hsend : fwd_send (r_malloc r) (r_send r) got s1 = proxy_fwd_send_batch (r_malloc r) (r_send r) got s1) by (by subst got).
  unfold proxy_fwd_send_batch in *. rewrite E1, Hg, E3, Hc, Hr, Hl in *. rewrite bool_decide_false in * by lia.
  eexists. split; [done|]. split; [by eapply send_wf|]. split_and!; try done; cbn; congruence.
Qed.

(** C37: on a healthy connection everything gets out: if each queued command is at
    most 512 KB, then after at most as many rounds as there are commands, in each
    of which the socket takes what it is offered, the queue is empty and the
    connection has carried all the commands, in order. *)
Theorem forward_drains r k :
  wf (sys k) -> thread k = Idle -> g_state (sys k) = STATE_FORWARDING -> connected (sys k) = true ->
  cache_flush_pending (sys k) = false ->
  Forall (fun b => zlen b <= PFWD_BATCH_BYTES_MAX) (pfwd (sys k)) -> sends_all r ->
  exists m k', (m <= length (pfwd (sys k)))%nat /\ run (replicate m (OCycle r)) k = Some k' /\
    pfwd (sys k') = [] /\ conn (sys k') = conn (sys k) ++ concat (pfwd (sys k)) /\ g_cache (sys k') = g_cache (sys k).
Proof.
  remember (length (pfwd (sys k))) as n eqn:Hn. revert k Hn. induction (lt_wf n) as [n _ IH].
  intros k Hn Hw Hi Hg Hc Hp Hq Hr. destruct (pfwd (sys k)) as [|b q] eqn:Hb.
  - exists 0%nat, k. cbn. rewrite app_nil_r. split_and!; try done. lia.
  - pose proof Hq as Hq0. apply Forall_cons in Hq0 as [Hb1 _].
    destruct (cycle_sends r (sys k) b q) as (got & s' & Hcy & W & Hne & Hs & Hco & F1 & F2 & F3 & F4); [done..|].
    rewrite Hb in Hs. rewrite Hs in Hq. apply Forall_app in Hq as [_ Hq].
    assert (length got <> 0%nat) by (destruct got; [done|cbn; lia]).
    destruct (IH (length (pfwd s'))) with (k := Config Idle s') as (m & k' & M1 & M2 & M3 & M4 & M5); try done.
    { rewrite Hn, Hs, length_app. lia. }
    exists (S m), k'. cbn [replicate run step]. rewrite Hi, Hcy. cbn [mbind option_bind]. split_and!; try done.
    + rewrite Hn, Hs, length_app. lia.
    + rewrite M4, Hs. cbn [sys]. by rewrite Hco, concat_app, app_assoc.
    + by rewrite M5.
Qed.

(** ** A command above the batch limit *)

(** Steps that do not throw the queue away. *)
Definition keeps (o : op) : Prop :=
  match o with
  | OGate _ _ _ | OFault _ | OSession _ _ _ => False
  | OBarrier v => v = 0
  | _ => True
  end.

Lemma disconnect_pfwd s : pfwd (proxy_slave_disconnect s) = pfwd s.
Proof. unfold proxy_slave_disconnect. by destruct (connected s). Qed.
Lemma flush_pfwd f answers s s' : fwd_flush f answers s = Some s' -> pfwd s' = pfwd s.
Proof.
  unfold fwd_flush. destruct f; cbn [negb]; [|by intros [= <-]].
  destruct (cache_flush_allowed s); cbn [negb]; [|by intros [= <-]].
  destruct (_ && _); [|by intros [= <-]].
  destruct (ProxyCache.cache_flush _ _ _ _) as [[[k o] c]|]; [|done]. intros [= <-].
  destruct (ProxyCache.nodes c); [done|]. by rewrite disconnect_pfwd.
Qed.
Lemma emit_pfwd ok buf s rc s' : commit_emit ok buf s = Some (rc, s') -> exists q, pfwd s' = pfwd s ++ q.
Proof.
  assert (Hz : forall s0, pfwd s0 = pfwd s -> exists q, pfwd s0 = pfwd s ++ q) by (intros s0 ->; exists []; by rewrite app_nil_r).
  unfold commit_emit. destruct (capture_drop s); [intros [= _ <-]; by apply Hz|]. destruct (g_state s).
  - destruct (proxy_slave_is_connected s); [|intros [= _ <-]; by apply Hz]. unfold proxy_fwd_enqueue.
    destruct (pfwd_stop s); [intros [= _ <-]; by apply Hz|]. case_decide; [done|].
    destruct ok; cbn [negb]; [|intros [= _ <-]; by apply Hz]. intros [= _ <-]. exists [buf].
    unfold fwdq_set_backpressure_locked. by destruct (_ && _).
  - unfold cache_enq_wrap. destruct (ProxyCache.cache_append _ _ _ _) as [r c]. intros [= _ <-]. apply Hz.
    case_decide; [|done]. unfold commit_fault_cb. destruct (shutdown _); [done|]. by rewrite disconnect_pfwd.
Qed.

Lemma take_stuck s batch f s' b q : pfwd s = b :: q -> PFWD_BATCH_BYTES_MAX < zlen b -> ProxyCache.data_ok b ->
  fwd_take s = Some (batch, f, s') -> batch = [] /\ pfwd s' = b :: q.
Proof.
  intros Hq Hb Hd. unfold fwd_take. destruct (_ && _ && _); [done|]. cbn [pfwd upd]. rewrite Hq.
  change PFWD_BATCH_MAX with (S 255). cbn [take_batch]. rewrite decide_False; [by intros [= <- <- <-]|].
  unfold PFWD_BATCH_BYTES_MAX, ProxyCache.data_ok in *. rewrite u64_small; unfold zlen in *; lia.
Qed.
(** What the thread is about to send. *)
Definition in_hand (p : pos) : list bytes := match p with Idle => [] | Taken b _ | Flushed b => b end.
(** The queue only grew at its end, nothing was taken from it and nothing was sent
    from it. *)
Definition stalled (k k' : config) : Prop :=
  (exists q, pfwd (sys k') = pfwd (sys k) ++ q) /\ in_hand (thread k') = [] /\ sent_bytes (sys k') = sent_bytes (sys k).
Lemma stalled_same k t s' : in_hand t = [] -> pfwd s' = pfwd (sys k) -> sent_bytes s' = sent_bytes (sys k) ->
  stalled k (Config t s').
Proof. intros Ht Hp Hs. split_and!; [|done|done]. exists []. by rewrite app_nil_r. Qed.

Lemma disconnect_sent s : sent_bytes (proxy_slave_disconnect s) = sent_bytes s.
Proof. unfold proxy_slave_disconnect. by destruct (connected s). Qed.
Lemma emit_sent ok buf s rc s' : commit_emit ok buf s = Some (rc, s') -> sent_bytes s' = sent_bytes s.
Proof.
  unfold commit_emit. destruct (capture_drop s); [by intros [= _ <-]|]. destruct (g_state s).
  - destruct (proxy_slave_is_connected s); [|by intros [= _ <-]]. unfold proxy_fwd_enqueue.
    destruct (pfwd_stop s); [by intros [= _ <-]|]. case_decide; [done|].
    destruct ok; cbn [negb]; [|by intros [= _ <-]]. intros [= _ <-].
    unfold fwdq_set_backpressure_locked. by destruct (_ && _).
  - unfold cache_enq_wrap. destruct (ProxyCache.cache_append _ _ _ _) as [r c]. intros [= _ <-].
    case_decide; [|done]. unfold commit_fault_cb. destruct (shutdown _); [done|]. by rewrite disconnect_sent.
Qed.

Lemma step_stuck o k k' b q : keeps o -> pfwd (sys k) = b :: q -> PFWD_BATCH_BYTES_MAX < zlen b -> ProxyCache.data_ok b ->
  in_hand (thread k) = [] -> step o k = Some k' -> stalled k k'.
Proof.
  intros Hk Hq Hb Hd Hh. destruct o; try done; cbn [step keeps] in *.
  - destruct (commit_emit _ _ _) as [[rc s']|] eqn:He; [|done]. intros [= <-].
    split_and!; [by eapply emit_pfwd|done|by eapply emit_sent].
  - intros [= <-]. unfold ringbuf_callback. repeat case_match; by apply stalled_same.
  - subst fs_val. intros [= <-]. unfold poll_barrier. rewrite bool_decide_false by lia. cbn [andb].
    destruct (_ && _); [|by apply stalled_same]. destruct (cache_flush_allowed _); by apply stalled_same.
  - intros [= <-]. unfold reconnect, after_connect. destruct (proxy_slave_is_connected _); [by apply stalled_same|].
    destruct (cache_flush_allowed _); by apply stalled_same.
  - destruct (thread k); [|done..]. destruct (fwd_take _) as [[[bt f] s']|] eqn:He; [|done]. intros [= <-].
    pose proof (take_sent_bytes _ _ _ _ He). apply (take_stuck _ _ _ _ b q) in He as [-> He]; [|done..].
    apply stalled_same; [done|congruence|done].
  - destruct (thread k) as [|bt f|]; [done| |done]. destruct (fwd_flush _ _ _) as [s'|] eqn:He; [|done]. intros [= <-].
    apply stalled_same; [done|by eapply flush_pfwd|by eapply flush_sent_bytes].
  - destruct (thread k) as [| |bt]; [done..|]. cbn in Hh. subst bt. intros [= <-]. by apply stalled_same.
  - destruct (thread k); [|done..]. unfold cycle. destruct (fwd_take _) as [[[bt f] s1]|] eqn:He; [|done]. cbn [mbind option_bind].
    pose proof (take_sent_bytes _ _ _ _ He). apply (take_stuck _ _ _ _ b q) in He as [-> He]; [|done..].
    destruct (fwd_flush _ _ _) as [s2|] eqn:Hf; [|done]. intros [= <-]. apply stalled_same; [done| |].
    + rewrite (flush_pfwd _ _ _ _ Hf). congruence.
    + rewrite (flush_sent_bytes _ _ _ _ Hf). done.
Qed.

(** C38: a command of more than 512 KB stalls the queue: when it is at the head of the
    queue and the thread is between two rounds, then whatever the two threads do,
    until the queue is thrown away, the command and everything behind it stay where they are
    (new commands only queue up behind), the forwarding thread takes no batch and no byte is
    sent from the queue. *)
Theorem oversized_command_stalls ops k k' b q :
  pfwd (sys k) = b :: q -> PFWD_BATCH_BYTES_MAX < zlen b -> ProxyCache.data_ok b -> thread k = Idle ->
  Forall keeps ops -> run ops k = Some k' ->
  (exists q', pfwd (sys k') = (b :: q) ++ q') /\ in_hand (thread k') = [] /\ sent_bytes (sys k') = sent_bytes (sys k).
Proof.
  intros Hq Hb Hd Ht Hk. assert (in_hand (thread k) = []) as Hh by (by rewrite Ht). clear Ht. revert k q Hq Hh.
  induction Hk as [|o ops Ho _ IH]; intros k q Hq Hh; cbn [run].
  - intros [= <-]. split_and!; [|done|done]. exists []. by rewrite app_nil_r.
  - destruct (step o k) as [k1|] eqn:Hs; [|done]. cbn [mbind option_bind]. intros Hr.
    destruct (step_stuck _ _ _ _ _ Ho Hq Hb Hd Hh Hs) as ((q1 & Hq1) & Hh1 & <-). rewrite Hq in Hq1.
    destruct (IH k1 (q ++ q1) Hq1 Hh1 Hr) as ((q2 & ->) & Hh2 & ->). split_and!; [|done|done].
    exists (q1 ++ q2). cbn [app]. by rewrite app_assoc.
Qed.

(** ** Concrete runs *)

Definition took (n : nat) : writev_rc := Writev (Some n) EOTHER [].
Definition failed : writev_rc := Writev None EOTHER [].
Definition start : list op := [OSession 5 1 0; OReconnect].
Definition started : config := default (Config Idle fwd_init) (run start (Config Idle fwd_init)).
Lemma started_run : run start (Config Idle fwd_init) = Some started.
Proof. vm_compute. reflexivity. Qed.
Definition run_or (ops : list op) (k : config) : config := default k (run ops k).

(** A command enters the queue while the one before it is being sent: two bytes
    of three are in flight, then the connection fails. *)
Definition queued_one : fwd :=
  default fwd_init (snd <$> proxy_fwd_enqueue true [1; 2; 3] (slave_connected fwd_init)).
Definition sending_one : fwd :=
  default fwd_init (snd <$> (fwd_take queued_one)) <| inflight_bytes := 3 |>.
Definition queued_two : fwd :=
  default fwd_init (snd <$> proxy_fwd_enqueue true [4] (sending_one <| conn := [1] |> <| sent_bytes := 1 |> <| inflight_bytes := 2 |>)).

(** Cached under the barrier, cut off while flushing, finished on a new connection. *)
Definition generation : list op :=
  [OEmit true [1; 2]; OBarrier 0; OCycle (Round [ProxyCache.STook 0; ProxyCache.SError] [] []); OReconnect;
   OCycle (Round [ProxyCache.STook 1] [] []); OEmit true [3; 4]; OEmit true [5]; OCycle (Round [] [took 1; Writev None EAGAIN [PTimeout; POut]; took 9] [])].
Lemma forward_lossless_in_order_witness :
  let k := run_or generation (Config Idle (poll_barrier 1 (sys started))) in
  closed (sys k) = [[1]] /\ conn (sys k) = [1; 2; 3; 4; 5] /\
  exists l, [1; 2; 3; 4; 5] = concat (map fst l) ++ [1; 2; 3; 4; 5] /\ resends l [1; 2; 3; 4; 5].
Proof.
  split; [vm_compute; reflexivity|]. split; [vm_compute; reflexivity|].
  destruct (forward_lossless_in_order start started (Config Idle (poll_barrier 1 (sys started))) generation
    (run_or generation (Config Idle (poll_barrier 1 (sys started))))) as (l & _ & E1 & E2).
  - repeat constructor.
  - vm_compute. reflexivity.
  - vm_compute. reflexivity.
  - vm_compute. reflexivity.
  - vm_compute. discriminate.
  - vm_compute. reflexivity.
  - repeat constructor.
  - vm_compute. reflexivity.
  - vm_compute. reflexivity.
  - exists l. split; [exact E1|exact E2].
Defined.

Definition takes_all : round := Round [] [took (Z.to_nat PFWD_BATCH_BYTES_MAX)] [].
Definition two_queued : config := run_or [OCycle (Round [] [] []); OEmit true [1; 2]; OEmit true [3]] started.
Lemma forward_drains_witness : exists m k', (m <= 2)%nat /\ run (replicate m (OCycle takes_all)) two_queued = Some k' /\
  conn (sys k') = [1; 2; 3].
Proof.
  destruct (forward_drains takes_all two_queued) as (m & k' & H1 & H2 & _ & H4 & _).
  - eapply (run_wf (start ++ [OCycle (Round [] [] []); OEmit true [1; 2]; OEmit true [3]]) (Config Idle fwd_init)).
    + repeat constructor.
    + apply fwd_init_wf.
    + exact I.
    + vm_compute. reflexivity.
  - vm_compute. reflexivity.
  - vm_compute. reflexivity.
  - vm_compute. reflexivity.
  - vm_compute. reflexivity.
  - vm_compute. repeat constructor; discriminate.
  - exists (Z.to_nat PFWD_BATCH_BYTES_MAX), EOTHER, []. split; [reflexivity|].
    rewrite Z2Nat.id; unfold PFWD_BATCH_BYTES_MAX; lia.
  - exists m, k'. split; [exact H1|]. split; [exact H2|exact H4].
Defined.

(** Such a command is accepted. *)
Lemma started_accepts b : zlen b <= MAX_PFWD_QUEUE_BYTES -> exists s',
  commit_emit true b (sys started) = Some (0, s') /\ pfwd s' = [b].
Proof.
  intros Hb. unfold MAX_PFWD_QUEUE_BYTES in Hb.
  assert (E : capture_drop (sys started) = false /\ g_state (sys started) = STATE_FORWARDING /\ connected (sys started) = true /\
    pfwd_stop (sys started) = false /\ pfwd_bytes (sys started) = 0 /\ pfwd (sys started) = []) by (vm_compute; done).
  destruct E as (E1 & E2 & E3 & E4 & E5 & E6). unfold commit_emit, proxy_slave_is_connected, proxy_fwd_enqueue.
  rewrite E1, E2, E3, E4, E5. rewrite decide_False.
  - eexists. split; [done|]. unfold fwdq_set_backpressure_locked.
    destruct (_ && _); cbn [pfwd upd]; by rewrite E6.
  - unfold MAX_PFWD_QUEUE_BYTES, zlen in *. rewrite u64_small; lia.
Qed.
Definition big : bytes := replicate (Z.to_nat 524289) 0.
Lemma big_length : zlen big = 524289.
Proof. unfold zlen, big. rewrite length_replicate. lia. Qed.
Lemma oversized_command_stalls_witness : exists s', commit_emit true big (sys started) = Some (0, s') /\
  exists q', pfwd (sys (Config Idle (reconnect s'))) = (big :: []) ++ q'.
Proof.
  destruct (started_accepts big) as (s' & H1 & H2).
  - rewrite big_length. unfold MAX_PFWD_QUEUE_BYTES. lia.
  - exists s'. split; [exact H1|].
    apply (oversized_command_stalls [OReconnect] (Config Idle s') (Config Idle (reconnect s')) big []).
    + exact H2.
    + rewrite big_length. unfold PFWD_BATCH_BYTES_MAX. lia.
    + unfold ProxyCache.data_ok. change (zlen big < 2 ^ 63). rewrite big_length. lia.
    + reflexivity.
    + repeat constructor.
    + reflexivity.
Defined.

(** ** Where the threads' regions matter *)

(** A reconnection between the skipped flush and the send lets the newer command
    pass the older one that is waiting in the cache. *)
Example newer_before_cached :
  conn (sys (run_or [OEmit true [1]; OTake; OEmit true [2]; OFlush []; OSend [] [failed];
    OTake; OFlush []; OReconnect; OSend [] [took 1]; OTake; OFlush [ProxyCache.STook 0]; OSend [] []] started)) = [2; 1].
Proof. vm_compute. reflexivity. Qed.

(** A batch taken before the barrier goes up is cached after the cache was reset,
    and flushed when the barrier goes down. *)
Example batch_survives_barrier :
  conn (sys (run_or [OEmit true [1]; OTake; OBarrier 1; OFlush []; OSend [] []; OBarrier 0;
    OTake; OFlush [ProxyCache.STook 0]; OSend [] []] started)) = [1].
Proof. vm_compute. reflexivity. Qed.

(** After a short write and an error, a new connection starts inside a command. *)
Example resumes_inside_command :
  let k := run_or [OEmit true [1; 2; 3]; OCycle (Round [] [took 2; failed] []); OReconnect;
    OCycle (Round [ProxyCache.STook 0] [] [])] started in
  closed (sys k) = [[1; 2]] /\ conn (sys k) = [3].
Proof. vm_compute. split; reflexivity. Qed.

(** Without a connection, an [errno] of EINTR left by an earlier call keeps the
    thread in its loop. *)
Lemma stale_eintr_spins n batch total : batch <> [] -> (0 < total)%nat ->
  send_loop false (replicate n (Writev None EINTR [])) batch 0 total = None.
Proof.
  intros Hb Ht. induction n as [|n IH]; cbn [replicate send_loop];
    rewrite !bool_decide_false, bool_decide_true by done; cbn [orb negb]; [done|].
  cbn [proxy_slave_writev w_errno]. exact IH.
Qed.

(** A cache that was given up does not stop new commands from being forwarded. *)
Example gap_is_forwarded :
  let s := sys started <| g_cache := ProxyCache.Cache [] 0 0 0 0 1 0 false true |> in
  conn (sys (run_or [OEmit true [1]; OCycle (Round [] [took 1] [])] (Config Idle s))) = [1].
Proof. vm_compute. reflexivity. Qed.

(** The check of a record's length wraps at 32 bits. *)
Example record_length_wraps :
  (ringbuf_callback true (le_bytes 8 7 ++ le_bytes 8 1 ++ le_bytes 4 4294967272 ++ le_bytes 4 0) fwd_init).1 =
    Some (7, 1, 4294967272, []).
Proof. vm_compute. reflexivity. Qed.

End Forwarder.
