(* ===== verification/Fullsync.v ===== *)
(** * Fullsync: the control messages of a full resynchronisation

    [src/replication/kvs_fullsync.c], which parses and checks the messages of a
    transfer, and the part of [src/replication/kvs_repl.c] that starts one-sided
    writes: the replica announces its memory region with a FULLRESYNCWR line,
    the master looks for that line in what the socket holds, checks it against
    the transfer it is running, and only then switches to write mode.

    A buffer with its length is a list of bytes; results are a value or one of
    the error codes.  What [recv (..., MSG_PEEK)] and the clock answer while the
    master waits is a list. *)

From S2P Require Import Prelude Cstring Resp.

Module Fullsync.

Inductive errno := EINVAL | ESTALE | EOVERFLOW.
Abbreviation result A := (A + errno)%type.

(** ** Parsing *)

(** The loop of [parse_u64_token]. *)
Fixpoint parse_digits (v : Z) (tok : bytes) : result Z :=
  match tok with
  | [] => inl v
  | c :: r =>
      if decide (c < 48 \/ c > 57) then inr EINVAL
      else
        let digit := c - 48 in
        if decide (v > (UINT64_MAX - digit) / 10) then inr EINVAL
        else parse_digits (v * 10 + digit) r
  end.
Definition parse_u64_token (tok : bytes) : result Z :=
  match tok with
  | [] => inr EINVAL
  | c :: _ => if decide (c = 45) then inr EINVAL else parse_digits 0 tok
  end.

Definition is_blank (c : Z) : bool := bool_decide (c = 32 \/ c = 9).
Fixpoint skip_blanks (b : bytes) : bytes :=
  match b with
  | c :: r => if is_blank c then skip_blanks r else b
  | [] => []
  end.
(** The token at the front, and what follows it. *)
Fixpoint token (b : bytes) : bytes * bytes :=
  match b with
  | c :: r => if is_blank c then ([], b) else let '(t, rest) := token r in (c :: t, rest)
  | [] => ([], [])
  end.
(** The loop of [split_tokens] between [p] and [end]; every round passes a byte,
    so the length bounds the rounds. *)
Fixpoint split_loop (fuel max : nat) (p : bytes) : result (list bytes) :=
  match fuel with
  | O => inl []
  | S f =>
      match skip_blanks p with
      | [] => inl []
      | q =>
          match max with
          | O => inr EINVAL
          | S m =>
              let '(t, rest) := token q in
              match split_loop f m rest with
              | inl ts => inl (t :: ts)
              | inr e => inr e
              end
          end
      end
  end.
Definition split_tokens (line : bytes) (max : nat) : result (list bytes) :=
  let n := length line in
  if decide (n < 2)%nat then inr EINVAL
  else if decide (drop (n - 2) line <> crlf) then inr EINVAL
  else split_loop n max (take (n - 2) line).

Definition cmd_matches (tok name : bytes) : bool :=
  let tok := match tok with 43 :: r => r | _ => tok end in
  bool_decide (tok = name).

Record mr_msg := MrMsg { transfer_id : Z; addr : Z; rkey : Z; capacity : Z }.

Definition kvs_fullsync_parse_remote_mr (line : bytes) : result mr_msg :=
  match split_tokens line 8 with
  | inr e => inr e
  | inl [t0; t1; t2; t3; t4] =>
      if negb (cmd_matches t0 (str "FULLRESYNCWR")) then inr EINVAL
      else
        match parse_u64_token t1, parse_u64_token t2, parse_u64_token t3 with
        | inl tid, inl a, inl rk =>
            if decide (rk > UINT32_MAX) then inr EINVAL
            else
              match parse_u64_token t4 with
              | inl cap => inl (MrMsg tid a rk cap)
              | inr _ => inr EINVAL
              end
        | _, _, _ => inr EINVAL
        end
  | inl _ => inr EINVAL
  end.

Definition kvs_fullsync_parse_repldone (line : bytes) : result (Z * Z) :=
  match split_tokens line 4 with
  | inr e => inr e
  | inl [t0; t1; t2] =>
      if negb (cmd_matches t0 (str "REPLDONE")) then inr EINVAL
      else
        match parse_u64_token t1, parse_u64_token t2 with
        | inl tid, inl n => inl (tid, n)
        | _, _ => inr EINVAL
        end
  | inl _ => inr EINVAL
  end.

(** ** Checking *)

Definition kvs_fullsync_validate_remote_mr (m : mr_msg) (expected_id expected_bytes : Z) : option errno :=
  if decide (transfer_id m <> expected_id) then Some ESTALE
  else if decide (addr m = 0 \/ rkey m = 0) then Some EINVAL
  else if decide (capacity m < expected_bytes) then Some EOVERFLOW
  else None.

Definition kvs_fullsync_remote_addr (base cap offset len : Z) : result Z :=
  if decide (offset > cap) then inr EOVERFLOW
  else if decide (len > cap - offset) then inr EOVERFLOW
  else if decide (offset > UINT64_MAX - base) then inr EOVERFLOW
  else inl (u64 (base + offset)).

(** ** The master's transfer *)

(** The fields of [g_repl_rdma_ctx] that the handshake uses. *)
Record ctx := Ctx {
  connected : bool; active_id : Z; write_total_size : Z; use_write_mode : bool;
  remote_write_addr : Z; remote_write_rkey : Z; remote_capacity : Z }.
#[export] Instance eta_ctx : Eta ctx :=
  fun c => Ctx (connected c) (active_id c) (write_total_size c) (use_write_mode c)
    (remote_write_addr c) (remote_write_rkey c) (remote_capacity c).

Definition enable_write (m : mr_msg) (c : ctx) : ctx :=
  c <| remote_write_addr := addr m |> <| remote_write_rkey := rkey m |>
    <| remote_capacity := capacity m |> <| use_write_mode := true |>.

Definition repl_rdma_set_remote_write_mr_info (m : mr_msg) (c : ctx) : ctx :=
  if decide (active_id c = 0 \/ transfer_id m <> active_id c) then c
  else if decide (addr m = 0 \/ rkey m = 0 \/ capacity m < write_total_size c) then c
  else enable_write m c.

(** A new transfer: its number and size. *)
Definition repl_rdma_set_transfer_id (tid : Z) (c : ctx) : ctx := c <| active_id := tid |>.
Definition repl_rdma_set_write_total_size (n : Z) (c : ctx) : ctx := c <| write_total_size := n |>.
Definition repl_rdma_master_transfer_cleanup (c : ctx) : ctx :=
  c <| use_write_mode := false |> <| remote_write_addr := 0 |> <| remote_write_rkey := 0 |>
    <| write_total_size := 0 |> <| active_id := 0 |> <| remote_capacity := 0 |>.

(** The search for the line in the peeked bytes: [Some (i, e)] when a line
    starts at [i] and ends before [e]; an incomplete one ends the search. *)
Definition wr_prefix : bytes := str "+FULLRESYNCWR ".
Fixpoint find_line (i : nat) (b : bytes) : option (nat * nat) :=
  match b with
  | [] => None
  | _ :: r =>
      if decide (length b < 14)%nat then None
      else if decide (take 14 b = wr_prefix) then
        match Resp.find_crlf b with
        | Some n => Some (i, (i + n + 2)%nat)
        | None => None
        end
      else find_line (S i) r
  end.

(** One round of the wait: the socket fails, has nothing, or shows some bytes. *)
Inductive peek := PError | PNothing | PBytes (b : bytes).
Inductive waited := Pending | Done (rc : Z) (c : ctx) (consumed : nat).
Definition wait_round (p : peek) (c : ctx) : waited :=
  if use_write_mode c && bool_decide (remote_write_addr c <> 0) then Done 0 c 0
  else if negb (connected c) then Done (-1) c 0
  else
    match p with
    | PError => Done (-1) c 0
    | PNothing => Pending
    | PBytes b =>
        match find_line 0 b with
        | None => Pending
        | Some (i, e) =>
            match kvs_fullsync_parse_remote_mr (slice i (e - i) b) with
            | inr _ => Pending
            | inl m =>
                match kvs_fullsync_validate_remote_mr m (active_id c) (write_total_size c) with
                | Some _ => Done (-1) c 0
                | None => Done 0 (enable_write m c) e
                end
            end
        end
    end.
(** [repl_fullsync_wait_remote_mr]: rounds until the deadline; the list holds
    what the socket shows in each round before it. *)
Fixpoint repl_fullsync_wait_remote_mr (ps : list peek) (c : ctx) : Z * ctx * nat :=
  match ps with
  | [] => (-1, c, 0%nat)
  | p :: r =>
      match wait_round p c with
      | Done rc c n => (rc, c, n)
      | Pending => repl_fullsync_wait_remote_mr r c
      end
  end.

(** The line the replica sends ([repl_rdma_slave_prepare_target]). *)
Definition fullresyncwr_line (m : mr_msg) : bytes :=
  wr_prefix ++ dec (transfer_id m) ++ 32 :: dec (addr m) ++ 32 :: dec (rkey m) ++ 32 :: dec (capacity m) ++ crlf.

(** *** Consecutive transfers *)

Definition repl_fullsync_next_transfer_id (tid : Z) : Z := u64 (tid + 1).
(** [repl_rdma_reset_ctx], on these fields. *)
Definition repl_rdma_reset_ctx (c : ctx) : ctx := Ctx false 0 0 false 0 0 0.
(** [repl_rdma_start_fullsync]: nothing is reset when the channel is up; [up] is
    whether a new one comes about. *)
Definition repl_rdma_start_fullsync (up : bool) (c : ctx) : bool * ctx :=
  if connected c then (true, c) else (up, (repl_rdma_reset_ctx c) <| connected := up |>).

(** What a snapshot meets: its size, whether the channel comes up, the dump is
    written, the header is sent and the buffer is found, and what the socket shows
    while the master waits. *)
Record snapshot := Snapshot {
  s_size : Z; s_up : bool; s_dump : bool; s_header : bool; s_malloc : bool; s_peeks : list peek }.
(** The steps of [queue_snapshot] on the channel: the new number, the state while
    the WRITEs are posted (if any are), and the state at the end.  After the WRITEs,
    whether they succeed or the file is sent over TCP instead, the state is cleared;
    the early exits leave it as it is. *)
Definition queue_snapshot (x : snapshot) (tid : Z) (c : ctx) : Z * option ctx * ctx :=
  let '(rdma_ok, c) := repl_rdma_start_fullsync (s_up x) c in
  if negb (s_dump x) then (tid, None, c)
  else
    let '(tid, c) :=
      if rdma_ok then
        let tid := repl_fullsync_next_transfer_id tid in
        (tid, repl_rdma_set_write_total_size (s_size x) (repl_rdma_set_transfer_id tid c))
      else (tid, c) in
    if negb (s_header x) then (tid, None, c)
    else if negb rdma_ok then (tid, None, repl_rdma_master_transfer_cleanup c)
    else
      let '(rc, c, _) := repl_fullsync_wait_remote_mr (s_peeks x) c in
      if decide (rc = 0) then
        if negb (s_malloc x) then (tid, None, c)
        else (tid, Some c, repl_rdma_master_transfer_cleanup c)
      else (tid, None, repl_rdma_master_transfer_cleanup c).

(** What the master does: a snapshot, a FULLRESYNCWR line that the parser
    meets, a connection that is closed, the loss of the channel. *)
Inductive item := TSnap (x : snapshot) | TInfo (m : mr_msg) | TClose | TDrop.
(** A posted transfer: its number, the snapshot, and the state while it was posted. *)
Definition posted : Type := Z * snapshot * ctx.
Fixpoint transfers (its : list item) (tid : Z) (c : ctx) : list posted :=
  match its with
  | [] => []
  | TInfo m :: r => transfers r tid (repl_rdma_set_remote_write_mr_info m c)
  | TClose :: r => transfers r tid (repl_rdma_master_transfer_cleanup c)
  | TDrop :: r => transfers r tid (c <| connected := false |>)
  | TSnap x :: r =>
      let '(tid', w, c') := queue_snapshot x tid c in
      match w with
      | Some c1 => (tid', x, c1) :: transfers r tid' c'
      | None => transfers r tid' c'
      end
  end.

(** A snapshot that left early (its header or its buffer failed) is followed by the
    end of a connection before the next one starts. *)
Fixpoint settled (left_early : bool) (its : list item) : bool :=
  match its with
  | [] => true
  | TInfo _ :: r | TDrop :: r => settled left_early r
  | TClose :: r => settled false r
  | TSnap x :: r => negb left_early && settled (s_dump x && negb (s_header x && s_malloc x)) r
  end.

(** ** Numbers *)

(** The value of a decimal string, without any bound. *)
Definition all_digits (tok : bytes) : Prop := Forall (fun c => 48 <= c <= 57) tok.
Definition value (tok : bytes) : Z := fst (read_digits 0 tok).

Lemma read_digits_from v tok : all_digits tok -> 0 <= v ->
  v <= fst (read_digits v tok) /\ read_digits v tok = (fst (read_digits v tok), []).
Proof.
  intros H. revert v. induction H as [|c r Hc _ IH]; intros v Hv; [cbn; split; [lia|done]|].
  cbn [read_digits]. assert (Hd : is_digit c = true) by (by apply is_digit_spec). rewrite Hd.
  destruct (IH (v * 10 + (c - 48)) ltac:(lia)) as [H1 H2]. split; [|exact H2]. lia.
Qed.

(** The overflow test of the loop is exact. *)
Lemma parse_digits_exact tok : forall v w, 0 <= v <= UINT64_MAX ->
  parse_digits v tok = inl w <->
  all_digits tok /\ w = fst (read_digits v tok) /\ w <= UINT64_MAX.
Proof.
  induction tok as [|c r IH]; intros v w Hv; cbn [parse_digits read_digits].
  - cbn. split; [intros [= ->]; split_and!; [constructor|done|lia]|]. by intros (_ & -> & _).
  - case_decide as Hc.
    + split; [done|]. intros (Hd & _). apply Forall_cons in Hd as [? _]. lia.
    + assert (Hd : is_digit c = true) by (apply is_digit_spec; lia). rewrite Hd.
      assert (Hdiv : v > (UINT64_MAX - (c - 48)) / 10 <-> v * 10 + (c - 48) > UINT64_MAX).
      { pose proof (Z.div_mod (UINT64_MAX - (c - 48)) 10 ltac:(lia)).
        pose proof (Z.mod_pos_bound (UINT64_MAX - (c - 48)) 10 ltac:(lia)). lia. }
      case_decide as Ho.
      * split; [done|]. intros (Hds & -> & Hw). apply Forall_cons in Hds as [_ Hr].
        destruct (read_digits_from (v * 10 + (c - 48)) r Hr ltac:(lia)) as [Hle _].
        apply Hdiv in Ho. lia.
      * rewrite IH by lia. unfold all_digits. rewrite Forall_cons. split; intros; intuition lia.
Qed.

(** A number field is accepted exactly when it is a non-empty string of
    decimal digits whose value fits in 64 bits, and the result is that value;
    the overflow test [v > (UINT64_MAX - digit) / 10] neither rejects a number
    that fits nor lets one through that does not. *)
Theorem u64_token_exact tok v :
  parse_u64_token tok = inl v <->
  tok <> [] /\ Forall (fun c => 48 <= c <= 57) tok /\ v = value tok /\ v <= UINT64_MAX.
Proof.
  unfold parse_u64_token, value. destruct tok as [|c r]; [split; [done|by intros [? _]]|].
  case_decide as Hm.
  - split; [done|]. intros (_ & Hd & _). apply Forall_cons in Hd as [? _]. lia.
  - rewrite parse_digits_exact by (unfold UINT64_MAX; lia). unfold all_digits. naive_solver.
Qed.

(** ** Lines *)

(** Tokens in the order of the line, one blank between them. *)
Fixpoint joined (ts : list bytes) : bytes :=
  match ts with
  | [] => []
  | [t] => t
  | t :: r => t ++ 32 :: joined r
  end.
Definition token_ok (t : bytes) : Prop := t <> [] /\ Forall (fun c => is_blank c = false) t.

Lemma token_stop t r : Forall (fun c => is_blank c = false) t ->
  (r = [] \/ exists c r', r = c :: r' /\ is_blank c = true) -> token (t ++ r) = (t, r).
Proof.
  induction 1 as [|c t Hc _ IH]; intros Hr; cbn [app token].
  - destruct Hr as [->|(c & r' & -> & Hb)]; [done|]. cbn. by rewrite Hb.
  - rewrite Hc, IH by done. done.
Qed.
Lemma split_joined ts : forall fuel max, Forall token_ok ts -> (length ts <= max)%nat -> (length ts < fuel)%nat ->
  split_loop fuel max (joined ts) = inl ts /\ split_loop fuel max (32 :: joined ts) = inl ts.
Proof.
  assert (Hsk : forall t r, token_ok t -> skip_blanks (t ++ r) = t ++ r /\ t ++ r <> []).
  { intros [|c t] r [Hne Hb]; [done|]. apply Forall_cons in Hb as [Hc _]. cbn. rewrite Hc. by split. }
  induction ts as [|t ts IH]; intros [|f] max Hts Hm Hf; cbn [length] in *; try lia; [done|].
  apply Forall_cons in Hts as [Ht Hts]. destruct max as [|m]; [lia|].
  assert (Hj : exists r, joined (t :: ts) = t ++ r /\ (r = [] /\ ts = [] \/ r = 32 :: joined ts)).
  { destruct ts as [|t' ts]; [exists []|exists (32 :: joined (t' :: ts))]; cbn [joined]; rewrite ?app_nil_r; auto. }
  destruct Hj as (r & -> & Hr). destruct (Hsk t r Ht) as [Hs Hne].
  assert (Hcore : (let '(t', rest) := token (t ++ r) in
    match split_loop f m rest with inl ts => inl (t' :: ts) | inr e => inr e end) = inl (t :: ts) :> result (list bytes)).
  { rewrite token_stop; [|apply Ht|]; cycle 1.
    { destruct Hr as [[-> _]|Hr]; [by left|]. right. eexists _, _. split; [exact Hr|done]. }
    destruct Hr as [[-> ->]|Hr].
    - by destruct f.
    - rewrite Hr. destruct (IH f m Hts ltac:(lia) ltac:(lia)) as [_ ->]. done. }
  cbn [split_loop]. change (skip_blanks (32 :: t ++ r)) with (skip_blanks (t ++ r)). rewrite !Hs.
  destruct (t ++ r) as [|x y]; [done|]. by split.
Qed.

Lemma split_line ts max : Forall token_ok ts -> (length ts <= max)%nat -> (length ts < length (joined ts ++ crlf))%nat ->
  split_tokens (joined ts ++ crlf) max = inl ts.
Proof.
  intros Hts Hm Hl. unfold split_tokens. rewrite !length_app. change (length crlf) with 2%nat.
  rewrite length_app in Hl. change (length crlf) with 2%nat in Hl.
  rewrite decide_False by lia. replace (length (joined ts) + 2 - 2)%nat with (length (joined ts)) by lia.
  rewrite drop_app_length, take_app_length.
  destruct (decide (crlf <> crlf)) as [H|_]; [by destruct H|].
  apply split_joined; done || lia.
Qed.

Lemma dec_token n : 0 <= n -> token_ok (dec n).
Proof.
  intros Hn. split; [destruct (dec_cons n Hn) as (c & r & -> & _); done|].
  eapply Forall_impl; [exact (dec_digit n Hn)|]. intros c Hc. unfold is_blank. cbn beta in Hc.
  rewrite bool_decide_eq_false. lia.
Qed.
Lemma parse_dec n : 0 <= n <= UINT64_MAX -> parse_u64_token (dec n) = inl n.
Proof.
  intros Hn. pose proof (dec_digit n ltac:(lia)) as Hd. pose proof (dec_value n ltac:(lia)) as Hv.
  destruct (dec_cons n ltac:(lia)) as (c & r & He & Hc). unfold parse_u64_token. rewrite He in *.
  rewrite decide_False by lia. rewrite parse_digits_exact by (unfold UINT64_MAX; lia).
  split_and!; [done|done|lia].
Qed.

Definition mr_ok (m : mr_msg) : Prop :=
  0 <= transfer_id m <= UINT64_MAX /\ 0 <= addr m <= UINT64_MAX /\ 0 <= rkey m <= UINT32_MAX /\
  0 <= capacity m <= UINT64_MAX.

(** The line in which a replica announces its memory region is read back
    by the master's parser, field by field, for every region. *)
Theorem remote_mr_roundtrip m :
  mr_ok m -> kvs_fullsync_parse_remote_mr (fullresyncwr_line m) = inl m.
Proof.
  destruct m as [tid a rk cap]. intros (Ht & Ha & Hr & Hc). cbn in Ht, Ha, Hr, Hc.
  unfold kvs_fullsync_parse_remote_mr, fullresyncwr_line. cbn [transfer_id addr rkey capacity].
  set (ts := [str "+FULLRESYNCWR"; dec tid; dec a; dec rk; dec cap]).
  replace (wr_prefix ++ _) with (joined ts ++ crlf)
    by (unfold ts; change wr_prefix with (str "+FULLRESYNCWR" ++ [32]); cbn [joined];
        repeat first [rewrite <- app_assoc | rewrite <- app_comm_cons]; reflexivity).
  rewrite split_line; [| |cbn; lia|].
  - unfold ts. cbv iota beta. replace (cmd_matches _ _) with true by reflexivity. cbn [negb].
    rewrite !parse_dec by (unfold UINT32_MAX, UINT64_MAX in *; lia).
    rewrite decide_False by lia. done.
  - repeat constructor; try (apply dec_token; lia); done.
  - unfold ts. rewrite length_app. cbn [joined length]. rewrite !length_app. cbn. lia.
Qed.
Lemma remote_mr_roundtrip_witness :
  kvs_fullsync_parse_remote_mr (str "+FULLRESYNCWR 7 140737488355328 42 1048576" ++ crlf) =
  inl (MrMsg 7 140737488355328 42 1048576).
Proof.
  apply (remote_mr_roundtrip (MrMsg 7 140737488355328 42 1048576)).
  repeat split; unfold UINT64_MAX, UINT32_MAX; cbn; lia.
Defined.

(** ** The transfers *)

(** No transfer is under way. *)
Definition quiet (c : ctx) : Prop := use_write_mode c = false /\ active_id c = 0.
Lemma cleanup_quiet c : quiet (repl_rdma_master_transfer_cleanup c).
Proof. done. Qed.
Lemma info_quiet m c : quiet c -> repl_rdma_set_remote_write_mr_info m c = c.
Proof. intros [_ H]. unfold repl_rdma_set_remote_write_mr_info. rewrite decide_True; [done|by left]. Qed.
Lemma start_quiet up c rdma c' : quiet c -> repl_rdma_start_fullsync up c = (rdma, c') -> quiet c'.
Proof. unfold repl_rdma_start_fullsync. by destruct (connected c); intros H [= <- <-]. Qed.

(** A line that was shown and is good for this transfer. *)
Definition shown (ps : list peek) (tid n : Z) (m : mr_msg) : Prop :=
  (exists b i e, PBytes b ∈ ps /\ kvs_fullsync_parse_remote_mr (slice i e b) = inl m) /\
  transfer_id m = tid /\ addr m <> 0 /\ rkey m <> 0 /\ n <= capacity m.

(** A wait that starts with write mode off and succeeds has found such a line. *)
Lemma wait_finds ps c c' k : use_write_mode c = false -> repl_fullsync_wait_remote_mr ps c = (0, c', k) ->
  exists m, shown ps (active_id c) (write_total_size c) m /\ c' = enable_write m c.
Proof.
  intros Hu. induction ps as [|p ps IH]; cbn [repl_fullsync_wait_remote_mr]; [done|].
  assert (Hrec : repl_fullsync_wait_remote_mr ps c = (0, c', k) ->
    exists m, shown (p :: ps) (active_id c) (write_total_size c) m /\ c' = enable_write m c).
  { intros H. destruct (IH H) as (m & ((b & i & e & Hb & Hm) & Hr) & He). exists m. split; [|done].
    split; [|done]. exists b, i, e. split; [by apply list_elem_of_further|done]. }
  unfold wait_round. rewrite Hu. cbn [andb]. destruct (connected c); cbn [negb]; [|done].
  destruct p as [| |b]; [done|exact Hrec|]. destruct (find_line 0 b) as [[i e]|]; [|exact Hrec].
  destruct (kvs_fullsync_parse_remote_mr (slice i (e - i) b)) as [m|] eqn:Hm; [|exact Hrec].
  destruct (kvs_fullsync_validate_remote_mr m (active_id c) (write_total_size c)) eqn:Hv; [done|].
  intros [= <- <-]. exists m. split; [|done]. unfold kvs_fullsync_validate_remote_mr in Hv.
  repeat case_decide; try done. split_and!; try tauto; [|lia].
  exists b, i, (e - i)%nat. split; [apply list_elem_of_here|done].
Qed.

Lemma snapshot_posts x tid c tid' w c' : quiet c -> queue_snapshot x tid c = (tid', w, c') ->
  (forall c1, w = Some c1 -> exists m c0, shown (s_peeks x) tid' (s_size x) m /\ c1 = enable_write m c0) /\
  (s_dump x && negb (s_header x && s_malloc x) = false -> quiet c').
Proof.
  intros Hq. unfold queue_snapshot. destruct (repl_rdma_start_fullsync (s_up x) c) as [rdma c1] eqn:Hs.
  apply start_quiet in Hs; [|done]. destruct (s_dump x); cbn [negb andb]; [|intros [= <- <- <-]; split; [done|]; by intros _].
  destruct rdma.
  - destruct (s_header x); cbn [negb andb]; [|by intros [= <- <- <-]].
    set (c2 := repl_rdma_set_write_total_size _ _).
    assert (use_write_mode c2 = false) as Hu by apply Hs.
    destruct (repl_fullsync_wait_remote_mr (s_peeks x) c2) as [[rc c3] k] eqn:Hw. case_decide as Hrc.
    + subst rc. destruct (s_malloc x); cbn [negb]; [|by intros [= <- <- <-]]. intros [= <- <- <-]. split; [|done].
      intros c1' [= <-]. destruct (wait_finds _ _ _ _ Hu Hw) as (m & Hm & ->). by exists m, c2.
    + by intros [= <- <- <-].
  - destruct (s_header x); cbn [negb andb]; by intros [= <- <- <-].
Qed.

(** C27: over any number of full synchronisations of a master, with FULLRESYNCWR
    lines, closed connections and losses of the channel in between, and whatever the socket shows
    while the master waits: every snapshot that is written into remote memory goes to a
    region the replica announced during this very transfer, with a non-zero address
    and key and room for the whole snapshot, so every part of it has
    an address inside that region.  This holds as long as a snapshot that left early
    (its header could not be sent, or its buffer not be allocated) is followed by
    the end of a connection before the next one starts. *)
Theorem write_mode_sound its tid x c :
  settled false its = true -> (tid, x, c) ∈ transfers its 0 (Ctx false 0 0 false 0 0 0) ->
  exists m, (exists b i e, PBytes b ∈ s_peeks x /\ kvs_fullsync_parse_remote_mr (slice i e b) = inl m) /\
    transfer_id m = tid /\ addr m <> 0 /\ rkey m <> 0 /\ s_size x <= capacity m /\ use_write_mode c = true /\
    remote_write_addr c = addr m /\ remote_write_rkey c = rkey m /\ remote_capacity c = capacity m /\
    forall off len, 0 <= off -> 0 < len -> off + len <= s_size x -> 0 <= addr m -> addr m + capacity m <= 2 ^ 64 ->
      kvs_fullsync_remote_addr (remote_write_addr c) (remote_capacity c) off len = inl (addr m + off) /\
      addr m + off + len <= addr m + capacity m.
Proof.
  intros Hs Hx.
  assert (exists m c0, shown (s_peeks x) tid (s_size x) m /\ c = enable_write m c0) as (m & c0 & (Hm & Hi & Ha & Hr & Hc) & ->).
  { assert (forall early, settled early its = true -> forall t c1, (early = false -> quiet c1) -> (tid, x, c) ∈ transfers its t c1 ->
      exists m c0, shown (s_peeks x) tid (s_size x) m /\ c = enable_write m c0) as H;
      [|by apply (H false Hs 0 (Ctx false 0 0 false 0 0 0))].
    clear Hs Hx. induction its as [|it its IH]; intros early Hs t c1 Hq; cbn [transfers]; [by intros ?%elem_of_nil|].
    destruct it as [y|m| |]; cbn [settled] in Hs.
    - apply andb_prop in Hs as [He Hs]. apply negb_true_iff in He.
      destruct (queue_snapshot y t c1) as [[t' w] c2] eqn:Hy. apply snapshot_posts in Hy as [Hp Hq2]; [|by apply Hq].
      destruct w as [c3|]; [rewrite elem_of_cons; intros [[= -> -> ->]|Hx]; [by apply Hp|]|intros Hx]; by eapply IH.
    - intros Hx. eapply (IH early Hs); [|exact Hx]. intros He. specialize (Hq He). by rewrite info_quiet.
    - by apply (IH false Hs).
    - by apply (IH early Hs). }
  exists m. split_and!; try done. intros off len Ho Hl Hsum Hp Hfit. split; [|lia].
  cbn [remote_write_addr remote_capacity enable_write upd]. unfold kvs_fullsync_remote_addr, UINT64_MAX.
  rewrite !decide_False by lia. by rewrite u64_small by lia.
Qed.

(** The announcement behind a heartbeat, after a stale one; then a second transfer. *)
Definition mr0 : mr_msg := MrMsg 1 4096 42 100.
Definition snap0 : snapshot :=
  Snapshot 80 true true true true [PNothing; PBytes (Resp.resp_build_cmd1 (str "PING") ++ fullresyncwr_line mr0)].
Definition snap1 : snapshot :=
  Snapshot 200 true true true true [PBytes (fullresyncwr_line (MrMsg 2 8192 43 300))].
Definition items0 : list item := [TInfo (MrMsg 1 8192 9 500); TSnap snap0; TInfo (MrMsg 1 8192 9 500); TSnap snap1].
Lemma write_mode_sound_witness :
  transfers items0 0 (Ctx false 0 0 false 0 0 0) =
    [(1, snap0, Ctx true 1 80 true 4096 42 100); (2, snap1, Ctx true 2 200 true 8192 43 300)] /\
  exists m, transfer_id m = 2 /\ 200 <= capacity m /\ addr m = 8192.
Proof.
  split; [vm_compute; reflexivity|].
  destruct (write_mode_sound items0 2 snap1 (Ctx true 2 200 true 8192 43 300)) as (m & _ & Hi & _ & _ & Hc & _ & Ha & _).
  - reflexivity.
  - replace (transfers items0 0 (Ctx false 0 0 false 0 0 0)) with
      [(1, snap0, Ctx true 1 80 true 4096 42 100); (2, snap1, Ctx true 2 200 true 8192 43 300)] by (vm_compute; reflexivity).
    right. left.
  - exists m. split; [exact Hi|]. split; [exact Hc|]. symmetry. exact Ha.
Defined.

(** Without the end of a connection in between, a snapshot whose buffer could not be
    allocated leaves write mode on, and the next one, which is larger, is written
    into the region of the first without any announcement. *)
Example stale_region_is_reused :
  transfers [TSnap (Snapshot 80 true true true false (s_peeks snap0)); TSnap (Snapshot 200 true true true true [PNothing])]
    0 (Ctx false 0 0 false 0 0 0) = [(2, Snapshot 200 true true true true [PNothing], Ctx true 2 200 true 4096 42 100)].
Proof. vm_compute. reflexivity. Qed.

End Fullsync.
