(* ===== verification/Skiptable.v ===== *)
(** * Skiptable: the skip-list engine

    [src/storage/kvs_skiptable.c].  Nodes live in a heap reached by pointers and
    carry one forward pointer per level; a search goes down the levels and
    remembers, per level, the last node before the key.  Every read and write
    through a pointer is checked: [None] is a bad access (a null or freed
    pointer, or an index beyond the forward array), and the theorems show that
    there is none.  The theorem of the file is the engine contract.

    Fresh pointers come from a counter; a call gets the results of its
    allocations and the coin flips of [random_level] from its environment. *)

From S2P Require Import Prelude Cstring Engine.

Module Skiptable.

Definition KVS_SKIPLIST_MAX_LEVEL : nat := 12.

(** ** Data *)

Record skipnode := Node { key : bytes; value : bytes; nlevel : nat; forward : list (option nat) }.
#[export] Instance eta_skipnode : Eta skipnode :=
  fun n => Node (key n) (value n) (nlevel n) (forward n).

Record skiptable := Table {
  heap : gmap nat skipnode; brk : nat; level : nat; count : Z; header : nat }.
#[export] Instance eta_skiptable : Eta skiptable :=
  fun t => Table (heap t) (brk t) (level t) (count t) (header t).

(** The environment of a call: the results of the allocations of a node (its
    struct, forward array, key and value) or of a new value, and the coins. *)
Record env := Env { m_node : bool; m_forward : bool; m_key : bool; m_val : bool; coins : list bool }.

(** ** Memory *)

(** [p->forward[i]] *)
Definition fwd (t : skiptable) (p i : nat) : option (option nat) :=
  n ← heap t !! p; forward n !! i.
(** [p->forward[i] = q] *)
Definition set_fwd (p i : nat) (q : option nat) (t : skiptable) : option skiptable :=
  n ← heap t !! p;
  _ ← forward n !! i;
  Some (t <| heap ::= insert p (n <| forward ::= insert i q |>) |>).

(** ** Operations *)

(** The first allocations that fail undo the earlier ones. *)
Definition skipnode_create (e : env) (lvl : nat) (k v : bytes) (t : skiptable) : option (nat * skiptable) :=
  if m_node e && m_forward e && m_key e && m_val e then
    Some (brk t, t <| heap ::= insert (brk t) (Node k v lvl (replicate (S lvl) None)) |> <| brk ::= S |>)
  else None.

(** Heads until the first tail, at most the maximal level. *)
Fixpoint random_level (max : nat) (cs : list bool) : nat :=
  match max, cs with
  | S m, true :: r => S (random_level m r)
  | _, _ => 0%nat
  end.

(** The [while] loop at level [i]; a path has at most as many nodes as the heap. *)
Fixpoint walk (fuel : nat) (t : skiptable) (k : bytes) (i cur : nat) : option nat :=
  match fuel with
  | O => None
  | S f =>
      nx ← fwd t cur i;
      match nx with
      | None => Some cur
      | Some p =>
          n ← heap t !! p;
          if decide (strcmp (key n) k < 0) then walk f t k i p else Some cur
      end
  end.
(** The [for] loop from level [i] down; [update] collects [update[i]] and up. *)
Fixpoint descend (t : skiptable) (k : bytes) (i cur : nat) (update : list nat) : option (nat * list nat) :=
  cur' ← walk (size (heap t)) t k i cur;
  match i with
  | O => Some (cur', cur' :: update)
  | S i' => descend t k i' cur' (cur' :: update)
  end.
(** [skiptable_search_node]: the node found, if any, and the [update] array from
    index 0 up to the table's level. *)
Definition skiptable_search_node (k : bytes) (t : skiptable) : option (option nat * list nat) :=
  '(cur, update) ← descend t k (level t) (header t) [];
  nx ← fwd t cur 0;
  match nx with
  | None => Some (None, update)
  | Some p =>
      n ← heap t !! p;
      Some (if decide (strcmp (key n) k = 0) then Some p else None, update)
  end.

Definition kvs_skiptable_create (e : env) : Z * skiptable :=
  if m_node e && m_forward e then
    (0, Table {[0%nat := Node [] [] KVS_SKIPLIST_MAX_LEVEL (replicate (S KVS_SKIPLIST_MAX_LEVEL) None)]}
          1 0 0 0)
  else (-1, Table ∅ 0 0 0 0).

Definition kvs_skiptable_mod (e : env) (k v : bytes) (t : skiptable) : option (Z * skiptable) :=
  '(found, _) ← skiptable_search_node k t;
  match found with
  | None => Some (1, t)
  | Some p =>
      if negb (m_val e) then Some (-2, t)
      else n ← heap t !! p; Some (0, t <| heap ::= insert p (n <| value := v |>) |>)
  end.

(** The loop that links the new node [p] at the levels from [i] on. *)
Fixpoint link (p : nat) (i : nat) (update : list nat) (t : skiptable) : option skiptable :=
  match update with
  | [] => Some t
  | u :: r =>
      f ← fwd t u i;
      t ← set_fwd p i f t;
      t ← set_fwd u i (Some p) t;
      link p (S i) r t
  end.

Definition kvs_skiptable_set (e : env) (k v : bytes) (t : skiptable) : option (Z * skiptable) :=
  '(found, update) ← skiptable_search_node k t;
  match found with
  | Some _ => kvs_skiptable_mod e k v t
  | None =>
      let lvl := random_level KVS_SKIPLIST_MAX_LEVEL (coins e) in
      let update := if decide (lvl > level t)%nat
                    then update ++ replicate (lvl - level t) (header t) else update in
      let t := if decide (lvl > level t)%nat then t <| level := lvl |> else t in
      match skipnode_create e lvl k v t with
      | None => Some (-2, t)
      | Some (p, t) =>
          t ← link p 0 (take (S lvl) update) t;
          Some (0, t <| count ::= fun c => i32 (c + 1) |>)
      end
  end.

Definition kvs_skiptable_get (k : bytes) (t : skiptable) : option (option bytes) :=
  '(found, _) ← skiptable_search_node k t;
  match found with
  | None => Some None
  | Some p => n ← heap t !! p; Some (Some (value n))
  end.

(** The loop that unlinks [p], until a level where [p] is not linked. *)
Fixpoint unlink (p : nat) (i : nat) (update : list nat) (t : skiptable) : option skiptable :=
  match update with
  | [] => Some t
  | u :: r =>
      f ← fwd t u i;
      if decide (f <> Some p) then Some t
      else
        g ← fwd t p i;
        t ← set_fwd u i g t;
        unlink p (S i) r t
  end.
(** [while (level > 0 && header->forward[level] == NULL) level--] *)
Fixpoint lower (l : nat) (t : skiptable) : option nat :=
  match l with
  | O => Some O
  | S l' =>
      f ← fwd t (header t) l;
      match f with None => lower l' t | Some _ => Some l end
  end.
Definition kvs_skiptable_del (k : bytes) (t : skiptable) : option (Z * skiptable) :=
  '(found, update) ← skiptable_search_node k t;
  match found with
  | None => Some (1, t)
  | Some p =>
      t ← unlink p 0 update t;
      l ← lower (level t) t;
      _ ← heap t !! p;
      Some (0, t <| level := l |> <| count ::= fun c => i32 (c - 1) |> <| heap ::= delete p |>)
  end.

Definition kvs_skiptable_exist (k : bytes) (t : skiptable) : option Z :=
  v ← kvs_skiptable_get k t;
  Some (match v with Some _ => 0 | None => 1 end).

(** [kvs_skiptable_foreach] with a callback that never stops: what it visits. *)
Fixpoint visit (fuel : nat) (t : skiptable) (p : nat) : option (list (bytes * bytes)) :=
  match fuel with
  | O => None
  | S f =>
      nx ← fwd t p 0;
      match nx with
      | None => Some []
      | Some q => n ← heap t !! q; r ← visit f t q; Some ((key n, value n) :: r)
      end
  end.
Definition kvs_skiptable_foreach (t : skiptable) : option (list (bytes * bytes)) :=
  visit (size (heap t)) t (header t).

(** Every node on level 0 is freed, then the header; freeing a node that is not
    allocated is a bad access. *)
Fixpoint free_loop (fuel : nat) (cur : option nat) (t : skiptable) : option skiptable :=
  match cur, fuel with
  | None, _ => Some t
  | Some _, O => None
  | Some p, S f =>
      next ← fwd t p 0;
      free_loop f next (t <| heap ::= delete p |>)
  end.
Definition kvs_skiptable_destory (t : skiptable) : option skiptable :=
  cur ← fwd t (header t) 0;
  t ← free_loop (size (heap t)) cur t;
  _ ← heap t !! header t;
  Some (t <| heap ::= delete (header t) |> <| level := 0%nat |> <| count := 0 |>).

(** The calls of the engine contract. *)
Definition exec (e : env) (o : op) (t : skiptable) : option (res * skiptable) :=
  match o with
  | OSet k v => '(rc, t) ← kvs_skiptable_set e k v t; Some (RCode rc, t)
  | OMod k v => '(rc, t) ← kvs_skiptable_mod e k v t; Some (RCode rc, t)
  | ODel k => '(rc, t) ← kvs_skiptable_del k t; Some (RCode rc, t)
  | OGet k => v ← kvs_skiptable_get k t; Some (RVal v, t)
  | OExist k => rc ← kvs_skiptable_exist k t; Some (RCode rc, t)
  end.
Fixpoint run (es : list (env * op)) (t : skiptable) : option (list res * skiptable) :=
  match es with
  | [] => Some ([], t)
  | (e, o) :: r => '(x, t) ← exec e o t; '(xs, t) ← run r t; Some (x :: xs, t)
  end.

(** ** The list behind the heap *)

(** An entry is linked at the levels from [e_lo] up to but excluding [e_hi]; its
    own forward pointers are set below [e_hi].  Outside the loops that link and
    unlink a node, [e_lo] is 0 and [e_hi] is one more than the node's level. *)
Record entry := Entry { e_ptr : nat; e_key : bytes; e_val : bytes; e_lvl : nat; e_lo : nat; e_hi : nat }.

Definition visible (i : nat) (e : entry) : Prop := (e_lo e <= i < e_hi e)%nat.
#[export] Instance visible_decision i e : Decision (visible i e).
Proof. unfold visible. apply _. Defined.

(** The next node at level [i]. *)
Fixpoint first (i : nat) (l : list entry) : option nat :=
  match l with
  | [] => None
  | e :: r => if decide (visible i e) then Some (e_ptr e) else first i r
  end.
Definition forwards (e : entry) (r : list entry) : list (option nat) :=
  map (fun i => if decide (i < e_hi e)%nat then first i r else None) (seq 0 (S (e_lvl e))).
#[local] Arguments forwards : simpl never.
Definition node_of (e : entry) (r : list entry) : skipnode :=
  Node (e_key e) (e_val e) (e_lvl e) (forwards e r).
Fixpoint heap_of (l : list entry) : gmap nat skipnode :=
  match l with
  | [] => ∅
  | e :: r => <[e_ptr e := node_of e r]> (heap_of r)
  end.
Definition full (e : entry) : Prop := e_lo e = 0%nat /\ e_hi e = S (e_lvl e).

Lemma heap_of_none p l : p ∉ map e_ptr l -> heap_of l !! p = None.
Proof.
  induction l as [|e l IH]; cbn; [done|]. intros H. apply not_elem_of_cons in H as [Hp Hl].
  rewrite lookup_insert_ne by done. auto.
Qed.
Lemma heap_of_lookup A e B : NoDup (map e_ptr (A ++ e :: B)) ->
  heap_of (A ++ e :: B) !! e_ptr e = Some (node_of e B).
Proof.
  induction A as [|a A IH]; cbn; [by rewrite lookup_insert_eq|].
  intros H. apply NoDup_cons in H as [Hn Hd]. rewrite lookup_insert_ne; [auto|].
  intros Heq. apply Hn. rewrite Heq, map_app. apply elem_of_app. right. apply list_elem_of_here.
Qed.
Lemma heap_of_size l : NoDup (map e_ptr l) -> size (heap_of l) = length l.
Proof.
  induction l as [|e l IH]; cbn; [by rewrite map_size_empty|]. intros H. apply NoDup_cons in H as [Hn Hd].
  rewrite map_size_insert_None by (by apply heap_of_none). auto.
Qed.

Lemma first_app i A B : Forall (fun e => ~ visible i e) A -> first i (A ++ B) = first i B.
Proof. induction 1 as [|e A He _ IH]; [done|]. cbn. by rewrite decide_False. Qed.
Lemma first_split i l : 
  (Forall (fun e => ~ visible i e) l /\ first i l = None) \/
  exists A e B, l = A ++ e :: B /\ Forall (fun e => ~ visible i e) A /\ visible i e /\ first i l = Some (e_ptr e).
Proof.
  induction l as [|e l IH]; [by left|]. cbn. case_decide as He.
  - right. by exists [], e, l.
  - destruct IH as [[H1 H2]|(A & e' & B & -> & HA & He' & Hf)]; [left; by split; [constructor|]|].
    right. exists (e :: A), e', B. split_and!; try done. by constructor.
Qed.
Lemma forwards_lookup e r i : (i <= e_lvl e)%nat ->
  forwards e r !! i = Some (if decide (i < e_hi e)%nat then first i r else None).
Proof.
  intros Hi. unfold forwards. rewrite list_lookup_fmap, lookup_seq_lt by lia. done.
Qed.
Lemma length_forwards e r : length (forwards e r) = S (e_lvl e).
Proof. unfold forwards. by rewrite length_map, length_seq. Qed.

Lemma forwards_agree e r r' :
  (forall i, (i <= e_lvl e)%nat -> (i < e_hi e)%nat -> first i r = first i r') -> forwards e r = forwards e r'.
Proof.
  intros H. apply list_eq. intros i. destruct (decide (i <= e_lvl e)%nat) as [Hi|Hi].
  - rewrite !forwards_lookup by done. case_decide; [|done]. by rewrite H.
  - rewrite !lookup_ge_None_2; [done|rewrite length_forwards; lia..].
Qed.
Lemma first_agree i A r r' : first i r = first i r' -> first i (A ++ r) = first i (A ++ r').
Proof. intros H. induction A as [|a A IH]; cbn; [done|]. by rewrite IH. Qed.
Lemma first_stop i A u r r' : visible i u -> first i (A ++ u :: r) = first i (A ++ u :: r').
Proof. intros H. apply first_agree. cbn. by rewrite !decide_True. Qed.

(** A change [g] behind a part of the list that does not see it. *)
Lemma heap_of_app A r r' (g : gmap nat skipnode -> gmap nat skipnode) :
  heap_of r' = g (heap_of r) ->
  (forall A1 a A2, A = A1 ++ a :: A2 ->
     node_of a (A2 ++ r') = node_of a (A2 ++ r) /\
     forall x m, g (<[e_ptr a := x]> m) = <[e_ptr a := x]> (g m)) ->
  heap_of (A ++ r') = g (heap_of (A ++ r)).
Proof.
  intros Hr. induction A as [|a A IH]; [done|]. cbn. intros Ha.
  destruct (Ha [] a A) as [Hn Hg]; [done|]. rewrite Hg, Hn. f_equal.
  apply IH. intros A1 b A2 ->. apply (Ha (a :: A1) b A2). done.
Qed.

(** *** Linking and unlinking at one level

    [n] becomes [n'], which differs only in whether it is visible at level [j];
    [u] is the last entry before it that is visible there. *)
Definition same_but (j : nat) (n n' : entry) : Prop :=
  e_ptr n' = e_ptr n /\ e_key n' = e_key n /\ e_val n' = e_val n /\ e_lvl n' = e_lvl n /\
  forall i, i <> j -> visible i n' <-> visible i n.

Lemma first_same_but j n n' B i : same_but j n n' -> i <> j -> first i (n' :: B) = first i (n :: B).
Proof.
  intros (Hp & _ & _ & _ & H) Hi. cbn. rewrite Hp. specialize (H i Hi).
  destruct (decide (visible i n')), (decide (visible i n)); naive_solver.
Qed.

Lemma node_of_agree e r r' :
  (forall i, (i <= e_lvl e)%nat -> (i < e_hi e)%nat -> first i r = first i r') -> node_of e r = node_of e r'.
Proof. intros H. unfold node_of. f_equal. by apply forwards_agree. Qed.

Lemma relink X u Y n n' B j :
  NoDup (map e_ptr (X ++ u :: Y ++ n :: B)) ->
  Forall full (X ++ u :: Y) -> visible j u -> Forall (fun e => ~ visible j e) Y -> same_but j n n' ->
  heap_of (X ++ u :: Y ++ n' :: B) =
    <[e_ptr u := Node (e_key u) (e_val u) (e_lvl u) (<[j := first j (n' :: B)]> (forwards u (Y ++ n :: B)))]>
      (<[e_ptr n := node_of n' B]> (heap_of (X ++ u :: Y ++ n :: B))).
Proof.
  intros Hnd Hfull Hu HY Hs.
  assert (Hp : e_ptr n' = e_ptr n) by apply Hs.
  rewrite map_app in Hnd. cbn in Hnd. rewrite map_app in Hnd. cbn in Hnd.
  apply NoDup_app in Hnd as (HX & HXd & Hnd). apply NoDup_cons in Hnd as [Hnu Hnd].
  apply NoDup_app in Hnd as (HYn & HYd & Hnd). apply NoDup_cons in Hnd as [Hnn Hnd].
  apply Forall_app in Hfull as [HfX HfuY]. inversion_clear HfuY as [|?? Hfu HfY].
  assert (Hne : e_ptr n <> e_ptr u).
  { intros E. apply Hnu. rewrite <- E. apply elem_of_app. right. apply list_elem_of_here. }
  (* the entries between *)
  assert (H1 : heap_of (Y ++ n' :: B) = <[e_ptr n := node_of n' B]> (heap_of (Y ++ n :: B))).
  { apply heap_of_app.
    - cbn. by rewrite Hp, insert_insert_eq.
    - intros A1 a A2 ->. split; [|intros; apply insert_insert_ne; intros E; apply (HYd (e_ptr n));
        [rewrite E, map_app; apply elem_of_app; right; apply list_elem_of_here|apply list_elem_of_here]].
      apply node_of_agree. intros i Hi _. apply first_agree.
      apply (first_same_but j); [done|]. intros ->.
      apply Forall_app in HY as [_ HY]. apply Forall_inv in HY.
      apply Forall_app in HfY as [_ HfY]. apply Forall_inv in HfY as [Hlo Hhi].
      apply HY. unfold visible. lia. }
  assert (H2 : node_of u (Y ++ n' :: B) =
    Node (e_key u) (e_val u) (e_lvl u) (<[j := first j (n' :: B)]> (forwards u (Y ++ n :: B)))).
  { unfold node_of. f_equal. apply list_eq. intros i.
    destruct (decide (i <= e_lvl u)%nat) as [Hi|Hi];
      [|rewrite !lookup_ge_None_2; [done|rewrite ?length_insert, length_forwards; lia..]].
    destruct Hfu as [Hlo Hhi]. rewrite forwards_lookup, decide_True by lia.
    destruct (decide (i = j)) as [->|Hij].
    - rewrite list_lookup_insert_eq by (rewrite length_forwards; lia). by rewrite first_app.
    - rewrite list_lookup_insert_ne, forwards_lookup, decide_True by lia.
      f_equal. apply first_agree. by apply (first_same_but j). }
  apply (heap_of_app X _ _ (fun m => <[e_ptr u := _]> (<[e_ptr n := _]> m))).
  - cbn [heap_of]. rewrite H1, H2. by rewrite (insert_insert_ne _ (e_ptr n)), insert_insert_eq.
  - intros A1 a A2 ->. split.
    + apply node_of_agree. intros i _ _. destruct (decide (i = j)) as [->|Hij]; [by apply first_stop|].
      apply first_agree. apply (first_agree i (u :: Y)). by apply (first_same_but j).
    + assert (Hin : e_ptr a ∈ map e_ptr (A1 ++ a :: A2))
        by (rewrite map_app; apply elem_of_app; right; apply list_elem_of_here).
      intros x m. rewrite (insert_insert_ne _ (e_ptr n)), insert_insert_ne; [done|..];
        intros E; apply (HXd _ Hin); rewrite <- E; [apply list_elem_of_here|].
      apply list_elem_of_further, elem_of_app. right. apply list_elem_of_here.
Qed.

(** *** Access *)

Lemma heap_at t X e Y : heap t = heap_of (X ++ e :: Y) -> NoDup (map e_ptr (X ++ e :: Y)) ->
  heap t !! e_ptr e = Some (node_of e Y).
Proof. intros -> Hn. by apply heap_of_lookup. Qed.
Lemma fwd_at t X e Y i : heap t = heap_of (X ++ e :: Y) -> NoDup (map e_ptr (X ++ e :: Y)) ->
  (i <= e_lvl e)%nat -> fwd t (e_ptr e) i = Some (if decide (i < e_hi e)%nat then first i Y else None).
Proof.
  intros Ht Hn Hi. unfold fwd. rewrite (heap_at t X e Y) by done. cbn. by rewrite forwards_lookup.
Qed.
Lemma set_fwd_at t p i q n f : heap t !! p = Some n -> forward n !! i = Some f ->
  set_fwd p i q t = Some (t <| heap ::= insert p (n <| forward ::= insert i q |>) |>).
Proof. intros Hp Hf. unfold set_fwd. rewrite Hp. cbn. by rewrite Hf. Qed.

(** [p] is the last entry of [X] on level [i]. *)
Definition last_on (X : list entry) (i p : nat) : Prop :=
  exists X1 u Y, X = X1 ++ u :: Y /\ p = e_ptr u /\ visible i u /\ Forall (fun e => ~ visible i e) Y.

Definition with_hi (n : entry) (h : nat) : entry :=
  Entry (e_ptr n) (e_key n) (e_val n) (e_lvl n) (e_lo n) h.
Definition with_lo (n : entry) (l : nat) : entry :=
  Entry (e_ptr n) (e_key n) (e_val n) (e_lvl n) l (e_hi n).

Lemma forwards_with_hi n B i : (i <= e_lvl n)%nat -> e_hi n = i ->
  forwards (with_hi n (S i)) B = <[i := first i B]> (forwards n B).
Proof.
  intros Hi Hh. apply list_eq. intros j. destruct (decide (j <= e_lvl n)%nat) as [Hj|Hj];
    [|rewrite !lookup_ge_None_2; [done|rewrite ?length_insert, length_forwards; cbn; lia..]].
  rewrite forwards_lookup by done. cbn [with_hi e_hi].
  destruct (decide (i = j)) as [->|Hij].
  - rewrite decide_True, list_lookup_insert_eq by (rewrite ?length_forwards; lia). done.
  - rewrite list_lookup_insert_ne, forwards_lookup by done.
    destruct (decide (j < S i)%nat), (decide (j < e_hi n)%nat); try done; lia.
Qed.

(** One round of the loop that links [n]. *)
Lemma link_round t X n B i p :
  heap t = heap_of (X ++ n :: B) -> NoDup (map e_ptr (X ++ n :: B)) -> Forall full X ->
  last_on X i p -> e_lo n = 0%nat -> e_hi n = i -> (i <= e_lvl n)%nat ->
  exists f t1, fwd t p i = Some f /\ set_fwd (e_ptr n) i f t = Some t1 /\
    set_fwd p i (Some (e_ptr n)) t1 = Some (t <| heap := heap_of (X ++ with_hi n (S i) :: B) |>).
Proof.
  intros Ht Hnd Hf (X1 & u & Y & -> & -> & Hu & HY) Hlo Hhi Hi.
  assert (Hu' : full u) by (apply Forall_app in Hf as [_ Hf]; by apply Forall_inv in Hf).
  rewrite <- app_assoc in Ht, Hnd |- *. cbn in Ht, Hnd |- *. destruct Hu' as [Hul Huh].
  assert (Hn : ~ visible i n) by (unfold visible; lia). unfold visible in Hu.
  assert (Hn' : visible i (with_hi n (S i))) by (unfold visible; cbn; lia).
  assert (Hne : e_ptr n <> e_ptr u).
  { intros E. rewrite map_app in Hnd. apply NoDup_app in Hnd as (_ & _ & Hnd). cbn in Hnd.
    apply NoDup_cons in Hnd as [Hnd _]. apply Hnd. rewrite <- E, map_app. apply elem_of_app. right.
    apply list_elem_of_here. }
  pose proof (heap_at _ _ _ _ Ht Hnd) as Hgu.
  pose proof (fwd_at _ _ _ _ i Ht Hnd ltac:(lia)) as Hfu. rewrite decide_True, first_app in Hfu by (done || lia).
  cbn in Hfu. rewrite decide_False in Hfu by done.
  assert (Hgn : heap t !! e_ptr n = Some (node_of n B)).
  { apply (heap_at t (X1 ++ u :: Y)); rewrite <- app_assoc; done. }
  exists (first i B). eexists. split; [done|]. split.
  { eapply set_fwd_at; [exact Hgn|]. cbn. by apply forwards_lookup. }
  erewrite set_fwd_at; [|cbn [heap upd]; rewrite lookup_insert_ne by done; exact Hgu
                       |cbn; apply forwards_lookup; lia].
  f_equal. rewrite (relink X1 u Y n (with_hi n (S i)) B i); [|done|done|unfold visible; lia|done|].
  - cbn [first]. rewrite decide_True by done. rewrite <- Ht. unfold node_of at 3. rewrite forwards_with_hi by done. done.
  - split_and!; try done. intros j Hj. unfold visible. cbn. lia.
Qed.

Lemma link_all us i t X n B :
  heap t = heap_of (X ++ n :: B) -> NoDup (map e_ptr (X ++ n :: B)) -> Forall full X ->
  (forall j p, us !! j = Some p -> last_on X (i + j)%nat p) ->
  e_lo n = 0%nat -> e_hi n = i -> (i + length us = S (e_lvl n))%nat ->
  link (e_ptr n) i us t = Some (t <| heap := heap_of (X ++ with_hi n (S (e_lvl n)) :: B) |>).
Proof.
  revert i t n. induction us as [|p us IH]; intros i t n Ht Hnd Hf Hus Hlo Hhi Hlen; cbn [link].
  - cbn in Hlen. destruct n. cbn in *. subst. rewrite Nat.add_0_r in *. unfold with_hi. cbn. subst.
    rewrite <- Ht. by destruct t.
  - cbn in Hlen. destruct (link_round t X n B i p) as (f & t1 & -> & Ht1 & Ht2); try done.
    { rewrite <- (Nat.add_0_r i). by apply (Hus 0%nat). }
    { lia. }
    cbn. rewrite Ht1. cbn. rewrite Ht2. cbn.
    change (e_ptr n) with (e_ptr (with_hi n (S i))). rewrite (IH (S i) _ (with_hi n (S i))); try done.
    + rewrite map_app in Hnd |- *. done.
    + intros j q Hj. rewrite Nat.add_succ_comm. by apply (Hus (S j)).
    + cbn. lia.
Qed.

Lemma first_in i l p : first i l = Some p -> p ∈ map e_ptr l.
Proof.
  destruct (first_split i l) as [[_ ->]|(A & e & B & -> & _ & _ & ->)]; [done|]. intros [= <-].
  rewrite map_app. apply elem_of_app. right. apply list_elem_of_here.
Qed.
Lemma nodup_middle X n B : NoDup (map e_ptr (X ++ n :: B)) ->
  e_ptr n ∉ map e_ptr X /\ e_ptr n ∉ map e_ptr B /\ NoDup (map e_ptr (X ++ B)).
Proof.
  rewrite !map_app. cbn. rewrite <- Permutation_middle. rewrite NoDup_cons, not_elem_of_app. tauto.
Qed.

(** What the last entry before [n] on level [i] points to. *)
Lemma fwd_last t X n B i p :
  heap t = heap_of (X ++ n :: B) -> NoDup (map e_ptr (X ++ n :: B)) -> Forall full X -> last_on X i p ->
  fwd t p i = Some (first i (n :: B)).
Proof.
  intros Ht Hnd Hf (X1 & u & Y & -> & -> & Hu & HY).
  apply Forall_app in Hf as [_ Hf]. apply Forall_inv in Hf as [Hul Huh].
  rewrite <- app_assoc in Ht, Hnd. unfold visible in Hu.
  rewrite (fwd_at _ _ _ _ i Ht Hnd) by lia. by rewrite decide_True, first_app by (done || lia).
Qed.

(** One round of the loop that unlinks [n]. *)
Lemma unlink_round t X n B i p :
  heap t = heap_of (X ++ n :: B) -> NoDup (map e_ptr (X ++ n :: B)) -> Forall full X ->
  last_on X i p -> e_lo n = i -> e_hi n = S (e_lvl n) -> (i <= e_lvl n)%nat ->
  fwd t (e_ptr n) i = Some (first i B) /\
  set_fwd p i (first i B) t = Some (t <| heap := heap_of (X ++ with_lo n (S i) :: B) |>).
Proof.
  intros Ht Hnd Hf Hp Hlo Hhi Hi.
  rewrite (fwd_at _ _ _ _ i Ht Hnd), decide_True by lia. split; [done|].
  pose proof (heap_at _ _ _ _ Ht Hnd) as Hgn.
  destruct Hp as (X1 & u & Y & -> & -> & Hu & HY).
  assert (Hu' : full u) by (apply Forall_app in Hf as [_ Hf]; by apply Forall_inv in Hf).
  rewrite <- app_assoc in Ht, Hnd |- *. cbn in Ht, Hnd |- *. destruct Hu' as [Hul Huh].
  assert (Hn' : ~ visible i (with_lo n (S i))) by (unfold visible; cbn; lia). unfold visible in Hu.
  erewrite set_fwd_at; [|by eapply heap_at|cbn; apply forwards_lookup; lia].
  f_equal. rewrite (relink X1 u Y n (with_lo n (S i)) B i); [|done|done|unfold visible; lia|done|].
  - cbn [first]. rewrite decide_False by done. rewrite <- Ht.
    rewrite (insert_id (heap t) (e_ptr n)) by done. done.
  - split_and!; try done. intros j Hj. unfold visible. cbn. lia.
Qed.

Lemma with_lo_id n l : e_lo n = l -> with_lo n l = n.
Proof. destruct n. cbn. by intros ->. Qed.
Lemma unlink_all us i t X n B :
  heap t = heap_of (X ++ n :: B) -> NoDup (map e_ptr (X ++ n :: B)) -> Forall full X ->
  (forall j p, us !! j = Some p -> last_on X (i + j)%nat p) ->
  e_lo n = i -> e_hi n = S (e_lvl n) -> (i <= S (e_lvl n) <= i + length us)%nat ->
  unlink (e_ptr n) i us t = Some (t <| heap := heap_of (X ++ with_lo n (S (e_lvl n)) :: B) |>).
Proof.
  revert i t n. induction us as [|p us IH]; intros i t n Ht Hnd Hf Hus Hlo Hhi Hlen; cbn [unlink]; cbn in Hlen.
  - rewrite with_lo_id, <- Ht by lia. by destruct t.
  - assert (Hp : last_on X i p) by (rewrite <- (Nat.add_0_r i); by apply (Hus 0%nat)).
    rewrite (fwd_last t X n B i p Ht Hnd Hf Hp). cbn [mbind option_bind first].
    destruct (decide (visible i n)) as [Hv|Hv]; unfold visible in Hv.
    + rewrite decide_False by (intros H; by apply H).
      destruct (unlink_round t X n B i p) as [-> Hs]; try done; [lia|]. cbn. rewrite Hs. cbn.
      change (e_ptr n) with (e_ptr (with_lo n (S i))). rewrite (IH (S i) _ (with_lo n (S i))); try done.
      * rewrite map_app in Hnd |- *. done.
      * intros j q Hj. rewrite Nat.add_succ_comm. by apply (Hus (S j)).
      * cbn. lia.
    + rewrite decide_True.
      * rewrite with_lo_id, <- Ht by lia. by destruct t.
      * intros H. apply first_in in H. by apply nodup_middle in Hnd as (_ & Hnd & _).
Qed.

(** An entry that is on no level. *)
Lemma heap_of_invisible X n B : NoDup (map e_ptr (X ++ n :: B)) -> (forall i, ~ visible i n) ->
  heap_of (X ++ n :: B) = <[e_ptr n := node_of n B]> (heap_of (X ++ B)).
Proof.
  intros Hnd Hv. apply heap_of_app; [done|]. intros A1 a A2 ->. split.
  - apply node_of_agree. intros i _ _. apply first_agree. cbn. by rewrite decide_False.
  - intros x m. apply insert_insert_ne. intros E. apply nodup_middle in Hnd as (Hnd & _). apply Hnd.
    rewrite E, map_app. apply elem_of_app. right. apply list_elem_of_here.
Qed.

(** *** Searching *)

Section Search.

Context (t : skiptable) (k : bytes) (X B : list entry).
Hypothesis Ht : heap t = heap_of (X ++ B).
Hypothesis Hnd : NoDup (map e_ptr (X ++ B)).
Hypothesis HfX : Forall full X.
Hypothesis HB : Forall (fun e => 0 <= strcmp (e_key e) k) B.

Lemma walk_last fuel i X1 c Y :
  X = X1 ++ c :: Y -> visible i c -> Forall (fun e => strcmp (e_key e) k < 0) Y ->
  (length Y < fuel)%nat ->
  exists X2 c' Y', walk fuel t k i (e_ptr c) = Some (e_ptr c') /\ X = X2 ++ c' :: Y' /\ visible i c' /\
    Forall (fun e => ~ visible i e) Y' /\ Y' `suffix_of` Y.
Proof.
  revert X1 c Y. induction fuel as [|fuel IH]; intros X1 c Y HX Hv Hlt Hfuel; [lia|]. cbn [walk].
  assert (Hc : full c) by (rewrite HX in HfX; apply Forall_app in HfX as [_ H]; by apply Forall_inv in H).
  destruct Hc as [Hcl Hch]. assert (Hv' := Hv). unfold visible in Hv'.
  assert (Ht' := Ht). assert (Hnd' := Hnd). rewrite HX, <- app_assoc in Ht', Hnd'. cbn in Ht', Hnd'.
  rewrite (fwd_at _ _ _ _ i Ht' Hnd'), decide_True by lia. cbn [mbind option_bind].
  destruct (first_split i Y) as [[HY _]|(A & e & C & -> & HA & He & _)].
  - rewrite first_app by done. exists X1, c, Y. split; [|by split_and!].
    destruct (first_split i B) as [[_ ->]|(A & e & C & EB & HA & He & ->)]; [done|]. cbn.
    rewrite EB in Ht', Hnd', HB. 
    rewrite (heap_at t (X1 ++ c :: Y ++ A) e C); [|by rewrite <- app_assoc; cbn; rewrite <- app_assoc..].
    cbn. apply Forall_app in HB as [_ HB']. apply Forall_inv in HB'. by rewrite decide_False by lia.
  - rewrite <- app_assoc, first_app by done. cbn. rewrite decide_True by done.
    rewrite (heap_at t (X1 ++ c :: A) e (C ++ B)).
    2,3: rewrite <- app_assoc in Ht', Hnd'; by rewrite <- app_assoc.
    cbn. apply Forall_app in Hlt as [_ Hlt]. apply Forall_cons in Hlt as [Hlt HltC]. rewrite decide_True by done.
    destruct (IH (X1 ++ c :: A) e C) as (X2 & c' & Y' & -> & HX2 & Hc' & HY' & Hs); try done.
    + by rewrite HX, <- app_assoc.
    + rewrite length_app in Hfuel. cbn in Hfuel. lia.
    + exists X2, c', Y'. split_and!; try done. trans C; [done|]. exists (A ++ [e]). by rewrite <- app_assoc.
Qed.

Lemma full_below i j e : full e -> visible i e -> (j <= i)%nat -> visible j e.
Proof. unfold full, visible. lia. Qed.

Lemma descend_last i X1 c Y update :
  X = X1 ++ c :: Y -> visible i c -> Forall (fun e => strcmp (e_key e) k < 0) Y ->
  exists p us, descend t k i (e_ptr c) update = Some (p, us ++ update) /\ length us = S i /\
    (forall j q, us !! j = Some q -> last_on X j q) /\ last_on X 0 p.
Proof.
  revert X1 c Y update. induction i as [|i IH]; intros X1 c Y update HX Hv Hlt; cbn [descend].
  all: assert (Hsz : (length Y < size (heap t))%nat)
    by (rewrite Ht, heap_of_size, HX by done; rewrite !length_app; cbn; lia).
  all: destruct (walk_last (size (heap t)) _ X1 c Y HX Hv Hlt Hsz) as (X2 & c' & Y' & -> & HX2 & Hc' & HY' & Hs).
  all: cbn [mbind option_bind].
  - exists (e_ptr c'), [e_ptr c']. assert (last_on X 0 (e_ptr c')) by (by exists X2, c', Y').
    split_and!; try done. intros [|j] q; [intros [= <-]; done|done].
  - assert (full c') by (rewrite HX2 in HfX; apply Forall_app in HfX as [_ H]; by apply Forall_inv in H).
    destruct (IH X2 c' Y' (e_ptr c' :: update) HX2) as (p & us & -> & Hl & Hus & Hp).
    + eapply full_below; [done..|lia].
    + destruct Hs as [Z ->]. by apply Forall_app in Hlt as [_ ?].
    + exists p, (us ++ [e_ptr c']). rewrite <- app_assoc, length_app. cbn. split_and!; try done; [lia|].
      intros j q Hj. apply lookup_app_Some in Hj as [Hj|[Hj1 Hj2]]; [auto|].
      destruct (decide (j = S i)) as [->|].
      * replace (S i - length us)%nat with 0%nat in Hj2 by lia. injection Hj2 as <-. by exists X2, c', Y'.
      * apply lookup_lt_Some in Hj2. cbn in Hj2. lia.
Qed.

End Search.

(** ** The invariant *)

Definition kv (e : entry) : bytes * bytes := (e_key e, e_val e).
Definition key_lt (a b : entry) : Prop := strcmp (e_key a) (e_key b) < 0.

Record rep (t : skiptable) (h0 : entry) (es : list entry) : Prop := {
  rep_heap : heap t = heap_of (h0 :: es);
  rep_header : header t = e_ptr h0;
  rep_h0 : full h0 /\ e_lvl h0 = KVS_SKIPLIST_MAX_LEVEL;
  rep_nodup : NoDup (map e_ptr (h0 :: es));
  rep_brk : Forall (fun e => e_ptr e < brk t)%nat (h0 :: es);
  rep_full : Forall full es;
  rep_lvl : Forall (fun e => e_lvl e <= level t)%nat es;
  rep_level : (level t <= KVS_SKIPLIST_MAX_LEVEL)%nat;
  rep_sorted : StronglySorted key_lt es;
  rep_count : count t = Z.of_nat (length es) /\ count t < 2 ^ 31 }.

(** The map of a list of entries, and of a table. *)
Definition dict (es : list entry) : gmap bytes bytes := list_to_map (map kv es).
Definition abs (t : skiptable) : gmap bytes bytes := list_to_map (default [] (kvs_skiptable_foreach t)).

Lemma visit_all fuel t X c Y :
  heap t = heap_of (X ++ c :: Y) -> NoDup (map e_ptr (X ++ c :: Y)) -> Forall full (c :: Y) ->
  (length Y < fuel)%nat -> visit fuel t (e_ptr c) = Some (map kv Y).
Proof.
  revert X c Y. induction fuel as [|fuel IH]; intros X c Y Ht Hnd Hf Hl; [lia|]. cbn [visit].
  inversion_clear Hf as [|?? [Hlo Hhi] HfY].
  rewrite (fwd_at _ _ _ _ 0 Ht Hnd), decide_True by lia. cbn [mbind option_bind].
  destruct Y as [|e Y]; [done|]. cbn [first]. inversion HfY as [|?? [Hel Heh] _]; subst.
  rewrite decide_True by (unfold visible; lia).
  assert (Ht' : heap t = heap_of ((X ++ [c]) ++ e :: Y)) by (by rewrite <- app_assoc).
  assert (Hnd' : NoDup (map e_ptr ((X ++ [c]) ++ e :: Y))) by (by rewrite <- app_assoc).
  rewrite (heap_at _ _ _ _ Ht' Hnd'). cbn [mbind option_bind].
  rewrite (IH _ _ _ Ht' Hnd') by (done || (cbn in Hl; lia)). done.
Qed.
Lemma foreach_rep t h0 es : rep t h0 es -> kvs_skiptable_foreach t = Some (map kv es).
Proof.
  intros R. unfold kvs_skiptable_foreach. rewrite (rep_header _ _ _ R).
  apply (visit_all _ t []); [apply R|apply R| |].
  - constructor; [apply R|apply R].
  - rewrite (rep_heap _ _ _ R), heap_of_size by apply R. cbn. lia.
Qed.
Lemma abs_rep t h0 es : rep t h0 es -> abs t = dict es.
Proof. intros R. unfold abs. by rewrite (foreach_rep _ _ _ R). Qed.

(** *** Maps of sorted lists *)

Lemma dict_none k es : Forall (fun e => strcmp (e_key e) k <> 0) es -> dict es !! k = None.
Proof.
  intros H. apply not_elem_of_list_to_map_1. intros Hin.
  apply list_elem_of_fmap in Hin as ([k' v] & -> & Hin). apply list_elem_of_fmap in Hin as (e & [= -> ->] & Hin).
  rewrite Forall_forall in H. by apply (H e Hin), strcmp_eq.
Qed.
Lemma dict_middle A n B : Forall (fun e => strcmp (e_key e) (e_key n) <> 0) A ->
  dict (A ++ n :: B) = <[e_key n := e_val n]> (dict (A ++ B)).
Proof.
  intros HA. unfold dict. rewrite !map_app, !list_to_map_app. cbn. rewrite insert_union_r; [done|].
  by apply dict_none.
Qed.

Lemma split_at k es : StronglySorted key_lt es ->
  exists A B, es = A ++ B /\ Forall (fun e => strcmp (e_key e) k < 0) A /\
    Forall (fun e => 0 <= strcmp (e_key e) k) B.
Proof.
  induction 1 as [|e es Hs (A & B & -> & HA & HB) He]; [by exists [], []|].
  destruct (decide (strcmp (e_key e) k < 0)) as [Hlt|Hge].
  - exists (e :: A), B. by split_and!; [|constructor|].
  - exists [], (e :: A ++ B). split_and!; [done|constructor|]. constructor; [lia|].
    eapply Forall_impl; [exact He|]. intros x Hx. unfold key_lt in Hx.
    destruct (strcmp_cases (e_key x) k) as [H|[H|H]]; [|lia..].
    pose proof (strcmp_trans (e_key e) (e_key x) k). lia.
Qed.

(** The entry that is found, if any. *)
Definition found (k : bytes) (B : list entry) : option nat :=
  match B with
  | b :: _ => if decide (strcmp (e_key b) k = 0) then Some (e_ptr b) else None
  | [] => None
  end.

Lemma search_spec k t h0 es : rep t h0 es ->
  exists A B us, es = A ++ B /\ Forall (fun e => strcmp (e_key e) k < 0) A /\
    Forall (fun e => 0 <= strcmp (e_key e) k) B /\ length us = S (level t) /\
    (forall j q, us !! j = Some q -> last_on (h0 :: A) j q) /\
    skiptable_search_node k t = Some (found k B, us).
Proof.
  intros R. destruct (split_at k es (rep_sorted _ _ _ R)) as (A & B & -> & HA & HB).
  pose proof (rep_full _ _ _ R) as Hf. apply Forall_app in Hf as [HfA HfB].
  destruct (rep_h0 _ _ _ R) as [Hh0 Hl0]. pose proof (rep_level _ _ _ R) as Hlv.
  assert (HfX : Forall full (h0 :: A)) by (by constructor).
  destruct (descend_last t k (h0 :: A) B (rep_heap _ _ _ R) (rep_nodup _ _ _ R) HfX HB
              (level t) [] h0 A []) as (p & us & Hd & Hlen & Hus & Hp); [done| |done|].
  { destruct Hh0 as [Hlo Hhi]. unfold visible. lia. }
  exists A, B, us. split_and!; try done. unfold skiptable_search_node.
  rewrite (rep_header _ _ _ R), Hd, app_nil_r. cbn [mbind option_bind].
  destruct Hp as (X1 & u & Y & EX & -> & Hu & HY).
  assert (Y = []) as ->.
  { destruct Y as [|y Y]; [done|]. apply Forall_inv in HY. rewrite EX in HfX.
    apply Forall_app in HfX as [_ HfX]. inversion_clear HfX as [|?? _ HfY]. apply Forall_inv in HfY as [Hlo Hhi].
    destruct HY. unfold visible. lia. }
  assert (Ht : heap t = heap_of (X1 ++ u :: B)).
  { rewrite (rep_heap _ _ _ R). change (h0 :: A ++ B) with ((h0 :: A) ++ B). by rewrite EX, <- app_assoc. }
  assert (Hn : NoDup (map e_ptr (X1 ++ u :: B))).
  { pose proof (rep_nodup _ _ _ R) as Hn. change (h0 :: A ++ B) with ((h0 :: A) ++ B) in Hn.
    by rewrite EX, <- app_assoc in Hn. }
  unfold visible in Hu. rewrite EX in HfX. apply Forall_app in HfX as [_ HfX]. apply Forall_inv in HfX as [Hlo Hhi].
  rewrite (fwd_at _ _ _ _ 0 Ht Hn), decide_True by lia. cbn [mbind option_bind].
  destruct B as [|b B]; [done|]. cbn [first]. inversion HfB as [|?? [Hbl Hbh] _]; subst.
  rewrite decide_True by (unfold visible; lia).
  rewrite (heap_at t (X1 ++ [u]) b B) by (by rewrite <- app_assoc). done.
Qed.

(** The outcome of a search: the key's entry, or that there is none. *)
Lemma found_cases k A B : StronglySorted key_lt (A ++ B) ->
  Forall (fun e => strcmp (e_key e) k < 0) A -> Forall (fun e => 0 <= strcmp (e_key e) k) B ->
  (exists b B', B = b :: B' /\ e_key b = k /\ found k B = Some (e_ptr b) /\
     forall v, dict (A ++ Entry (e_ptr b) k v (e_lvl b) (e_lo b) (e_hi b) :: B') = <[k := v]> (dict (A ++ B')) /\
     dict (A ++ B') !! k = None) \/
  (found k B = None /\ Forall (fun e => 0 < strcmp (e_key e) k) B /\ dict (A ++ B) !! k = None).
Proof.
  intros Hs HA HB.
  assert (HA' : Forall (fun e => strcmp (e_key e) k <> 0) A) by (eapply Forall_impl; [exact HA|]; cbn; lia).
  assert (Hnone : forall C, Forall (fun e => 0 < strcmp (e_key e) k) C -> dict (A ++ C) !! k = None).
  { intros C HC. apply dict_none. apply Forall_app. split; [done|]. eapply Forall_impl; [exact HC|]. cbn. lia. }
  apply StronglySorted_app in Hs as (_ & _ & Hs).
  destruct B as [|b B]; [right; by split_and!; [| |apply Hnone]|].
  inversion Hs as [|?? _ Hb]; subst. inversion HB as [|?? Hb0 _]; subst.
  cbn [found]. destruct (decide (strcmp (e_key b) k = 0)) as [E|E].
  - left. exists b, B. apply strcmp_eq in E. split_and!; try done. intros v. split.
    + rewrite dict_middle; [done|]. done.
    + apply Hnone. eapply Forall_impl; [exact Hb|]. intros x Hx. unfold key_lt in Hx. rewrite E, strcmp_antisym in Hx. lia.
  - right. assert (HB' : Forall (fun e => 0 < strcmp (e_key e) k) (b :: B)).
    { constructor; [lia|]. eapply Forall_impl; [exact Hb|]. intros x Hx. unfold key_lt in Hx.
      assert (strcmp k (e_key b) < 0) by (rewrite strcmp_antisym; lia).
      pose proof (strcmp_trans k (e_key b) (e_key x)). rewrite (strcmp_antisym (e_key x)). lia. }
    by split_and!; [| |apply Hnone].
Qed.

Definition with_val (e : entry) (v : bytes) : entry :=
  Entry (e_ptr e) (e_key e) v (e_lvl e) (e_lo e) (e_hi e).

(** Replacing the value of an entry. *)
Lemma first_with_val i b v B : first i (with_val b v :: B) = first i (b :: B).
Proof. cbn. unfold visible. done. Qed.
Lemma heap_of_with_val X b v B : NoDup (map e_ptr (X ++ b :: B)) ->
  heap_of (X ++ with_val b v :: B) = <[e_ptr b := node_of b B <| value := v |>]> (heap_of (X ++ b :: B)).
Proof.
  intros Hnd. apply heap_of_app; [cbn; by rewrite insert_insert_eq|].
  intros A1 a A2 ->. split.
  - apply node_of_agree. intros i _ _. apply first_agree. apply first_with_val.
  - intros x m. apply insert_insert_ne. intros E. apply nodup_middle in Hnd as (Hnd & _). apply Hnd.
    rewrite E, map_app. apply elem_of_app. right. apply list_elem_of_here.
Qed.

Lemma sorted_keys es es' : map e_key es = map e_key es' -> StronglySorted key_lt es -> StronglySorted key_lt es'.
Proof.
  intros E H. revert es' E. induction H as [|e es _ IH He]; intros [|e' es'] E; try done; [constructor|].
  cbn in E. injection E as E1 E2. constructor; [auto|].
  assert (H : Forall (fun k => strcmp (e_key e) k < 0) (map e_key es)) by (by apply Forall_map).
  rewrite E2 in H. apply Forall_map in H. eapply Forall_impl; [exact H|]. intros x Hx. unfold key_lt. by rewrite <- E1.
Qed.

Lemma rep_mod t h0 A b B v : rep t h0 (A ++ b :: B) ->
  exists n, heap t !! e_ptr b = Some n /\
  rep (t <| heap ::= insert (e_ptr b) (n <| value := v |>) |>) h0 (A ++ with_val b v :: B).
Proof.
  intros R. pose proof (rep_heap _ _ _ R) as Ht. pose proof (rep_nodup _ _ _ R) as Hnd.
  change (h0 :: A ++ b :: B) with ((h0 :: A) ++ b :: B) in Ht, Hnd.
  exists (node_of b B). split; [by eapply heap_at|].
  split; cbn [heap header brk level count upd]; try apply R.
  - change (h0 :: A ++ with_val b v :: B) with ((h0 :: A) ++ with_val b v :: B).
    by rewrite heap_of_with_val, Ht.
  - cbn. rewrite map_app. cbn. pose proof (rep_nodup _ _ _ R) as H. cbn in H. by rewrite map_app in H.
  - pose proof (rep_brk _ _ _ R) as H. rewrite Forall_cons, Forall_app, Forall_cons in H |- *. done.
  - pose proof (rep_full _ _ _ R) as H. rewrite Forall_app, Forall_cons in H |- *. done.
  - pose proof (rep_lvl _ _ _ R) as H. rewrite Forall_app, Forall_cons in H |- *. done.
  - eapply sorted_keys; [|apply R]. by rewrite !map_app.
  - pose proof (rep_count _ _ _ R) as H. rewrite !length_app in *. done.
Qed.

(** *** Adding an entry *)

Lemma rep_raise t h0 es l : rep t h0 es -> (level t <= l <= KVS_SKIPLIST_MAX_LEVEL)%nat ->
  rep (t <| level := l |>) h0 es.
Proof.
  intros R Hl. split; cbn [heap header brk level count upd]; try apply R; [|lia].
  eapply Forall_impl; [apply (rep_lvl _ _ _ R)|]. cbn. lia.
Qed.
Lemma last_on_header t h0 A B j : rep t h0 (A ++ B) -> (level t < j <= KVS_SKIPLIST_MAX_LEVEL)%nat ->
  last_on (h0 :: A) j (header t).
Proof.
  intros R Hj. exists [], h0, A. destruct (rep_h0 _ _ _ R) as [[Hlo Hhi] Hl].
  split_and!; [done|apply R|unfold visible; lia|].
  pose proof (rep_lvl _ _ _ R) as H. pose proof (rep_full _ _ _ R) as Hf.
  apply Forall_app in H as [H _]. apply Forall_app in Hf as [Hf _].
  rewrite Forall_forall in *. intros e He. destruct (Hf e He). specialize (H e He). unfold visible. cbn in H. lia.
Qed.

Lemma sorted_middle A n B : StronglySorted key_lt (A ++ n :: B) <->
  StronglySorted key_lt (A ++ B) /\ Forall (fun e => key_lt e n) A /\ Forall (key_lt n) B.
Proof.
  rewrite !StronglySorted_app, !Forall_forall. split.
  - intros (H1 & H2 & H3). inversion H3 as [|?? H4 H5]; subst. rewrite Forall_forall in H5.
    split_and!; try done; intros; [apply H1; [done|by right]|apply H1; [done|by left]].
  - intros ((H1 & H2 & H3) & H4 & H5). split_and!; [|done|constructor; [done|by apply Forall_forall]].
    intros x y Hx Hy. apply elem_of_cons in Hy as [->|Hy]; auto.
Qed.

Lemma rep_add t h0 A B k v l us : rep t h0 (A ++ B) ->
  Forall (fun e => strcmp (e_key e) k < 0) A -> Forall (fun e => 0 < strcmp (e_key e) k) B ->
  (forall j q, us !! j = Some q -> last_on (h0 :: A) j q) -> length us = S l -> (l <= level t)%nat ->
  count t < 2 ^ 31 - 1 ->
  exists t', link (brk t) 0 us (t <| heap ::= insert (brk t) (Node k v l (replicate (S l) None)) |> <| brk ::= S |>)
    = Some t' /\
    rep (t' <| count ::= fun c => i32 (c + 1) |>) h0 (A ++ Entry (brk t) k v l 0 (S l) :: B).
Proof.
  intros R HA HB Hus Hlen Hl Hc. set (n := Entry (brk t) k v l 0 0).
  pose proof (rep_brk _ _ _ R) as Hb.
  assert (Hnin : brk t ∉ map e_ptr (h0 :: A ++ B)).
  { intros Hin. apply list_elem_of_fmap in Hin as (e & E & Hin). rewrite Forall_forall in Hb.
    specialize (Hb e Hin). lia. }
  assert (Hnd : NoDup (map e_ptr ((h0 :: A) ++ n :: B))).
  { rewrite <- Permutation_middle. apply NoDup_cons. split; [done|apply R]. }
  set (t1 := _ <| brk ::= S |>).
  assert (Ht1 : heap t1 = heap_of ((h0 :: A) ++ n :: B)).
  { cbn [heap t1 upd]. rewrite heap_of_invisible by (done || (intros i; unfold visible; cbn; lia)).
    rewrite (rep_heap _ _ _ R). f_equal. unfold node_of. f_equal. apply list_eq. intros i.
    destruct (decide (i <= l)%nat) as [Hi|Hi].
    - rewrite forwards_lookup by done. rewrite lookup_replicate_2 by lia. by rewrite decide_False by (cbn; lia).
    - rewrite !lookup_ge_None_2; [done|rewrite ?length_forwards, ?length_replicate; cbn; lia..]. }
  pose proof (rep_full _ _ _ R) as Hf. apply Forall_app in Hf as [HfA HfB].
  assert (HfX : Forall full (h0 :: A)) by (constructor; [apply R|done]).
  pose proof (link_all us 0 t1 (h0 :: A) n B Ht1 Hnd HfX Hus eq_refl eq_refl Hlen) as HL. cbn [e_ptr n] in HL.
  eexists. split; [exact HL|]. change (with_hi n (S (e_lvl n))) with (Entry (brk t) k v l 0 (S l)).
  split; cbn [heap header brk level count upd t1]; try apply R.
  - done.
  - cbn. cbn in Hnd. rewrite map_app in Hnd |- *. done.
  - rewrite Forall_cons, Forall_app, Forall_cons in *. cbn. destruct Hb as (H1 & H2 & H3).
    split_and!; [lia|eapply Forall_impl; [exact H2|]; cbn; lia|lia|eapply Forall_impl; [exact H3|]; cbn; lia].
  - rewrite Forall_app, Forall_cons. done.
  - pose proof (rep_lvl _ _ _ R) as H. rewrite Forall_app, Forall_cons in *. cbn. tauto.
  - apply sorted_middle. split; [apply R|]. split; [done|]. eapply Forall_impl; [exact HB|].
    intros x Hx. unfold key_lt. cbn. rewrite strcmp_antisym. cbn in Hx. lia.
  - destruct (rep_count _ _ _ R) as [H _]. rewrite length_app in *. rewrite i32_small by lia. cbn. lia.
Qed.

(** *** Removing an entry *)

Lemma lower_spec l t h0 L : heap t = heap_of (h0 :: L) -> header t = e_ptr h0 -> NoDup (map e_ptr (h0 :: L)) ->
  full h0 -> (l <= e_lvl h0)%nat ->
  exists l', lower l t = Some l' /\ (l' <= l)%nat /\ forall i, (l' < i <= l)%nat -> first i L = None.
Proof.
  intros Ht Hh Hnd [Hlo Hhi]. induction l as [|l IH]; intros Hl; cbn [lower]; [exists 0%nat; split_and!; [done..|lia]|].
  rewrite Hh, (fwd_at t [] h0 L _ Ht Hnd), decide_True by lia. cbn [mbind option_bind].
  destruct (first (S l) L) as [q|] eqn:E; [exists (S l); split_and!; [done..|lia]|].
  destruct IH as (l' & Hl' & Hle & Hi); [lia|]. exists l'. split_and!; [done|lia|].
  intros i Hi'. destruct (decide (i = S l)) as [->|]; [done|]. apply Hi. lia.
Qed.
Lemma first_none i l : first i l = None -> Forall (fun e => ~ visible i e) l.
Proof. destruct (first_split i l) as [[H _]|(A & e & B & _ & _ & _ & ->)]; done. Qed.

Lemma rep_del t h0 A b B us : rep t h0 (A ++ b :: B) ->
  (forall j q, us !! j = Some q -> last_on (h0 :: A) j q) -> length us = S (level t) ->
  exists t1 l, unlink (e_ptr b) 0 us t = Some t1 /\ lower (level t1) t1 = Some l /\
    is_Some (heap t1 !! e_ptr b) /\
    rep (t1 <| level := l |> <| count ::= fun c => i32 (c - 1) |> <| heap ::= delete (e_ptr b) |>) h0 (A ++ B).
Proof.
  intros R Hus Hlen. pose proof (rep_heap _ _ _ R) as Ht. pose proof (rep_nodup _ _ _ R) as Hnd.
  change (h0 :: A ++ b :: B) with ((h0 :: A) ++ b :: B) in Ht, Hnd.
  pose proof (rep_full _ _ _ R) as Hf. apply Forall_app in Hf as [HfA HfB]. inversion_clear HfB as [|?? [Hbl Hbh] HfB'].
  pose proof (rep_lvl _ _ _ R) as Hl. apply Forall_app in Hl as [HlA HlB]. inversion_clear HlB as [|?? Hbv HlB'].
  assert (HfX : Forall full (h0 :: A)) by (constructor; [apply R|done]).
  pose proof (unlink_all us 0 t (h0 :: A) b B Ht Hnd HfX Hus Hbl Hbh ltac:(lia)) as HU.
  set (b' := with_lo b (S (e_lvl b))) in *. set (t1 := t <| heap := _ |>) in HU.
  assert (Hv : forall i, ~ visible i b') by (intros i; unfold visible; cbn; lia).
  assert (Hnd' : NoDup (map e_ptr ((h0 :: A) ++ b' :: B))) by (rewrite map_app in Hnd |- *; done).
  destruct (lower_spec (level t) t1 h0 (A ++ b' :: B)) as (l & Hlow & Hle & Hi); [done|apply R|done|apply R| |].
  { destruct (rep_h0 _ _ _ R) as [_ ->]. apply R. }
  exists t1, l. split_and!; [done|done|eexists; by apply (heap_at t1 (h0 :: A) b' B)|].
  assert (Hlv : Forall (fun e => e_lvl e <= l)%nat (A ++ B)).
  { apply Forall_app. assert (Hw : forall e, full e -> (e_lvl e <= level t)%nat -> e ∈ A ++ b' :: B -> (e_lvl e <= l)%nat).
    { intros e [Hlo Hhi] Hev Hin. apply dec_stable. intros Hlt. specialize (Hi (e_lvl e) ltac:(lia)).
      apply first_none in Hi. rewrite Forall_forall in Hi. apply (Hi e Hin). unfold visible. lia. }
    rewrite !Forall_forall in *. split; intros e He; apply Hw; auto; apply elem_of_app;
      [by left|right; by apply list_elem_of_further]. }
  apply nodup_middle in Hnd' as Hm. destruct Hm as (Hn1 & Hn2 & Hn3).
  split; cbn [heap header brk level count upd t1]; try apply R; try done.
  - rewrite heap_of_invisible by done. change (e_ptr b') with (e_ptr b). rewrite delete_insert_id; [done|].
    apply heap_of_none. rewrite map_app. by apply not_elem_of_app.
  - pose proof (rep_brk _ _ _ R) as H. rewrite !Forall_cons, !Forall_app, ?Forall_cons in *. tauto.
  - by apply Forall_app.
  - pose proof (rep_level _ _ _ R). lia.
  - by apply (sorted_middle A b B), R.
  - pose proof (rep_count _ _ _ R) as Hc. rewrite !length_app in *. cbn in Hc. rewrite i32_small by lia. lia.
Qed.

(** ** The contract *)

Definition wf (t : skiptable) : Prop := exists h0 es, rep t h0 es.
Definition meets (t : skiptable) (o : op) (x : option (res * skiptable)) : Prop :=
  exists r t', x = Some (r, t') /\ wf t' /\ spec_step (abs t) o r (abs t').

Lemma with_val_id b : with_val b (e_val b) = b.
Proof. by destruct b. Qed.
Lemma entry_val b k : e_key b = k -> Entry (e_ptr b) k (e_val b) (e_lvl b) (e_lo b) (e_hi b) = b.
Proof. intros <-. apply with_val_id. Qed.

(** A search ends at the key's entry, or at the place where it belongs. *)
Lemma search_cases k t h0 es : rep t h0 es ->
  exists A B us, es = A ++ B /\ Forall (fun e => strcmp (e_key e) k < 0) A /\ length us = S (level t) /\
    (forall j q, us !! j = Some q -> last_on (h0 :: A) j q) /\
    ((exists b B', B = b :: B' /\ e_key b = k /\ skiptable_search_node k t = Some (Some (e_ptr b), us) /\
        abs t = <[k := e_val b]> (dict (A ++ B')) /\ dict (A ++ B') !! k = None /\
        forall v, dict (A ++ with_val b v :: B') = <[k := v]> (abs t)) \/
     (skiptable_search_node k t = Some (None, us) /\ Forall (fun e => 0 < strcmp (e_key e) k) B /\
        abs t !! k = None)).
Proof.
  intros R. destruct (search_spec k t h0 es R) as (A & B & us & -> & HA & HB & Hl & Hus & Hs).
  exists A, B, us. split_and!; try done. rewrite Hs.
  destruct (found_cases k A B (rep_sorted _ _ _ R) HA HB) as [(b & B' & -> & Hk & -> & Hv)|(-> & HB' & Hn)].
  - left. exists b, B'. destruct (Hv (e_val b)) as [Hv1 Hv2]. rewrite entry_val in Hv1 by done.
    assert (Ha : abs t = <[k := e_val b]> (dict (A ++ B'))) by (by rewrite (abs_rep _ _ _ R)).
    split_and!; try done. intros v. rewrite Ha, insert_insert_eq. unfold with_val. rewrite Hk. apply Hv.
  - right. by rewrite (abs_rep _ _ _ R).
Qed.

Lemma mod_meets e k v t : wf t ->
  exists rc t', kvs_skiptable_mod e k v t = Some (rc, t') /\ wf t' /\
    (abs t !! k = None /\ rc = 1 /\ t' = t \/
     is_Some (abs t !! k) /\ rc = -2 /\ t' = t \/
     is_Some (abs t !! k) /\ rc = 0 /\ abs t' = <[k := v]> (abs t)).
Proof.
  intros (h0 & es & R). unfold kvs_skiptable_mod.
  destruct (search_cases k t h0 es R) as (A & B & us & -> & _ & _ & _ &
    [(b & B' & -> & Hk & -> & Ha & _ & Hd)|(-> & _ & Hn)]); cbn [mbind option_bind].
  - assert (is_Some (abs t !! k)) by (rewrite Ha, lookup_insert_eq; by eexists).
    destruct (m_val e); cbn [negb]; [|exists (-2), t; split_and!; [done|by eexists _, _|tauto]].
    destruct (rep_mod _ _ _ _ _ v R) as (n & -> & R'). cbn [mbind option_bind].
    eexists _, _. split_and!; [done|by eexists _, _|]. right. right. by rewrite (abs_rep _ _ _ R').
  - exists 1, t. split_and!; [done|by eexists _, _|tauto].
Qed.

Lemma set_meets e k v t : wf t -> count t < 2 ^ 31 - 1 ->
  exists rc t', kvs_skiptable_set e k v t = Some (rc, t') /\ wf t' /\
    (rc = -2 /\ abs t' = abs t \/ rc = 0 /\ abs t' = <[k := v]> (abs t)).
Proof.
  intros Hwf Hc. destruct Hwf as (h0 & es & R). unfold kvs_skiptable_set.
  destruct (search_cases k t h0 es R) as (A & B & us & -> & HA & Hlen & Hus &
    [(b & B' & -> & Hk & -> & Ha & _ & Hd)|(-> & HB & Hn)]); cbn [mbind option_bind].
  { destruct (mod_meets e k v t) as (rc & t' & -> & Hwf' & H); [by eexists _, _|].
    exists rc, t'. split_and!; [done..|]. destruct H as [(H & _)|[(_ & -> & ->)|(_ & -> & ->)]]; [|tauto..].
    by rewrite Ha, lookup_insert_eq in H. }
  assert (Hmax : forall m cs, (random_level m cs <= m)%nat).
  { intros m. induction m as [|m IH]; intros [|[] cs]; cbn; try lia. specialize (IH cs). lia. }
  specialize (Hmax KVS_SKIPLIST_MAX_LEVEL (coins e)). set (l := random_level _ _) in *.
  set (t1 := if decide (l > level t)%nat then t <| level := l |> else t).
  set (us1 := if decide (l > level t)%nat then us ++ _ else us).
  assert (H1 : rep t1 h0 (A ++ B) /\ (l <= level t1)%nat /\ count t1 = count t).
  { unfold t1. case_decide as Hl; split_and!; try done; [apply rep_raise; [done|lia]|lia]. }
  destruct H1 as (R1 & Hl1 & Hc1).
  assert (Hus1 : forall j q, take (S l) us1 !! j = Some q -> last_on (h0 :: A) j q).
  { intros j q Hj. apply lookup_take_Some in Hj as [Hj Hjl]. unfold us1 in Hj. case_decide; [|eauto].
    apply lookup_app_Some in Hj as [Hj|[Hj1 Hj2]]; [eauto|].
    apply lookup_replicate in Hj2 as [-> Hj2]. eapply last_on_header; [exact R|lia]. }
  assert (Hlen1 : length (take (S l) us1) = S l).
  { rewrite length_take. unfold us1. case_decide; rewrite ?length_app, ?length_replicate; lia. }
  unfold skipnode_create. destruct (_ && _ && _ && _).
  - destruct (rep_add t1 h0 A B k v l (take (S l) us1) R1 HA HB Hus1 Hlen1 Hl1 ltac:(lia)) as (t2 & -> & R2).
    cbn [mbind option_bind]. eexists _, _. split_and!; [done|by eexists _, _|]. right. split; [done|].
    rewrite (abs_rep _ _ _ R2), (abs_rep _ _ _ R), dict_middle; [done|].
    eapply Forall_impl; [exact HA|]. cbn. lia.
  - exists (-2), t1. split_and!; [done|by eexists _, _|]. left. by rewrite (abs_rep _ _ _ R1), (abs_rep _ _ _ R).
Qed.

Lemma del_meets k t : wf t ->
  exists rc t', kvs_skiptable_del k t = Some (rc, t') /\ wf t' /\
    (abs t !! k = None /\ rc = 1 /\ t' = t \/ is_Some (abs t !! k) /\ rc = 0 /\ abs t' = delete k (abs t)).
Proof.
  intros (h0 & es & R). unfold kvs_skiptable_del.
  destruct (search_cases k t h0 es R) as (A & B & us & -> & _ & Hlen & Hus &
    [(b & B' & -> & Hk & -> & Ha & Hn & Hd)|(-> & _ & Hn)]); cbn [mbind option_bind].
  - destruct (rep_del t h0 A b B' us R Hus Hlen) as (t1 & l & -> & Hlow & [n Hp] & R1).
    cbn [mbind option_bind]. rewrite Hlow. cbn [mbind option_bind]. rewrite Hp. cbn [mbind option_bind].
    eexists _, _. split_and!; [done|by eexists _, _|]. right.
    rewrite (abs_rep _ _ _ R1), Ha, lookup_insert_eq, delete_insert_id by done. by split_and!.
  - exists 1, t. split_and!; [done|by eexists _, _|tauto].
Qed.

Lemma get_meets k t : wf t -> kvs_skiptable_get k t = Some (abs t !! k).
Proof.
  intros (h0 & es & R). unfold kvs_skiptable_get.
  destruct (search_cases k t h0 es R) as (A & B & us & -> & _ & _ & _ &
    [(b & B' & -> & Hk & -> & Ha & _ & _)|(-> & _ & ->)]); cbn [mbind option_bind]; [|done].
  destruct (rep_mod _ _ _ _ _ (e_val b) R) as (n & Hn & _).
  pose proof (rep_heap _ _ _ R) as Ht. change (h0 :: A ++ b :: B') with ((h0 :: A) ++ b :: B') in Ht.
  rewrite (heap_at t _ _ _ Ht) by apply R. cbn. by rewrite Ha, lookup_insert_eq.
Qed.

Lemma exec_meets e o t : wf t -> count t < 2 ^ 31 - 1 -> meets t o (exec e o t).
Proof.
  intros Hwf Hc. unfold meets. destruct o as [k v|k|k v|k|k]; cbn [exec].
  - destruct (set_meets e k v t Hwf Hc) as (rc & t' & -> & Hwf' & H). cbn. eexists _, _. split_and!; [done..|].
    destruct H as [[-> ->]|[-> ->]]; [by constructor|constructor].
  - rewrite (get_meets k t Hwf). cbn. eexists _, _. split_and!; [done..|constructor].
  - destruct (mod_meets e k v t Hwf) as (rc & t' & -> & Hwf' & H). cbn. eexists _, _. split_and!; [done..|].
    destruct H as [(H & -> & ->)|[(H & -> & ->)|(H & -> & ->)]]; by constructor.
  - destruct (del_meets k t Hwf) as (rc & t' & -> & Hwf' & H). cbn. eexists _, _. split_and!; [done..|].
    destruct H as [(H & -> & ->)|(H & -> & ->)]; by constructor.
  - unfold kvs_skiptable_exist. rewrite (get_meets k t Hwf). cbn. eexists _, _. split_and!; [done..|].
    destruct (abs t !! k) eqn:E; constructor; [by eexists|done].
Qed.

#[export] Program Instance skiptable_engine : Engine skiptable env := {
  engine_wf := wf;
  engine_abs := abs;
  engine_room _ t := count t < 2 ^ 31 - 1;
  engine_exec e o t := default (RVal None, t) (exec e o t);
}.
Next Obligation.
  intros e o t Hwf Hc _. destruct (exec_meets e o t Hwf Hc) as (r & t' & -> & H). done.
Qed.

(** The number of entries is the size of the map, so it grows by at most one a call. *)
Lemma count_abs t : wf t -> count t = Z.of_nat (size (abs t)).
Proof.
  intros (h0 & es & R). rewrite (abs_rep _ _ _ R). destruct (rep_count _ _ _ R) as [-> _]. f_equal.
  pose proof (rep_sorted _ _ _ R) as Hs. clear R. induction Hs as [|e es Hs IH He]; [done|].
  unfold dict in *. cbn. rewrite map_size_insert_None, <- IH; [done|]. apply dict_none.
  eapply Forall_impl; [exact He|]. unfold key_lt. intros x Hx. rewrite strcmp_antisym in Hx. lia.
Qed.

#[export] Program Instance skiptable_capacity : Capacity skiptable env := {
  capacity n t := count t + Z.of_nat n < 2 ^ 31;
}.
Next Obligation. intros n m t Hle H. cbn in *. lia. Qed.
Next Obligation. intros n o t H. cbn in *. lia. Qed.
Next Obligation.
  intros n e o t Hwf Hc _. cbn in Hwf, Hc |- *.
  destruct (exec_meets e o t Hwf ltac:(lia)) as (r & t' & -> & Hwf' & Hs). cbn.
  apply spec_step_size in Hs. rewrite (count_abs t Hwf) in Hc. rewrite (count_abs t' Hwf'). lia.
Qed.

(** There is no bad access in a run, and the run is the engine's. *)
Lemma run_safe es t : wf t -> Forall (fun p => op_ok p.2) es -> count t + Z.of_nat (length es) < 2 ^ 31 - 1 ->
  run_room es t /\ run es t = Some (engine_run es t).
Proof.
  revert t. induction es as [|[e o] es IH]; intros t Hwf Hok Hc; [done|]. cbn [length] in Hc.
  inversion Hok; subst. cbn [run run_room engine_run engine_exec skiptable_engine].
  destruct (exec_meets e o t Hwf ltac:(lia)) as (r & t' & E & Hwf' & Hs). rewrite E. cbn [default from_option snd].
  apply spec_step_size in Hs. destruct (IH t' Hwf') as [HR HX]; [done| |].
  - rewrite (count_abs t Hwf) in Hc. rewrite (count_abs t' Hwf'). lia.
  - split; [split; [cbn; lia|done]|]. cbn [mbind option_bind]. rewrite HX. cbn [mbind option_bind].
    change (skiptable_engine.(engine_exec)) with (fun e o t => default (RVal None, t) (exec e o t)).
    cbn beta. rewrite ?E. cbn. by destruct (engine_run es t').
Qed.

Lemma create_wf e t : kvs_skiptable_create e = (0, t) -> wf t /\ abs t = ∅ /\ count t = 0.
Proof.
  unfold kvs_skiptable_create. destruct (_ && _); [|done]. intros [= <-].
  set (h0 := Entry 0 [] [] KVS_SKIPLIST_MAX_LEVEL 0 (S KVS_SKIPLIST_MAX_LEVEL)).
  assert (R : rep (Table {[0%nat := Node [] [] KVS_SKIPLIST_MAX_LEVEL
    (replicate (S KVS_SKIPLIST_MAX_LEVEL) None)]} 1 0 0 0) h0 []).
  { split; cbn [heap header brk level count]; try done; try (repeat constructor; done); try (cbn; lia).
    apply NoDup_singleton. }
  split; [by eexists _, _|]. split; [exact (abs_rep _ _ _ R)|done].
Qed.

(** C28: the skip list is a map without memory errors: after
    [kvs_skiptable_create], any sequence of SET, GET, MOD, DEL and EXIST calls,
    whatever the coins and whichever allocations fail, never reads or writes
    through a null or freed pointer or beyond a forward array, returns what the
    contract over a finite map returns, and leaves the keys in order. *)
Theorem skiptable_refines_map e0 t0 es :
  kvs_skiptable_create e0 = (0, t0) ->
  Forall (fun p => op_ok p.2) es -> Z.of_nat (length es) < 2 ^ 31 - 1 ->
  exists rs t l, run es t0 = Some (rs, t) /\ spec_run ∅ (snd <$> es) rs (list_to_map l) /\
    kvs_skiptable_foreach t = Some l /\
    StronglySorted (fun a b => strcmp a.1 b.1 < 0) l /\ count t = Z.of_nat (length l).
Proof.
  intros Hc Hok Hl. destruct (create_wf e0 t0 Hc) as (Hwf & Ha & Hcnt).
  destruct (run_safe es t0 Hwf Hok ltac:(lia)) as [Hroom Hrun].
  destruct (engine_run_refines (Engine0 := skiptable_engine) es t0 Hwf Hroom Hok) as [(h0 & ls & R) Hs].
  exists (engine_run es t0).1, (engine_run es t0).2, (map kv ls).
  cbn [engine_abs skiptable_engine] in Hs. rewrite Ha, (abs_rep _ _ _ R) in Hs.
  split_and!; [by rewrite Hrun, <- surjective_pairing|done|by eapply foreach_rep| |].
  - assert (H := rep_sorted _ _ _ R). clear - H.
    induction H as [|e ls _ IH He]; cbn; constructor; [done|]. apply Forall_map. exact He.
  - rewrite length_map. apply R.
Qed.

Definition env_ok : env := Env true true true true [true; true; false].
Lemma skiptable_refines_map_witness :
  let ops := [(env_ok, OSet [98] [49]); (Env true true false true [true], OSet [99] [50]);
              (Env true true true true [], OSet [97] [51]); (env_ok, OMod [98] [52]); (env_ok, OGet [98]);
              (env_ok, ODel [98]); (env_ok, OExist [98])] in
  exists rs t l, run ops (kvs_skiptable_create env_ok).2 = Some (rs, t) /\
    rs = [RCode 0; RCode (-2); RCode 0; RCode 0; RVal (Some [52]); RCode 0; RCode 1] /\
    l = [([97], [51])] /\ kvs_skiptable_foreach t = Some l.
Proof.
  intros ops. destruct (skiptable_refines_map env_ok (kvs_skiptable_create env_ok).2 ops)
    as (rs & t & l & Hr & _ & Hf & _).
  - vm_compute. reflexivity.
  - repeat (constructor; [cbn; repeat constructor; lia|]). constructor.
  - vm_compute. reflexivity.
  - exists rs, t, l. vm_compute in Hr. injection Hr as <- <-. vm_compute in Hf. injection Hf as <-.
    split_and!; vm_compute; reflexivity.
Defined.

(** ** Freeing the table *)

Lemma free_all fuel t Y : NoDup (map e_ptr Y) -> Forall full Y -> (length Y <= fuel)%nat ->
  (forall A e C, Y = A ++ e :: C -> heap t !! e_ptr e = Some (node_of e C)) ->
  exists m, free_loop fuel (first 0 Y) t = Some (t <| heap := m |>) /\
    forall p, m !! p = if decide (p ∈ map e_ptr Y) then None else heap t !! p.
Proof.
  revert fuel t. induction Y as [|e Y IH]; intros fuel t Hnd Hf Hl Hh.
  - exists (heap t). destruct fuel, t; cbn; split; try done; intros p; by rewrite decide_False by apply not_elem_of_nil.
  - inversion_clear Hf as [|?? [Hlo Hhi] HfY]. destruct fuel as [|fuel]; [cbn in Hl; lia|].
    apply NoDup_cons in Hnd as [Hn Hnd]. cbn [first]. rewrite decide_True by (unfold visible; lia).
    cbn [free_loop]. unfold fwd. rewrite (Hh [] e Y) by done. cbn [mbind option_bind node_of forward].
    rewrite forwards_lookup, decide_True by lia. cbn [mbind option_bind].
    match goal with |- context [free_loop fuel _ ?t1] => destruct (IH fuel t1) as (m & -> & Hm) end;
      [done|done|cbn in Hl; lia| |].
    + intros A e' C ->. cbn [heap upd]. rewrite lookup_delete_ne; [by apply (Hh (e :: A))|].
      intros E. apply Hn. apply list_elem_of_fmap. exists e'. split; [done|]. apply elem_of_app. right.
      apply list_elem_of_here.
    + exists m. split; [done|]. intros p. rewrite Hm. cbn [heap upd map].
      destruct (decide (p ∈ map e_ptr Y)) as [Hp|Hp].
      * by rewrite decide_True by (by apply list_elem_of_further).
      * destruct (decide (p = e_ptr e)) as [->|Hne].
        -- rewrite decide_True by apply list_elem_of_here. apply lookup_delete_eq.
        -- rewrite decide_False by (rewrite not_elem_of_cons; done). by rewrite lookup_delete_ne by done.
Qed.

(** Whatever calls came before, [kvs_skiptable_destory] frees every node of
    the table, the header included, exactly once and touches nothing that is
    already freed. *)
Theorem skiptable_destroy_frees_all e0 t0 es rs t :
  kvs_skiptable_create e0 = (0, t0) -> run es t0 = Some (rs, t) ->
  Forall (fun p => op_ok p.2) es -> Z.of_nat (length es) < 2 ^ 31 - 1 ->
  exists t', kvs_skiptable_destory t = Some t' /\ heap t' = ∅ /\ level t' = 0%nat /\ count t' = 0.
Proof.
  intros Hc Hr Hok Hl. destruct (create_wf e0 t0 Hc) as (Hwf & Ha & Hcnt).
  destruct (run_safe es t0 Hwf Hok ltac:(lia)) as [Hroom Hrun].
  destruct (engine_run_refines (Engine0 := skiptable_engine) es t0 Hwf Hroom Hok) as [(h0 & ls & R) _].
  rewrite Hrun in Hr. injection Hr as Hr. rewrite Hr in R. cbn [snd] in R. clear - R.
  unfold kvs_skiptable_destory. pose proof (rep_nodup _ _ _ R) as Hnd. cbn in Hnd.
  apply NoDup_cons in Hnd as [Hn Hnd]. pose proof (rep_heap _ _ _ R) as Ht.
  destruct (rep_h0 _ _ _ R) as [[Hlo Hhi] Hlv].
  rewrite (rep_header _ _ _ R), (fwd_at t [] h0 ls 0 Ht (rep_nodup _ _ _ R)), decide_True by lia.
  cbn [mbind option_bind].
  destruct (free_all (size (heap t)) t ls) as (m & -> & Hm); [done|apply R| | |].
  - rewrite Ht, heap_of_size by apply R. cbn. lia.
  - intros A e C ->. apply (heap_at t (h0 :: A)); [done|apply R].
  - cbn [mbind option_bind heap upd header]. rewrite (rep_header _ _ _ R).
    rewrite Hm, decide_False, (heap_at t [] h0 ls Ht (rep_nodup _ _ _ R)) by done. cbn [mbind option_bind].
    eexists. split_and!; [done| |done|done]. cbn [heap upd header].
    apply map_eq. intros p. rewrite lookup_empty. destruct (decide (p = e_ptr h0)) as [->|Hp];
      [apply lookup_delete_eq|]. rewrite lookup_delete_ne, Hm by done. case_decide as Hin; [done|].
    rewrite Ht. apply heap_of_none. cbn. by apply not_elem_of_cons.
Qed.

Lemma skiptable_destroy_frees_all_witness :
  exists t t', run [(env_ok, OSet [98] [49]); (env_ok, OSet [97] [50])] (kvs_skiptable_create env_ok).2
      = Some ([RCode 0; RCode 0], t) /\
    size (heap t) = 3%nat /\ kvs_skiptable_destory t = Some t' /\ heap t' = ∅.
Proof.
  eexists. destruct (skiptable_destroy_frees_all env_ok (kvs_skiptable_create env_ok).2
    [(env_ok, OSet [98] [49]); (env_ok, OSet [97] [50])] [RCode 0; RCode 0] _ eq_refl eq_refl)
    as (t' & Hd & Hh & _).
  - repeat (constructor; [cbn; repeat constructor; lia|]). constructor.
  - vm_compute. reflexivity.
  - exists t'. split_and!; [vm_compute; reflexivity| |exact Hd|exact Hh]. vm_compute. reflexivity.
Defined.

End Skiptable.
