(* ===== verification/Rbtree.v ===== *)
(** * Rbtree: the red-black tree engine

    [src/storage/kvs_rbtree.c]: nodes with a colour, two children and a parent
    pointer in a heap, and a sentinel [nil] whose parent field is used while a
    node is deleted.  The loops of the code that come in a left and a right
    version, line by line mirror images, are written once with the side as a
    parameter.  A read through a pointer that does not point to a node, and a
    read of a field that was never written, end the call with [None]; the
    theorem shows that neither happens. *)

From S2P Require Import Prelude Cstring Engine.

Module Rbtree.

(** ** Data *)

Inductive color := RED | BLACK.
#[export] Instance color_eq_dec : EqDecision color.
Proof. solve_decision. Defined.

Inductive dir := L | R.
#[export] Instance dir_eq_dec : EqDecision dir.
Proof. solve_decision. Defined.
Definition opp (d : dir) : dir := match d with L => R | R => L end.

(** A field that was not written since [malloc] is [None]; for [value], [None] is
    also NULL. *)
Record rbtree_node := Node {
  col : color;
  right : option nat;
  left : option nat;
  parent : option nat;
  key : option bytes;
  value : option bytes;
}.
Definition child (d : dir) (n : rbtree_node) : option nat := match d with L => left n | R => right n end.

Definition with_color (c : color) (n : rbtree_node) : rbtree_node :=
  Node c (right n) (left n) (parent n) (key n) (value n).
Definition with_child (d : dir) (p : nat) (n : rbtree_node) : rbtree_node :=
  match d with
  | L => Node (col n) (right n) (Some p) (parent n) (key n) (value n)
  | R => Node (col n) (Some p) (left n) (parent n) (key n) (value n)
  end.
Definition with_parent (p : nat) (n : rbtree_node) : rbtree_node :=
  Node (col n) (right n) (left n) (Some p) (key n) (value n).
Definition with_entry (k : option bytes) (v : option bytes) (n : rbtree_node) : rbtree_node :=
  Node (col n) (right n) (left n) (parent n) k v.

(** The tree and the memory it lives in; new nodes are put at [brk]. *)
Record rbtree := Tree { heap : gmap nat rbtree_node; brk : nat; root : nat; nil : nat }.

(** ** Memory *)

Definition M (A : Type) : Type := rbtree -> option (A * rbtree).
#[export] Instance M_ret : MRet M := fun A x s => Some (x, s).
#[export] Instance M_bind : MBind M := fun A B f m s => '(x, s) ← m s; f x s.

Definition get_root : M nat := fun s => Some (root s, s).
Definition get_nil : M nat := fun s => Some (nil s, s).
Definition set_root (p : nat) : M unit := fun s => Some (tt, Tree (heap s) (brk s) p (nil s)).
Definition load {A} (f : rbtree_node -> option A) (p : nat) : M A := fun s =>
  n ← heap s !! p; x ← f n; Some (x, s).
Definition store (p : nat) (f : rbtree_node -> rbtree_node) : M unit := fun s =>
  n ← heap s !! p; Some (tt, Tree (<[p := f n]> (heap s)) (brk s) (root s) (nil s)).
Definition free (p : nat) : M unit := fun s =>
  _ ← heap s !! p; Some (tt, Tree (delete p (heap s)) (brk s) (root s) (nil s)).

Definition color_of (p : nat) : M color := load (fun n => Some (col n)) p.
Definition child_of (d : dir) (p : nat) : M nat := load (child d) p.
Definition parent_of (p : nat) : M nat := load parent p.
Definition key_of (p : nat) : M bytes := load key p.
Definition value_of (p : nat) : M (option bytes) := load (fun n => Some (value n)) p.
Definition set_color (p : nat) (c : color) : M unit := store p (with_color c).
Definition set_child (d : dir) (p q : nat) : M unit := store p (with_child d q).
Definition set_parent (p q : nat) : M unit := store p (with_parent q).

(** The number of rounds of a loop is bounded by the number of nodes. *)
Definition rounds : M nat := fun s => Some (size (heap s), s).

(** ** Searching *)

Fixpoint mini_loop (fuel : nat) (x : nat) : M nat :=
  match fuel with
  | O => fun _ => None
  | S f => l ← child_of L x; nl ← get_nil; if decide (l <> nl) then mini_loop f l else mret x
  end.
Definition rbtree_mini (x : nat) : M nat := n ← rounds; mini_loop n x.

(** The way up of [rbtree_successor]. *)
Fixpoint up_loop (fuel : nat) (x y : nat) : M nat :=
  match fuel with
  | O => fun _ => None
  | S f =>
      nl ← get_nil;
      if decide (y <> nl) then
        r ← child_of R y;
        if decide (x = r) then y' ← parent_of y; up_loop f y y' else mret y
      else mret y
  end.
Definition rbtree_successor (x : nat) : M nat :=
  y ← parent_of x; r ← child_of R x; nl ← get_nil;
  if decide (r <> nl) then rbtree_mini r else n ← rounds; up_loop n x y.

Fixpoint search_loop (fuel : nat) (k : bytes) (node : nat) : M nat :=
  match fuel with
  | O => fun _ => None
  | S f =>
      nl ← get_nil;
      if decide (node <> nl) then
        k' ← key_of node;
        if decide (strcmp k k' < 0) then l ← child_of L node; search_loop f k l
        else if decide (strcmp k k' > 0) then r ← child_of R node; search_loop f k r
        else mret node
      else mret nl
  end.
Definition rbtree_search (k : bytes) : M nat := n ← rounds; x ← get_root; search_loop n k x.

(** ** Rotations *)

(** [x == x->parent->left ? ... ]: where [p] hangs, hang [q]. *)
Definition relink (d : dir) (p parent q : nat) : M unit :=
  nl ← get_nil;
  if decide (parent = nl) then set_root q
  else
    c ← child_of d parent;
    if decide (p = c) then set_child d parent q else set_child (opp d) parent q.

(** [rbtree_left_rotate] for [L] and [rbtree_right_rotate] for [R]. *)
Definition rotate (d : dir) (x : nat) : M unit :=
  y ← child_of (opp d) x;
  b ← child_of d y;
  set_child (opp d) x b;;
  nl ← get_nil;
  (if decide (b <> nl) then set_parent b x else mret tt);;
  q ← parent_of x;
  set_parent y q;;
  relink d x q y;;
  set_child d y x;;
  set_parent x y.
Definition rbtree_left_rotate : nat -> M unit := rotate L.
Definition rbtree_right_rotate : nat -> M unit := rotate R.

(** ** Insertion *)

(** The body of the loop of [rbtree_insert_fixup] when the parent [p] of [z] is
    the [d] child of the grandparent [g]; the result is the new [z]. *)
Definition insert_fix (d : dir) (z p g : nat) : M nat :=
  y ← child_of (opp d) g;
  cy ← color_of y;
  if decide (cy = RED) then
    set_color p BLACK;; set_color y BLACK;; set_color g RED;; mret g
  else
    r ← child_of (opp d) p;
    z ← (if decide (z = r) then rotate d p;; mret p else mret z);
    p ← parent_of z;
    set_color p BLACK;;
    g ← parent_of p;
    set_color g RED;;
    rotate (opp d) g;;
    mret z.
Fixpoint insert_fixup_loop (fuel : nat) (z : nat) : M unit :=
  match fuel with
  | O => fun _ => None
  | S f =>
      p ← parent_of z; cp ← color_of p;
      if decide (cp = RED) then
        g ← parent_of p; l ← child_of L g;
        z ← (if decide (p = l) then insert_fix L z p g else insert_fix R z p g);
        insert_fixup_loop f z
      else mret tt
  end.
Definition rbtree_insert_fixup (z : nat) : M unit :=
  n ← rounds; insert_fixup_loop n z;; r ← get_root; set_color r BLACK.

(** The search for the place; [None] when the key is there already. *)
Fixpoint insert_loop (fuel : nat) (k : bytes) (y x : nat) : M (option nat) :=
  match fuel with
  | O => fun _ => None
  | S f =>
      nl ← get_nil;
      if decide (x <> nl) then
        k' ← key_of x;
        if decide (strcmp k k' < 0) then l ← child_of L x; insert_loop f k x l
        else if decide (strcmp k k' > 0) then r ← child_of R x; insert_loop f k x r
        else mret None
      else mret (Some y)
  end.
Definition rbtree_insert (z : nat) : M unit :=
  nl ← get_nil; x ← get_root; k ← key_of z; n ← rounds;
  y ← insert_loop n k nl x;
  match y with
  | None => mret tt
  | Some y =>
      set_parent z y;;
      (if decide (y = nl) then set_root z
       else k' ← key_of y; if decide (strcmp k k' < 0) then set_child L y z else set_child R y z);;
      set_child L z nl;; set_child R z nl;; set_color z RED;;
      rbtree_insert_fixup z
  end.

(** ** Deletion *)

(** The body of the loop of [rbtree_delete_fixup] when [x] is the [d] child of
    its parent; the result is the new [x]. *)
Definition delete_fix (d : dir) (x : nat) : M nat :=
  p ← parent_of x;
  w ← child_of (opp d) p;
  cw ← color_of w;
  w ← (if decide (cw = RED) then
         set_color w BLACK;; set_color p RED;; rotate d p;; p ← parent_of x; child_of (opp d) p
       else mret w);
  l ← child_of L w; cl ← color_of l; r ← child_of R w; cr ← color_of r;
  if decide (cl = BLACK /\ cr = BLACK) then set_color w RED;; parent_of x
  else
    f ← child_of (opp d) w; cf ← color_of f;
    w ← (if decide (cf = BLACK) then
           n ← child_of d w; set_color n BLACK;; set_color w RED;; rotate (opp d) w;;
           p ← parent_of x; child_of (opp d) p
         else mret w);
    p ← parent_of x; cp ← color_of p; set_color w cp;;
    set_color p BLACK;;
    f ← child_of (opp d) w; set_color f BLACK;;
    rotate d p;;
    get_root.
Fixpoint delete_fixup_loop (fuel : nat) (x : nat) : M nat :=
  match fuel with
  | O => fun _ => None
  | S f =>
      r ← get_root;
      if decide (x <> r) then
        c ← color_of x;
        if decide (c = BLACK) then
          p ← parent_of x; l ← child_of L p;
          x ← (if decide (x = l) then delete_fix L x else delete_fix R x);
          delete_fixup_loop f x
        else mret x
      else mret x
  end.
Definition rbtree_delete_fixup (x : nat) : M unit :=
  n ← rounds; x ← delete_fixup_loop (S n) x; set_color x BLACK.

Definition rbtree_delete (z : nat) : M nat :=
  nl ← get_nil;
  l ← child_of L z; r ← child_of R z;
  y ← (if decide (l = nl \/ r = nl) then mret z else rbtree_successor z);
  yl ← child_of L y; yr ← child_of R y;
  let x := if decide (yl <> nl) then yl else if decide (yr <> nl) then yr else nl in
  q ← parent_of y;
  set_parent x q;;
  relink L y q x;;
  (if decide (y <> z) then
     kz ← key_of z; vz ← value_of z; ky ← key_of y; vy ← value_of y;
     store z (with_entry (Some ky) vy);; store y (with_entry (Some kz) vz)
   else mret tt);;
  c ← color_of y;
  (if decide (c = BLACK) then rbtree_delete_fixup x else mret tt);;
  mret y.

(** ** The engine *)

(** The results of the allocations of a call. *)
Record env := Env { m_node : bool; m_key : bool; m_val : bool }.

(** A new node, none of its fields written. *)
Definition malloc_node : M nat := fun s =>
  Some (brk s, Tree (<[brk s := Node RED None None None None None]> (heap s)) (S (brk s)) (root s) (nil s)).

(** [kvs_rbtree_create]: the sentinel, with its colour only. *)
Definition kvs_rbtree_create : rbtree :=
  Tree {[ 0%nat := Node BLACK None None None None None ]} 1 0 0.

Definition kvs_rbtree_mod (e : env) (k v : bytes) : M Z :=
  node ← rbtree_search k; nl ← get_nil;
  if decide (node = nl) then mret 1
  else
    kn ← key_of node;
    if m_val e then store node (with_entry (Some kn) (Some v));; mret 0
    else store node (with_entry (Some kn) None);; mret (-2).

(** A node that finds no memory is written through NULL; one whose key or value
    finds none is left behind. *)
Definition kvs_rbtree_set (e : env) (k v : bytes) : M Z :=
  existing ← rbtree_search k; nl ← get_nil;
  if decide (existing <> nl) then kvs_rbtree_mod e k v
  else if m_node e then
    node ← malloc_node;
    if m_key e then
      store node (with_entry (Some k) None);;
      if m_val e then store node (with_entry (Some k) (Some v));; rbtree_insert node;; mret 0
      else mret (-2)
    else mret (-2)
  else fun _ => None.

Definition kvs_rbtree_get (k : bytes) : M (option bytes) :=
  node ← rbtree_search k; nl ← get_nil;
  if decide (node = nl) then mret None else value_of node.

Definition kvs_rbtree_del (k : bytes) : M Z :=
  node ← rbtree_search k; nl ← get_nil;
  if decide (node = nl) then mret 1
  else cur ← rbtree_delete node; free cur;; mret 0.

Definition kvs_rbtree_exist (k : bytes) : M Z :=
  node ← rbtree_search k; nl ← get_nil;
  mret (if decide (node = nl) then 1 else 0).

(** [rbtree_traversal]: the entries it prints, in order. *)
Fixpoint traversal (fuel : nat) (node : nat) : M (list (bytes * option bytes)) :=
  match fuel with
  | O => fun _ => None
  | S f =>
      nl ← get_nil;
      if decide (node <> nl) then
        l ← child_of L node; ls ← traversal f l;
        k ← key_of node; v ← value_of node;
        r ← child_of R node; rs ← traversal f r;
        mret (ls ++ (k, v) :: rs)
      else mret []
  end.
Definition rbtree_traversal : M (list (bytes * option bytes)) := n ← rounds; x ← get_root; traversal n x.

(** [kvs_rbtree_destory]: the smallest node again and again, then the sentinel. *)
Fixpoint destroy_loop (fuel : nat) : M unit :=
  match fuel with
  | O => fun _ => None
  | S f =>
      node ← get_root; nl ← get_nil;
      if decide (node <> nl) then
        m ← rbtree_mini node; cur ← rbtree_delete m; free cur;; destroy_loop f
      else mret tt
  end.
Definition kvs_rbtree_destory : M unit := n ← rounds; destroy_loop n;; nl ← get_nil; free nl.

(** *** The calls behind the commands *)

Definition exec (e : env) (o : op) : M res :=
  match o with
  | OSet k v => rc ← kvs_rbtree_set e k v; mret (RCode rc)
  | OGet k => v ← kvs_rbtree_get k; mret (RVal v)
  | OMod k v => rc ← kvs_rbtree_mod e k v; mret (RCode rc)
  | ODel k => rc ← kvs_rbtree_del k; mret (RCode rc)
  | OExist k => rc ← kvs_rbtree_exist k; mret (RCode rc)
  end.
Fixpoint run_ops (es : list (env * op)) : M (list res) :=
  match es with
  | [] => mret []
  | (e, o) :: es => r ← exec e o; rs ← run_ops es; mret (r :: rs)
  end.

(** ** Small runs *)

Definition ok : env := Env true true true.
Fixpoint sets (ks : list Z) : M unit :=
  match ks with [] => mret tt | k :: r => kvs_rbtree_set ok [k] [k + 100];; sets r end.
Fixpoint dels (ks : list Z) : M unit :=
  match ks with [] => mret tt | k :: r => kvs_rbtree_del [k];; dels r end.

Example sets_in_order :
  fmap fst ((sets [24; 25; 13; 35; 23; 26; 67; 47; 38; 98; 20; 19; 17; 49; 12; 21; 9; 18; 14; 15];;
        dels [24; 13; 67; 9; 99; 18; 20];; l ← rbtree_traversal; mret (map fst l)) kvs_rbtree_create) =
  Some [[12]; [14]; [15]; [17]; [19]; [21]; [23]; [25]; [26]; [35]; [38]; [47]; [49]; [98]].
Proof. vm_compute. reflexivity. Qed.
Example destroys_all :
  fmap (fun p => heap p.2) ((sets [3; 1; 2; 5; 4];; kvs_rbtree_destory) kvs_rbtree_create) = Some ∅.
Proof. vm_compute. reflexivity. Qed.

(** ** Different addresses *)

Definition disj (A B : list nat) : Prop := forall q, q ∈ A -> q ∈ B -> False.
Lemma nodup_app A B : NoDup (A ++ B) <-> NoDup A /\ NoDup B /\ disj A B.
Proof. rewrite NoDup_app. unfold disj. intuition eauto. Qed.
Lemma disj_app_l A B C : disj (A ++ B) C <-> disj A C /\ disj B C.
Proof. unfold disj. setoid_rewrite elem_of_app. intuition eauto. Qed.
Lemma disj_app_r A B C : disj A (B ++ C) <-> disj A B /\ disj A C.
Proof. unfold disj. setoid_rewrite elem_of_app. intuition eauto. Qed.
Lemma disj_cons_l x A B : disj (x :: A) B <-> x ∉ B /\ disj A B.
Proof.
  unfold disj. setoid_rewrite elem_of_cons. split; [intros H; split; eauto|]. intros [H1 H2] q [->|Hq]; eauto.
Qed.
Lemma disj_cons_r x A B : disj A (x :: B) <-> x ∉ A /\ disj A B.
Proof.
  unfold disj. setoid_rewrite elem_of_cons. split; [intros H; split; eauto|]. intros [H1 H2] q Hq [->|Hq']; eauto.
Qed.

(** [apart] takes a [NoDup] apart, [differ] shows that addresses are different. *)
Ltac apart H :=
  repeat first [rewrite NoDup_cons in H | rewrite nodup_app in H | rewrite disj_app_l in H | rewrite disj_app_r in H
    | rewrite disj_cons_l in H | rewrite disj_cons_r in H | rewrite not_elem_of_cons in H | rewrite not_elem_of_app in H];
  destruct_and? H.
Ltac differ :=
  repeat match goal with |- _ <> _ => intros ? | |- _ ∉ _ => intros ? end; subst;
  repeat match goal with
  | H : _ ∈ _ :: _ |- _ => apply elem_of_cons in H as [?|?]; subst
  | H : _ ∈ _ ++ _ |- _ => apply elem_of_app in H as [?|?]
  | H : _ ∈ [] |- _ => by apply not_elem_of_nil in H
  end;
  match goal with
  | H : ?q ∉ ?A, M : ?q ∈ ?A |- _ => exact (H M)
  | D : disj ?A ?B, M : ?q ∈ ?A, M' : ?q ∈ ?B |- _ => exact (D q M M')
  | _ => congruence
  end.

(** ** Trees in the heap *)

(** A tree with the addresses of its nodes. *)
Inductive tree :=
  | Leaf
  | Nd (p : nat) (c : color) (l : tree) (k : bytes) (v : option bytes) (r : tree).

(** A node with [a] on side [d] and [b] on the other. *)
Definition node (d : dir) (p : nat) (c : color) (a : tree) (k : bytes) (v : option bytes) (b : tree) : tree :=
  match d with L => Nd p c a k v b | R => Nd p c b k v a end.
Definition cell (d : dir) (c : color) (a b par : nat) (k : bytes) (v : option bytes) : rbtree_node :=
  match d with
  | L => Node c (Some b) (Some a) (Some par) (Some k) v
  | R => Node c (Some a) (Some b) (Some par) (Some k) v
  end.

(** A node with a hole on side [d], and a path from a hole up to the root. *)
Record frame := Frame { f_dir : dir; f_ptr : nat; f_col : color; f_key : bytes; f_val : option bytes; f_sib : tree }.
Definition plug1 (f : frame) (t : tree) : tree := node (f_dir f) (f_ptr f) (f_col f) t (f_key f) (f_val f) (f_sib f).
Fixpoint plug (z : list frame) (t : tree) : tree :=
  match z with [] => t | f :: z => plug z (plug1 f t) end.

Fixpoint ptrs (t : tree) : list nat :=
  match t with Leaf => [] | Nd p _ l _ _ r => p :: ptrs l ++ ptrs r end.
Definition ptrsz (z : list frame) : list nat := concat (map (fun f => f_ptr f :: ptrs (f_sib f)) z).

Lemma node_opp d p c a k v b : node (opp d) p c b k v a = node d p c a k v b.
Proof. by destruct d. Qed.
Lemma ptrs_node d p c a k v b : ptrs (node d p c a k v b) ≡ₚ p :: ptrs a ++ ptrs b.
Proof. destruct d; cbn; [done|]. by rewrite Permutation_app_comm. Qed.
Lemma ptrs_plug z t : ptrs (plug z t) ≡ₚ ptrs t ++ ptrsz z.
Proof.
  revert t. induction z as [|f z IH]; intros t; cbn [plug]; [unfold ptrsz; cbn; by rewrite app_nil_r|].
  rewrite IH. unfold plug1. rewrite ptrs_node. unfold ptrsz. cbn. solve_Permutation.
Qed.

Section Rep.

Context (nl : nat).

Definition ptr (t : tree) : nat := match t with Leaf => nl | Nd p _ _ _ _ _ => p end.
Definition ptrz (z : list frame) : nat := match z with [] => nl | f :: _ => f_ptr f end.

(** The heap holds the nodes of [t], whose root has the parent [par]. *)
Fixpoint tree_in (h : gmap nat rbtree_node) (par : nat) (t : tree) : Prop :=
  match t with
  | Leaf => True
  | Nd p c l k v r => h !! p = Some (cell L c (ptr l) (ptr r) par k v) /\ tree_in h p l /\ tree_in h p r
  end.
(** The heap holds the nodes of a path whose hole is filled by [p]. *)
Fixpoint path_in (h : gmap nat rbtree_node) (z : list frame) (p : nat) : Prop :=
  match z with
  | [] => True
  | f :: z =>
      h !! f_ptr f = Some (cell (f_dir f) (f_col f) p (ptr (f_sib f)) (ptrz z) (f_key f) (f_val f)) /\
      tree_in h (f_ptr f) (f_sib f) /\ path_in h z (f_ptr f)
  end.

Lemma ptr_node d p c a k v b : ptr (node d p c a k v b) = p.
Proof. by destruct d. Qed.
Lemma tree_in_node h par d p c a k v b :
  tree_in h par (node d p c a k v b) <->
  h !! p = Some (cell d c (ptr a) (ptr b) par k v) /\ tree_in h p a /\ tree_in h p b.
Proof. destruct d; cbn; tauto. Qed.
Lemma tree_in_plug h z t : tree_in h nl (plug z t) <-> path_in h z (ptr t) /\ tree_in h (ptrz z) t.
Proof.
  revert t. induction z as [|f z IH]; intros t; cbn [plug path_in ptrz]; [tauto|].
  rewrite IH. unfold plug1. rewrite tree_in_node, ptr_node. tauto.
Qed.

(** Only the cells of the tree matter. *)
Lemma tree_in_ext h h' par t : (forall p, p ∈ ptrs t -> h' !! p = h !! p) -> tree_in h par t -> tree_in h' par t.
Proof.
  revert par. induction t as [|p c l IHl k v r IHr]; intros par Hh; cbn in *; [done|].
  intros (Hp & Hl & Hr). rewrite Hh by left. split_and!; [done|apply IHl|apply IHr]; try done;
    intros q Hq; apply Hh; right; apply elem_of_app; auto.
Qed.
Lemma path_in_ext h h' z p : (forall q, q ∈ ptrsz z -> h' !! q = h !! q) -> path_in h z p -> path_in h' z p.
Proof.
  revert p. induction z as [|f z IH]; intros p Hh; cbn in *; [done|]. unfold ptrsz in Hh. cbn in Hh.
  intros (Hf & Hs & Hz). rewrite Hh by left. split_and!; [done| |].
  - apply (tree_in_ext h); [|done]. intros q Hq. apply Hh. right. apply elem_of_app. auto.
  - apply IH; [|done]. intros q Hq. apply Hh. right. apply elem_of_app. auto.
Qed.

(** A subtree gets a new parent. *)
Lemma tree_in_reparent h par par' t n : NoDup (ptrs t) -> tree_in h par t -> h !! ptr t = Some n -> t <> Leaf ->
  tree_in (<[ptr t := with_parent par' n]> h) par' t.
Proof.
  destruct t as [|p c l k v r]; [done|]. cbn. intros Hd (Hp & Hl & Hr) Hn _. rewrite Hp in Hn. injection Hn as <-.
  apply NoDup_cons in Hd as [Hp' _]. rewrite elem_of_app in Hp'.
  rewrite lookup_insert_eq. split_and!; [done|..]; (eapply tree_in_ext; [|done]); intros q Hq;
    apply lookup_insert_ne; intros ->; tauto.
Qed.

(** The hole of a path is filled by another node. *)
Definition hang (z : list frame) (p : nat) (h : gmap nat rbtree_node) : gmap nat rbtree_node :=
  match z with
  | [] => h
  | f :: z' => <[f_ptr f := cell (f_dir f) (f_col f) p (ptr (f_sib f)) (ptrz z') (f_key f) (f_val f)]> h
  end.
Lemma path_in_hang h z p q : NoDup (ptrsz z) -> path_in h z p -> path_in (hang z q h) z q.
Proof.
  destruct z as [|f z]; [done|]. cbn. intros Hd (Hf & Hs & Hz). unfold ptrsz in Hd. cbn in Hd.
  apply NoDup_cons in Hd as [Hd _]. rewrite elem_of_app in Hd. rewrite lookup_insert_eq. split_and!; [done|..].
  - eapply tree_in_ext; [|done]. intros x Hx. apply lookup_insert_ne. intros <-. tauto.
  - eapply path_in_ext; [|done]. intros x Hx. apply lookup_insert_ne. intros <-. tauto.
Qed.
Lemma hang_lookup z p h q : q ∉ ptrsz z -> hang z p h !! q = h !! q.
Proof.
  destruct z as [|f z]; [done|]. cbn. unfold ptrsz. cbn. intros Hq. apply lookup_insert_ne. intros <-. apply Hq. left.
Qed.

End Rep.

(** ** The tree of a state *)

(** The state holds the tree [t], whose nodes are at the addresses [X]; [np] is
    what the sentinel's parent field says. *)
Record rep (nl : nat) (X : gset nat) (s : rbtree) (t : tree) (np : option nat) : Prop := {
  r_tree : tree_in nl (heap s) nl t;
  r_nl : nil s = nl;
  r_root : root s = ptr nl t;
  r_nodup : NoDup (nl :: ptrs t);
  r_set : forall p, p ∈ ptrs t <-> p ∈ X;
  r_nil : exists n, heap s !! nl = Some n /\ col n = BLACK /\ parent n = np;
  r_brk : forall p, is_Some (heap s !! p) -> (p < brk s)%nat;
}.

(** The same addresses are in use. *)
Definition keeps (s s' : rbtree) : Prop := brk s' = brk s /\ dom (heap s') = dom (heap s).
#[export] Instance keeps_preorder : PreOrder keeps.
Proof. split; [by intros s|]. intros s1 s2 s3 [] []. split; congruence. Qed.

Lemma bind_some {A B} (m : M A) (f : A -> M B) s x s' : m s = Some (x, s') -> (m ≫= f) s = f x s'.
Proof. intros H. unfold mbind at 1, M_bind. by rewrite H. Qed.
Lemma ret_run {A B} (x : A) (f : A -> M B) s : (mret x ≫= f) s = f x s.
Proof. done. Qed.

Lemma ptr_plug nl z t t' : ptr nl t' = ptr nl t -> ptr nl (plug z t') = ptr nl (plug z t).
Proof.
  revert t t'. induction z as [|f z IH]; intros t t' H; cbn [plug]; [done|]. apply IH. unfold plug1. by rewrite !ptr_node.
Qed.
Lemma plug_cons d p c k v b z t : plug (Frame d p c k v b :: z) t = plug z (node d p c t k v b).
Proof. done. Qed.
(** The hole on the other side. *)
Lemma plug_sib d p c k v a b z : plug (Frame d p c k v b :: z) a = plug (Frame (opp d) p c k v a :: z) b.
Proof. cbn. unfold plug1. cbn. by rewrite node_opp. Qed.

Definition tcol (t : tree) : color := match t with Leaf => BLACK | Nd _ c _ _ _ _ => c end.
Lemma tcol_node d p c a k v b : tcol (node d p c a k v b) = c.
Proof. by destruct d. Qed.

Section Steps.

Context {nl : nat} {X : gset nat}.

Lemma rep_focus s z t np : rep nl X s (plug z t) np ->
  path_in nl (heap s) z (ptr nl t) /\ tree_in nl (heap s) (ptrz nl z) t.
Proof. intros [H _ _ _ _ _ _]. by apply tree_in_plug. Qed.
Lemma rep_nodup s z t np : rep nl X s (plug z t) np -> NoDup (nl :: ptrs t ++ ptrsz z).
Proof. intros [_ _ _ H _ _ _]. by rewrite ptrs_plug in H. Qed.
Lemma rep_cell s z np d p c a k v b : rep nl X s (plug z (node d p c a k v b)) np ->
  heap s !! p = Some (cell d c (ptr nl a) (ptr nl b) (ptrz nl z) k v).
Proof. intros H. apply rep_focus in H as [_ H]. by apply tree_in_node in H as [H _]. Qed.

Lemma run_nil s t np : rep nl X s t np -> get_nil s = Some (nl, s).
Proof. intros H. unfold get_nil. by rewrite (r_nl _ _ _ _ _ H). Qed.
Lemma run_root s t np : rep nl X s t np -> get_root s = Some (ptr nl t, s).
Proof. intros H. unfold get_root. by rewrite (r_root _ _ _ _ _ H). Qed.
Lemma load_run {A} (f : rbtree_node -> option A) p s n x : heap s !! p = Some n -> f n = Some x -> load f p s = Some (x, s).
Proof. intros H1 H2. unfold load. rewrite H1. cbn. by rewrite H2. Qed.

Lemma run_color s z t np : rep nl X s (plug z t) np -> color_of (ptr nl t) s = Some (tcol t, s).
Proof.
  intros H. destruct t as [|p c l k v r].
  - destruct (r_nil _ _ _ _ _ H) as (n & Hn & Hc & _). apply (load_run _ _ _ n); [done|]. cbn. by rewrite Hc.
  - by apply (load_run _ _ _ _ _ (rep_cell s z np L p c l k v r H)).
Qed.
Lemma run_child s z np d p c a k v b : rep nl X s (plug z (node d p c a k v b)) np -> child_of d p s = Some (ptr nl a, s).
Proof. intros H. apply (load_run _ _ _ _ _ (rep_cell s z np d p c a k v b H)). by destruct d. Qed.
Lemma run_child_opp s z np d p c a k v b : rep nl X s (plug z (node d p c a k v b)) np ->
  child_of (opp d) p s = Some (ptr nl b, s).
Proof. rewrite <- node_opp. apply run_child. Qed.
Lemma run_key s z np d p c a k v b : rep nl X s (plug z (node d p c a k v b)) np -> key_of p s = Some (k, s).
Proof. intros H. apply (load_run _ _ _ _ _ (rep_cell s z np d p c a k v b H)). by destruct d. Qed.
Lemma run_value s z np d p c a k v b : rep nl X s (plug z (node d p c a k v b)) np -> value_of p s = Some (v, s).
Proof. intros H. apply (load_run _ _ _ _ _ (rep_cell s z np d p c a k v b H)). by destruct d. Qed.
Lemma run_parent s z np t : rep nl X s (plug z t) np -> (t = Leaf -> np = Some (ptrz nl z)) ->
  parent_of (ptr nl t) s = Some (ptrz nl z, s).
Proof.
  intros H Hn. destruct t as [|p c l k v r].
  - destruct (r_nil _ _ _ _ _ H) as (n & Hl & _ & Hp). apply (load_run _ _ _ n); [done|]. rewrite Hp. auto.
  - by apply (load_run _ _ _ _ _ (rep_cell s z np L p c l k v r H)).
Qed.

Lemma run_color_nil s t np : rep nl X s t np -> color_of nl s = Some (BLACK, s).
Proof. intros H. destruct (r_nil _ _ _ _ _ H) as (n & Hn & Hc & _). apply (load_run _ _ _ n); [done|]. cbn. by rewrite Hc. Qed.
Lemma run_node_color s z np d p c a k v b : rep nl X s (plug z (node d p c a k v b)) np -> color_of p s = Some (c, s).
Proof. intros H. pose proof (run_color _ _ _ _ H) as E. by rewrite ptr_node, tcol_node in E. Qed.
Lemma run_node_parent s z np d p c a k v b : rep nl X s (plug z (node d p c a k v b)) np -> parent_of p s = Some (ptrz nl z, s).
Proof. intros H. pose proof (run_parent _ _ _ _ H) as E. rewrite ptr_node in E. apply E. by destruct d. Qed.
(** The two children of a node are different nodes. *)
Lemma ptr_ne s z np d p c a k v b : rep nl X s (plug z (node d p c a k v b)) np -> a <> Leaf -> ptr nl a <> ptr nl b.
Proof.
  intros H Ha. pose proof (rep_nodup _ _ _ _ H) as Hd. rewrite ptrs_node in Hd. cbn in Hd. apart Hd.
  destruct a as [|pa]; [done|]. destruct b as [|pb]; cbn in *; intros ->.
  - match goal with H : nl ∉ nl :: _ |- _ => apply H end. left.
  - match goal with H : disj (pb :: _) (pb :: _) |- _ => apply (H pb) end; left.
Qed.

(** A node changes its colour or its entry. *)
Lemma run_store s z np f p c l k v r c' k' v' : rep nl X s (plug z (Nd p c l k v r)) np ->
  (forall a b par, f (cell L c a b par k v) = cell L c' a b par k' v') ->
  exists s', store p f s = Some (tt, s') /\ rep nl X s' (plug z (Nd p c' l k' v' r)) np /\ keeps s s'.
Proof.
  intros H Hf. pose proof (rep_cell s z np L p c l k v r H) as Hp. pose proof (rep_nodup _ _ _ _ H) as Hd.
  unfold store. rewrite Hp. cbn [mbind option_bind]. eexists. split; [reflexivity|]. rewrite Hf.
  apply NoDup_cons in Hd as [Hnl Hd]. cbn in Hnl, Hd. apply NoDup_cons in Hd as [Hp' Hd]. rewrite !elem_of_app in *.
  assert (p <> nl) as Hpn by (intros ->; apply Hnl; left).
  destruct H as [Ht Hn Hr Hdup Hset (n & Hnil & Hnc) Hb]. apply tree_in_plug in Ht as [Hz Ht]. destruct Ht as (_ & Hl & Hrr).
  split; [split|]; cbn [heap nil root brk].
  - apply tree_in_plug. split.
    + eapply path_in_ext; [|exact Hz]. intros q Hq. apply lookup_insert_ne. intros <-. tauto.
    + cbn. rewrite lookup_insert_eq. split_and!; [done|..]; (eapply tree_in_ext; [|done]); intros q Hq;
        apply lookup_insert_ne; intros <-; tauto.
  - done.
  - rewrite Hr. by apply ptr_plug.
  - by rewrite ptrs_plug in Hdup |- *.
  - intros q. rewrite <- Hset, !ptrs_plug. done.
  - exists n. by rewrite lookup_insert_ne.
  - intros q Hq. apply Hb. destruct (decide (q = p)) as [->|Hne]; [by eexists|]. by rewrite lookup_insert_ne in Hq.
  - split; [done|]. cbn. rewrite dom_insert_lookup_L; [done|by eexists].
Qed.
Lemma run_set_color s z np d p c c' a k v b : rep nl X s (plug z (node d p c a k v b)) np ->
  exists s', set_color p c' s = Some (tt, s') /\ rep nl X s' (plug z (node d p c' a k v b)) np /\ keeps s s'.
Proof. intros H. destruct d; by refine (run_store s z np (with_color c') _ _ _ _ _ _ c' k v H _). Qed.

(** *** Rotations *)

(** Hanging another node into the hole of a path. *)
Lemma run_relink s z d p q : nil s = nl -> path_in nl (heap s) z p -> p ∉ nl :: ptrsz z -> nl ∉ ptrsz z ->
  relink d p (ptrz nl z) q s =
    Some (tt, Tree (hang nl z q (heap s)) (brk s) (match z with [] => q | _ => root s end) (nil s)).
Proof.
  intros Hs Hz Hp Hnl. unfold relink. rewrite (bind_some get_nil _ s nl s) by (unfold get_nil; by rewrite Hs).
  destruct z as [|f z]; [by rewrite decide_True|]. cbn [ptrz path_in] in *. unfold ptrsz in *. cbn in Hp, Hnl.
  rewrite decide_False by (intros H; apply Hnl; rewrite H; left).
  destruct Hz as (Hf & _). destruct (decide (f_dir f = d)) as [He|He].
  - rewrite (bind_some (child_of d (f_ptr f)) _ s p s); [|apply (load_run _ _ _ _ _ Hf); rewrite He; by destruct d].
    rewrite decide_True by done. unfold set_child, store. rewrite Hf. cbn. rewrite He. by destruct d.
  - rewrite (bind_some (child_of d (f_ptr f)) _ s (ptr nl (f_sib f)) s); [|apply (load_run _ _ _ _ _ Hf); by destruct d, (f_dir f)].
    rewrite decide_False.
    2: { intros ->. destruct (f_sib f); cbn in Hp; [apply Hp; left|]. apply Hp. right. right. left. }
    unfold set_child, store. rewrite Hf. cbn. by destruct d, (f_dir f).
Qed.

Lemma store_run p f s n : heap s !! p = Some n ->
  store p f s = Some (tt, Tree (<[p := f n]> (heap s)) (brk s) (root s) (nil s)).
Proof. intros H. unfold store. by rewrite H. Qed.

(** A subtree gets a new parent, if there is one. *)
Definition adopt (b : tree) (x : nat) (h : gmap nat rbtree_node) : gmap nat rbtree_node :=
  match b with Leaf => h | Nd p c l k v r => <[p := cell L c (ptr nl l) (ptr nl r) x k v]> h end.
Lemma run_adopt s par b x : tree_in nl (heap s) par b -> nl ∉ ptrs b ->
  (if decide (ptr nl b <> nl) then set_parent (ptr nl b) x else mret tt) s =
    Some (tt, Tree (adopt b x (heap s)) (brk s) (root s) (nil s)).
Proof.
  destruct b as [|p c l k v r]; cbn; intros Hb Hn.
  - rewrite decide_False by auto. by destruct s.
  - rewrite decide_True by (intros ->; apply Hn; left). destruct Hb as [Hp _]. unfold set_parent. by rewrite (store_run _ _ _ _ Hp).
Qed.
Lemma adopt_lookup b x h q : q ∉ ptrs b -> adopt b x h !! q = h !! q.
Proof. destruct b; [done|]. cbn. intros H. apply lookup_insert_ne. intros <-. apply H. left. Qed.
Lemma adopt_tree b x h par : NoDup (ptrs b) -> tree_in nl h par b -> tree_in nl (adopt b x h) x b.
Proof.
  destruct b as [|p c l k v r]; [done|]. cbn. intros Hd (Hp & Hl & Hr). apply NoDup_cons in Hd as [Hd _].
  rewrite elem_of_app in Hd. rewrite lookup_insert_eq. split_and!; [done|..]; (eapply tree_in_ext; [|done]); intros q Hq;
    apply lookup_insert_ne; intros <-; tauto.
Qed.

Lemma dom_adopt b x h par : tree_in nl h par b -> dom (adopt b x h) = dom h.
Proof. destruct b; [done|]. cbn. intros [Hp _]. apply dom_insert_lookup_L. by eexists. Qed.
Lemma dom_hang h z p q : path_in nl h z p -> dom (hang nl z q h) = dom h.
Proof. destruct z; [done|]. cbn. intros [Hf _]. apply dom_insert_lookup_L. by eexists. Qed.

Lemma rotate_run s z np d x cx a kx vx y cy b ky vy c :
  rep nl X s (plug z (node d x cx a kx vx (node d y cy b ky vy c))) np ->
  exists s', rotate d x s = Some (tt, s') /\
    rep nl X s' (plug z (node d y cy (node d x cx a kx vx b) ky vy c)) np /\ keeps s s'.
Proof.
  intros H. pose proof (rep_cell _ _ _ _ _ _ _ _ _ _ H) as Hx. rewrite ptr_node in Hx.
  pose proof (rep_focus _ _ _ _ H) as [Hz Ht]. rewrite ptr_node in Hz. apply tree_in_node in Ht as (_ & Ha & Ht).
  apply tree_in_node in Ht as (Hy & Hb & Hc). pose proof (rep_nodup _ _ _ _ H) as Hd.
  rewrite !ptrs_node in Hd. cbn in Hd. apart Hd.
  unfold rotate.
  rewrite (bind_some _ _ _ _ _ (run_child_opp _ _ _ _ _ _ _ _ _ _ H)), ptr_node.
  rewrite (bind_some (child_of d y) _ s (ptr nl b) s); [|apply (load_run _ _ _ _ _ Hy); by destruct d].
  rewrite (bind_some (set_child (opp d) x (ptr nl b)) _ _ _ _ (store_run _ _ _ _ Hx)).
  set (XC := with_child (opp d) (ptr nl b) (cell d cx (ptr nl a) y (ptrz nl z) kx vx)).
  rewrite (bind_some get_nil _ _ nl _) by (unfold get_nil; cbn; by rewrite (r_nl _ _ _ _ _ H)).
  erewrite bind_some; [|apply (run_adopt _ y)].
  2: { eapply tree_in_ext; [|exact Hb]. intros q Hq. cbn. apply lookup_insert_ne. differ. }
  2: { differ. }
  cbn [heap brk root nil].
  set (h1 := adopt b x (<[x := XC]> (heap s))).
  assert (h1 !! x = Some XC) as Hx1 by (unfold h1; rewrite adopt_lookup by differ; apply lookup_insert_eq).
  assert (forall q, q <> x -> q ∉ ptrs b -> h1 !! q = heap s !! q) as K1.
  { intros q Hq Hq'. unfold h1. rewrite adopt_lookup by done. by apply lookup_insert_ne. }
  assert (tree_in nl h1 x b) as Hb1.
  { apply (adopt_tree _ _ _ y); [done|]. eapply tree_in_ext; [|exact Hb]. intros q Hq. apply lookup_insert_ne. differ. }
  rewrite (bind_some (parent_of x) _ _ (ptrz nl z) _) by (refine (load_run _ x (Tree h1 _ _ _) XC _ Hx1 _); unfold XC; by destruct d).
  rewrite (bind_some (set_parent y _) _ _ _ _ (store_run y _ (Tree _ _ _ _) _ (eq_trans (K1 y ltac:(differ) ltac:(differ)) Hy))).
  cbn [heap brk root nil]. set (Y := with_parent (ptrz nl z) _). set (h2 := <[y := Y]> h1).
  assert (forall q, q <> x -> q <> y -> q ∉ ptrs b -> h2 !! q = heap s !! q) as K2.
  { intros q Hq Hq' Hq''. unfold h2. rewrite lookup_insert_ne by done. by apply K1. }
  rewrite (bind_some (relink d x _ y) _ _ _ _ (run_relink (Tree _ _ _ _) z d x y eq_refl ltac:(
    eapply path_in_ext; [|exact Hz]; intros q Hq; apply K2; differ) ltac:(differ) ltac:(differ))).
  cbn [heap brk root nil]. set (h3 := hang nl z y h2).
  assert (h3 !! y = Some Y) as Hy3 by (unfold h3; rewrite hang_lookup by differ; apply lookup_insert_eq).
  rewrite (bind_some (set_child d y x) _ _ _ _ (store_run y _ (Tree _ _ _ _) _ Hy3)).
  cbn [heap brk root nil]. set (h4 := <[y := with_child d x Y]> h3).
  assert (h4 !! x = Some XC) as Hx4.
  { unfold h4, h3, h2. rewrite lookup_insert_ne, hang_lookup, lookup_insert_ne by differ. done. }
  unfold set_parent. rewrite (store_run x _ (Tree _ _ _ _) _ Hx4). eexists. split; [reflexivity|].
  cbn [heap brk root nil]. set (h5 := <[x := with_parent y XC]> h4).
  assert (forall q, q <> x -> q <> y -> q ∉ ptrs b -> q ∉ ptrsz z -> h5 !! q = heap s !! q) as K5.
  { intros q ? ? ? ?. unfold h5, h4, h3. rewrite !lookup_insert_ne, hang_lookup by done. by apply K2. }
  assert (dom h5 = dom (heap s)) as Hdom.
  { unfold h5. rewrite dom_insert_lookup_L by (by eexists). unfold h4. rewrite dom_insert_lookup_L by (by eexists).
    unfold h3. rewrite (dom_hang h2 z x).
    2: { eapply path_in_ext; [|exact Hz]; intros q Hq; apply K2; differ. }
    unfold h2. rewrite dom_insert_lookup_L by (rewrite K1, Hy by differ; by eexists).
    unfold h1. rewrite (dom_adopt _ _ _ y).
    2: { eapply tree_in_ext; [|exact Hb]. intros q Hq. apply lookup_insert_ne. differ. }
    apply dom_insert_lookup_L. by eexists. }
  split; [|by split]. split; cbn [heap brk root nil].
  - apply tree_in_plug. rewrite ptr_node. split.
    { apply (path_in_ext _ h3); [|apply (path_in_hang _ h2 z x); [done|]].
      - intros q Hq. unfold h5, h4. rewrite !lookup_insert_ne by differ. done.
      - eapply path_in_ext; [|exact Hz]; intros q Hq; apply K2; differ. }
    apply tree_in_node. split_and!.
    + unfold h5, h4. rewrite lookup_insert_ne, lookup_insert_eq, ptr_node by differ. unfold Y. by destruct d.
    + apply tree_in_node. split_and!.
      * unfold h5. rewrite lookup_insert_eq. unfold XC. by destruct d.
      * eapply tree_in_ext; [|exact Ha]. intros q Hq. apply K5; differ.
      * eapply tree_in_ext; [|exact Hb1]. intros q Hq. unfold h5, h4, h3, h2.
        rewrite !lookup_insert_ne, hang_lookup, lookup_insert_ne by differ. done.
    + eapply tree_in_ext; [|exact Hc]. intros q Hq. apply K5; differ.
  - done.
  - destruct z as [|f z]; cbn [plug]; [by rewrite ptr_node|]. rewrite (r_root _ _ _ _ _ H). cbn [plug]. apply ptr_plug. unfold plug1.
    by rewrite !ptr_node.
  - pose proof (r_nodup _ _ _ _ _ H) as Hn. rewrite ptrs_plug, !ptrs_node in Hn |- *.
    revert Hn. rewrite !NoDup_ListNoDup. apply Permutation_NoDup. solve_Permutation.
  - intros q. rewrite <- (r_set _ _ _ _ _ H). f_equiv. rewrite !ptrs_plug, !ptrs_node. solve_Permutation.
  - rewrite K5 by differ. apply H.
  - intros q Hq. apply (r_brk _ _ _ _ _ H). apply elem_of_dom. rewrite <- Hdom. by apply elem_of_dom.
Qed.

End Steps.

(** ** Red-black trees *)

(** Every path has [n] black nodes, and no red node has a red child. *)
Fixpoint rb (n : nat) (t : tree) : Prop :=
  match t with
  | Leaf => n = 0%nat
  | Nd _ RED l _ _ r => tcol l = BLACK /\ tcol r = BLACK /\ rb n l /\ rb n r
  | Nd _ BLACK l _ _ r => match n with O => False | S m => rb m l /\ rb m r end
  end.
(** A path whose hole can take a tree of colour [c] with [n] black nodes. *)
Fixpoint rbz (c : color) (n : nat) (z : list frame) : Prop :=
  match z with
  | [] => c = BLACK
  | f :: z =>
      rb n (f_sib f) /\
      match f_col f with
      | RED => c = BLACK /\ tcol (f_sib f) = BLACK /\ rbz RED n z
      | BLACK => rbz BLACK (S n) z
      end
  end.
Definition blacken (t : tree) : tree := match t with Leaf => Leaf | Nd p _ l k v r => Nd p BLACK l k v r end.

Lemma rb_red n d p a k v b : rb n (node d p RED a k v b) <-> tcol a = BLACK /\ tcol b = BLACK /\ rb n a /\ rb n b.
Proof. destruct d; cbn; tauto. Qed.
Lemma rb_black n d p a k v b : rb (S n) (node d p BLACK a k v b) <-> rb n a /\ rb n b.
Proof. destruct d; cbn; tauto. Qed.
Lemma rb_black_inv n d p a k v b : rb n (node d p BLACK a k v b) -> exists m, n = S m /\ rb m a /\ rb m b.
Proof. destruct n as [|n]; [by destruct d|]. intros H. exists n. by apply rb_black in H. Qed.
Lemma rbz_weaken n z : rbz RED n z -> rbz BLACK n z.
Proof. destruct z as [|f z]; cbn; [done|]. destruct (f_col f); [by intros (_ & ? & _)|done]. Qed.
Lemma rb_plug n z t : rb n t -> rbz (tcol t) n z -> exists m, rb m (plug z t) /\ tcol (plug z t) = BLACK.
Proof.
  revert n t. induction z as [|f z IH]; intros n t Ht; cbn [rbz plug]; [by exists n|].
  intros [Hs Hf]. unfold plug1. destruct (f_col f).
  - destruct Hf as (Hc & Hc' & Hz). apply (IH n); [by apply rb_red|by rewrite tcol_node].
  - apply (IH (S n)); [by apply rb_black|by rewrite tcol_node].
Qed.
Lemma rb_unplug m z t : rb m (plug z t) -> tcol (plug z t) = BLACK -> exists n, rb n t /\ rbz (tcol t) n z.
Proof.
  revert t. induction z as [|f z IH]; intros t H Hc; cbn [plug] in *; [by exists m|].
  destruct (IH _ H Hc) as (n & Hn & Hz). unfold plug1 in *. rewrite tcol_node in Hz. destruct (f_col f) eqn:Ef.
  - apply rb_red in Hn as (H1 & H2 & H3 & H4). exists n. cbn. by rewrite Ef.
  - apply rb_black_inv in Hn as (m' & -> & H1 & H2). exists m'. cbn. by rewrite Ef.
Qed.

(** The entries in order. *)
Fixpoint items (t : tree) : list (bytes * option bytes) :=
  match t with Leaf => [] | Nd _ _ l k v r => items l ++ (k, v) :: items r end.
Definition side {A} (d : dir) (a b : list A) : list A := match d with L => a ++ b | R => b ++ a end.
Lemma items_node d p c a k v b : items (node d p c a k v b) = match d with L => items a ++ (k, v) :: items b | R => items b ++ (k, v) :: items a end.
Proof. by destruct d. Qed.
Lemma items_node_ext d p c p' c' a a' k v b b' : items a' = items a -> items b' = items b ->
  items (node d p' c' a' k v b') = items (node d p c a k v b).
Proof. intros Ha Hb. rewrite !items_node, Ha, Hb. done. Qed.
Lemma items_plug z t t' : items t' = items t -> items (plug z t') = items (plug z t).
Proof.
  revert t t'. induction z as [|f z IH]; intros t t' H; cbn [plug]; [done|]. apply IH. by apply items_node_ext.
Qed.
Lemma items_rotate d p c a k v p' c' b k' v' e q q' e1 e2 :
  items (node d q e1 (node d q' e2 a k v b) k' v' e) = items (node d p c a k v (node d p' c' b k' v' e)).
Proof. rewrite !items_node. destruct d; by rewrite <- app_assoc. Qed.

(** *** Insertion *)

Section Insert.

Context {nl : nat} {X : gset nat}.

Ltac run E := rewrite (bind_some _ _ _ _ _ E).
Ltac run_ex E s R K := let Hs := fresh in destruct E as (s & Hs & R & K); rewrite (bind_some _ _ _ _ _ Hs); clear Hs.

(** The state after a step of the loop: the tree is another one with the same
    entries, the focus [t'] is red again and closer to the root. *)
Definition fixed (s s' : rbtree) (z z' : list frame) (t t' : tree) (np : option nat) : Prop :=
  rep nl X s' (plug z' t') np /\ keeps s s' /\ items (plug z' t') = items (plug z t) /\
  tcol t' = RED /\ (length z' < length z)%nat /\ exists n', rb n' t' /\ rbz BLACK n' z'.

(** The last step: the parent and the grandparent are on the same side. *)
Lemma insert_fix_outer s z np d t p k1 v1 s1 g kg vg u n :
  rep nl X s (plug (Frame d p RED k1 v1 s1 :: Frame d g BLACK kg vg u :: z) t) np ->
  tcol t = RED -> rb n t -> rb n s1 -> tcol s1 = BLACK -> rb n u -> tcol u = BLACK -> rbz BLACK (S n) z ->
  exists s' z', (p ← parent_of (ptr nl t); set_color p BLACK;; g ← parent_of p; set_color g RED;; rotate (opp d) g;; mret (ptr nl t)) s =
      Some (ptr nl t, s') /\
    fixed s s' (Frame d p RED k1 v1 s1 :: Frame d g BLACK kg vg u :: z) z' t t np.
Proof.
  intros H Ht Hn Hs1 Hc1 Hu Hcu Hz.
  run (run_parent _ _ _ _ H ltac:(intros ->; discriminate Ht)). cbn [ptrz f_ptr].
  rewrite plug_cons in H. run_ex (run_set_color s _ np d p RED BLACK t k1 v1 s1 H) s2 R2 K2.
  pose proof (run_parent s2 _ np _ R2) as E. rewrite ptr_node in E. run (E ltac:(by destruct d)). clear E. cbn [ptrz f_ptr].
  rewrite plug_cons in R2. run_ex (run_set_color s2 _ np d g BLACK RED _ kg vg u R2) s3 R3 K3.
  rewrite <- node_opp, <- (node_opp d p) in R3. run_ex (rotate_run s3 z np _ _ _ _ _ _ _ _ _ _ _ _ R3) s4 R4 K4.
  rewrite node_opp in R4.
  exists s4, (Frame d p BLACK k1 v1 (node (opp d) g RED u kg vg s1) :: z). split; [done|].
  split_and!; [exact R4|by etrans; [|etrans]| |done|cbn; lia|].
  - cbn [plug]. apply items_plug. unfold plug1. destruct d; cbn; by rewrite <- ?app_assoc.
  - exists n. split; [done|]. cbn. split; [by apply rb_red|done].
Qed.

Lemma insert_fix_run s z np d d1 t p k1 v1 s1 g kg vg u n :
  rep nl X s (plug (Frame d1 p RED k1 v1 s1 :: Frame d g BLACK kg vg u :: z) t) np ->
  tcol t = RED -> rb n t -> rb n s1 -> tcol s1 = BLACK -> rb n u -> rbz BLACK (S n) z ->
  exists s' z' t', insert_fix d (ptr nl t) p g s = Some (ptr nl t', s') /\
    fixed s s' (Frame d1 p RED k1 v1 s1 :: Frame d g BLACK kg vg u :: z) z' t t' np.
Proof.
  intros H Ht Hn Hs1 Hc1 Hu Hz. unfold insert_fix. pose proof H as H0. rewrite !plug_cons in H.
  run (run_child_opp _ _ _ _ _ _ _ _ _ _ H).
  rewrite <- plug_cons, plug_sib in H. run (run_color _ _ _ _ H). case_decide as Hcu.
  - rewrite <- plug_sib in H. clear H0. destruct u as [|pu cu ul ku vu ur]; [done|]. cbn in Hcu. subst cu.
    run_ex (run_set_color s _ np d1 p RED BLACK t k1 v1 s1 H) s2 R2 K2.
    rewrite plug_sib in R2. run_ex (run_set_color s2 _ np L pu RED BLACK ul ku vu ur R2) s3 R3 K3.
    rewrite <- plug_sib, plug_cons in R3. run_ex (run_set_color s3 _ np d g BLACK RED _ kg vg _ R3) s4 R4 K4.
    exists s4, z, (node d g RED (node d1 p BLACK t k1 v1 s1) kg vg (node L pu BLACK ul ku vu ur)).
    rewrite ptr_node. split; [done|]. split_and!; [exact R4|by etrans; [|etrans]| |apply tcol_node|cbn; lia|].
    + cbn [plug]. apply items_plug. by apply items_node_ext; [apply items_node_ext|].
    + exists (S n). split; [|done]. apply rb_red. rewrite !tcol_node. split_and!; [done|done|by apply rb_black|].
      apply rb_black. by destruct Hu as (_ & _ & ? & ?).
  - assert (tcol u = BLACK) as Hcu' by (by destruct (tcol u)). clear Hcu. rewrite <- plug_sib in H.
    destruct (decide (d1 = d)) as [->|Hdd].
    + run (run_child_opp _ _ _ _ _ _ _ _ _ _ H). rewrite decide_False by (apply (ptr_ne _ _ _ _ _ _ _ _ _ _ H); by intros ->).
      rewrite ret_run. destruct (insert_fix_outer s z np d t p k1 v1 s1 g kg vg u n) as (s' & z' & Hr & Hf); try done.
      by exists s', z', t.
    + assert (d1 = opp d) as -> by (by destruct d, d1). rewrite node_opp in H.
      run (run_child_opp _ _ _ _ _ _ _ _ _ _ H). rewrite decide_True by done.
      assert (exists x ta kx vx tb, t = node d x RED ta kx vx tb) as (x & ta & kx & vx & tb & ->).
      { destruct t as [|x c l k v r]; [done|]. cbn in Ht. subst c. destruct d; [by exists x, l, k, v, r|by exists x, r, k, v, l]. }
      pose proof (rotate_run s _ np _ _ _ _ _ _ _ _ _ _ _ _ H) as (s2 & E2 & R2 & K2).
      rewrite (bind_some _ _ s p s2) by (by rewrite (bind_some _ _ _ _ _ E2)).
      rewrite <- plug_cons in R2. apply rb_red in Hn as (Ha & Hb & Hna & Hnb).
      destruct (insert_fix_outer s2 z np d (node d p RED s1 k1 v1 ta) x kx vx tb g kg vg u n) as (s' & z' & Hr & Hf); try done.
      * apply tcol_node.
      * by apply rb_red.
      * rewrite ptr_node in Hr. exists s', z', (node d p RED s1 k1 v1 ta). rewrite ptr_node. split; [exact Hr|].
        destruct Hf as (F1 & F2 & F3 & F4 & F5 & F6). split_and!; try done; [by etrans|].
        rewrite F3. cbn [plug]. apply items_plug. unfold plug1. cbn. apply items_node_ext; [|done].
        rewrite node_opp. apply items_rotate.
Qed.

(** The loop ends, and blackening the root makes a red-black tree. *)
Lemma insert_loop_run fuel : forall s z t np n, rep nl X s (plug z t) np -> tcol t = RED -> rb n t -> rbz BLACK n z ->
  (length z < fuel)%nat ->
  exists s' t', insert_fixup_loop fuel (ptr nl t) s = Some (tt, s') /\ rep nl X s' t' np /\ keeps s s' /\
    items t' = items (plug z t) /\ t' <> Leaf /\ exists m, rb m (blacken t').
Proof.
  induction fuel as [|fuel IH]; intros s z t np n H Ht Hn Hz Hf; [lia|]. cbn [insert_fixup_loop].
  run (run_parent _ _ _ _ H ltac:(intros ->; discriminate Ht)).
  destruct z as [|f1 z].
  { run (run_color_nil _ _ _ H). rewrite decide_False by done. exists s, t. split_and!; try done; [by intros ->|].
    destruct t as [|p c l k v r]; [done|]. cbn in Ht. subst c. exists (S n). by destruct Hn as (_ & _ & ? & ?). }
  destruct f1 as [d1 p c1 k1 v1 s1]. cbn [ptrz f_ptr]. pose proof H as H0. rewrite plug_cons in H. run (run_node_color _ _ _ _ _ _ _ _ _ _ H).
  destruct Hz as [Hs1 Hz]. cbn [f_sib f_col] in *. destruct c1.
  - rewrite decide_True by done. destruct Hz as (_ & Hc1 & Hz). destruct z as [|[d g cg kg vg u] z]; [done|].
    destruct Hz as [Hu Hz]. cbn [f_sib f_col] in *. destruct cg; [by destruct Hz|].
    run (run_node_parent _ _ _ _ _ _ _ _ _ _ H). cbn [ptrz f_ptr]. rewrite plug_cons in H.
    destruct (insert_fix_run s z np d d1 t p k1 v1 s1 g kg vg u n) as (s' & z' & t' & Hr & F1 & F2 & F3 & F4 & F5 & n' & F6 & F7);
      try done.
    assert ((l ← child_of L g; z ← (if decide (p = l) then insert_fix L (ptr nl t) p g else insert_fix R (ptr nl t) p g);
      insert_fixup_loop fuel z) s = (z ← insert_fix d (ptr nl t) p g; insert_fixup_loop fuel z) s) as ->.
    { destruct d.
      - run (run_child _ _ _ _ _ _ _ _ _ _ H). by rewrite ptr_node, decide_True.
      - run (run_child_opp _ _ _ _ _ _ _ _ _ _ H). rewrite decide_False; [done|].
        pose proof (ptr_ne _ _ _ _ _ _ _ _ _ _ H) as E. rewrite ptr_node in E. apply E. by destruct d1. }
    run Hr. destruct (IH s' z' t' np n' F1 F4 F6 F7) as (s2 & t2 & E2 & R2 & K2 & I2 & N2); [cbn in *; lia|].
    exists s2, t2. split_and!; [done|done|by etrans|by rewrite I2, F3|apply N2..].
  - rewrite decide_False by done. exists s, (plug (Frame d1 p BLACK k1 v1 s1 :: z) t).
    destruct (rb_plug n (Frame d1 p BLACK k1 v1 s1 :: z) t Hn) as (m & Hm & Hc); [by rewrite Ht|].
    split_and!; try done.
    + intros Hl. apply (f_equal ptrs) in Hl. pose proof (ptrs_plug (Frame d1 p BLACK k1 v1 s1 :: z) t) as Hp. rewrite Hl in Hp.
      apply Permutation_nil_l in Hp. by destruct t.
    + exists m. by destruct (plug _ _) as [|? []].
Qed.

Lemma tree_in_dom h par t p : tree_in nl h par t -> p ∈ ptrs t -> is_Some (h !! p).
Proof.
  revert par. induction t as [|q c l IHl k v r IHr]; intros par; cbn; [by intros _ H%not_elem_of_nil|].
  intros (Hq & Hl & Hr) H. apply elem_of_cons in H as [->|H]; [by eexists|]. apply elem_of_app in H as [H|H]; eauto.
Qed.
(** There are more rounds than nodes. *)
Lemma rep_rounds s t np : rep nl X s t np -> (length (ptrs t) < size (heap s))%nat.
Proof.
  intros H. rewrite <- size_dom. assert (list_to_set (nl :: ptrs t) ⊆ dom (heap s)) as Hs.
  { intros p Hp. apply elem_of_dom. apply elem_of_list_to_set, elem_of_cons in Hp as [->|Hp].
    - destruct (r_nil _ _ _ _ _ H) as (n & Hn & _). by eexists.
    - by apply (tree_in_dom _ nl t); [apply H|]. }
  apply subseteq_size in Hs. rewrite size_list_to_set in Hs by apply H. cbn in Hs. lia.
Qed.
Lemma path_rounds s z t np : rep nl X s (plug z t) np -> (length z + length (ptrs t) < size (heap s))%nat.
Proof.
  intros H. pose proof (rep_rounds _ _ _ H) as Hl. rewrite ptrs_plug, length_app in Hl.
  assert (length z <= length (ptrsz z))%nat; [|lia]. clear. unfold ptrsz. induction z; cbn; [done|]. rewrite length_app. lia.
Qed.
Lemma run_rounds s t np : rep nl X s t np -> rounds s = Some (size (heap s), s).
Proof. done. Qed.

Lemma insert_fixup_run s z t np n : rep nl X s (plug z t) np -> tcol t = RED -> rb n t -> rbz BLACK n z ->
  exists s' t', rbtree_insert_fixup (ptr nl t) s = Some (tt, s') /\ rep nl X s' t' np /\ keeps s s' /\
    items t' = items (plug z t) /\ tcol t' = BLACK /\ exists m, rb m t'.
Proof.
  intros H Ht Hn Hz. unfold rbtree_insert_fixup. run (run_rounds _ _ _ H).
  destruct (insert_loop_run (size (heap s)) s z t np n H Ht Hn Hz) as (s1 & t1 & E1 & R1 & K1 & I1 & N1 & m & Hm).
  { pose proof (path_rounds _ _ _ _ H). lia. }
  run E1. run (run_root _ _ _ R1). destruct t1 as [|p c l k v r]; [done|].
  destruct (run_set_color s1 [] np L p c BLACK l k v r R1) as (s2 & E2 & R2 & K2).
  exists s2, (Nd p BLACK l k v r). split_and!; [done|done|by etrans|done|done|by exists m].
Qed.

(** ** Searching *)

Fixpoint height (t : tree) : nat := match t with Leaf => 0 | Nd _ _ l _ _ r => S (Nat.max (height l) (height r)) end.
Lemma height_ptrs t : (height t <= length (ptrs t))%nat.
Proof. induction t; cbn; [done|]. rewrite length_app. lia. Qed.

Fixpoint seek (k : bytes) (t : tree) (z : list frame) : list frame * tree :=
  match t with
  | Leaf => (z, Leaf)
  | Nd p c l k' v r =>
      if decide (strcmp k k' < 0) then seek k l (Frame L p c k' v r :: z)
      else if decide (strcmp k k' > 0) then seek k r (Frame R p c k' v l :: z) else (z, t)
  end.
Lemma seek_plug k t z : plug (seek k t z).1 (seek k t z).2 = plug z t.
Proof.
  revert z. induction t as [|p c l IHl k' v r IHr]; intros z; cbn; [done|]. repeat case_decide; [by rewrite IHl|by rewrite IHr|done].
Qed.
Lemma search_run k t : forall fuel z s np, rep nl X s (plug z t) np -> (height t < fuel)%nat ->
  search_loop fuel k (ptr nl t) s = Some (ptr nl (seek k t z).2, s).
Proof.
  induction t as [|p c l IHl k' v r IHr]; intros [|fuel] z s np H Hf; try lia; cbn [search_loop seek ptr height] in *;
    run (run_nil _ _ _ H).
  - by rewrite decide_False by auto.
  - pose proof (rep_nodup _ _ _ _ H) as Hd. cbn in Hd. apart Hd. rewrite decide_True by done.
    cbn in Hf. run (run_key s z np L p c l k' v r H).
    case_decide; [|case_decide; [|done]].
    + run (run_child s z np L p c l k' v r H). apply (IHl fuel (Frame L p c k' v r :: z) s np H). lia.
    + run (run_child_opp s z np L p c l k' v r H). apply (IHr fuel (Frame R p c k' v l :: z) s np H). lia.
Qed.
Lemma place_run k t : forall fuel z s np, rep nl X s (plug z t) np -> (length (ptrs t) < fuel)%nat ->
  insert_loop fuel k (ptrz nl z) (ptr nl t) s =
    Some (match seek k t z with (z', Leaf) => Some (ptrz nl z') | _ => None end, s).
Proof.
  induction t as [|p c l IHl k' v r IHr]; intros [|fuel] z s np H Hf; try lia; cbn [insert_loop seek ptr ptrs] in *;
    run (run_nil _ _ _ H).
  - by rewrite decide_False by auto.
  - pose proof (rep_nodup _ _ _ _ H) as Hd. cbn in Hd. apart Hd. rewrite decide_True by done.
    cbn in Hf. rewrite length_app in Hf. run (run_key s z np L p c l k' v r H).
    case_decide; [|case_decide; [|done]].
    + run (run_child s z np L p c l k' v r H). apply (IHl fuel (Frame L p c k' v r :: z) s np H). lia.
    + run (run_child_opp s z np L p c l k' v r H). apply (IHr fuel (Frame R p c k' v l :: z) s np H). lia.
Qed.

End Insert.

(** ** Order *)

Abbreviation entry := (bytes * option bytes)%type.
Definition before_key (a b : entry) : Prop := strcmp a.1 b.1 < 0.
Definition sorted (l : list entry) : Prop := StronglySorted before_key l.

(** What comes before and after the hole of a path. *)
Fixpoint before (z : list frame) : list entry :=
  match z with
  | [] => []
  | f :: z => before z ++ match f_dir f with L => [] | R => items (f_sib f) ++ [(f_key f, f_val f)] end
  end.
Fixpoint after (z : list frame) : list entry :=
  match z with
  | [] => []
  | f :: z => match f_dir f with L => (f_key f, f_val f) :: items (f_sib f) | R => [] end ++ after z
  end.
Lemma items_around z t : items (plug z t) = before z ++ items t ++ after z.
Proof.
  revert t. induction z as [|f z IH]; intros t; cbn; [by rewrite app_nil_r|]. rewrite IH. unfold plug1. rewrite items_node.
  destruct (f_dir f); rewrite <- ?app_assoc; cbn; rewrite <- ?app_assoc; done.
Qed.

Lemma sorted_app l l' : sorted (l ++ l') <-> sorted l /\ sorted l' /\ forall a b, a ∈ l -> b ∈ l' -> before_key a b.
Proof.
  unfold sorted. induction l as [|x l IH]; cbn.
  - split; [intros H; split_and!; [constructor|done|]|tauto]. by intros a b Ha%not_elem_of_nil.
  - split.
    + intros H. inversion H as [|? ? Hs Hf]; subst. apply IH in Hs as (H1 & H2 & H3). rewrite Forall_app in Hf. destruct Hf as [Hf Hf'].
      split_and!; [by constructor|done|]. intros a b Ha Hb. apply elem_of_cons in Ha as [->|Ha]; [|by apply H3].
      rewrite Forall_forall in Hf'. by apply Hf'.
    + intros (H1 & H2 & H3). inversion H1 as [|? ? Hs Hf]; subst. constructor.
      * apply IH. split_and!; [done|done|]. intros a b Ha Hb. apply H3; [by right|done].
      * apply Forall_app. split; [done|]. apply Forall_forall. intros b Hb. apply H3; [by left|done].
Qed.

(** The bounds of a hole: every key before it is below [k], every key after it above. *)
Definition around (k : bytes) (A B : list entry) : Prop :=
  Forall (fun e => strcmp e.1 k < 0) A /\ Forall (fun e => strcmp k e.1 < 0) B.

Lemma seek_around k t : forall z, sorted (items (plug z t)) -> around k (before z) (after z) ->
  around k (before (seek k t z).1) (after (seek k t z).1) /\
  ((seek k t z).2 = Leaf \/ exists p c l v r, (seek k t z).2 = Nd p c l k v r).
Proof.
  induction t as [|p c l IHl k' v r IHr]; intros z Hs Ha; cbn [seek]; [by auto|].
  pose proof Hs as Hs'. rewrite items_around in Hs'. cbn in Hs'. apply sorted_app in Hs' as (_ & Hs' & _).
  apply sorted_app in Hs' as (Hs' & _ & _). apply sorted_app in Hs' as (_ & Hr & Hl).
  apply StronglySorted_inv in Hr as [_ Hr]. destruct Ha as [Ha Hb].
  case_decide as H1; [|case_decide as H2].
  - apply IHl; [done|]. split; cbn; [by rewrite app_nil_r|]. constructor; [done|]. apply Forall_app. split; [|done].
    eapply Forall_impl; [exact Hr|]. intros e He. by apply (strcmp_trans _ k').
  - assert (strcmp k' k < 0) by (rewrite strcmp_antisym; lia). apply IHr; [done|]. split; cbn; [|done].
    apply Forall_app. split; [done|]. apply Forall_app. split; [|by constructor].
    apply Forall_forall. intros e He. apply (strcmp_trans _ k'); [|done]. apply (Hl e (k', v)); [done|by left].
  - split; [done|]. right. assert (k = k') as -> by (apply strcmp_eq; lia). by eexists _, _, _, _, _.
Qed.

Lemma around_sorted k v A B : sorted (A ++ B) -> around k A B -> sorted (A ++ (k, v) :: B).
Proof.
  intros Hs [Ha Hb]. apply sorted_app in Hs as (H1 & H2 & H3). apply sorted_app. split_and!; [done| |].
  - by constructor.
  - intros a b Hin Hin'. apply elem_of_cons in Hin' as [->|Hin']; [|by apply H3]. rewrite Forall_forall in Ha. by apply Ha.
Qed.
Lemma sorted_around k v A B : sorted (A ++ (k, v) :: B) -> around k A B /\ sorted (A ++ B).
Proof.
  intros Hs. apply sorted_app in Hs as (H1 & H2 & H3). apply StronglySorted_inv in H2 as [H2 H4]. split; [split|].
  - apply Forall_forall. intros e He. apply (H3 e (k, v)); [done|by left].
  - exact H4.
  - apply sorted_app. split_and!; [done|done|]. intros a b Ha Hb. apply H3; [done|by right].
Qed.

(** ** The map *)

Definition to_map (l : list entry) : gmap bytes bytes := list_to_map (omap (fun e => pair e.1 <$> e.2) l).
Lemma to_map_app l l' : to_map (l ++ l') = to_map l ∪ to_map l'.
Proof. unfold to_map. by rewrite omap_app, list_to_map_app. Qed.
Lemma to_map_none k l : Forall (fun e => e.1 <> k) l -> to_map l !! k = None.
Proof.
  unfold to_map. induction 1 as [|[k' [v|]] l Hk _ IH]; cbn in *; [done| |done]. by rewrite lookup_insert_ne.
Qed.
Lemma around_fresh k A B : around k A B -> Forall (fun e => e.1 <> k) A /\ Forall (fun e => e.1 <> k) B.
Proof.
  intros [Ha Hb]. split; [eapply Forall_impl; [exact Ha|]|eapply Forall_impl; [exact Hb|]]; cbn; intros e He Hk;
    rewrite Hk, strcmp_refl in He; lia.
Qed.
Lemma to_map_middle k v A B : around k A B -> to_map (A ++ (k, Some v) :: B) = <[k := v]> (to_map (A ++ B)).
Proof.
  intros Ha. apply around_fresh in Ha as [Ha _]. rewrite !to_map_app. change (to_map ((k, Some v) :: B)) with (<[k := v]> (to_map B)).
  rewrite insert_union_r; [done|]. by apply to_map_none.
Qed.
Lemma to_map_absent k A B : around k A B -> to_map (A ++ B) !! k = None.
Proof. intros Ha. apply around_fresh in Ha as [Ha Hb]. apply to_map_none. by apply Forall_app. Qed.

(** ** The operations *)

Section Operations.

Context {nl : nat}.

Ltac run E := rewrite (bind_some _ _ _ _ _ E).
Ltac run_ex E s R K := let Hs := fresh in destruct E as (s & Hs & R & K); rewrite (bind_some _ _ _ _ _ Hs); clear Hs.

(** Memory outside of the tree does not matter. *)
Lemma rep_fresh X s t np p n : rep nl X s t np -> p ∉ nl :: ptrs t ->
  rep nl X (Tree (<[p := n]> (heap s)) (Nat.max (brk s) (S p)) (root s) (nil s)) t np.
Proof.
  intros [H1 H2 H3 H4 HX (m & H5 & H6) H7] Hp. apply not_elem_of_cons in Hp as [Hp1 Hp2]. split; cbn; try done.
  - eapply tree_in_ext; [|exact H1]. intros q Hq. apply lookup_insert_ne. by intros <-.
  - exists m. by rewrite lookup_insert_ne.
  - intros q Hq. destruct (decide (q = p)) as [->|Hne]; [lia|]. rewrite lookup_insert_ne in Hq by done. specialize (H7 q Hq). lia.
Qed.

(** The parent of a new node takes it on the side its key belongs to. *)
Lemma parent_link s z p k : path_in nl (heap s) z nl -> nl ∉ ptrsz z -> around k (before z) (after z) ->
  (if decide (ptrz nl z = nl) then set_root p
   else k' ← key_of (ptrz nl z); if decide (strcmp k k' < 0) then set_child L (ptrz nl z) p else set_child R (ptrz nl z) p) s =
  Some (tt, Tree (hang nl z p (heap s)) (brk s) (match z with [] => p | _ => root s end) (nil s)).
Proof.
  intros Hz Hn [Ha1 Ha2]. destruct z as [|f z]; cbn [ptrz hang]; [by rewrite decide_True|]. unfold ptrsz in Hn. cbn in Hn.
  rewrite decide_False by (intros He; apply Hn; rewrite He; left). destruct Hz as (Hf & _).
  rewrite (bind_some (key_of (f_ptr f)) _ _ (f_key f) s) by (apply (load_run _ _ _ _ _ Hf); by destruct (f_dir f)).
  unfold set_child. cbn [before after] in *. destruct (f_dir f).
  - apply Forall_app in Ha2 as [Ha2 _]. inversion Ha2; subst. rewrite decide_True by done. by rewrite (store_run _ _ _ _ Hf).
  - rewrite !Forall_app in Ha1. destruct Ha1 as (_ & _ & Ha1). rewrite Forall_singleton in Ha1. cbn in Ha1.
    rewrite decide_False by (pose proof (strcmp_antisym k (f_key f)); lia). by rewrite (store_run _ _ _ _ Hf).
Qed.

(** The new node [p] becomes a red leaf in the hole of [z]. *)
Lemma link_run X s z np p k v : rep nl X s (plug z Leaf) np -> heap s !! p = Some (Node RED None None None (Some k) v) ->
  p ∉ nl :: ptrsz z -> around k (before z) (after z) ->
  exists s', (forall A (K : M A), (set_parent p (ptrz nl z);;
      (if decide (ptrz nl z = nl) then set_root p
       else k' ← key_of (ptrz nl z); if decide (strcmp k k' < 0) then set_child L (ptrz nl z) p else set_child R (ptrz nl z) p);;
      set_child L p nl;; set_child R p nl;; set_color p RED;; K) s = K s') /\
    rep nl ({[p]} ∪ X) s' (plug z (Nd p RED Leaf k v Leaf)) np /\ keeps s s'.
Proof.
  intros H Hp Hpz Ha. pose proof (rep_nodup _ _ _ _ H) as Hd. cbn in Hd. apart Hd. apart Hpz.
  pose proof (rep_focus _ _ _ _ H) as [Hz _]. cbn [ptr] in Hz.
  set (P := Node RED None None (Some (ptrz nl z)) (Some k) v). set (h1 := <[p := P]> (heap s)).
  assert (path_in nl h1 z nl) as Hz1.
  { eapply path_in_ext; [|exact Hz]. intros q Hq. apply lookup_insert_ne. by intros <-. }
  set (rt := match z with [] => p | _ => root s end). set (h2 := hang nl z p h1).
  assert (h2 !! p = Some P) as Hp2 by (unfold h2; rewrite hang_lookup by done; apply lookup_insert_eq).
  set (h3 := <[p := cell L RED nl nl (ptrz nl z) k v]> h2). exists (Tree h3 (brk s) rt (nil s)). split.
  { intros A K. rewrite (bind_some (set_parent p (ptrz nl z)) _ _ _ _ (store_run p (with_parent (ptrz nl z)) s _ Hp)).
    run (parent_link (Tree h1 (brk s) (root s) (nil s)) z p k Hz1 ltac:(done) Ha). cbn [heap brk root nil]. fold rt h2.
    rewrite (bind_some (set_child L p nl) _ _ _ _ (store_run p (with_child L nl) (Tree h2 _ _ _) _ Hp2)). cbn [heap brk root nil].
    rewrite (bind_some (set_child R p nl) _ (Tree _ _ _ _) _ _ (store_run p (with_child R nl) (Tree _ _ _ _) _ (lookup_insert_eq _ _ _))).
    cbn [heap brk root nil].
    rewrite (bind_some (set_color p RED) _ (Tree _ _ _ _) _ _ (store_run p (with_color RED) (Tree _ _ _ _) _ (lookup_insert_eq _ _ _))).
    cbn [heap brk root nil]. by rewrite !insert_insert_eq. }
  assert (forall q, q <> p -> q ∉ ptrsz z -> h3 !! q = heap s !! q) as K3.
  { intros q ? ?. unfold h3, h2, h1. by rewrite lookup_insert_ne, hang_lookup, lookup_insert_ne by done. }
  assert (dom h3 = dom (heap s)) as Hdom.
  { unfold h3. rewrite dom_insert_lookup_L by (by eexists). unfold h2. rewrite (dom_hang h1 z nl) by done.
    apply dom_insert_lookup_L. by eexists. }
  split; [|by split]. split; cbn [heap brk root nil].
  - apply tree_in_plug. cbn [ptr]. split.
    + apply (path_in_ext _ h2); [|by apply (path_in_hang _ h1 z nl)]. intros q Hq. unfold h3. apply lookup_insert_ne. by intros <-.
    + cbn. unfold h3. rewrite lookup_insert_eq. done.
  - apply H.
  - unfold rt. destruct z as [|f z]; [done|]. rewrite (r_root _ _ _ _ _ H). cbn [plug]. apply ptr_plug. unfold plug1. by rewrite !ptr_node.
  - rewrite ptrs_plug. cbn. apply NoDup_cons. split; [apply not_elem_of_cons; done|]. by apply NoDup_cons.
  - intros q. rewrite elem_of_union, <- (r_set _ _ _ _ _ H), !ptrs_plug. cbn. rewrite elem_of_cons. set_solver.
  - rewrite K3 by done. apply H.
  - intros q Hq. apply (r_brk _ _ _ _ _ H). apply elem_of_dom. rewrite <- Hdom. by apply elem_of_dom.
Qed.

(** A red-black search tree with the entries [l] at the addresses [X]. *)
Definition shape (X : gset nat) (s : rbtree) (l : list entry) (t : tree) (np : option nat) : Prop :=
  rep nl X s t np /\ items t = l /\ tcol t = BLACK /\ exists m, rb m t.
Definition good (X : gset nat) (s : rbtree) (l : list entry) : Prop := sorted l /\ exists t np, shape X s l t np.

Lemma find_run X s l t np k : sorted l -> shape X s l t np ->
  let '(z, t') := seek k t [] in
  rbtree_search k s = Some (ptr nl t', s) /\ t = plug z t' /\ l = before z ++ items t' ++ after z /\
  around k (before z) (after z) /\ (t' = Leaf \/ exists p c a v b, t' = Nd p c a k v b).
Proof.
  intros Hs (H & <- & _ & _). pose proof (seek_plug k t []) as Hp. pose proof (search_run k t (size (heap s)) [] s np H ltac:(pose proof (height_ptrs t); pose proof (rep_rounds _ _ _ H); lia)) as Hr.
  destruct (seek_around k t [] Hs) as [Ha Hk]; [by split; constructor|]. destruct (seek k t []) as [z t']. cbn in *.
  split_and!; [unfold rbtree_search; run (run_rounds _ _ _ H); run (run_root _ _ _ H); exact Hr|done|by rewrite <- Hp, items_around|done|done].
Qed.

Lemma insert_run X s l p k v : good X s l -> heap s !! p = Some (Node RED None None None (Some k) v) ->
  p <> nl -> p ∉ X -> Forall (fun e => e.1 <> k) l ->
  exists s' A B, rbtree_insert p s = Some (tt, s') /\ l = A ++ B /\ around k A B /\ good ({[p]} ∪ X) s' (A ++ (k, v) :: B) /\ keeps s s'.
Proof.
  intros [Hs (t & np & H)] Hp Hpn HpX Hk. pose proof (find_run X s l t np k Hs H) as Hf.
  destruct H as (H & Hl & Hc & m & Hm). pose proof (place_run k t (size (heap s)) [] s np H (rep_rounds _ _ _ H)) as Hr.
  destruct (seek k t []) as [z t']. destruct Hf as (_ & Hz & Hl' & Ha & Hk'). unfold rbtree_insert.
  run (run_nil _ _ _ H). run (run_root _ _ _ H). rewrite (bind_some (key_of p) _ s k s) by (by apply (load_run _ _ _ _ _ Hp)).
  run (run_rounds _ _ _ H). cbn [ptrz] in Hr. run Hr. destruct Hk' as [->|(p' & c & a & v' & b & ->)].
  2: { exfalso. rewrite Hl', !Forall_app in Hk. destruct Hk as (_ & Hk & _). cbn in Hk. apply Forall_app in Hk as [_ Hk].
    inversion Hk; subst. done. }
  subst t. destruct (rb_unplug m z Leaf Hm Hc) as (n & Hn & Hzn). cbn in Hn. subst n. 
  destruct (link_run X s z np p k v H Hp) as (s1 & E1 & R1 & K1); [|done|].
  { apply not_elem_of_cons. split; [done|]. intros Hin. apply HpX, (r_set _ _ _ _ _ H). rewrite ptrs_plug. done. }
  rewrite E1. destruct (insert_fixup_run s1 z (Nd p RED Leaf k v Leaf) np 0 R1) as (s2 & t2 & E2 & R2 & K2 & I2 & C2 & M2); try done.
  exists s2, (before z), (after z). cbn [ptr] in E2. split_and!; [done|by rewrite Hl'|done| |by etrans].
  split.
  - apply around_sorted; [|done]. by rewrite Hl' in Hs.
  - exists t2, np. split_and!; try done. rewrite I2, items_around. done.
Qed.

End Operations.

(** *** Deletion *)

Section Deletion.

Context {nl : nat} {X : gset nat}.

Ltac run E := rewrite (bind_some _ _ _ _ _ E).
Ltac run_ex E s R K := let Hs := fresh in destruct E as (s & Hs & R & K); rewrite (bind_some _ _ _ _ _ Hs); clear Hs.

(** What is left to do at the end of the loop: blacken the focus. *)
Definition exits (z : list frame) (t : tree) : Prop := exists m, rb m (plug z (blacken t)) /\ tcol (plug z (blacken t)) = BLACK.
(** The focus lacks a black node. *)
Definition lacks (z : list frame) (t : tree) : Prop := tcol t = BLACK /\ exists n, rb n t /\ rbz BLACK (S n) z.
(** The state after a step of the loop on a path [z0] with entries [l]; the loop
    goes on only below a black parent. *)
Definition headed (c : color) (z : list frame) : Prop := match z with [] => False | f :: _ => f_col f = c end.
Definition stepped (s : rbtree) (l : list entry) (z0 : list frame) (np : option nat) (s' : rbtree) (t' : tree) : Prop :=
  exists z', rep nl X s' (plug z' t') np /\ keeps s s' /\ items (plug z' t') = l /\ t' <> Leaf /\
    ((lacks z' t' /\ (length z' < length z0)%nat /\ headed BLACK z0) \/ (exits z' t' /\ (tcol t' = RED \/ z' = []))).

Lemma node_ne d p c a k v b : node d p c a k v b <> Leaf.
Proof. by destruct d. Qed.
Lemma blacken_node d p c a k v b : blacken (node d p c a k v b) = node d p BLACK a k v b.
Proof. by destruct d. Qed.
Lemma items_blacken t : items (blacken t) = items t.
Proof. by destruct t. Qed.
Lemma red_node d t : tcol t = RED -> exists p a k v b, t = node d p RED a k v b.
Proof.
  destruct t as [|p c l k v r]; [done|]. cbn. intros ->. destruct d; [by exists p, l, k, v, r|by exists p, r, k, v, l].
Qed.
Lemma black_node d n t : tcol t = BLACK -> rb (S n) t -> exists p a k v b, t = node d p BLACK a k v b /\ rb n a /\ rb n b.
Proof.
  destruct t as [|p c l k v r]; [done|]. cbn. intros -> [Hl Hr].
  destruct d; [by exists p, l, k, v, r|by exists p, r, k, v, l].
Qed.

(** The last rotation: the sibling is black, its far child red. *)
Lemma delete_fix_last s z np d t p c k v w a kw vw b n :
  rep nl X s (plug (Frame d p c k v (node d w BLACK a kw vw b) :: z) t) np -> (t = Leaf -> np = Some p) ->
  rb n t -> rb n a -> rb n b -> tcol b = RED -> rbz c (match c with RED => S n | BLACK => S (S n) end) z ->
  exists s' t', (p ← parent_of (ptr nl t); cp ← color_of p; set_color w cp;; set_color p BLACK;;
      f ← child_of (opp d) w; set_color f BLACK;; rotate d p;; get_root) s = Some (ptr nl t', s') /\
    stepped s (items (plug (Frame d p c k v (node d w BLACK a kw vw b) :: z) t))
      (Frame d p c k v (node d w BLACK a kw vw b) :: z) np s' t'.
Proof.
  intros H Hnp Ht Ha Hb Hcb Hz. run (run_parent _ _ _ _ H Hnp). cbn [ptrz f_ptr].
  rewrite plug_cons in H |- *. run (run_node_color _ _ _ _ _ _ _ _ _ _ H).
  rewrite <- plug_cons, plug_sib in H. run_ex (run_set_color _ _ _ _ _ _ c _ _ _ _ H) s1 R1 K1.
  rewrite <- plug_sib, plug_cons in R1. run_ex (run_set_color _ _ _ _ _ _ BLACK _ _ _ _ R1) s2 R2 K2.
  rewrite <- plug_cons, plug_sib in R2. run (run_child_opp _ _ _ _ _ _ _ _ _ _ R2).
  destruct (red_node d b Hcb) as (q & ba & kq & vq & bb & ->). rewrite ptr_node.
  rewrite <- plug_cons, plug_sib in R2. run_ex (run_set_color _ _ _ _ _ _ BLACK _ _ _ _ R2) s3 R3 K3.
  rewrite <- plug_sib, plug_cons, <- plug_sib, plug_cons in R3. run_ex (rotate_run _ _ _ _ _ _ _ _ _ _ _ _ _ _ _ R3) s4 R4 K4.
  set (t' := plug z _) in R4. rewrite (run_root _ _ _ R4). exists s4, t'. split; [done|]. exists [].
  assert (exists m, rb m t' /\ tcol t' = BLACK) as (m & Hm & Hc).
  { apply rb_red in Hb as (_ & _ & Hb1 & Hb2).
    apply (rb_plug (match c with RED => S n | BLACK => S (S n) end)); [|by rewrite tcol_node].
    destruct c; [apply rb_red; rewrite !tcol_node|apply rb_black]; split_and!; try done; by apply rb_black. }
  split_and!; [exact R4|by etrans; [|etrans; [|etrans]]| | |].
  - cbn [plug]. apply items_plug. rewrite (items_rotate d p c t k v w BLACK a kw vw (node d q BLACK ba kq vq bb)).
    apply items_node_ext; [done|]. apply items_node_ext; [done|]. by apply items_node_ext.
  - intros Hl. pose proof (r_root _ _ _ _ _ R4) as Hr. rewrite Hl in Hm, Hc. clear - Hl. unfold t' in Hl.
    apply (f_equal ptrs) in Hl. pose proof (ptrs_plug z (node d w c (node d p BLACK t k v a) kw vw (node d q BLACK ba kq vq bb))) as Hp.
    rewrite Hl, ptrs_node in Hp. by apply Permutation_nil_l in Hp.
  - right. split; [|by right]. exists m. cbn [plug]. by destruct t' as [|? []].
Qed.

(** The two children of the sibling are read left first. *)
Lemma both_black s z np d w c a kw vw b {A} (m1 m2 : M A) : rep nl X s (plug z (node d w c a kw vw b)) np ->
  (l ← child_of L w; cl ← color_of l; r ← child_of R w; cr ← color_of r;
   if decide (cl = BLACK /\ cr = BLACK) then m1 else m2) s =
  (if decide (tcol a = BLACK /\ tcol b = BLACK) then m1 else m2) s.
Proof.
  intros H. assert (color_of (ptr nl a) s = Some (tcol a, s)) as Ea by (rewrite <- plug_cons in H; apply (run_color _ _ _ _ H)).
  assert (color_of (ptr nl b) s = Some (tcol b, s)) as Eb by (rewrite <- plug_cons, plug_sib in H; apply (run_color _ _ _ _ H)).
  pose proof (run_child _ _ _ _ _ _ _ _ _ _ H) as Ca. pose proof (run_child_opp _ _ _ _ _ _ _ _ _ _ H) as Cb.
  destruct d; cbn [opp] in *; run Ca || run Cb; run Ea || run Eb; run Cb || run Ca; run Eb || run Ea; [done|].
  repeat case_decide; tauto.
Qed.

(** The body after a red sibling was rotated away. *)
Definition delete_fix_black (d : dir) (x w : nat) : M nat :=
  l ← child_of L w; cl ← color_of l; r ← child_of R w; cr ← color_of r;
  if decide (cl = BLACK /\ cr = BLACK) then set_color w RED;; parent_of x
  else
    f ← child_of (opp d) w; cf ← color_of f;
    w ← (if decide (cf = BLACK) then
           n ← child_of d w; set_color n BLACK;; set_color w RED;; rotate (opp d) w;;
           p ← parent_of x; child_of (opp d) p
         else mret w);
    p ← parent_of x; cp ← color_of p; set_color w cp;;
    set_color p BLACK;;
    f ← child_of (opp d) w; set_color f BLACK;;
    rotate d p;;
    get_root.

Lemma delete_fix_black_run s z np d t p c k v w a kw vw b n :
  rep nl X s (plug (Frame d p c k v (node d w BLACK a kw vw b) :: z) t) np -> (t = Leaf -> np = Some p) ->
  rb n t -> tcol t = BLACK -> rb n a -> rb n b -> rbz c (match c with RED => S n | BLACK => S (S n) end) z ->
  exists s' t', delete_fix_black d (ptr nl t) w s = Some (ptr nl t', s') /\
    stepped s (items (plug (Frame d p c k v (node d w BLACK a kw vw b) :: z) t))
      (Frame d p c k v (node d w BLACK a kw vw b) :: z) np s' t'.
Proof.
  intros H Hnp Ht Hct Ha Hb Hz. unfold delete_fix_black. pose proof H as H0. rewrite plug_sib in H.
  rewrite (both_black _ _ _ _ _ _ _ _ _ _ _ _ H). case_decide as Hbb.
  - destruct Hbb as [Hca Hcb]. run_ex (run_set_color _ _ _ _ _ _ RED _ _ _ _ H) s1 R1 K1. rewrite <- plug_sib in R1.
    rewrite (run_parent _ _ _ _ R1 Hnp). exists s1, (node d p c t k v (node d w RED a kw vw b)). rewrite ptr_node.
    split; [done|]. exists z. split_and!; [done|done|rewrite plug_cons; apply items_plug, items_node_ext; [done|by apply items_node_ext]|apply node_ne|].
    destruct c.
    + right. split; [|left; apply tcol_node]. apply rbz_weaken in Hz.
      apply (rb_plug (S n)); rewrite blacken_node; [|by rewrite tcol_node]. apply rb_black. split; [done|by apply rb_red].
    + left. split; [|split; [cbn; lia|done]]. split; [apply tcol_node|]. exists (S n). split; [|done]. apply rb_black. split; [done|by apply rb_red].
  - run (run_child_opp _ _ _ _ _ _ _ _ _ _ H). rewrite <- plug_cons, plug_sib in H. run (run_color _ _ _ _ H). rewrite <- plug_sib, plug_cons in H.
    case_decide as Hcb.
    + assert (tcol a = RED) as Hca by (destruct (tcol a); [done|tauto]). destruct (red_node d a Hca) as (u & aa & ku & vu & ab & ->).
      apply rb_red in Ha as (Hc1 & Hc2 & Ha1 & Ha2).
      pose proof (run_child _ _ _ _ _ _ _ _ _ _ H) as E1. rewrite ptr_node in E1.
      rewrite <- plug_cons in H. destruct (run_set_color _ _ _ _ _ _ BLACK _ _ _ _ H) as (s1 & E2 & R1 & K1).
      rewrite plug_cons in R1. destruct (run_set_color _ _ _ _ _ _ RED _ _ _ _ R1) as (s2 & E3 & R2 & K2).
      rewrite <- node_opp, <- (node_opp d u) in R2. destruct (rotate_run _ _ _ _ _ _ _ _ _ _ _ _ _ _ _ R2) as (s3 & E4 & R3 & K3).
      rewrite node_opp, <- plug_sib in R3. pose proof (run_parent _ _ _ _ R3 Hnp) as E5. cbn [ptrz f_ptr] in E5.
      pose proof R3 as R3'. rewrite plug_cons in R3'. pose proof (run_child_opp _ _ _ _ _ _ _ _ _ _ R3') as E6. rewrite ptr_node in E6.
      rewrite (bind_some _ _ s u s3) by (run E1; run E2; run E3; run E4; run E5; exact E6).
      destruct (delete_fix_last s3 z np d t p c k v u aa ku vu (node (opp d) w RED b kw vw ab) n) as (s4 & t' & E & z' & S1 & S2 & S3 & S4);
        try done; [by apply rb_red|apply tcol_node|].
      exists s4, t'. split; [exact E|]. exists z'. split_and!; [done|by etrans; [|etrans; [|etrans]]| |apply S4..].
      rewrite S3. cbn [plug]. apply items_plug. unfold plug1. cbn. apply items_node_ext; [done|].
      destruct d; cbn; by rewrite <- ?app_assoc.
    + rewrite ret_run. assert (tcol b = RED) as Hcb' by (by destruct (tcol b)). by apply (delete_fix_last s z np d t p c k v w a kw vw b n).
Qed.

Lemma stepped_red s s1 l z z1 np s' t' : stepped s1 l z1 np s' t' -> headed RED z1 -> keeps s s1 ->
  stepped s l z np s' t'.
Proof.
  intros (z' & H1 & H2 & H3 & H4 & H5) Hh Hk. exists z'. split_and!; [done|by etrans|done|done|].
  destruct H5 as [(_ & _ & H5)|H5]; [|by right]. destruct z1 as [|f z1]; [done|]. cbn in *. congruence.
Qed.

Lemma delete_fix_run s z np d t p c k v sib n :
  rep nl X s (plug (Frame d p c k v sib :: z) t) np -> (t = Leaf -> np = Some p) -> rb n t -> tcol t = BLACK ->
  rbz BLACK (S n) (Frame d p c k v sib :: z) ->
  exists s' t', delete_fix d (ptr nl t) s = Some (ptr nl t', s') /\
    stepped s (items (plug (Frame d p c k v sib :: z) t)) (Frame d p c k v sib :: z) np s' t'.
Proof.
  intros H Hnp Ht Hct [Hs Hz]. cbn [f_sib f_col] in *. unfold delete_fix. run (run_parent _ _ _ _ H Hnp). cbn [ptrz f_ptr].
  pose proof H as H0. rewrite plug_cons in H. run (run_child_opp _ _ _ _ _ _ _ _ _ _ H).
  rewrite <- plug_cons, plug_sib in H. run (run_color _ _ _ _ H). destruct (tcol sib) eqn:Hcs.
  - rewrite decide_True by done. destruct c; [by destruct Hz as (_ & ? & _)|].
    destruct (red_node d sib Hcs) as (w & a & kw & vw & b & ->). apply rb_red in Hs as (Hca & Hcb & Ha & Hb).
    rewrite ptr_node. destruct (run_set_color _ _ _ _ _ _ BLACK _ _ _ _ H) as (s1 & E1 & R1 & K1).
    rewrite <- plug_sib, plug_cons in R1. destruct (run_set_color _ _ _ _ _ _ RED _ _ _ _ R1) as (s2 & E2 & R2 & K2).
    destruct (rotate_run _ _ _ _ _ _ _ _ _ _ _ _ _ _ _ R2) as (s3 & E3 & R3 & K3). rewrite <- plug_cons in R3.
    pose proof (run_child_opp _ _ _ _ _ _ _ _ _ _ R3) as E5. rewrite <- plug_cons in R3.
    pose proof (run_parent _ _ _ _ R3 Hnp) as E4. cbn [ptrz f_ptr] in E4.
    rewrite (bind_some _ _ s (ptr nl a) s3) by (run E1; run E2; run E3; run E4; exact E5).
    destruct (black_node d n a Hca Ha) as (w' & a1 & k1 & v1 & b1 & -> & Ha1 & Hb1). rewrite ptr_node.
    destruct (delete_fix_black_run s3 _ np d t p RED k v w' a1 k1 v1 b1 n R3 Hnp Ht Hct Ha1 Hb1) as (s' & t' & E & Hst); [done|].
    rewrite plug_cons, <- (items_plug z _ _ (items_rotate d p BLACK t k v w RED (node d w' BLACK a1 k1 v1 b1) kw vw b w p BLACK RED)).
    exists s', t'. split; [exact E|]. apply (stepped_red _ _ _ _ _ _ _ _ Hst eq_refl). by etrans; [|etrans].
  - rewrite decide_False by done. rewrite ret_run. destruct (black_node d n sib Hcs Hs) as (w & a & kw & vw & b & -> & Ha & Hb).
    rewrite ptr_node. destruct (delete_fix_black_run s z np d t p c k v w a kw vw b n H0 Hnp Ht Hct Ha Hb) as (s' & t' & E & Hst).
    { destruct c; [by destruct Hz as (_ & _ & ?)|done]. }
    exists s', t'. by split.
Qed.

Lemma ptr_plug_in f z t : ptr nl (plug (f :: z) t) ∈ ptrsz (f :: z).
Proof.
  revert f t. induction z as [|g z IH]; intros f t; cbn [plug].
  - unfold plug1. rewrite ptr_node. left.
  - unfold ptrsz. cbn. right. apply elem_of_app. right. apply (IH g (plug1 f t)).
Qed.
Lemma not_root s f z t np : rep nl X s (plug (f :: z) t) np -> ptr nl t <> ptr nl (plug (f :: z) t).
Proof.
  intros H He. pose proof (ptr_plug_in f z t) as Hin. rewrite <- He in Hin. pose proof (rep_nodup _ _ _ _ H) as Hd.
  apart Hd. destruct t; cbn in *; [done|]. 
  match goal with D : disj _ _ |- _ => apply (D p) end; [left|done].
Qed.

Lemma delete_loop_run fuel : forall s z t np,
  rep nl X s (plug z t) np -> (t = Leaf -> np = Some (ptrz nl z)) ->
  ((lacks z t /\ (length z < fuel)%nat) \/ (exits z t /\ (tcol t = RED \/ z = []) /\ (0 < fuel)%nat)) ->
  exists s' z' t', delete_fixup_loop fuel (ptr nl t) s = Some (ptr nl t', s') /\ rep nl X s' (plug z' t') np /\ keeps s s' /\
    items (plug z' t') = items (plug z t) /\ exits z' t'.
Proof.
  induction fuel as [|fuel IH]; intros s z t np H Hnp Hc; [lia|]. cbn [delete_fixup_loop]. run (run_root _ _ _ H).
  destruct z as [|[d p c k v sib] z].
  { rewrite decide_False by (cbn [plug]; auto). exists s, [], t. split_and!; try done.
    destruct Hc as [[(Hb & n & Hn & _) _]|[? _]]; [|done]. exists n. cbn [plug]. by destruct t as [|? []]. }
  rewrite decide_True by (exact (not_root _ _ _ _ _ H)). run (run_color _ _ _ _ H). case_decide as Hb.
  2: { exists s, (Frame d p c k v sib :: z), t. split_and!; try done. destruct Hc as [[(? & _) _]|[? _]]; done. }
  destruct Hc as [[(_ & n & Hn & Hz) Hf]|(_ & [?|?] & _)]; [|congruence|done].
  run (run_parent _ _ _ _ H Hnp). cbn [ptrz f_ptr].
  destruct (delete_fix_run s z np d t p c k v sib n H Hnp Hn Hb Hz) as (s1 & t1 & E1 & z1 & R1 & K1 & I1 & N1 & C1).
  assert ((l ← child_of L p; x ← (if decide (ptr nl t = l) then delete_fix L (ptr nl t) else delete_fix R (ptr nl t));
    delete_fixup_loop fuel x) s = (x ← delete_fix d (ptr nl t); delete_fixup_loop fuel x) s) as ->.
  { pose proof H as H'. rewrite plug_cons in H'. destruct d.
    - run (run_child _ _ _ _ _ _ _ _ _ _ H'). by rewrite decide_True.
    - run (run_child_opp _ _ _ _ _ _ _ _ _ _ H'). rewrite decide_False; [done|]. rewrite <- node_opp in H'.
      intros He. symmetry in He. revert He. apply (ptr_ne _ _ _ _ _ _ _ _ _ _ H'). intros ->. by destruct Hz. }
  run E1. destruct (IH s1 z1 t1 np R1) as (s2 & z2 & t2 & E2 & R2 & K2 & I2 & C2); [done| |].
  { destruct C1 as [(C1 & Hl & _)|(C1 & Hl)]; [left; cbn in *; split; [done|lia]|right]. cbn in Hf. split_and!; [done|done|lia]. }
  exists s2, z2, t2. split_and!; [done|done|by etrans|by rewrite I2|done].
Qed.

(** The sentinel keeps its colour. *)
Lemma run_set_color_nil s t np : rep nl X s t np ->
  exists s', set_color nl BLACK s = Some (tt, s') /\ rep nl X s' t np /\ keeps s s'.
Proof.
  intros H. destruct (r_nil _ _ _ _ _ H) as (n & Hn & Hc & Hp). pose proof (r_nodup _ _ _ _ _ H) as Hd.
  apply NoDup_cons in Hd as [Hd _]. unfold set_color. rewrite (store_run _ _ _ _ Hn). eexists. split; [done|]. split; [split|]; cbn; try apply H.
  - eapply tree_in_ext; [|apply H]. intros q Hq. apply lookup_insert_ne. by intros <-.
  - rewrite lookup_insert_eq. eauto.
  - intros q Hq. apply (r_brk _ _ _ _ _ H). destruct (decide (q = nl)) as [->|Hne]; [by eexists|]. by rewrite lookup_insert_ne in Hq.
  - split; [done|]. cbn. apply dom_insert_lookup_L. by eexists.
Qed.

Lemma delete_fixup_run s z t np : rep nl X s (plug z t) np -> (t = Leaf -> np = Some (ptrz nl z)) ->
  (lacks z t \/ exits z t /\ (tcol t = RED \/ z = [])) ->
  exists s' t', rbtree_delete_fixup (ptr nl t) s = Some (tt, s') /\ rep nl X s' t' np /\ keeps s s' /\
    items t' = items (plug z t) /\ tcol t' = BLACK /\ exists m, rb m t'.
Proof.
  intros H Hnp Hc. unfold rbtree_delete_fixup. run (run_rounds _ _ _ H).
  destruct (delete_loop_run (S (size (heap s))) s z t np H Hnp) as (s1 & z1 & t1 & E1 & R1 & K1 & I1 & m & C1 & C2).
  { pose proof (path_rounds _ _ _ _ H). destruct Hc as [?|[? ?]]; [left|right]; split_and!; try done; lia. }
  run E1. assert (exists s', set_color (ptr nl t1) BLACK s1 = Some (tt, s') /\ rep nl X s' (plug z1 (blacken t1)) np /\ keeps s1 s')
    as (s2 & E2 & R2 & K2).
  { destruct t1 as [|p c l k v r]; [by apply run_set_color_nil|]. by apply (run_set_color s1 z1 np L p c BLACK l k v r). }
  exists s2, (plug z1 (blacken t1)). split_and!; [done|done|by etrans| |done|by exists m].
  rewrite <- I1. apply items_plug, items_blacken.
Qed.

End Deletion.

Section Delete.

Context {nl : nat}.

Ltac run E := rewrite (bind_some _ _ _ _ _ E).

(** The sentinel's parent field after a node with the only child [x] left the hole of [z]. *)
Definition np_after (z : list frame) (x : tree) (np : option nat) : option nat :=
  match x with Leaf => Some (ptrz nl z) | _ => np end.

(** [x->parent = y->parent], whether [x] is a node or the sentinel. *)
Lemma run_set_parent X s z np par x q : rep nl X s z np -> tree_in nl (heap s) par x -> nl ∉ ptrs x -> NoDup (ptrs x) ->
  exists h, set_parent (ptr nl x) q s = Some (tt, Tree h (brk s) (root s) (nil s)) /\
    (forall p, p ∉ nl :: ptrs x -> h !! p = heap s !! p) /\ tree_in nl h q x /\ dom h = dom (heap s) /\
    exists n, h !! nl = Some n /\ col n = BLACK /\ parent n = match x with Leaf => Some q | _ => np end.
Proof.
  intros H Hx Hn Hd. destruct (r_nil _ _ _ _ _ H) as (n & Hl & Hc & Hp). destruct x as [|p c l k v r].
  - exists (<[nl := with_parent q n]> (heap s)). split_and!; [apply (store_run _ _ _ _ Hl)| |done| |].
    + intros p Hp'. apply lookup_insert_ne. intros <-. apply Hp'. left.
    + apply dom_insert_lookup_L. by eexists.
    + exists (with_parent q n). by rewrite lookup_insert_eq.
  - exists (adopt (nl := nl) (Nd p c l k v r) q (heap s)). split_and!.
    + destruct Hx as [Hx _]. unfold set_parent. cbn [ptr]. by rewrite (store_run _ _ _ _ Hx).
    + intros p' Hp'. apply adopt_lookup. intros Hin. apply Hp'. by right.
    + by apply (adopt_tree _ _ _ par).
    + by apply (dom_adopt _ _ _ par).
    + exists n. by rewrite adopt_lookup.
Qed.

(** A node with at most one child leaves the tree, its child takes its place. *)
Lemma splice_run X s z np d y c x k v : rep nl X s (plug z (node d y c x k v Leaf)) np ->
  exists s', (forall A (K : M A), (set_parent (ptr nl x) (ptrz nl z);; relink L y (ptrz nl z) (ptr nl x);; K) s = K s') /\
    rep nl (X ∖ {[y]}) s' (plug z x) (np_after z x np) /\ keeps s s' /\
    heap s' !! y = Some (cell d c (ptr nl x) nl (ptrz nl z) k v) /\ y ∉ nl :: ptrs (plug z x).
Proof.
  intros H. pose proof (rep_cell _ _ _ _ _ _ _ _ _ _ H) as Hy. pose proof (rep_focus _ _ _ _ H) as [Hz Ht].
  rewrite ptr_node in Hz. apply tree_in_node in Ht as (_ & Hx & _). pose proof (rep_nodup _ _ _ _ H) as Hd.
  rewrite ptrs_node in Hd. cbn in Hd. rewrite app_nil_r in Hd. apart Hd.
  destruct (run_set_parent X s _ np _ x (ptrz nl z) H Hx) as (h1 & E1 & K1 & T1 & D1 & N1); [done..|].
  assert (path_in nl h1 z y) as Hz1.
  { eapply path_in_ext; [|exact Hz]. intros q Hq. apply K1. differ. }
  assert (y ∉ nl :: ptrsz z) as Hyz by differ.
  set (h2 := hang nl z (ptr nl x) h1). set (rt := match z with [] => ptr nl x | _ => root s end).
  assert (forall q, q ∉ nl :: ptrs x -> q ∉ ptrsz z -> h2 !! q = heap s !! q) as K2.
  { intros q Hq Hq'. unfold h2. rewrite hang_lookup by done. by apply K1. }
  assert (dom h2 = dom (heap s)) as Hdom by (unfold h2; by rewrite (dom_hang h1 z y)).
  assert (y ∉ nl :: ptrs (plug z x)) as Hyp by (rewrite ptrs_plug; differ).
  exists (Tree h2 (brk s) rt (nil s)). split_and!.
  - intros A K. run E1. run (run_relink (Tree h1 (brk s) (root s) (nil s)) z L y (ptr nl x) (r_nl _ _ _ _ _ H) Hz1 Hyz ltac:(done)). done.
  - split; cbn [heap brk root nil].
    + apply tree_in_plug. split; [by apply (path_in_hang _ h1 z y)|]. eapply tree_in_ext; [|exact T1].
      intros q Hq. unfold h2. apply hang_lookup. differ.
    + apply H.
    + unfold rt. destruct z as [|f z]; [done|]. rewrite (r_root _ _ _ _ _ H). cbn [plug]. apply ptr_plug. unfold plug1. by rewrite !ptr_node.
    + rewrite ptrs_plug. apply NoDup_cons. split; [differ|]. apply nodup_app. done.
    + intros q. rewrite elem_of_difference, elem_of_singleton, <- (r_set _ _ _ _ _ H), !ptrs_plug, ptrs_node. cbn. rewrite app_nil_r.
      split; [|set_solver]. intros Hq. split; [set_solver|]. intros ->. apply Hyp. right. by rewrite ptrs_plug.
    + unfold h2. rewrite hang_lookup by done. destruct N1 as (n & ? & ? & Hp). exists n. split_and!; [done|done|]. rewrite Hp. by destruct x.
    + intros q Hq. apply (r_brk _ _ _ _ _ H). apply elem_of_dom. rewrite <- Hdom. by apply elem_of_dom.
  - done.
  - cbn. rewrite K2 by differ. exact Hy.
  - exact Hyp.
Qed.

Lemma ptr_nil X s z t np : rep nl X s (plug z t) np -> ptr nl t = nl <-> t = Leaf.
Proof.
  intros H. split; [|by intros ->]. pose proof (rep_nodup _ _ _ _ H) as Hd. apply NoDup_cons in Hd as [Hd _].
  destruct t; [done|]. cbn. intros ->. exfalso. apply Hd. left.
Qed.
Lemma child_focus d z p c a k v b : plug z (node d p c a k v b) = plug (Frame d p c k v b :: z) a.
Proof. done. Qed.

(** Taking [y] out, up to the exchange of the entries. *)
Lemma unlink_run X s z np d y c x k v : rep nl X s (plug z (node d y c x k v Leaf)) np ->
  exists s', (forall A (K : nat -> M A), (yl ← child_of L y; yr ← child_of R y;
      let x := if decide (yl <> nl) then yl else if decide (yr <> nl) then yr else nl in
      q ← parent_of y; set_parent x q;; relink L y q x;; K x) s = K (ptr nl x) s') /\
    rep nl (X ∖ {[y]}) s' (plug z x) (np_after z x np) /\ keeps s s' /\
    heap s' !! y = Some (cell d c (ptr nl x) nl (ptrz nl z) k v) /\ y ∉ nl :: ptrs (plug z x).
Proof.
  intros H. destruct (splice_run X s z np d y c x k v H) as (s' & E & R). exists s'. split; [|exact R]. intros A K.
  pose proof (run_child _ _ _ _ _ _ _ _ _ _ H) as E1. pose proof (run_child_opp _ _ _ _ _ _ _ _ _ _ H) as E2.
  pose proof H as Hx. rewrite child_focus in Hx. apply ptr_nil in Hx.
  assert (forall yl yr, (yl = ptr nl x /\ yr = nl) \/ (yl = nl /\ yr = ptr nl x) ->
    (let x := if decide (yl <> nl) then yl else if decide (yr <> nl) then yr else nl in
      q ← parent_of y; set_parent x q;; relink L y q x;; K x) s = K (ptr nl x) s') as HK.
  { intros yl yr Hy. assert ((if decide (yl <> nl) then yl else if decide (yr <> nl) then yr else nl) = ptr nl x) as ->.
    { destruct Hy as [[-> ->]|[-> ->]]; by repeat case_decide. }
    cbv zeta. run (run_node_parent _ _ _ _ _ _ _ _ _ _ H). apply E. }
  destruct d; cbn [opp] in *; [run E1; run E2|run E2; run E1]; apply HK; auto.
Qed.

(** The colours after [y] left, its child [x] in its place. *)
Lemma delete_tail X s z np x y n m d k v : rep nl X s (plug z x) np -> (x = Leaf -> np = Some (ptrz nl z)) ->
  heap s !! y = Some n -> rb m (node d y (col n) x k v Leaf) -> rbz (col n) m z ->
  exists s' t', (c ← color_of y; (if decide (c = BLACK) then rbtree_delete_fixup (ptr nl x) else mret tt);; mret y) s = Some (y, s') /\
    rep nl X s' t' np /\ keeps s s' /\ items t' = items (plug z x) /\ tcol t' = BLACK /\ exists m', rb m' t'.
Proof.
  intros H Hnp Hy Hm Hz. rewrite (bind_some (color_of y) _ _ _ _ (load_run _ y s n _ Hy eq_refl)). case_decide as Hc.
  - rewrite Hc in *. apply rb_black_inv in Hm as (m' & -> & Hx & Hl).
    destruct (delete_fixup_run s z x np H Hnp) as (s' & t' & E & R).
    { destruct (tcol x) eqn:Hcx; [right|left; by split; [|exists m']]. split; [|by left].
      apply (rb_plug (S m')); destruct x as [|? [] ????]; try done. by destruct Hx as (_ & _ & ? & ?). }
    exists s', t'. split; [by run E|exact R].
  - assert (col n = RED) as Hc' by (by destruct (col n)). rewrite Hc' in *. apply rb_red in Hm as (Hx & _ & Hm & _).
    rewrite ret_run. exists s, (plug z x). apply rbz_weaken in Hz. rewrite <- Hx in Hz. destruct (rb_plug m z x Hm Hz) as (m' & ? & ?).
    split_and!; try done. by exists m'.
Qed.

Lemma plug_app z z' t : plug (z ++ z') t = plug z' (plug z t).
Proof. revert t. induction z as [|f z IH]; intros t; cbn; [done|apply IH]. Qed.
Lemma rbz_entry c n z d p c' k v sib z0 k' v' :
  rbz c n (z ++ Frame d p c' k v sib :: z0) -> rbz c n (z ++ Frame d p c' k' v' sib :: z0).
Proof.
  revert c n. induction z as [|f z IH]; intros c n; cbn; [done|]. destruct (f_col f).
  - intros (? & ? & ? & ?). split_and!; eauto.
  - intros [? ?]. split; eauto.
Qed.

(** [rbtree_mini] goes left to the end. *)
Lemma mini_run X t : forall fuel z s np, rep nl X s (plug z t) np -> t <> Leaf -> (length (ptrs t) <= fuel)%nat ->
  exists zl y c k v r, mini_loop fuel (ptr nl t) s = Some (y, s) /\ t = plug zl (Nd y c Leaf k v r) /\ before zl = [].
Proof.
  induction t as [|p c l IHl k v r _]; intros fuel z s np H Hl Hf; [done|]. destruct fuel as [|fuel]; [cbn in Hf; lia|].
  cbn [mini_loop ptr]. run (run_child s z np L p c l k v r H). run (run_nil _ _ _ H).
  pose proof (ptr_nil X s (Frame L p c k v r :: z) l np H) as Hn. case_decide as Hd.
  - cbn in Hf. rewrite length_app in Hf.
    destruct (IHl fuel (Frame L p c k v r :: z) s np H) as (zl & y & c' & k' & v' & r' & E & -> & B); [by intros ->; apply Hd, Hn|lia|].
    exists (zl ++ [Frame L p c k v r]), y, c', k', v', r'. split_and!; [done|by rewrite plug_app|].
    clear - B. induction zl as [|f zl IH]; [done|]. cbn in *. apply app_nil in B as [B ->]. by rewrite IH.
  - assert (l = Leaf) as -> by (by apply Hn). by exists [], p, c, k, v, r.
Qed.

(** A cell outside of the tree does not matter. *)
Lemma rep_outside X s t np p n n' : rep nl X s t np -> p ∉ nl :: ptrs t -> heap s !! p = Some n ->
  rep nl X (Tree (<[p := n']> (heap s)) (brk s) (root s) (nil s)) t np.
Proof.
  intros H Hp Hn. pose proof (rep_fresh _ _ _ _ p n' H Hp) as Hf. rewrite Nat.max_l in Hf; [done|].
  apply (r_brk _ _ _ _ _ H). by eexists.
Qed.

(** [y] and [z] exchange their entries, [y] outside of the tree. *)
Lemma swap_run X s z0 np z c l k v r d y cy a b par ky vy :
  rep nl X s (plug z0 (Nd z c l k v r)) np -> y ∉ nl :: ptrs (plug z0 (Nd z c l k v r)) -> heap s !! y = Some (cell d cy a b par ky vy) ->
  exists s', (kz ← key_of z; vz ← value_of z; ky ← key_of y; vy ← value_of y;
      store z (with_entry (Some ky) vy);; store y (with_entry (Some kz) vz)) s = Some (tt, s') /\
    rep nl X s' (plug z0 (Nd z c l ky vy r)) np /\ keeps s s' /\ heap s' !! y = Some (cell d cy a b par k v).
Proof.
  intros H Hy Hc. run (run_key s z0 np L z c l k v r H). run (run_value s z0 np L z c l k v r H).
  rewrite (bind_some (key_of y) _ s ky s) by (apply (load_run _ _ _ _ _ Hc); by destruct d).
  rewrite (bind_some (value_of y) _ s vy s) by (apply (load_run _ _ _ _ _ Hc); by destruct d).
  destruct (run_store s z0 np (with_entry (Some ky) vy) z c l k v r c ky vy H) as (s1 & E1 & R1 & K1); [done|].
  run E1. pose proof (rep_cell s z0 np L z c l k v r H) as Hz. rewrite (store_run _ _ _ _ Hz) in E1. injection E1 as <-.
  assert (z <> y) as Hne by (intros ->; apply Hy; right; rewrite ptrs_plug; apply elem_of_app; left; cbn; left).
  eassert (heap (Tree _ _ _ _) !! y = Some _) as Hc1 by (cbn; rewrite lookup_insert_ne by done; exact Hc).
  rewrite (store_run y _ (Tree _ _ _ _) _ Hc1). eexists. split_and!; [reflexivity| | |].
  - eapply (rep_outside X); [exact R1| |exact Hc1]. rewrite ptrs_plug in Hy |- *. exact Hy.
  - etrans; [exact K1|]. split; [done|]. apply dom_insert_lookup_L. by eexists.
  - cbn. rewrite lookup_insert_eq. by destruct d.
Qed.

(** [rbtree_delete] after [y] was taken out. *)
Definition delete_rest (z y x : nat) : M nat :=
  (if decide (y <> z) then
     kz ← key_of z; vz ← value_of z; ky ← key_of y; vy ← value_of y;
     store z (with_entry (Some ky) vy);; store y (with_entry (Some kz) vz)
   else mret tt);;
  c ← color_of y;
  (if decide (c = BLACK) then rbtree_delete_fixup x else mret tt);;
  mret y.

Lemma delete_run X s z0 np z c l k v r m : rep nl X s (plug z0 (Nd z c l k v r)) np ->
  rb m (plug z0 (Nd z c l k v r)) -> tcol (plug z0 (Nd z c l k v r)) = BLACK ->
  exists s' t' y np', rbtree_delete z s = Some (y, s') /\ y ∈ X /\ rep nl (X ∖ {[y]}) s' t' np' /\ keeps s s' /\
    items t' = before z0 ++ (items l ++ items r) ++ after z0 /\ tcol t' = BLACK /\ exists m', rb m' t'.
Proof.
  intros H Hm Hc. unfold rbtree_delete. run (run_nil _ _ _ H).
  run (run_child s z0 np L z c l k v r H). run (run_child_opp s z0 np L z c l k v r H).
  pose proof (ptr_nil X s (Frame L z c k v r :: z0) l np H) as Hl. pose proof (ptr_nil X s (Frame R z c k v l :: z0) r np H) as Hr.
  assert (forall y d x c k v z0, rep nl X s (plug z0 (node d y c x k v Leaf)) np -> y ∈ X) as HX.
  { intros y d x c' k' v' z' H'. apply (r_set _ _ _ _ _ H'). rewrite ptrs_plug, ptrs_node. left. }
  case_decide as Hlr.
  - rewrite ret_run. assert (exists d x, Nd z c l k v r = node d z c x k v Leaf /\ items x = items l ++ items r) as (d & x & Ex & Ix).
    { destruct Hlr as [Hlr|Hlr]; [apply Hl in Hlr as ->; by exists R, r|apply Hr in Hlr as ->; exists L, l; split; [done|]].
      cbn. by rewrite app_nil_r. }
    rewrite Ex in *. destruct (rb_unplug m z0 _ Hm Hc) as (n & Hn & Hz). rewrite tcol_node in Hz.
    destruct (unlink_run X s z0 np d z c x k v H) as (s1 & E1 & R1 & K1 & C1 & _).
    specialize (E1 _ (delete_rest z z)). unfold delete_rest in E1. rewrite E1. rewrite decide_False by auto. rewrite ret_run.
    destruct (delete_tail _ s1 z0 _ x z _ n d k v R1 ltac:(by intros ->) C1) as (s2 & t2 & E2 & R2 & K2 & I2 & C2).
    { by destruct d. } { by destruct d. }
    exists s2, t2, z, (np_after z0 x np). split_and!; [exact E2|by eapply HX|done|by etrans|by rewrite I2, items_around, Ix|apply C2..].
  - destruct (mini_run X r (size (heap s)) (Frame R z c k v l :: z0) s np H) as (zl & y & cy & ky & vy & ry & Em & -> & Bl);
      [intros ->; apply Hlr; auto|pose proof (path_rounds _ (Frame R z c k v l :: z0) _ _ H); lia|].
    rewrite (bind_some (rbtree_successor z) _ s y s).
    2: { unfold rbtree_successor. run (run_node_parent s z0 np L z c l k v _ H). run (run_child_opp s z0 np L z c l k v _ H).
      run (run_nil _ _ _ H). rewrite decide_True by auto. exact Em. }
    set (Z := zl ++ Frame R z c k v l :: z0). assert (forall t, plug z0 (Nd z c l k v (plug zl t)) = plug Z t) as HZ
      by (intros t; unfold Z; by rewrite plug_app).
    rewrite HZ in *. destruct (rb_unplug m Z _ Hm Hc) as (n & Hn & Hz).
    destruct (unlink_run X s Z np R y cy ry ky vy H) as (s1 & E1 & R1 & K1 & C1 & N1).
    specialize (E1 _ (delete_rest z y)). unfold delete_rest in E1. rewrite E1. rewrite <- HZ in R1, N1.
    assert (z <> y) by (intros ->; apply N1; right; rewrite ptrs_plug; apply elem_of_app; left; left). rewrite decide_True by done.
    destruct (swap_run _ s1 z0 _ z c l k v _ _ y _ _ _ _ ky vy R1 N1 C1) as (s2 & E2 & R2 & K2 & C2). run E2.
    set (Z' := zl ++ Frame R z c ky vy l :: z0). replace (plug z0 _) with (plug Z' ry) in R2 by (unfold Z'; by rewrite plug_app).
    assert (ry = Leaf -> np_after Z ry np = Some (ptrz nl Z')) as Hnp by (intros ->; unfold np_after, Z, Z'; by destruct zl).
    destruct (delete_tail _ s2 Z' _ ry y _ n R ky vy R2 Hnp C2) as (s3 & t3 & E3 & R3 & K3 & I3 & C3); [exact Hn|by eapply rbz_entry|].
    exists s3, t3, y, (np_after Z ry np). split_and!; [exact E3|by eapply (HX y R)|done|by etrans; [|etrans]| |apply C3..].
    rewrite I3. unfold Z'. rewrite plug_app, !items_around, Bl. cbn. rewrite <- !app_assoc. cbn. rewrite <- !app_assoc. done.
Qed.

End Delete.

(** ** The engine *)

Section Calls.

Context {nl : nat}.

Ltac run E := rewrite (bind_some _ _ _ _ _ E).

(** Another value, the same colours. *)
Lemma rb_value m z p c l k v v' r : rb m (plug z (Nd p c l k v r)) -> tcol (plug z (Nd p c l k v r)) = BLACK ->
  exists m', rb m' (plug z (Nd p c l k v' r)) /\ tcol (plug z (Nd p c l k v' r)) = BLACK.
Proof. intros H1 H2. destruct (rb_unplug m z _ H1 H2) as (n & Hn & Hz). by apply (rb_plug n). Qed.

(** A search finds the node of the key, or the sentinel. *)
Lemma find_cases X s l k : good (nl := nl) X s l ->
  (exists z p c a v b np, rbtree_search k s = Some (p, s) /\ p <> nl /\ shape (nl := nl) X s l (plug z (Nd p c a k v b)) np /\
     l = (before z ++ items a) ++ (k, v) :: (items b ++ after z) /\
     around k (before z ++ items a) (items b ++ after z)) \/
  (rbtree_search k s = Some (nl, s) /\ Forall (fun e => e.1 <> k) l).
Proof.
  intros [Hs (t & np & H)]. pose proof (find_run X s l t np k Hs H) as Hf. destruct (seek k t []) as [z t'].
  destruct Hf as (E & -> & Hl & Ha & [->|(p & c & a & v & b & ->)]).
  - right. split; [done|]. apply around_fresh in Ha as [? ?]. rewrite Hl. cbn. by apply Forall_app.
  - left. exists z, p, c, a, v, b, np. assert (l = (before z ++ items a) ++ (k, v) :: (items b ++ after z)) as Hl'.
    { rewrite Hl. cbn. by rewrite <- !app_assoc. }
    split_and!; [done| |done|done|].
    + destruct H as (H & _). pose proof (rep_nodup _ _ _ _ H) as Hd. intros ->. apply NoDup_cons in Hd as [Hd _]. apply Hd. left.
    + rewrite Hl' in Hs. by apply sorted_around in Hs as [? _].
Qed.

(** The memory that is not a node of the tree. *)
Definition spare (X : gset nat) (s : rbtree) : gset nat := dom (heap s) ∖ X.

(** A new node is outside of the tree. *)
Lemma malloc_run X s l : good (nl := nl) X s l ->
  exists s', malloc_node s = Some (brk s, s') /\ good (nl := nl) X s' l /\
    heap s' !! brk s = Some (Node RED None None None None None) /\ brk s <> nl /\ brk s ∉ X /\
    spare X s' = {[brk s]} ∪ spare X s /\ spare ({[brk s]} ∪ X) s' = spare X s.
Proof.
  intros [Hs (t & np & H & Hr)]. assert (heap s !! brk s = None) as Hn.
  { destruct (heap s !! brk s) eqn:E; [|done]. pose proof (r_brk _ _ _ _ _ H (brk s) ltac:(by eexists)). lia. }
  assert (brk s ∉ nl :: ptrs t) as Hb.
  { intros Hin. apply elem_of_cons in Hin as [He|Hin].
    - destruct (r_nil _ _ _ _ _ H) as (n & Hn' & _). by rewrite <- He, Hn in Hn'.
    - destruct (tree_in_dom (nl := nl) _ nl t (brk s) (r_tree _ _ _ _ _ H) Hin) as [n Hn']. by rewrite Hn in Hn'. }
  assert (brk s ∉ X) as HX by (intros Hin; apply Hb; right; by apply (r_set _ _ _ _ _ H)).
  apply not_elem_of_dom in Hn. eexists. split_and!; [done| |apply lookup_insert_eq|by apply not_elem_of_cons in Hb as [? _]|done| |].
  - split; [done|]. exists t, np. split; [|done]. pose proof (rep_fresh X s t np _ (Node RED None None None None None) H Hb) as Hf.
    by rewrite Nat.max_r in Hf by lia.
  - unfold spare. cbn. rewrite dom_insert_L. set_solver.
  - unfold spare. cbn. rewrite dom_insert_L. set_solver.
Qed.

(** The entry of a node outside of the tree. *)
Lemma entry_run X s l p n k v : good (nl := nl) X s l -> heap s !! p = Some n -> p <> nl -> p ∉ X ->
  exists s', store p (with_entry k v) s = Some (tt, s') /\ good (nl := nl) X s' l /\
    heap s' !! p = Some (with_entry k v n) /\ dom (heap s') = dom (heap s).
Proof.
  intros [Hs (t & np & H & Hr)] Hn Hp HX. rewrite (store_run _ _ _ _ Hn). eexists.
  split_and!; [done| |apply lookup_insert_eq|apply dom_insert_lookup_L; by eexists].
  split; [done|]. exists t, np. split; [|done]. apply (rep_outside X s t np p n); [done| |done].
  apply not_elem_of_cons. split; [done|]. intros Hin. apply HX. by apply (r_set _ _ _ _ _ H).
Qed.

Lemma free_run X s t np y n : rep nl X s t np -> y ∉ nl :: ptrs t -> heap s !! y = Some n ->
  exists s', free y s = Some (tt, s') /\ rep nl X s' t np /\ heap s' = delete y (heap s).
Proof.
  intros H Hy Hn. unfold free. rewrite Hn. cbn. eexists. split_and!; [done| |done].
  apply not_elem_of_cons in Hy as [Hy Hy']. split; cbn; try apply H.
  - eapply tree_in_ext; [|apply H]. intros q Hq. apply lookup_delete_ne. by intros <-.
  - rewrite lookup_delete_ne by done. apply H.
  - intros q Hq. apply (r_brk _ _ _ _ _ H). destruct (decide (q = y)) as [->|Hne]; [by eexists|]. by rewrite lookup_delete_ne in Hq.
Qed.

(** [rbtree_delete] and the free that follows it. *)
Lemma remove_run X s z np p c a k v b l : shape (nl := nl) X s l (plug z (Nd p c a k v b)) np -> sorted l ->
  l = (before z ++ items a) ++ (k, v) :: (items b ++ after z) ->
  exists s' y, (cur ← rbtree_delete p; free cur) s = Some (tt, s') /\ y ∈ X /\ spare (X ∖ {[y]}) s' = spare X s /\
    good (nl := nl) (X ∖ {[y]}) s' ((before z ++ items a) ++ (items b ++ after z)).
Proof.
  intros (H & Hi & Hc & m & Hm) Hs Hl. destruct (delete_run X s z np p c a k v b m H Hm Hc) as (s1 & t1 & y & np1 & E1 & HX & R1 & [K1 K2] & I1 & C1).
  assert (is_Some (heap s1 !! y)) as [n Hn].
  { apply elem_of_dom. rewrite K2. apply elem_of_dom. apply (tree_in_dom (nl := nl) _ nl _ _ (r_tree _ _ _ _ _ H)). by apply (r_set _ _ _ _ _ H). }
  assert (y <> nl) as Hy.
  { intros ->. pose proof (r_nodup _ _ _ _ _ H) as Hd. apply NoDup_cons in Hd as [Hd _]. apply Hd. by apply (r_set _ _ _ _ _ H). }
  destruct (free_run _ s1 t1 np1 y n R1) as (s2 & E2 & R2 & K3); [|done|].
  { apply not_elem_of_cons. split; [done|]. intros Hin. apply (r_set _ _ _ _ _ R1) in Hin. set_solver. }
  exists s2, y. split_and!; [by run E1|done|unfold spare; rewrite K3, dom_delete_L, K2; set_solver|].
  split.
  - rewrite Hl in Hs. by apply sorted_around in Hs as [_ ?].
  - exists t1, np1. split_and!; [done| |apply C1..]. rewrite I1. by rewrite <- !app_assoc.
Qed.

(** The entries [rbtree_traversal] prints. *)
Lemma traversal_run X t : forall fuel z s np, rep nl X s (plug z t) np -> (height t < fuel)%nat ->
  traversal fuel (ptr nl t) s = Some (items t, s).
Proof.
  induction t as [|p c l IHl k v r IHr]; intros [|fuel] z s np H Hf; try lia; cbn [traversal ptr height items] in *;
    run (run_nil _ _ _ H); [by rewrite decide_False by auto|].
  pose proof (ptr_nil X s z _ np H) as Hn. rewrite decide_True by (intros He; by apply Hn in He).
  run (run_child s z np L p c l k v r H). run (IHl fuel (Frame L p c k v r :: z) s np H ltac:(lia)).
  run (run_key s z np L p c l k v r H). run (run_value s z np L p c l k v r H). run (run_child_opp s z np L p c l k v r H).
  run (IHr fuel (Frame R p c k v l :: z) s np H ltac:(lia)). done.
Qed.

(** What a good state shows: its entries in order. *)
Lemma good_traversal X s l : good (nl := nl) X s l -> rbtree_traversal s = Some (l, s).
Proof.
  intros [_ (t & np & H & <- & _)]. unfold rbtree_traversal. run (run_rounds _ _ _ H). run (run_root _ _ _ H).
  apply (traversal_run X t _ [] s np H). pose proof (height_ptrs t). pose proof (rep_rounds _ _ _ H). lia.
Qed.

(** *** The calls *)

Lemma get_run X s l k : good (nl := nl) X s l -> Forall (fun e => is_Some e.2) l ->
  kvs_rbtree_get k s = Some (to_map l !! k, s).
Proof.
  intros G Hv. unfold kvs_rbtree_get.
  destruct (find_cases X s l k G) as [(z & p & c & a & v & b & np & E & Hp & (H & _) & Hl & Ha)|[E Hk]]; run E.
  - run (run_nil _ _ _ H). rewrite decide_False by done. rewrite Hl in Hv |- *. apply Forall_app in Hv as [_ Hv].
    inversion Hv as [|? ? [v' Hv'] _]; subst. cbn in Hv'. subst v. rewrite to_map_middle, lookup_insert_eq by done.
    apply (run_value s z np L p c a k (Some v') b H).
  - destruct G as [_ (t & np & H & _)]. run (run_nil _ _ _ H). rewrite decide_True by done. by rewrite to_map_none.
Qed.

Lemma exist_run X s l k : good (nl := nl) X s l -> Forall (fun e => is_Some e.2) l ->
  kvs_rbtree_exist k s = Some (if to_map l !! k then 0 else 1, s).
Proof.
  intros G Hv. unfold kvs_rbtree_exist.
  destruct (find_cases X s l k G) as [(z & p & c & a & v & b & np & E & Hp & (H & _) & Hl & Ha)|[E Hk]]; run E.
  - run (run_nil _ _ _ H). rewrite decide_False by done. rewrite Hl in Hv |- *. apply Forall_app in Hv as [_ Hv].
    inversion Hv as [|? ? [v' Hv'] _]; subst. cbn in Hv'. subst v. by rewrite to_map_middle, lookup_insert_eq by done.
  - destruct G as [_ (t & np & H & _)]. run (run_nil _ _ _ H). rewrite decide_True by done. by rewrite to_map_none.
Qed.

(** MOD replaces the value, or loses it when the new one finds no memory. *)
Lemma mod_run X s l e k v : good (nl := nl) X s l ->
  (exists A B v0 s', l = A ++ (k, v0) :: B /\ around k A B /\
     kvs_rbtree_mod e k v s = Some (if m_val e then 0 else -2, s') /\
     good (nl := nl) X s' (A ++ (k, if m_val e then Some v else None) :: B) /\ spare X s' = spare X s) \/
  (kvs_rbtree_mod e k v s = Some (1, s) /\ Forall (fun e => e.1 <> k) l).
Proof.
  intros G. unfold kvs_rbtree_mod.
  destruct (find_cases X s l k G) as [(z & p & c & a & v0 & b & np & E & Hp & Hsh & Hl & Ha)|[E Hk]]; run E.
  - left. exists (before z ++ items a), (items b ++ after z), v0. destruct Hsh as (H & Hi & Hc & m & Hm).
    run (run_nil _ _ _ H). rewrite decide_False by done. run (run_key s z np L p c a k v0 b H).
    set (w := if m_val e then Some v else None).
    destruct (run_store s z np (with_entry (Some k) w) p c a k v0 b c k w H) as (s1 & E1 & R1 & K1 & K2); [done|].
    exists s1. split_and!; [done|done|unfold w in E1; destruct (m_val e); by run E1| |unfold spare; by rewrite K2]. split.
    + destruct G as [G _]. rewrite Hl in G. apply around_sorted; [|done]. by apply sorted_around in G as [_ ?].
    + destruct (rb_value m z p c a k v0 w b Hm Hc) as (m' & Hm' & Hc').
      exists (plug z (Nd p c a k w b)), np. split_and!; [done| |done|by exists m'].
      rewrite items_around. cbn. by rewrite <- !app_assoc.
  - right. split; [|done]. destruct G as [_ (t & np & H & _)]. run (run_nil _ _ _ H). by rewrite decide_True.
Qed.

(** SET of a new key links a new node; without memory for the key it leaves a
    node behind that no pointer reaches. *)
Lemma set_run X s l e k v : good (nl := nl) X s l -> m_node e = true -> m_val e = true ->
  (exists A B v0 s', l = A ++ (k, v0) :: B /\ around k A B /\ kvs_rbtree_set e k v s = Some (0, s') /\
     good (nl := nl) X s' (A ++ (k, Some v) :: B) /\ spare X s' = spare X s) \/
  (exists A B X' s', l = A ++ B /\ around k A B /\ m_key e = true /\ kvs_rbtree_set e k v s = Some (0, s') /\
     good (nl := nl) X' s' (A ++ (k, Some v) :: B) /\ spare X' s' = spare X s) \/
  (exists s', m_key e = false /\ kvs_rbtree_set e k v s = Some (-2, s') /\ good (nl := nl) X s' l).
Proof.
  intros G Hn Hv. unfold kvs_rbtree_set. pose proof (mod_run X s l e k v G) as Hm. rewrite Hv in Hm.
  destruct (find_cases X s l k G) as [(z & p & c & a & v0 & b & np & E & Hp & (H & _) & Hl & Ha)|[E Hk]].
  - left. run E. run (run_nil _ _ _ H). rewrite decide_True by done. destruct Hm as [(A & B & v1 & s' & Hm)|[_ Hk]].
    + by exists A, B, v1, s'.
    + exfalso. rewrite Hl in Hk. apply Forall_app in Hk as [_ Hk]. by inversion Hk.
  - right. run E. destruct (malloc_run X s l G) as (s1 & E1 & G1 & C1 & Hp & HX & _ & S1).
    destruct G as [_ (t & np & H & _)]. run (run_nil _ _ _ H). rewrite decide_False by auto. rewrite Hn. run E1.
    destruct (m_key e) eqn:Hke; [left|right; by exists s1].
    destruct (entry_run X s1 l _ _ (Some k) None G1 C1 Hp HX) as (s2 & E2 & G2 & C2 & D2). run E2. rewrite Hv.
    destruct (entry_run X s2 l _ _ (Some k) (Some v) G2 C2 Hp HX) as (s3 & E3 & G3 & C3 & D3). run E3.
    destruct (insert_run X s3 l (brk s) k (Some v) G3 C3 Hp HX Hk) as (s4 & A & B & E4 & Hl & Ha & G4 & _ & D4). run E4.
    exists A, B, ({[brk s]} ∪ X), s4. split_and!; [done..|]. unfold spare in *. congruence.
Qed.

Lemma del_run X s l k : good (nl := nl) X s l ->
  (exists A B v X' s', l = A ++ (k, v) :: B /\ around k A B /\ kvs_rbtree_del k s = Some (0, s') /\
     good (nl := nl) X' s' (A ++ B) /\ spare X' s' = spare X s) \/
  (kvs_rbtree_del k s = Some (1, s) /\ Forall (fun e => e.1 <> k) l).
Proof.
  intros G. unfold kvs_rbtree_del.
  destruct (find_cases X s l k G) as [(z & p & c & a & v0 & b & np & E & Hp & Hsh & Hl & Ha)|[E Hk]]; run E.
  - left. destruct G as [Hs _]. destruct (remove_run X s z np p c a k v0 b l Hsh Hs Hl) as (s' & y & E1 & _ & S1 & G1).
    exists (before z ++ items a), (items b ++ after z), v0, (X ∖ {[y]}), s'. split_and!; [done|done| |done|done].
    destruct Hsh as (H & _). run (run_nil _ _ _ H). rewrite decide_False by done. revert E1. clear.
    unfold mbind, M_bind. destruct (rbtree_delete p s) as [[cur s1]|]; cbn; [|done]. by intros ->.
  - right. split; [|done]. destruct G as [_ (t & np & H & _)]. run (run_nil _ _ _ H). by rewrite decide_True.
Qed.

(** [kvs_rbtree_destory] takes the first entry out until there is none. *)
Lemma destroy_run fuel : forall X s l, good (nl := nl) X s l -> (length l < fuel)%nat ->
  exists s', destroy_loop fuel s = Some (tt, s') /\ good (nl := nl) ∅ s' [] /\ dom (heap s') = spare X s.
Proof.
  induction fuel as [|fuel IH]; intros X s l G Hf; [lia|]. cbn [destroy_loop]. destruct G as [Hs (t & np & H & Hi & Hc & m & Hm)].
  run (run_root _ _ _ H). run (run_nil _ _ _ H). pose proof (ptr_nil X s [] t np H) as Hn. case_decide as Hd.
  - destruct (mini_run X t (size (heap s)) [] s np H) as (zl & y & c & k & v & r & E & -> & B).
    { intros ->. by apply Hd, Hn. } { pose proof (path_rounds _ [] _ _ H). cbn in *. lia. }
    assert (l = (before zl ++ items Leaf) ++ (k, v) :: (items r ++ after zl)) as Hl.
    { rewrite <- Hi, items_around. cbn. by rewrite <- !app_assoc. }
    destruct (remove_run X s zl np y c Leaf k v r l) as (s1 & y' & E1 & _ & S1 & G1); [by split_and!; [..|exists m]|done|done|].
    destruct (IH _ s1 _ G1) as (s2 & E2 & G2 & D2).
    { subst l. rewrite Hl in Hf. rewrite !length_app in *. cbn in *. rewrite length_app in Hf. lia. }
    exists s2. split_and!; [|done|congruence].
    rewrite (bind_some (rbtree_mini _) _ s y s) by (unfold rbtree_mini; by run (run_rounds _ _ _ H)).
    rewrite <- E2. revert E1. clear. unfold mbind, M_bind. destruct (rbtree_delete y s) as [[cur s3]|]; cbn; [|done]. by intros ->.
  - assert (t = Leaf) as -> by (by apply Hn). assert (X = ∅) as ->.
    { apply set_eq. intros q. rewrite <- (r_set _ _ _ _ _ H). set_solver. }
    exists s. split_and!; [done| |unfold spare; set_solver]. split; [constructor|]. exists Leaf, np. split_and!; [done..|by exists m].
Qed.
Lemma destory_run X s l : good (nl := nl) X s l ->
  exists s', kvs_rbtree_destory s = Some (tt, s') /\ dom (heap s') = spare X s ∖ {[nl]}.
Proof.
  intros G. pose proof G as [_ (t & np & H & Hi & _)]. unfold kvs_rbtree_destory. run (run_rounds _ _ _ H).
  destruct (destroy_run (size (heap s)) X s l G) as (s1 & E1 & [_ (t1 & np1 & H1 & _)] & D1).
  { pose proof (rep_rounds _ _ _ H) as Hr. rewrite <- Hi. clear - Hr. revert Hr. generalize (size (heap s)). intros n.
    assert (length (items t) = length (ptrs t)) as ->; [|done]. clear. induction t; cbn; [done|]. rewrite !length_app. cbn. lia. }
  run E1. run (run_nil _ _ _ H1). destruct (r_nil _ _ _ _ _ H1) as (n & Hn & _). unfold free. rewrite Hn. cbn. eexists. split; [done|].
  cbn. by rewrite dom_delete_L, D1.
Qed.

End Calls.

(** *** Refinement *)

Definition valued (l : list entry) : Prop := Forall (fun e => is_Some e.2) l.
(** The state holds the entries [l] at [X], next to the sentinel [nl]. *)
Definition holds (nl : nat) (X : gset nat) (s : rbtree) (l : list entry) : Prop := good (nl := nl) X s l /\ valued l.
Definition wf (s : rbtree) : Prop := exists nl X l, holds nl X s l.
Definition abs (s : rbtree) : gmap bytes bytes := match rbtree_traversal s with Some (l, _) => to_map l | None => ∅ end.

Lemma valued_middle A k v B : valued (A ++ (k, v) :: B) <-> valued (A ++ B) /\ is_Some v.
Proof. unfold valued. rewrite !Forall_app, Forall_cons. cbn. tauto. Qed.
Lemma abs_holds nl X s l : holds nl X s l -> abs s = to_map l.
Proof. intros [G _]. unfold abs. by rewrite (good_traversal X s l G). Qed.

(** A node and a value find memory; a key may find none. *)
Definition harmless (e : env) : Prop := m_node e = true /\ m_val e = true.

(** A call that ends, on a map, with the same memory outside of the tree. *)
Definition meets (nl : nat) (X : gset nat) (s : rbtree) (l : list entry) (e : env) (o : op) (x : option (res * rbtree)) : Prop :=
  exists r s' X' l', x = Some (r, s') /\ holds nl X' s' l' /\ spec_step (to_map l) o r (to_map l') /\
    (m_key e = true -> spare X' s' = spare X s).

Lemma replaced k v v0 A B : around k A B -> is_Some v0 ->
  is_Some (to_map (A ++ (k, v0) :: B) !! k) /\
  to_map (A ++ (k, Some v) :: B) = <[k := v]> (to_map (A ++ (k, v0) :: B)) /\
  to_map (A ++ B) = delete k (to_map (A ++ (k, v0) :: B)).
Proof.
  intros Ha [w ->]. rewrite !to_map_middle, lookup_insert_eq by done. split_and!; [by eexists|by rewrite insert_insert_eq|].
  by rewrite delete_insert_id by (by apply to_map_absent).
Qed.

Ltac run E := rewrite (bind_some _ _ _ _ _ E).

Lemma tree_set_meets nl X s l e k v : holds nl X s l -> harmless e -> meets nl X s l e (OSet k v) (exec e (OSet k v) s).
Proof.
  intros [G Hv] [H1 H2]. unfold exec. destruct (set_run X s l e k v G H1 H2)
    as [(A & B & v0 & s' & -> & Ha & E & G' & S')|[(A & B & X' & s' & -> & Ha & Hk & E & G' & S')|(s' & Hk & E & G')]]; run E.
  - apply valued_middle in Hv as [Hv Hv0]. eexists _, s', X, _. split_and!; [done|split; [exact G'|by apply valued_middle]| |done].
    destruct (replaced k v v0 A B Ha Hv0) as (_ & -> & _). constructor.
  - eexists _, s', X', _. split_and!; [done|split; [exact G'|by apply valued_middle]| |done]. rewrite to_map_middle by done. constructor.
  - eexists _, s', X, _. split_and!; [done|by split|by constructor|congruence].
Qed.
Lemma tree_mod_meets nl X s l e k v : holds nl X s l -> harmless e -> meets nl X s l e (OMod k v) (exec e (OMod k v) s).
Proof.
  intros [G Hv] [H1 H2]. unfold exec. destruct (mod_run X s l e k v G) as [(A & B & v0 & s' & -> & Ha & E & G' & S')|[E Hk]]; run E.
  - rewrite H2 in *. apply valued_middle in Hv as [Hv Hv0].
    eexists _, s', X, _. split_and!; [done|split; [exact G'|by apply valued_middle]| |done].
    destruct (replaced k v v0 A B Ha Hv0) as (? & -> & _). by constructor.
  - eexists _, s, X, _. split_and!; [done|by split| |done]. constructor. by apply to_map_none.
Qed.
Lemma tree_del_meets nl X s l e k : holds nl X s l -> meets nl X s l e (ODel k) (exec e (ODel k) s).
Proof.
  intros [G Hv]. unfold exec. destruct (del_run X s l k G) as [(A & B & v0 & X' & s' & -> & Ha & E & G' & S')|[E Hk]]; run E.
  - apply valued_middle in Hv as [Hv Hv0]. eexists _, s', X', _. split_and!; [done|split; [exact G'|done]| |done].
    destruct (replaced k [] v0 A B Ha Hv0) as (? & _ & ->). by constructor.
  - eexists _, s, X, _. split_and!; [done|by split| |done]. constructor. by apply to_map_none.
Qed.
Lemma tree_exec_meets nl X s l e o : holds nl X s l -> harmless e -> meets nl X s l e o (exec e o s).
Proof.
  intros H He. destruct o as [k v|k|k v|k|k]; [by apply tree_set_meets| |by apply tree_mod_meets|by apply tree_del_meets|];
    destruct H as [G Hv]; unfold exec.
  - run (get_run X s l k G Hv). eexists _, s, X, l. split_and!; [done|by split|constructor|done].
  - run (exist_run X s l k G Hv). eexists _, s, X, l. split_and!; [done|by split| |done].
    destruct (to_map l !! k) eqn:E; constructor; [by eexists|done].
Qed.

(** What stands for a call that did not end: an answer no contract allows. *)
Definition stuck (o : op) : res := match o with OGet _ => RCode 0 | _ => RVal None end.
#[export] Program Instance rbtree_engine : Engine rbtree bool := {
  engine_wf := wf;
  engine_abs := abs;
  engine_room _ _ := True;
  engine_exec b o s := default (stuck o, s) (exec (Env true b true) o s);
}.
Next Obligation.
  intros b o s Hwf _ _. destruct Hwf as (nl & X & l & H). destruct (tree_exec_meets nl X s l (Env true b true) o H) as (r & s' & X' & l' & -> & H' & Hs & _); [done|].
  cbn. split; [by exists nl, X', l'|]. by rewrite (abs_holds _ _ _ _ H), (abs_holds _ _ _ _ H').
Qed.
#[export] Program Instance rbtree_capacity : Capacity rbtree bool := { capacity _ _ := True }.
Solve Obligations with done.

Lemma run_meets es : forall nl X s l, holds nl X s l -> Forall (fun p => harmless p.1) es ->
  exists rs s' X' l', run_ops es s = Some (rs, s') /\ holds nl X' s' l' /\ spec_run (to_map l) (snd <$> es) rs (to_map l') /\
    (Forall (fun p => m_key p.1 = true) es -> spare X' s' = spare X s).
Proof.
  induction es as [|[e o] es IH]; intros nl X s l H Hok; cbn [run_ops].
  - exists [], s, X, l. split_and!; [done|done|constructor|done].
  - apply Forall_cons in Hok as [He Hok]. destruct (tree_exec_meets nl X s l e o H) as (r & s1 & X1 & l1 & E1 & H1 & Hs & S1); [done|]. run E1.
    destruct (IH nl X1 s1 l1 H1) as (rs & s2 & X2 & l2 & E2 & H2 & Hr & S2); [done|]. run E2.
    exists (r :: rs), s2, X2, l2. split_and!; [done|done|by econstructor|].
    intros Hk. apply Forall_cons in Hk as [? ?]. rewrite S2 by done. auto.
Qed.

Lemma create_holds : holds 0 ∅ kvs_rbtree_create [] /\ spare ∅ kvs_rbtree_create = {[0%nat]}.
Proof.
  split.
  - split; [|constructor]. split; [constructor|]. exists Leaf, None. split_and!; try done; [|by exists 0%nat]. split; cbn; try done.
    + apply NoDup_singleton.
    + intros q. split; [by intros ?%not_elem_of_nil|set_solver].
    + eexists. rewrite lookup_singleton_eq. by split_and!.
    + intros q Hq. destruct (decide (q = 0%nat)) as [->|Hne]; [lia|]. rewrite lookup_singleton_ne in Hq by done. by destruct Hq.
  - unfold spare, kvs_rbtree_create. cbn [heap]. rewrite dom_singleton_L. set_solver.
Qed.

(** C21: the red-black tree is a map without memory errors.  After
    [kvs_rbtree_create], any sequence of SET, GET, MOD, DEL and EXIST calls, in
    which nodes and values find memory, never reads or writes through a pointer
    that is not a node, ends every loop, returns what the contract over a
    finite map returns, and leaves the keys in order; if keys find memory too,
    [kvs_rbtree_destory] then frees every node. *)
Theorem rbtree_refines_map es :
  Forall (fun p => op_ok p.2 /\ harmless p.1) es ->
  exists rs s l, run_ops es kvs_rbtree_create = Some (rs, s) /\ rbtree_traversal s = Some (l, s) /\
    sorted l /\ valued l /\ spec_run ∅ (snd <$> es) rs (to_map l) /\
    (Forall (fun p => m_key p.1 = true) es -> exists s', kvs_rbtree_destory s = Some (tt, s') /\ heap s' = ∅).
Proof.
  intros Hok. destruct create_holds as [H0 S0].
  destruct (run_meets es 0 ∅ _ [] H0) as (rs & s & X & l & E & [G Hv] & Hr & HS).
  { eapply Forall_impl; [exact Hok|]. by intros p [_ ?]. }
  exists rs, s, l. split_and!; [done|by eapply good_traversal|apply G|done|done|]. intros Hk.
  destruct (destory_run X s l G) as (s' & E' & D'). exists s'. split; [done|]. apply dom_empty_inv_L.
  rewrite D', HS, S0 by done. set_solver.
Qed.
Lemma rbtree_refines_map_witness :
  let ops := [(ok, OSet [98] [49]); (ok, OSet [99] [50]); (ok, OSet [97] [51]); (ok, OMod [98] [52]); (ok, OGet [98]);
              (ok, ODel [98]); (ok, OExist [98])] in
  exists rs s l, run_ops ops kvs_rbtree_create = Some (rs, s) /\ rbtree_traversal s = Some (l, s) /\
    sorted l /\ valued l /\ spec_run ∅ (snd <$> ops) rs (to_map l) /\
    (Forall (fun p => m_key p.1 = true) ops -> exists s', kvs_rbtree_destory s = Some (tt, s') /\ heap s' = ∅).
Proof.
  cbv zeta. apply rbtree_refines_map. repeat constructor; cbn; lia.
Defined.

(** ** Balance *)

Lemma rb_size n t : rb n t -> (2 ^ n <= S (length (items t)))%nat.
Proof.
  revert n. induction t as [|p c l IHl k v r IHr]; intros n; cbn; [by intros ->|]. rewrite length_app. cbn. destruct c.
  - intros (_ & _ & Hl & Hr). apply IHl in Hl. lia.
  - destruct n as [|n]; [done|]. intros [Hl Hr]. apply IHl in Hl. apply IHr in Hr. cbn. lia.
Qed.
Lemma rb_height n t : rb n t -> (height t <= 2 * n + match tcol t with RED => 1 | BLACK => 0 end)%nat.
Proof.
  revert n. induction t as [|p c l IHl k v r IHr]; intros n; cbn [rb height tcol]; [lia|]. destruct c.
  - intros (Hcl & Hcr & Hl & Hr). apply IHl in Hl. apply IHr in Hr. rewrite Hcl in Hl. rewrite Hcr in Hr. lia.
  - destruct n as [|n]; [done|]. intros [Hl Hr]. apply IHl in Hl. apply IHr in Hr. destruct (tcol l), (tcol r); lia.
Qed.
Lemma good_search nl X s l k : good (nl := nl) X s l ->
  exists x, search_loop (S (2 * Nat.log2 (S (length l)))) k (root s) s = Some (x, s) /\ rbtree_search k s = Some (x, s).
Proof.
  intros [_ (t & np & H & Hi & Hc & m & Hm)]. exists (ptr nl (seek k t []).2). rewrite (r_root _ _ _ _ _ H).
  pose proof (rb_height m t Hm) as Hh. pose proof (rb_size m t Hm) as Hs. rewrite Hc in Hh. rewrite Hi in Hs. split.
  - apply (search_run k t _ [] s np H). apply Nat.log2_le_pow2 in Hs; lia.
  - unfold rbtree_search. run (run_rounds _ _ _ H). run (run_root _ _ _ H). apply (search_run k t _ [] s np H).
    pose proof (height_ptrs t). pose proof (rep_rounds _ _ _ H). lia.
Qed.

(** C8: searches are logarithmic.  In every tree a sequence of calls builds in
    which nodes and values find memory, the loop of [rbtree_search] ends, for any key, after looking at no more than
    [2 * log2 (n + 1)] of its [n] nodes. *)
Theorem rbtree_search_logarithmic es k :
  Forall (fun p => op_ok p.2 /\ harmless p.1) es ->
  exists rs s l x, run_ops es kvs_rbtree_create = Some (rs, s) /\ rbtree_traversal s = Some (l, s) /\
    search_loop (S (2 * Nat.log2 (S (length l)))) k (root s) s = Some (x, s) /\ rbtree_search k s = Some (x, s).
Proof.
  intros Hok. destruct (run_meets es 0 ∅ _ [] (proj1 create_holds)) as (rs & s & X & l & E & [G _] & _).
  { eapply Forall_impl; [exact Hok|]. by intros p [_ ?]. }
  destruct (good_search 0 X s l k G) as (x & E1 & E2). exists rs, s, l, x. split_and!; [done|by eapply good_traversal|done|done].
Qed.
Lemma rbtree_search_logarithmic_witness :
  exists rs s l x, run_ops [(ok, OSet [98] [49]); (ok, OSet [99] [50]); (ok, OSet [97] [51])] kvs_rbtree_create = Some (rs, s) /\
    rbtree_traversal s = Some (l, s) /\
    search_loop (S (2 * Nat.log2 (S (length l)))) [97] (root s) s = Some (x, s) /\ rbtree_search [97] s = Some (x, s).
Proof. apply rbtree_search_logarithmic. repeat constructor; cbn; lia. Defined.

(** ** A value without memory *)

(** When the new value finds no memory, the old one is gone: the call fails, the
    key is still there, and its value is NULL. *)
Lemma failed_mod_loses_value nl X s l k v : holds nl X s l -> is_Some (abs s !! k) ->
  exists s', kvs_rbtree_mod (Env true true false) k v s = Some (-2, s') /\
    kvs_rbtree_exist k s' = Some (0, s') /\ kvs_rbtree_get k s' = Some (None, s').
Proof.
  intros [G Hv] Hk. rewrite (abs_holds nl X s l) in Hk by done.
  destruct (mod_run X s l (Env true true false) k v G) as [(A & B & v0 & s' & -> & Ha & E & G' & _)|[_ Hn]].
  2: { rewrite to_map_none in Hk by done. by destruct Hk. }
  exists s'. cbn [m_val] in *. split; [exact E|]. unfold kvs_rbtree_exist, kvs_rbtree_get.
  destruct (find_cases X s' _ k G') as [(z & p & c & a & v1 & b & np & Ef & Hp & (H & _) & Hl & Ha')|[_ Hn]].
  - assert (v1 = None) as ->.
    { assert ((k, v1) ∈ A ++ (k, None) :: B) as Hin by (rewrite Hl; apply elem_of_app; right; left).
      apply around_fresh in Ha as [H1 H2]. rewrite Forall_forall in H1, H2. apply elem_of_app in Hin as [Hin|Hin]; [by apply H1 in Hin|].
      apply elem_of_cons in Hin as [Hin|Hin]; [congruence|by apply H2 in Hin]. }
    run Ef. run (run_nil _ _ _ H). rewrite decide_False by done. split; [done|]. run Ef. run (run_nil _ _ _ H). rewrite decide_False by done.
    apply (run_value s' z np L p c a k None b H).
  - apply Forall_app in Hn as [_ Hn]. by inversion Hn.
Qed.

End Rbtree.
