(* ===== verification/Doc.v ===== *)
(** * Doc: the document engine

    [src/storage/kvs_doc.c].  A table of documents, each a table of fields; both
    tables are arrays of chains indexed by a 32-bit FNV-1a hash.  The table of
    documents doubles when it has as many documents as buckets, up to 2^22
    buckets; the table of fields has a fixed size.

    A chain is a list; [NULL] buckets are the empty array.  Allocation results
    come with the call.  The theorems show that the engine is a map from keys to
    maps from fields to values, and when a call fails. *)

From S2P Require Import Prelude Cstring Engine.

Module Doc.

Definition KVS_DOC_BUCKETS : Z := 1024.
Definition KVS_DOC_FIELD_BUCKETS : Z := 16.

(** ** Data *)

Record field := Field { name : bytes; value : bytes }.
#[export] Instance eta_field : Eta field := fun f => Field (name f) (value f).
Record doc := Document { key : bytes; fields : list (list field); field_count : Z; bucket_count : Z }.
#[export] Instance eta_doc : Eta doc :=
  fun d => Document (key d) (fields d) (field_count d) (bucket_count d).
Record table := Table { buckets : list (list doc); size : Z; count : Z }.
#[export] Instance eta_table : Eta table := fun t => Table (buckets t) (size t) (count t).

(** The results of the allocations of a call, in the order of the code. *)
Record env := Env {
  m_rehash : bool; m_doc : bool; m_key : bool; m_fields : bool;
  m_new_value : bool; m_field : bool; m_name : bool; m_value : bool }.

Definition doc_hash (k : bytes) (n : Z) : Z :=
  fold_left (fun h c => u32 (Z.lxor h c * 16777619)) k 2166136261 mod u32 n.

(** ** Chains *)

Section Chains.

Context {A : Type} (key_of : A -> bytes).

Definition chain_at (bs : list (list A)) (i : Z) : list A := default [] (bs !! Z.to_nat i).
Definition set_chain (i : Z) (c : list A) (bs : list (list A)) : list (list A) := <[Z.to_nat i := c]> bs.

(** The first item with the key, an assignment through a pointer to it, and the
    chain without it. *)
Fixpoint find_chain (k : bytes) (c : list A) : option A :=
  match c with
  | [] => None
  | x :: r => if decide (strcmp (key_of x) k = 0) then Some x else find_chain k r
  end.
Fixpoint alter_chain (k : bytes) (f : A -> A) (c : list A) : list A :=
  match c with
  | [] => []
  | x :: r => if decide (strcmp (key_of x) k = 0) then f x :: r else x :: alter_chain k f r
  end.
Fixpoint unlink_chain (k : bytes) (c : list A) : option (list A) :=
  match c with
  | [] => None
  | x :: r => if decide (strcmp (key_of x) k = 0) then Some r else cons x <$> unlink_chain k r
  end.

End Chains.

(** ** Operations *)

Definition empty_table : table := Table (replicate (Z.to_nat KVS_DOC_BUCKETS) []) KVS_DOC_BUCKETS 0.
Definition kvs_doc_create (calloc_ok : bool) (t : table) : Z * table :=
  if calloc_ok then (0, empty_table)
  else (-1, t <| buckets := [] |>).

Definition doc_find (t : table) (k : bytes) : option doc :=
  if decide (buckets t = []) then None
  else find_chain key k (chain_at (buckets t) (doc_hash k (size t))).

(** Every document moves to the front of its new chain. *)
Definition relink (n : Z) (nb : list (list doc)) (d : doc) : list (list doc) :=
  let idx := doc_hash (key d) n in set_chain idx (d :: chain_at nb idx) nb.
Definition doc_rehash (e : env) (t : table) : Z * table :=
  let new_size := i32 (size t * 2) in
  if decide (new_size > 2 ^ 22) then (-1, t)
  else if negb (m_rehash e) then (-1, t)
  else
    (0, t <| buckets := fold_left (fun nb c => fold_left (relink new_size) c nb) (take (Z.to_nat (size t)) (buckets t))
                          (replicate (Z.to_nat new_size) []) |>
          <| size := new_size |>).

Definition new_doc (k : bytes) : doc :=
  Document k (replicate (Z.to_nat KVS_DOC_FIELD_BUCKETS) []) 0 KVS_DOC_FIELD_BUCKETS.
Definition doc_create_entry (e : env) (k : bytes) (t : table) : option doc * table :=
  let '(rc, t) := if decide (count t >= size t) then doc_rehash e t else (0, t) in
  if decide (rc <> 0) then (None, t)
  else if negb (m_doc e && m_key e && m_fields e) then (None, t)
  else
    let d := new_doc k in
    let idx := doc_hash k (size t) in
    (Some d, t <| buckets ::= fun bs => set_chain idx (d :: chain_at bs idx) bs |>
               <| count ::= fun n => i32 (n + 1) |>).

Definition field_find (d : doc) (f : bytes) : option field :=
  find_chain name f (chain_at (fields d) (doc_hash f (bucket_count d))).

(** An assignment through the pointer that [doc_find] returned. *)
Definition set_doc (k : bytes) (g : doc -> doc) (t : table) : table :=
  t <| buckets ::= fun bs =>
    let idx := doc_hash k (size t) in set_chain idx (alter_chain key k g (chain_at bs idx)) bs |>.

(** The part of [kvs_doc_set] after the document is found or made. *)
Definition set_value (v : bytes) (x : field) : field := x <| value := v |>.
Definition set_field (e : env) (f v : bytes) (d : doc) : Z * doc :=
  let idx := doc_hash f (bucket_count d) in
  match field_find d f with
  | Some _ =>
      if negb (m_new_value e) then (-1, d)
      else (0, d <| fields ::= fun fs =>
                 set_chain idx (alter_chain name f (set_value v) (chain_at fs idx)) fs |>)
  | None =>
      if negb (m_field e && m_name e && m_value e) then (-1, d)
      else (0, d <| fields ::= fun fs => set_chain idx (Field f v :: chain_at fs idx) fs |>
                 <| field_count ::= fun n => i32 (n + 1) |>)
  end.
Definition kvs_doc_set (e : env) (k f v : bytes) (t : table) : Z * table :=
  let '(od, t) := match doc_find t k with Some d => (Some d, t) | None => doc_create_entry e k t end in
  match od with
  | None => (-1, t)
  | Some d =>
      let '(rc, d) := set_field e f v d in
      (rc, set_doc k (fun _ => d) t)
  end.

Definition kvs_doc_get (k f : bytes) (t : table) : option bytes :=
  d ← doc_find t k; value <$> field_find d f.

Definition kvs_doc_del_field (k f : bytes) (t : table) : Z * table :=
  match doc_find t k with
  | None => (1, t)
  | Some d =>
      let idx := doc_hash f (bucket_count d) in
      match unlink_chain name f (chain_at (fields d) idx) with
      | None => (1, t)
      | Some c => (0, set_doc k (fun d => d <| fields ::= set_chain idx c |>
                                            <| field_count ::= fun n => i32 (n - 1) |>) t)
      end
  end.

Definition kvs_doc_del (k : bytes) (t : table) : Z * table :=
  if decide (buckets t = []) then (-1, t)
  else
    let idx := doc_hash k (size t) in
    match unlink_chain key k (chain_at (buckets t) idx) with
    | None => (1, t)
    | Some c => (0, t <| buckets ::= set_chain idx c |> <| count ::= fun n => i32 (n - 1) |>)
    end.

Definition kvs_doc_exist (k : bytes) (t : table) : Z := if doc_find t k then 0 else 1.
Definition kvs_doc_field_exist (k f : bytes) (t : table) : Z :=
  match doc_find t k with Some d => if field_find d f then 0 else 1 | None => 1 end.
Definition kvs_doc_field_count (k : bytes) (t : table) : Z :=
  match doc_find t k with Some d => field_count d | None => -1 end.

(** What the visits pass to a callback that never stops. *)
Definition kvs_doc_foreach_field (k : bytes) (t : table) : Z * list (bytes * bytes) :=
  match doc_find t k with
  | None => (1, [])
  | Some d => (0, map (fun f => (name f, value f)) (concat (take (Z.to_nat (bucket_count d)) (fields d))))
  end.
Definition kvs_doc_foreach (t : table) : Z * list doc :=
  if decide (buckets t = []) then (-1, []) else (0, concat (take (Z.to_nat (size t)) (buckets t))).
Definition kvs_doc_destroy (t : table) : table := if decide (buckets t = []) then t else Table [] 0 0.

(** ** Facts on chained tables *)

Section Tables.

Context {A : Type} (key_of : A -> bytes).

Abbreviation find := (find_chain key_of).

(** The items of a table as a map. *)
Definition items (l : list A) : gmap bytes A := list_to_map (map (fun x => (key_of x, x)) l).
Definition tmap (bs : list (list A)) : gmap bytes A := items (concat bs).

Record chained (n : Z) (bs : list (list A)) : Prop := {
  ch_size : 0 < n < 2 ^ 32;
  ch_length : length bs = Z.to_nat n;
  ch_place : forall i c, bs !! i = Some c -> Forall (fun x => doc_hash (key_of x) n = Z.of_nat i) c;
  ch_nodup : NoDup (map key_of (concat bs)) }.

Lemma items_keys l : (map (fun x => (key_of x, x)) l).*1 = map key_of l.
Proof. induction l; cbn; congruence. Qed.
Lemma items_perm l l' : NoDup (map key_of l) -> l ≡ₚ l' -> items l = items l'.
Proof.
  intros Hn Hp. apply list_to_map_proper; [|by rewrite Hp]. by rewrite items_keys.
Qed.
Lemma items_cons x l : items (x :: l) = <[key_of x := x]> (items l).
Proof. done. Qed.
Lemma items_none k l : k ∉ map key_of l -> items l !! k = None.
Proof. intros H. apply not_elem_of_list_to_map_1. by rewrite items_keys. Qed.
Lemma items_some x l : NoDup (map key_of l) -> x ∈ l -> items l !! key_of x = Some x.
Proof.
  intros Hn Hx. apply elem_of_list_to_map_1; [by rewrite items_keys|].
  apply list_elem_of_fmap. by exists x.
Qed.
Lemma items_size l : NoDup (map key_of l) -> stdpp.base.size (items l) = length l.
Proof.
  induction l as [|x l IH]; [done|]. cbn [map length]. intros Hn. apply NoDup_cons in Hn as [Hx Hn].
  rewrite items_cons, map_size_insert_None, IH by (done || by apply items_none). done.
Qed.

Lemma doc_hash_range k n : 0 < n < 2 ^ 32 -> 0 <= doc_hash k n < n.
Proof. intros Hn. unfold doc_hash. rewrite u32_small by lia. apply Z.mod_pos_bound. lia. Qed.
Lemma bucket_lookup n bs k : chained n bs ->
  bs !! Z.to_nat (doc_hash k n) = Some (chain_at bs (doc_hash k n)).
Proof.
  intros H. pose proof (doc_hash_range k n (ch_size _ _ H)). unfold chain_at.
  destruct (bs !! Z.to_nat (doc_hash k n)) eqn:E; [done|]. apply lookup_ge_None in E.
  rewrite (ch_length _ _ H) in E. lia.
Qed.

(** A chain with the key's item taken apart. *)
Lemma find_split k c x : find k c = Some x ->
  exists c1 c2, c = c1 ++ x :: c2 /\ key_of x = k /\ k ∉ map key_of c1 /\
    unlink_chain key_of k c = Some (c1 ++ c2) /\ forall f, alter_chain key_of k f c = c1 ++ f x :: c2.
Proof.
  induction c as [|y c IH]; [done|]. cbn. case_decide as E.
  - intros [= <-]. apply strcmp_eq in E. exists [], c. split_and!; try done. apply not_elem_of_nil.
  - intros H. destruct (IH H) as (c1 & c2 & -> & Hk & Hn & -> & Ha). exists (y :: c1), c2.
    split_and!; try done; [|intros f; cbn; by rewrite Ha].
    apply not_elem_of_cons. split; [|done]. intros ->. by rewrite strcmp_refl in E.
Qed.
Lemma find_none k c : find k c = None -> k ∉ map key_of c /\ unlink_chain key_of k c = None.
Proof.
  induction c as [|y c IH]; cbn; [intros _; split; [apply not_elem_of_nil|done]|]. case_decide as E; [done|]. intros H.
  destruct (IH H) as [Hn ->]. split; [|done]. apply not_elem_of_cons. split; [|done].
  intros ->. by rewrite strcmp_refl in E.
Qed.

Lemma elem_place n bs x : chained n bs -> x ∈ concat bs -> x ∈ chain_at bs (doc_hash (key_of x) n).
Proof.
  intros H Hx. apply elem_of_concat in Hx as (c & Hx & Hc). apply list_elem_of_lookup in Hc as [i Hi].
  pose proof (ch_place _ _ H i c Hi) as Hp. rewrite Forall_forall in Hp.
  unfold chain_at. rewrite (Hp x Hx), Nat2Z.id, Hi. done.
Qed.

Lemma table_find n bs k : chained n bs -> find k (chain_at bs (doc_hash k n)) = tmap bs !! k.
Proof.
  intros H. destruct (find k (chain_at bs (doc_hash k n))) as [x|] eqn:E.
  - apply find_split in E as (c1 & c2 & Ec & <- & _). symmetry. apply items_some; [apply H|].
    apply elem_of_concat. exists (c1 ++ x :: c2). split; [apply elem_of_app; right; apply list_elem_of_here|].
    rewrite <- Ec. eapply list_elem_of_lookup_2, bucket_lookup, H.
  - apply find_none in E as [E _]. symmetry. apply items_none. intros Hin.
    apply list_elem_of_fmap in Hin as (x & -> & Hx). apply E. apply list_elem_of_fmap. exists x.
    split; [done|]. by apply elem_place.
Qed.

(** A chain replaced by another with the same place. *)
Lemma chained_set n bs k c' : chained n bs -> Forall (fun x => doc_hash (key_of x) n = doc_hash k n) c' ->
  exists R, concat bs ≡ₚ chain_at bs (doc_hash k n) ++ R /\
    (NoDup (map key_of (c' ++ R)) ->
     chained n (set_chain (doc_hash k n) c' bs) /\ tmap (set_chain (doc_hash k n) c' bs) = items (c' ++ R)).
Proof.
  intros H Hc'. pose proof (bucket_lookup n bs k H) as Hl.
  destruct (concat_middle bs _ _ Hl) as (R & HR & HR'). exists R. split; [done|]. intros Hn.
  assert (Hn' : NoDup (map key_of (concat (set_chain (doc_hash k n) c' bs)))) by (by rewrite (HR' c')).
  split; [|apply items_perm; [done|apply HR']].
  pose proof (doc_hash_range k n (ch_size _ _ H)).
  split; [apply H|unfold set_chain; rewrite length_insert; apply H| |done].
  intros i c Hi. unfold set_chain in Hi. destruct (decide (Z.to_nat (doc_hash k n) = i)) as [<-|Hne].
  - rewrite list_lookup_insert_eq in Hi by (by eapply lookup_lt_Some). injection Hi as <-.
    eapply Forall_impl; [exact Hc'|]. cbn. lia.
  - rewrite list_lookup_insert_ne in Hi by done. by apply H.
Qed.

Lemma chain_place n bs k : chained n bs ->
  Forall (fun x => doc_hash (key_of x) n = doc_hash k n) (chain_at bs (doc_hash k n)).
Proof.
  intros H. pose proof (doc_hash_range k n (ch_size _ _ H)).
  pose proof (ch_place _ _ H _ _ (bucket_lookup n bs k H)) as Hp. eapply Forall_impl; [exact Hp|]. cbn. lia.
Qed.

Lemma tmap_none n bs k : chained n bs -> tmap bs !! k = None -> k ∉ map key_of (concat bs).
Proof.
  intros H E Hin. apply list_elem_of_fmap in Hin as (x & -> & Hx).
  unfold tmap in E. rewrite items_some in E; [done|apply H|done].
Qed.

Lemma table_push n bs x : chained n bs -> tmap bs !! key_of x = None ->
  let bs' := set_chain (doc_hash (key_of x) n) (x :: chain_at bs (doc_hash (key_of x) n)) bs in
  chained n bs' /\ tmap bs' = <[key_of x := x]> (tmap bs).
Proof.
  intros H E. pose proof (tmap_none n bs _ H E) as Hx.
  destruct (chained_set n bs (key_of x) (x :: chain_at bs (doc_hash (key_of x) n)) H) as (R & HR & Hs).
  { constructor; [done|by apply chain_place]. }
  assert (Hn : NoDup (map key_of ((x :: chain_at bs (doc_hash (key_of x) n)) ++ R))).
  { cbn. rewrite HR in Hx. apply NoDup_cons. split; [done|]. rewrite <- HR. apply H. }
  destruct (Hs Hn) as [H1 H2]. split; [done|]. rewrite H2. cbn [app]. rewrite items_cons. f_equal.
  symmetry. apply items_perm; [apply H|done].
Qed.

Lemma table_alter n bs k f x : chained n bs -> tmap bs !! k = Some x -> key_of (f x) = k ->
  let bs' := set_chain (doc_hash k n) (alter_chain key_of k f (chain_at bs (doc_hash k n))) bs in
  chained n bs' /\ tmap bs' = <[k := f x]> (tmap bs).
Proof.
  intros H E Hk. rewrite <- (table_find n) in E by done.
  apply find_split in E as (c1 & c2 & Ec & Hx & Hc1 & _ & Ha). rewrite Ha.
  pose proof (chain_place n bs k H) as Hp. rewrite Ec in Hp. apply Forall_app in Hp as [Hp1 Hp2].
  inversion_clear Hp2 as [|?? Hpx Hp3].
  destruct (chained_set n bs k (c1 ++ f x :: c2) H) as (R & HR & Hs).
  { apply Forall_app. split; [done|]. constructor; [by rewrite Hk|done]. }
  rewrite Ec in HR. assert (Hb : concat bs ≡ₚ x :: c1 ++ c2 ++ R).
  { rewrite HR. cbn. rewrite <- app_assoc. cbn. symmetry. apply Permutation_middle. }
  pose proof (ch_nodup _ _ H) as Hn. rewrite Hb in Hn. cbn in Hn. apply NoDup_cons in Hn as [Hn1 Hn2].
  assert (Hp : (c1 ++ f x :: c2) ++ R ≡ₚ f x :: c1 ++ c2 ++ R).
  { rewrite <- app_assoc. cbn. symmetry. apply Permutation_middle. }
  assert (Hn' : NoDup (map key_of ((c1 ++ f x :: c2) ++ R))).
  { rewrite Hp. cbn. rewrite Hk, <- Hx. by apply NoDup_cons. }
  destruct (Hs Hn') as [H1 H2]. split; [done|]. rewrite H2. unfold tmap.
  rewrite (items_perm _ _ Hn' Hp), (items_perm _ _ (ch_nodup _ _ H) Hb), !items_cons, Hk, Hx.
  by rewrite insert_insert_eq.
Qed.

Lemma table_unlink n bs k : chained n bs ->
  match unlink_chain key_of k (chain_at bs (doc_hash k n)) with
  | None => tmap bs !! k = None
  | Some c => is_Some (tmap bs !! k) /\ chained n (set_chain (doc_hash k n) c bs) /\
              tmap (set_chain (doc_hash k n) c bs) = delete k (tmap bs)
  end.
Proof.
  intros H. rewrite <- (table_find n bs k H).
  destruct (find k (chain_at bs (doc_hash k n))) as [x|] eqn:E.
  - apply find_split in E as (c1 & c2 & Ec & Hx & Hc1 & -> & _).
    pose proof (chain_place n bs k H) as Hp. rewrite Ec in Hp. apply Forall_app in Hp as [Hp1 Hp2].
    inversion_clear Hp2 as [|?? Hpx Hp3]. split; [by eexists|].
    destruct (chained_set n bs k (c1 ++ c2) H) as (R & HR & Hs); [by apply Forall_app|].
    rewrite Ec in HR. assert (Hb : concat bs ≡ₚ x :: (c1 ++ c2) ++ R).
    { rewrite HR. cbn. rewrite <- !app_assoc. cbn. symmetry. apply Permutation_middle. }
    pose proof (ch_nodup _ _ H) as Hn. rewrite Hb in Hn. cbn in Hn. apply NoDup_cons in Hn as [Hn1 Hn2].
    destruct (Hs Hn2) as [H1 H2]. split; [done|]. rewrite H2. unfold tmap.
    rewrite (items_perm _ _ (ch_nodup _ _ H) Hb), items_cons, Hx, delete_insert_id; [done|].
    apply items_none. by rewrite <- Hx.
  - apply find_none in E as [_ ->]. done.
Qed.

Lemma concat_empty n : concat (replicate n (@nil A)) = [].
Proof. induction n; [done|]. done. Qed.
Lemma chained_empty n : 0 < n < 2 ^ 32 -> chained n (replicate (Z.to_nat n) []).
Proof.
  intros Hn. split; [done|by rewrite length_replicate| |rewrite concat_empty; constructor].
  intros i c Hi. apply lookup_replicate in Hi as [-> _]. constructor.
Qed.
Lemma tmap_empty n : tmap (replicate n (@nil A)) = ∅.
Proof. unfold tmap. by rewrite concat_empty. Qed.

End Tables.

(** ** The invariant and the map of maps *)

Definition fields_map (d : doc) : gmap bytes bytes := value <$> tmap name (fields d).
Definition abs (t : table) : gmap bytes (gmap bytes bytes) := fields_map <$> tmap key (buckets t).

(** [n] bounds the number of fields of a document. *)
Definition doc_ok (n : Z) (d : doc) : Prop :=
  bucket_count d = KVS_DOC_FIELD_BUCKETS /\ chained name KVS_DOC_FIELD_BUCKETS (fields d) /\
  field_count d = Z.of_nat (stdpp.base.size (tmap name (fields d))) /\ field_count d <= n.
Record wf (n : Z) (t : table) : Prop := {
  wf_chained : chained key (size t) (buckets t);
  wf_docs : map_Forall (fun k d => key d = k /\ doc_ok n d) (tmap key (buckets t));
  wf_count : count t = Z.of_nat (stdpp.base.size (tmap key (buckets t)));
  wf_load : count t <= size t;
  wf_size : exists j, 0 <= j <= 12 /\ size t = 2 ^ (10 + j) }.

Lemma buckets_nonempty n t : wf n t -> buckets t <> [].
Proof.
  intros W E. pose proof (ch_length _ _ _ (wf_chained _ _ W)) as H. rewrite E in H.
  pose proof (ch_size _ _ _ (wf_chained _ _ W)). cbn in H. lia.
Qed.
Lemma find_spec n t k : wf n t -> doc_find t k = tmap key (buckets t) !! k.
Proof.
  intros W. unfold doc_find. rewrite decide_False by (by eapply buckets_nonempty). apply table_find, W.
Qed.
Lemma field_find_spec n d f : doc_ok n d -> field_find d f = tmap name (fields d) !! f.
Proof. intros (Hb & Hc & _). unfold field_find. rewrite Hb. by apply table_find. Qed.
Lemma wf_mono n m t : wf n t -> n <= m -> wf m t.
Proof.
  intros W Hnm. split; try apply W. intros k d Hd.
  destruct (wf_docs _ _ W k d Hd) as (Hk & Hb & Hc & Hf & Hn).
  split; [done|]. unfold doc_ok. split_and!; try done. lia.
Qed.

(** *** Growing *)

Lemma relink_all n l nb : chained key n nb -> NoDup (map key (l ++ concat nb)) ->
  chained key n (fold_left (relink n) l nb) /\ concat (fold_left (relink n) l nb) ≡ₚ l ++ concat nb.
Proof.
  revert nb. induction l as [|d l IH]; intros nb H Hn; [done|]. cbn [fold_left].
  cbn in Hn. apply NoDup_cons in Hn as [Hd Hn].
  assert (Hnone : tmap key nb !! key d = None).
  { apply items_none. rewrite map_app in Hd. by apply not_elem_of_app in Hd as [_ ?]. }
  destruct (table_push key n nb d H Hnone) as [H1 _].
  assert (Hp : concat (relink n nb d) ≡ₚ d :: concat nb).
  { destruct (concat_middle nb _ _ (bucket_lookup key n nb (key d) H)) as (R & HR & HR').
    unfold relink, set_chain. rewrite (HR' (d :: _)), HR. done. }
  destruct (IH (relink n nb d) H1) as [H2 H3].
  - rewrite Hp, <- Permutation_middle. cbn. by apply NoDup_cons.
  - split; [done|]. rewrite H3, Hp. symmetry. apply Permutation_middle.
Qed.

Lemma fold_concat {A B} (f : B -> A -> B) (ls : list (list A)) b :
  fold_left (fun b l => fold_left f l b) ls b = fold_left f (concat ls) b.
Proof. revert b. induction ls as [|l ls IH]; intros b; cbn; [done|]. by rewrite fold_left_app, IH. Qed.

Lemma size_cases n t : wf n t -> 1024 <= size t /\ (size t = 2 ^ 22 \/
  2 * size t <= 2 ^ 22 /\ exists j, 0 <= j <= 12 /\ 2 * size t = 2 ^ (10 + j)).
Proof.
  intros W. destruct (wf_size _ _ W) as (j & Hj & ->). split.
  - change 1024 with (2 ^ 10). apply Z.pow_le_mono_r; lia.
  - destruct (decide (j = 12)) as [->|]; [by left|]. right.
    replace (2 * 2 ^ (10 + j)) with (2 ^ (10 + (j + 1))) by (rewrite <- Z.pow_succ_r by lia; f_equal; lia).
    split; [apply Z.pow_le_mono_r; lia|]. exists (j + 1). split; [lia|done].
Qed.

Lemma rehash_spec n e t rc t' : wf n t -> doc_rehash e t = (rc, t') ->
  wf n t' /\ tmap key (buckets t') = tmap key (buckets t) /\ count t' = count t /\
  (rc = 0 /\ size t' = 2 * size t \/ rc = -1 /\ t' = t /\ (m_rehash e = true -> size t = 2 ^ 22)).
Proof.
  intros W. destruct (size_cases n t W) as [Hlo Hsz]. unfold doc_rehash. rewrite i32_small by lia.
  case_decide as Hbig; [intros [= <- <-]; split_and!; try done; right; split_and!; [done..|lia]|].
  destruct (m_rehash e); cbn [negb]; [|intros [= <- <-]; split_and!; try done; by right].
  intros [= <- <-]. destruct Hsz as [Hsz|[Hsz Hj]]; [lia|]. rewrite (Z.mul_comm (size t)).
  rewrite firstn_all2 by (rewrite (ch_length _ _ _ (wf_chained _ _ W)); lia). rewrite fold_concat.
  set (nb := replicate (Z.to_nat (2 * size t)) []).
  assert (Hc0 : concat nb = []) by apply concat_empty.
  destruct (relink_all (2 * size t) (concat (buckets t)) nb) as [H1 H2].
  { apply chained_empty. lia. }
  { rewrite Hc0, app_nil_r. apply W. }
  rewrite Hc0, app_nil_r in H2.
  assert (Ht : tmap key (fold_left (relink (2 * size t)) (concat (buckets t)) nb) = tmap key (buckets t)).
  { symmetry. apply items_perm; [apply W|done]. }
  split_and!; cbn [buckets size count upd]; [|done|done|by left].
  split; cbn [buckets size count upd]; [done|rewrite Ht; apply W|rewrite Ht; apply W| |done].
  pose proof (wf_load _ _ W). lia.
Qed.

(** *** Documents *)

Lemma new_doc_ok k : doc_ok 0 (new_doc k) /\ fields_map (new_doc k) = ∅.
Proof.
  unfold doc_ok, fields_map, new_doc. cbn [fields bucket_count field_count].
  rewrite tmap_empty, map_size_empty, fmap_empty. split_and!; try done. by apply chained_empty.
Qed.
Lemma create_entry_spec n e t k od t' : wf n t -> 0 <= n -> tmap key (buckets t) !! k = None ->
  doc_create_entry e k t = (od, t') ->
  wf n t' /\
  match od with
  | None => tmap key (buckets t') = tmap key (buckets t) /\
      (m_rehash e = true -> m_doc e = true -> m_key e = true -> m_fields e = true -> count t = 2 ^ 22)
  | Some d => tmap key (buckets t') = <[k := d]> (tmap key (buckets t)) /\
      key d = k /\ doc_ok 0 d /\ fields_map d = ∅
  end.
Proof.
  intros W Hn Hk. unfold doc_create_entry.
  destruct (if decide (count t >= size t) then doc_rehash e t else (0, t)) as [rc t1] eqn:E.
  assert (H1 : wf n t1 /\ tmap key (buckets t1) = tmap key (buckets t) /\ count t1 = count t /\
    (rc = 0 /\ count t < size t1 \/ rc = -1 /\ t1 = t /\ (m_rehash e = true -> count t = 2 ^ 22))).
  { pose proof (wf_load _ _ W). pose proof (size_cases n t W) as [Hlo _]. case_decide as Hc.
    - destruct (rehash_spec n e t rc t1 W E) as (? & ? & ? & [[-> ->]|(-> & -> & ?)]); split_and!; try done.
      + left. lia.
      + right. split_and!; try done. intros Hm. rewrite <- H3 by done. lia.
    - injection E as <- <-. split_and!; try done. left. lia. }
  clear E. destruct H1 as (W1 & Ht & Hc & [[-> Hlt]|(-> & -> & Hfull)]).
  2: { cbn. intros [= <- <-]. split_and!; auto. }
  cbn [decide]. rewrite decide_False by (by intros []).
  destruct (m_doc e) eqn:E1, (m_key e) eqn:E2, (m_fields e) eqn:E3; cbn [negb andb];
    intros [= <- <-]; try (split_and!; [done|done|congruence]).
  rewrite <- Ht in Hk. destruct (new_doc_ok k) as [Hd Hm].
  destruct (table_push key (size t1) (buckets t1) (new_doc k) (wf_chained _ _ W1) Hk) as [H1 H2].
  change (key (new_doc k)) with k in H1, H2.
  split; [|rewrite <- Ht; by split_and!].
  split; cbn [buckets size count upd]; [done| | | |apply W1].
  - rewrite H2. apply map_Forall_insert_2; [|apply W1]. split; [done|].
    destruct Hd as (? & ? & ? & ?). by split_and!.
  - rewrite H2, map_size_insert_None, (wf_count _ _ W1) by done. rewrite i32_small; [lia|].
    pose proof (wf_count _ _ W1). pose proof (wf_load _ _ W1). destruct (size_cases _ _ W1). lia.
  - rewrite Hc, i32_small; [lia|]. pose proof (wf_count _ _ W1). pose proof (wf_load _ _ W1).
    destruct (size_cases _ _ W1). lia.
Qed.

Lemma set_doc_spec n m t k g d : wf n t -> n <= m -> tmap key (buckets t) !! k = Some d ->
  key (g d) = k -> doc_ok m (g d) ->
  wf m (set_doc k g t) /\ tmap key (buckets (set_doc k g t)) = <[k := g d]> (tmap key (buckets t)).
Proof.
  intros W Hnm Hd Hk Hg. destruct (table_alter key (size t) (buckets t) k g d) as [H1 H2]; [apply W|done|done|].
  split; [|exact H2]. apply (wf_mono n m) in W; [|done].
  split; unfold set_doc; cbn [buckets size count upd]; [exact H1| | |apply W|apply W].
  - rewrite H2. apply map_Forall_insert_2; [done|apply W].
  - rewrite H2, map_size_insert_Some by (by eexists). apply W.
Qed.

Definition all_ok (e : env) : bool :=
  m_rehash e && m_doc e && m_key e && m_fields e && m_new_value e && m_field e && m_name e && m_value e.

Lemma set_field_spec n e f v d rc d' : doc_ok n d -> n < 2 ^ 31 - 1 -> set_field e f v d = (rc, d') ->
  key d' = key d /\ doc_ok (n + 1) d' /\
  (rc = 0 /\ fields_map d' = <[f := v]> (fields_map d) \/ rc = -1 /\ d' = d /\ all_ok e = false).
Proof.
  intros Hok Hn. unfold set_field. rewrite (field_find_spec n) by done.
  assert (Hok' : doc_ok (n + 1) d) by (destruct Hok as (? & ? & ? & ?); unfold doc_ok; split_and!; [done..|lia]).
  destruct Hok as (Hb & Hc & Hf & Hl). rewrite Hb.
  destruct (tmap name (fields d) !! f) as [x|] eqn:E.
  - destruct (m_new_value e) eqn:Em; cbn [negb].
    + intros [= <- <-]. pose proof (table_find name _ _ f Hc) as Hx. rewrite E in Hx.
      apply find_split in Hx as (_ & _ & _ & Hx & _).
      destruct (table_alter name _ (fields d) f (set_value v) x Hc E Hx) as [H1 H2].
      split; [done|]. split.
      * unfold doc_ok. cbn [fields bucket_count field_count upd]. rewrite H2, map_size_insert_Some by (by eexists).
        split_and!; [done..|lia].
      * left. split; [done|]. unfold fields_map. cbn [fields upd]. by rewrite H2, fmap_insert.
    + intros [= <- <-]. split_and!; try done. right. split_and!; try done. unfold all_ok. rewrite Em.
      by rewrite andb_false_r.
  - destruct (m_field e && m_name e && m_value e) eqn:Em; cbn [negb].
    + intros [= <- <-]. destruct (table_push name _ (fields d) (Field f v) Hc E) as [H1 H2].
      cbn [name] in H1, H2. split; [done|]. split.
      * unfold doc_ok. cbn [fields bucket_count field_count upd].
        rewrite H2, map_size_insert_None, i32_small by (done || lia). split_and!; [done..|lia|lia].
      * left. split; [done|]. unfold fields_map. cbn [fields upd]. by rewrite H2, fmap_insert.
    + intros [= <- <-]. split_and!; try done. right. split_and!; try done. unfold all_ok.
      by rewrite <- !andb_assoc, (andb_assoc (m_field e)), Em, !andb_false_r.
Qed.

Lemma size_pos {A} (m : gmap bytes A) k x : m !! k = Some x -> (0 < stdpp.base.size m)%nat.
Proof.
  intros H. assert (stdpp.base.size m <> 0%nat); [|lia]. apply map_size_ne_0_lookup. exists k. by rewrite H.
Qed.

(** ** The contract *)

Inductive dop :=
  | DSet (k f v : bytes) | DGet (k f : bytes) | DDelField (k f : bytes) | DDel (k : bytes)
  | DExist (k : bytes) | DFieldExist (k f : bytes) | DCount (k : bytes).

Definition exec (e : env) (o : dop) (t : table) : res * table :=
  match o with
  | DSet k f v => let '(rc, t) := kvs_doc_set e k f v t in (RCode rc, t)
  | DGet k f => (RVal (kvs_doc_get k f t), t)
  | DDelField k f => let '(rc, t) := kvs_doc_del_field k f t in (RCode rc, t)
  | DDel k => let '(rc, t) := kvs_doc_del k t in (RCode rc, t)
  | DExist k => (RCode (kvs_doc_exist k t), t)
  | DFieldExist k f => (RCode (kvs_doc_field_exist k f t), t)
  | DCount k => (RCode (kvs_doc_field_count k t), t)
  end.
Fixpoint run (es : list (env * dop)) (t : table) : list res * table :=
  match es with
  | [] => ([], t)
  | (e, o) :: r => let '(x, t) := exec e o t in let '(xs, t) := run r t in (x :: xs, t)
  end.

Abbreviation docs := (gmap bytes (gmap bytes bytes)).
Definition lookup2 (m : docs) (k f : bytes) : option bytes := d ← m !! k; d !! f.

(** A step of the map of maps.  A set that fails may have made the document:
    its allocations come one after the other. *)
Inductive doc_step (m : docs) : dop -> res -> docs -> Prop :=
  | dp_set k f v : doc_step m (DSet k f v) (RCode 0) (<[k := <[f := v]> (default ∅ (m !! k))]> m)
  | dp_set_fail k f v : doc_step m (DSet k f v) (RCode (-1)) m
  | dp_set_half k f v : m !! k = None -> doc_step m (DSet k f v) (RCode (-1)) (<[k := ∅]> m)
  | dp_get k f : doc_step m (DGet k f) (RVal (lookup2 m k f)) m
  | dp_del_field k f d : m !! k = Some d -> is_Some (d !! f) ->
      doc_step m (DDelField k f) (RCode 0) (<[k := delete f d]> m)
  | dp_del_field_none k f : lookup2 m k f = None -> doc_step m (DDelField k f) (RCode 1) m
  | dp_del k : is_Some (m !! k) -> doc_step m (DDel k) (RCode 0) (delete k m)
  | dp_del_none k : m !! k = None -> doc_step m (DDel k) (RCode 1) m
  | dp_exist k : doc_step m (DExist k) (RCode (if m !! k then 0 else 1)) m
  | dp_field_exist k f : doc_step m (DFieldExist k f) (RCode (if lookup2 m k f then 0 else 1)) m
  | dp_count k : doc_step m (DCount k)
      (RCode (match m !! k with Some d => Z.of_nat (stdpp.base.size d) | None => -1 end)) m.
Inductive doc_run : docs -> list dop -> list res -> docs -> Prop :=
  | dr_nil m : doc_run m [] [] m
  | dr_cons m o r m' os rs m'' :
      doc_step m o r m' -> doc_run m' os rs m'' -> doc_run m (o :: os) (r :: rs) m''.

Lemma abs_lookup t k : abs t !! k = fields_map <$> tmap key (buckets t) !! k.
Proof. apply lookup_fmap. Qed.
Lemma lookup2_abs n t k f d : wf n t -> tmap key (buckets t) !! k = Some d ->
  lookup2 (abs t) k f = value <$> field_find d f.
Proof.
  intros W Hd. unfold lookup2. rewrite abs_lookup, Hd. cbn. unfold fields_map. rewrite lookup_fmap.
  by rewrite (field_find_spec n) by (by eapply W).
Qed.

Lemma doc_set_spec n e k f v t rc t' : wf n t -> 0 <= n < 2 ^ 31 - 1 -> kvs_doc_set e k f v t = (rc, t') ->
  wf (n + 1) t' /\
  (rc = 0 /\ abs t' = <[k := <[f := v]> (default ∅ (abs t !! k))]> (abs t) \/
   rc = -1 /\ (abs t' = abs t \/ abs t !! k = None /\ abs t' = <[k := ∅]> (abs t)) /\
     (all_ok e = true -> abs t !! k = None /\ abs t' = abs t /\ count t = 2 ^ 22)).
Proof.
  intros W Hn. unfold kvs_doc_set. rewrite (find_spec n) by done. rewrite abs_lookup.
  destruct (tmap key (buckets t) !! k) as [d|] eqn:E.
  - destruct (set_field e f v d) as [rc1 d'] eqn:Es. intros [= <- <-].
    destruct (wf_docs _ _ W k d E) as [Hk Hok].
    destruct (set_field_spec n e f v d rc1 d' Hok ltac:(lia) Es) as (Hk' & Hok' & Hr).
    destruct (set_doc_spec n (n + 1) t k (fun _ => d') d W ltac:(lia) E (eq_trans Hk' Hk) Hok') as [W' Ht].
    assert (Ha : abs (set_doc k (fun _ => d') t) = <[k := fields_map d']> (abs t))
      by (unfold abs; by rewrite Ht, fmap_insert).
    split; [done|]. rewrite Ha. destruct Hr as [[-> ->]|(-> & -> & He)]; [by left|]. right.
    split_and!; [done| |by rewrite He]. left. apply insert_id. by rewrite abs_lookup, E.
  - destruct (doc_create_entry e k t) as [[d|] t1] eqn:Ec;
      destruct (create_entry_spec n e t k _ t1 W ltac:(lia) E Ec) as [W1 H1].
    + destruct H1 as (Ht & Hk & Hok & Hm).
      destruct (set_field e f v d) as [rc1 d'] eqn:Es. intros [= <- <-].
      assert (Hok1 : doc_ok n d) by (destruct Hok as (? & ? & ? & ?); unfold doc_ok; split_and!; [done..|lia]).
      destruct (set_field_spec n e f v d rc1 d' Hok1 ltac:(lia) Es) as (Hk' & Hok' & Hr).
      assert (E1 : tmap key (buckets t1) !! k = Some d) by (by rewrite Ht, lookup_insert_eq).
      destruct (set_doc_spec n (n + 1) t1 k (fun _ => d') d W1 ltac:(lia) E1 (eq_trans Hk' Hk) Hok') as [W' Ht'].
      assert (Ha : abs (set_doc k (fun _ => d') t1) = <[k := fields_map d']> (abs t))
        by (unfold abs; by rewrite Ht', Ht, insert_insert_eq, fmap_insert).
      split; [done|]. rewrite Ha. destruct Hr as [[-> ->]|(-> & -> & He)]; rewrite Hm; [by left|]. right.
      split_and!; [done|by right|by rewrite He].
    + intros [= <- <-]. destruct H1 as [Ht Hfull]. split; [apply (wf_mono n); [done|lia]|]. right.
      split_and!; [done|left; unfold abs; by rewrite Ht|].
      intros Ha. unfold all_ok in Ha. rewrite !andb_true_iff in Ha.
      split_and!; [done|unfold abs; by rewrite Ht|]. apply Hfull; tauto.
Qed.

Lemma doc_del_field_spec n k f t rc t' : wf n t -> 0 <= n < 2 ^ 31 -> kvs_doc_del_field k f t = (rc, t') ->
  wf n t' /\
  (rc = 1 /\ t' = t /\ lookup2 (abs t) k f = None \/
   rc = 0 /\ exists d, abs t !! k = Some d /\ is_Some (d !! f) /\ abs t' = <[k := delete f d]> (abs t)).
Proof.
  intros W Hn. unfold kvs_doc_del_field. rewrite (find_spec n) by done.
  destruct (tmap key (buckets t) !! k) as [d|] eqn:E.
  - pose proof (lookup2_abs n t k f d W E) as Hl. destruct (wf_docs _ _ W k d E) as [Hk Hok].
    rewrite (field_find_spec n) in Hl by done. assert (Hok' := Hok). destruct Hok' as (Hb & Hc & Hf & Hle).
    rewrite Hb. pose proof (table_unlink name _ (fields d) f Hc) as Hu.
    destruct (unlink_chain name f _) as [c|].
    + destruct Hu as ([x Hx] & H1 & H2). intros [= <- <-].
      match goal with |- context [set_doc k ?g t] => destruct (set_doc_spec n n t k g d W) as [W' Ht] end;
        [lia|done|done| |].
      { unfold doc_ok. cbn [fields bucket_count field_count upd]. rewrite H2.
        rewrite map_size_delete_Some by (by rewrite Hx). pose proof (size_pos _ _ _ Hx).
        rewrite i32_small by lia. split_and!; [done..|lia|lia]. }
      split; [done|]. right. split; [done|]. exists (fields_map d). rewrite abs_lookup, E.
      assert (Hv : fields_map d !! f = Some (value x)) by (unfold fields_map; by rewrite lookup_fmap, Hx).
      split_and!; [done|by rewrite Hv|].
      unfold abs. rewrite Ht, fmap_insert. f_equal. unfold fields_map. cbn [fields upd]. by rewrite H2, fmap_delete.
    + intros [= <- <-]. split; [done|]. left. by rewrite Hl, Hu.
  - intros [= <- <-]. split; [done|]. left. split_and!; try done. unfold lookup2. by rewrite abs_lookup, E.
Qed.

Lemma doc_del_spec n k t rc t' : wf n t -> kvs_doc_del k t = (rc, t') ->
  wf n t' /\ (rc = 1 /\ t' = t /\ abs t !! k = None \/
              rc = 0 /\ is_Some (abs t !! k) /\ abs t' = delete k (abs t)).
Proof.
  intros W. unfold kvs_doc_del. rewrite decide_False by (by eapply buckets_nonempty).
  pose proof (table_unlink key (size t) (buckets t) k (wf_chained _ _ W)) as Hu. rewrite abs_lookup.
  destruct (unlink_chain key k _) as [c|].
  - destruct Hu as ([d Hd] & H1 & H2). intros [= <- <-].
    pose proof (size_pos _ _ _ Hd).
    assert (Hi : i32 (count t - 1) = count t - 1).
    { apply i32_small. pose proof (wf_count _ _ W). pose proof (wf_load _ _ W). destruct (size_cases _ _ W). lia. }
    split.
    + split; cbn [buckets size count upd]; [done| | | |apply W].
      * rewrite H2. apply map_Forall_delete, W.
      * rewrite H2, map_size_delete_Some, Hi by (by rewrite Hd). pose proof (wf_count _ _ W). lia.
      * rewrite Hi. pose proof (wf_load _ _ W). lia.
    + right. split_and!; [done|by rewrite Hd|]. unfold abs. cbn [buckets upd]. by rewrite H2, fmap_delete.
  - intros [= <- <-]. split; [done|]. left. by rewrite Hu.
Qed.

Lemma exec_spec n e o t : wf n t -> 0 <= n < 2 ^ 31 - 1 ->
  wf (n + 1) (exec e o t).2 /\ doc_step (abs t) o (exec e o t).1 (abs (exec e o t).2).
Proof.
  intros W Hn. assert (W1 : wf (n + 1) t) by (apply (wf_mono n); [done|lia]).
  destruct o as [k f v|k f|k f|k|k|k f|k]; cbn [exec].
  - destruct (kvs_doc_set e k f v t) as [rc t'] eqn:E. destruct (doc_set_spec n e k f v t rc t' W Hn E) as [W' H].
    split; [done|]. cbn. destruct H as [[-> ->]|(-> & [->|[Hk ->]] & _)]; by constructor.
  - split; [done|]. cbn. unfold kvs_doc_get. rewrite (find_spec n) by done.
    destruct (tmap key (buckets t) !! k) as [d|] eqn:E; cbn.
    + rewrite <- (lookup2_abs n t k f d W E). constructor.
    + replace (@None bytes) with (lookup2 (abs t) k f) by (unfold lookup2; by rewrite abs_lookup, E). constructor.
  - destruct (kvs_doc_del_field k f t) as [rc t'] eqn:E.
    destruct (doc_del_field_spec n k f t rc t' W ltac:(lia) E) as [W' H].
    split; [apply (wf_mono n); [done|lia]|]. cbn. destruct H as [(-> & -> & H)|(-> & d & H1 & H2 & ->)]; by constructor.
  - destruct (kvs_doc_del k t) as [rc t'] eqn:E. destruct (doc_del_spec n k t rc t' W E) as [W' H].
    split; [apply (wf_mono n); [done|lia]|]. cbn. destruct H as [(-> & -> & H)|(-> & H & ->)]; by constructor.
  - split; [done|]. cbn. unfold kvs_doc_exist. rewrite (find_spec n) by done.
    pose proof (dp_exist (abs t) k) as H. rewrite abs_lookup in H.
    by destruct (tmap key (buckets t) !! k).
  - split; [done|]. cbn. unfold kvs_doc_field_exist. rewrite (find_spec n) by done.
    pose proof (dp_field_exist (abs t) k f) as H. destruct (tmap key (buckets t) !! k) as [d|] eqn:E.
    + rewrite (lookup2_abs n t k f d W E) in H. by destruct (field_find d f).
    + unfold lookup2 in H. by rewrite abs_lookup, E in H.
  - split; [done|]. cbn. unfold kvs_doc_field_count. rewrite (find_spec n) by done.
    pose proof (dp_count (abs t) k) as H. rewrite abs_lookup in H.
    destruct (tmap key (buckets t) !! k) as [d|] eqn:E; [|done]. cbn in H. unfold fields_map in H.
    rewrite map_size_fmap in H. destruct (wf_docs _ _ W k d E) as (_ & _ & _ & -> & _). done.
Qed.

Lemma run_spec es n t : wf n t -> 0 <= n -> n + Z.of_nat (length es) < 2 ^ 31 - 1 ->
  wf (n + Z.of_nat (length es)) (run es t).2 /\
  doc_run (abs t) (snd <$> es) (run es t).1 (abs (run es t).2).
Proof.
  revert n t. induction es as [|[e o] es IH]; intros n t W Hn Hl; cbn [run length fmap list_fmap] in *.
  - rewrite Z.add_0_r. split; [done|constructor].
  - destruct (exec_spec n e o t W ltac:(lia)) as [W1 Hs]. destruct (exec e o t) as [x t1]. cbn [fst snd] in *.
    destruct (IH (n + 1) t1 W1) as [W2 Hr]; [lia|lia|]. destruct (run es t1) as [xs t2]. cbn [fst snd] in *.
    split; [|by econstructor]. replace (n + Z.of_nat (S (length es))) with (n + 1 + Z.of_nat (length es)) by lia. done.
Qed.

Lemma create_spec t t' : kvs_doc_create true t = (0, t') -> wf 0 t' /\ abs t' = ∅.
Proof.
  intros H. assert (t' = empty_table) as -> by exact (eq_sym (f_equal snd H)). clear H. unfold empty_table. split.
  - split; cbn [buckets size count]; rewrite ?tmap_empty; try done; [by apply chained_empty|].
    by exists 0.
  - unfold abs. cbn [buckets]. by rewrite tmap_empty, fmap_empty.
Qed.

Lemma count_bounds n t : wf n t -> count t = Z.of_nat (stdpp.base.size (abs t)) /\ count t <= size t <= 2 ^ 22.
Proof.
  intros W. unfold abs. rewrite map_size_fmap. split_and!; [apply W|apply W|].
  destruct (size_cases n t W). lia.
Qed.

(** C30: the document engine is a map of maps: after [kvs_doc_create], any
    sequence of calls, whichever allocations fail, returns what the map of maps
    returns; the only trace of a failed set is a document without fields. *)
Theorem doc_refines_maps t0 t es :
  kvs_doc_create true t0 = (0, t) -> Z.of_nat (length es) < 2 ^ 31 - 1 ->
  doc_run ∅ (snd <$> es) (run es t).1 (abs (run es t).2).
Proof.
  intros Hc Hl. destruct (create_spec t0 t Hc) as [W Ha].
  destruct (run_spec es 0 t W ltac:(lia) ltac:(lia)) as [_ H]. by rewrite Ha in H.
Qed.

Definition env_ok : env := Env true true true true true true true true.
Definition env_half : env := Env true true true true true false true true.
Definition table0 : table := (kvs_doc_create true (Table [] 0 0)).2.
Lemma doc_refines_maps_witness :
  let es := [(env_ok, DSet [97] [1] [2]); (env_ok, DSet [97] [3] [4]); (env_half, DSet [98] [1] [2]);
             (env_ok, DGet [97] [3]); (env_ok, DExist [98]); (env_ok, DDelField [97] [1]);
             (env_ok, DCount [97]); (env_ok, DDel [98]); (env_ok, DGet [98] [1])] in
  (run es table0).1 = [RCode 0; RCode 0; RCode (-1); RVal (Some [4]); RCode 0; RCode 0; RCode 1; RCode 0; RVal None] /\
  doc_run ∅ (snd <$> es) (run es table0).1 (abs (run es table0).2).
Proof.
  intros es. split; [vm_compute; reflexivity|].
  refine (doc_refines_maps (Table [] 0 0) table0 es _ _).
  - reflexivity.
  - vm_compute. reflexivity.
Defined.

(** A set that fails half way is visible: the document exists afterwards. *)
Example failed_set_leaves_document :
  let '(rc, t) := kvs_doc_set env_half [98] [1] [2] table0 in
  rc = -1 /\ kvs_doc_exist [98] table0 = 1 /\ kvs_doc_exist [98] t = 0.
Proof. vm_compute. done. Qed.

(** The bounds of the document table, and when a set fails: there are never
    more documents than buckets nor more than 2^22 buckets, and a set with
    memory to spare fails exactly when it needs a new document and there are
    already 2^22. *)
Theorem doc_set_full t0 t es k f v :
  kvs_doc_create true t0 = (0, t) -> Z.of_nat (length es) < 2 ^ 31 - 2 ->
  let t1 := (run es t).2 in
  let '(rc, t2) := kvs_doc_set env_ok k f v t1 in
  count t1 = Z.of_nat (stdpp.base.size (abs t1)) /\ count t1 <= size t1 <= 2 ^ 22 /\
  (rc = 0 <-> ~ (abs t1 !! k = None /\ count t1 = 2 ^ 22)) /\ (rc <> 0 -> rc = -1 /\ abs t2 = abs t1).
Proof.
  intros Hc Hl t1. destruct (create_spec t0 t Hc) as [W Ha].
  destruct (run_spec es 0 t W ltac:(lia) ltac:(lia)) as [W1 _]. fold t1 in W1.
  set (n := 0 + Z.of_nat (length es)) in W1.
  destruct (kvs_doc_set env_ok k f v t1) as [rc t2] eqn:E.
  destruct (doc_set_spec n env_ok k f v t1 rc t2 W1 ltac:(lia) E) as [W2 H].
  destruct (count_bounds n t1 W1) as [Hc1 Hb1]. destruct (count_bounds _ t2 W2) as [Hc2 Hb2].
  split_and!; [done|lia|lia| |destruct H as [[-> _]|(-> & _ & Hx)]; [done|]; intros _; split; [done|by apply Hx]].
  destruct H as [[-> Ht2]|(-> & _ & Hx)]; [|split; [done|]; intros Hn; destruct Hn; destruct (Hx eq_refl) as (? & _ & ?); auto].
  split; [|done]. intros _ [Hnone Hfull]. rewrite Ht2, map_size_insert_None in Hc2 by done. lia.
Qed.

Lemma doc_set_full_witness :
  (kvs_doc_set env_ok [97] [1] [2] table0).1 = 0 /\ count table0 <= size table0 <= 2 ^ 22.
Proof.
  pose proof (doc_set_full (Table [] 0 0) table0 [] [97] [1] [2] eq_refl eq_refl) as H. cbv zeta in H.
  split; [vm_compute; reflexivity|]. change (run [] table0).2 with table0 in H.
  destruct (kvs_doc_set env_ok [97] [1] [2] table0) as [rc t2]. apply H.
Defined.

End Doc.
