(* ===== verification/Outring.v ===== *)
(** * Outring: the output ring of a client connection

    [queue_bytes], [mod_events], [on_write] and [flush_conn_output] of
    [src/core/reactor.c]: replies are copied into a ring of OUT_RING_SIZE bytes
    and sent when the socket takes them.  The theorem states that the ring is a
    bounded queue of bytes: a reply is taken whole or refused whole, and what is
    sent is what was taken, in order.  The dispatcher is modelled on the bounded
    queue. *)

From S2P Require Import Prelude.

Module Outring.

(** ** The bounded queue *)

(** What a connection promises to the command handlers: [cap] bytes can wait. *)
Definition put (cap : nat) (data q : bytes) : Z * bytes :=
  if decide (length data = 0%nat \/ length data > cap - length q)%nat then (-1, q)
  else (0, q ++ data).

(** ** The ring *)

Definition EPOLLIN : Z := 1.
Definition EPOLLOUT : Z := 4.

(** The fields of [conn_t] that output uses. *)
Record conn := Conn {
  out_ring : bytes;
  out_ring_head : nat;
  out_ring_tail : nat;
  out_ring_len : nat;
  epoll_events : Z;
  defer_epollout : bool;
}.
#[export] Instance eta_conn : Eta conn := fun c =>
  Conn (out_ring c) (out_ring_head c) (out_ring_tail c) (out_ring_len c) (epoll_events c)
    (defer_epollout c).

Section Ops.

(** OUT_RING_SIZE is a power of two; the code has 2^18. *)
Context (bits : nat).
Definition OUT_RING_SIZE : nat := 2 ^ bits.

(** [mod_events]; what [epoll_ctl] returns is not looked at. *)
Definition mod_events (events : Z) (c : conn) : conn :=
  if decide (epoll_events c = events) then c else c <| epoll_events := events |>.

(** [queue_bytes]. *)
Definition queue_bytes (data : bytes) (c : conn) : Z * conn :=
  let len := length data in
  if decide (len = 0)%nat then (-1, c)
  else if decide (len > OUT_RING_SIZE - out_ring_len c)%nat then (-1, c)
  else
    let old_len := out_ring_len c in
    let tail := out_ring_tail c in
    let first_chunk := (OUT_RING_SIZE - tail)%nat in
    let c :=
      if decide (len <= first_chunk)%nat then c <| out_ring ::= blit tail data |>
      else c <| out_ring ::= blit tail (take first_chunk data) |>
             <| out_ring ::= blit 0 (drop first_chunk data) |> in
    let c := c <| out_ring_tail := Nat.land (tail + len) (OUT_RING_SIZE - 1) |>
               <| out_ring_len ::= fun n => (n + len)%nat |> in
    let c := if decide (old_len = 0%nat /\ defer_epollout c = false)
             then mod_events (Z.lor EPOLLIN EPOLLOUT) c else c in
    (0, c).

(** What [send] answers: it took some of the bytes, EAGAIN, or an error that
    closes the connection. *)
Inductive answer := Sent (n : nat) | Again | Failed.

(** The loop of [on_write]: the bytes handed to the socket, and whether the
    connection was closed.  Every round but the last empties some of the ring. *)
Fixpoint write_loop (fuel : nat) (ans : list answer) (c : conn) : bytes * bool * conn :=
  match fuel with
  | O => ([], false, c)
  | S f =>
      if decide (out_ring_len c = 0%nat) then ([], false, c)
      else
        let head := out_ring_head c in
        let chunk := Nat.min (OUT_RING_SIZE - head) (out_ring_len c) in
        match ans with
        | [] | Again :: _ => ([], false, c)
        | Failed :: _ => ([], true, c)
        | Sent n :: ans =>
            let w := Nat.min n chunk in
            if decide (w = 0%nat) then ([], false, c)
            else
              let '(out, closed, c') :=
                write_loop f ans
                  (c <| out_ring_head := Nat.land (head + w) (OUT_RING_SIZE - 1) |>
                     <| out_ring_len ::= fun l => (l - w)%nat |>) in
              (slice head w (out_ring c) ++ out, closed, c')
        end
  end.

(** [on_write]. *)
Definition on_write (ans : list answer) (c : conn) : bytes * bool * conn :=
  let '(out, closed, c) := write_loop (S (out_ring_len c)) ans c in
  if closed : bool then (out, true, c)
  else
    (out, false,
     mod_events (if decide (out_ring_len c > 0)%nat then Z.lor EPOLLIN EPOLLOUT else EPOLLIN) c).

(** [flush_conn_output] on one connection. *)
Definition flush_conn_output (ans : list answer) (c : conn) : bytes * bool * conn :=
  if decide (out_ring_len c > 0)%nat then on_write ans c else ([], false, c).

(** ** The ring is the queue *)

(** The bytes waiting, oldest first. *)
Definition pending (c : conn) : bytes :=
  let first := Nat.min (OUT_RING_SIZE - out_ring_head c) (out_ring_len c) in
  slice (out_ring_head c) first (out_ring c) ++ slice 0 (out_ring_len c - first) (out_ring c).

Record ok (c : conn) : Prop := {
  ok_buf : length (out_ring c) = OUT_RING_SIZE;
  ok_head : (out_ring_head c < OUT_RING_SIZE)%nat;
  ok_len : (out_ring_len c <= OUT_RING_SIZE)%nat;
  ok_tail : out_ring_tail c = ((out_ring_head c + out_ring_len c) `mod` OUT_RING_SIZE)%nat;
}.

Lemma ring_pos : (0 < OUT_RING_SIZE)%nat.
Proof. unfold OUT_RING_SIZE. apply Nat.neq_0_lt_0, Nat.pow_nonzero. lia. Qed.

(** [x & (OUT_RING_SIZE - 1)] is the remainder. *)
Lemma land_mod x : Nat.land x (OUT_RING_SIZE - 1) = (x `mod` OUT_RING_SIZE)%nat.
Proof.
  unfold OUT_RING_SIZE. rewrite <- Nat.land_ones. f_equal. rewrite Nat.ones_equiv. lia.
Qed.

(** The byte at distance [i] from the head. *)
Lemma pending_lookup c i : ok c ->
  pending c !! i = if decide (i < out_ring_len c)%nat
                   then out_ring c !! ((out_ring_head c + i) `mod` OUT_RING_SIZE)%nat else None.
Proof.
  intros [Hb Hh Hl _]. unfold pending. set (first := Nat.min _ _).
  destruct (decide (i < first)%nat) as [Hi|Hi].
  - rewrite lookup_app_l by (rewrite length_slice; lia).
    rewrite lookup_slice, !decide_True by lia. by rewrite Nat.mod_small by lia.
  - rewrite lookup_app_r, length_slice by (rewrite ?length_slice; lia). rewrite lookup_slice.
    destruct (decide (i < out_ring_len c)%nat) as [Hc|Hc]; [|by rewrite decide_False by lia].
    rewrite decide_True, mod_wrap, decide_False by lia. f_equal. lia.
Qed.

Lemma length_pending c : ok c -> length (pending c) = out_ring_len c.
Proof. intros [Hb Hh Hl _]. unfold pending. rewrite length_app, !length_slice; lia. Qed.

(** What a queued reply leaves in the buffer. *)
Lemma wrap_lookup (buf data : bytes) tail j :
  length buf = OUT_RING_SIZE -> (tail < OUT_RING_SIZE)%nat -> (length data <= OUT_RING_SIZE)%nat ->
  (j < OUT_RING_SIZE)%nat ->
  let first := (OUT_RING_SIZE - tail)%nat in
  (if decide (length data <= first)%nat then blit tail data buf
   else blit 0 (drop first data) (blit tail (take first data) buf)) !! j =
  let d := if decide (tail <= j)%nat then (j - tail)%nat else (OUT_RING_SIZE - tail + j)%nat in
  if decide (d < length data)%nat then data !! d else buf !! j.
Proof.
  intros Hb Ht Hd Hj. cbv zeta. pose proof (length_take data (OUT_RING_SIZE - tail)).
  pose proof (length_drop data (OUT_RING_SIZE - tail)).
  destruct (decide (length data <= _)%nat) as [Hf|Hf].
  - rewrite lookup_blit by lia. repeat case_decide; try lia; try done.
  - rewrite lookup_blit by (rewrite length_blit; lia). rewrite lookup_blit by lia.
    repeat case_decide; try lia; try done.
    + rewrite lookup_drop. f_equal. lia.
    + by rewrite lookup_take_lt by lia.
Qed.

Lemma mod_events_frame e c :
  ok c -> ok (mod_events e c) /\ pending (mod_events e c) = pending c /\ epoll_events (mod_events e c) = e.
Proof. intros H. unfold mod_events. case_decide; [done|]. split; [by destruct H|done]. Qed.

(** [queue_bytes] is [put]. *)
Lemma queue_bytes_put data c : ok c ->
  ok (queue_bytes data c).2 /\
  ((queue_bytes data c).1, pending (queue_bytes data c).2) = put OUT_RING_SIZE data (pending c).
Proof.
  intros Hok. unfold queue_bytes, put. rewrite length_pending by done.
  destruct (decide (length data = 0%nat)) as [H0|H0].
  { rewrite decide_True by auto. done. }
  destruct (decide (length data > _)%nat) as [H1|H1].
  { rewrite decide_True by auto. done. }
  rewrite (decide_False (P := (length data = 0%nat \/ length data > _)%nat)) by tauto. pose proof Hok as [Hb Hh Hl Ht].
  set (c1 := if decide (length data <= _)%nat then _ else _).
  set (c2 := c1 <| out_ring_tail := _ |> <| out_ring_len ::= _ |>).
  assert (out_ring c1 = if decide (length data <= OUT_RING_SIZE - out_ring_tail c)%nat
            then blit (out_ring_tail c) data (out_ring c)
            else blit 0 (drop (OUT_RING_SIZE - out_ring_tail c) data)
                   (blit (out_ring_tail c) (take (OUT_RING_SIZE - out_ring_tail c) data) (out_ring c))) as Hr1
    by (unfold c1; by case_decide).
  assert (out_ring_head c1 = out_ring_head c /\ out_ring_len c1 = out_ring_len c) as [Hh1 Hl1]
    by (unfold c1; by case_decide).
  pose proof ring_pos. pose proof (Nat.mod_upper_bound (out_ring_head c + out_ring_len c) OUT_RING_SIZE).
  assert (length (out_ring c1) = OUT_RING_SIZE) as Hb1.
  { rewrite Hr1. pose proof (length_take data (OUT_RING_SIZE - out_ring_tail c)).
    pose proof (length_drop data (OUT_RING_SIZE - out_ring_tail c)).
    case_decide; rewrite !length_blit; rewrite ?length_blit; lia. }
  assert (ok c2) as Hok2.
  { split; cbn [out_ring out_ring_head out_ring_len out_ring_tail upd c2]; rewrite ?Hh1, ?Hl1; try lia.
    rewrite land_mod, Ht, Nat.Div0.add_mod_idemp_l. f_equal. lia. }
  assert (pending c2 = pending c ++ data) as Hp.
  { apply list_eq. intros i. rewrite pending_lookup by done.
    rewrite lookup_app. rewrite pending_lookup, length_pending by done.
    cbn [out_ring out_ring_head out_ring_len out_ring_tail upd c2]. rewrite Hh1, Hl1, Hr1.
    destruct (decide (i < out_ring_len c + length data)%nat) as [Hi|Hi].
    - rewrite wrap_lookup; [|lia..|apply Nat.mod_upper_bound; lia].
      rewrite Ht, !mod_wrap by lia.
      destruct (decide (i < out_ring_len c)%nat) as [Hc|Hc].
      + destruct (lookup_lt_is_Some_2 (out_ring c) ((out_ring_head c + i) `mod` OUT_RING_SIZE)) as [x Hx].
        { rewrite Hb. apply Nat.mod_upper_bound. lia. }
        rewrite mod_wrap in Hx by lia. rewrite Hx.
        cbv zeta. rewrite decide_False; [done|]. repeat case_decide; lia.
      + cbv zeta. rewrite decide_True by (repeat case_decide; lia). f_equal. repeat case_decide; lia.
    - rewrite decide_False by lia. rewrite lookup_ge_None_2 by lia. done. }
  change (_ <| out_ring_tail := _ |> <| out_ring_len ::= _ |>) with c2.
  clearbody c2. rewrite <- Hp. clear Hp. destruct (decide (out_ring_len c = 0%nat /\ _)); [|done].
  destruct (mod_events_frame (Z.lor EPOLLIN EPOLLOUT) c2 Hok2) as (? & Hm & _). cbn [fst snd]. by rewrite Hm.
Qed.

(** A piece of the ring up to its end is a prefix of what is pending. *)
Lemma pop_spec c w : ok c -> (w <= Nat.min (OUT_RING_SIZE - out_ring_head c) (out_ring_len c))%nat ->
  let c' := c <| out_ring_head := Nat.land (out_ring_head c + w) (OUT_RING_SIZE - 1) |>
              <| out_ring_len ::= fun l => (l - w)%nat |> in
  ok c' /\ slice (out_ring_head c) w (out_ring c) = take w (pending c) /\ pending c' = drop w (pending c).
Proof.
  intros Hok Hw c'. pose proof Hok as [Hb Hh Hl Ht]. pose proof ring_pos.
  assert (ok c') as Hok'.
  { split; unfold c'; cbn; rewrite ?land_mod; try lia.
    - apply Nat.mod_upper_bound. lia.
    - rewrite Ht, Nat.Div0.add_mod_idemp_l. f_equal. lia. }
  split; [done|]. split; apply list_eq; intros i.
  - rewrite lookup_slice. destruct (decide (i < w)%nat).
    + rewrite lookup_take_lt, pending_lookup, decide_True by (done || lia). by rewrite Nat.mod_small by lia.
    + by rewrite lookup_take_ge by lia.
  - rewrite lookup_drop, !pending_lookup by done. unfold c'. cbn. rewrite land_mod.
    destruct (decide (w + i < out_ring_len c)%nat).
    + rewrite decide_True, Nat.Div0.add_mod_idemp_l by lia. do 2 f_equal. lia.
    + by rewrite decide_False by lia.
Qed.

Lemma write_loop_spec fuel ans c : ok c ->
  let r := write_loop fuel ans c in ok r.2 /\ r.1.1 ++ pending r.2 = pending c.
Proof.
  revert ans c. induction fuel as [|f IH]; intros ans c Hok; cbn [write_loop]; [done|].
  case_decide; [done|]. destruct ans as [|[n| |] ans]; try done. case_decide; [done|].
  destruct (pop_spec c (Nat.min n (Nat.min (OUT_RING_SIZE - out_ring_head c) (out_ring_len c))) Hok)
    as (Hok' & Hs & Hp); [lia|].
  specialize (IH ans _ Hok'). destruct (write_loop f ans _) as [[out closed] c'].
  cbn [fst snd] in *. destruct IH as [? IH]. split; [done|].
  by rewrite <- app_assoc, IH, Hp, Hs, take_drop.
Qed.

(** Two full sends empty the ring. *)
Lemma on_write_drains n m ans c : ok c -> (out_ring_len c <= n)%nat -> (out_ring_len c <= m)%nat ->
  (on_write (Sent n :: Sent m :: ans) c).1 = (pending c, false).
Proof.
  intros Hok Hn Hm. unfold on_write.
  destruct (write_loop_spec (S (out_ring_len c)) (Sent n :: Sent m :: ans) c Hok) as [Hok' Hp].
  enough (out_ring_len (write_loop (S (out_ring_len c)) (Sent n :: Sent m :: ans) c).2 = 0%nat /\
          (write_loop (S (out_ring_len c)) (Sent n :: Sent m :: ans) c).1.2 = false) as [Hz Hc].
  { destruct (write_loop _ _ _) as [[out closed] c']. cbn [fst snd] in *. subst closed. cbn [fst snd].
    f_equal. rewrite <- Hp. apply length_pending in Hok'. rewrite Hz in Hok'.
    by rewrite (nil_length_inv _ Hok'), app_nil_r. }
  clear Hok' Hp. destruct Hok as [_ Hh Hl _]. cbn [write_loop].
  case_decide; [done|]. rewrite decide_False by lia.
  destruct (out_ring_len c) as [|l] eqn:El; [lia|]. cbn [write_loop].
  cbn [out_ring_len out_ring_head upd]. rewrite El, land_mod.
  destruct (decide (S l - _ = 0)%nat) as [Hz|Hz]; [cbn; lia|].
  assert (((out_ring_head c + Nat.min n (Nat.min (OUT_RING_SIZE - out_ring_head c) (S l)))
    `mod` OUT_RING_SIZE)%nat = 0%nat) as ->.
  { replace (_ + _)%nat with OUT_RING_SIZE by lia. apply Nat.Div0.mod_same. }
  rewrite decide_False by lia. destruct l as [|l]; cbn [write_loop];
    cbn [out_ring_len upd]; [cbn; lia|].
  case_decide as Hz2; [cbn; lia|]. exfalso. revert Hz2. cbn [out_ring_len upd]. rewrite El. lia.
Qed.

(** ** A connection's history *)

Inductive rop :=
  | RQueue (data : bytes)
  | RDefer (b : bool)
  | RFlush (ans : list answer).

(** The replies that were taken, what was sent, the connection; a closed
    connection takes no more steps. *)
Definition rstep (o : rop) (s : bytes * bytes * conn) : bytes * bytes * conn :=
  let '(taken, sent, c) := s in
  match o with
  | RQueue data => let '(rc, c) := queue_bytes data c in
                   (if decide (rc = 0) then taken ++ data else taken, sent, c)
  | RDefer b => (taken, sent, c <| defer_epollout := b |>)
  | RFlush ans => let '(out, _, c) := flush_conn_output ans c in (taken, sent ++ out, c)
  end.
Definition rrun (os : list rop) (s : bytes * bytes * conn) : bytes * bytes * conn :=
  fold_left (fun s o => rstep o s) os s.

Definition fifo (s : bytes * bytes * conn) : Prop :=
  let '(taken, sent, c) := s in ok c /\ taken = sent ++ pending c.

Lemma flush_spec ans c : ok c ->
  let r := flush_conn_output ans c in ok r.2 /\ r.1.1 ++ pending r.2 = pending c /\
    (r.1.2 = false -> pending r.2 <> [] -> out_ring_len c <> 0%nat ->
     epoll_events r.2 = Z.lor EPOLLIN EPOLLOUT).
Proof.
  intros Hok. unfold flush_conn_output. case_decide as H0.
  - unfold on_write. destruct (write_loop_spec (S (out_ring_len c)) ans c Hok) as [H1 H2].
    destruct (write_loop _ _ _) as [[out closed] c']. cbn [fst snd] in *. destruct closed; cbn [fst snd].
    { by split_and!. }
    match goal with |- context [mod_events ?e c'] => destruct (mod_events_frame e c' H1) as (? & -> & ->) end.
    split_and!; [done|done|]. intros _ Hp _. rewrite decide_True; [done|].
    destruct (decide (out_ring_len c' > 0)%nat); [done|]. exfalso. apply Hp, nil_length_inv.
    rewrite length_pending; [lia|done].
  - cbn. split_and!; [done|done|]. lia.
Qed.

Lemma rstep_fifo o s : fifo s -> fifo (rstep o s).
Proof.
  destruct s as [[taken sent] c]. intros [Hok ->]. destruct o as [data|b|ans]; cbn [rstep].
  - destruct (queue_bytes_put data c Hok) as [H1 H2]. destruct (queue_bytes data c) as [rc c'].
    cbn [fst snd] in *. unfold put in H2. split; [done|].
    case_decide; injection H2 as -> ->; by rewrite ?decide_True, ?decide_False, ?app_assoc by done.
  - split; [by destruct Hok|done].
  - destruct (flush_spec ans c Hok) as (H1 & H2 & _). destruct (flush_conn_output ans c) as [[out b] c'].
    cbn [fst snd] in *. split; [done|]. by rewrite <- app_assoc, H2.
Qed.

Lemma rrun_fifo os s : fifo s -> fifo (rrun os s).
Proof. revert s. induction os as [|o os IH]; intros s H; [done|]. cbn. apply IH. by apply rstep_fifo. Qed.

(** A connection as [on_accept] sets it up. *)
Definition fresh (buf : bytes) : conn := Conn buf 0 0 0 EPOLLIN false.

Lemma fresh_ok buf : length buf = OUT_RING_SIZE -> ok (fresh buf).
Proof. intros H. pose proof ring_pos. split; cbn; [done|lia|lia|]. by rewrite Nat.Div0.mod_0_l. Qed.

End Ops.

Arguments rrun bits os s : assert.

(** C29: From [on_accept] on, whatever is queued and whenever the socket takes
    bytes, the bytes sent followed by the bytes pending are the accepted replies
    in order, nothing lost, repeated or reordered by the wrap-around; a reply is
    accepted exactly when all of it fits beside what is pending; after a flush
    that leaves bytes behind the connection waits for EPOLLOUT; and two sends
    that take all they are offered empty the ring. *)
Theorem reply_ring_fifo bits buf os taken sent c :
  length buf = OUT_RING_SIZE bits ->
  rrun bits os ([], [], fresh buf) = (taken, sent, c) ->
  taken = sent ++ pending bits c /\
  (forall data, ((queue_bytes bits data c).1, pending bits (queue_bytes bits data c).2) =
                put (OUT_RING_SIZE bits) data (pending bits c)) /\
  (forall ans, pending bits c <> [] ->
     let '(out, closed, c') := flush_conn_output bits ans c in
     out ++ pending bits c' = pending bits c /\
     (closed = false -> pending bits c' <> [] -> epoll_events c' = Z.lor EPOLLIN EPOLLOUT)) /\
  (forall n m ans, (out_ring_len c <= n)%nat -> (out_ring_len c <= m)%nat ->
     (on_write bits (Sent n :: Sent m :: ans) c).1 = (pending bits c, false)).
Proof.
  intros Hb Hr. pose proof (rrun_fifo bits os ([], [], fresh buf)) as Hf. rewrite Hr in Hf.
  destruct Hf as [Hok ->].
  { split; [by apply fresh_ok|]. symmetry. apply nil_length_inv. exact (length_pending bits _ (fresh_ok bits buf Hb)). }
  split_and!; [done| | |].
  - intros data. apply queue_bytes_put, Hok.
  - intros ans Hp. destruct (flush_spec bits ans c Hok) as (_ & H1 & H2).
    destruct (flush_conn_output bits ans c) as [[out closed] c']. cbn [fst snd] in *.
    split; [done|]. intros Hc Hp'. apply H2; [done..|]. intros H0. apply Hp, nil_length_inv.
    by rewrite length_pending.
  - intros n m ans Hn Hm. by apply on_write_drains.
Qed.

(** A ring of eight bytes that wraps around, is refused a reply, and sends. *)
Definition hist : list rop :=
  [RQueue [1; 2; 3; 4; 5; 6]; RFlush [Sent 4]; RDefer true; RQueue [7; 8; 9; 10]; RQueue [11; 12; 13]; RFlush [Sent 3; Again]].
Lemma reply_ring_fifo_witness :
  exists c, rrun 3 hist ([], [], fresh (replicate 8 0)) =
    ([1; 2; 3; 4; 5; 6; 7; 8; 9; 10], [1; 2; 3; 4; 5; 6; 7], c) /\
  [1; 2; 3; 4; 5; 6; 7; 8; 9; 10] = [1; 2; 3; 4; 5; 6; 7] ++ pending 3 c /\ pending 3 c = [8; 9; 10].
Proof.
  eexists. split; [vm_compute; reflexivity|].
  match goal with |- context [pending 3 ?c] => set (c1 := c) end.
  split; [|vm_compute; reflexivity].
  refine (proj1 (reply_ring_fifo 3 (replicate 8 0) hist _ _ c1 _ _)); vm_compute; reflexivity.
Defined.

End Outring.
