(* ===== verification/Dump.v ===== *)
(** * Dump: the snapshot file and its recovery

    [kvs_dump_to_fd] of [src/main/kvstore.c] writes every entry of the five
    engines, with its expiry, through a 4 MB buffer; [replay_dump_file] of
    [src/persistence/kvs_persist.c] reads such a file back.  A record is

      engine (1 byte), flags (1), key length (4), key, value length (4), value,
      and, if the flag is set, the time of expiry in milliseconds (8).

    [write] answers from a list, one answer per call; once the list ends a call
    takes all it is given.  The clock is read for every entry, so its readings are
    an argument, by the number of the entry. *)

From S2P Require Import Prelude Cstring Engine Hash Array Skiptable Doc Expire.

Module Dump.

Definition KVS_ENGINE_ARRAY : Z := 1.
Definition KVS_ENGINE_RBTREE : Z := 2.
Definition KVS_ENGINE_HASH : Z := 3.
Definition KVS_ENGINE_SKIPTABLE : Z := 4.
Definition KVS_ENGINE_DOC : Z := 5.
Definition KVSD_FLAG_HAS_EXPIRE : Z := 1.
Definition DUMP_BUF_SIZE : Z := 4 * 1024 * 1024.
Definition BUFFER_CAP : Z := 65536.

Definition zlen (b : bytes) : Z := Z.of_nat (length b).

(** ** The buffered writer *)

Inductive write_rc := WTook (n : nat) | WFail.
(** The file so far, the buffer up to [pos], and the answers to come. *)
Record dump_ctx := Ctx { file : bytes; buf : bytes; answers : list write_rc }.
#[export] Instance eta_ctx : Eta dump_ctx := fun c => Ctx (file c) (buf c) (answers c).

(** Write all of [data]: whether it went, what went, the answers left. *)
Fixpoint write_loop (ans : list write_rc) (data : bytes) : bool * bytes * list write_rc :=
  match data, ans with
  | [], _ => (true, [], ans)
  | _, [] => (true, data, [])
  | _, WFail :: r | _, WTook O :: r => (false, [], r)
  | _, WTook n :: r =>
      let '(ok, o, r') := write_loop r (drop n data) in (ok, take n data ++ o, r')
  end.
(** A flush that fails keeps the whole buffer. *)
Definition dump_flush (c : dump_ctx) : bool * dump_ctx :=
  let '(ok, o, r) := write_loop (answers c) (buf c) in
  (ok, Ctx (file c ++ o) (if ok then [] else buf c) r).
Definition dump_write_buf (data : bytes) (c : dump_ctx) : bool * dump_ctx :=
  if decide (zlen (buf c) + zlen data > DUMP_BUF_SIZE) then
    let '(ok, c) := dump_flush c in
    if negb ok then (false, c)
    else if decide (zlen data > DUMP_BUF_SIZE) then
      let '(ok, o, r) := write_loop (answers c) data in (ok, Ctx (file c ++ o) (buf c) r)
    else (true, c <| buf ::= fun b => b ++ data |>)
  else (true, c <| buf ::= fun b => b ++ data |>).
(** Calls in a row, ended by the first that fails. *)
Fixpoint dump_write_all (pieces : list bytes) (c : dump_ctx) : bool * dump_ctx :=
  match pieces with
  | [] => (true, c)
  | p :: r => let '(ok, c) := dump_write_buf p c in if ok then dump_write_all r c else (false, c)
  end.

(** ** Records *)

Record item := Item { i_engine : Z; i_key : bytes; i_value : bytes }.

(** What is written for an entry: [ttl] is what [kvs_expire_ttl] answered, [now]
    the clock after it. *)
Definition record (now ttl : Z) (x : item) : list bytes :=
  let klen := u32 (zlen (i_key x)) in
  let vlen := u32 (zlen (i_value x)) in
  let flags := if decide (ttl >= 0) then KVSD_FLAG_HAS_EXPIRE else 0 in
  [[u8 (i_engine x)]; [flags]; le_bytes 4 klen; take (Z.to_nat klen) (i_key x);
   le_bytes 4 vlen; take (Z.to_nat vlen) (i_value x)] ++
  (if decide (Z.land flags KVSD_FLAG_HAS_EXPIRE <> 0) then [le_bytes 8 (u64 (now + ttl * 1000))] else []).

(** ** What is dumped *)

(** A node of the tree by its contents. *)
Inductive tree := Nil | Node (l : tree) (k v : bytes) (r : tree).
Definition STACK_MAX : nat := 256.
(** The inner loop: down to the left, pushing. *)
Fixpoint push_left (t : tree) (stack : list tree) : option (list tree) :=
  match t with
  | Nil => Some stack
  | Node l _ _ _ => if decide (length stack < STACK_MAX)%nat then push_left l (t :: stack) else None
  end.
(** The outer loop; nothing if the stack overflows. *)
Fixpoint traverse (fuel : nat) (cur : tree) (stack : list tree) : option (list (bytes * bytes)) :=
  match fuel with
  | O => None
  | S f =>
      stack ← push_left cur stack;
      match stack with
      | Node _ k v r :: stack => cons (k, v) <$> traverse f r stack
      | _ => Some []
      end
  end.
Fixpoint nodes_of (t : tree) : nat := match t with Nil => O | Node l _ _ r => S (nodes_of l + nodes_of r) end.
Definition rbtree_items (t : tree) : option (list (bytes * bytes)) := traverse (S (nodes_of t)) t [].

(** A document as text.  [snprintf] at [doc_pos] writes what fits and returns the
    full length, so [doc_pos] can pass the end of the buffer; the next call is
    then given a size that wrapped around, which is nothing here. *)
Definition field_text (f : Doc.field) : bytes := Doc.name f ++ [61] ++ Doc.value f ++ [32].
Fixpoint put_fields (fs : list Doc.field) (text : bytes) : option bytes :=
  match fs with
  | [] => Some text
  | f :: r =>
      if decide (zlen text + zlen (field_text f) < BUFFER_CAP) then put_fields r (text ++ field_text f) else None
  end.
Fixpoint put_buckets (bs : list (list Doc.field)) (text : bytes) : option bytes :=
  match bs with
  | [] => Some text
  | c :: r => if decide (zlen text < BUFFER_CAP - 4) then text ← put_fields c text; put_buckets r text else Some text
  end.
Definition doc_text (d : Doc.doc) : option bytes :=
  text ← put_buckets (take (Z.to_nat (Doc.bucket_count d)) (Doc.fields d)) [];
  Some (match last text with Some 32 => take (length text - 1) text | _ => text end).

Record store := Store {
  global_hash : Hash.kvs_hash_t; global_array : Array.kvs_array_t; global_rbtree : tree;
  global_skiptable : Skiptable.skiptable; global_doc : Doc.table; global_expire : Expire.table }.

Definition pair_item (eng : Z) (p : bytes * bytes) : item := Item eng p.1 (cstr p.2).
Definition hash_items (s : store) : list item :=
  map (fun n => pair_item KVS_ENGINE_HASH (Hash.kv n)) (Hash.all (global_hash s)).
Definition array_items (s : store) : list item :=
  match Array.table (global_array s) with
  | None => []
  | Some t =>
      omap (fun i => match Array.slot_item t i with
                     | Array.mk_item (Some k) v => Some (pair_item KVS_ENGINE_ARRAY (k, default [] v))
                     | _ => None
                     end) (seqZ 0 Array.KVS_ARRAY_SIZE)
  end.
Definition doc_items (s : store) : option (list item) :=
  mapM (fun d => text ← doc_text d; Some (Item KVS_ENGINE_DOC (Doc.key d) text))
    (concat (take (Z.to_nat (Doc.size (global_doc s))) (Doc.buckets (global_doc s)))).

(** The two readings of the clock for the [n]-th entry: in [kvs_expire_ttl] and
    for the time of expiry. *)
Definition clock : Type := nat -> Z * Z.
Definition entry_record (ck : clock) (e : Expire.table) (n : nat) (x : item) : list bytes :=
  record (ck n).2 (Expire.kvs_expire_ttl (ck n).1 (i_engine x) (i_key x) e) x.
(** The entries from number [n] on, until a write fails. *)
Fixpoint dump_items (ck : clock) (e : Expire.table) (n : nat) (xs : list item) (c : dump_ctx) : bool * dump_ctx :=
  match xs with
  | [] => (true, c)
  | x :: r =>
      let '(ok, c) := dump_write_all (entry_record ck e n x) c in
      if ok then dump_items ck e (S n) r c else (false, c)
  end.

(** [kvs_dump_to_fd], nothing where the C code leaves its buffers: the code it
    returns and the file.  Without memory for its stack the tree is left out; the
    result of the skip list's visit is not looked at. *)
Definition kvs_dump_to_fd (malloc_buf malloc_stack : bool) (ck : clock) (aof_offset : Z) (ans : list write_rc) (s : store) :
    option (Z * bytes) :=
  if negb malloc_buf then Some (-1, [])
  else
    rb ← (if malloc_stack then rbtree_items (global_rbtree s) else Some []);
    sk ← Skiptable.kvs_skiptable_foreach (global_skiptable s);
    dc ← doc_items s;
    let e := global_expire s in
    let first := hash_items s ++ array_items s ++ map (pair_item KVS_ENGINE_RBTREE) rb in
    let sk := map (pair_item KVS_ENGINE_SKIPTABLE) sk in
    let '(ok, c) := dump_write_buf (le_bytes 8 aof_offset) (Ctx [] [] ans) in
    if negb ok then Some (-1, file c)
    else
      let '(ok, c) := dump_items ck e 0 first c in
      if negb ok then Some (-1, file c)
      else
        let '(_, c) := dump_items ck e (length first) sk c in
        let '(ok, c) := dump_items ck e (length first + length sk) dc c in
        if negb ok then Some (-1, file c)
        else let '(ok, c) := dump_flush c in Some (if ok then 0 else -1, file c).

(** ** Reading it back *)

(** What the recovery does to the engines. *)
Inductive action :=
  | ASet (eng : Z) (k v : bytes)
  | ADocSet (k f v : bytes)
  | AExpire (eng : Z) (k : bytes) (ttl_ms : Z).

(** [strtok_r (., " ", .)]: the words. *)
Fixpoint words (cur : bytes) (b : bytes) : list bytes :=
  match b with
  | [] => match cur with [] => [] | _ => [cur] end
  | c :: r => if decide (c = 32) then (match cur with [] => [] | _ => [cur] end) ++ words [] r
              else words (cur ++ [c]) r
  end.
(** [strchr (., '=')]: the parts before and after it. *)
Fixpoint split_eq (b : bytes) : option (bytes * bytes) :=
  match b with
  | [] => None
  | c :: r => if decide (c = 61) then Some ([], r) else prod_map (cons c) id <$> split_eq r
  end.
Definition doc_actions (k v : bytes) : list action :=
  omap (fun w => (fun p => ADocSet k p.1 p.2) <$> split_eq w) (words [] v).

(** The allocations for a record: the key, the value, a document's copy. *)
Record allocs := Allocs { m_key : bool; m_value : bool; m_dup : bool }.
Definition engine_actions (m_dup : bool) (eng : Z) (k v : bytes) : list action :=
  if decide (eng = KVS_ENGINE_DOC) then if m_dup then doc_actions (cstr k) (cstr v) else []
  else [ASet eng (cstr k) (cstr v)].

(** One record at the head of [rest]: what it does, and what follows it unless
    the loop ends here. *)
Definition replay_record (m : allocs) (now : Z) (rest : bytes) : list action * option bytes :=
  match rest with
  | eng :: flags :: r1 =>
      if decide (zlen r1 < 4) then ([], None)
      else if decide (eng < 1 \/ eng > 5) then ([], None)
      else
        let klen := le_val r1.[0, 4] in
        let r2 := drop 4 r1 in
        if decide (zlen r2 < klen) then ([], None)
        else if negb (m_key m) then ([], None)
        else
          let k := take (Z.to_nat klen) r2 in
          let r3 := drop (Z.to_nat klen) r2 in
          if decide (zlen r3 < 4) then ([], None)
          else
            let vlen := le_val r3.[0, 4] in
            let r4 := drop 4 r3 in
            if decide (zlen r4 < vlen) then ([], None)
            else if negb (m_value m) then ([], None)
            else
              let v := take (Z.to_nat vlen) r4 in
              let r5 := drop (Z.to_nat vlen) r4 in
              let acts := engine_actions (m_dup m) eng k v in
              if decide (Z.land flags KVSD_FLAG_HAS_EXPIRE <> 0) then
                if decide (8 <= zlen r5) then
                  let ttl_ms := i64 (i64 (le_val r5.[0, 8]) - now) in
                  (acts ++ (if decide (ttl_ms > 0) then [AExpire eng (cstr k) ttl_ms] else []), Some (drop 8 r5))
                else (acts, None)
              else (acts, Some r5)
  | _ => ([], None)
  end.
(** The loop over the mapped file; [n] numbers the records. *)
Fixpoint replay_loop (fuel : nat) (mallocs : nat -> allocs) (now : nat -> Z) (n : nat) (rest : bytes) : list action :=
  match fuel with
  | O => []
  | S f =>
      match replay_record (mallocs n) (now n) rest with
      | (acts, Some rest') => acts ++ replay_loop f mallocs now (S n) rest'
      | (acts, None) => acts
      end
  end.
Definition replay_dump_file (mallocs : nat -> allocs) (now : nat -> Z) (f : bytes) : Z * list action :=
  if decide (zlen f < 8) then (0, [])
  else (le_val f.[0, 8], replay_loop (length f) mallocs now 0 (drop 8 f)).

(** The header of a snapshot that came from a master, rewritten in place. *)
Definition kvs_dump_set_aof_offset (off : Z) (f : bytes) : bytes := blit 0 (le_bytes 8 off) f.

(** ** The writer *)

(** A disk that takes at least a byte per call. *)
Definition writes (ans : list write_rc) : Prop := Forall (fun a => exists n, a = WTook (S n)) ans.
Definition written (c : dump_ctx) : bytes := file c ++ buf c.

Lemma write_loop_all ans : forall data, writes ans ->
  exists r, write_loop ans data = (true, data, r) /\ writes r.
Proof.
  induction ans as [|a ans IH]; intros [|x data] Hw; cbn [write_loop]; try (by eexists).
  apply Forall_cons in Hw as [[n ->] Hw]. destruct (IH (drop (S n) (x :: data)) Hw) as (r & -> & Hr).
  exists r. by rewrite take_drop.
Qed.
Lemma flush_all c : writes (answers c) ->
  exists r, dump_flush c = (true, Ctx (written c) [] r) /\ writes r.
Proof.
  intros Hw. unfold dump_flush. destruct (write_loop_all _ (buf c) Hw) as (r & -> & Hr). by exists r.
Qed.
Lemma write_buf_all data c : writes (answers c) ->
  exists c', dump_write_buf data c = (true, c') /\ written c' = written c ++ data /\ writes (answers c').
Proof.
  intros Hw. unfold dump_write_buf. case_decide.
  - destruct (flush_all c Hw) as (r & -> & Hr). cbn [negb]. case_decide; cbn [answers].
    + destruct (write_loop_all _ data Hr) as (r' & -> & Hr'). eexists. split; [done|]. split; [|done].
      unfold written. cbn [file buf]. by rewrite app_nil_r.
    + eexists. split; [done|]. done.
  - eexists. split; [done|]. split; [|done]. unfold written. cbn. by rewrite app_assoc.
Qed.
Lemma write_all_all ps : forall c, writes (answers c) ->
  exists c', dump_write_all ps c = (true, c') /\ written c' = written c ++ concat ps /\ writes (answers c').
Proof.
  induction ps as [|p ps IH]; intros c Hw; cbn [dump_write_all concat].
  - exists c. by rewrite app_nil_r.
  - destruct (write_buf_all p c Hw) as (c1 & -> & H1 & Hw1). destruct (IH c1 Hw1) as (c2 & -> & H2 & Hw2).
    exists c2. by rewrite H2, H1, app_assoc.
Qed.

(** The bytes of the entries from number [n] on. *)
Fixpoint entries_bytes (ck : clock) (e : Expire.table) (n : nat) (xs : list item) : bytes :=
  match xs with
  | [] => []
  | x :: r => concat (entry_record ck e n x) ++ entries_bytes ck e (S n) r
  end.
Lemma entries_bytes_app ck e xs ys : forall n,
  entries_bytes ck e n (xs ++ ys) = entries_bytes ck e n xs ++ entries_bytes ck e (n + length xs) ys.
Proof.
  induction xs as [|x xs IH]; intros n; cbn [entries_bytes app length]; [by rewrite Nat.add_0_r|].
  rewrite IH, <- app_assoc. by rewrite Nat.add_succ_r.
Qed.
Lemma dump_items_all ck e xs : forall n c, writes (answers c) ->
  exists c', dump_items ck e n xs c = (true, c') /\ written c' = written c ++ entries_bytes ck e n xs /\ writes (answers c').
Proof.
  induction xs as [|x xs IH]; intros n c Hw; cbn [dump_items entries_bytes].
  - exists c. by rewrite app_nil_r.
  - destruct (write_all_all (entry_record ck e n x) c Hw) as (c1 & -> & H1 & Hw1).
    destruct (IH (S n) c1 Hw1) as (c2 & -> & H2 & Hw2). exists c2. by rewrite H2, H1, app_assoc.
Qed.

(** Everything there is to dump, in the order of the file: the entries that the
    enumerations of [kvs_dump_to_fd] visit.  For the hash table and the skip list
    it is shown below that these are their maps; the tree is given by its contents,
    not by the heap of [Rbtree]. *)
Definition dumped (s : store) : option (list item) :=
  rb ← rbtree_items (global_rbtree s);
  sk ← Skiptable.kvs_skiptable_foreach (global_skiptable s);
  dc ← doc_items s;
  Some (hash_items s ++ array_items s ++ map (pair_item KVS_ENGINE_RBTREE) rb ++
        map (pair_item KVS_ENGINE_SKIPTABLE) sk ++ dc).

Lemma dump_file ck off ans s xs : dumped s = Some xs -> writes ans ->
  kvs_dump_to_fd true true ck off ans s = Some (0, le_bytes 8 off ++ entries_bytes ck (global_expire s) 0 xs).
Proof.
  unfold dumped, kvs_dump_to_fd. cbn [negb].
  destruct (rbtree_items _) as [rb|]; [|done]. destruct (Skiptable.kvs_skiptable_foreach _) as [sk|]; [|done].
  destruct (doc_items s) as [dc|]; [|done]. cbn [mbind option_bind]. intros [= <-] Hw.
  destruct (write_buf_all (le_bytes 8 off) (Ctx [] [] ans) Hw) as (c1 & -> & H1 & W1). cbn [negb].
  match goal with |- context [dump_items ck _ 0 ?l c1] => set (first := l) end.
  destruct (dump_items_all ck (global_expire s) first 0 c1 W1) as (c2 & -> & H2 & W2). cbn [negb].
  match goal with |- context [dump_items ck _ (length first) ?l c2] => set (sks := l) end.
  destruct (dump_items_all ck (global_expire s) sks (length first) c2 W2) as (c3 & -> & H3 & W3). cbn [negb].
  destruct (dump_items_all ck (global_expire s) dc (length first + length sks) c3 W3) as (c4 & -> & H4 & W4). cbn [negb].
  destruct (flush_all c4 W4) as (r & -> & _). cbn [file]. do 2 f_equal.
  rewrite H4, H3, H2, H1. change (written (Ctx [] [] ans)) with (@nil Z). cbn [app].
  replace (hash_items s ++ _) with ((first ++ sks) ++ dc) by (unfold first, sks; by rewrite <- !app_assoc).
  rewrite !entries_bytes_app, length_app. by rewrite <- !app_assoc.
Qed.

(** ** A record and back *)

Record item_ok (x : item) : Prop := {
  ok_engine : 1 <= i_engine x <= 5;
  ok_key : zlen (i_key x) < 2 ^ 32;
  ok_value : zlen (i_value x) < 2 ^ 32 }.
Definition all_ok : allocs := Allocs true true true.

(** What the recovery at time [now'] does for an entry that was dumped with
    [ttl] at [now]. *)
Definition item_actions (now ttl now' : Z) (x : item) : list action :=
  engine_actions true (i_engine x) (i_key x) (i_value x) ++
  (if decide (ttl >= 0 /\ now + ttl * 1000 > now')
   then [AExpire (i_engine x) (cstr (i_key x)) (now + ttl * 1000 - now')] else []).

Lemma slice_le n z (tail : bytes) : 0 <= z < 256 ^ Z.of_nat n -> le_val (le_bytes n z ++ tail).[0, n] = z.
Proof. intros H. rewrite slice_here by (by rewrite length_le_bytes). by apply le_val_bytes. Qed.
Lemma slice_le4 z (tail : bytes) : 0 <= z < 2 ^ 32 -> le_val (le_bytes 4 z ++ tail).[0, 4] = z.
Proof. intros H. by apply slice_le. Qed.
Lemma slice_le8 z (tail : bytes) : 0 <= z < 2 ^ 64 -> le_val (le_bytes 8 z ++ tail).[0, 8] = z.
Proof. intros H. by apply slice_le. Qed.
Lemma drop_le n z (tail : bytes) : drop n (le_bytes n z ++ tail) = tail.
Proof. rewrite <- (length_le_bytes n z) at 1. apply drop_app_length. Qed.
Lemma take_len (a tail : bytes) : take (Z.to_nat (zlen a)) (a ++ tail) = a.
Proof. unfold zlen. rewrite Nat2Z.id. apply take_app_length. Qed.
Lemma take_all (a : bytes) : take (Z.to_nat (zlen a)) a = a.
Proof. unfold zlen. rewrite Nat2Z.id. apply firstn_all. Qed.
Lemma drop_len (a tail : bytes) : drop (Z.to_nat (zlen a)) (a ++ tail) = tail.
Proof. unfold zlen. rewrite Nat2Z.id. apply drop_app_length. Qed.
Lemma zlen_app (a b : bytes) : zlen (a ++ b) = zlen a + zlen b.
Proof. unfold zlen. rewrite length_app. lia. Qed.
Lemma zlen_le n z : zlen (le_bytes n z) = Z.of_nat n.
Proof. unfold zlen. by rewrite length_le_bytes. Qed.
Lemma zlen_nonneg (a : bytes) : 0 <= zlen a.
Proof. unfold zlen. lia. Qed.

Lemma replay_record_spec now ttl now' x tail : item_ok x ->
  (ttl >= 0 -> 0 <= now + ttl * 1000 < 2 ^ 63) -> 0 <= now' < 2 ^ 63 ->
  replay_record all_ok now' (concat (record now ttl x) ++ tail) = (item_actions now ttl now' x, Some tail).
Proof.
  intros [He Hk Hv] Hx Hn. pose proof (zlen_nonneg (i_key x)). pose proof (zlen_nonneg (i_value x)).
  unfold record, item_actions. rewrite !(u32_small (zlen _)) by lia.
  assert (u8 (i_engine x) = i_engine x) as -> by (unfold u8; rewrite Z.mod_small; lia).
  rewrite !take_all.
  set (flags := if decide (ttl >= 0) then KVSD_FLAG_HAS_EXPIRE else 0).
  rewrite concat_app. cbn [concat app]. rewrite app_nil_r, <- !app_assoc. set (rest := _ ++ tail).
  cbn [replay_record app]. pose proof (zlen_nonneg rest).
  rewrite !zlen_app, !zlen_le, decide_False by (pose proof (zlen_nonneg rest); lia).
  rewrite decide_False by lia. rewrite slice_le4, drop_le by lia.
  rewrite !zlen_app, !zlen_le, decide_False by lia. cbn [m_key m_value m_dup all_ok negb].
  rewrite take_len, drop_len, !zlen_app, zlen_le, decide_False by lia.
  rewrite slice_le4, drop_le, zlen_app, decide_False by lia. rewrite take_len, drop_len.
  subst flags rest. destruct (decide (ttl >= 0)) as [Ht|Ht].
  - specialize (Hx Ht). change (Z.land KVSD_FLAG_HAS_EXPIRE KVSD_FLAG_HAS_EXPIRE) with 1.
    rewrite !(decide_True (P := 1 <> 0)) by done. cbn [concat]. rewrite app_nil_r, (u64_small (now + ttl * 1000)) by lia.
    rewrite decide_True by (rewrite zlen_app, zlen_le; pose proof (zlen_nonneg tail); lia).
    rewrite slice_le8, drop_le by lia. rewrite !i64_small by (rewrite ?i64_small; lia).
    destruct (decide (now + ttl * 1000 - now' > 0)).
    + by rewrite decide_True by lia.
    + by rewrite decide_False by lia.
  - change (Z.land 0 KVSD_FLAG_HAS_EXPIRE) with 0. rewrite !(decide_False (P := 0 <> 0)) by lia.
    rewrite decide_False by lia. by rewrite app_nil_r.
Qed.

(** ** The loop *)

Lemma record_shrinks m now rest a rest' : replay_record m now rest = (a, Some rest') -> (length rest' < length rest)%nat.
Proof.
  unfold replay_record. destruct rest as [|eng [|flags r1]]; [done|done|]. cbn [length].
  repeat (case_decide || case_match); intros [= _ <-]; rewrite ?length_drop; lia.
Qed.
Lemma replay_fuel ms now f1 : forall f2 n rest, (length rest <= f1)%nat -> (length rest <= f2)%nat ->
  replay_loop f1 ms now n rest = replay_loop f2 ms now n rest.
Proof.
  assert (Hz : forall f n, replay_loop f ms now n [] = []) by (intros [|f] n; done).
  induction f1 as [|f1 IH]; intros f2 n rest H1 H2.
  - destruct rest; [|cbn in H1; lia]. by rewrite !Hz.
  - destruct f2 as [|f2]; [destruct rest; [by rewrite !Hz|cbn in H2; lia]|]. cbn [replay_loop].
    destruct (replay_record _ _ rest) as [a [rest'|]] eqn:Hr; [|done].
    apply record_shrinks in Hr. f_equal. apply IH; lia.
Qed.

(** What the recovery of the entries from number [n] on does; entry and record have
    the same number. *)
Fixpoint restored (ck : clock) (e : Expire.table) (now' : nat -> Z) (n : nat) (xs : list item) : list action :=
  match xs with
  | [] => []
  | x :: r =>
      item_actions (ck n).2 (Expire.kvs_expire_ttl (ck n).1 (i_engine x) (i_key x) e) (now' n) x ++
      restored ck e now' (S n) r
  end.

(** The times of expiry fit a [long long]. *)
Definition times_ok (ck : clock) (e : Expire.table) (xs : list item) : Prop :=
  forall n x, x ∈ xs -> let ttl := Expire.kvs_expire_ttl (ck n).1 (i_engine x) (i_key x) e in
    ttl >= 0 -> 0 <= (ck n).2 + ttl * 1000 < 2 ^ 63.

Lemma replay_entries ck e now' xs : forall n f, Forall item_ok xs -> times_ok ck e xs ->
  (forall i, 0 <= now' i < 2 ^ 63) -> (length (entries_bytes ck e n xs) <= f)%nat ->
  replay_loop f (fun _ => all_ok) now' n (entries_bytes ck e n xs) = restored ck e now' n xs.
Proof.
  induction xs as [|x xs IH]; intros n f Hok Ht Hn Hf; cbn [entries_bytes restored] in *; [by destruct f|].
  apply Forall_cons in Hok as [Hx Hok]. destruct f as [|f].
  { unfold entry_record, record in Hf. cbn in Hf. lia. }
  cbn [replay_loop]. unfold entry_record at 1.
  rewrite replay_record_spec; [|done|apply Ht; left|apply Hn].
  f_equal. apply IH; [done| |done|].
  - intros i y Hy. apply Ht. by right.
  - rewrite length_app in Hf. unfold entry_record at 1, record in Hf. cbn in Hf. lia.
Qed.


(** A rewritten header changes the offset and nothing else. *)
Lemma set_aof_offset_replay ms now off f : 0 <= off < 2 ^ 64 -> 8 <= zlen f ->
  replay_dump_file ms now (kvs_dump_set_aof_offset off f) = (off, (replay_dump_file ms now f).2).
Proof.
  intros Ho Hf. unfold kvs_dump_set_aof_offset, blit. rewrite take_0, length_le_bytes. cbn [app Nat.add].
  unfold replay_dump_file. rewrite zlen_app, zlen_le. pose proof (zlen_nonneg (drop 8 f)).
  rewrite !decide_False by lia. rewrite slice_le8, drop_le by done. cbn [snd]. f_equal.
  apply replay_fuel; rewrite ?length_app, ?length_le_bytes, length_drop; lia.
Qed.

(** ** A file that was cut off *)

Lemma slice_app_l (a b : bytes) n : Z.of_nat n <= zlen a -> slice 0 n (a ++ b) = slice 0 n a.
Proof. unfold slice, zlen. intros H. rewrite !drop_0. apply take_app_le. lia. Qed.
Lemma drop_app_l n (a b : bytes) : Z.of_nat n <= zlen a -> drop n (a ++ b) = drop n a ++ b.
Proof. unfold zlen. intros H. apply drop_app_le. lia. Qed.

(** A record of a shorter file: the same, or only a first part of it. *)
Lemma record_prefix m now r ext :
  match replay_record m now r with
  | (a, Some rest) => replay_record m now (r ++ ext) = (a, Some (rest ++ ext))
  | (a, None) => a `prefix_of` (replay_record m now (r ++ ext)).1
  end.
Proof.
  destruct r as [|eng [|flags r1]]; [apply prefix_nil..|]. cbn [replay_record app].
  pose proof (zlen_nonneg ext) as Hext. rewrite !zlen_app.
  destruct (decide (zlen r1 < 4)); [apply prefix_nil|]. rewrite (decide_False (P := _ + zlen ext < _)) by lia.
  case_decide; [apply prefix_nil|]. rewrite slice_app_l, drop_app_l, zlen_app by lia.
  set (klen := le_val _). set (r2 := drop 4 r1).
  destruct (decide (zlen r2 < klen)); [apply prefix_nil|]. rewrite (decide_False (P := _ + zlen ext < _)) by lia.
  destruct (m_key m); [|apply prefix_nil]. cbn [negb].
  assert (Hk : Z.of_nat (Z.to_nat klen) <= zlen r2) by (pose proof (zlen_nonneg r2); lia).
  rewrite (take_app_le r2 ext), drop_app_l, zlen_app by (unfold zlen in *; lia).
  set (k := take _ r2). set (r3 := drop _ r2).
  destruct (decide (zlen r3 < 4)); [apply prefix_nil|]. rewrite (decide_False (P := _ + zlen ext < _)) by lia.
  rewrite slice_app_l, drop_app_l, zlen_app by lia. set (vlen := le_val _). set (r4 := drop 4 r3).
  destruct (decide (zlen r4 < vlen)); [apply prefix_nil|]. rewrite (decide_False (P := _ + zlen ext < _)) by lia.
  destruct (m_value m); [|apply prefix_nil]. cbn [negb].
  assert (Hv : Z.of_nat (Z.to_nat vlen) <= zlen r4) by (pose proof (zlen_nonneg r4); lia).
  rewrite (take_app_le r4 ext), drop_app_l, zlen_app by (unfold zlen in *; lia).
  set (v := take _ r4). set (r5 := drop _ r4). case_decide; [|done].
  destruct (decide (8 <= zlen r5)).
  - rewrite (decide_True (P := _ <= _ + zlen ext)) by lia. by rewrite slice_app_l, drop_app_l by lia.
  - case_decide; [by apply prefix_app_r|done].
Qed.
Lemma replay_prefix ms now f : forall n r ext, (length (r ++ ext) <= f)%nat ->
  replay_loop f ms now n r `prefix_of` replay_loop f ms now n (r ++ ext).
Proof.
  induction f as [|f IH]; intros n r ext Hf; [done|]. cbn [replay_loop].
  pose proof (record_prefix (ms n) (now n) r ext) as H.
  destruct (replay_record (ms n) (now n) r) as [a [rest|]] eqn:Hr.
  - rewrite H. apply prefix_app. apply IH. apply record_shrinks in Hr. rewrite length_app in *. lia.
  - destruct (replay_record (ms n) (now n) (r ++ ext)) as [b [rest|]]; cbn [fst] in H; [by apply prefix_app_r|done].
Qed.

(** C40: a snapshot that was cut off (the file is written in place) does no harm
    beyond what is missing: whatever the file, recovering a first part of it does
    the first part of what recovering all of it does, and nothing else. *)
Theorem torn_dump_replays_prefix ms now f m :
  let whole := replay_dump_file ms now f in
  let torn := replay_dump_file ms now (take m f) in
  torn.2 `prefix_of` whole.2 /\ (torn.1 = whole.1 \/ torn = (0, [])).
Proof.
  cbn zeta. pose proof (eq_sym (take_drop m f)) as Hf. set (a := take m f) in *. set (b := drop m f) in *.
  clearbody a b. subst f.
  unfold replay_dump_file. destruct (decide (zlen a < 8)); [split; [apply prefix_nil|by right]|].
  pose proof (zlen_nonneg b). rewrite (decide_False (P := zlen (a ++ b) < 8)) by (rewrite zlen_app; lia).
  cbn [fst snd]. rewrite slice_app_l, drop_app_l by lia. split; [|by left].
  rewrite (replay_fuel ms now (length a) (length (a ++ b))).
  - apply replay_prefix. rewrite !length_app, length_drop. lia.
  - rewrite length_drop. lia.
  - rewrite length_drop, length_app. lia.
Qed.

(** ** The engines after a recovery *)

(** The SET calls an engine gets. *)
Definition sets_of (eng : Z) (acts : list action) : list (bytes * bytes) :=
  omap (fun a => match a with ASet e k v => if decide (e = eng) then Some (k, v) else None | _ => None end) acts.
Definition set_calls (ps : list (bytes * bytes)) : list op := map (fun p => OSet p.1 p.2) ps.

Lemma sets_of_app eng a b : sets_of eng (a ++ b) = sets_of eng a ++ sets_of eng b.
Proof. apply omap_app. Qed.
Lemma sets_of_docs eng k v : sets_of eng (doc_actions k v) = [].
Proof.
  unfold doc_actions. induction (words [] v) as [|w ws IH]; [done|]. cbn [omap list_omap].
  destruct (split_eq w); cbn; exact IH.
Qed.
Lemma sets_of_item eng now ttl now' x : eng <> KVS_ENGINE_DOC ->
  sets_of eng (item_actions now ttl now' x) =
    if decide (i_engine x = eng) then [(cstr (i_key x), cstr (i_value x))] else [].
Proof.
  intros He. unfold item_actions. rewrite sets_of_app.
  assert (sets_of eng (if decide (ttl >= 0 /\ now + ttl * 1000 > now')
    then [AExpire (i_engine x) (cstr (i_key x)) (now + ttl * 1000 - now')] else []) = []) as -> by (by case_decide).
  rewrite app_nil_r. unfold engine_actions. case_decide as Hd.
  - rewrite sets_of_docs, decide_False by congruence. done.
  - cbn. by case_decide.
Qed.

Definition strings (x : item) : bytes * bytes := (cstr (i_key x), cstr (i_value x)).
Lemma sets_restored eng ck e now' xs : forall n, eng <> KVS_ENGINE_DOC ->
  sets_of eng (restored ck e now' n xs) = map strings (filter (fun x => i_engine x = eng) xs).
Proof.
  induction xs as [|x xs IH]; intros n He; cbn [restored]; [done|]. rewrite sets_of_app, sets_of_item, IH by done.
  rewrite filter_cons. by case_decide.
Qed.

Lemma filter_engine eng E l : Forall (fun x => i_engine x = E) l ->
  filter (fun x => i_engine x = eng) l = if decide (E = eng) then l else [].
Proof.
  induction 1 as [|x l Hx _ IH]; [by case_decide|]. rewrite filter_cons, IH, Hx. by case_decide.
Qed.
Lemma pair_engine eng l : Forall (fun x => i_engine x = eng) (map (pair_item eng) l).
Proof. induction l; constructor; done. Qed.
Lemma doc_engine s dc : doc_items s = Some dc -> Forall (fun x => i_engine x = KVS_ENGINE_DOC) dc.
Proof.
  unfold doc_items. generalize (concat (take (Z.to_nat (Doc.size (global_doc s))) (Doc.buckets (global_doc s)))).
  intros l H. apply mapM_Some in H. induction H as [|d x l xs Hx _ IH]; constructor; [|done].
  destruct (doc_text d); [|done]. by injection Hx as <-.
Qed.
Lemma array_engine s : Forall (fun x => i_engine x = KVS_ENGINE_ARRAY) (array_items s).
Proof.
  unfold array_items. destruct (Array.table (global_array s)) as [t|]; [|constructor].
  generalize (seqZ 0 Array.KVS_ARRAY_SIZE). intros l. induction l as [|i l IH]; [constructor|]. cbn [omap list_omap].
  destruct (Array.slot_item t i) as [[k|] v]; [constructor; done|done].
Qed.
Lemma hash_items_engine s : Forall (fun x => i_engine x = KVS_ENGINE_HASH) (hash_items s).
Proof. unfold hash_items. induction (Hash.all (global_hash s)); constructor; done. Qed.

(** The entries of the hash and of the skip list among all. *)
Lemma dumped_engines s xs : dumped s = Some xs ->
  filter (fun x => i_engine x = KVS_ENGINE_HASH) xs = hash_items s /\
  exists sk, Skiptable.kvs_skiptable_foreach (global_skiptable s) = Some sk /\
    filter (fun x => i_engine x = KVS_ENGINE_SKIPTABLE) xs = map (pair_item KVS_ENGINE_SKIPTABLE) sk.
Proof.
  unfold dumped. destruct (rbtree_items _) as [rb|]; [|done].
  destruct (Skiptable.kvs_skiptable_foreach _) as [sk|]; [|done].
  destruct (doc_items s) as [dc|] eqn:Hdc; [|done]. cbn [mbind option_bind]. intros [= <-]. apply doc_engine in Hdc.
  assert (H : forall eng, filter (fun x => i_engine x = eng) (hash_items s ++ array_items s ++ map (pair_item KVS_ENGINE_RBTREE) rb ++
    map (pair_item KVS_ENGINE_SKIPTABLE) sk ++ dc) =
    (if decide (KVS_ENGINE_HASH = eng) then hash_items s else []) ++ (if decide (KVS_ENGINE_ARRAY = eng) then array_items s else []) ++
    (if decide (KVS_ENGINE_RBTREE = eng) then map (pair_item KVS_ENGINE_RBTREE) rb else []) ++
    (if decide (KVS_ENGINE_SKIPTABLE = eng) then map (pair_item KVS_ENGINE_SKIPTABLE) sk else []) ++
    (if decide (KVS_ENGINE_DOC = eng) then dc else [])).
  { intros eng. rewrite !filter_app.
    by rewrite (filter_engine eng _ _ (hash_items_engine s)), (filter_engine eng _ _ (array_engine s)),
      !(filter_engine eng _ _ (pair_engine _ _)), (filter_engine eng _ _ Hdc). }
  rewrite !H. split; [by rewrite app_nil_r|]. exists sk. split; [done|]. by rewrite app_nil_r.
Qed.

(** Setting keys that differ, each with success, makes the map of the pairs. *)
Lemma spec_sets ps : forall m rs m', NoDup ps.*1 -> spec_run m (set_calls ps) rs m' -> Forall (eq (RCode 0)) rs ->
  m' = list_to_map ps ∪ m.
Proof.
  induction ps as [|[k v] ps IH]; intros m rs m' Hn Hr Hz.
  - inversion Hr; subst. cbn. by rewrite (left_id_L ∅ (∪)).
  - cbn [fmap list_fmap fst] in Hn. apply NoDup_cons in Hn as [Hk Hn].
    inversion Hr as [|? ? r m1 ? rs' ? Hs Hrest]; subst. apply Forall_cons in Hz as [<- Hz].
    inversion Hs; subst; [|lia]. apply IH in Hrest; [|done|done]. subst m'. cbn [list_to_map foldr].
    rewrite <- insert_union_l. symmetry. apply insert_union_r. by apply not_elem_of_list_to_map_1.
Qed.

(** What the engines hold are C strings. *)
Definition hash_strings (h : Hash.kvs_hash_t) : Prop :=
  Forall (fun n => cstr_ok (Hash.key n) /\ cstr_ok (cstr (Hash.value n))) (Hash.all h).
Definition pair_strings (l : list (bytes * bytes)) : Prop := Forall (fun p => cstr_ok p.1 /\ cstr_ok p.2) l.

Lemma hash_pairs s : hash_strings (global_hash s) ->
  map strings (hash_items s) = prod_map id cstr <$> (Hash.kv <$> Hash.all (global_hash s)).
Proof.
  unfold hash_strings, hash_items. induction 1 as [|n l [Hk Hv] _ IH]; [done|].
  cbn [map fmap list_fmap] in *. rewrite IH. f_equal. unfold strings, pair_item, Hash.kv. cbn.
  by rewrite (cstr_id _ Hk), (cstr_id _ Hv).
Qed.
Lemma skip_pairs sk : pair_strings sk -> map strings (map (pair_item KVS_ENGINE_SKIPTABLE) sk) = sk.
Proof.
  induction 1 as [|[k v] l [Hk Hv] _ IH]; [done|]. cbn [map]. rewrite IH. f_equal. unfold strings, pair_item. cbn in *.
  by rewrite (cstr_id _ Hk), !(cstr_id _ Hv).
Qed.
Lemma calls_ok ps : pair_strings ps -> Forall op_ok (set_calls ps).
Proof. induction 1; constructor; done. Qed.
Lemma es_ok {Ev} (es : list (Ev * op)) ops : map snd es = ops -> Forall op_ok ops -> Forall (fun p => op_ok p.2) es.
Proof. intros <-. induction es as [|x es IH]; cbn [map]; [done|]. intros [Hx He]%Forall_cons. constructor; auto. Qed.

Lemma hash_recovered init (Hin : 0 < init < 2 ^ 31) s e0 h0 g0 es :
  Hash.wf (global_hash s) -> hash_strings (global_hash s) ->
  Hash.kvs_hash_create init e0 = (0, h0) -> (Hash.seed h0).1 <> 0 \/ (Hash.seed h0).2 <> 0 ->
  map snd es = set_calls (map strings (hash_items s)) -> Z.of_nat (length es) < 2 ^ 31 - 1 ->
  let r := engine_run (Engine0 := Hash.hash_engine init Hin) es (h0, g0) in
  Forall (eq (RCode 0)) r.1 -> Hash.abs_str r.2.1 = Hash.abs_str (global_hash s).
Proof.
  intros Hw Hs Hc Hseed He Hl r Hz. destruct (Hash.hash_create_spec init e0 h0 Hin Hc Hseed) as [Hwf Habs].
  rewrite hash_pairs in He by done. set (ps := prod_map id cstr <$> _) in He.
  assert (Forall (fun p => op_ok p.2) es) as Hok.
  { apply (es_ok _ _ He). apply calls_ok. unfold ps, pair_strings, hash_strings in *.
    rewrite !Forall_fmap. eapply Forall_impl; [exact Hs|]. done. }
  destruct (engine_run_refines (Engine0 := Hash.hash_engine init Hin) es (h0, g0)) as [_ Hr]; [done| |done|].
  - apply Hash.hash_run_room; [done|done|]. rewrite Habs, map_size_empty. lia.
  - fold r in Hr. cbn [Hash.hash_engine engine_abs fst] in Hr.
    assert (spec_run (Hash.abs_str h0) (set_calls ps) r.1 (Hash.abs_str r.2.1)) as Hr' by (rewrite <- He; exact Hr).
    apply spec_sets in Hr'; [|unfold ps|done].
    + rewrite Hr'. unfold Hash.abs_str. rewrite Habs, fmap_empty, (right_id_L ∅ (∪)).
      unfold ps, Hash.abs. by rewrite list_to_map_fmap.
    + rewrite <- !list_fmap_compose. eapply eq_rect; [apply (Hash.wf_keys _ Hw)|]. by apply list_fmap_ext.
Qed.

Lemma skip_keys t sk : Skiptable.wf t -> Skiptable.kvs_skiptable_foreach t = Some sk -> NoDup sk.*1.
Proof.
  intros (h0 & es & R) Hf. rewrite (Skiptable.foreach_rep _ _ _ R) in Hf. injection Hf as <-.
  pose proof (Skiptable.rep_sorted _ _ _ R) as Hs. clear R.
  induction Hs as [|e es Hs IH He]; cbn; constructor; [|exact IH].
  intros Hin. apply list_elem_of_fmap in Hin as (p & Hp & Hin). apply list_elem_of_In, in_map_iff in Hin as (x & <- & Hx).
  apply list_elem_of_In in Hx. rewrite Forall_forall in He. specialize (He x Hx). unfold Skiptable.key_lt in He.
  cbn in Hp. rewrite Hp, strcmp_refl in He. lia.
Qed.
Lemma skip_recovered t sk e0 t0 es rs t' :
  Skiptable.wf t -> Skiptable.kvs_skiptable_foreach t = Some sk -> pair_strings sk ->
  Skiptable.kvs_skiptable_create e0 = (0, t0) -> map snd es = set_calls sk -> Z.of_nat (length es) < 2 ^ 31 - 1 ->
  Skiptable.run es t0 = Some (rs, t') -> Forall (eq (RCode 0)) rs -> Skiptable.abs t' = Skiptable.abs t.
Proof.
  intros Hw Hf Hs Hc He Hl Hr Hz. destruct (Skiptable.create_wf e0 t0 Hc) as (Hwf & Ha & Hcnt).
  assert (Forall (fun p => op_ok p.2) es) as Hok by (apply (es_ok _ _ He); by apply calls_ok).
  destruct (Skiptable.run_safe es t0 Hwf Hok ltac:(lia)) as [Hroom Hrun]. rewrite Hr in Hrun. injection Hrun as Hrun.
  destruct (engine_run_refines (Engine0 := Skiptable.skiptable_engine) es t0 Hwf Hroom Hok) as [_ Hx].
  rewrite <- Hrun in Hx. cbn [Skiptable.skiptable_engine engine_abs fst snd] in Hx.
  assert (spec_run (Skiptable.abs t0) (set_calls sk) rs (Skiptable.abs t')) as Hx' by (rewrite <- He; exact Hx).
  apply spec_sets in Hx'; [|exact (skip_keys t sk Hw Hf)|done].
  rewrite Hx', Ha, (right_id_L ∅ (∪)). unfold Skiptable.abs. by rewrite Hf.
Qed.


(** ** Concrete dumps *)

(** Two keys in the hash, both with a time of expiry; a key in the tree and one in
    the skip list. *)
Definition hash0 : Hash.kvs_hash_t :=
  (engine_run (Engine0 := Hash.hash_engine 1 (conj eq_refl eq_refl))
     [(Hash.env_ok, OSet (str "a") (str "1")); (Hash.env_ok, OSet (str "b") (str "2"))]
     ((Hash.kvs_hash_create 1 Hash.env_ok).2, Hash.stats0)).2.1.
Definition skip0 : Skiptable.skiptable :=
  match Skiptable.run [(Skiptable.env_ok, OSet (str "s") (str "4"))] (Skiptable.kvs_skiptable_create Skiptable.env_ok).2 with
  | Some (_, t) => t
  | None => (Skiptable.kvs_skiptable_create Skiptable.env_ok).2
  end.
Definition expire0 : Expire.table :=
  (Expire.kvs_expire_set true true true 1000 KVS_ENGINE_HASH (str "a") 5000
    (Expire.kvs_expire_set true true true 1000 KVS_ENGINE_HASH (str "b") 100 Expire.table0).2).2.
Definition array0 : Array.kvs_array_t := (Array.kvs_array_create 1 Array.env_ok).2.
Definition store0 : store :=
  Store hash0 array0 (Node Nil (str "r") (str "3") Nil) skip0 (Doc.Table [] 0 0) expire0.

(** At 2000 the key b of [expire0] is over; the dump is read at 3000 and at 9000. *)
Definition at2000 : clock := fun _ => (2000, 2000).
Definition items0 : list item := default [] (dumped store0).
Definition short : list write_rc := [WTook 1; WTook 7; WTook 2].

Lemma items0_eq : dumped store0 = Some items0.
Proof. vm_compute. reflexivity. Qed.
Lemma items0_ok : Forall item_ok items0.
Proof.
  assert (H : forallb (fun x => (1 <=? i_engine x) && (i_engine x <=? 5) && (zlen (i_key x) <? 2 ^ 32) && (zlen (i_value x) <? 2 ^ 32)) items0 = true)
    by (vm_compute; reflexivity).
  apply Forall_forall. intros x Hx. rewrite forallb_forall in H. apply list_elem_of_In in Hx. specialize (H x Hx).
  rewrite !andb_true_iff in H. constructor; lia.
Qed.

Lemma times0_ok : times_ok at2000 (global_expire store0) items0.
Proof.
  assert (H : forallb (fun x => let ttl := Expire.kvs_expire_ttl 2000 (i_engine x) (i_key x) expire0 in
    (0 <=? 2000 + ttl * 1000) && (2000 + ttl * 1000 <? 2 ^ 63)) items0 = true) by (vm_compute; reflexivity).
  intros n x Hx ttl _. rewrite forallb_forall in H. apply list_elem_of_In in Hx. specialize (H x Hx).
  rewrite andb_true_iff in H. subst ttl. cbn [at2000 fst snd store0 global_expire]. lia.
Qed.
Lemma short_writes : writes short.
Proof. repeat constructor; eexists; reflexivity. Qed.


Lemma hash0_wf : Hash.wf hash0.
Proof.
  destruct (Hash.hash_create_spec 1 Hash.env_ok (Hash.kvs_hash_create 1 Hash.env_ok).2) as [Hw Ha].
  - lia.
  - vm_compute. reflexivity.
  - left. vm_compute. discriminate.
  - refine (proj1 (engine_run_refines (Engine0 := Hash.hash_engine 1 (conj eq_refl eq_refl)) _ (_, Hash.stats0) Hw _ _)).
    + apply Hash.hash_run_room; [exact Hw| |rewrite Ha; vm_compute; reflexivity]. repeat (constructor; [cbn; repeat constructor; lia|]). constructor.
    + repeat (constructor; [cbn; repeat constructor; lia|]). constructor.
Qed.
Definition is_cstr (b : bytes) : bool := forallb (fun x => (1 <=? x) && (x <=? 255)) b.
Lemma is_cstr_ok b : is_cstr b = true -> cstr_ok b.
Proof.
  unfold is_cstr. rewrite forallb_forall. intros H. apply Forall_forall. intros x Hx. apply list_elem_of_In in Hx.
  specialize (H x Hx). rewrite andb_true_iff in H. lia.
Qed.
Lemma hash0_strings : hash_strings hash0.
Proof.
  assert (H : forallb (fun n => is_cstr (Hash.key n) && is_cstr (cstr (Hash.value n))) (Hash.all hash0) = true)
    by (vm_compute; reflexivity).
  apply Forall_forall. intros n Hn. rewrite forallb_forall in H. apply list_elem_of_In in Hn. specialize (H n Hn).
  rewrite andb_true_iff in H. destruct H. split; by apply is_cstr_ok.
Qed.
Lemma skip0_wf : Skiptable.wf skip0.
Proof.
  set (es := [(Skiptable.env_ok, OSet (str "s") (str "4"))]).
  set (t0 := (Skiptable.kvs_skiptable_create Skiptable.env_ok).2).
  assert (Forall (fun p => op_ok p.2) es) as Hok by (repeat (constructor; [cbn; repeat constructor; lia|]); constructor).
  destruct (Skiptable.create_wf Skiptable.env_ok t0) as (Hw & _ & Hc); [vm_compute; reflexivity|].
  destruct (Skiptable.run_safe es t0 Hw Hok) as [Hroom Hrun]; [rewrite Hc; vm_compute; reflexivity|].
  pose proof (proj1 (engine_run_refines (Engine0 := Skiptable.skiptable_engine) es t0 Hw Hroom Hok)) as H.
  unfold skip0. fold es t0. rewrite Hrun. by destruct (engine_run es t0).
Qed.

(** The calls of a recovery, with memory for all of them. *)
Definition file0 : bytes := match kvs_dump_to_fd true true at2000 77 short store0 with Some (_, f) => f | None => [] end.
Definition calls0 (eng : Z) : list op := set_calls (sets_of eng (replay_dump_file (fun _ => all_ok) (fun _ => 3000) file0).2).

(** A key that was due but not yet removed when the dump was taken comes back for
    good, and so does one that fell due before the recovery. *)
Example expired_keys_return :
  Expire.kvs_expire_is_expired 2000 KVS_ENGINE_HASH (str "b") expire0 = true /\
  let late := (replay_dump_file (fun _ => all_ok) (fun _ => 9000) file0).2 in
  (ASet KVS_ENGINE_HASH (str "a") (str "1") ∈ late /\ ASet KVS_ENGINE_HASH (str "b") (str "2") ∈ late) /\
  Forall (fun a => match a with AExpire _ _ _ => False | _ => True end) late.
Proof.
  split; [vm_compute; reflexivity|]. split.
  - split; vm_compute; repeat (first [left|right]).
  - vm_compute. repeat constructor.
Qed.
(** A field's value is cut at its first space. *)
Example field_with_space_cut : doc_text (Doc.Document (str "d") [[Doc.Field (str "f") (str "x y")]] 1 1) = Some (str "f=x y") /\
  doc_actions (str "d") (str "f=x y") = [ADocSet (str "d") (str "f") (str "x")].
Proof. split; vm_compute; reflexivity. Qed.

End Dump.
