(* ===== verification/Dispatch.v ===== *)
(** * Dispatch: from a parsed command to the engines and the logs

    [handle_parsed_command] of [src/main/kvstore.c] with the helpers it calls:
    the AUTH gate, the read-only gate of a replica, PING and the other
    connection commands, the locks, the document commands, and the engine
    commands (SET, MSET, MOD, DEL, GET, MGET, EXIST, EXPIRE, SETEX, TTL, PERSIST
    with the prefixes R, H and X), each with its reply, its append to the
    append-only file, its feed of the replication backlog and its broadcast.

    The engines are used through the classes of [Engine], the expiry table, the
    documents and the reply builders through their models, the output of the
    connection through the bounded queue of [Outring].  What the environment
    decides (allocations, the clock, whether the append-only file takes the
    record) comes from a stream, one element per call.  Replication, snapshot and
    configuration commands, INFO and VSEARCH leave the model ([Elsewhere]). *)

From S2P Require Import Prelude Cstring Engine Expire Doc Resp Outring Dump.

Module Dispatch.

Import Dump (KVS_ENGINE_ARRAY, KVS_ENGINE_RBTREE, KVS_ENGINE_HASH, KVS_ENGINE_SKIPTABLE).

Definition BUFFER_CAP : nat := Z.to_nat 65536.
Definition OUT_RING_SIZE : nat := Outring.OUT_RING_SIZE 18.
#[global] Arguments BUFFER_CAP : simpl never.
#[global] Arguments OUT_RING_SIZE : simpl never.

Definition KVS_PERSIST_OK : Z := 0.
Definition KVS_PERSIST_PENDING : Z := 1.
Definition KVS_PERSIST_ERR : Z := -1.

(** ** Command names *)

Definition is_cmd (cmd : bytes) (name : string) : bool := bool_decide (cmd = str name).
Arguments is_cmd cmd name%_string_scope.
Definition one_of (cmd : bytes) (names : list string) : bool := existsb (is_cmd cmd) names.
Arguments one_of cmd names%_string_scope.

(** [is_readonly_slave_blocked] and [is_write_cmd]. *)
Definition is_readonly_slave_blocked (cmd : bytes) : bool :=
  negb (one_of cmd
    ["GET"; "MGET"; "TTL"; "EXIST"; "OWNER"; "RGET"; "RMGET"; "RTTL"; "REXIST";
     "HGET"; "HMGET"; "HTTL"; "HEXIST"; "XGET"; "XMGET"; "XTTL"; "XEXIST";
     "INFO"; "MEMSTAT"; "MEMORY_PURGE"; "PING"; "ECHO"; "QUIT"; "SLAVEOF"; "ROLE";
     "DOCGET"; "DOCGETALL"; "DOCEXIST"; "DOCCOUNT"]).

Definition is_write_cmd (cmd : bytes) : bool :=
  one_of cmd
    ["SET"; "MSET"; "MOD"; "DEL"; "EXPIRE"; "PERSIST"; "SETEX";
     "RSET"; "RMSET"; "RMOD"; "RDEL"; "REXPIRE"; "RPERSIST"; "RSETEX";
     "HSET"; "HMSET"; "HMOD"; "HDEL"; "HEXPIRE"; "HPERSIST"; "HSETEX";
     "XSET"; "XMSET"; "XMOD"; "XDEL"; "XEXPIRE"; "XPERSIST"; "XSETEX";
     "LOCK"; "UNLOCK"; "RENEW"; "DOCSET"; "DOCDEL"; "DOCDROP"].

(** [cmd_engine] and [strip_prefix], on the first character. *)
Definition cmd_engine (cmd : bytes) : Z :=
  match cmd with
  | 82 :: _ => KVS_ENGINE_RBTREE
  | 72 :: _ => KVS_ENGINE_HASH
  | 88 :: _ => KVS_ENGINE_SKIPTABLE
  | _ => KVS_ENGINE_ARRAY
  end.
Definition strip_prefix (cmd : bytes) : bytes :=
  match cmd with
  | 82 :: r | 72 :: r | 88 :: r => r
  | _ => cmd
  end.

(** [kvs_ascii_upper] on a C string. *)
Definition upper1 (c : Z) : Z := if decide (97 <= c <= 122) then c - 32 else c.
Definition kvs_ascii_upper (s : bytes) : bytes := map upper1 (cstr s).

(** [argl[0] == 4 && (s[0]|32) == ... && (s[3]|32) == ...]. *)
Definition is_word4 (a : bytes) (w : string) : bool :=
  bool_decide (map (fun x => Z.lor x 32) a = str w).
Arguments is_word4 a w%_string_scope.

(** [strcasecmp(a, b) == 0] on C strings. *)
Definition same_nocase (a b : bytes) : bool := bool_decide (kvs_ascii_upper a = kvs_ascii_upper b).

(** [atoll]. *)
Definition atoll (b : bytes) : Z := strtol b.

(** ** Numbers and array replies *)

(** The digits of the loop, lowest first, and [fast_uitoa], [fast_itoa]; twenty
    digits hold any 64-bit number. *)
Fixpoint low_digits (fuel : nat) (uval : Z) : bytes :=
  match fuel with
  | O => []
  | S f => if decide (uval > 0) then (uval mod 10 + 48) :: low_digits f (uval / 10) else []
  end.
Definition fast_uitoa (val : Z) : bytes :=
  if decide (val = 0) then [48] else rev (low_digits 20 val).
Definition fast_itoa (val : Z) : bytes :=
  if decide (val = 0) then [48]
  else if decide (val < 0) then 45 :: rev (low_digits 20 (u64 (- val)))
  else rev (low_digits 20 val).

(** What [n] bytes of the buffer hold after an [snprintf] that returned [n]: the
    terminating NUL is among them when the text filled the buffer. *)
Definition printed (r : Z * bytes) : bytes := take (Z.to_nat r.1) (r.2 ++ [0]).

Definition resp_array_header (cap : nat) (count : Z) : Z * bytes :=
  Resp.snprintf_fit cap (42 :: sdec count ++ crlf).
Definition resp_empty_array (cap : nat) : Z * bytes := Resp.snprintf_fit cap (str "*0" ++ crlf).

(** [resp_array_append_bulk_or_null]: [out] are the [*pos] bytes so far, [None]
    is the return value -1. *)
Definition resp_array_append_bulk_or_null (cap : nat) (s : option bytes) (out : bytes) : option bytes :=
  if decide (length out >= cap)%nat then None
  else
    let left := (cap - length out)%nat in
    let r := match s with
             | Some s => Resp.resp_bulk left s
             | None => Resp.resp_null_bulk left
             end in
    if decide (r.1 < 0 \/ r.1 > Z.of_nat left) then None else Some (out ++ printed r).

Fixpoint append_values (cap : nat) (vs : list (option bytes)) (out : bytes) : option bytes :=
  match vs with
  | [] => Some out
  | v :: r => resp_array_append_bulk_or_null cap v out ≫= append_values cap r
  end.

(** [resp_array_from_values]. *)
Definition resp_array_from_values (cap : nat) (values : list (option bytes)) : option bytes :=
  let h := resp_array_header cap (Z.of_nat (length values)) in
  if decide (h.1 < 0 \/ h.1 >= Z.of_nat cap) then None else append_values cap values (printed h).

(** [resp_array_two_bulk], whose bounds exclude equality. *)
Definition append_strict (cap : nat) (s out : bytes) : option bytes :=
  let left := (cap - length out)%nat in
  let r := Resp.resp_bulk left s in
  if decide (r.1 < 0 \/ r.1 >= Z.of_nat left) then None else Some (out ++ printed r).
Definition resp_array_two_bulk (cap : nat) (a b : bytes) : option bytes :=
  let h := resp_array_header cap 2 in
  if decide (h.1 < 0 \/ h.1 >= Z.of_nat cap) then None
  else append_strict cap a (printed h) ≫= append_strict cap b.

(** ** Configuration, requests and what a command leaves behind *)

Record cfg := Cfg {
  is_master : bool;
  requirepass : bytes;
  ebpf_tcp : bool;
  recovering : bool;
  loading_fullsync : bool;
}.

(** The arguments of [handle_parsed_command]: whether [c] is not NULL, the
    arguments with their lengths, and the raw bytes. *)
Record request := Request {
  has_conn : bool;
  argv : list bytes;
  raw : bytes;
  from_replication : bool;
}.
Definition argc (rq : request) : nat := length (argv rq).
(** [argv[i]] as bytes with their length, and as a C string. *)
Definition blob (rq : request) (i : nat) : bytes := default [] (argv rq !! i).
Definition arg (rq : request) (i : nat) : bytes := cstr (blob rq i).

(** The calls into persistence and replication, in order; an append carries what
    [persist_append_prepare] returned ([KVS_PERSIST_OK] also when the file is
    switched off or its policy is not "always"). *)
Inductive event :=
  | NoteWrite
  | Append (raw : bytes) (rc : Z)
  | CommitWrite
  | LastWrite
  | Feed (raw : bytes)
  | NoteBroadcast (n : nat)
  | Broadcast (raw : bytes)
  | NoteDurable (n : nat)
  | NoteApplied (n : nat).

(** [Done rc]: the handler returned [rc]; [Elsewhere]: the command belongs to a
    part outside this file. *)
Inductive outcome := Done (rc : Z) | Elsewhere.

Section Handlers.

Context {SA EA SR ER SH EH SX EX : Type}.
Context `{!Engine SA EA} `{!Capacity SA EA} `{!Engine SR ER} `{!Capacity SR ER}.
Context `{!Engine SH EH} `{!Capacity SH EH} `{!Blob SH EH} `{!Engine SX EX} `{!Capacity SX EX}.

(** The global tables. *)
Record db := Db {
  global_array : SA;
  global_rbtree : SR;
  global_hash : SH;
  global_skiptable : SX;
  global_expire : Expire.table;
  global_doc : Doc.table;
}.
#[export] Instance eta_db : Eta db := fun d =>
  Db (global_array d) (global_rbtree d) (global_hash d) (global_skiptable d) (global_expire d)
    (global_doc d).

(** What the environment decides for one call. *)
Record env := Env {
  e_array : EA; e_rbtree : ER; e_hash : EH; e_skiptable : EX;
  m_item : bool; m_key : bool; m_heap : bool;
  e_doc : Doc.env;
  now : Z;
  aof : Z;
  m_reply : bool;
}.

(** The tables, the output queue of the connection, its [authed] flag, the calls
    made, and how many elements of the stream were used. *)
Record world := World {
  tables : db;
  out : bytes;
  authed : bool;
  log : list event;
  ticks : nat;
}.
#[export] Instance eta_world : Eta world := fun w =>
  World (tables w) (out w) (authed w) (log w) (ticks w).

Definition M (A : Type) : Type := world -> A * world.
#[export] Instance M_ret : MRet M := fun A x w => (x, w).
#[export] Instance M_bind : MBind M := fun A B f m w => let '(x, w) := m w in f x w.

Context (E : nat -> env) (g : cfg) (rq : request).

Definition tick : M env := fun w => (E (ticks w), w <| ticks ::= S |>).
Definition emit (ev : event) : M unit := fun w => (tt, w <| log ::= (.++ [ev]) |>).
Definition set_tables (d : db) : M unit := fun w => (tt, w <| tables := d |>).
Definition get_tables : M db := fun w => (tables w, w).

(** ** Engines *)

(** The switch of the [engine_*] functions. *)
Definition on_engine (eng : Z) (o : op) (e : env) (d : db) : option (res * db) :=
  if decide (eng = KVS_ENGINE_ARRAY) then
    let '(r, s) := engine_exec (e_array e) o (global_array d) in Some (r, d <| global_array := s |>)
  else if decide (eng = KVS_ENGINE_RBTREE) then
    let '(r, s) := engine_exec (e_rbtree e) o (global_rbtree d) in Some (r, d <| global_rbtree := s |>)
  else if decide (eng = KVS_ENGINE_HASH) then
    let '(r, s) := engine_exec (e_hash e) o (global_hash d) in Some (r, d <| global_hash := s |>)
  else if decide (eng = KVS_ENGINE_SKIPTABLE) then
    let '(r, s) := engine_exec (e_skiptable e) o (global_skiptable d) in Some (r, d <| global_skiptable := s |>)
  else None.

Definition engine_call (dflt : res) (eng : Z) (o : op) : M res :=
  e ← tick; d ← get_tables;
  match on_engine eng o e d with
  | Some (r, d) => set_tables d;; mret r
  | None => mret dflt
  end.

Definition code (r : res) : Z := match r with RCode rc => rc | RVal _ => 0 end.
Definition val (r : res) : option bytes := match r with RVal v => v | RCode _ => None end.

Definition engine_exist (eng : Z) (k : bytes) : M Z :=
  r ← engine_call (RCode 1) eng (OExist k); mret (code r).
Definition engine_get (eng : Z) (k : bytes) : M (option bytes) :=
  r ← engine_call (RVal None) eng (OGet k); mret (val r).
Definition engine_set (eng : Z) (k v : bytes) : M Z :=
  r ← engine_call (RCode (-1)) eng (OSet k v); mret (code r).
Definition engine_mod (eng : Z) (k v : bytes) : M Z :=
  r ← engine_call (RCode (-1)) eng (OMod k v); mret (code r).
Definition engine_del (eng : Z) (k : bytes) : M Z :=
  r ← engine_call (RCode (-1)) eng (ODel k); mret (code r).

(** [kvs_hash_set_len] and [kvs_hash_get_len] on [global_hash]. *)
Definition hash_set_len (k v : bytes) : M Z :=
  e ← tick; d ← get_tables;
  let '(rc, s) := set_len (e_hash e) k v (global_hash d) in
  set_tables (d <| global_hash := s |>);; mret rc.
Definition hash_get_len (k : bytes) : M (option bytes) :=
  e ← tick; d ← get_tables;
  let '(v, s) := get_len (e_hash e) k (global_hash d) in
  set_tables (d <| global_hash := s |>);; mret v.

(** The expiry table. *)
Definition expire_set (eng : Z) (k : bytes) (ttl_ms : Z) : M Z :=
  e ← tick; d ← get_tables;
  let '(rc, t) := Expire.kvs_expire_set (m_item e) (m_key e) (m_heap e) (now e) eng k ttl_ms (global_expire d) in
  set_tables (d <| global_expire := t |>);; mret rc.
Definition expire_del (eng : Z) (k : bytes) : M Z :=
  d ← get_tables;
  let '(rc, t) := Expire.kvs_expire_del eng k (global_expire d) in
  set_tables (d <| global_expire := t |>);; mret rc.
Definition expire_persist (eng : Z) (k : bytes) : M Z := expire_del eng k.
Definition is_expired (eng : Z) (k : bytes) : M bool :=
  e ← tick; d ← get_tables; mret (Expire.kvs_expire_is_expired (now e) eng k (global_expire d)).

(** [try_expire]. *)
Definition try_expire (eng : Z) (k : bytes) : M Z :=
  x ← is_expired eng k;
  if x : bool then engine_del eng k;; expire_del eng k;; mret 1 else mret 0.

(** ** Upserts and locks *)

(** [engine_upsert]. *)
Definition engine_upsert (eng : Z) (k v : bytes) : M Z :=
  try_expire eng k;;
  x ← engine_exist eng k;
  if decide (x = 0) then
    rc ← engine_mod eng k v;
    if decide (rc <> 0) then mret (-1) else expire_persist eng k;; mret 0
  else engine_set eng k v.

(** The second loop of [handle_multi_set], over the arguments after the name. *)
Fixpoint upsert_all (eng : Z) (kvs : list bytes) : M Z :=
  match kvs with
  | k :: v :: r =>
      rc ← engine_upsert eng (cstr k) (cstr v);
      if decide (rc <> 0) then mret (-1) else upsert_all eng r
  | _ => mret 0
  end.

(** [handle_multi_set]; no argument of a parsed command is NULL. *)
Definition handle_multi_set (eng : Z) : M Z :=
  if decide (argc rq < 3 \/ argc rq `mod` 2 = 0)%nat then mret (-1)
  else upsert_all eng (tail (argv rq)).

(** The loop of [handle_multi_get]. *)
Fixpoint get_all (eng : Z) (ks : list bytes) : M (list (option bytes)) :=
  match ks with
  | [] => mret []
  | k :: r =>
      try_expire eng (cstr k);;
      v ← engine_get eng (cstr k);
      vs ← get_all eng r;
      mret (v :: vs)
  end.
Definition handle_multi_get (eng : Z) : M (option bytes) :=
  if decide (argc rq < 2 \/ argc rq > 32)%nat then mret None
  else vs ← get_all eng (tail (argv rq)); mret (resp_array_from_values BUFFER_CAP vs).

(** [lock_acquire], [lock_release], [lock_renew]. *)
Definition lock_acquire (eng : Z) (key token : bytes) (ttl_ms : Z) : M Z :=
  if decide (ttl_ms <= 0) then mret (-1)
  else
    try_expire eng key;;
    x ← engine_exist eng key;
    if decide (x = 0) then mret 1
    else
      rc ← engine_set eng key token;
      if decide (rc <> 0) then mret (-1)
      else
        rc ← expire_set eng key ttl_ms;
        if decide (rc <> 0) then engine_del eng key;; expire_del eng key;; mret (-1)
        else mret 0.

Definition lock_release (eng : Z) (key token : bytes) : M Z :=
  try_expire eng key;;
  cur ← engine_get eng key;
  match cur with
  | None => mret 1
  | Some cur =>
      if decide (strcmp cur token <> 0) then mret 1
      else
        rc ← engine_del eng key;
        if decide (rc <> 0) then mret (-1) else expire_del eng key;; mret 0
  end.

Definition lock_renew (eng : Z) (key token : bytes) (ttl_ms : Z) : M Z :=
  if decide (ttl_ms <= 0) then mret (-1)
  else
    try_expire eng key;;
    cur ← engine_get eng key;
    match cur with
    | None => mret 1
    | Some cur => if decide (strcmp cur token <> 0) then mret 1 else expire_set eng key ttl_ms
    end.

(** ** Replies *)

(** [queue_bytes (c, buf, n)] when [c] is not NULL; a negative [n] is a length
    above the size of the ring. *)
Definition queue_bytes (data : bytes) : M unit := fun w =>
  (tt, if has_conn rq then w <| out ::= fun q => (Outring.put OUT_RING_SIZE data q).2 |> else w).
Definition queue (r : Z * bytes) : M unit :=
  if decide (r.1 < 0) then mret tt else queue_bytes (printed r).

Definition done (r : Z * bytes) : M outcome := queue r;; mret (Done 0).
Definition error (s : string) : Z * bytes := Resp.resp_error BUFFER_CAP (str s).
Arguments error s%_string_scope.
Definition simple (s : string) : Z * bytes := Resp.resp_simple_string BUFFER_CAP (str s).
Arguments simple s%_string_scope.
Definition integer (v : Z) : Z * bytes := Resp.resp_integer BUFFER_CAP v.
Definition bulk_or_null (v : option bytes) : Z * bytes :=
  match v with
  | Some v => Resp.resp_bulk BUFFER_CAP v
  | None => Resp.resp_null_bulk BUFFER_CAP
  end.
(** A reply built in the buffer, or the message sent when it did not fit. *)
Definition built (r : option bytes) (msg : string) : Z * bytes :=
  match r with Some b => (Z.of_nat (length b), b) | None => error msg end.
Arguments built r msg%_string_scope.

(** [persist_append_prepare]; what it does with the record is the append-only
    file's business (it answers OK without a write when the file is off or the
    policy is not "always"), here the record is handed over and it answers. *)
Definition persist_append_prepare : M Z :=
  e ← tick; emit (Append (raw rq) (aof e));; mret (aof e).

(** What the lock and document branches do with a success: log, publish,
    broadcast, and reply, unless the record could not be appended or its reply
    waits for the append. *)
Definition logged (ok : Z * bytes) : M outcome :=
  if from_replication rq then done ok
  else
    emit NoteWrite;;
    pr ← persist_append_prepare;
    if decide (pr = KVS_PERSIST_ERR) then done (error "AOF write failed")
    else
      (if is_master g then emit CommitWrite;; emit (Broadcast (raw rq)) else mret tt);;
      if decide (pr = KVS_PERSIST_PENDING) then mret (Done 0) else done ok.

(** ** The branches *)

(** LOCK, UNLOCK, RENEW, OWNER. *)
Definition lock_reply (rc : Z) (failed : string) : M outcome :=
  if decide (rc = 0) then logged (integer 1)
  else if decide (rc = 1) then done (integer 0) else done (error failed).
Arguments lock_reply rc failed%_string_scope.
Definition cmd_lock : M outcome :=
  rc ← lock_acquire KVS_ENGINE_ARRAY (arg rq 1) (arg rq 2) (atoll (arg rq 3)); lock_reply rc "lock failed".
Definition cmd_unlock : M outcome :=
  rc ← lock_release KVS_ENGINE_ARRAY (arg rq 1) (arg rq 2); lock_reply rc "unlock failed".
Definition cmd_renew : M outcome :=
  rc ← lock_renew KVS_ENGINE_ARRAY (arg rq 1) (arg rq 2) (atoll (arg rq 3)); lock_reply rc "renew failed".
Definition cmd_owner : M outcome :=
  try_expire KVS_ENGINE_ARRAY (arg rq 1);;
  v ← engine_get KVS_ENGINE_ARRAY (arg rq 1);
  done (bulk_or_null v).

(** The document commands. *)
Definition cmd_docset : M outcome :=
  e ← tick; d ← get_tables;
  let '(rc, t) := Doc.kvs_doc_set (e_doc e) (arg rq 1) (arg rq 2) (arg rq 3) (global_doc d) in
  set_tables (d <| global_doc := t |>);;
  if decide (rc = 0) then logged (simple "OK") else done (error "docset failed").
Definition cmd_docget : M outcome :=
  d ← get_tables; done (bulk_or_null (Doc.kvs_doc_get (arg rq 1) (arg rq 2) (global_doc d))).
Definition cmd_docdel : M outcome :=
  d ← get_tables;
  let '(rc, t) := Doc.kvs_doc_del_field (arg rq 1) (arg rq 2) (global_doc d) in
  set_tables (d <| global_doc := t |>);;
  if decide (rc = 0) then logged (simple "OK")
  else if decide (rc = 1) then done (error "doc or field not found") else done (error "docdel failed").
Definition cmd_docdrop : M outcome :=
  d ← get_tables;
  let '(rc, t) := Doc.kvs_doc_del (arg rq 1) (global_doc d) in
  set_tables (d <| global_doc := t |>);;
  if decide (rc = 0) then logged (simple "OK")
  else if decide (rc = 1) then done (error "doc not found") else done (error "docdrop failed").
Definition cmd_docexist : M outcome :=
  d ← get_tables;
  done (integer (if decide (Doc.kvs_doc_exist (arg rq 1) (global_doc d) = 0) then 1 else 0)).
Definition cmd_doccount : M outcome :=
  d ← get_tables; done (integer (Doc.kvs_doc_field_count (arg rq 1) (global_doc d))).

(** DOCGETALL: a field that does not fit ends the bucket, not the walk. *)
Fixpoint put_fields (fs : list Doc.field) (out : bytes) : bytes :=
  match fs with
  | [] => out
  | f :: r =>
      match resp_array_append_bulk_or_null BUFFER_CAP (Some (Doc.name f)) out with
      | None => out
      | Some out =>
          match resp_array_append_bulk_or_null BUFFER_CAP (Some (Doc.value f)) out with
          | None => out
          | Some out => put_fields r out
          end
      end
  end.
Definition put_buckets (bs : list (list Doc.field)) (out : bytes) : bytes :=
  fold_left (fun out fs => put_fields fs out) bs out.
Definition cmd_docgetall : M outcome :=
  d ← get_tables;
  let cnt := Doc.kvs_doc_field_count (arg rq 1) (global_doc d) in
  if decide (cnt <= 0) then done (resp_empty_array BUFFER_CAP)
  else
    let h := printed (resp_array_header BUFFER_CAP (i32 (cnt * 2))) in
    let all := match Doc.find_chain Doc.key (arg rq 1) (concat (Doc.buckets (global_doc d))) with
               | Some dd => put_buckets (take (Z.to_nat (Doc.bucket_count dd)) (Doc.fields dd)) h
               | None => h
               end in
    done (Z.of_nat (length all), all).

(** The engine commands: what they do before the common tail.  [Reply]: the
    branch has queued its reply; [Rc rc missing]: the tail decides. *)
Inductive branch := Reply (o : outcome) | Rc (rc : Z) (should_reply_missing : bool).

Definition set_value (eng : Z) (i : nat) : M Z :=
  if decide (eng = KVS_ENGINE_HASH) then hash_set_len (arg rq 1) (blob rq i)
  else engine_set eng (arg rq 1) (arg rq i).

Definition get_value (eng : Z) : M (option bytes) :=
  try_expire eng (arg rq 1);;
  if decide (eng = KVS_ENGINE_HASH) then hash_get_len (arg rq 1) else engine_get eng (arg rq 1).
Definition cmd_get (eng : Z) : M branch :=
  v ← get_value eng;
  match v with
  | Some v =>
      if decide (length v + 16 <= OUT_RING_SIZE)%nat then
        queue_bytes (36 :: dec (Z.of_nat (length v)) ++ crlf);;
        queue_bytes v;; queue_bytes crlf;; mret (Reply (Done 0))
      else o ← done (error "value too large (max 256KB)"); mret (Reply o)
  | None => o ← done (Resp.resp_null_bulk BUFFER_CAP); mret (Reply o)
  end.

(** The key of MSET is looked at before the number of arguments.  Without arguments
    the source reads a pointer that was never set; here nothing happens then. *)
Definition try_expire_first (eng : Z) : M Z :=
  match argv rq !! 1%nat with Some k => try_expire eng (cstr k) | None => mret 0 end.

Definition expected_argc (opn : bytes) : nat :=
  if one_of opn ["SET"; "MOD"; "EXPIRE"] then 3
  else if is_cmd opn "SETEX" then 4
  else if one_of opn ["GET"; "DEL"; "EXIST"; "TTL"; "PERSIST"] then 2 else 0.

Definition engine_branch (eng : Z) (opn : bytes) : M branch :=
  let k := arg rq 1 in
  if is_cmd opn "SET" && bool_decide (argc rq = 3%nat) then
    try_expire eng k;; rc ← set_value eng 2; mret (Rc rc true)
  else if is_cmd opn "MSET" then
    try_expire_first eng;; rc ← handle_multi_set eng; mret (Rc rc false)
  else if is_cmd opn "MOD" && bool_decide (argc rq = 3%nat) then
    try_expire eng k;; rc ← engine_mod eng k (arg rq 2); mret (Rc rc true)
  else if is_cmd opn "DEL" && bool_decide (argc rq = 2%nat) then
    try_expire eng k;; rc ← engine_del eng k; expire_del eng k;; mret (Rc rc true)
  else if is_cmd opn "GET" && bool_decide (argc rq = 2%nat) then cmd_get eng
  else if is_cmd opn "MGET" then
    r ← handle_multi_get eng; o ← done (built r "mget failed"); mret (Reply o)
  else if is_cmd opn "VSEARCH" && bool_decide (argc rq = 4%nat \/ argc rq = 5%nat) then
    mret (Reply Elsewhere)
  else if is_cmd opn "EXIST" && bool_decide (argc rq = 2%nat) then
    try_expire eng k;; x ← engine_exist eng k;
    o ← done (integer (if decide (x = 0) then 1 else 0)); mret (Reply o)
  else if is_cmd opn "EXPIRE" && bool_decide (argc rq = 3%nat) then
    try_expire eng k;; x ← engine_exist eng k;
    rc ← (if decide (x <> 0) then mret 1 else expire_set eng k (i64 (atoll (arg rq 2) * 1000)));
    mret (Rc rc true)
  else if is_cmd opn "SETEX" && bool_decide (argc rq = 4%nat) then
    try_expire eng k;; rc ← set_value eng 3;
    rc ← (if decide (rc = 0) then expire_set eng k (i64 (atoll (arg rq 2) * 1000)) else mret rc);
    mret (Rc rc true)
  else if is_cmd opn "TTL" && bool_decide (argc rq = 2%nat) then
    try_expire eng k;; x ← engine_exist eng k;
    n ← (if decide (x <> 0) then mret (-2)
         else e ← tick; d ← get_tables; mret (Expire.kvs_expire_ttl (now e) eng k (global_expire d)));
    o ← done (integer n); mret (Reply o)
  else if is_cmd opn "PERSIST" && bool_decide (argc rq = 2%nat) then
    try_expire eng k;; x ← engine_exist eng k;
    rc ← (if decide (x <> 0) then mret 1 else expire_persist eng k);
    mret (Rc rc true)
  else
    o ← done (if decide (0 < expected_argc opn /\ argc rq <> expected_argc opn)%nat
              then error "wrong number of arguments" else error "unknown command or wrong args");
    mret (Reply o).

(** The tail for [rc == 0]. *)
Definition ok_reply : Z * bytes := (5, str "+OK" ++ crlf).
Definition applied (cmd : bytes) : M unit :=
  if from_replication rq && is_write_cmd cmd then
    (if negb (is_master g) && negb (recovering g) && negb (loading_fullsync g) then
       emit NoteWrite;;
       pr ← persist_append_prepare;
       if decide (pr = KVS_PERSIST_PENDING \/ pr = KVS_PERSIST_OK)
       then emit (NoteDurable (length (raw rq))) else mret tt
     else mret tt);;
    (if negb (recovering g) then emit (NoteApplied (length (raw rq))) else mret tt)
  else mret tt.
Definition proxied (cmd : bytes) : M unit :=
  if negb (from_replication rq) && is_write_cmd cmd && negb (is_master g) && ebpf_tcp g
  then emit (NoteApplied (length (raw rq))) else mret tt.
Definition publish (cmd : bytes) : M outcome :=
  if negb (from_replication rq) && is_write_cmd cmd then
    emit NoteWrite;;
    pr ← persist_append_prepare;
    if decide (pr = KVS_PERSIST_ERR) then done (error "AOF write failed")
    else
      (if is_master g then
         emit LastWrite;; emit CommitWrite;; emit (Feed (raw rq));;
         emit (NoteBroadcast (length (raw rq)));; emit (Broadcast (raw rq))
       else mret tt);;
      if decide (pr = KVS_PERSIST_PENDING) then mret (Done 0) else done ok_reply
  else done ok_reply.
Definition settle (opn : bytes) (eng : Z) : M unit :=
  if one_of opn ["SET"; "MOD"] then expire_persist eng (arg rq 1);; mret tt else mret tt.
Definition committed (cmd opn : bytes) (eng : Z) : M outcome :=
  settle opn eng;; applied cmd;; proxied cmd;; publish cmd.

(** [engine_dispatch]. *)
Definition engine_dispatch (cmd : bytes) : M outcome :=
  let eng := cmd_engine cmd in
  let opn := strip_prefix cmd in
  b ← engine_branch eng opn;
  match b with
  | Reply o => mret o
  | Rc rc missing =>
      if decide (rc = 0) then committed cmd opn eng
      else if decide (rc = 1 /\ missing = true) then
        done (if is_cmd opn "SET" then ok_reply else error "not found or exists")
      else done (error "operation failed")
  end.

(** ECHO and PING before the command is copied and upper-cased. *)
Definition fast_bulk : M outcome :=
  let a := blob rq 1 in
  e ← tick;
  if decide (1 + 20 + 2 + length a + 2 > 256 /\ m_reply e = false)%nat then mret (Done (-1))
  else queue_bytes (36 :: fast_uitoa (Z.of_nat (length a)) ++ crlf ++ a ++ crlf);; mret (Done 0).
Definition fast_echo : bool :=
  has_conn rq && is_word4 (blob rq 0) "echo" && bool_decide (argc rq = 2%nat /\ (0 < length (blob rq 1))%nat).
Definition fast_ping : bool := has_conn rq && is_word4 (blob rq 0) "ping" && bool_decide (1 <= argc rq)%nat.

(** Commands of other parts, with the arguments their branches ask for.  What they
    do and answer is not described here: a theorem about all commands excludes
    them. *)
Definition elsewhere (cmd : bytes) : bool :=
  one_of cmd ["REPLSYNC"; "REPLACK"; "REPLDONE"; "KPROBEMR"; "INFO"; "MEMSTAT"; "MEMORY_PURGE"; "SAVE";
              "BGSAVE"; "BGREWRITEAOF"; "SNAPRULES"; "SNAPRULECLEAR"; "SLAVEOF"; "ROLE"] ||
  is_cmd cmd "APPENDFSYNC" && bool_decide (argc rq = 2%nat) ||
  one_of cmd ["CONFIG"; "SNAPRULE"] && bool_decide (argc rq = 3%nat).

(** AUTH. *)
Definition cmd_auth : M outcome :=
  if decide (argc rq <> 2%nat) then done (error "wrong number of arguments")
  else if decide (requirepass g = []) then done (error "Client sent AUTH, but no password is set")
  else if decide (blob rq 1 <> requirepass g) then done (error "invalid password")
  else
    (fun w => (tt, if has_conn rq then w <| authed := true |> else w));;
    done (simple "OK").

Definition control (cmd : bytes) : option (M outcome) :=
  if is_cmd cmd "PING" then
    Some (done (if decide (2 <= argc rq)%nat then Resp.resp_bulk BUFFER_CAP (blob rq 1) else simple "PONG"))
  else if is_cmd cmd "ECHO" && bool_decide (argc rq = 2%nat) then
    Some (done (Resp.resp_bulk BUFFER_CAP (blob rq 1)))
  else if is_cmd cmd "QUIT" then Some (done (simple "OK"))
  else if is_cmd cmd "AUTH" then Some cmd_auth
  else if is_cmd cmd "COMMAND" then Some (done (resp_empty_array BUFFER_CAP))
  else if is_cmd cmd "CLIENT" then
    Some (if bool_decide (2 <= argc rq)%nat && same_nocase (blob rq 1) (str "SETINFO") then done (simple "OK")
          else done (built (resp_array_two_bulk BUFFER_CAP (str "id") (str "1")) "client subcommand failed"))
  else if is_cmd cmd "HELLO" then Some (done (error "NOPROTO unsupported RESP version"))
  else if elsewhere cmd then Some (mret Elsewhere)
  else if is_cmd cmd "LOCK" && bool_decide (argc rq = 4%nat) then Some cmd_lock
  else if is_cmd cmd "UNLOCK" && bool_decide (argc rq = 3%nat) then Some cmd_unlock
  else if is_cmd cmd "RENEW" && bool_decide (argc rq = 4%nat) then Some cmd_renew
  else if is_cmd cmd "OWNER" && bool_decide (argc rq = 2%nat) then Some cmd_owner
  else if is_cmd cmd "DOCSET" && bool_decide (argc rq = 4%nat) then Some cmd_docset
  else if is_cmd cmd "DOCGET" && bool_decide (argc rq = 3%nat) then Some cmd_docget
  else if is_cmd cmd "DOCDEL" && bool_decide (argc rq = 3%nat) then Some cmd_docdel
  else if is_cmd cmd "DOCDROP" && bool_decide (argc rq = 2%nat) then Some cmd_docdrop
  else if is_cmd cmd "DOCEXIST" && bool_decide (argc rq = 2%nat) then Some cmd_docexist
  else if is_cmd cmd "DOCCOUNT" && bool_decide (argc rq = 2%nat) then Some cmd_doccount
  else if is_cmd cmd "DOCGETALL" && bool_decide (argc rq = 2%nat) then Some cmd_docgetall
  else None.

(** [!is_auth && !is_quit] behind a password. *)
Definition auth_gate (w : world) : bool :=
  has_conn rq && negb (from_replication rq) && bool_decide (requirepass g <> []) && negb (authed w) &&
  negb (is_word4 (blob rq 0) "auth") && negb (is_word4 (blob rq 0) "quit").
Definition noauth : bytes := str "-NOAUTH Authentication required." ++ crlf.

(** The four commands that go straight to the hash engine. *)
Definition hash_fast (cmd : bytes) : bool :=
  bool_decide (length (blob rq 0) = 4%nat) && one_of cmd ["HSET"; "HGET"; "HDEL"; "HMOD"].

Definition readonly_gate (cmd : bytes) : bool :=
  negb (is_master g) && negb (from_replication rq) && negb (has_conn rq && ebpf_tcp g) &&
  is_readonly_slave_blocked cmd.

(** [handle_parsed_command]. *)
Definition handle_parsed_command : M outcome := fun w =>
  if auth_gate w then (queue_bytes noauth;; mret (Done 0)) w
  else if fast_echo then fast_bulk w
  else if fast_ping then
    (if decide (2 <= argc rq /\ 0 < length (blob rq 1))%nat then fast_bulk
     else queue_bytes (str "+PONG" ++ crlf);; mret (Done 0)) w
  else if decide (argc rq = 0)%nat then (Done (-1), w)
  else
    let cmd := kvs_ascii_upper (blob rq 0) in
    if readonly_gate cmd then done (error "read only slave") w
    else if hash_fast cmd then engine_dispatch cmd w
    else
      match control cmd with
      | Some m => m w
      | None => engine_dispatch cmd w
      end.

(** ** What the tables hold *)

(** The four maps, the expiry times and the documents. *)
Record astate := AState {
  a_array : gmap bytes bytes;
  a_rbtree : gmap bytes bytes;
  a_hash : gmap bytes bytes;
  a_skiptable : gmap bytes bytes;
  a_ttl : gmap (Z * bytes) Z;
  a_doc : Doc.table;
}.
#[export] Instance eta_astate : Eta astate := fun a =>
  AState (a_array a) (a_rbtree a) (a_hash a) (a_skiptable a) (a_ttl a) (a_doc a).

Definition abs (w : world) : astate :=
  let d := tables w in
  AState (engine_abs (global_array d)) (engine_abs (global_rbtree d)) (blob_abs (global_hash d))
    (engine_abs (global_skiptable d)) (Expire.abs (global_expire d)) (global_doc d).

(** The engine numbers [cmd_engine] returns. *)
Definition known (eng : Z) : Prop :=
  eng = KVS_ENGINE_ARRAY \/ eng = KVS_ENGINE_RBTREE \/ eng = KVS_ENGINE_HASH \/ eng = KVS_ENGINE_SKIPTABLE.

Definition sel (eng : Z) (a : astate) : gmap bytes bytes :=
  if decide (eng = KVS_ENGINE_ARRAY) then a_array a
  else if decide (eng = KVS_ENGINE_RBTREE) then a_rbtree a
  else if decide (eng = KVS_ENGINE_HASH) then a_hash a else a_skiptable a.
Definition put (eng : Z) (m : gmap bytes bytes) (a : astate) : astate :=
  if decide (eng = KVS_ENGINE_ARRAY) then a <| a_array := m |>
  else if decide (eng = KVS_ENGINE_RBTREE) then a <| a_rbtree := m |>
  else if decide (eng = KVS_ENGINE_HASH) then a <| a_hash := m |> else a <| a_skiptable := m |>.
Definition ttl (eng : Z) (k : bytes) (a : astate) : option Z := a_ttl a !! (eng, k).

(** Removing a key with its expiry time. *)
Definition forget (eng : Z) (k : bytes) (a : astate) : astate :=
  put eng (delete k (sel eng a)) a <| a_ttl ::= delete (eng, k) |>.

(** A value as a C string: only the hash keeps bytes after a NUL. *)
Definition text (eng : Z) (v : bytes) : bytes := if decide (eng = KVS_ENGINE_HASH) then cstr v else v.

(** The engines and the expiry table are well formed, and there is room for the
    calls up to number [N]. *)
Record good (N : nat) (w : world) : Prop := {
  g_array : engine_wf (global_array (tables w));
  g_rbtree : engine_wf (global_rbtree (tables w));
  g_hash : engine_wf (global_hash (tables w));
  g_skiptable : engine_wf (global_skiptable (tables w));
  g_array_room : capacity (N - ticks w) (global_array (tables w));
  g_rbtree_room : capacity (N - ticks w) (global_rbtree (tables w));
  g_hash_room : capacity (N - ticks w) (global_hash (tables w));
  g_skiptable_room : capacity (N - ticks w) (global_skiptable (tables w));
  g_expire : Expire.wf (global_expire (tables w));
}.

(** ** Specifications of the helpers *)

(** From tables that hold [a], and as long as the number of calls stays below
    [N], [m] keeps the tables good and ends with a result and contents in [Q]. *)
Definition from {A} (N : nat) (a : astate) (m : M A) (Q : A -> astate -> Prop) : Prop :=
  forall w, abs w = a -> good N w -> (ticks (m w).2 <= N)%nat -> good N (m w).2 /\ Q (m w).1 (abs (m w).2).

(** Calls are only added, and the connection and the logs are left alone. *)
Definition mono {A} (m : M A) : Prop := forall w, (ticks w <= ticks (m w).2)%nat.
Definition quiet {A} (m : M A) : Prop := forall w,
  out (m w).2 = out w /\ authed (m w).2 = authed w /\ log (m w).2 = log w.

Lemma mono_ret {A} (x : A) : mono (mret x).
Proof. by intros w. Qed.
Lemma mono_bind {A B} (m : M A) (f : A -> M B) : mono m -> (forall x, mono (f x)) -> mono (m ≫= f).
Proof.
  intros Hm Hf w. unfold mbind, M_bind. specialize (Hm w). destruct (m w) as [x w'].
  specialize (Hf x w'). cbn in *. lia.
Qed.
Lemma mono_tick : mono tick.
Proof. intros w. cbn. lia. Qed.
Lemma mono_get : mono get_tables.
Proof. by intros w. Qed.
Lemma mono_set d : mono (set_tables d).
Proof. by intros w. Qed.
Lemma mono_emit ev : mono (emit ev).
Proof. by intros w. Qed.
Lemma mono_queue data : mono (queue_bytes data).
Proof. intros w. unfold queue_bytes. by destruct (has_conn rq). Qed.

Lemma quiet_ret {A} (x : A) : quiet (mret x).
Proof. by intros w. Qed.
Lemma quiet_bind {A B} (m : M A) (f : A -> M B) : quiet m -> (forall x, quiet (f x)) -> quiet (m ≫= f).
Proof.
  intros Hm Hf w. unfold mbind, M_bind. destruct (Hm w) as (H1 & H2 & H3). destruct (m w) as [x w'].
  destruct (Hf x w') as (H4 & H5 & H6). cbn [fst snd] in *. repeat split; congruence.
Qed.
Lemma quiet_tick : quiet tick.
Proof. by intros w. Qed.
Lemma quiet_get : quiet get_tables.
Proof. by intros w. Qed.
Lemma quiet_set d : quiet (set_tables d).
Proof. by intros w. Qed.

(** Both follow the structure of the program: [flow] takes binds and branches
    apart, closes the basic calls with the lemmas of [flow], and unfolds the
    definitions of [flow_defs]. *)
Create HintDb flow.
Create HintDb flow_defs.
#[local] Hint Constants Opaque : flow.
#[local] Hint Resolve mono_ret mono_tick mono_get mono_set mono_emit mono_queue : flow.
#[local] Hint Resolve quiet_ret quiet_tick quiet_get quiet_set : flow.
Ltac flow :=
  cbn beta zeta;
  lazymatch goal with
  | |- forall _, _ => intros ?; flow
  | |- mono (_ ≫= _) => apply mono_bind; flow
  | |- quiet (_ ≫= _) => apply quiet_bind; flow
  | |- mono (match ?x with _ => _ end) => destruct x; flow
  | |- quiet (match ?x with _ => _ end) => destruct x; flow
  | |- _ => first [solve [auto 2 with flow] | progress autounfold with flow_defs; flow | idtac]
  end.

Lemma mono_call dflt eng o : mono (engine_call dflt eng o).
Proof. unfold engine_call. flow. Qed.
Lemma quiet_call dflt eng o : quiet (engine_call dflt eng o).
Proof. unfold engine_call. flow. Qed.
#[local] Hint Resolve mono_call quiet_call : flow.

Lemma from_ret {A} N a (x : A) (Q : A -> astate -> Prop) : Q x a -> from N a (mret x) Q.
Proof. by intros HQ w <- Hg _. Qed.

Lemma from_bind {A B} N a (m : M A) (f : A -> M B) Q :
  from N a m (fun x a' => from N a' (f x) Q) -> (forall x, mono (f x)) -> from N a (m ≫= f) Q.
Proof.
  intros Hm Hf w Ha Hg. unfold mbind, M_bind. specialize (Hm w Ha Hg).
  destruct (m w) as [x w'] eqn:Ew. specialize (Hf x w'). cbn [fst snd] in *. intros Hn.
  destruct Hm as [Hg' HQ]; [lia|]. by apply HQ.
Qed.

Lemma from_mono {A} N a (m : M A) (Q Q' : A -> astate -> Prop) :
  from N a m Q -> (forall x a', Q x a' -> Q' x a') -> from N a m Q'.
Proof. intros H HQ w Ha Hg Hn. destruct (H w Ha Hg Hn). auto. Qed.

Lemma put_sel eng a : put eng (sel eng a) a = a.
Proof. unfold put, sel. destruct a. by repeat case_decide. Qed.
Lemma sel_put eng m a : sel eng (put eng m a) = m.
Proof. unfold put, sel. by repeat case_decide. Qed.
Lemma sel_put_ne eng eng' m a : known eng -> known eng' -> eng <> eng' -> sel eng' (put eng m a) = sel eng' a.
Proof.
  unfold known, put, sel, KVS_ENGINE_ARRAY, KVS_ENGINE_RBTREE, KVS_ENGINE_HASH, KVS_ENGINE_SKIPTABLE.
  intros. repeat case_decide; (done || lia).
Qed.
Lemma ttl_put eng m a : a_ttl (put eng m a) = a_ttl a.
Proof. unfold put. by repeat case_decide. Qed.
Lemma doc_put eng m a : a_doc (put eng m a) = a_doc a.
Proof. unfold put. by repeat case_decide. Qed.
Lemma put_put eng m m' a : put eng m (put eng m' a) = put eng m a.
Proof. unfold put. by repeat case_decide. Qed.

Lemma tick_good N w : good N w -> good N (w <| ticks ::= S |>).
Proof. intros []. split; try done; cbn; (eapply capacity_le; [|done]); lia. Qed.

(** The contract of an engine, for the map the model gives it. *)
Definition call_ok (eng : Z) (o : op) (r : res) (a a' : astate) : Prop :=
  match o with
  | OGet k => a' = a /\ r = RVal (text eng <$> sel eng a !! k)
  | _ => exists m, spec_step (sel eng a) o r m /\ a' = put eng m a
  end.

(** One call of an engine through its class. *)
Lemma exec_meets_spec {St Ev} `{!Engine St Ev} `{!Capacity St Ev} n e o (s : St) :
  engine_wf s -> capacity (S n) s -> op_ok o ->
  engine_wf (engine_exec e o s).2 /\ capacity n (engine_exec e o s).2 /\
  spec_step (engine_abs s) o (engine_exec e o s).1 (engine_abs (engine_exec e o s).2).
Proof.
  intros Hw Hc Ho. destruct (engine_step e o s) as [? ?]; [done|by eapply capacity_room|done|].
  split_and!; [done| |done]. by apply capacity_step.
Qed.

(** A step of a string engine is a call as [call_ok] describes it. *)
Lemma call_ok_intro eng o r a m' : eng <> KVS_ENGINE_HASH ->
  spec_step (sel eng a) o r m' -> call_ok eng o r a (put eng m' a).
Proof.
  intros Hh Hs. unfold call_ok. destruct o as [| k | | |]; eauto.
  inversion Hs; subst. rewrite put_sel. split; [done|]. f_equal.
  destruct (sel eng a !! k); [|done]. cbn. unfold text. by rewrite decide_False.
Qed.

Lemma call_ok_hash o r a s s' : a_hash a = blob_abs s ->
  spec_step (engine_abs s) o r (engine_abs s') ->
  match o with OGet k => blob_abs s' = blob_abs s | _ => spec_step (blob_abs s) o r (blob_abs s') end ->
  call_ok KVS_ENGINE_HASH o r a (a <| a_hash := blob_abs s' |>).
Proof.
  intros Ha Hs Hb. assert (sel KVS_ENGINE_HASH a = blob_abs s) as Hsel by done. unfold call_ok.
  destruct o as [| k | | |]; try (eexists; rewrite Hsel; split; [exact Hb|done]).
  inversion Hs; subst. rewrite Hb, <- Ha. split; [by destruct a|]. f_equal.
  by rewrite blob_abs_str, lookup_fmap, Hsel.
Qed.

(** The well-formedness of the tables after one of them was replaced. *)
Ltac good_step :=
  split; cbn in *; try done; first
    [ eapply capacity_le; [|eassumption]; lia
    | match goal with H : capacity ?n ?s |- capacity ?m ?s => replace m with n by lia; exact H end ].

Lemma engine_call_from N dflt eng o a Q : known eng -> op_ok o ->
  (forall r a', call_ok eng o r a a' -> Q r a') -> from N a (engine_call dflt eng o) Q.
Proof.
  intros Hk Hok HQ w <-. unfold engine_call, mbind, M_bind, tick, get_tables, on_engine. cbn [tables upd].
  set (e := E (ticks w)). clearbody e.
  destruct Hk as [->|[->|[->| ->]]]; repeat (rewrite decide_False by done); rewrite decide_True by done.
  - pose proof (exec_meets_spec (N - S (ticks w)) (e_array e) o (global_array (tables w))) as Hx.
    destruct (engine_exec (e_array e) o _) as [r s]. cbn in Hx |- *. intros [] Hn.
    destruct Hx as (? & ? & Hs); [done| |done|].
    { eapply capacity_le; [|eassumption]; lia. }
    split; [good_step|]. apply HQ. by apply (call_ok_intro KVS_ENGINE_ARRAY _ _ (abs w)).
  - pose proof (exec_meets_spec (N - S (ticks w)) (e_rbtree e) o (global_rbtree (tables w))) as Hx.
    destruct (engine_exec (e_rbtree e) o _) as [r s]. cbn in Hx |- *. intros [] Hn.
    destruct Hx as (? & ? & Hs); [done| |done|].
    { eapply capacity_le; [|eassumption]; lia. }
    split; [good_step|]. apply HQ. by apply (call_ok_intro KVS_ENGINE_RBTREE _ _ (abs w)).
  - pose proof (exec_meets_spec (N - S (ticks w)) (e_hash e) o (global_hash (tables w))) as Hx.
    pose proof (blob_step (e_hash e) o (global_hash (tables w))) as Hb.
    destruct (engine_exec (e_hash e) o _) as [r s]. cbn in Hx, Hb |- *. intros [] Hn.
    assert (capacity (S (N - S (ticks w))) (global_hash (tables w)))
      by (eapply capacity_le; [|eassumption]; lia).
    destruct Hx as (? & ? & Hs); [done..|]. specialize (Hb g_hash0 ltac:(by eapply capacity_room) Hok).
    split; [good_step|]. apply HQ. by apply (call_ok_hash _ _ (abs w) (global_hash (tables w))).
  - pose proof (exec_meets_spec (N - S (ticks w)) (e_skiptable e) o (global_skiptable (tables w))) as Hx.
    destruct (engine_exec (e_skiptable e) o _) as [r s]. cbn in Hx |- *. intros [] Hn.
    destruct Hx as (? & ? & Hs); [done| |done|].
    { eapply capacity_le; [|eassumption]; lia. }
    split; [good_step|]. apply HQ. by apply (call_ok_intro KVS_ENGINE_SKIPTABLE _ _ (abs w)).
Qed.

(** A wrapper of [engine_call]. *)
Ltac by_call :=
  apply from_bind; [|flow]; apply engine_call_from; [done|repeat split; done|];
  intros r a' Hc; cbn [call_ok] in Hc; apply from_ret.

Lemma engine_exist_from N eng k a (Q : Z -> astate -> Prop) : known eng -> cstr_ok k ->
  (forall x, (x = 0 <-> is_Some (sel eng a !! k)) -> Q x a) -> from N a (engine_exist eng k) Q.
Proof.
  intros Hk Hkk HQ. by_call. destruct Hc as (m & Hs & ->).
  inversion Hs; subst; rewrite put_sel; apply HQ; cbn; [tauto|].
  split; [lia|]. intros [? ?]. congruence.
Qed.

Lemma engine_get_from N eng k a (Q : option bytes -> astate -> Prop) : known eng -> cstr_ok k ->
  Q (text eng <$> sel eng a !! k) a -> from N a (engine_get eng k) Q.
Proof. intros Hk Hkk HQ. by_call. by destruct Hc as [-> ->]. Qed.

Definition stored (eng : Z) (k v : bytes) (a : astate) : astate := put eng (<[k := v]> (sel eng a)) a.
Definition removed (eng : Z) (k : bytes) (a : astate) : astate := put eng (delete k (sel eng a)) a.

Lemma engine_set_from N eng k v a (Q : Z -> astate -> Prop) : known eng -> cstr_ok k -> cstr_ok v ->
  Q 0 (stored eng k v a) -> (forall x, x < 0 -> Q x a) -> from N a (engine_set eng k v) Q.
Proof.
  intros Hk Hkk Hv H0 H1. by_call. destruct Hc as (m & Hs & ->).
  inversion Hs; subst; cbn; [done|]. rewrite put_sel. auto.
Qed.

Lemma engine_mod_from N eng k v a (Q : Z -> astate -> Prop) : known eng -> cstr_ok k -> cstr_ok v ->
  (is_Some (sel eng a !! k) -> Q 0 (stored eng k v a)) -> (sel eng a !! k = None -> Q 1 a) ->
  (forall x, x < 0 -> Q x a) -> from N a (engine_mod eng k v) Q.
Proof.
  intros Hk Hkk Hv H0 H1 H2. by_call. destruct Hc as (m & Hs & ->).
  inversion Hs; subst; cbn; rewrite ?put_sel; auto.
Qed.

Lemma engine_del_from N eng k a (Q : Z -> astate -> Prop) : known eng -> cstr_ok k ->
  (is_Some (sel eng a !! k) -> Q 0 (removed eng k a)) ->
  (sel eng a !! k = None -> Q 1 (removed eng k a)) -> from N a (engine_del eng k) Q.
Proof.
  intros Hk Hkk H0 H1. by_call. destruct Hc as (m & Hs & ->). unfold removed in *.
  inversion Hs; subst; cbn; [auto|]. rewrite delete_id in H1 by done. auto.
Qed.

Lemma hash_set_len_from N k v a (Q : Z -> astate -> Prop) :
  Q 0 (stored KVS_ENGINE_HASH k v a) -> (forall x, x < 0 -> Q x a) -> from N a (hash_set_len k v) Q.
Proof.
  intros H0 H1 w <-. unfold hash_set_len, mbind, M_bind, tick, get_tables. cbn [tables upd].
  pose proof (set_len_step (N - S (ticks w)) (e_hash (E (ticks w))) k v (global_hash (tables w))) as Hx.
  destruct (set_len _ k v _) as [rc s]. cbn in Hx |- *. intros [] Hn.
  destruct Hx as (? & ? & Hs); [done|eapply capacity_le; [|eassumption]; lia|].
  split; [good_step|]. unfold abs. cbn.
  inversion Hs as [? ? Hr E2| ? ? ? Hr E2| | | | | | | |]; subst.
  - change (stored KVS_ENGINE_HASH k v (abs w)) with (abs w <| a_hash := <[k := v]> (blob_abs (global_hash (tables w))) |>) in H0.
    unfold abs, upd in H0. cbn in H0. congruence.
  - specialize (H1 rc Hr). unfold abs in H1. cbn in H1. congruence.
Qed.

Lemma hash_get_len_from N k a (Q : option bytes -> astate -> Prop) :
  Q (sel KVS_ENGINE_HASH a !! k) a -> from N a (hash_get_len k) Q.
Proof.
  intros HQ w <-. unfold hash_get_len, mbind, M_bind, tick, get_tables. cbn [tables upd].
  pose proof (get_len_step (N - S (ticks w)) (e_hash (E (ticks w))) k (global_hash (tables w))) as Hx.
  destruct (get_len _ k _) as [v s]. cbn in Hx |- *. intros [] Hn.
  destruct Hx as (? & ? & -> & Hs); [done|eapply capacity_le; [|eassumption]; lia|].
  split; [good_step|]. unfold abs. cbn. rewrite Hs. exact HQ.
Qed.

(** ** The expiry table *)

Definition with_ttl (eng : Z) (k : bytes) (t : Z) (a : astate) : astate := a <| a_ttl ::= <[(eng, k) := t]> |>.
Definition without_ttl (eng : Z) (k : bytes) (a : astate) : astate := a <| a_ttl ::= delete (eng, k) |>.
#[local] Arguments with_ttl : simpl never.
#[local] Arguments without_ttl : simpl never.

Lemma expire_set_from N eng k ms a (Q : Z -> astate -> Prop) :
  (forall i, 0 < ms -> Q 0 (with_ttl eng k (i64 (now (E i) + ms)) a)) -> Q (-1) a ->
  from N a (expire_set eng k ms) Q.
Proof.
  intros H0 H1 w <-. unfold expire_set, mbind, M_bind, tick, get_tables. cbn [tables upd].
  set (e := E (ticks w)).
  pose proof (Expire.expire_set_spec (m_item e) (m_key e) (m_heap e) (now e) eng k ms (global_expire (tables w))) as Hx.
  destruct (Expire.kvs_expire_set _ _ _ _ _ _ _ _) as [rc t]. cbn. intros [] Hn.
  destruct Hx as (? & ? & [= <- <-] & Hw & Hc); [done|].
  split; [good_step|]. unfold abs. cbn. destruct Hc as [(-> & Hms & ->)|(-> & -> & _)].
  - exact (H0 (ticks w) Hms).
  - exact H1.
Qed.

Lemma expire_del_from N eng k a (Q : Z -> astate -> Prop) :
  (is_Some (ttl eng k a) -> Q 0 (without_ttl eng k a)) -> (ttl eng k a = None -> Q 1 (without_ttl eng k a)) ->
  from N a (expire_del eng k) Q.
Proof.
  intros H0 H1 w <-. unfold expire_del, mbind, M_bind, get_tables. cbn [tables upd].
  pose proof (Expire.expire_del_spec eng k (global_expire (tables w))) as Hx.
  destruct (Expire.kvs_expire_del _ _ _) as [rc t]. cbn. intros [] Hn.
  destruct Hx as (? & ? & [= <- <-] & Hw & Hc); [done|].
  split; [good_step|]. unfold abs, without_ttl, ttl, upd in *. cbn in *.
  destruct Hc as [(-> & Hs & ->)|(-> & Hs & ->)]; [auto|]. rewrite delete_id in H1 by done. auto.
Qed.

(** The time of a key has passed, or not, at some reading of the clock. *)
Definition lapsed (eng : Z) (k : bytes) (a : astate) : Prop :=
  exists i t, ttl eng k a = Some t /\ t <= now (E i).
Definition alive (eng : Z) (k : bytes) (a : astate) : Prop :=
  exists i, forall t, ttl eng k a = Some t -> now (E i) < t.

Lemma is_expired_from N eng k a (Q : bool -> astate -> Prop) :
  (lapsed eng k a -> Q true a) -> (alive eng k a -> Q false a) -> from N a (is_expired eng k) Q.
Proof.
  intros H1 H0 w <- Hg Hn. split; [by apply tick_good|].
  unfold is_expired, mbind, M_bind, get_tables, tick. cbn. change (abs (w <| ticks ::= S |>)) with (abs w).
  destruct Hg as [_ _ _ _ _ _ _ _ Hw].
  unfold Expire.kvs_expire_is_expired. pose proof (Expire.expire_find_spec eng k _ Hw) as Hf.
  destruct (Expire.expire_find eng k _) as [p|].
  - destruct Hf as (x & Hx & Hn'). rewrite Expire.due_items, Hx. cbn.
    assert (ttl eng k (abs w) = Some (Expire.expire_at_ms x)) as Ht.
    { unfold ttl, abs. cbn. rewrite <- Hn'. apply Expire.expire_abs_lookup; [apply Hw|eauto]. }
    case_bool_decide; [apply H1|apply H0]; exists (ticks w); [eexists; split; [done|lia]|].
    intros t. rewrite Ht. intros [= <-]. lia.
  - apply H0. exists 0%nat. intros t Ht. unfold ttl, abs in Ht. cbn in Ht. congruence.
Qed.

(** [try_expire]: the key is forgotten if its time has passed. *)
Definition tried (eng : Z) (k : bytes) (a a' : astate) : Prop :=
  (a' = a /\ alive eng k a) \/ (a' = forget eng k a /\ lapsed eng k a).

Lemma try_expire_from N eng k a (Q : Z -> astate -> Prop) : known eng -> cstr_ok k ->
  (forall x a', tried eng k a a' -> Q x a') -> from N a (try_expire eng k) Q.
Proof.
  intros Hk Hkk HQ. unfold try_expire, expire_del, engine_del. apply from_bind; [|flow].
  fold (engine_del eng k) (expire_del eng k). apply is_expired_from; intros Hx.
  - apply from_bind; [|unfold expire_del; flow]. apply engine_del_from; [done..| |]; intros _;
      (apply from_bind; [|flow]); apply expire_del_from; intros _; apply from_ret, HQ; right; by split.
  - apply from_ret, HQ. left. by split.
Qed.

#[local] Hint Unfold engine_exist engine_get engine_set engine_mod try_expire engine_del
  hash_set_len hash_get_len expire_set expire_persist expire_del is_expired : flow_defs.

(** One step of a program, its continuation being monotone. *)
Ltac step lem := apply from_bind; [apply lem; try done|flow].
Ltac last_step lem := apply lem; try done.

(** ** Footprints *)

Definition at_key (eng : Z) (k : bytes) (a : astate) : option bytes * option Z := (sel eng a !! k, ttl eng k a).

(** Outside [W], a key is as before or its time has passed and it is gone. *)
Definition kept (eng : Z) (k : bytes) (a a' : astate) : Prop :=
  at_key eng k a' = at_key eng k a \/ (lapsed eng k a /\ at_key eng k a' = (None, None)).
Definition changes (W : Z -> bytes -> Prop) (a a' : astate) : Prop :=
  forall eng k, known eng -> W eng k \/ kept eng k a a'.
Definition nothing : Z -> bytes -> Prop := fun _ _ => False.
Definition only (eng : Z) (k : bytes) : Z -> bytes -> Prop := fun e k' => e = eng /\ k' = k.

(** Expiry times belong to stored keys. *)
Definition no_orphan (a : astate) : Prop :=
  forall eng k, known eng -> is_Some (ttl eng k a) -> is_Some (sel eng a !! k).

Lemma at_key_ttl eng k a a' : at_key eng k a' = at_key eng k a -> ttl eng k a' = ttl eng k a.
Proof. by intros [= ? ?]. Qed.

Lemma key_kept_trans eng k a1 a2 a3 : kept eng k a1 a2 -> kept eng k a2 a3 -> kept eng k a1 a3.
Proof.
  intros [H1|[H1 H1']] [H2|[H2 H2']].
  - left. congruence.
  - right. split; [|done]. destruct H2 as (i & t & Ht & ?). exists i, t. by rewrite <- (at_key_ttl _ _ _ _ H1).
  - right. split; [done|congruence].
  - right. split; done.
Qed.

Lemma changes_refl W a : changes W a a.
Proof. intros e k _. right. by left. Qed.
Lemma changes_trans W a1 a2 a3 : changes W a1 a2 -> changes W a2 a3 -> changes W a1 a3.
Proof.
  intros H1 H2 e k Hk.
  destruct (H1 e k Hk); [by left|]. destruct (H2 e k Hk); [by left|]. right. by eapply key_kept_trans.
Qed.
Lemma changes_mono (W W' : Z -> bytes -> Prop) a a' : (forall e k, W e k -> W' e k) -> changes W a a' -> changes W' a a'.
Proof. intros HW H e k Hk. destruct (H e k Hk); auto. Qed.
Lemma changes_more W a a' : changes nothing a a' -> changes W a a'.
Proof. by apply changes_mono. Qed.

(** What the basic changes do to a key. *)
Lemma at_key_put eng m a e k : known eng -> known e ->
  at_key e k (put eng m a) = if decide (e = eng) then (m !! k, ttl e k a) else at_key e k a.
Proof.
  intros H1 H2. unfold at_key, ttl. rewrite ttl_put. case_decide as Hd.
  - subst. by rewrite sel_put.
  - by rewrite sel_put_ne.
Qed.
Lemma at_key_with eng k t a e k' : at_key e k' (with_ttl eng k t a) =
  if decide (e = eng /\ k' = k) then (sel e a !! k', Some t) else at_key e k' a.
Proof.
  unfold at_key, ttl, with_ttl. cbn. change (sel e (a <| a_ttl ::= _ |>)) with (sel e a). f_equal.
  case_decide as Hd; [destruct Hd; subst; by rewrite lookup_insert_eq|].
  rewrite lookup_insert_ne; [done|]. intros [= -> ->]. tauto.
Qed.
Lemma at_key_without eng k a e k' : at_key e k' (without_ttl eng k a) =
  if decide (e = eng /\ k' = k) then (sel e a !! k', None) else at_key e k' a.
Proof.
  unfold at_key, ttl, without_ttl. cbn. change (sel e (a <| a_ttl ::= _ |>)) with (sel e a). f_equal.
  case_decide as Hd; [destruct Hd; subst; by rewrite lookup_delete_eq|].
  rewrite lookup_delete_ne; [done|]. intros [= -> ->]. tauto.
Qed.
Lemma at_key_forget eng k a e k' : known eng -> known e -> at_key e k' (forget eng k a) =
  if decide (e = eng /\ k' = k) then (None, None) else at_key e k' a.
Proof.
  intros H1 H2. change (forget eng k a) with (without_ttl eng k (removed eng k a)).
  rewrite at_key_without. change (sel e (removed eng k a) !! k') with (at_key e k' (removed eng k a)).1.
  unfold removed. rewrite at_key_put by done. case_decide as Hd.
  - destruct Hd; subst. rewrite decide_True by done. cbn. by rewrite lookup_delete_eq.
  - case_decide; [|done]. subst. rewrite lookup_delete_ne; [done|]. intros ->. tauto.
Qed.

Lemma changes_put eng k m a : known eng -> (forall k', k' <> k -> m !! k' = sel eng a !! k') ->
  changes (only eng k) a (put eng m a).
Proof.
  intros Hk Hm e k' He. destruct (decide (e = eng /\ k' = k)) as [|Hd]; [by left|].
  right. left. rewrite at_key_put by done. case_decide; [|done]. subst. unfold at_key. rewrite Hm; [done|].
  intros ->. tauto.
Qed.
Lemma changes_stored eng k v a : known eng -> changes (only eng k) a (stored eng k v a).
Proof. intros Hk. apply changes_put; [done|]. intros k' Hn. by rewrite lookup_insert_ne. Qed.
Lemma changes_removed eng k a : known eng -> changes (only eng k) a (removed eng k a).
Proof. intros Hk. apply changes_put; [done|]. intros k' Hn. by rewrite lookup_delete_ne. Qed.
Lemma changes_with eng k t a : changes (only eng k) a (with_ttl eng k t a).
Proof.
  intros e k' He. unfold kept. rewrite at_key_with.
  case_decide; [by left|]. right. by left.
Qed.
Lemma changes_without eng k a : changes (only eng k) a (without_ttl eng k a).
Proof.
  intros e k' He. unfold kept. rewrite at_key_without.
  case_decide; [by left|]. right. by left.
Qed.
Lemma changes_tried eng k a a' : known eng -> tried eng k a a' -> changes nothing a a'.
Proof.
  intros Hk [[-> _]|[-> Hl]]; [apply changes_refl|]. intros e k' He. right.
  unfold kept. rewrite at_key_forget by done. case_decide as Hd; [|by left].
  destruct Hd; subst. right. by split.
Qed.

Create HintDb foot.
#[local] Hint Resolve changes_refl changes_stored changes_removed changes_with changes_without : foot.
#[local] Hint Resolve changes_more changes_tried : foot.

(** No expiry time is left without its key. *)
Lemma orphan_by_key a a' : no_orphan a ->
  (forall e k, known e -> at_key e k a' = at_key e k a \/ ttl e k a' = None \/ is_Some (sel e a' !! k)) ->
  no_orphan a'.
Proof.
  intros Ho H e k He Ht. destruct (H e k He) as [Hk|[Hk|Hk]]; [|rewrite Hk in Ht; by destruct Ht|done].
  injection Hk as Hs Ht'. rewrite Hs. apply Ho; [done|]. by rewrite <- Ht'.
Qed.
Lemma orphan_tried eng k a a' : known eng -> tried eng k a a' -> no_orphan a -> no_orphan a'.
Proof.
  intros Hk [[-> _]|[-> _]] Ho; [done|]. apply (orphan_by_key a); [done|]. intros e k' He.
  pose proof (at_key_forget eng k a e k' Hk He) as Hx. case_decide; [|auto]. right. left. exact (f_equal snd Hx).
Qed.
Lemma orphan_stored eng k v a : known eng -> no_orphan a -> no_orphan (stored eng k v a).
Proof.
  intros Hk Ho. apply (orphan_by_key a); [done|]. intros e k' He.
  pose proof (at_key_put eng (<[k := v]> (sel eng a)) a e k' Hk He) as Hx. fold (stored eng k v a) in Hx.
  case_decide; [|auto]. injection Hx as Hx Ht. subst. destruct (decide (k' = k)) as [->|].
  - right. right. rewrite Hx, lookup_insert_eq. eauto.
  - left. rewrite lookup_insert_ne in Hx by done. unfold at_key. congruence.
Qed.
Lemma orphan_without eng k a : no_orphan a -> no_orphan (without_ttl eng k a).
Proof.
  intros Ho. apply (orphan_by_key a); [done|]. intros e k' He.
  pose proof (at_key_without eng k a e k') as Hx. case_decide; [|auto]. right. left. exact (f_equal snd Hx).
Qed.
Lemma orphan_with eng k t a : is_Some (sel eng a !! k) -> no_orphan a -> no_orphan (with_ttl eng k t a).
Proof.
  intros Hs Ho. apply (orphan_by_key a); [done|]. intros e k' He.
  pose proof (at_key_with eng k t a e k') as Hx. case_decide as Hd; [|auto]. destruct Hd; subst.
  right. right. exact Hs.
Qed.
Lemma orphan_removed eng k a : known eng -> no_orphan a -> no_orphan (without_ttl eng k (removed eng k a)).
Proof.
  intros Hk Ho. apply (orphan_by_key a); [done|]. intros e k' He.
  pose proof (at_key_forget eng k a e k' Hk He) as Hx. case_decide; [|auto]. right. left. exact (f_equal snd Hx).
Qed.

(** What every command is held to: changes only where it may, and leaves no
    expiry time behind. *)
Definition safe (W : Z -> bytes -> Prop) (a a' : astate) : Prop :=
  changes W a a' /\ (no_orphan a -> no_orphan a').

Lemma safe_refl W a : safe W a a.
Proof. split; [apply changes_refl|done]. Qed.
Lemma safe_trans W a1 a2 a3 : safe W a1 a2 -> safe W a2 a3 -> safe W a1 a3.
Proof. intros [] []. split; [by eapply changes_trans|auto]. Qed.
Lemma safe_mono (W W' : Z -> bytes -> Prop) a a' : safe W a a' -> (forall e k, W e k -> W' e k) -> safe W' a a'.
Proof. intros [H ?] HW. split; [by eapply changes_mono|done]. Qed.
Lemma safe_more W a a' : safe nothing a a' -> safe W a a'.
Proof. intros H. by apply (safe_mono nothing). Qed.
Lemma safe_tried eng k a a' : known eng -> tried eng k a a' -> safe nothing a a'.
Proof. intros Hk Ht. split; [eauto with foot|]. by apply orphan_tried with (eng := eng) (k := k). Qed.
Lemma safe_stored eng k v a : known eng -> safe (only eng k) a (stored eng k v a).
Proof. intros Hk. split; [eauto with foot|]. by apply orphan_stored. Qed.
Lemma safe_without eng k a : safe (only eng k) a (without_ttl eng k a).
Proof. split; [eauto with foot|]. apply orphan_without. Qed.
Lemma safe_with eng k t a : is_Some (sel eng a !! k) -> safe (only eng k) a (with_ttl eng k t a).
Proof. intros. split; [eauto with foot|]. by apply orphan_with. Qed.
Lemma safe_removed eng k a : known eng -> safe (only eng k) a (without_ttl eng k (removed eng k a)).
Proof.
  intros Hk. split; [|by apply orphan_removed].
  eapply changes_trans; [by apply changes_removed|apply changes_without].
Qed.
#[local] Hint Resolve safe_refl safe_more safe_tried safe_stored safe_without safe_with safe_removed : foot.

Lemma sel_stored eng k v a : sel eng (stored eng k v a) !! k = Some v.
Proof. unfold stored. by rewrite sel_put, lookup_insert_eq. Qed.

(** States without expiry times. *)
Definition plain (a : astate) : Prop := a_ttl a = ∅.

Lemma plain_tried eng k a a' : plain a -> tried eng k a a' -> a' = a.
Proof.
  intros Hp [[-> _]|[_ (i & t & Ht & _)]]; [done|]. unfold ttl in Ht. rewrite Hp in Ht. by rewrite lookup_empty in Ht.
Qed.
Lemma plain_without eng k a : plain a -> without_ttl eng k a = a.
Proof. unfold plain, without_ttl, upd. destruct a. cbn. intros ->. by rewrite delete_empty. Qed.
Lemma plain_stored eng k v a : plain a -> plain (stored eng k v a).
Proof. unfold plain. intros H. unfold stored. by rewrite ttl_put. Qed.

(** Nothing happens but expiry, and without expiry times nothing at all. *)
Definition idle (a a' : astate) : Prop := safe nothing a a' /\ (plain a -> a' = a).
Lemma idle_refl a : idle a a.
Proof. split; [apply safe_refl|done]. Qed.
Lemma idle_trans a1 a2 a3 : idle a1 a2 -> idle a2 a3 -> idle a1 a3.
Proof.
  intros [H1 P1] [H2 P2]. split; [by eapply safe_trans|]. intros Hp. rewrite (P1 Hp) in *. by apply P2.
Qed.
Lemma idle_tried eng k a a' : known eng -> tried eng k a a' -> idle a a'.
Proof. intros Hk Ht. split; [by eapply safe_tried|]. intros Hp. by eapply plain_tried. Qed.

(** ** Upserts, multi-key commands and locks *)

Lemma engine_upsert_from N eng k v a (Q : Z -> astate -> Prop) : known eng -> cstr_ok k -> cstr_ok v ->
  (forall a', safe (only eng k) a a' -> sel eng a' !! k = Some v -> (plain a -> a' = stored eng k v a) -> Q 0 a') ->
  (forall x a', x <> 0 -> safe nothing a a' -> Q x a') ->
  from N a (engine_upsert eng k v) Q.
Proof.
  intros Hk Hkk Hv H0 H1. unfold engine_upsert. step try_expire_from. intros _ a1 Ht.
  pose proof (safe_tried _ _ _ _ Hk Ht) as Hs.
  assert (safe (only eng k) a (stored eng k v a1)) as Hst
    by (eapply safe_trans; [by apply safe_more|by apply safe_stored]).
  step engine_exist_from. intros x Hx. case_decide.
  - step engine_mod_from.
    + intros _. rewrite decide_False by lia. step expire_del_from; intros _; apply from_ret, H0; try apply sel_stored.
      1, 3: (eapply safe_trans; [exact Hst|apply safe_without]).
      all: intros Hp; rewrite (plain_tried _ _ _ _ Hp Ht) in *; by apply plain_without, plain_stored.
    + intros _. rewrite decide_True by lia. by apply from_ret, H1.
    + intros y Hy. rewrite decide_True by lia. by apply from_ret, H1.
  - last_step engine_set_from.
    + apply H0; [done|apply sel_stored|]. intros Hp. by rewrite (plain_tried _ _ _ _ Hp Ht) in *.
    + intros y Hy. apply H1; [lia|done].
Qed.

(** The keys of MSET, and the map after storing its pairs. *)
Fixpoint pair_keys (kvs : list bytes) : list bytes :=
  match kvs with k :: _ :: r => cstr k :: pair_keys r | _ => [] end.
Fixpoint stored_all (eng : Z) (kvs : list bytes) (a : astate) : astate :=
  match kvs with
  | k :: v :: r => stored_all eng r (stored eng (cstr k) (cstr v) a)
  | _ => a
  end.

Definition bytes_ok (b : bytes) : Prop := Forall (fun x => 0 <= x <= 255) b.
Lemma cstr_of_bytes b : bytes_ok b -> cstr_ok (cstr b).
Proof.
  induction 1 as [|x b Hx _ IH]; cbn; [constructor|]. case_decide; [constructor|]. constructor; [lia|done].
Qed.
#[local] Hint Resolve cstr_of_bytes : core.

#[local] Hint Unfold engine_upsert handle_multi_set handle_multi_get : flow_defs.
Lemma flow_all eng kvs : (mono (upsert_all eng kvs) /\ quiet (upsert_all eng kvs)) /\
  mono (get_all eng kvs) /\ quiet (get_all eng kvs).
Proof.
  split.
  - revert kvs. fix IH 1. intros [|k [|v r]]; cbn [upsert_all]; [split; flow..|].
    destruct (IH r). split; flow.
  - induction kvs as [|k kvs [? ?]]; cbn [get_all]; split; flow.
Qed.
#[local] Hint Extern 2 (mono (upsert_all _ _)) => apply flow_all : flow.
#[local] Hint Extern 2 (quiet (upsert_all _ _)) => apply flow_all : flow.
#[local] Hint Extern 2 (mono (get_all _ _)) => apply flow_all : flow.
#[local] Hint Extern 2 (quiet (get_all _ _)) => apply flow_all : flow.

Lemma upsert_all_from N eng : known eng -> forall kvs a (Q : Z -> astate -> Prop), Forall bytes_ok kvs ->
  (forall x a', safe (fun e k => e = eng /\ k ∈ pair_keys kvs) a a' ->
     (x = 0 -> plain a -> a' = stored_all eng kvs a) -> Q x a') ->
  from N a (upsert_all eng kvs) Q.
Proof.
  intros Hk. fix IH 1. intros [|k [|v r]] a Q Hok HQ; [apply from_ret, HQ; auto with foot..|].
  inversion Hok as [|? ? Hb1 Hok']; inversion Hok' as [|? ? Hb2 Hr]; subst.
  cbn [upsert_all pair_keys stored_all] in *. step engine_upsert_from; [auto..| |].
  - intros a1 Hs _ Hp. rewrite decide_False by lia. apply IH; [done|]. intros x a' Hs' Hp'. apply HQ.
    + eapply safe_trans; [eapply safe_mono; [exact Hs|]|eapply safe_mono; [exact Hs'|]].
      * intros e k' [-> ->]. split; [done|]. constructor.
      * intros e k' [-> ?]. split; [done|]. by constructor.
    + intros Hx Hpl. rewrite (Hp Hpl) in Hp'. apply Hp'; [done|]. by apply plain_stored.
  - intros x a1 Hx Hs. rewrite decide_True by lia. apply from_ret, HQ; [by apply safe_more|done].
Qed.

Lemma get_all_from N eng ks : known eng -> Forall bytes_ok ks -> forall a (Q : list (option bytes) -> astate -> Prop),
  (forall vs a', idle a a' -> length vs = length ks -> Q vs a') -> from N a (get_all eng ks) Q.
Proof.
  intros Hk. induction 1 as [|k ks Hb _ IH]; intros a Q HQ; cbn [get_all].
  - apply from_ret, HQ; [apply idle_refl|done].
  - step try_expire_from; [auto|]. intros _ a1 Ht. step engine_get_from; [auto|].
    apply from_bind; [|flow]. apply IH. intros vs a2 Hs Hl. apply from_ret, HQ; [|cbn; congruence].
    eapply idle_trans; [by eapply idle_tried|done].
Qed.

(** ** Locks *)

(** The clock never reaches the key's expiry time. *)
Definition unexpired (eng : Z) (k : bytes) (a : astate) : Prop :=
  forall i t, ttl eng k a = Some t -> now (E i) < t.

Lemma tried_unexpired eng k a a' : unexpired eng k a -> tried eng k a a' -> a' = a.
Proof. intros Hu [[-> _]|[_ (i & t & Ht & Hle)]]; [done|]. specialize (Hu i t Ht). lia. Qed.

(** States that agree on every key. *)
Lemma safe_same a a' : (forall e k, known e -> at_key e k a' = at_key e k a) -> safe nothing a a'.
Proof.
  intros H. split; [intros e k He; right; left; auto|].
  intros Ho. apply (orphan_by_key a); auto.
Qed.

(** Undoing a half-made lock gives back the state without the key. *)
Lemma undo_lock eng k v a : known eng -> sel eng a !! k = None -> no_orphan a ->
  safe nothing a (without_ttl eng k (removed eng k (stored eng k v a))).
Proof.
  intros Hk Hn Ho. change (without_ttl _ _ (removed _ _ ?x)) with (forget eng k x). apply safe_same.
  intros e k' He. rewrite at_key_forget by done. case_decide as Hd.
  - destruct Hd; subst. unfold at_key. rewrite Hn. f_equal. destruct (ttl eng k a) eqn:Et; [|done].
    destruct (Ho eng k Hk) as [? ?]; [by rewrite Et|congruence].
  - unfold stored. rewrite at_key_put by done. case_decide; [|done]. subst. unfold at_key.
    rewrite lookup_insert_ne; [done|]. intros ->. tauto.
Qed.

(** [tok] holds the lock [k] until [t]. *)
Definition holds (eng : Z) (k tok : bytes) (t : Z) (a : astate) : Prop := at_key eng k a = (Some tok, Some t).

Lemma lock_acquire_from N eng key token ms a (Q : Z -> astate -> Prop) : known eng -> cstr_ok key -> cstr_ok token ->
  (forall i a', safe (only eng key) a a' -> holds eng key token (i64 (now (E i) + ms)) a' ->
     ~ (unexpired eng key a /\ is_Some (sel eng a !! key)) -> Q 0 a') ->
  (forall x a', x <> 0 -> safe (only eng key) a a' -> (no_orphan a -> safe nothing a a') ->
     (unexpired eng key a -> is_Some (sel eng a !! key) -> a' = a /\ (0 < ms -> x = 1)) -> Q x a') ->
  from N a (lock_acquire eng key token ms) Q.
Proof.
  intros Hk Hkk Htk H0 H1. unfold lock_acquire. case_decide.
  { apply from_ret, H1; eauto with foot. intros _ _. split; [done|lia]. }
  step try_expire_from. intros _ a1 Ht. pose proof (safe_tried _ _ _ _ Hk Ht) as Hs.
  assert (safe (only eng key) a (stored eng key token a1)) as Hst
    by (eapply safe_trans; [by apply safe_more|by apply safe_stored]).
  step engine_exist_from. intros x Hx. case_decide.
  { apply from_ret, H1; [done|by apply safe_more|done|]. intros Hu _. split; [by eapply tried_unexpired|done]. }
  assert (sel eng a1 !! key = None) as Hn by (apply eq_None_not_Some; tauto).
  assert (unexpired eng key a -> is_Some (sel eng a !! key) -> False) as Hno.
  { intros Hu Hsm. rewrite (tried_unexpired _ _ _ _ Hu Ht) in Hn. rewrite Hn in Hsm. by destruct Hsm. }
  step engine_set_from.
  - rewrite decide_False by lia. step expire_set_from.
    + intros i Hms. rewrite decide_False by lia. apply from_ret, (H0 i).
      * eapply safe_trans; [exact Hst|]. apply safe_with. by rewrite sel_stored.
      * unfold holds. rewrite at_key_with, decide_True by done. f_equal. apply sel_stored.
      * intros [Hu Hsm]. by apply Hno.
    + rewrite decide_True by lia. step engine_del_from; intros _; step expire_del_from; intros _; apply from_ret, H1.
      all: try done.
      all: try (intros Hu Hsm; exfalso; by apply Hno).
      all: try (eapply safe_trans; [exact Hst|by apply safe_removed]).
      all: intros Ho; eapply safe_trans; [exact Hs|]; apply undo_lock; [done|done|by apply Hs].
  - intros y Hy. rewrite decide_True by lia. apply from_ret, H1; [lia|by apply safe_more|done|].
    intros Hu Hsm. exfalso. by apply Hno.
Qed.

Lemma lock_release_from N eng key token a (Q : Z -> astate -> Prop) : known eng -> cstr_ok key ->
  (forall a', safe (only eng key) a a' -> text eng <$> sel eng a !! key = Some token ->
     at_key eng key a' = (None, None) -> Q 0 a') ->
  (forall x a', x <> 0 -> safe nothing a a' -> Q x a') ->
  from N a (lock_release eng key token) Q.
Proof.
  intros Hk Hkk H0 H1. unfold lock_release. step try_expire_from. intros _ a1 Ht.
  pose proof (safe_tried _ _ _ _ Hk Ht) as Hs. step engine_get_from.
  destruct (sel eng a1 !! key) as [v|] eqn:Ev; cbn; [|by apply from_ret, H1].
  case_decide as Hc; [by apply from_ret, H1|].
  assert (text eng v = token) as Htk by (apply strcmp_eq; lia).
  step engine_del_from; [|congruence]. intros _. rewrite decide_False by lia.
  assert (safe (only eng key) a (without_ttl eng key (removed eng key a1))) as Hst
    by (eapply safe_trans; [by apply safe_more|by apply safe_removed]).
  assert (text eng <$> sel eng a !! key = Some token) as Hwas.
  { destruct Ht as [[-> _]|[-> _]]; [by rewrite Ev, <- Htk|].
    pose proof (at_key_forget eng key a eng key Hk Hk) as Hf. rewrite decide_True in Hf by done.
    injection Hf as Hf _. congruence. }
  assert (at_key eng key (without_ttl eng key (removed eng key a1)) = (None, None)) as Hgone.
  { change (without_ttl _ _ (removed _ _ ?x)) with (forget eng key x).
    by rewrite at_key_forget, decide_True by done. }
  step expire_del_from; intros _; by apply from_ret, H0.
Qed.

Lemma lock_renew_from N eng key token ms a (Q : Z -> astate -> Prop) : known eng -> cstr_ok key ->
  (forall i a', safe (only eng key) a a' -> text eng <$> sel eng a !! key = Some token ->
     ttl eng key a' = Some (i64 (now (E i) + ms)) -> sel eng a' !! key = sel eng a !! key -> Q 0 a') ->
  (forall x a', x <> 0 -> safe nothing a a' -> Q x a') ->
  from N a (lock_renew eng key token ms) Q.
Proof.
  intros Hk Hkk H0 H1. unfold lock_renew. case_decide; [by apply from_ret, H1, safe_refl|].
  step try_expire_from. intros _ a1 Ht. pose proof (safe_tried _ _ _ _ Hk Ht) as Hs. step engine_get_from.
  destruct (sel eng a1 !! key) as [v|] eqn:Ev; cbn; [|by apply from_ret, H1].
  case_decide as Hc; [by apply from_ret, H1|].
  assert (text eng v = token) as Htk by (apply strcmp_eq; lia).
  assert (sel eng a !! key = Some v) as Hwas.
  { destruct Ht as [[-> _]|[-> _]]; [done|].
    pose proof (at_key_forget eng key a eng key Hk Hk) as Hf. rewrite decide_True in Hf by done.
    injection Hf as Hf _. congruence. }
  last_step expire_set_from; [|by apply H1]. intros i Hms.
  pose proof (at_key_with eng key (i64 (now (E i) + ms)) a1 eng key) as Hw. rewrite decide_True in Hw by done.
  injection Hw as Hw. apply (H0 i).
  - eapply safe_trans; [by apply safe_more|]. apply safe_with. by rewrite Ev.
  - rewrite Hwas. cbn. by rewrite Htk.
  - done.
  - rewrite Hwas. exact Ev.
Qed.

(** ** Engine commands *)

Definition args_ok : Prop := Forall bytes_ok (argv rq).

Lemma blob_ok i : args_ok -> bytes_ok (blob rq i).
Proof.
  intros H. unfold blob. destruct (argv rq !! i) eqn:E2; cbn; [|constructor].
  exact (Forall_lookup_1 _ _ _ _ H E2).
Qed.
Lemma arg_ok i : args_ok -> cstr_ok (arg rq i).
Proof. intros H. by apply cstr_of_bytes, blob_ok. Qed.
#[local] Hint Resolve blob_ok arg_ok : core.

Definition write_op (opn : bytes) : bool :=
  one_of opn ["SET"; "MSET"; "MOD"; "DEL"; "EXPIRE"; "SETEX"; "PERSIST"].
(** The keys an engine command may write. *)
Definition branch_keys (opn : bytes) : list bytes :=
  if is_cmd opn "MSET" then pair_keys (tail (argv rq)) else [arg rq 1].
Definition branch_writes (eng : Z) (opn : bytes) : Z -> bytes -> Prop :=
  fun e k => e = eng /\ write_op opn = true /\ k ∈ branch_keys opn.
(** The value a SET stores. *)
Definition value_arg (eng : Z) (i : nat) : bytes :=
  if decide (eng = KVS_ENGINE_HASH) then blob rq i else arg rq i.
(** The commands whose effect does not depend on the clock. *)
Definition timeless (opn : bytes) : bool := one_of opn ["SET"; "MSET"; "MOD"; "DEL"].
Definition effect (eng : Z) (opn : bytes) (a : astate) : astate :=
  if is_cmd opn "SET" then stored eng (arg rq 1) (value_arg eng 2) a
  else if is_cmd opn "MSET" then stored_all eng (tail (argv rq)) a
  else if is_cmd opn "MOD" then stored eng (arg rq 1) (arg rq 2) a
  else removed eng (arg rq 1) a.

(** What a branch with a result code guarantees. *)
Record branch_ok (eng : Z) (opn : bytes) (rc : Z) (a a' : astate) : Prop := {
  bo_op : write_op opn = true;
  bo_safe : safe (branch_writes eng opn) a a';
  bo_fail : rc <> 0 -> opn <> str "MSET" -> opn <> str "SETEX" -> no_orphan a -> safe nothing a a';
  bo_rc : opn = str "SET" -> rc <= 0;
  bo_set : rc = 0 -> opn = str "SET" -> sel eng a' !! arg rq 1 = Some (value_arg eng 2);
  bo_idle : rc <> 0 -> timeless opn = true -> opn <> str "MSET" -> plain a -> a' = a;
  bo_plain : rc = 0 -> timeless opn = true -> plain a -> a' = effect eng opn a;
}.

Lemma from_queue N r a (Q : unit -> astate -> Prop) : Q tt a -> from N a (queue r) Q.
Proof.
  intros HQ w <- Hg _. unfold queue. case_decide; [done|]. unfold queue_bytes.
  destruct (has_conn rq); [|done]. split; [by destruct Hg|done].
Qed.
Lemma from_queue_bytes N d a (Q : unit -> astate -> Prop) : Q tt a -> from N a (queue_bytes d) Q.
Proof. intros HQ w <- Hg _. unfold queue_bytes. destruct (has_conn rq); [|done]. split; [by destruct Hg|done]. Qed.
Lemma from_emit N ev a (Q : unit -> astate -> Prop) : Q tt a -> from N a (emit ev) Q.
Proof. intros HQ w <- Hg _. split; [by destruct Hg|done]. Qed.
Lemma from_tick N a (Q : env -> astate -> Prop) : (forall e, Q e a) -> from N a tick Q.
Proof. intros HQ w <- Hg _. split; [by apply tick_good|apply HQ]. Qed.
Lemma from_get N a (Q : db -> astate -> Prop) : (forall d, Q d a) -> from N a get_tables Q.
Proof. intros HQ w <- Hg _. split; [done|apply HQ]. Qed.
Lemma from_done N r a (Q : outcome -> astate -> Prop) : Q (Done 0) a -> from N a (done r) Q.
Proof.
  intros HQ. unfold done. apply from_bind; [|flow]. apply from_queue. by apply from_ret.
Qed.
#[local] Hint Unfold done queue set_value try_expire_first get_value : flow_defs.

Lemma set_value_from N eng i a (Q : Z -> astate -> Prop) : known eng -> args_ok ->
  Q 0 (stored eng (arg rq 1) (value_arg eng i) a) -> (forall x, x < 0 -> Q x a) -> from N a (set_value eng i) Q.
Proof.
  intros Hk Ha H0 H1. unfold set_value, value_arg in *. case_decide.
  - subst. by apply hash_set_len_from.
  - apply engine_set_from; auto.
Qed.

Lemma is_cmd_eq c n : is_cmd c n = true -> c = str n.
Proof. unfold is_cmd. apply bool_decide_eq_true_1. Qed.

Lemma only_branch eng opn : is_cmd opn "MSET" = false -> write_op opn = true ->
  forall e k, only eng (arg rq 1) e k -> branch_writes eng opn e k.
Proof.
  intros Hm Hw e k [-> ->]. split_and!; [done|done|]. unfold branch_keys. rewrite Hm. constructor.
Qed.

(** Taking the expiry time off a key that has none, or a missing key away. *)
Lemma without_none eng k a : ttl eng k a = None -> safe nothing a (without_ttl eng k a).
Proof.
  intros Hn. apply safe_same. intros e k' He. rewrite at_key_without. case_decide as Hd; [|done].
  destruct Hd; subst. unfold at_key. by rewrite Hn.
Qed.
Lemma removed_none eng k a : known eng -> no_orphan a -> sel eng a !! k = None ->
  safe nothing a (without_ttl eng k (removed eng k a)).
Proof.
  intros Hk Ho Hn. unfold removed. rewrite delete_id, put_sel by done. apply without_none.
  destruct (ttl eng k a) eqn:Et; [|done]. destruct (Ho eng k Hk) as [? ?]; [by rewrite Et|congruence].
Qed.

Definition branch_post (eng : Z) (opn : bytes) (a : astate) (b : branch) (a' : astate) : Prop :=
  match b with
  | Reply _ => idle a a'
  | Rc rc _ => branch_ok eng opn rc a a'
  end.

Section Branches.

Context (N : nat) (eng : Z) (a : astate) (Hk : known eng) (Hargs : args_ok).

(** A branch that leaves the state as [try_expire] did. *)
Lemma branch_fails opn rc a' : write_op opn = true -> rc <> 0 -> safe nothing a a' -> (opn = str "SET" -> rc <= 0) ->
  (timeless opn = true -> opn <> str "MSET" -> plain a -> a' = a) -> branch_ok eng opn rc a a'.
Proof. intros Hw Hr Hs Hrc Hp. split; first [done | by apply safe_more | auto]. Qed.

(** A branch on one key that succeeds. *)
Lemma branch_succeeds opn a1 a' : write_op opn = true -> is_cmd opn "MSET" = false ->
  safe nothing a a1 -> safe (only eng (arg rq 1)) a1 a' ->
  (opn = str "SET" -> sel eng a' !! arg rq 1 = Some (value_arg eng 2)) ->
  (timeless opn = true -> plain a -> a' = effect eng opn a) -> branch_ok eng opn 0 a a'.
Proof.
  intros Hw Hm Hs Hs' H1 H2. split; try done.
  - eapply safe_trans; [by apply safe_more|]. eapply safe_mono; [exact Hs'|]. by apply only_branch.
Qed.

Lemma branch_set : from N a (try_expire eng (arg rq 1);; rc ← set_value eng 2; mret (Rc rc true))
  (branch_post eng (str "SET") a).
Proof.
  step try_expire_from; [auto|]. intros _ a1 Ht. pose proof (safe_tried _ _ _ _ Hk Ht) as Hs.
  apply from_bind; [|flow]. apply set_value_from; [done|done| |].
  - apply from_ret. apply (branch_succeeds _ a1); try done; [by apply safe_stored|intros _; apply sel_stored|].
    intros _ Hp. by rewrite (plain_tried _ _ _ _ Hp Ht).
  - intros x Hx. apply from_ret. apply branch_fails; [done|lia|done|lia|]. intros _ _ Hp. by eapply plain_tried.
Qed.

Lemma branch_mset : from N a (try_expire_first eng;; rc ← handle_multi_set eng; mret (Rc rc false))
  (branch_post eng (str "MSET") a).
Proof.
  assert (from N a (try_expire_first eng) (fun _ a1 => safe nothing a a1 /\ (plain a -> a1 = a))) as Hf.
  { unfold try_expire_first. destruct (argv rq !! 1%nat) as [k|] eqn:Ek; [|by apply from_ret; split; [apply safe_refl|]].
    last_step try_expire_from.
    - apply cstr_of_bytes. exact (Forall_lookup_1 _ _ _ _ Hargs Ek).
    - intros _ a1 Ht. split; [by eapply safe_tried|]. intros Hp. by eapply plain_tried. }
  apply from_bind; [|unfold handle_multi_set; flow]. eapply from_mono; [exact Hf|]. intros _ a1 [Hs Hp].
  apply from_bind; [|flow]. unfold handle_multi_set. case_decide.
  { apply from_ret, from_ret. by apply branch_fails. }
  apply upsert_all_from; [done|by apply Forall_tail|]. intros x a' Hs' Hp'. apply from_ret. split; try done.
  - eapply safe_trans; [by apply safe_more|]. eapply safe_mono; [exact Hs'|]. intros e k [-> ?]. by split_and!.
  - intros Hx _ Hpl. rewrite (Hp Hpl) in *. by apply Hp'.
Qed.

Lemma branch_mod : from N a (try_expire eng (arg rq 1);; rc ← engine_mod eng (arg rq 1) (arg rq 2); mret (Rc rc true))
  (branch_post eng (str "MOD") a).
Proof.
  step try_expire_from; [auto|]. intros _ a1 Ht. pose proof (safe_tried _ _ _ _ Hk Ht) as Hs.
  step engine_mod_from; [auto|auto| | |].
  - intros _. apply from_ret, (branch_succeeds _ a1); try done; [by apply safe_stored|].
    intros _ Hp. by rewrite (plain_tried _ _ _ _ Hp Ht).
  - intros _. apply from_ret, branch_fails; [done..|]. intros _ _ Hp. by eapply plain_tried.
  - intros x Hx. apply from_ret, branch_fails; [done|lia|done|done|]. intros _ _ Hp. by eapply plain_tried.
Qed.

Lemma branch_del :
  from N a (try_expire eng (arg rq 1);; rc ← engine_del eng (arg rq 1); expire_del eng (arg rq 1);; mret (Rc rc true))
    (branch_post eng (str "DEL") a).
Proof.
  step try_expire_from; [auto|]. intros _ a1 Ht. pose proof (safe_tried _ _ _ _ Hk Ht) as Hs.
  assert (safe (only eng (arg rq 1)) a1 (without_ttl eng (arg rq 1) (removed eng (arg rq 1) a1))) as Hs1
    by by apply safe_removed.
  step engine_del_from; [auto| |]; intros Hx; step expire_del_from; intros _; apply from_ret.
  1, 2: apply (branch_succeeds _ a1); try done; intros _ Hp; rewrite (plain_tried _ _ _ _ Hp Ht) in *;
    rewrite plain_without; [done|]; unfold plain, removed; by rewrite ttl_put.
  all: split; try done; [eapply safe_trans; [by apply safe_more|]; eapply safe_mono; [exact Hs1|by apply only_branch]| |].
  1, 3: intros _ _ _ Ho; eapply safe_trans; [exact Hs|]; apply removed_none; [done|by apply Hs|done].
  all: intros _ _ _ Hp; rewrite (plain_tried _ _ _ _ Hp Ht) in *; unfold removed; rewrite delete_id, put_sel by done;
    by apply plain_without.
Qed.

Lemma branch_expire ms :
  from N a (try_expire eng (arg rq 1);; x ← engine_exist eng (arg rq 1);
            rc ← (if decide (x <> 0) then mret 1 else expire_set eng (arg rq 1) ms); mret (Rc rc true))
    (branch_post eng (str "EXPIRE") a).
Proof.
  step try_expire_from; [auto|]. intros _ a1 Ht. pose proof (safe_tried _ _ _ _ Hk Ht) as Hs.
  step engine_exist_from; [auto|]. intros x Hx. apply from_bind; [|flow]. case_decide.
  - apply from_ret. by apply from_ret, branch_fails.
  - assert (x = 0) as Hx0 by lia. apply Hx in Hx0. last_step expire_set_from.
    + intros i Hms. apply from_ret, (branch_succeeds _ a1); try done. by apply safe_with.
    + by apply from_ret, branch_fails.
Qed.

Lemma branch_setex ms :
  from N a (try_expire eng (arg rq 1);; rc ← set_value eng 3;
            rc ← (if decide (rc = 0) then expire_set eng (arg rq 1) ms else mret rc); mret (Rc rc true))
    (branch_post eng (str "SETEX") a).
Proof.
  step try_expire_from; [auto|]. intros _ a1 Ht. pose proof (safe_tried _ _ _ _ Hk Ht) as Hs.
  apply from_bind; [|flow]. apply set_value_from; [done|done| |].
  - assert (safe (only eng (arg rq 1)) a1 (stored eng (arg rq 1) (value_arg eng 3) a1)) as Hst by by apply safe_stored.
    cbn. apply from_bind; [|flow]. last_step expire_set_from.
    + intros i Hms. apply from_ret, (branch_succeeds _ a1); try done.
      eapply safe_trans; [exact Hst|]. apply safe_with. by rewrite sel_stored.
    + apply from_ret. split; try done. eapply safe_trans; [by apply safe_more|].
      eapply safe_mono; [exact Hst|by apply only_branch].
  - intros x Hx. rewrite decide_False by lia. apply from_bind; [|flow].
    apply from_ret, from_ret, branch_fails; [done|lia|done|done|done].
Qed.

Lemma branch_persist :
  from N a (try_expire eng (arg rq 1);; x ← engine_exist eng (arg rq 1);
            rc ← (if decide (x <> 0) then mret 1 else expire_persist eng (arg rq 1)); mret (Rc rc true))
    (branch_post eng (str "PERSIST") a).
Proof.
  step try_expire_from; [auto|]. intros _ a1 Ht. pose proof (safe_tried _ _ _ _ Hk Ht) as Hs.
  step engine_exist_from; [auto|]. intros x Hx. apply from_bind; [|flow]. case_decide.
  - apply from_ret. by apply from_ret, branch_fails.
  - last_step expire_del_from; intros Hn; apply from_ret.
    + apply (branch_succeeds _ a1); try done. apply safe_without.
    + apply branch_fails; [done|done| |done|done]. eapply safe_trans; [exact Hs|]. by apply without_none.
Qed.

Lemma get_value_from (Q : option bytes -> astate -> Prop) :
  (forall a1, tried eng (arg rq 1) a a1 ->
     Q ((if decide (eng = KVS_ENGINE_HASH) then id else text eng) <$> sel eng a1 !! arg rq 1) a1) ->
  from N a (get_value eng) Q.
Proof.
  intros HQ. unfold get_value. step try_expire_from; [auto|]. intros _ a1 Ht. specialize (HQ a1 Ht).
  case_decide; [|by apply engine_get_from; [|auto|]].
  subst eng. apply hash_get_len_from. by rewrite option_fmap_id in HQ.
Qed.

Lemma branch_get : from N a (cmd_get eng) (branch_post eng (str "GET") a).
Proof.
  unfold cmd_get. apply from_bind; [|flow]. apply get_value_from. intros a1 Ht.
  pose proof (idle_tried _ _ _ _ Hk Ht) as Hs. destruct (_ <$> _) as [v|]; [case_decide|].
  - do 3 (apply from_bind; [apply from_queue_bytes|flow]). by apply from_ret.
  - apply from_bind; [|flow]. apply from_done. by apply from_ret.
  - apply from_bind; [|flow]. apply from_done. by apply from_ret.
Qed.

End Branches.

Lemma engine_branch_from N eng opn a : known eng -> args_ok ->
  from N a (engine_branch eng opn) (branch_post eng opn a).
Proof.
  intros Hk Hargs. unfold engine_branch.
  assert (forall o b, from N a (x ← done o; mret (Reply b)) (branch_post eng opn a)) as Hd.
  { intros. apply from_bind; [|flow]. apply from_done, from_ret. apply idle_refl. }
  assert (forall o, from N a (x ← done o; mret (Reply x)) (branch_post eng opn a)) as Hd'.
  { intros. apply from_bind; [|flow]. apply from_done, from_ret. apply idle_refl. }
  repeat match goal with
  | |- from _ _ (if is_cmd opn ?n && ?b then _ else _) _ => destruct (is_cmd opn n && b) eqn:Hc;
       [apply andb_prop in Hc as [Hc _]; apply is_cmd_eq in Hc|clear Hc]
  | |- from _ _ (if is_cmd opn ?n then _ else _) _ => destruct (is_cmd opn n) eqn:Hc; [apply is_cmd_eq in Hc|clear Hc]
  end; try subst opn.
  - by apply branch_set.
  - by apply branch_mset.
  - by apply branch_mod.
  - by apply branch_del.
  - by apply branch_get.
  - apply from_bind; [|flow]. unfold handle_multi_get. case_decide; [apply from_ret, Hd'|].
    apply from_bind; [|flow]. apply get_all_from; [done|by apply Forall_tail|]. intros vs a1 Hs _.
    apply from_ret. apply from_bind; [|flow]. apply from_done, from_ret. exact Hs.
  - apply from_ret. apply idle_refl.
  - step try_expire_from; [auto|]. intros _ a1 Ht. step engine_exist_from; [auto|]. intros x _.
    apply from_bind; [|flow]. apply from_done, from_ret. by eapply idle_tried.
  - by apply branch_expire.
  - by apply branch_setex.
  - step try_expire_from; [auto|]. intros _ a1 Ht. step engine_exist_from; [auto|]. intros x _.
    assert (forall n, from N a1 (o ← done (integer n); mret (Reply o)) (branch_post eng (str "TTL") a)) as Hn.
    { intros n. apply from_bind; [|flow]. apply from_done, from_ret. by eapply idle_tried. }
    apply from_bind; [|flow]. case_decide; [apply from_ret, Hn|].
    apply from_bind; [|flow]. apply from_tick. intros e. apply from_bind; [|flow]. apply from_get. intros d.
    apply from_ret, Hn.
  - by apply branch_persist.
  - apply Hd'.
Qed.

(** The common tail after a success. *)
Definition settled (eng : Z) (opn : bytes) (a : astate) : astate :=
  if one_of opn ["SET"; "MOD"] then without_ttl eng (arg rq 1) a else a.

Lemma append_from N a (Q : Z -> astate -> Prop) : (forall pr, Q pr a) -> from N a persist_append_prepare Q.
Proof.
  intros HQ. unfold persist_append_prepare. apply from_bind; [|flow]. apply from_tick. intros e.
  apply from_bind; [|flow]. apply from_emit, from_ret, HQ.
Qed.
#[local] Hint Unfold persist_append_prepare applied logged : flow_defs.

Lemma logged_from N ok a (Q : outcome -> astate -> Prop) : (forall o, Q o a) -> from N a (logged ok) Q.
Proof.
  intros HQ. unfold logged. destruct (from_replication rq); [by apply from_done|].
  apply from_bind; [|flow]. apply from_emit. apply from_bind; [|flow]. apply append_from. intros pr.
  case_decide; [by apply from_done|]. apply from_bind; [|flow].
  assert (from N a (if decide (pr = KVS_PERSIST_PENDING) then mret (Done 0) else done ok) Q) as Hl
    by (case_decide; [by apply from_ret|by apply from_done]).
  destruct (is_master g); [|by apply from_ret]. apply from_bind; [|flow]. by apply from_emit, from_emit.
Qed.

Lemma applied_from N cmd a (Q : unit -> astate -> Prop) : Q tt a -> from N a (applied cmd) Q.
Proof.
  intros HQ. unfold applied. case_match; [|by apply from_ret]. apply from_bind; [|flow].
  assert (from N a (if negb (recovering g) then emit (NoteApplied (length (raw rq))) else mret tt) Q) as Hl
    by (case_match; [by apply from_emit|by apply from_ret]).
  destruct (negb (is_master g) && _ && _); [|by apply from_ret]. apply from_bind; [|flow]. apply from_emit.
  apply from_bind; [|flow]. apply append_from. intros pr. case_decide; [by apply from_emit|by apply from_ret].
Qed.

Lemma publish_from N cmd a (Q : outcome -> astate -> Prop) : (forall o, Q o a) -> from N a (publish cmd) Q.
Proof.
  intros HQ. unfold publish. destruct (negb _ && _); [|by apply from_done]. apply from_bind; [|flow]. apply from_emit.
  apply from_bind; [|flow]. apply append_from. intros pr. case_decide; [by apply from_done|].
  apply from_bind; [|flow].
  assert (from N a (if decide (pr = KVS_PERSIST_PENDING) then mret (Done 0) else done ok_reply) Q)
    as Hl by (case_decide; [by apply from_ret|by apply from_done]).
  destruct (is_master g); [|by apply from_ret]. do 4 (apply from_bind; [apply from_emit|flow]). by apply from_emit.
Qed.
#[local] Hint Unfold proxied publish settle : flow_defs.

Lemma committed_from N cmd opn eng a (Q : outcome -> astate -> Prop) :
  (forall o, Q o (settled eng opn a)) -> from N a (committed cmd opn eng) Q.
Proof.
  intros HQ. unfold committed. apply from_bind; [|flow].
  assert (from N (settled eng opn a) (applied cmd;; proxied cmd;; publish cmd) Q) as Ht.
  { apply from_bind; [|flow]. apply applied_from. apply from_bind; [|flow]. unfold proxied.
    pose proof (publish_from N cmd (settled eng opn a) Q HQ).
    destruct (_ && ebpf_tcp g); [by apply from_emit|by apply from_ret]. }
  unfold settled in Ht. unfold settle. destruct (one_of opn ["SET"; "MOD"]); [|by apply from_ret].
  apply from_bind; [|flow]. apply expire_del_from; intros _; by apply from_ret.
Qed.

Lemma cmd_engine_known cmd : known (cmd_engine cmd).
Proof.
  unfold cmd_engine, known. repeat case_match; auto.
Qed.

Lemma safe_settled eng opn a : write_op opn = true -> safe (branch_writes eng opn) a (settled eng opn a).
Proof.
  intros Hw. unfold settled. destruct (one_of opn ["SET"; "MOD"]) eqn:Ho; [|apply safe_refl].
  eapply safe_mono; [apply safe_without|]. apply only_branch; [|done].
  unfold one_of in Ho. cbn in Ho. rewrite orb_false_r in Ho.
  apply orb_prop in Ho as [Ho|Ho]; apply is_cmd_eq in Ho; by subst.
Qed.

Lemma engine_dispatch_from N cmd a : args_ok ->
  from N a (engine_dispatch cmd) (fun _ a' => safe (branch_writes (cmd_engine cmd) (strip_prefix cmd)) a a').
Proof.
  intros Hargs. unfold engine_dispatch. apply from_bind.
  2: { intros [o|rc b]; unfold committed; flow. }
  eapply from_mono; [by apply engine_branch_from, Hargs; apply cmd_engine_known|].
  intros [o|rc b] a1 H; cbn in H; [by apply from_ret, safe_more, H|]. destruct H as [Hw Hs _ _ _ _ _].
  case_decide; [|case_decide; by apply from_done]. apply committed_from. intros _.
  eapply safe_trans; [exact Hs|]. by apply safe_settled.
Qed.

(** The keys a command may write: those of an engine command, or a lock. *)
Definition lock_name (cmd : bytes) : bool := one_of cmd ["LOCK"; "UNLOCK"; "RENEW"].
Definition writes (cmd : bytes) : Z -> bytes -> Prop := fun e k =>
  branch_writes (cmd_engine cmd) (strip_prefix cmd) e k \/
  (lock_name cmd = true /\ e = KVS_ENGINE_ARRAY /\ k = arg rq 1).

Lemma known_array : known KVS_ENGINE_ARRAY.
Proof. by left. Qed.
#[local] Hint Resolve known_array : core.
#[local] Hint Unfold lock_reply lock_acquire lock_release lock_renew : flow_defs.

Lemma lock_reply_from N rc msg a (Q : outcome -> astate -> Prop) : (forall o, Q o a) -> from N a (lock_reply rc msg) Q.
Proof.
  intros HQ. unfold lock_reply. case_decide; [by apply logged_from|]. case_decide; by apply from_done.
Qed.

Lemma lock_writes cmd : lock_name cmd = true -> forall e k, only KVS_ENGINE_ARRAY (arg rq 1) e k -> writes cmd e k.
Proof. intros Hl e k [-> ->]. by right. Qed.

Lemma doc_safe t a : safe nothing a (a <| a_doc := t |>).
Proof. by apply safe_same. Qed.

(** A command that replaces the document table. *)
Lemma doc_update_from {A} N (f : env -> db -> A * Doc.table) e (h : A -> M outcome) a :
  (forall x t, from N (a <| a_doc := t |>) (h x) (fun _ a' => safe nothing a a')) ->
  from N a (d ← get_tables; let '(x, t) := f e d in set_tables (d <| global_doc := t |>);; h x)
    (fun _ a' => safe nothing a a').
Proof.
  intros Hh w <- Hg. unfold mbind, M_bind, get_tables. destruct (f e (tables w)) as [x t].
  cbn [set_tables]. intros Hn. apply (Hh x t); [done| |done]. by destruct Hg.
Qed.
Ltac doc_tail := intros x t; repeat case_decide;
  first [apply logged_from; intros _; apply doc_safe | apply from_done, doc_safe].

Lemma cmd_docs_from N a :
  from N a cmd_docset (fun _ a' => safe nothing a a') /\ from N a cmd_docdel (fun _ a' => safe nothing a a') /\
  from N a cmd_docdrop (fun _ a' => safe nothing a a').
Proof.
  split_and!.
  - unfold cmd_docset. apply from_bind; [|unfold logged; flow]. apply from_tick. intros e.
    apply (doc_update_from N (fun e d => Doc.kvs_doc_set (e_doc e) (arg rq 1) (arg rq 2) (arg rq 3) (global_doc d)) e).
    doc_tail.
  - unfold cmd_docdel.
    apply (doc_update_from N (fun e d => Doc.kvs_doc_del_field (arg rq 1) (arg rq 2) (global_doc d)) (E 0)).
    doc_tail.
  - unfold cmd_docdrop.
    apply (doc_update_from N (fun e d => Doc.kvs_doc_del (arg rq 1) (global_doc d)) (E 0)).
    doc_tail.
Qed.

Lemma cmd_locks_from N a : args_ok ->
  from N a cmd_lock (fun _ a' => safe (only KVS_ENGINE_ARRAY (arg rq 1)) a a') /\
  from N a cmd_unlock (fun _ a' => safe (only KVS_ENGINE_ARRAY (arg rq 1)) a a') /\
  from N a cmd_renew (fun _ a' => safe (only KVS_ENGINE_ARRAY (arg rq 1)) a a') /\
  from N a cmd_owner (fun _ a' => safe nothing a a').
Proof.
  intros Hargs. split_and!.
  - step lock_acquire_from; [auto..| |].
    + intros i a' Hs _ _. by apply lock_reply_from.
    + intros x a' _ Hs _ _. by apply lock_reply_from.
  - step lock_release_from; [auto| |].
    + intros a' Hs _ _. by apply lock_reply_from.
    + intros x a' _ Hs. apply lock_reply_from. intros _. by apply safe_more.
  - step lock_renew_from; [auto| |].
    + intros i a' Hs _ _ _. by apply lock_reply_from.
    + intros x a' _ Hs. apply lock_reply_from. intros _. by apply safe_more.
  - step try_expire_from; [auto|]. intros _ a1 Ht. step engine_get_from; [auto|]. apply from_done.
    by eapply safe_tried.
Qed.

Lemma cmd_auth_from N a : from N a cmd_auth (fun _ a' => safe nothing a a').
Proof.
  unfold cmd_auth. do 3 (case_decide; [apply from_done, safe_refl|]). apply from_bind; [|flow].
  intros w <- Hg _. split; [destruct (has_conn rq); [by destruct Hg|done]|].
  destruct (has_conn rq); apply from_done, safe_refl.
Qed.

Ltac split_control Hm :=
  unfold control in Hm;
  repeat match type of Hm with
  | (if ?b then _ else _) = _ => destruct b eqn:?
  end;
  match type of Hm with
  | None = _ => discriminate Hm
  | Some _ = Some ?x => apply (inj Some) in Hm; subst x
  end.

Lemma control_from N cmd m a : args_ok -> control cmd = Some m -> from N a m (fun _ a' => safe (writes cmd) a a').
Proof.
  intros Hargs Hm. destruct (cmd_docs_from N a) as (D1 & D2 & D3).
  destruct (cmd_locks_from N a Hargs) as (L1 & L2 & L3 & L4).
  assert (forall m' : M outcome, from N a m' (fun _ a' => safe nothing a a') ->
    from N a m' (fun _ a' => safe (writes cmd) a a')) as Hmore.
  { intros m' H. eapply from_mono; [exact H|]. intros ? a' Hs. by apply safe_more. }
  assert (forall m' : M outcome, lock_name cmd = true ->
    from N a m' (fun _ a' => safe (only KVS_ENGINE_ARRAY (arg rq 1)) a a') ->
    from N a m' (fun _ a' => safe (writes cmd) a a')) as Hlock.
  { intros m' Hl H. eapply from_mono; [exact H|]. intros ? a' Hs. eapply safe_mono; [exact Hs|]. by apply lock_writes. }
  split_control Hm; repeat match goal with H : _ && _ = true |- _ => apply andb_prop in H as [H _] end;
    try (apply Hlock; [|assumption];
      match goal with H : is_cmd _ _ = true |- _ => apply is_cmd_eq in H; by subst end).
  all: apply Hmore; try assumption; try (apply from_done, safe_refl).
  - apply cmd_auth_from.
  - case_match; apply from_done, safe_refl.
  - apply from_ret, safe_refl.
  - apply from_bind; [|flow]. apply from_get. intros d. apply from_done, safe_refl.
  - apply from_bind; [|flow]. apply from_get. intros d. apply from_done, safe_refl.
  - apply from_bind; [|flow]. apply from_get. intros d. apply from_done, safe_refl.
  - apply from_bind; [|flow]. apply from_get. intros d. cbv zeta.
    destruct (decide (_ <= 0)); apply from_done, safe_refl.
Qed.

(** Whatever the command, only the keys it may write change, apart from keys
    whose time has passed. *)
Lemma handle_from N a : args_ok ->
  from N a handle_parsed_command (fun _ a' => safe (writes (kvs_ascii_upper (blob rq 0))) a a').
Proof.
  intros Hargs w <- Hg. unfold handle_parsed_command.
  assert (from N (abs w) fast_bulk (fun _ a' => safe (writes (kvs_ascii_upper (blob rq 0))) (abs w) a')) as Hfb.
  { unfold fast_bulk. apply from_bind; [|flow]. apply from_tick. intros e. case_decide; [apply from_ret, safe_refl|].
    apply from_bind; [|flow]. apply from_queue_bytes, from_ret, safe_refl. }
  assert (forall d, from N (abs w) (queue_bytes d;; mret (Done 0))
    (fun _ a' => safe (writes (kvs_ascii_upper (blob rq 0))) (abs w) a')) as Hqb.
  { intros d. apply from_bind; [|flow]. apply from_queue_bytes, from_ret, safe_refl. }
  assert (from N (abs w) (engine_dispatch (kvs_ascii_upper (blob rq 0)))
    (fun _ a' => safe (writes (kvs_ascii_upper (blob rq 0))) (abs w) a')) as Hed.
  { eapply from_mono; [by apply engine_dispatch_from|]. intros ? a' Hs. eapply safe_mono; [exact Hs|].
    intros e k H. by left. }
  destruct (auth_gate w); [by apply Hqb|]. destruct fast_echo; [by apply Hfb|].
  destruct fast_ping; [case_decide; [by apply Hfb|by apply Hqb]|].
  case_decide; [intros _; split; [done|apply safe_refl]|].
  cbv zeta. destruct (readonly_gate _).
  { apply (from_done N (error "read only slave") (abs w) (fun _ a' => safe _ (abs w) a')); [apply safe_refl|done..]. }
  destruct (hash_fast _); [by apply Hed|].
  destruct (control _) as [m|] eqn:Em; [|by apply Hed]. by eapply control_from.
Qed.


(** ** Calls are only added *)

Lemma engine_dispatch_mono cmd : mono (engine_dispatch cmd).
Proof.
  unfold engine_dispatch. apply mono_bind.
  - unfold engine_branch, cmd_get. flow.
  - intros [o|rc b]; unfold committed; flow.
Qed.

Lemma mono_done r : mono (done r).
Proof. flow. Qed.
Lemma mono_logged ok : mono (logged ok).
Proof. flow. Qed.
#[local] Hint Resolve mono_done mono_logged : flow.
#[local] Hint Unfold cmd_lock cmd_unlock cmd_renew cmd_owner cmd_docset cmd_docget cmd_docdel cmd_docdrop
  cmd_docexist cmd_doccount cmd_docgetall cmd_auth : flow_defs.

Lemma mono_authed : mono (fun w => (tt, if has_conn rq then w <| authed := true |> else w)).
Proof. intros w. by destruct (has_conn rq). Qed.
#[local] Hint Resolve mono_authed : flow.

Lemma control_mono cmd m : control cmd = Some m -> mono m.
Proof. intros Hm. split_control Hm; clear; flow. Qed.

Lemma handle_mono : mono handle_parsed_command.
Proof.
  intros w. unfold handle_parsed_command.
  assert (mono fast_bulk) as Hb by (unfold fast_bulk; flow).
  assert (forall d, mono (queue_bytes d;; mret (Done 0))) as Hq by (intros; flow).
  assert (forall r, mono (done r)) as Hd by (intros; flow).
  repeat match goal with |- context [if ?b then _ else _] => destruct b end; try apply Hb; try apply Hq; try apply Hd;
    try apply engine_dispatch_mono; [done|].
  destruct (control _) as [m|] eqn:Em; [by eapply control_mono|apply engine_dispatch_mono].
Qed.

(** ** Past the gates *)

Lemma lor_32 x : Z.lor x 32 = x \/ Z.lor x 32 = x + 32.
Proof.
  pose proof (Z.add_lor_land x 32) as H.
  assert (Z.land x 32 = if Z.testbit x 5 then 32 else 0) as Hl.
  { apply Z.bits_inj'. intros n Hn. rewrite Z.land_spec. change 32 with (2 ^ 5). rewrite Z.pow2_bits_eqb by lia.
    destruct (Z.eqb_spec 5 n) as [<-|Hne].
    - destruct (Z.testbit x 5); [by rewrite Z.pow2_bits_true by lia|by rewrite Z.bits_0].
    - rewrite andb_false_r. destruct (Z.testbit x 5); [rewrite Z.pow2_bits_false by lia|rewrite Z.bits_0]; done. }
  destruct (Z.testbit x 5); lia.
Qed.

(** The case-blind comparison of the fast paths agrees with upper-casing. *)
Lemma word4_name b w : Forall (fun c => 97 <= c <= 122) (str w) -> is_word4 b w = true ->
  kvs_ascii_upper b = map (fun c => c - 32) (str w).
Proof.
  unfold is_word4, kvs_ascii_upper. intros Hw Hb. apply bool_decide_eq_true in Hb. revert b Hb.
  induction Hw as [|c cs Hc _ IH]; intros [|x b] Hb; cbn in *; try done. injection Hb as Hx Hb.
  pose proof (lor_32 x). rewrite decide_False by lia. cbn. rewrite (IH b Hb). f_equal. unfold upper1.
  case_decide; lia.
Qed.

(** The branch of a command by its name. *)
Definition branch_of (cmd : bytes) : M outcome :=
  if hash_fast cmd then engine_dispatch cmd
  else match control cmd with Some m => m | None => engine_dispatch cmd end.

Definition plain_name (cmd : bytes) : Prop := cmd <> [] /\ cmd <> str "ECHO" /\ cmd <> str "PING".

(** A named command meets the two gates, then goes to its branch. *)
Lemma handle_named w cmd : kvs_ascii_upper (blob rq 0) = cmd -> plain_name cmd ->
  handle_parsed_command w =
    if auth_gate w then (queue_bytes noauth;; mret (Done 0)) w
    else if readonly_gate cmd then done (error "read only slave") w else branch_of cmd w.
Proof.
  intros Hc (Hne & H1 & H2). unfold handle_parsed_command, branch_of.
  assert (is_word4 (blob rq 0) "echo" = false) as He.
  { apply not_true_is_false. intros H. apply word4_name in H; [|cbn; repeat first [apply Forall_nil_2|apply Forall_cons_2; [lia|]]]. by rewrite Hc in H. }
  assert (is_word4 (blob rq 0) "ping" = false) as Hp.
  { apply not_true_is_false. intros H. apply word4_name in H; [|cbn; repeat first [apply Forall_nil_2|apply Forall_cons_2; [lia|]]]. by rewrite Hc in H. }
  unfold fast_echo, fast_ping. rewrite He, Hp, !andb_false_r. cbn [andb].
  destruct (auth_gate w); [done|]. destruct (decide (argc rq = 0)%nat) as [H0|_].
  { unfold argc in H0. apply nil_length_inv in H0. exfalso. apply Hne. rewrite <- Hc. unfold blob. by rewrite H0. }
  cbv zeta. rewrite Hc. destruct (readonly_gate cmd); [done|]. destruct (hash_fast cmd); [done|].
  by destruct (control cmd).
Qed.

Lemma handle_named_from N a cmd (Q : outcome -> astate -> Prop) : kvs_ascii_upper (blob rq 0) = cmd -> plain_name cmd ->
  (forall o, Q o a) -> from N a (branch_of cmd) Q -> from N a handle_parsed_command Q.
Proof.
  intros Hc Hp Ho HQ w Hw Hg. rewrite (handle_named w cmd Hc Hp). destruct (auth_gate w).
  { refine (from_bind N a _ _ Q _ _ w Hw Hg); [|flow]. by apply from_queue_bytes, from_ret. }
  destruct (readonly_gate cmd); [|by apply HQ]. by apply (from_done N _ a Q).
Qed.

(** ** What reaches the connection *)

(** The queue after a reply. *)
Definition replied (r : Z * bytes) (q : bytes) : bytes :=
  if decide (has_conn rq = true /\ 0 <= r.1) then (Outring.put OUT_RING_SIZE (printed r) q).2 else q.

Lemma done_world r w : done r w = (Done 0, w <| out := replied r (out w) |>).
Proof using rq.
  unfold done, queue, replied, queue_bytes, mbind, M_bind, mret, M_ret. destruct w.
  destruct (decide (r.1 < 0)).
  - rewrite decide_False by lia. done.
  - destruct (has_conn rq); [rewrite decide_True by (split; [done|lia])|rewrite decide_False by (intros [? _]; discriminate)]; done.
Qed.

Lemma abs_out w q : abs (w <| out := q |>) = abs w.
Proof. done. Qed.

Lemma lock_quiet eng k t ms : quiet (lock_acquire eng k t ms) /\ quiet (lock_release eng k t) /\ quiet (lock_renew eng k t ms).
Proof. split_and!; flow. Qed.
Lemma get_value_quiet eng : quiet (get_value eng).
Proof. flow. Qed.
Lemma set_value_quiet eng i : quiet (set_value eng i).
Proof. flow. Qed.

(** A step before a continuation: what [from] and [quiet] say about the state in
    between. *)
Lemma from_quiet {A B} N (m : M A) (f : A -> M B) w (Q : A -> astate -> Prop) :
  from N (abs w) m Q -> quiet m -> (forall x, mono (f x)) -> good N w -> (ticks ((m ≫= f) w).2 <= N)%nat ->
  exists x w1, (m ≫= f) w = f x w1 /\ good N w1 /\ Q x (abs w1) /\ out w1 = out w /\ authed w1 = authed w /\ log w1 = log w.
Proof.
  intros Hm Hq Hf Hg Hn. unfold mbind, M_bind in *. specialize (Hm w eq_refl Hg). destruct (Hq w) as (H1 & H2 & H3).
  destruct (m w) as [x w1]. cbn [fst snd] in *. specialize (Hf x w1). destruct Hm as [? ?]; [lia|].
  exists x, w1. by split_and!.
Qed.

Lemma lock_reply_world rc msg w : rc <> 0 ->
  lock_reply rc msg w = (Done 0, w <| out := replied (if decide (rc = 1) then integer 0 else error msg) (out w) |>).
Proof. intros H. unfold lock_reply. rewrite decide_False by done. case_decide; apply done_world. Qed.

(** LOCK: granted, or refused with the tables as before; always refused while
    another token holds the lock. *)
Lemma cmd_lock_outcome N w : args_ok -> good N w -> (ticks (cmd_lock w).2 <= N)%nat ->
  let w' := (cmd_lock w).2 in
  ((exists i, holds KVS_ENGINE_ARRAY (arg rq 1) (arg rq 2) (i64 (now (E i) + atoll (arg rq 3))) (abs w')) /\
   ~ (unexpired KVS_ENGINE_ARRAY (arg rq 1) (abs w) /\ is_Some (sel KVS_ENGINE_ARRAY (abs w) !! arg rq 1))) \/
  ((out w' = replied (integer 0) (out w) \/ out w' = replied (error "lock failed") (out w)) /\
   (unexpired KVS_ENGINE_ARRAY (arg rq 1) (abs w) -> is_Some (sel KVS_ENGINE_ARRAY (abs w) !! arg rq 1) ->
    0 < atoll (arg rq 3) -> out w' = replied (integer 0) (out w) /\ abs w' = abs w)).
Proof.
  intros Ha Hg Hn w'. subst w'. unfold cmd_lock in *.
  destruct (from_quiet N (lock_acquire KVS_ENGINE_ARRAY (arg rq 1) (arg rq 2) (atoll (arg rq 3)))
    (fun rc => lock_reply rc "lock failed") w (fun x a' =>
      (x = 0 /\ (exists i, holds KVS_ENGINE_ARRAY (arg rq 1) (arg rq 2) (i64 (now (E i) + atoll (arg rq 3))) a') /\
       ~ (unexpired KVS_ENGINE_ARRAY (arg rq 1) (abs w) /\ is_Some (sel KVS_ENGINE_ARRAY (abs w) !! arg rq 1))) \/
      (x <> 0 /\ (unexpired KVS_ENGINE_ARRAY (arg rq 1) (abs w) -> is_Some (sel KVS_ENGINE_ARRAY (abs w) !! arg rq 1) ->
        a' = abs w /\ (0 < atoll (arg rq 3) -> x = 1))))) as (x & w1 & Ew & Hg1 & HQ & Ho & _); try done.
  - apply lock_acquire_from; [auto..| |]; [intros; left; eauto|]. intros x a' Hx _ _ H. by right.
  - apply lock_quiet.
  - intros x. flow.
  - rewrite Ew in *. destruct HQ as [(-> & (i & Hh) & Hno)|(Hx & Hu)].
    + left. split; [|done]. exists i. refine (proj2 (lock_reply_from N 0 "lock failed" (abs w1) (fun _ a' => holds _ _ _ _ a') _ w1 eq_refl Hg1 Hn)).
      by intros _.
    + right. rewrite lock_reply_world by done. cbn [snd]. rewrite abs_out, <- Ho. cbn [out upd].
      split; [case_decide; auto|]. intros H1 H2 H3. destruct (Hu H1 H2) as [-> Hx1]. by rewrite (Hx1 H3).
Qed.

(** ** A held lock *)

(** A command that cannot take the lock [k] from [tok]: it is no write of the key
    by an engine command, and no UNLOCK or RENEW with the token itself. *)
Definition harmless (k tok : bytes) : Prop :=
  let cmd := kvs_ascii_upper (blob rq 0) in
  ~ branch_writes (cmd_engine cmd) (strip_prefix cmd) KVS_ENGINE_ARRAY k /\
  (one_of cmd ["UNLOCK"; "RENEW"] = true -> arg rq 1 = k -> arg rq 2 <> tok).

Lemma kept_holds W k tok t a a' : holds KVS_ENGINE_ARRAY k tok t a -> unexpired KVS_ENGINE_ARRAY k a ->
  safe W a a' -> ~ W KVS_ENGINE_ARRAY k -> holds KVS_ENGINE_ARRAY k tok t a'.
Proof.
  intros Hh Hu [Hs _] Hw. destruct (Hs _ k known_array) as [|[H|[(i & t' & Ht & Hle) _]]]; [done| |].
  - unfold holds. by rewrite H.
  - specialize (Hu i t' Ht). lia.
Qed.

Lemma lock_branches_hold N tok t a : args_ok ->
  holds KVS_ENGINE_ARRAY (arg rq 1) tok t a -> unexpired KVS_ENGINE_ARRAY (arg rq 1) a ->
  from N a cmd_lock (fun _ a' => holds KVS_ENGINE_ARRAY (arg rq 1) tok t a') /\
  (arg rq 2 <> tok -> from N a cmd_unlock (fun _ a' => holds KVS_ENGINE_ARRAY (arg rq 1) tok t a') /\
                      from N a cmd_renew (fun _ a' => holds KVS_ENGINE_ARRAY (arg rq 1) tok t a')).
Proof.
  intros Ha Hh Hu. assert (sel KVS_ENGINE_ARRAY a !! arg rq 1 = Some tok) as Hs by by injection Hh.
  split; [|intros Hne; split].
  - step lock_acquire_from; [auto..| |].
    + intros i a' _ _ Hno. exfalso. apply Hno. by rewrite Hs.
    + intros x a' _ _ _ H. destruct H as [-> _]; [done|by rewrite Hs|]. by apply lock_reply_from.
  - step lock_release_from; [auto| |].
    + intros a' _ Htk _. rewrite Hs in Htk. by injection Htk.
    + intros x a' _ Hsf. apply lock_reply_from. intros _. apply (kept_holds nothing (arg rq 1) tok t a); [done..|by intros []].
  - step lock_renew_from; [auto| |].
    + intros i a' _ Htk _ _. rewrite Hs in Htk. by injection Htk.
    + intros x a' _ Hsf. apply lock_reply_from. intros _. apply (kept_holds nothing (arg rq 1) tok t a); [done..|by intros []].
Qed.

(** The three lock commands, or too few arguments. *)
Lemma lock_branch cmd : lock_name cmd = true ->
  branch_of cmd = cmd_lock \/ (one_of cmd ["UNLOCK"; "RENEW"] = true /\ (branch_of cmd = cmd_unlock \/ branch_of cmd = cmd_renew)) \/
  branch_of cmd = engine_dispatch cmd.
Proof.
  intros Hl. unfold lock_name, one_of in Hl. cbn in Hl. rewrite orb_false_r in Hl.
  apply orb_prop in Hl as [Hl|Hl]; [|apply orb_prop in Hl as [Hl|Hl]]; apply is_cmd_eq in Hl; subst cmd;
    unfold branch_of, hash_fast; rewrite andb_false_r.
  - replace (control (str "LOCK")) with (if bool_decide (argc rq = 4%nat) then Some cmd_lock else None) by reflexivity.
    case_bool_decide; auto.
  - replace (control (str "UNLOCK")) with (if bool_decide (argc rq = 3%nat) then Some cmd_unlock else None) by reflexivity.
    case_bool_decide; auto.
  - replace (control (str "RENEW")) with (if bool_decide (argc rq = 4%nat) then Some cmd_renew else None) by reflexivity.
    case_bool_decide; auto.
Qed.

Lemma lock_plain cmd : lock_name cmd = true -> plain_name cmd.
Proof.
  intros Hl. unfold lock_name, one_of in Hl. cbn in Hl. rewrite orb_false_r in Hl.
  apply orb_prop in Hl as [Hl|Hl]; [|apply orb_prop in Hl as [Hl|Hl]]; apply is_cmd_eq in Hl; by subst.
Qed.

Lemma handle_holds N k tok t a : args_ok -> harmless k tok ->
  holds KVS_ENGINE_ARRAY k tok t a -> unexpired KVS_ENGINE_ARRAY k a ->
  from N a handle_parsed_command (fun _ a' => holds KVS_ENGINE_ARRAY k tok t a').
Proof.
  intros Ha [Hb Ht] Hh Hu. set (cmd := kvs_ascii_upper (blob rq 0)) in *.
  destruct (decide (lock_name cmd = true /\ arg rq 1 = k)) as [[Hl <-]|Hn].
  - apply (handle_named_from N a cmd); [done|by apply lock_plain|done|].
    destruct (lock_branches_hold N tok t a Ha Hh Hu) as [H1 H2].
    destruct (lock_branch cmd Hl) as [->|[[Ho H]| ->]]; [done| |].
    + destruct (H2 (Ht Ho eq_refl)). by destruct H as [->| ->].
    + eapply from_mono; [by apply engine_dispatch_from|]. intros ? a' Hs.
      exact (kept_holds _ _ _ _ _ _ Hh Hu Hs Hb).
  - eapply from_mono; [by apply handle_from|]. intros ? a' Hs.
    refine (kept_holds _ _ _ _ _ _ Hh Hu Hs _). intros [?|(Hl & _ & ->)]; [done|]. apply Hn. done.
Qed.

(** ** The log *)

(** The state of the connection and the log after a branch: a branch with a
    result code has not replied yet. *)
Definition branch_frame (w : world) (b : branch) (w' : world) : Prop :=
  authed w' = authed w /\ log w' = log w /\ match b with Rc _ _ => out w' = out w | Reply _ => True end.

Lemma frame_rc (m : M Z) missing w : quiet m ->
  let r := (rc ← m; mret (Rc rc missing)) w in branch_frame w r.1 r.2.
Proof.
  intros Hq. unfold mbind, M_bind, mret, M_ret. destruct (Hq w) as (? & ? & ?). by destruct (m w).
Qed.
Lemma frame_bind {A} (m : M A) (f : A -> M branch) w : quiet m ->
  (forall x w', branch_frame w' (f x w').1 (f x w').2) ->
  branch_frame w ((m ≫= f) w).1 ((m ≫= f) w).2.
Proof.
  intros Hq Hf. unfold mbind, M_bind. destruct (Hq w) as (H1 & H2 & H3). destruct (m w) as [x w'].
  destruct (Hf x w') as (H4 & H5 & H6). cbn [fst snd] in *. split_and!; [congruence|congruence|].
  destruct (f x w').1; [done|congruence].
Qed.
Lemma frame_reply r w : let x := (o ← done r; mret (Reply o)) w in branch_frame w x.1 x.2.
Proof. unfold mbind, M_bind. rewrite done_world. done. Qed.

Lemma engine_branch_frame eng opn w :
  branch_frame w (engine_branch eng opn w).1 (engine_branch eng opn w).2.
Proof.
  unfold engine_branch.
  repeat match goal with |- context [if ?b then _ else _] => lazymatch b with is_cmd opn _ && _ => destruct b | is_cmd opn _ => destruct b end end.
  - apply frame_bind; [flow|]. intros. apply frame_rc. flow.
  - apply frame_bind; [flow|]. intros. apply frame_rc. flow.
  - apply frame_bind; [flow|]. intros. apply frame_rc. flow.
  - apply frame_bind; [flow|]. intros. apply frame_bind; [flow|]. intros. apply frame_bind; [flow|]. done.
  - unfold cmd_get. apply frame_bind; [flow|]. intros [v|] w'; [case_decide|]; try apply frame_reply.
    unfold mbind, M_bind, queue_bytes, mret, M_ret. by destruct (has_conn rq).
  - apply frame_bind; [flow|]. intros. apply frame_reply.
  - done.
  - apply frame_bind; [flow|]. intros. apply frame_bind; [flow|]. intros. apply frame_reply.
  - apply frame_bind; [flow|]. intros. apply frame_bind; [flow|]. intros. apply frame_rc. flow.
  - apply frame_bind; [flow|]. intros. apply frame_bind; [flow|]. intros. apply frame_rc. flow.
  - apply frame_bind; [flow|]. intros. apply frame_bind; [flow|]. intros. apply frame_bind; [flow|]. intros. apply frame_reply.
  - apply frame_bind; [flow|]. intros. apply frame_bind; [flow|]. intros. apply frame_rc. flow.
  - apply frame_reply.
Qed.

(** The log of [committed] for a client of a master: the append-only file answered
    that it is fine with the record (it also says so when it is switched off or its
    policy is not "always"), or it refused it. *)
Definition refuse_log : list event := [NoteWrite; Append (raw rq) KVS_PERSIST_ERR].
Definition commit_log : list event :=
  [NoteWrite; Append (raw rq) KVS_PERSIST_OK; LastWrite; CommitWrite; Feed (raw rq);
   NoteBroadcast (length (raw rq)); Broadcast (raw rq)].

Lemma settle_quiet opn eng : quiet (settle opn eng).
Proof. unfold settle. flow. Qed.

(** What [persist_append_prepare] can return. *)
Definition aof_answers : Prop := forall i, aof (E i) = KVS_PERSIST_OK \/ aof (E i) = KVS_PERSIST_ERR.

Lemma committed_world cmd opn eng w : from_replication rq = false -> is_master g = true -> is_write_cmd cmd = true ->
  aof_answers ->
  log (committed cmd opn eng w).2 = log w ++ commit_log /\ out (committed cmd opn eng w).2 = replied ok_reply (out w) \/
  (exists i, aof (E i) = KVS_PERSIST_ERR) /\ log (committed cmd opn eng w).2 = log w ++ refuse_log /\
  out (committed cmd opn eng w).2 = replied (error "AOF write failed") (out w).
Proof.
  intros Hf Hm Hw Ha. unfold committed, applied, proxied, publish, persist_append_prepare. rewrite Hf, Hm, Hw. cbn [negb andb].
  pose proof (settle_quiet opn eng w) as (Ho & _ & Hl).
  unfold mbind, M_bind, mret, M_ret, emit, tick in *. destruct (settle opn eng w) as [[] w1]. cbn [fst snd] in *.
  match goal with |- context [aof (E ?i)] => destruct (Ha i) as [Hi|Hi] end.
  - left. rewrite !Hi. rewrite decide_False by done. cbn [snd]. rewrite decide_False by done.
    rewrite done_world. cbn [snd log out upd]. rewrite <- Ho, <- Hl. split; [|done]. by rewrite <- !app_assoc.
  - right. split; [by eexists|]. rewrite !Hi. rewrite decide_True by done.
    rewrite done_world. cbn [snd log out upd]. rewrite <- Ho, <- Hl. split; [|done]. by rewrite <- !app_assoc.
Qed.

(** An engine command of a client of a master: a reply without a trace, a failure
    without a trace, a success that is logged once, or a change that stays although
    the append-only file refused it. *)
Inductive dispatched (cmd : bytes) (w w' : world) : Prop :=
  | d_reply : log w' = log w -> idle (abs w) (abs w') -> write_op (strip_prefix cmd) = false \/
      out w' = replied (error "wrong number of arguments") (out w) -> dispatched cmd w w'
  | d_failed rc m : rc <> 0 -> log w' = log w -> out w' = replied (error m) (out w) ->
      (m = "operation failed" \/ m = "not found or exists")%string ->
      branch_ok (cmd_engine cmd) (strip_prefix cmd) rc (abs w) (abs w') -> dispatched cmd w w'
  | d_logged a1 : log w' = log w ++ commit_log -> out w' = replied ok_reply (out w) ->
      branch_ok (cmd_engine cmd) (strip_prefix cmd) 0 (abs w) a1 ->
      abs w' = settled (cmd_engine cmd) (strip_prefix cmd) a1 -> dispatched cmd w w'
  | d_refused a1 : (exists i, aof (E i) = KVS_PERSIST_ERR) -> log w' = log w ++ refuse_log ->
      out w' = replied (error "AOF write failed") (out w) ->
      branch_ok (cmd_engine cmd) (strip_prefix cmd) 0 (abs w) a1 ->
      abs w' = settled (cmd_engine cmd) (strip_prefix cmd) a1 -> dispatched cmd w w'.

Lemma one_of_in c l : one_of c l = true -> exists n, In n l /\ c = str n.
Proof.
  intros H. unfold one_of in H. apply existsb_exists in H as (n & Hn & Hc). apply is_cmd_eq in Hc. eauto.
Qed.

Lemma strip_cases cmd : strip_prefix cmd = cmd \/ exists c, cmd = c :: strip_prefix cmd /\ (c = 82 \/ c = 72 \/ c = 88).
Proof. unfold strip_prefix. repeat case_match; subst; eauto 8. Qed.

Lemma engine_write_cmd cmd : write_op (strip_prefix cmd) = true -> is_write_cmd cmd = true.
Proof.
  intros H. apply one_of_in in H as (n & Hn & Hc). destruct (strip_cases cmd) as [Hs|(c & Hs & Hc')].
  - rewrite <- Hs, Hc. cbn in Hn. repeat destruct Hn as [<-|Hn]; done.
  - rewrite Hs, Hc. cbn in Hn. destruct Hc' as [->|[->| ->]]; repeat destruct Hn as [<-|Hn]; done.
Qed.

(** A write command returns a code, or has the wrong number of arguments. *)
Lemma rc_bind {A} (m : M A) (f : A -> M branch) :
  (forall x w, exists rc b, (f x w).1 = Rc rc b) -> forall w, exists rc b, ((m ≫= f) w).1 = Rc rc b.
Proof. intros H w. unfold mbind, M_bind. destruct (m w) as [x w']. apply H. Qed.

Lemma write_branch eng opn : write_op opn = true ->
  (forall w, exists rc b, (engine_branch eng opn w).1 = Rc rc b) \/
  engine_branch eng opn = (o ← done (error "wrong number of arguments"); mret (Reply o)).
Proof.
  intros H. apply one_of_in in H as (n & Hn & ->). unfold engine_branch, expected_argc. cbn in Hn.
  repeat destruct Hn as [<-|Hn]; try done;
    repeat match goal with |- context [is_cmd (str ?a) ?b] =>
      let v := eval vm_compute in (is_cmd (str a) b) in change (is_cmd (str a) b) with v end;
    repeat match goal with |- context [one_of (str ?a) ?b] =>
      let v := eval vm_compute in (one_of (str a) b) in change (one_of (str a) b) with v end;
    cbn [andb]; try case_bool_decide;
    try (right; rewrite decide_True by lia; done);
    left; repeat (apply rc_bind; intros ?); intros w; by eexists _, _.
Qed.

Lemma engine_dispatch_world N cmd w : args_ok -> good N w -> (ticks (engine_dispatch cmd w).2 <= N)%nat ->
  from_replication rq = false -> is_master g = true -> aof_answers ->
  dispatched cmd w (engine_dispatch cmd w).2.
Proof.
  intros Hargs Hg Hn Hf Hm Ha. unfold engine_dispatch in *. set (eng := cmd_engine cmd) in *. set (opn := strip_prefix cmd) in *.
  pose proof (engine_branch_from N eng opn (abs w) (cmd_engine_known cmd) Hargs w eq_refl Hg) as Hb.
  pose proof (engine_branch_frame eng opn w) as (_ & Hl & Ho). pose proof (write_branch eng opn) as Hwb.
  unfold mbind, M_bind in Hn |- *. destruct (engine_branch eng opn w) as [b w1] eqn:Eb. cbn [fst snd] in *.
  assert (ticks w1 <= N)%nat as Hn1.
  { etrans; [|exact Hn]. clear. destruct b as [o|rc m]; [done|].
    match goal with |- (_ <= ticks (?m w1).2)%nat => assert (mono m) as Hmo end; [|apply Hmo]. unfold committed. flow. }
  destruct (Hb Hn1) as [Hg1 Hpost]. clear Hb. destruct b as [o|rc m].
  - apply d_reply; [done|done|]. destruct (write_op opn) eqn:Hw; [right|by left].
    destruct (Hwb eq_refl) as [Hrc|Hrep].
    + destruct (Hrc w) as (rc & b & Hx). by rewrite Eb in Hx.
    + rewrite Hrep in Eb. unfold mbind, M_bind in Eb. rewrite done_world in Eb. by injection Eb as <- <-.
  - cbn [branch_post] in Hpost. destruct (decide (rc = 0)) as [->|Hrc].
    + assert (abs (committed cmd opn eng w1).2 = settled eng opn (abs w1)) as Habs.
      { refine (proj2 (committed_from N cmd opn eng (abs w1) (fun _ a' => a' = _) _ w1 eq_refl Hg1 Hn)). done. }
      destruct (committed_world cmd opn eng w1 Hf Hm) as [[Hlog Hout]|(Hi & Hlog & Hout)].
      * apply engine_write_cmd. apply Hpost.
      * done.
      * apply (d_logged _ _ _ (abs w1)); [by rewrite <- Hl|by rewrite <- Ho|done|done].
      * apply (d_refused _ _ _ (abs w1)); [done|by rewrite <- Hl|by rewrite <- Ho|done|done].
    + assert (is_cmd opn "SET" = true -> rc <> 1) as Hset.
      { intros Hc ->. apply is_cmd_eq in Hc. pose proof (bo_rc _ _ _ _ _ Hpost Hc). lia. }
      destruct (decide (rc = 1 /\ m = true)) as [[-> ->]|].
      * destruct (is_cmd opn "SET"); [by destruct Hset|]. rewrite done_world. cbn [snd].
        eapply d_failed; [done|done|cbn [out upd]; rewrite <- Ho; done|by right|done].
      * rewrite done_world. cbn [snd]. eapply d_failed; [done|done|cbn [out upd]; rewrite <- Ho; done|by left|done].
Qed.

(** ** GET *)

(** The three pieces of a bulk reply, each queued if it fits. *)
Definition bulk_header (v : bytes) : bytes := 36 :: dec (Z.of_nat (length v)) ++ crlf.
Definition queued_bulk (v q : bytes) : bytes :=
  let put := fun d q => (Outring.put OUT_RING_SIZE d q).2 in put crlf (put v (put (bulk_header v) q)).

Lemma bind_assoc {A B C} (m : M A) (f : A -> M B) (h : B -> M C) w :
  ((m ≫= f) ≫= h) w = (m ≫= (fun x => f x ≫= h)) w.
Proof. unfold mbind, M_bind. by destruct (m w). Qed.

Lemma get_world N cmd w v : strip_prefix cmd = str "GET" -> argc rq = 2%nat -> has_conn rq = true -> args_ok ->
  good N w -> (ticks (engine_dispatch cmd w).2 <= N)%nat ->
  at_key (cmd_engine cmd) (arg rq 1) (abs w) = (Some v, None) -> (length v + 16 <= OUT_RING_SIZE)%nat ->
  out (engine_dispatch cmd w).2 = queued_bulk v (out w).
Proof.
  intros Hs Hc Hconn Hargs Hg Hn Hat Hlen. unfold engine_dispatch in *. rewrite Hs in *.
  set (eng := cmd_engine cmd) in *. cbv zeta in *.
  replace (engine_branch eng (str "GET")) with (cmd_get eng) in * by
    (unfold engine_branch; rewrite Hc; reflexivity).
  unfold cmd_get in *. rewrite bind_assoc in *.
  match goal with |- context [(get_value eng ≫= ?h) w] => set (f := h) in * end.
  destruct (from_quiet N (get_value eng) f w (fun x a' => x = Some v)) as (x & w1 & Ew & _ & -> & Ho & _); try done.
  - apply get_value_from; [apply cmd_engine_known|done|]. intros a1 Ht.
    assert (a1 = abs w) as ->.
    { apply (tried_unexpired eng (arg rq 1)); [|done]. intros i t H. injection Hat. congruence. }
    injection Hat as Hsel _. rewrite Hsel. cbn. unfold text. by case_decide.
  - flow.
  - intros [u|]; unfold f, committed; flow.
  - rewrite Ew, <- Ho. unfold f, queued_bulk, mbind, M_bind, queue_bytes, mret, M_ret. rewrite decide_True by done.
    by rewrite Hconn.
Qed.

(** ** Replaying *)

Lemma plain_stored_all eng kvs a : plain a -> plain (stored_all eng kvs a).
Proof.
  revert kvs a. fix IH 1. intros [|k [|v r]] a Hp; [done..|]. cbn. apply IH. by apply plain_stored.
Qed.
Lemma plain_effect eng opn a : plain a -> plain (effect eng opn a).
Proof.
  intros Hp. unfold effect. repeat case_match; auto using plain_stored, plain_stored_all.
  unfold plain, removed. by rewrite ttl_put.
Qed.
Lemma plain_settled eng opn a : plain a -> settled eng opn a = a.
Proof. intros Hp. unfold settled. case_match; [by apply plain_without|done]. Qed.

(** A replica that applies a command with an effect has that effect. *)
Lemma replica_world N cmd w : args_ok -> good N w -> (ticks (engine_dispatch cmd w).2 <= N)%nat ->
  timeless (strip_prefix cmd) = true -> plain (abs w) -> log (engine_dispatch cmd w).2 <> log w ->
  good N (engine_dispatch cmd w).2 /\
  abs (engine_dispatch cmd w).2 = effect (cmd_engine cmd) (strip_prefix cmd) (abs w).
Proof.
  intros Hargs Hg Hn Ht Hp Hlog. split; [by apply (engine_dispatch_from N cmd (abs w) Hargs w)|].
  unfold engine_dispatch in *. set (eng := cmd_engine cmd) in *. set (opn := strip_prefix cmd) in *.
  pose proof (engine_branch_from N eng opn (abs w) (cmd_engine_known cmd) Hargs w eq_refl Hg) as Hb.
  pose proof (engine_branch_frame eng opn w) as (_ & Hl & _).
  unfold mbind, M_bind in Hn, Hlog |- *. destruct (engine_branch eng opn w) as [b w1] eqn:Eb. cbn [fst snd] in *.
  destruct b as [o|rc m]; [done|]. destruct (decide (rc = 0)) as [->|Hrc].
  - assert (ticks w1 <= N)%nat as Hn1.
    { etrans; [|exact Hn]. assert (mono (committed cmd opn eng)) as Hmo by (unfold committed; flow). apply Hmo. }
    destruct (Hb Hn1) as [Hg1 Hpost]. cbn [branch_post] in Hpost.
    refine (proj2 (committed_from N cmd opn eng (abs w1) (fun _ a' => a' = _) _ w1 eq_refl Hg1 Hn)). intros _.
    rewrite (bo_plain _ _ _ _ _ Hpost eq_refl Ht Hp). apply plain_settled. by apply plain_effect.
  - case_decide; rewrite done_world in Hlog; done.
Qed.

End Handlers.

End Dispatch.
