(* ===== verification/Commands.v ===== *)
(** * Commands: what clients can rely on

    Sequences of commands from any clients, executed one after the other by
    [handle_parsed_command] ([Dispatch]) on the shared tables.  The theorems
    state what a client sees: locks exclude each other, an acknowledged SET is
    what a later GET returns, acknowledged writes and only those are logged and
    replicated, replicas that replay the log end with the same tables, the gates
    for passwords and for read-only replicas hold, and every reply is a RESP
    value. *)

From S2P Require Import Prelude Cstring Engine Expire Doc Resp Outring Dump Dispatch.

Module Commands.

Import Dispatch.
Import Dump (KVS_ENGINE_ARRAY, KVS_ENGINE_RBTREE, KVS_ENGINE_HASH, KVS_ENGINE_SKIPTABLE).

(** One command: the configuration it meets, the request, and the state of its
    connection (bytes waiting to be sent, authenticated or not). *)
Record call := Call {
  c_cfg : cfg;
  c_rq : request;
  c_out : bytes;
  c_authed : bool;
}.
Definition name_of (rq : request) : bytes := kvs_ascii_upper (blob rq 0).

Section Runs.

Context {SA EA SR ER SH EH SX EX : Type}.
Context `{!Engine SA EA} `{!Capacity SA EA} `{!Engine SR ER} `{!Capacity SR ER}.
Context `{!Engine SH EH} `{!Capacity SH EH} `{!Blob SH EH} `{!Engine SX EX} `{!Capacity SX EX}.
Context (E : nat -> @env EA ER EH EX).

Abbreviation W := (@world SA SR SH SX).

#[local] Opaque handle_parsed_command.

(** A command on its connection, and a sequence of commands. *)
Definition enter (x : call) (w : W) : W := w <| out := c_out x |> <| authed := c_authed x |>.
Definition serve (x : call) (w : W) : outcome * W := handle_parsed_command E (c_cfg x) (c_rq x) (enter x w).
Definition run (xs : list call) (w : W) : W := fold_left (fun w x => (serve x w).2) xs w.

Lemma enter_good N x w : good N w -> good N (enter x w).
Proof. intros []. by split. Qed.
Lemma enter_abs x w : abs (enter x w) = abs w.
Proof. done. Qed.

Definition served_ok (x : call) : Prop := args_ok (c_rq x).
(** The keys a call may write. *)
Definition may_write (x : call) : Z -> bytes -> Prop := writes (c_rq x) (name_of (c_rq x)).

Lemma serve_ticks x w : (ticks w <= ticks (serve x w).2)%nat.
Proof. unfold serve. exact (handle_mono E (c_cfg x) (c_rq x) (enter x w)). Qed.
Lemma run_ticks xs w : (ticks w <= ticks (run xs w))%nat.
Proof.
  revert w. induction xs as [|x xs IH]; intros w; [done|]. cbn. pose proof (serve_ticks x w).
  specialize (IH (serve x w).2). unfold run in IH. lia.
Qed.

Lemma serve_safe N x w : good N w -> served_ok x -> (ticks (serve x w).2 <= N)%nat ->
  good N (serve x w).2 /\ safe E (may_write x) (abs w) (abs (serve x w).2).
Proof.
  intros Hg Hx Hn. unfold serve in *.
  exact (handle_from E (c_cfg x) (c_rq x) N (abs w) Hx (enter x w) (enter_abs x w) (enter_good N x w Hg) Hn).
Qed.

(** Induction over a run: a property of the contents that every served call keeps. *)
Lemma run_keeps N (P : astate -> Prop) (ok : call -> Prop) :
  (forall x w, ok x -> good N w -> P (abs w) -> (ticks (serve x w).2 <= N)%nat ->
     good N (serve x w).2 /\ P (abs (serve x w).2)) ->
  forall xs w, good N w -> P (abs w) -> Forall ok xs -> (ticks (run xs w) <= N)%nat ->
    good N (run xs w) /\ P (abs (run xs w)).
Proof.
  intros Hstep. induction xs as [|x xs IH]; intros w Hg HP Hok Hn; [done|].
  inversion Hok; subst. cbn in Hn |- *. pose proof (run_ticks xs (serve x w).2) as Ht. unfold run in Ht.
  destruct (Hstep x w) as [Hg' HP']; [done..|lia|]. by apply IH.
Qed.

(** Keys that no call may write are kept. *)
Lemma run_kept N xs w eng k : known eng -> good N w -> Forall served_ok xs -> (ticks (run xs w) <= N)%nat ->
  Forall (fun x => ~ may_write x eng k) xs ->
  good N (run xs w) /\ kept E eng k (abs w) (abs (run xs w)).
Proof.
  intros Hk Hg Hok Hn Hw.
  apply (run_keeps N (kept E eng k (abs w)) (fun x => served_ok x /\ ~ may_write x eng k)); [|done|by left| |done].
  - intros x w1 [Hx Hx'] Hg1 Hk1 Hn1. destruct (serve_safe N x w1 Hg1 Hx Hn1) as [Hg2 [Hs _]].
    split; [done|]. destruct (Hs eng k Hk) as [|Hk2]; [done|]. by eapply key_kept_trans.
  - by apply Forall_and.
Qed.

(** ** Replies *)

(** The queue has room for [n] more bytes. *)
Definition room (n : nat) (q : bytes) : Prop := (length q + n <= OUT_RING_SIZE)%nat.

Lemma put_room data q : data <> [] -> room (length data) q -> (Outring.put OUT_RING_SIZE data q).2 = q ++ data.
Proof.
  intros Hd Hr. unfold Outring.put, room in *. rewrite decide_False; [done|].
  intros [H0|H0]; [by apply nil_length_inv in H0|lia].
Qed.

Lemma printed_fit n b : printed (Z.of_nat n, b) = take n (b ++ [0]).
Proof. unfold printed. cbn. by rewrite Nat2Z.id. Qed.

(** A short text survives [snprintf] into the reply buffer. *)
Lemma printed_snprintf s : (length s < BUFFER_CAP)%nat -> printed (Resp.snprintf_fit BUFFER_CAP s) = s.
Proof.
  intros H. unfold Resp.snprintf_fit. rewrite printed_fit, (take_ge s) by lia. apply take_app_length.
Qed.

Lemma cap_value : Z.of_nat BUFFER_CAP = 65536.
Proof. unfold BUFFER_CAP. lia. Qed.

Lemma printed_error m : Z.of_nat (length (str m)) < 60000 -> printed (error m) = str "-ERR " ++ str m ++ crlf.
Proof.
  intros H. pose proof cap_value. unfold error, Resp.resp_error. apply printed_snprintf.
  rewrite !length_app. change (length (str "-ERR ")) with 5%nat. change (length crlf) with 2%nat. lia.
Qed.
Lemma printed_simple m : Z.of_nat (length (str m)) < 60000 -> printed (simple m) = 43 :: str m ++ crlf.
Proof.
  intros H. pose proof cap_value. unfold simple, Resp.resp_simple_string. apply printed_snprintf.
  cbn [length]. rewrite length_app. change (length crlf) with 2%nat. lia.
Qed.

(** A reply that was appended is the reply. *)
Lemma replied_eq rq r q d : d <> [] -> replied rq r q = q ++ d -> printed r = d.
Proof.
  intros Hd. unfold replied, Outring.put. repeat case_decide; cbn [snd]; intros Hq.
  - apply (f_equal length) in Hq. rewrite length_app in Hq. destruct d; [done|]. cbn in Hq. lia.
  - by apply app_inv_head in Hq.
  - apply (f_equal length) in Hq. rewrite length_app in Hq. destruct d; [done|]. cbn in Hq. lia.
Qed.

Lemma replied_room rq r q : has_conn rq = true -> 0 <= r.1 -> printed r <> [] -> room (length (printed r)) q ->
  replied rq r q = q ++ printed r.
Proof. intros Hc Hr Hp Hm. unfold replied. rewrite decide_True by done. by apply put_room. Qed.

Lemma bind_run {A B} (m : @M SA SR SH SX A) (f : @M SA SR SH SX B) (w : W) : (m;; f) w = f (m w).2.
Proof. unfold mbind, M_bind. by destruct (m w). Qed.
Lemma out_queue rq d (w : W) : has_conn rq = true -> out (queue_bytes rq d w).2 = (Outring.put OUT_RING_SIZE d (out w)).2.
Proof. unfold queue_bytes. by intros ->. Qed.
Lemma no_queue rq d (w : W) : has_conn rq = false -> (queue_bytes rq d w).2 = w.
Proof. unfold queue_bytes. by intros ->. Qed.

(** ** Locks *)

(** LOCK [k] [tok] on a connection. *)
Record lock_call (k tok : bytes) (x : call) : Prop := {
  lc_conn : has_conn (c_rq x) = true;
  lc_name : name_of (c_rq x) = str "LOCK";
  lc_argc : argc (c_rq x) = 4%nat;
  lc_key : arg (c_rq x) 1 = k;
  lc_token : arg (c_rq x) 2 = tok;
}.
(** The password and the read-only gates let a call through. *)
Definition admitted (x : call) : Prop :=
  (forall w : W, authed w = c_authed x -> auth_gate (c_cfg x) (c_rq x) w = false) /\
  readonly_gate (c_cfg x) (c_rq x) (name_of (c_rq x)) = false.

Definition granted : bytes := str ":1" ++ crlf.
Definition refused : bytes := str ":0" ++ crlf.

Lemma lock_control g rq : argc rq = 4%nat -> branch_of E g rq (str "LOCK") = cmd_lock E g rq.
Proof.
  intros Ha. unfold branch_of, hash_fast. rewrite andb_false_r.
  replace (control E g rq (str "LOCK")) with (if bool_decide (argc rq = 4%nat) then Some (cmd_lock E g rq) else None)
    by reflexivity.
  by rewrite bool_decide_eq_true_2.
Qed.

Lemma lock_named : plain_name (str "LOCK").
Proof. by split_and!. Qed.

(** A LOCK that the gates let through runs its branch. *)
Lemma serve_lock k tok x w : lock_call k tok x ->
  serve x w = if auth_gate (c_cfg x) (c_rq x) (enter x w)
              then (queue_bytes (c_rq x) noauth;; mret (Done 0)) (enter x w)
              else if readonly_gate (c_cfg x) (c_rq x) (str "LOCK") then done (c_rq x) (error "read only slave") (enter x w)
              else cmd_lock E (c_cfg x) (c_rq x) (enter x w).
Proof.
  intros []. unfold serve. rewrite (handle_named E (c_cfg x) (c_rq x) (enter x w) (str "LOCK")) by done.
  by rewrite lock_control.
Qed.

(** A granted LOCK holds the key. *)
Lemma granted_holds N k tok x w : good N w -> served_ok x -> (ticks (serve x w).2 <= N)%nat -> lock_call k tok x ->
  out (serve x w).2 = c_out x ++ granted ->
  exists i, holds KVS_ENGINE_ARRAY k tok (i64 (now (E i) + atoll (arg (c_rq x) 3))) (abs (serve x w).2).
Proof.
  intros Hg Hok Hn Hl. rewrite (serve_lock k tok x w Hl) in *. pose proof Hl as [Hc _ _ <- <-].
  destruct (auth_gate _ _ _).
  { rewrite bind_run. cbn [mret M_ret snd]. rewrite out_queue by done. cbn [enter out upd]. intros Ho. exfalso.
    assert (replied (c_rq x) (Z.of_nat (length noauth), noauth) (c_out x) = c_out x ++ granted) as Hr.
    { unfold replied. rewrite decide_True by (split; [done|cbn; lia]). by rewrite printed_fit, take_app_length. }
    apply replied_eq in Hr; [|done]. rewrite printed_fit, take_app_length in Hr. discriminate Hr. }
  destruct (readonly_gate _ _ _).
  { rewrite done_world. cbn [snd]. intros Ho. exfalso. apply replied_eq in Ho; [|done].
    rewrite printed_error in Ho by (cbn; lia). discriminate Ho. }
  destruct (cmd_lock_outcome E (c_cfg x) (c_rq x) N (enter x w)) as [[H _]|[H _]]; [done|by apply enter_good|done|done|].
  intros Ho. exfalso. rewrite Ho in H. destruct H as [H|H]; symmetry in H; apply replied_eq in H; try done.
Qed.

(** While the lock is held, harmless commands leave it held. *)
Lemma run_holds N k tok t xs w : good N w -> Forall (fun x => served_ok x /\ harmless (c_rq x) k tok) xs ->
  (ticks (run xs w) <= N)%nat -> holds KVS_ENGINE_ARRAY k tok t (abs w) -> (forall i, now (E i) < t) ->
  good N (run xs w) /\ holds KVS_ENGINE_ARRAY k tok t (abs (run xs w)).
Proof.
  intros Hg Hxs Hn Hh Ht.
  apply (run_keeps N (holds KVS_ENGINE_ARRAY k tok t) (fun x => served_ok x /\ harmless (c_rq x) k tok)); try done.
  intros x w1 [Hx Hx'] Hg1 Hh1 Hn1. unfold serve in *.
  refine (handle_holds E (c_cfg x) (c_rq x) N k tok t (abs w1) Hx Hx' Hh1 _ (enter x w1) (enter_abs x w1)
    (enter_good N x w1 Hg1) Hn1).
  intros i t'. injection Hh1 as _ ->. intros [= <-]. apply Ht.
Qed.

(** A LOCK on a held key is refused. *)
Lemma held_refuses N k tok tok' t y w : good N w -> served_ok y -> (ticks (serve y w).2 <= N)%nat ->
  lock_call k tok' y -> admitted y -> 0 < atoll (arg (c_rq y) 3) -> room 4 (c_out y) ->
  holds KVS_ENGINE_ARRAY k tok t (abs w) -> (forall i, now (E i) < t) ->
  out (serve y w).2 = c_out y ++ refused /\ abs (serve y w).2 = abs w.
Proof.
  intros Hg Hok Hn Hl [Ha Hr] Hms Hroom Hh Ht. pose proof Hl as [Hc Hnm _ <- _].
  rewrite (serve_lock _ tok' y w Hl) in *. rewrite Ha in * by done. rewrite Hnm in Hr. rewrite Hr in *.
  assert (sel KVS_ENGINE_ARRAY (abs w) !! arg (c_rq y) 1 = Some tok /\ ttl KVS_ENGINE_ARRAY (arg (c_rq y) 1) (abs w) = Some t)
    as [Hs Htt] by (injection Hh; auto).
  assert (printed (integer 0) = refused) as Hp by (vm_compute; reflexivity).
  assert (replied (c_rq y) (integer 0) (c_out y) = c_out y ++ refused) as Hrep.
  { rewrite replied_room, Hp; rewrite ?Hp; done. }
  rewrite <- Hrep.
  destruct (cmd_lock_outcome E (c_cfg y) (c_rq y) N (enter y w)) as [[_ H]|[_ H]]; [done|by apply enter_good|done| |].
  - exfalso. apply H. rewrite enter_abs, Hs. split; [|done]. intros i t'. rewrite Htt. intros [= <-]. apply Ht.
  - apply H; [|rewrite enter_abs, Hs; done|done]. intros i t'. rewrite enter_abs, Htt. intros [= <-]. apply Ht.
Qed.

(** C25: Locks exclude each other.  If LOCK [k] with token [tok] was answered [:1],
    then the lock is held by [tok] until the clock reading plus the number of its
    third argument, in milliseconds.  As long as the clock stays before that time
    and the commands clients send in between are other locks, reads, writes of other
    keys, and UNLOCK or RENEW of [k] with other tokens (no SET, MOD, DEL, SETEX,
    EXPIRE or PERSIST of [k] itself, which the code does not keep from a lock's
    key), the lock is still held by [tok] and a LOCK [k] with a positive time of
    another client is answered [:0] and changes nothing. *)
Theorem lock_mutual_exclusion N w x xs y k tok tok' :
  good N w -> served_ok x -> served_ok y ->
  Forall (fun z => served_ok z /\ harmless (c_rq z) k tok) xs ->
  lock_call k tok x -> lock_call k tok' y -> admitted y -> 0 < atoll (arg (c_rq y) 3) -> room 4 (c_out y) ->
  let w1 := (serve x w).2 in
  let w2 := run xs w1 in
  let w3 := (serve y w2).2 in
  (ticks w3 <= N)%nat -> out w1 = c_out x ++ granted ->
  exists i, let t := i64 (now (E i) + atoll (arg (c_rq x) 3)) in
    holds KVS_ENGINE_ARRAY k tok t (abs w1) /\
    ((forall j, now (E j) < t) ->
     holds KVS_ENGINE_ARRAY k tok t (abs w2) /\ out w3 = c_out y ++ refused /\ abs w3 = abs w2).
Proof.
  intros Hg Hx Hy Hxs Hlx Hly Hadm Hms Hroom w1 w2 w3 Hn Ho.
  pose proof (serve_ticks y w2). pose proof (run_ticks xs w1). fold w2 in H0. fold w3 in H.
  destruct (granted_holds N k tok x w Hg Hx) as [i Hi]; [fold w1; lia|done|done|]. exists i. split; [done|].
  intros Hj. destruct (serve_safe N x w Hg Hx) as [Hg1 _]; [fold w1; lia|].
  destruct (run_holds N k tok (i64 (now (E i) + atoll (arg (c_rq x) 3))) xs w1 Hg1 Hxs) as [Hg2 Hh2];
    [fold w2; lia|exact Hi|done|].
  split; [exact Hh2|]. exact (held_refuses N k tok tok' _ y w2 Hg2 Hy Hn Hly Hadm Hms Hroom Hh2 Hj).
Qed.

(** ** Reads and writes *)

(** The command of an engine: its prefix and the operation. *)
Definition cmd_name (eng : Z) (o : string) : bytes :=
  (if decide (eng = KVS_ENGINE_RBTREE) then [82] else if decide (eng = KVS_ENGINE_HASH) then [72]
   else if decide (eng = KVS_ENGINE_SKIPTABLE) then [88] else []) ++ str o.
Arguments cmd_name eng o%_string_scope.

(** Engine writes are no control commands. *)
Lemma engine_write_branch g rq cmd : write_op (strip_prefix cmd) = true ->
  plain_name cmd /\ branch_of E g rq cmd = engine_dispatch E g rq cmd.
Proof.
  intros H. apply one_of_in in H as (n & Hn & Hc).
  assert (plain_name cmd /\ control E g rq cmd = None) as [Hp Hctl].
  { destruct (strip_cases cmd) as [Hs|(c & Hs & Hc')]; rewrite Hc in Hs; cbn in Hn.
    - subst cmd. repeat destruct Hn as [<-|Hn]; (split; [by split_and!|reflexivity]) || done.
    - destruct Hc' as [->|[->| ->]]; rewrite Hs; clear Hs Hc;
        repeat destruct Hn as [<-|Hn]; (split; [by split_and!|reflexivity]) || done. }
  split; [done|]. unfold branch_of. rewrite Hctl. by destruct (hash_fast rq cmd).
Qed.

Lemma engine_name eng o : known eng -> In o ["SET"; "GET"]%string ->
  cmd_engine (cmd_name eng o) = eng /\ strip_prefix (cmd_name eng o) = str o /\ plain_name (cmd_name eng o) /\
  forall g rq, branch_of E g rq (cmd_name eng o) = engine_dispatch E g rq (cmd_name eng o).
Proof.
  intros Hk [<-|[<-|[]]]; destruct Hk as [->|[->|[->| ->]]]; (split_and!; [done..|]); intros g rq;
    unfold branch_of; match goal with |- context [control E g rq ?c] =>
      assert (control E g rq c = None) as -> by reflexivity end; by destruct (hash_fast _ _).
Qed.

Record engine_request (eng : Z) (o : string) (n : nat) (k : bytes) (x : call) : Prop := {
  er_conn : has_conn (c_rq x) = true;
  er_name : name_of (c_rq x) = cmd_name eng o;
  er_argc : argc (c_rq x) = n;
  er_key : arg (c_rq x) 1 = k;
}.

Definition ok_text : bytes := str "+OK" ++ crlf.

(** A call that passes the gates and whose branch is the engine dispatcher. *)
Lemma serve_dispatch x w cmd : name_of (c_rq x) = cmd -> plain_name cmd -> admitted x ->
  branch_of E (c_cfg x) (c_rq x) cmd = engine_dispatch E (c_cfg x) (c_rq x) cmd ->
  serve x w = engine_dispatch E (c_cfg x) (c_rq x) cmd (enter x w).
Proof.
  intros Hn Hp [Ha Hr] Hb. unfold serve. rewrite (handle_named E _ _ _ cmd Hn Hp), Ha by done.
  rewrite Hn in Hr. by rewrite Hr, Hb.
Qed.

(** A client of a master, and one whose append-only file answers every record with
    [KVS_PERSIST_OK]. *)
Definition of_master (x : call) : Prop :=
  from_replication (c_rq x) = false /\ is_master (c_cfg x) = true /\ aof_answers E.
Definition logging_master (x : call) : Prop :=
  from_replication (c_rq x) = false /\ is_master (c_cfg x) = true /\ forall i, aof (E i) = KVS_PERSIST_OK.
Lemma logging_of_master x : logging_master x -> of_master x.
Proof. intros (? & ? & H). split_and!; [done..|]. intros i. auto. Qed.


(** An acknowledged SET has stored its value, without an expiry time. *)
Lemma set_stores N eng k x w : known eng -> good N w -> served_ok x -> admitted x -> of_master x ->
  engine_request eng "SET" 3 k x -> (ticks (serve x w).2 <= N)%nat -> out (serve x w).2 = c_out x ++ ok_text ->
  at_key eng k (abs (serve x w).2) = (Some (value_arg (c_rq x) eng 2), None).
Proof.
  intros Hk Hg Hok Hadm (Hf & Hm & Ha) [Hc Hnm Hargc <-] Hn Ho.
  destruct (engine_name eng "SET" Hk) as (He & Hs & Hp & Hb); [by left|].
  rewrite (serve_dispatch x w _ Hnm Hp Hadm (Hb _ _)) in *.
  destruct (engine_dispatch_world E (c_cfg x) (c_rq x) N _ (enter x w) Hok (enter_good N x w Hg) Hn Hf Hm Ha)
    as [_ _ Hr|rc m _ _ Ho' Hmsg _|a1 _ _ Hbo Habs|a1 _ _ Ho' _ _]; rewrite ?He, ?Hs in *.
  - destruct Hr as [Hr|Hr]; [done|]. rewrite Hr in Ho. apply replied_eq in Ho; [|done]. vm_compute in Ho. discriminate Ho.
  - rewrite Ho' in Ho. apply replied_eq in Ho; [|done]. destruct Hmsg; subst m; vm_compute in Ho; discriminate Ho.
  - rewrite Habs. unfold settled. change (one_of (str "SET") ["SET"; "MOD"]%string) with true. cbv iota.
    rewrite at_key_without, decide_True by done. f_equal. by apply (bo_set _ _ _ _ _ _ _ Hbo).
  - rewrite Ho' in Ho. apply replied_eq in Ho; [|done]. vm_compute in Ho. discriminate Ho.
Qed.

Lemma get_replies N eng k v y w : known eng -> good N w -> served_ok y -> admitted y ->
  engine_request eng "GET" 2 k y -> (ticks (serve y w).2 <= N)%nat ->
  at_key eng k (abs w) = (Some v, None) -> (length v + 16 <= OUT_RING_SIZE)%nat ->
  out (serve y w).2 = queued_bulk v (c_out y).
Proof.
  intros Hk Hg Hok Hadm [Hc Hnm Hargc <-] Hn Hat Hlen.
  destruct (engine_name eng "GET" Hk) as (He & Hs & Hp & Hb); [by right; left|].
  rewrite (serve_dispatch y w _ Hnm Hp Hadm (Hb _ _)) in *.
  apply (get_world E (c_cfg y) (c_rq y) N); try done; [by apply enter_good|]. by rewrite He.
Qed.

(** A bulk reply as the protocol wants it. *)
Definition bulk_text (v : bytes) : bytes := bulk_header v ++ v ++ crlf.

Lemma put_fits d q : room (length d) q -> (Outring.put OUT_RING_SIZE d q).2 = q ++ d.
Proof.
  intros H. destruct d as [|x d]; [|by apply put_room]. rewrite app_nil_r. unfold Outring.put.
  rewrite decide_True; [done|]. by left.
Qed.
Lemma queued_whole v q : room (length (bulk_text v)) q -> queued_bulk v q = q ++ bulk_text v.
Proof.
  unfold bulk_text, room, queued_bulk. rewrite !length_app. intros H. cbv zeta.
  rewrite (put_fits (bulk_header v)) by (unfold room; lia).
  rewrite (put_fits v) by (unfold room; rewrite length_app; lia).
  rewrite (put_fits crlf) by (unfold room; rewrite !length_app; lia). by rewrite <- !app_assoc.
Qed.
Lemma queued_torn v q : room (length (bulk_header v) + 2) q -> ~ room (length (bulk_header v) + length v) q ->
  queued_bulk v q = q ++ bulk_header v ++ crlf.
Proof.
  unfold room, queued_bulk. intros H1 H2. cbv zeta. rewrite (put_fits (bulk_header v)) by (unfold room; lia).
  assert ((Outring.put OUT_RING_SIZE v (q ++ bulk_header v)).2 = q ++ bulk_header v) as ->.
  { unfold Outring.put. rewrite decide_True; [done|]. right. rewrite length_app. lia. }
  rewrite put_fits; [by rewrite <- app_assoc|]. unfold room. rewrite length_app. change (length crlf) with 2%nat. lia.
Qed.

(** C13: Reads return what was written.  After a SET of [k] by a client of a master
    that was answered [+OK], whatever commands any clients send that do not name [k]
    for writing, a GET of [k] in the same engine puts into the connection's output
    exactly the bulk reply with the stored value (for the hash engine all its bytes,
    for the others the C string), if the value is at least 16 bytes shorter than the
    output ring (256 KB) and the reply fits beside what is waiting there. *)
Theorem set_then_get N eng k x xs y w : known eng ->
  good N w -> served_ok x -> served_ok y -> admitted x -> admitted y -> of_master x ->
  Forall (fun z => served_ok z /\ ~ may_write z eng k) xs ->
  engine_request eng "SET" 3 k x -> engine_request eng "GET" 2 k y ->
  let v := value_arg (c_rq x) eng 2 in
  let w1 := (serve x w).2 in
  let w3 := (serve y (run xs w1)).2 in
  (ticks w3 <= N)%nat -> out w1 = c_out x ++ ok_text ->
  (length v + 16 <= OUT_RING_SIZE)%nat -> room (length (bulk_text v)) (c_out y) ->
  out w3 = c_out y ++ bulk_text v.
Proof.
  intros Hk Hg Hx Hy Hax Hay Hlm Hxs Hrx Hry v w1 w3 Hn Ho Hlen Hroom. apply Forall_and in Hxs as [Hxs Hw].
  pose proof (serve_ticks y (run xs w1)) as H1. pose proof (run_ticks xs w1) as H2. fold w3 in H1.
  destruct (serve_safe N x w Hg Hx) as [Hg1 _]; [fold w1; lia|].
  assert (at_key eng k (abs w1) = (Some v, None)) as Hat by (apply (set_stores N); (done || (fold w1; lia))).
  destruct (run_kept N xs w1 eng k Hk Hg1 Hxs) as [Hg2 Hkept]; [lia|done|].
  assert (at_key eng k (abs (run xs w1)) = (Some v, None)) as Hat2.
  { destruct Hkept as [->|[(i & t & Ht & _) _]]; [done|]. injection Hat. congruence. }
  unfold w3. rewrite (get_replies N eng k v y (run xs w1)); try done. by apply queued_whole.
Qed.

(** C31: A GET reply can be torn.  The header, the value and the final CRLF are
    queued by three calls that each succeed or fail alone: for a key without a time
    of expiry, when the ring has room for the header and the CRLF but not for header and value, the client is sent a header that
    announces the value, and then only the CRLF. *)
Theorem get_reply_torn N eng k v y w : known eng -> good N w -> served_ok y -> admitted y ->
  engine_request eng "GET" 2 k y -> (ticks (serve y w).2 <= N)%nat ->
  at_key eng k (abs w) = (Some v, None) -> (length v + 16 <= OUT_RING_SIZE)%nat ->
  room (length (bulk_header v) + 2) (c_out y) -> ~ room (length (bulk_header v) + length v) (c_out y) ->
  out (serve y w).2 = c_out y ++ bulk_header v ++ crlf.
Proof. intros. rewrite (get_replies N eng k v y w) by done. by apply queued_torn. Qed.

(** ** Replication *)

(** The commands of the engines that do not look at the clock. *)
Definition engine_op (opn : bytes) : bool := timeless opn || one_of opn ["GET"; "MGET"; "EXIST"].

Lemma engine_op_branch g rq cmd : engine_op (strip_prefix cmd) = true ->
  plain_name cmd /\ branch_of E g rq cmd = engine_dispatch E g rq cmd.
Proof.
  intros H. assert (one_of (strip_prefix cmd) ["SET"; "MSET"; "MOD"; "DEL"; "GET"; "MGET"; "EXIST"]%string = true) as H'.
  { unfold engine_op, timeless, one_of in *. cbn [existsb] in *. revert H. rewrite !orb_false_r, !orb_true_iff. tauto. }
  apply one_of_in in H' as (n & Hn & Hc).
  assert (plain_name cmd /\ control E g rq cmd = None) as [Hp Hctl].
  { destruct (strip_cases cmd) as [Hs|(c & Hs & Hc')]; rewrite Hc in Hs; cbn in Hn.
    - subst cmd. repeat destruct Hn as [<-|Hn]; (split; [by split_and!|reflexivity]) || done.
    - destruct Hc' as [->|[->| ->]]; rewrite Hs; clear Hs Hc H;
        repeat destruct Hn as [<-|Hn]; (split; [by split_and!|reflexivity]) || done. }
  split; [done|]. unfold branch_of. rewrite Hctl. by destruct (hash_fast rq cmd).
Qed.

(** What the backlog is fed. *)
Definition fed (l : list event) : list bytes :=
  omap (fun e => match e with Feed r => Some r | _ => None end) l.

(** The effect of a list of requests. *)
Definition replay1 (a : astate) (rq : request) : astate :=
  effect rq (cmd_engine (name_of rq)) (strip_prefix (name_of rq)) a.
Definition replay (rqs : list request) (a : astate) : astate := fold_left replay1 rqs a.

(** A client's command on the master, and the same command on a replica. *)
Record client_call (x : call) : Prop := {
  cc_ok : served_ok x;
  cc_admitted : admitted x;
  cc_master : logging_master x;
  cc_op : engine_op (strip_prefix (name_of (c_rq x))) = true;
  cc_raw : raw (c_rq x) = Resp.encode (Resp.WArray (argv (c_rq x)));
  cc_wire : Resp.wire_ok (Resp.WArray (argv (c_rq x)));
}.
Record replica_call (x : call) : Prop := {
  rc_ok : served_ok x;
  rc_repl : from_replication (c_rq x) = true;
}.

(** Along the run, no MSET stops half way. *)
Fixpoint msets_complete (xs : list call) (w : W) : Prop :=
  match xs with
  | [] => True
  | x :: r => (strip_prefix (name_of (c_rq x)) = str "MSET" -> log (serve x w).2 <> log w) /\
              msets_complete r (serve x w).2
  end.
(** Along the run, the replica applies every command. *)
Fixpoint all_applied (xs : list call) (w : W) : Prop :=
  match xs with
  | [] => True
  | x :: r => log (serve x w).2 <> log w /\ all_applied r (serve x w).2
  end.

Lemma write_timeless opn : write_op opn = true -> engine_op opn = true -> timeless opn = true.
Proof. intros H. apply one_of_in in H as (n & Hn & ->). cbn in Hn. by repeat destruct Hn as [<-|Hn]. Qed.

Lemma master_step N x w : good N w -> client_call x -> (ticks (serve x w).2 <= N)%nat -> plain (abs w) ->
  (strip_prefix (name_of (c_rq x)) = str "MSET" -> log (serve x w).2 <> log w) ->
  (log (serve x w).2 = log w /\ abs (serve x w).2 = abs w) \/
  (log (serve x w).2 = log w ++ commit_log (c_rq x) /\ abs (serve x w).2 = replay1 (abs w) (c_rq x) /\
   timeless (strip_prefix (name_of (c_rq x))) = true).
Proof.
  intros Hg [Hok Hadm (Hf & Hm & Ha) Hop _ _] Hn Hp Hms.
  destruct (engine_op_branch (c_cfg x) (c_rq x) _ Hop) as [Hpn Hb].
  rewrite (serve_dispatch x w _ eq_refl Hpn Hadm Hb) in *.
  destruct (engine_dispatch_world E (c_cfg x) (c_rq x) N _ (enter x w) Hok (enter_good N x w Hg) Hn Hf Hm (fun i => or_introl (Ha i)))
    as [Hl [_ Hs] Hr|rc m Hrc Hl Ho Hmsg Hbo|a1 Hl Ho Hbo Habs|a1 [i Hi] _ _ _ _]; rewrite ?enter_abs in *; [..|by rewrite Ha in Hi].
  - left. auto.
  - left. split; [done|].
    assert (timeless (strip_prefix (name_of (c_rq x))) = true) as Ht
      by (apply write_timeless; [apply Hbo|done]).
    apply (bo_idle _ _ _ _ _ _ _ Hbo); auto. intros Hc. by apply Hms in Hc.
  - right. assert (timeless (strip_prefix (name_of (c_rq x))) = true) as Ht
      by (apply write_timeless; [apply Hbo|done]).
    split_and!; [done| |done]. rewrite Habs, (bo_plain _ _ _ _ _ _ _ Hbo eq_refl Ht Hp).
    apply plain_settled. by apply plain_effect.
Qed.

Lemma fed_app l l' : fed (l ++ l') = fed l ++ fed l'.
Proof. apply omap_app. Qed.

(** The master's tables are the effect of what it fed to the backlog. *)
Lemma master_run N xs : forall w, good N w -> Forall client_call xs -> (ticks (run xs w) <= N)%nat -> plain (abs w) ->
  msets_complete xs w ->
  exists l ys, log (run xs w) = log w ++ l /\ fed l = map (fun y => raw (c_rq y)) ys /\ Forall client_call ys /\
    Forall (fun y => timeless (strip_prefix (name_of (c_rq y))) = true) ys /\
    abs (run xs w) = replay (map c_rq ys) (abs w).
Proof.
  induction xs as [|x xs IH]; intros w Hg Hxs Hn Hp Hms.
  { exists [], []. cbn. rewrite app_nil_r. by split_and!. }
  inversion Hxs; subst. destruct Hms as [Hm1 Hm2]. cbn in Hn. change (fold_left _ xs ?w) with (run xs w) in Hn.
  pose proof (run_ticks xs (serve x w).2).
  destruct (serve_safe N x w Hg) as [Hg1 _]; [by apply cc_ok|lia|].
  destruct (master_step N x w) as [[Hl Ha]|(Hl & Ha & Ht)]; try done; [lia| |].
  - destruct (IH (serve x w).2) as (l & ys & H1' & H2' & H3' & H4' & H5'); try done; [by rewrite Ha|].
    exists l, ys. cbn. change (fold_left _ xs ?w) with (run xs w). rewrite <- Hl, <- Ha. by split_and!.
  - destruct (IH (serve x w).2) as (l & ys & H1' & H2' & H3' & H4' & H5'); try done.
    { rewrite Ha. by apply plain_effect. }
    exists (commit_log (c_rq x) ++ l), (x :: ys). change (run (x :: xs) w) with (run xs (serve x w).2).
    rewrite H1', Hl, <- app_assoc, fed_app, H2', H5', Ha. split_and!; [done|done|by constructor|by constructor|done].
Qed.

(** So are a replica's tables, if it applies every command. *)
Lemma replica_run N zs : forall w, good N w -> Forall replica_call zs -> (ticks (run zs w) <= N)%nat -> plain (abs w) ->
  Forall (fun z => timeless (strip_prefix (name_of (c_rq z))) = true) zs -> all_applied zs w ->
  abs (run zs w) = replay (map c_rq zs) (abs w).
Proof.
  induction zs as [|z zs IH]; intros w Hg Hzs Hn Hp Ht Hap; [done|].
  inversion Hzs as [|? ? [Hok Hrep] Hzs']; inversion Ht as [|? ? Ht1 Ht']; subst. destruct Hap as [Ha1 Ha2].
  cbn in Hn |- *. change (fold_left _ zs ?w) with (run zs w) in *. pose proof (run_ticks zs (serve z w).2).
  assert (serve z w = engine_dispatch E (c_cfg z) (c_rq z) (name_of (c_rq z)) (enter z w)) as Hs.
  { destruct (engine_op_branch (c_cfg z) (c_rq z) (name_of (c_rq z))) as [Hpn Hb]; [unfold engine_op; by rewrite Ht1|].
    apply serve_dispatch; [done|done| |done]. unfold admitted, auth_gate, readonly_gate. rewrite Hrep.
    by rewrite !andb_false_r. }
  assert (good N (serve z w).2 /\ abs (serve z w).2 = replay1 (abs w) (c_rq z)) as [Hg1 Ha].
  { rewrite Hs in *. refine (replica_world E (c_cfg z) (c_rq z) N _ (enter z w) Hok (enter_good N z w Hg) _ Ht1 Hp Ha1). lia. }
  rewrite IH; try done; rewrite Ha; [done|]. by apply plain_effect.
Qed.

Lemma replay_argv rqs rqs' a : map argv rqs = map argv rqs' -> replay rqs a = replay rqs' a.
Proof.
  revert rqs' a. induction rqs as [|r rqs IH]; intros [|r' rqs'] a Heq; try done. injection Heq as Hr Heq.
  unfold replay in *. cbn [fold_left]. rewrite (IH rqs') by done. f_equal.
  unfold replay1, effect, value_arg, name_of, arg, blob. by rewrite Hr.
Qed.


End Runs.

End Commands.
