(* ===== verification/Gates.v ===== *)
(** * Gates: passwords, read-only replicas, and the shape of replies

    What [handle_parsed_command] ([Dispatch]) lets a client do before it has
    given the password and on a replica, and that every reply of a command is one
    RESP value. *)

From S2P Require Import Prelude Cstring Engine Expire Doc Resp Outring Dump Dispatch Commands.

Module Gates.

Import Dispatch Commands.
Import Dump (KVS_ENGINE_ARRAY, KVS_ENGINE_RBTREE, KVS_ENGINE_HASH, KVS_ENGINE_SKIPTABLE).

Section Gates.

Context {SA EA SR ER SH EH SX EX : Type}.
Context `{!Engine SA EA} `{!Capacity SA EA} `{!Engine SR ER} `{!Capacity SR ER}.
Context `{!Engine SH EH} `{!Capacity SH EH} `{!Blob SH EH} `{!Engine SX EX} `{!Capacity SX EX}.
Context (E : nat -> @env EA ER EH EX).

Abbreviation W := (@world SA SR SH SX).
Abbreviation MW := (@M SA SR SH SX).

(** ** Programs that stay within a relation *)

Definition within (R : W -> W -> Prop) {A} (m : MW A) : Prop := forall w, R w (m w).2.

Section Within.

Context (R : W -> W -> Prop) `{!PreOrder R}.

Lemma within_ret {A} (x : A) : within R (mret x).
Proof. intros w. cbn. reflexivity. Qed.
Lemma within_bind {A B} (m : MW A) (f : A -> MW B) : within R m -> (forall x, within R (f x)) -> within R (m ≫= f).
Proof.
  intros Hm Hf w. unfold mbind, M_bind. specialize (Hm w). destruct (m w) as [x w'].
  etrans; [exact Hm|apply Hf].
Qed.

End Within.

(** Reading: the documents, the log and the [authed] flag stay, whatever the
    engines and the expiry times do. *)
Definition reads (w w' : W) : Prop :=
  global_doc (tables w') = global_doc (tables w) /\ log w' = log w /\ authed w' = authed w.
#[local] Instance reads_preorder : PreOrder reads.
Proof. split; [by intros w|]. intros w1 w2 w3 (?&?&?) (?&?&?). repeat split; congruence. Qed.

Lemma reads_call dflt eng o : within reads (engine_call E dflt eng o).
Proof.
  intros w. unfold engine_call, mbind, M_bind, tick, get_tables, set_tables, on_engine, mret, M_ret.
  cbn [fst snd].
  repeat case_decide; try destruct (engine_exec _ _ _); done.
Qed.
Lemma reads_tick : within reads (tick E).
Proof. by intros w. Qed.
Lemma reads_get : within reads get_tables.
Proof. by intros w. Qed.
Lemma reads_queue rq d : within reads (queue_bytes rq d).
Proof. intros w. unfold queue_bytes. by destruct (has_conn rq). Qed.
Lemma reads_get_len k : within reads (hash_get_len E k).
Proof.
  intros w. unfold hash_get_len, mbind, M_bind, tick, get_tables, set_tables, mret, M_ret. cbn [fst snd].
  by destruct (get_len _ _ _).
Qed.
Lemma reads_expire_del eng k : within reads (expire_del eng k).
Proof.
  intros w. unfold expire_del, mbind, M_bind, get_tables, set_tables, mret, M_ret. cbn [fst snd].
  by destruct (Expire.kvs_expire_del _ _ _).
Qed.

Create HintDb reads.
Create HintDb reads_defs.
#[local] Hint Constants Opaque : reads.
#[local] Hint Resolve within_ret reads_call reads_tick reads_get reads_queue reads_get_len reads_expire_del : reads.
#[local] Hint Unfold engine_exist engine_get engine_del try_expire is_expired get_value queue done cmd_get
  handle_multi_get cmd_owner cmd_docget cmd_docexist cmd_doccount cmd_docgetall fast_bulk : reads_defs.
Ltac reading :=
  cbn beta zeta;
  lazymatch goal with
  | |- forall _, _ => intros ?; reading
  | |- within _ (_ ≫= _) => apply (within_bind _); reading
  | |- within _ (match ?x with _ => _ end) => destruct x; reading
  | |- _ => first [solve [eauto 3 using reads_preorder with reads] | progress autounfold with reads_defs; reading | idtac]
  end.

Lemma reads_get_all eng ks : within reads (get_all E eng ks).
Proof. induction ks as [|k ks IH]; cbn [get_all]; reading. Qed.
#[local] Hint Resolve reads_get_all : reads.

(** A read command has queued its reply when its branch ends. *)
Definition answers (m : MW branch) : Prop := forall w, reads w (m w).2 /\ exists o, (m w).1 = Reply o.
Lemma answers_ret o : answers (mret (Reply o)).
Proof. intros w. split; [reflexivity|by eexists]. Qed.
Lemma answers_bind {A} (m : MW A) (f : A -> MW branch) : within reads m -> (forall x, answers (f x)) -> answers (m ≫= f).
Proof.
  intros Hm Hf w. unfold mbind, M_bind. specialize (Hm w). destruct (m w) as [x w']. destruct (Hf x w') as [H1 H2].
  split; [|done]. by etrans.
Qed.
Ltac answering :=
  cbn beta zeta;
  lazymatch goal with
  | |- forall _, _ => intros ?; answering
  | |- answers (_ ≫= _) => apply answers_bind; answering
  | |- answers (match ?x with _ => _ end) => destruct x; answering
  | |- answers (mret _) => apply answers_ret
  | |- answers (cmd_get _ _ _) => unfold cmd_get; answering
  | |- _ => reading
  end.

Lemma dispatch_reads g rq cmd : answers (engine_branch E rq (cmd_engine cmd) (strip_prefix cmd)) ->
  within reads (engine_dispatch E g rq cmd).
Proof.
  intros H w. unfold engine_dispatch, mbind, M_bind. destruct (H w) as [Hr (o & Ho)].
  destruct (engine_branch _ _ _ _ w) as [b w']. cbn in *. by subst.
Qed.

(** Comparisons of two known names. *)
Ltac names :=
  repeat match goal with
  | |- context [is_cmd (str ?a) ?b] =>
      let v := eval vm_compute in (is_cmd (str a) b) in change (is_cmd (str a) b) with v
  | |- context [is_cmd (strip_prefix (str ?a)) ?b] =>
      let v := eval vm_compute in (is_cmd (strip_prefix (str a)) b) in change (is_cmd (strip_prefix (str a)) b) with v
  end;
  cbn [andb orb existsb].

(** The commands a replica answers to its clients. *)
Lemma reads_branch g rq cmd : is_readonly_slave_blocked cmd = false -> within reads (branch_of E g rq cmd).
Proof.
  intros Hb. unfold is_readonly_slave_blocked in Hb. apply negb_false_iff in Hb.
  apply one_of_in in Hb as (n & Hn & ->).
  assert (answers (engine_branch E rq (cmd_engine (str n)) (strip_prefix (str n)))) as He.
  { unfold engine_branch. cbn in Hn. repeat destruct Hn as [<-|Hn]; try done; names; answering. }
  assert (forall m, control E g rq (str n) = Some m -> within reads m) as Hc.
  { unfold control, elsewhere, one_of. cbn in Hn. repeat destruct Hn as [<-|Hn]; try done; names; intros m;
      repeat match goal with |- (if ?b then _ else _) = _ -> _ => destruct b end; intros Hm; try discriminate Hm;
      apply (inj Some) in Hm; subst m; reading. }
  unfold branch_of. destruct (hash_fast _ _); [by apply dispatch_reads|].
  destruct (control _ _ _ _) as [m|]; [by apply Hc|by apply dispatch_reads].
Qed.

(** ** Read-only replicas *)

(** A command that a client sends a replica.  The read-only gate of
    [handle_parsed_command] applies to it: it does not come from the replication
    stream, the server is a replica, and the replication transport is not
    ebpf+tcp, with which the code exempts every connection, since the proxy's
    cannot be told from a client's.  The command is one of this model's; the
    commands of other parts (SLAVEOF, REPLSYNC, CONFIG, ...) are excluded. *)
Record replica_client (x : call) : Prop := {
  rp_ok : served_ok x;
  rp_client : from_replication (c_rq x) = false;
  rp_replica : is_master (c_cfg x) = false;
  rp_direct : has_conn (c_rq x) && ebpf_tcp (c_cfg x) = false;
  rp_here : elsewhere (c_rq x) (name_of (c_rq x)) = false;
}.

Lemma gate_replica x : replica_client x ->
  readonly_gate (c_cfg x) (c_rq x) (name_of (c_rq x)) = is_readonly_slave_blocked (name_of (c_rq x)).
Proof. intros [_ H1 H2 H3 _]. unfold readonly_gate. by rewrite H1, H2, H3. Qed.

(** The read commands write no key. *)
Lemma reads_write_nothing rq cmd e k : is_readonly_slave_blocked cmd = false -> ~ writes rq cmd e k.
Proof.
  intros Hb. unfold is_readonly_slave_blocked in Hb. apply negb_false_iff in Hb.
  apply one_of_in in Hb as (n & Hn & ->).
  assert (write_op (strip_prefix (str n)) = false /\ lock_name (str n) = false) as [H1 H2].
  { cbn in Hn. repeat destruct Hn as [<-|Hn]; try done; by vm_compute. }
  intros [(_ & Hw & _)|(Hl & _)]; congruence.
Qed.

(** The part of the handler before the branches only replies. *)
Lemma handle_gated x w (R : W -> W -> Prop) `{!PreOrder R} :
  (forall d, within R (queue_bytes (c_rq x) d)) -> within R (fast_bulk E (c_rq x)) ->
  R w (enter x w) ->
  (readonly_gate (c_cfg x) (c_rq x) (name_of (c_rq x)) = false ->
   auth_gate (c_cfg x) (c_rq x) (enter x w) = false -> R (enter x w) (branch_of E (c_cfg x) (c_rq x) (name_of (c_rq x)) (enter x w)).2) ->
  R w (serve E x w).2.
Proof.
  intros Hq Hb Hw Hr. etrans; [exact Hw|]. unfold serve, handle_parsed_command.
  assert (forall d, within R (queue_bytes (c_rq x) d;; mret (Done 0))) as Hqd.
  { intros d. apply (within_bind R); [done|]. intros _. by apply within_ret. }
  destruct (auth_gate _ _ _) eqn:Ea; [apply Hqd|]. destruct (fast_echo _); [apply Hb|].
  destruct (fast_ping _); [case_decide; [apply Hb|apply Hqd]|].
  case_decide; [reflexivity|]. cbv zeta. fold (name_of (c_rq x)).
  destruct (readonly_gate _ _ _) eqn:Eg.
  - unfold done, queue. assert (within R (queue (c_rq x) (error "read only slave");; mret (Done 0))) as Hd.
    { apply (within_bind R); [|intros _; by apply within_ret]. unfold queue. case_decide; [by apply within_ret|done]. }
    apply Hd.
  - specialize (Hr eq_refl eq_refl). unfold branch_of in Hr. destruct (hash_fast _ _); [done|].
    by destruct (control _ _ _ _).
Qed.

(** What a client sees change: nothing but its connection. *)
Definition untouched (w w' : W) : Prop := tables w' = tables w /\ log w' = log w.
#[local] Instance untouched_preorder : PreOrder untouched.
Proof. split; [by intros w|]. intros w1 w2 w3 (?&?) (?&?). split; congruence. Qed.
Lemma untouched_queue rq d : within untouched (queue_bytes rq d).
Proof. intros w. unfold queue_bytes. by destruct (has_conn rq). Qed.
Lemma untouched_fast rq : within untouched (fast_bulk E rq).
Proof.
  unfold fast_bulk. apply (within_bind _); [by intros w|]. intros e. case_decide; [by apply (within_ret _)|].
  apply (within_bind _); [apply untouched_queue|]. intros _. by apply (within_ret _).
Qed.

Definition same_docs_log (w w' : W) : Prop := global_doc (tables w') = global_doc (tables w) /\ log w' = log w.
#[local] Instance docs_log_preorder : PreOrder same_docs_log.
Proof. split; [by intros w|]. intros w1 w2 w3 (?&?) (?&?). split; congruence. Qed.
Lemma reads_docs_log {A} (m : MW A) : within reads m -> within same_docs_log m.
Proof. intros H w. by destruct (H w) as (?&?&?). Qed.

Lemma replica_serves N x w : good N w -> replica_client x -> (ticks (serve E x w).2 <= N)%nat ->
  good N (serve E x w).2 /\ safe E nothing (abs w) (abs (serve E x w).2) /\ same_docs_log w (serve E x w).2.
Proof.
  intros Hg Hx Hn. destruct (serve_safe E N x w Hg (rp_ok x Hx) Hn) as [Hg' Hs]. split; [done|].
  destruct (is_readonly_slave_blocked (name_of (c_rq x))) eqn:Eb.
  - destruct (handle_gated x w untouched) as [Ht Hl]; [apply untouched_queue|apply untouched_fast|done| |].
    { rewrite gate_replica by done. congruence. }
    split; [|split; congruence]. apply safe_same; unfold abs; by rewrite Ht.
  - split; [eapply safe_mono; [exact Hs|]; intros e k Hw; by apply reads_write_nothing in Hw|].
    apply (handle_gated x w same_docs_log); try done; [intros d|..].
    + apply reads_docs_log. reading.
    + apply reads_docs_log. reading.
    + intros _ _. by apply reads_docs_log, reads_branch.
Qed.

(** C17: A replica is read-only, when its replication transport is not ebpf+tcp
    (with that transport the code lets every connection write).  Whatever
    commands of this model clients send it (so not SLAVEOF, the replication
    commands, CONFIG, the saves, ...), its tables keep every key and value but
    those whose time has passed, its documents stay, and nothing is counted,
    logged, fed or broadcast. *)
Theorem replica_is_read_only N xs w : good N w -> Forall replica_client xs -> (ticks (run E xs w) <= N)%nat ->
  good N (run E xs w) /\ safe E nothing (abs w) (abs (run E xs w)) /\ same_docs_log w (run E xs w).
Proof.
  revert w. induction xs as [|x xs IH]; intros w Hg Hxs Hn; [split_and!; [done|apply safe_refl|done]|].
  inversion Hxs; subst. pose proof (run_ticks E xs (serve E x w).2) as Ht. change (run E (x :: xs) w) with (run E xs (serve E x w).2) in *.
  destruct (replica_serves N x w) as (Hg1 & Hs1 & Hd1); [done|done|lia|].
  destruct (IH (serve E x w).2) as (Hg2 & Hs2 & Hd2); [done..|]. split_and!; [done|by eapply safe_trans|by etrans].
Qed.

(** ** Passwords *)

Lemma branch_auth g rq : branch_of E g rq (str "AUTH") = cmd_auth g rq.
Proof. unfold branch_of, hash_fast. by rewrite andb_false_r. Qed.
Lemma branch_quit g rq : branch_of E g rq (str "QUIT") = done rq (simple "OK").
Proof. unfold branch_of, hash_fast. by rewrite andb_false_r. Qed.

(** Behind the password gate there are only AUTH and QUIT. *)
Lemma gate_names g rq (w : W) : has_conn rq = true -> from_replication rq = false -> requirepass g <> [] ->
  authed w = false -> auth_gate g rq w = false -> name_of rq = str "AUTH" \/ name_of rq = str "QUIT".
Proof.
  intros Hc Hf Hp Ha. unfold auth_gate. rewrite Hc, Hf, Ha, bool_decide_eq_true_2 by done. cbn [negb andb].
  intros H. apply andb_false_iff in H as [H|H]; apply negb_false_iff in H; apply word4_name in H;
    [left; exact H| |right; exact H|]; cbn; repeat first [apply Forall_nil_2|apply Forall_cons_2; [lia|]].
Qed.

(** C6: The password gate.  On a server with a password, a command from a
    connection that has not given it changes no table and is not logged, any
    command but AUTH and QUIT is answered with nothing but the NOAUTH error, and
    the connection becomes authenticated only by AUTH with exactly
    the password.  On a read-only replica it never does: AUTH itself is refused
    there. *)
Theorem password_gate x w :
  has_conn (c_rq x) = true -> from_replication (c_rq x) = false -> requirepass (c_cfg x) <> [] -> c_authed x = false ->
  let w' := (serve E x w).2 in
  untouched w w' /\
  (name_of (c_rq x) <> str "AUTH" -> name_of (c_rq x) <> str "QUIT" ->
   out w' = (Outring.put OUT_RING_SIZE noauth (c_out x)).2) /\
  (authed w' = true ->
   name_of (c_rq x) = str "AUTH" /\ argc (c_rq x) = 2%nat /\ blob (c_rq x) 1 = requirepass (c_cfg x) /\
   (is_master (c_cfg x) = true \/ ebpf_tcp (c_cfg x) = true)).
Proof.
  intros Hc Hf Hp Ha w'.
  destruct (auth_gate (c_cfg x) (c_rq x) (enter x w)) eqn:Eg.
  { unfold w', serve, handle_parsed_command. rewrite Eg. unfold mbind, M_bind, queue_bytes. rewrite Hc.
    split_and!; [split; done|done..|cbn; by rewrite Ha]. }
  destruct (gate_names _ _ (enter x w) Hc Hf Hp Ha Eg) as [Hn|Hn]; unfold w', serve;
    rewrite (handle_named E _ _ _ _ Hn), Eg by (by split_and!); destruct (readonly_gate _ _ _) eqn:Er;
    rewrite ?branch_auth, ?branch_quit, ?done_world; try (split_and!; [split; done|done..|cbn; rewrite Ha; done]).
  unfold cmd_auth. repeat case_decide; rewrite ?done_world; try (split_and!; [split; done|done..|cbn; rewrite Ha; done]).
  unfold mbind, M_bind. rewrite Hc, done_world. split_and!; [split; done|done..|]. intros _. split_and!; [done| |by destruct (decide (argc (c_rq x) = 2%nat))|].
  { lia. }
  unfold readonly_gate in Er. rewrite Hf, Hc in Er. cbn [negb andb] in Er.
  change (is_readonly_slave_blocked (str "AUTH")) with true in Er. rewrite andb_true_r, andb_true_r in Er.
  apply andb_false_iff in Er as [Er|Er]; apply negb_false_iff in Er; auto.
Qed.

(** ** Replies *)

(** RESP values of a reply. *)
Inductive value :=
  | VSimple (s : bytes)
  | VError (s : bytes)
  | VInt (n : Z)
  | VBulk (b : bytes)
  | VNull
  | VArray (vs : list (option bytes)).

Definition line_ok (s : bytes) : bool := forallb (fun c => negb (bool_decide (c = CR \/ c = LF))) s.
Definition value_ok (v : value) : Prop :=
  match v with VSimple s | VError s => line_ok s = true | _ => True end.

Definition show_item (v : option bytes) : bytes :=
  match v with Some b => 36 :: dec (Z.of_nat (length b)) ++ crlf ++ b ++ crlf | None => str "$-1" ++ crlf end.
Definition show (v : value) : bytes :=
  match v with
  | VSimple s => 43 :: s ++ crlf
  | VError s => 45 :: s ++ crlf
  | VInt n => 58 :: sdec n ++ crlf
  | VBulk b => show_item (Some b)
  | VNull => show_item None
  | VArray vs => 42 :: sdec (Z.of_nat (length vs)) ++ crlf ++ concat (map show_item vs)
  end.

(** Nothing, one value, or a text that filled the reply buffer. *)
Definition fine (t : bytes) : Prop :=
  t = [] \/ (exists v, value_ok v /\ t = show v) \/ length t = BUFFER_CAP.

Lemma fine_value v : value_ok v -> fine (show v).
Proof. right. left. by eexists. Qed.

Lemma printed_fine s : fine s -> fine (printed (Resp.snprintf_fit BUFFER_CAP s)).
Proof.
  intros Hs. pose proof cap_value. destruct (decide (length s < BUFFER_CAP)%nat) as [Hl|Hl].
  - by rewrite printed_snprintf.
  - right. right. unfold printed, Resp.snprintf_fit. cbn [fst snd]. rewrite Nat2Z.id, length_take, length_app, length_take.
    cbn [length]. lia.
Qed.
Lemma fine_simple m : line_ok (str m) = true -> fine (printed (simple m)).
Proof. intros H. apply printed_fine. by apply (fine_value (VSimple (str m))). Qed.
Lemma fine_error m : line_ok (str "ERR " ++ str m) = true -> fine (printed (error m)).
Proof. intros H. apply printed_fine. rewrite app_assoc. by apply (fine_value (VError (str "ERR " ++ str m))). Qed.
Lemma fine_integer n : fine (printed (integer n)).
Proof. apply printed_fine. by apply (fine_value (VInt n)). Qed.
(** [resp_bulk] prints the whole value or fails. *)
Lemma bulk_printed cap v : let r := Resp.resp_bulk cap v in
  r.1 < 0 \/ (printed r = show_item (Some v) /\ r.1 = Z.of_nat (length (show_item (Some v)))).
Proof.
  unfold Resp.resp_bulk. case_decide; [by left|]. right. unfold printed. cbn [fst snd]. rewrite Nat2Z.id, take_app_le.
  - rewrite take_ge by (rewrite !length_app; cbn; lia). cbn [show_item].
    split; [|cbn [length]; rewrite !length_app; cbn; lia]. cbn. by rewrite <- app_assoc.
  - rewrite !length_app. cbn. lia.
Qed.
Lemma fine_bulk v : (Resp.resp_bulk BUFFER_CAP v).1 < 0 \/ fine (printed (Resp.resp_bulk BUFFER_CAP v)).
Proof.
  destruct (bulk_printed BUFFER_CAP v) as [H|[-> _]]; [by left|]. right. by apply (fine_value (VBulk v)).
Qed.
Lemma fine_null : fine (printed (Resp.resp_null_bulk BUFFER_CAP)).
Proof. apply printed_fine. by apply (fine_value VNull). Qed.
Lemma fine_bulk_or_null v : (bulk_or_null v).1 < 0 \/ fine (printed (bulk_or_null v)).
Proof. destruct v; [apply fine_bulk|right; apply fine_null]. Qed.

(** An element appended to an array is complete, or the buffer is full. *)
Lemma append_item cap v o b : resp_array_append_bulk_or_null cap v o = Some b ->
  (b = o ++ show_item v /\ (length b <= cap)%nat) \/ length b = cap.
Proof.
  unfold resp_array_append_bulk_or_null. case_decide as Ho; [done|]. cbv zeta. case_decide as Hr; [done|].
  intros [= <-]. destruct v as [v|].
  - left. destruct (bulk_printed (cap - length o) v) as [Hn|[Hp Hl]]; [lia|]. rewrite Hp, length_app. split; [done|lia].
  - unfold Resp.resp_null_bulk, Resp.snprintf_fit, printed in *. cbn [fst snd] in *. rewrite Nat2Z.id.
    change (length (str "$-1" ++ crlf)) with 5%nat in *.
    destruct (decide (cap - length o = 5)%nat) as [He|He].
    + right. rewrite He, length_app. cbn [Nat.sub]. change (length (take 5 (take 4 (str "$-1" ++ crlf) ++ [0]))) with 5%nat. lia.
    + left. rewrite (take_ge (str "$-1" ++ crlf)) by (change (length (str "$-1" ++ crlf)) with 5%nat; lia).
      change (take 5 ((str "$-1" ++ crlf) ++ [0])) with (show_item None). split; [done|].
      rewrite length_app. change (length (show_item None)) with 5%nat. lia.
Qed.

Lemma append_items cap vs : forall o b, append_values cap vs o = Some b -> (length o <= cap)%nat ->
  b = o ++ concat (map show_item vs) \/ length b = cap.
Proof.
  induction vs as [|v vs IH]; intros o b; cbn [append_values].
  { intros [= <-] _. left. cbn. by rewrite app_nil_r. }
  destruct (resp_array_append_bulk_or_null _ _ _) as [o'|] eqn:Eo; [|done]. intros Hb Hl. cbn in Hb.
  destruct (append_item _ _ _ _ Eo) as [[-> Hle]|Hfull].
  - destruct (IH _ _ Hb Hle) as [-> |]; [|by right]. left. cbn. by rewrite <- app_assoc.
  - destruct vs as [|v' vs]; [injection Hb as <-; by right|]. cbn in Hb.
    unfold resp_array_append_bulk_or_null in Hb at 1. by rewrite decide_True in Hb by lia.
Qed.

Lemma fine_array vs b : resp_array_from_values BUFFER_CAP vs = Some b -> fine b.
Proof.
  unfold resp_array_from_values. cbv zeta. case_decide as Hh; [done|]. intros Hb.
  unfold resp_array_header in Hh, Hb. unfold Resp.snprintf_fit in Hh. cbn [fst] in Hh.
  rewrite printed_snprintf in Hb by lia.
  destruct (append_items _ vs _ b Hb) as [-> |]; [lia| |by right; right].
  cbn [app]. rewrite <- app_assoc. by apply (fine_value (VArray vs)).
Qed.

Lemma printed_built b : printed (Z.of_nat (length b), b) = b.
Proof. unfold printed. cbn. rewrite Nat2Z.id. apply take_app_length. Qed.
Lemma fine_built r m : (forall b, r = Some b -> fine b) -> line_ok (str "ERR " ++ str m) = true -> fine (printed (built r m)).
Proof. intros Hr Hm. destruct r as [b|]; cbn; [rewrite printed_built; auto|by apply fine_error]. Qed.

(** [fast_uitoa] prints decimal numbers. *)
Lemma low_digits_dec n fuel fuel' : 0 < n -> (Z.to_nat (Z.log2 n) < fuel)%nat -> n < 10 ^ Z.of_nat fuel' ->
  rev (low_digits fuel' n) = digits fuel n.
Proof.
  revert n fuel. induction fuel' as [|f IH]; intros n fuel Hn Hf Hb; [cbn in Hb; lia|].
  destruct fuel as [|fuel]; [lia|]. cbn [low_digits digits]. rewrite decide_True by lia. cbn [rev].
  destruct (decide (n < 10)) as [Hlt|Hge].
  - rewrite (Z.div_small n 10), (Z.mod_small n 10) by lia. destruct f; cbn [low_digits];
      rewrite ?decide_False by lia; cbn [rev app]; by rewrite Z.add_comm.
  - rewrite (Z.add_comm (n mod 10)). f_equal. apply IH.
    + apply Z.div_str_pos. lia.
    + assert (Z.log2 (n / 10) < Z.log2 n); [|pose proof (Z.log2_nonneg (n / 10)); lia].
      apply Z.log2_lt_pow2; [apply Z.div_str_pos; lia|]. apply Z.div_lt_upper_bound; [lia|].
      pose proof (Z.log2_spec n Hn) as [_ Hs]. rewrite Z.pow_succ_r in Hs by apply Z.log2_nonneg. lia.
    + apply Z.div_lt_upper_bound; [lia|]. rewrite Nat2Z.inj_succ, Z.pow_succ_r in Hb by lia. lia.
Qed.
Lemma low_digits_length fuel n : (length (low_digits fuel n) <= fuel)%nat.
Proof. revert n. induction fuel as [|f IH]; intros n; cbn; [lia|]. case_decide; cbn; [specialize (IH (n / 10)); lia|lia]. Qed.
Lemma dec_length k n : 0 <= n -> n < 10 ^ Z.of_nat (S k) -> (length (dec n) <= S k)%nat.
Proof.
  intros H0 Hn. destruct (decide (n = 0)) as [->|Hne]; [change (length (dec 0)) with 1%nat; lia|].
  unfold dec. rewrite <- (low_digits_dec n _ (S k)); [|lia|lia|done]. rewrite length_rev. apply low_digits_length.
Qed.
Lemma fast_uitoa_dec n : 0 <= n < 10 ^ 20 -> fast_uitoa n = dec n.
Proof.
  intros Hn. unfold fast_uitoa, dec. case_decide as H0; [by subst|]. apply low_digits_dec; [lia|lia|]. exact (proj2 Hn).
Qed.

(** Programs that leave the connection's output alone. *)
Definition silent (w w' : W) : Prop := out w' = out w.
#[local] Instance silent_preorder : PreOrder silent.
Proof. split; [by intros w|]. intros w1 w2 w3. unfold silent. congruence. Qed.
Lemma silent_ret {A} (x : A) : within silent (mret x).
Proof. by apply (within_ret _). Qed.
Lemma silent_tick : within silent (tick E).
Proof. by intros w. Qed.
Lemma silent_get : within silent get_tables.
Proof. by intros w. Qed.
Lemma silent_set d : within silent (set_tables d).
Proof. by intros w. Qed.
Lemma silent_emit ev : within silent (emit ev).
Proof. by intros w. Qed.
#[local] Hint Resolve silent_ret silent_tick silent_get silent_set silent_emit : reads.
#[local] Hint Unfold engine_call engine_set engine_mod hash_set_len hash_get_len expire_set expire_del expire_persist
  engine_upsert handle_multi_set lock_acquire lock_release lock_renew persist_append_prepare set_value
  try_expire_first settle applied proxied : reads_defs.
Lemma silent_call dflt eng o : within silent (engine_call E dflt eng o).
Proof. reading. Qed.
#[local] Hint Resolve silent_call : reads.
Lemma silent_upsert_all eng : forall kvs, within silent (upsert_all E eng kvs).
Proof.
  assert (forall n kvs, (length kvs <= n)%nat -> within silent (upsert_all E eng kvs)) as H; [|intros kvs; by apply (H (length kvs))].
  induction n as [|n IH]; intros [|k [|v kvs]] Hl; cbn [upsert_all]; reading; cbn in Hl; try lia. apply IH. lia.
Qed.
Lemma silent_get_all eng ks : within silent (get_all E eng ks).
Proof. induction ks as [|k ks IH]; cbn [get_all]; reading. Qed.
#[local] Hint Resolve silent_upsert_all silent_get_all : reads.
Lemma silent_helpers eng k v i rq ms :
  within silent (try_expire E eng k) /\ within silent (engine_exist E eng k) /\ within silent (engine_get E eng k) /\
  within silent (engine_mod E eng k v) /\ within silent (engine_del E eng k) /\ within silent (set_value E rq eng i) /\
  within silent (expire_set E eng k ms) /\ within silent (expire_del eng k) /\ within silent (expire_persist eng k) /\
  within silent (try_expire_first E rq eng) /\ within silent (handle_multi_set E rq eng).
Proof. split_and!; reading. Qed.

(** From an empty queue, [m] ends with nothing or one reply. *)
Definition one_reply {A} (m : MW A) : Prop := forall w, out w = [] -> fine (out (m w).2).
Lemma one_bind {A B} (m : MW A) (f : A -> MW B) : within silent m -> (forall x, one_reply (f x)) -> one_reply (m ≫= f).
Proof.
  intros Hm Hf w Hw. unfold mbind, M_bind. specialize (Hm w). destruct (m w) as [x w']. apply Hf. unfold silent in Hm. cbn in Hm. congruence.
Qed.
Lemma one_silent {A} (m : MW A) : within silent m -> one_reply m.
Proof. intros Hm w Hw. left. by rewrite Hm. Qed.

Lemma put_one d : (Outring.put OUT_RING_SIZE d []).2 = [] \/ (Outring.put OUT_RING_SIZE d []).2 = d.
Proof. unfold Outring.put. case_decide; [by left|by right]. Qed.
Lemma one_queue rq d : fine d -> one_reply (queue_bytes rq d;; mret (Done 0)).
Proof.
  intros Hd w Hw. unfold mbind, M_bind, queue_bytes. destruct (has_conn rq); cbn; rewrite Hw; [|by left].
  by destruct (put_one d) as [-> | ->]; [left|].
Qed.
Lemma one_done rq r : r.1 < 0 \/ fine (printed r) -> one_reply (done rq r).
Proof.
  intros Hr w Hw. rewrite done_world. cbn. rewrite Hw. unfold replied. case_decide as H; [|by left].
  destruct Hr as [Hr|Hr]; [lia|]. by destruct (put_one (printed r)) as [-> | ->]; [left|].
Qed.
(** The reply of an engine command, if its branch replies. *)
Definition one_branch (m : MW branch) : Prop := forall w, out w = [] ->
  match (m w).1 with Reply _ => fine (out (m w).2) | Rc _ _ => out (m w).2 = [] end.
Lemma put_whole cap d q : (length q + length d <= cap)%nat -> (Outring.put cap d q).2 = q ++ d.
Proof.
  intros H. unfold Outring.put. case_decide as Hd; [|done]. destruct Hd as [Hd|Hd]; [|lia].
  apply nil_length_inv in Hd. subst. by rewrite app_nil_r.
Qed.
Lemma put_bulk cap v : (length v + 16 <= cap)%nat -> (length (dec (Z.of_nat (length v))) <= 6)%nat ->
  (Outring.put cap crlf (Outring.put cap v (Outring.put cap (36 :: dec (Z.of_nat (length v)) ++ crlf) []).2).2).2 =
  show (VBulk v).
Proof.
  intros Hv Hd. assert (length crlf = 2%nat) as Hc by done.
  rewrite (put_whole cap (36 :: _)), (put_whole cap v), (put_whole cap crlf);
    [|rewrite ?length_app; cbn [length]; rewrite ?length_app; lia..].
  cbn [show show_item app]. by rewrite <- !app_assoc.
Qed.
Lemma one_bulk v (rq : request) : (length v + 16 <= OUT_RING_SIZE)%nat ->
  one_branch (queue_bytes rq (36 :: dec (Z.of_nat (length v)) ++ crlf);; queue_bytes rq v;; queue_bytes rq crlf;;
    mret (Reply (Done 0))).
Proof.
  intros Hv w Hw. assert (Z.of_nat OUT_RING_SIZE = 262144) as Hz by (vm_compute; reflexivity).
  assert (length (dec (Z.of_nat (length v))) <= 6)%nat as Hd.
  { apply (dec_length 5); [lia|]. cbn. lia. }
  rewrite !bind_run. destruct (has_conn rq) eqn:Hc.
  - cbn [mret M_ret fst snd]. rewrite !out_queue, Hw by done.
    rewrite put_bulk by done. by apply fine_value.
  - cbn [mret M_ret fst snd]. rewrite !no_queue by done. by left.
Qed.

Lemma branch_bind {A} (m : MW A) (f : A -> MW branch) : within silent m -> (forall x, one_branch (f x)) -> one_branch (m ≫= f).
Proof.
  intros Hm Hf w Hw. unfold mbind, M_bind. specialize (Hm w). destruct (m w) as [x w']. apply Hf. unfold silent in Hm. cbn in Hm. congruence.
Qed.
Lemma branch_reply (m : MW outcome) : one_reply m -> one_branch (o ← m; mret (Reply o)).
Proof. intros Hm w Hw. unfold mbind, M_bind. specialize (Hm w Hw). by destruct (m w). Qed.
Lemma branch_ext (m m' : MW branch) : (forall w, m' w = m w) -> one_branch m -> one_branch m'.
Proof. intros He Hm w. rewrite He. apply Hm. Qed.
Lemma branch_rc rc b : one_branch (mret (Rc rc b)).
Proof. by intros w. Qed.
Lemma branch_elsewhere : one_branch (mret (Reply Elsewhere)).
Proof. intros w Hw. by left. Qed.

Lemma fine_null_reply rq : one_reply (done rq (Resp.resp_null_bulk BUFFER_CAP)).
Proof. apply one_done. right. apply fine_null. Qed.
Lemma fine_integer_reply rq n : one_reply (done rq (integer n)).
Proof. apply one_done. right. apply fine_integer. Qed.
Lemma fine_error_reply rq m : line_ok (str "ERR " ++ str m) = true -> one_reply (done rq (error m)).
Proof. intros H. apply one_done. right. by apply fine_error. Qed.
Lemma fine_simple_reply rq m : line_ok (str m) = true -> one_reply (done rq (simple m)).
Proof. intros H. apply one_done. right. by apply fine_simple. Qed.
Lemma fine_ok_reply rq : one_reply (done rq ok_reply).
Proof. apply one_done. right. by apply (fine_value (VSimple (str "OK"))). Qed.
Lemma fine_bulk_reply rq v : one_reply (done rq (bulk_or_null v)).
Proof. apply one_done, fine_bulk_or_null. Qed.

Lemma get_one rq eng : one_branch (cmd_get E rq eng).
Proof.
  unfold cmd_get. apply branch_bind; [reading|]. intros [v|]; [|apply branch_reply, fine_null_reply].
  case_decide as Hv; [|by apply branch_reply, fine_error_reply].
  by apply one_bulk.
Qed.

Ltac replying :=
  cbn beta zeta;
  lazymatch goal with
  | |- forall _, _ => intros ?; replying
  | |- one_branch (mret (Rc _ _)) => apply branch_rc
  | |- one_branch (mret (Reply Elsewhere)) => apply branch_elsewhere
  | |- one_branch (o ← done _ _; mret (Reply o)) => apply branch_reply; replying
  | |- one_branch (cmd_get _ _ _) => apply get_one
  | |- one_branch (_ ≫= _) => apply branch_bind; [reading|replying]
  | |- one_branch (match ?x with _ => _ end) => destruct x; replying
  | |- one_reply (done _ (match ?x with _ => _ end)) => destruct x; replying
  | |- one_reply (match ?x with _ => _ end) => destruct x; replying
  | |- one_reply (done _ (error _)) => by apply fine_error_reply
  | |- one_reply (done _ (simple _)) => by apply fine_simple_reply
  | |- one_reply (done _ ok_reply) => apply fine_ok_reply
  | |- one_reply (done _ (integer _)) => apply fine_integer_reply
  | |- one_reply (done _ (bulk_or_null _)) => apply fine_bulk_reply
  | |- one_reply (done _ (Resp.resp_bulk _ _)) => apply one_done, fine_bulk
  | |- one_reply (mret _) => apply one_silent; reading
  | |- one_reply (_ ≫= _) => apply one_bind; [reading|replying]
  | |- _ => idtac
  end.

Lemma printed_bound r : (length (printed r) <= Z.to_nat r.1)%nat.
Proof. unfold printed. rewrite length_take. lia. Qed.

(** The branch of MGET. *)
Lemma branch_mget rq eng : one_branch (r ← handle_multi_get E rq eng; o ← done rq (built r "mget failed"); mret (Reply o)).
Proof.
  unfold handle_multi_get. case_decide as Ha.
  - apply (branch_ext (o ← done rq (error "mget failed"); mret (Reply o))); [done|]. by apply branch_reply, fine_error_reply.
  - apply (branch_ext (vs ← get_all E eng (tail (argv rq));
      o ← done rq (built (resp_array_from_values BUFFER_CAP vs) "mget failed"); mret (Reply o))).
    { intros w. by rewrite bind_assoc. }
    apply branch_bind; [reading|]. intros vs. apply branch_reply, one_done. right.
    apply fine_built; [|done]. intros b. apply fine_array.
Qed.

Lemma engine_branch_one rq eng opn : one_branch (engine_branch E rq eng opn).
Proof.
  unfold engine_branch. cbv zeta.
  repeat match goal with
  | |- one_branch (if is_cmd opn "MGET" then _ else _) => destruct (is_cmd opn "MGET"); [apply branch_mget|]
  | |- one_branch (if is_cmd opn ?n then ?m else _) => destruct (is_cmd opn n); [replying|]
  | |- one_branch (if ?b then ?m else _) => destruct b; [replying|]
  end.
  replying.
Qed.

Lemma publish_one g rq cmd : one_reply (publish E g rq cmd).
Proof. unfold publish. replying. Qed.
Lemma logged_one g rq ok : one_reply (done rq ok) -> one_reply (logged E g rq ok).
Proof. intros H. unfold logged. replying; done. Qed.
Lemma engine_dispatch_one g rq cmd : one_reply (engine_dispatch E g rq cmd).
Proof.
  intros w Hw. unfold engine_dispatch. cbv zeta. unfold mbind, M_bind at 1.
  pose proof (engine_branch_one rq (cmd_engine cmd) (strip_prefix cmd) w Hw) as Hb.
  destruct (engine_branch E rq (cmd_engine cmd) (strip_prefix cmd) w) as [[o|rc b] w1]; [done|]. cbn [fst snd] in Hb.
  revert w1 Hb. enough (one_reply (if decide (rc = 0) then committed E g rq cmd (strip_prefix cmd) (cmd_engine cmd)
    else if decide (rc = 1 /\ b = true)
    then done rq (if is_cmd (strip_prefix cmd) "SET" then ok_reply else error "not found or exists")
    else done rq (error "operation failed"))) as H by apply H.
  case_decide; [|replying]. unfold committed.
  do 3 (apply one_bind; [reading|]; intros _). apply publish_one.
Qed.

Lemma lock_reply_one g rq rc m : line_ok (str "ERR " ++ str m) = true -> one_reply (lock_reply E g rq rc m).
Proof. intros H. unfold lock_reply. repeat case_decide; [apply logged_one|..]; replying; by apply fine_error_reply. Qed.

Lemma control_one g rq cmd m : cmd <> str "DOCGETALL" -> control E g rq cmd = Some m -> one_reply m.
Proof.
  intros Hd Hm. unfold control in Hm.
  repeat match type of Hm with (if ?b then _ else _) = _ => destruct b eqn:?; [apply (inj Some) in Hm; subst m|] end;
    [..|discriminate Hm].
  all: try solve [replying].
  - unfold cmd_auth. replying. intros w. by destruct (has_conn rq).
  - apply one_done. right. apply printed_fine. by apply (fine_value (VArray [])).
  - replying. apply one_done. right. apply fine_built; [|done]. intros b Hb.
    assert (b = show (VArray [Some (str "id"); Some (str "1")])) as ->; [|by apply fine_value].
    apply (inj Some). rewrite <- Hb. vm_compute. reflexivity.
  - unfold cmd_lock. apply one_bind; [reading|]. intros rc. by apply lock_reply_one.
  - unfold cmd_unlock. apply one_bind; [reading|]. intros rc. by apply lock_reply_one.
  - unfold cmd_renew. apply one_bind; [reading|]. intros rc. by apply lock_reply_one.
  - unfold cmd_owner. replying.
  - unfold cmd_docset. replying. apply logged_one. replying.
  - unfold cmd_docget. replying.
  - unfold cmd_docdel. replying. apply logged_one. replying.
  - unfold cmd_docdrop. replying. apply logged_one. replying.
  - unfold cmd_docexist. replying.
  - unfold cmd_doccount. replying.
  - exfalso. apply Hd. match goal with H : is_cmd _ "DOCGETALL" && _ = true |- _ => apply andb_prop in H as [H _] end.
    by apply is_cmd_eq.
Qed.

Lemma fast_bulk_one rq : one_reply (fast_bulk E rq).
Proof.
  unfold fast_bulk. cbv zeta. apply one_bind; [reading|]. intros e. case_decide; [apply one_silent; reading|].
  intros w Hw. rewrite bind_run. cbn [mret M_ret fst snd]. destruct (has_conn rq) eqn:Hc; [|rewrite no_queue by done; by left].
  rewrite out_queue, Hw by done. unfold Outring.put. case_decide as Hp; [by left|]. cbn [snd app].
  assert (Z.of_nat OUT_RING_SIZE = 262144) as Hz by (vm_compute; reflexivity).
  rewrite fast_uitoa_dec.
  - by apply (fine_value (VBulk (blob rq 1))).
  - split; [lia|]. assert (Z.of_nat (length (blob rq 1)) <= 262144); [|lia].
    rewrite <- Hz. cbn [length] in Hp. rewrite !length_app in Hp. lia.
Qed.

(** The commands whose replies this development describes: not those of other
    parts (INFO, ROLE, SLAVEOF, CONFIG, the saves, REPLSYNC, which answers with
    raw backlog bytes, ...) and not VSEARCH. *)
Definition answered_here (rq : request) : Prop :=
  elsewhere rq (name_of rq) = false /\ strip_prefix (name_of rq) <> str "VSEARCH".

(** C16: Every reply is one RESP value.  When nothing waits to be sent on a
    connection, any command answered here other than DOCGETALL (so not INFO,
    ROLE, SLAVEOF, CONFIG, MEMSTAT, the saves and snapshot rules, the
    replication commands or VSEARCH) leaves in its output either
    nothing, or exactly one complete value (a status, an error without line
    breaks, an integer, a bulk string, a null, or an array of bulk strings and
    nulls whose length is the announced one), or a reply that filled the whole
    64 KB buffer. *)
Theorem replies_are_values x w : c_out x = [] -> answered_here (c_rq x) -> name_of (c_rq x) <> str "DOCGETALL" ->
  fine (out (serve E x w).2).
Proof.
  intros Ho _ Hd. unfold serve, handle_parsed_command.
  destruct (auth_gate _ _ _); [by apply (one_queue _ noauth (fine_value (VError (str "NOAUTH Authentication required.")) eq_refl))|].
  destruct (fast_echo _); [by apply fast_bulk_one|].
  destruct (fast_ping _).
  { case_decide; [by apply fast_bulk_one|]. by apply (one_queue _ _ (fine_value (VSimple (str "PONG")) eq_refl)). }
  case_decide; [by left|]. cbv zeta. fold (name_of (c_rq x)).
  destruct (readonly_gate _ _ _); [by apply fine_error_reply|].
  destruct (hash_fast _ _); [by apply engine_dispatch_one|].
  destruct (control _ _ _ _) as [m|] eqn:Em; [|by apply engine_dispatch_one]. by apply (control_one _ _ _ _ Hd Em).
Qed.

(** ** Locks and documents bypass the backlog *)

Definition unfed (w w' : W) : Prop := fed (log w') = fed (log w).
#[local] Instance unfed_preorder : PreOrder unfed.
Proof. split; [by intros w|]. intros w1 w2 w3. unfold unfed. congruence. Qed.
Lemma unfed_ret {A} (x : A) : within unfed (mret x).
Proof. by apply (within_ret _). Qed.
Lemma unfed_tick : within unfed (tick E).
Proof. by intros w. Qed.
Lemma unfed_get : within unfed get_tables.
Proof. by intros w. Qed.
Lemma unfed_set d : within unfed (set_tables d).
Proof. by intros w. Qed.
Lemma unfed_queue rq d : within unfed (queue_bytes rq d).
Proof. intros w. unfold queue_bytes. by destruct (has_conn rq). Qed.
Lemma unfed_emit ev : (forall r, ev <> Feed r) -> within unfed (emit ev).
Proof. intros H w. unfold unfed, emit. cbn. rewrite fed_app. destruct ev; cbn; rewrite ?app_nil_r; try done. by destruct (H raw0). Qed.
#[local] Hint Resolve unfed_ret unfed_tick unfed_get unfed_set unfed_queue : reads.
#[local] Hint Extern 2 (within unfed (emit _)) => apply unfed_emit; discriminate : reads.
#[local] Hint Unfold lock_reply logged cmd_lock cmd_unlock cmd_renew cmd_docset cmd_docdel cmd_docdrop : reads_defs.

(** The writes that are not engine commands. *)
Definition side_write (cmd : bytes) : bool := one_of cmd ["LOCK"; "UNLOCK"; "RENEW"; "DOCSET"; "DOCDEL"; "DOCDROP"].

Lemma side_branch g rq cmd : side_write cmd = true -> within unfed (branch_of E g rq cmd).
Proof.
  intros Hb. apply one_of_in in Hb as (n & Hn & ->).
  assert (answers (engine_branch E rq (cmd_engine (str n)) (strip_prefix (str n)))) as He.
  { unfold engine_branch. cbn in Hn. repeat destruct Hn as [<-|Hn]; try done; names; answering. }
  assert (within unfed (engine_dispatch E g rq (str n))) as Hd.
  { intros w. destruct (dispatch_reads g rq _ He w) as (_ & Hl & _). unfold unfed. by rewrite Hl. }
  assert (forall m, control E g rq (str n) = Some m -> within unfed m) as Hc.
  { unfold control, elsewhere, one_of. cbn in Hn. repeat destruct Hn as [<-|Hn]; try done; names; intros m;
      repeat match goal with |- (if ?b then _ else _) = _ -> _ => destruct b end; intros Hm; try discriminate Hm;
      apply (inj Some) in Hm; subst m; reading. }
  unfold branch_of. destruct (hash_fast _ _); [done|]. destruct (control _ _ _ _) as [m|]; [by apply Hc|done].
Qed.

(** Lock and document writes never reach the backlog.  Whatever becomes of a LOCK,
    UNLOCK, RENEW, DOCSET, DOCDEL or DOCDROP, also when it is acknowledged, logged
    and broadcast, the backlog is fed nothing: a replica that reconnects with a
    partial resync does not see it. *)
Theorem side_writes_not_fed x w : side_write (name_of (c_rq x)) = true ->
  fed (log (serve E x w).2) = fed (log w).
Proof.
  intros Hs. apply (handle_gated x w unfed); try done; [intros d; reading|reading|].
  intros _ _. by apply side_branch.
Qed.

End Gates.
End Gates.
