(* ===== verification/Scenario.v ===== *)
(** * Scenario: the theorems about commands on a concrete server

    A server with the four engines of the program, new tables, a clock that
    stands at 1000 ms and memory to spare.  Each theorem about commands is applied
    to a few requests on it. *)

From S2P Require Import Prelude Cstring Engine Hash Array Skiptable Rbtree Expire Doc Resp Outring Dump Dispatch Commands Gates.

Module Scenario.

Import Dispatch Commands Gates.
Import Dump (KVS_ENGINE_ARRAY, KVS_ENGINE_RBTREE, KVS_ENGINE_HASH, KVS_ENGINE_SKIPTABLE).

(** ** The server *)

#[local] Instance ae : Engine (Array.kvs_array_t * Hash.stats) Array.env := Array.array_engine 2 (conj eq_refl eq_refl).
#[local] Instance ac : Capacity (Array.kvs_array_t * Hash.stats) Array.env := Array.array_capacity 2 (conj eq_refl eq_refl).
#[local] Instance he : Engine (Hash.kvs_hash_t * Hash.stats) Hash.env := Hash.hash_engine 2 (conj eq_refl eq_refl).
#[local] Instance hc : Capacity (Hash.kvs_hash_t * Hash.stats) Hash.env := Hash.hash_capacity 2 (conj eq_refl eq_refl).
#[local] Instance hb : Blob (Hash.kvs_hash_t * Hash.stats) Hash.env := Hash.hash_blob 2 (conj eq_refl eq_refl).
#[local] Instance te : Engine Rbtree.rbtree bool := Rbtree.rbtree_engine.
#[local] Instance tc : Capacity Rbtree.rbtree bool := Rbtree.rbtree_capacity.
#[local] Instance se : Engine Skiptable.skiptable Skiptable.env := Skiptable.skiptable_engine.
#[local] Instance sc : Capacity Skiptable.skiptable Skiptable.env := Skiptable.skiptable_capacity.

Definition env0 : env :=
  Env Array.env_ok true Hash.env_ok Skiptable.env_ok true true true Doc.env_ok 1000 KVS_PERSIST_OK true.
Definition E0 (i : nat) : env := env0.

Definition tables0 : db :=
  Db ((Array.kvs_array_create 2 Array.env_ok).2, Hash.stats0) Rbtree.kvs_rbtree_create
    ((Hash.kvs_hash_create 2 Hash.env_ok).2, Hash.stats0) (Skiptable.kvs_skiptable_create Skiptable.env_ok).2
    (Expire.kvs_expire_create true true (Expire.mk_table ∅ 0 None 0 0 [] false 0)).2 (Doc.kvs_doc_create true (Doc.Table [] 0 0)).2.
Definition w0 : world := World tables0 [] false [] 0.

Lemma good0 : good 1000 w0.
Proof.
  destruct (Hash.hash_create_spec 2 Hash.env_ok _ ltac:(lia) eq_refl) as [Hh _]; [left; vm_compute; discriminate|].
  destruct (Array.array_create_spec 2 Array.env_ok _ ltac:(lia) eq_refl) as [Ha _];
    [intros h [= <-]; left; vm_compute; discriminate|].
  destruct (Skiptable.create_wf Skiptable.env_ok _ eq_refl) as [Hs _].
  assert (Rbtree.wf Rbtree.kvs_rbtree_create) as Ht by (exact (ex_intro _ 0%nat (ex_intro _ ∅ (ex_intro _ [] (proj1 Rbtree.create_holds))))).
  split; try assumption; try (vm_compute; split; reflexivity); try (vm_compute; reflexivity).
  exact (proj1 (Expire.expire_create_spec (Expire.mk_table ∅ 0 None 0 0 [] false 0) eq_refl eq_refl)).
Qed.

(** ** Requests *)

Definition master : cfg := Cfg true [] false false false.
Definition replica : cfg := Cfg false [] false false false.
Definition guarded : cfg := Cfg true (str "secret") false false false.

Definition request_of (ws : list string) : request :=
  Request true (map str ws) (Resp.encode (Resp.WArray (map str ws))) false.
Definition client (ws : list string) : call := Call master (request_of ws) [] false.
Arguments client ws%_string_scope.

(** Arguments of bytes, decided. *)
Definition okb (x : call) : bool := forallb (forallb (fun c => (0 <=? c) && (c <=? 255))) (argv (c_rq x)).
Lemma okb_ok x : okb x = true -> served_ok x.
Proof.
  unfold okb, served_ok, args_ok, bytes_ok. rewrite forallb_forall. intros H. apply Forall_forall. intros a Ha.
  apply list_elem_of_In, H in Ha. rewrite forallb_forall in Ha. apply Forall_forall. intros c Hc.
  apply list_elem_of_In, Ha in Hc. lia.
Qed.

Abbreviation serve := (serve E0).
Abbreviation run := (run E0).
Abbreviation admits := (@admitted (Array.kvs_array_t * Hash.stats) Rbtree.rbtree (Hash.kvs_hash_t * Hash.stats) Skiptable.skiptable).

Lemma client_admitted ws : admits (client ws).
Proof. split; [intros w _; unfold auth_gate|]; done. Qed.
Lemma client_logging ws : logging_master E0 (client ws).
Proof. by split_and!. Qed.

Lemma ring_size : Z.of_nat OUT_RING_SIZE = 262144.
Proof. vm_compute. reflexivity. Qed.
Lemma room_in n q : Z.of_nat (length q + n) <= 262144 -> room n q.
Proof. pose proof ring_size. unfold room. lia. Qed.
Lemma ticks_in n : (n <=? 1000)%nat = true -> (n <= 1000)%nat.
Proof. apply Nat.leb_le. Qed.

(** ** Locks *)

Definition lock_a : call := client ["LOCK"; "job"; "alice"; "5000"].
Definition lock_b : call := client ["lock"; "job"; "bob"; "5000"].
Definition between : list call := [client ["SET"; "job2"; "x"]; client ["UNLOCK"; "job"; "bob"]; client ["GET"; "job"]].

(** No write of the array's key [k], decided. *)
Definition spares (k tok : bytes) (x : call) : bool :=
  let cmd := name_of (c_rq x) in
  negb (bool_decide (cmd_engine cmd = KVS_ENGINE_ARRAY) && write_op (strip_prefix cmd) &&
        bool_decide (k ∈ branch_keys (c_rq x) (strip_prefix cmd))) &&
  negb (one_of cmd ["UNLOCK"; "RENEW"] && bool_decide (arg (c_rq x) 1 = k /\ arg (c_rq x) 2 = tok)).
Lemma spares_harmless k tok x : spares k tok x = true -> harmless (c_rq x) k tok.
Proof.
  unfold spares, harmless. fold (name_of (c_rq x)). intros H. apply andb_prop in H as [H1 H2]. split.
  - intros (He & Hw & Hk). rewrite bool_decide_eq_true_2, Hw, bool_decide_eq_true_2 in H1 by done. done.
  - intros Hu Hk Ht. rewrite Hu, bool_decide_eq_true_2 in H2 by done. done.
Qed.

Lemma lock_mutual_exclusion_witness :
  let w2 := run between (serve lock_a w0).2 in
  let w3 := (serve lock_b w2).2 in
  out w3 = str ":0" ++ crlf /\ abs w3 = abs w2.
Proof.
  destruct (lock_mutual_exclusion E0 1000 w0 lock_a between lock_b (str "job") (str "alice") (str "bob"))
    as (i & _ & H).
  - exact good0.
  - by apply okb_ok.
  - by apply okb_ok.
  - repeat first [apply Forall_nil_2 | apply Forall_cons_2; [split; [by apply okb_ok|by apply spares_harmless]|]].
  - by split.
  - by split.
  - apply client_admitted.
  - vm_compute. reflexivity.
  - by apply room_in.
  - apply ticks_in. vm_compute. reflexivity.
  - vm_compute. reflexivity.
  - refine (proj2 (H _)). intros j. vm_compute. reflexivity.
Defined.

(** ** Reads and writes *)

(** No write of the key [k] of [eng], decided. *)
Definition avoids (eng : Z) (k : bytes) (x : call) : bool :=
  let cmd := name_of (c_rq x) in
  negb (bool_decide (cmd_engine cmd = eng) && write_op (strip_prefix cmd) &&
        bool_decide (k ∈ branch_keys (c_rq x) (strip_prefix cmd))) &&
  negb (lock_name cmd && bool_decide (eng = KVS_ENGINE_ARRAY /\ k = arg (c_rq x) 1)).
Lemma avoids_write eng k x : avoids eng k x = true -> ~ may_write x eng k.
Proof.
  unfold avoids, may_write, writes, branch_writes. intros H. apply andb_prop in H as [H1 H2]. intros [(He & Hw & Hk)|(Hl & He)].
  - rewrite bool_decide_eq_true_2, Hw, bool_decide_eq_true_2 in H1 by done. done.
  - rewrite Hl, bool_decide_eq_true_2 in H2 by done. done.
Qed.

Definition hset : call := client ["HSET"; "k"; "value"].
Definition hget : call := client ["HGET"; "k"].
Definition others : list call := [client ["DEL"; "k"]; client ["HSET"; "l"; "x"]; client ["SETEX"; "k"; "10"; "y"]].


Lemma set_then_get_witness :
  out (serve hget (run others (serve hset w0).2)).2 = str "$5" ++ crlf ++ str "value" ++ crlf.
Proof.
  refine (set_then_get E0 1000 KVS_ENGINE_HASH (str "k") hset others hget w0 _ _ _ _ _ _ _ _ _ _ _ _ _ _).
  - by right; right; left.
  - exact good0.
  - by apply okb_ok.
  - by apply okb_ok.
  - apply client_admitted.
  - apply client_admitted.
  - apply logging_of_master, client_logging.
  - repeat first [apply Forall_nil_2 | apply Forall_cons_2; [split; [by apply okb_ok|by apply avoids_write]|]].
  - by split.
  - by split.
  - apply ticks_in. vm_compute. reflexivity.
  - vm_compute. reflexivity.
  - pose proof ring_size. change (length (value_arg (c_rq hset) KVS_ENGINE_HASH 2)) with 5%nat. lia.
  - by apply room_in.
Defined.

(** A connection with seven bytes of room, and a value of ten. *)
Definition full : bytes := replicate (Z.to_nat 262137) 120.
Lemma full_length : Z.of_nat (length full) = 262137.
Proof. unfold full. rewrite length_replicate. lia. Qed.
Definition w_ten : world := (serve (client ["SET"; "k"; "0123456789"]) w0).2.
Definition get_full : call := Call master (request_of ["GET"; "k"]) full false.

Lemma get_reply_torn_witness : out (serve get_full w_ten).2 = full ++ str "$10" ++ crlf ++ crlf.
Proof.
  pose proof full_length as Hf. pose proof ring_size as Hz.
  refine (get_reply_torn E0 1000 KVS_ENGINE_ARRAY (str "k") (str "0123456789") get_full w_ten _ _ _ _ _ _ _ _ _ _).
  - by left.
  - refine (proj1 (serve_safe E0 1000 (client ["SET"; "k"; "0123456789"]) w0 good0 _ _)); [by apply okb_ok|].
    apply ticks_in. vm_compute. reflexivity.
  - by apply okb_ok.
  - split; [intros w _; unfold auth_gate|]; done.
  - by split.
  - apply ticks_in. vm_compute. reflexivity.
  - vm_compute. reflexivity.
  - change (length (str "0123456789")) with 10%nat. lia.
  - apply room_in. change (c_out get_full) with full. change (length (bulk_header (str "0123456789")) + 2)%nat with 7%nat. lia.
  - unfold room. change (c_out get_full) with full.
    change (length (bulk_header (str "0123456789")) + length (str "0123456789"))%nat with 15%nat. lia.
Defined.

(** ** Replication *)

Definition script : list (list string) :=
  [["SET"; "a"; "1"]; ["HSET"; "b"; "2"]; ["DEL"; "zz"]; ["XMSET"; "x"; "1"; "y"; "2"]; ["GET"; "a"]; ["DEL"; "a"];
   ["HMOD"; "b"; "3"]]%string.
Definition applied_calls : list call :=
  map (fun ws => Call replica (Request false (map str ws) (Resp.encode (Resp.WArray (map str ws))) true) [] false)
    [["SET"; "a"; "1"]; ["HSET"; "b"; "2"]; ["XMSET"; "x"; "1"; "y"; "2"]; ["DEL"; "a"]; ["HMOD"; "b"; "3"]]%string.
Definition stream : bytes := concat (map (fun z => raw (c_rq z)) applied_calls).

Definition shortb (ws : list string) : bool :=
  (1 <=? length ws)%nat && (length ws <=? 32)%nat && forallb (fun a => Z.of_nat (length a) <=? 100) (map str ws).
Lemma client_calls ws : okb (client ws) = true -> engine_op (strip_prefix (name_of (request_of ws))) = true ->
  shortb ws = true -> @client_call (Array.kvs_array_t * Hash.stats) _ Rbtree.rbtree _ (Hash.kvs_hash_t * Hash.stats) _
    Skiptable.skiptable _ E0 (client ws).
Proof.
  intros H1 H2 H3. split; [by apply okb_ok|apply client_admitted|apply client_logging|done|done|].
  unfold shortb in H3. rewrite !andb_true_iff, !Nat.leb_le, forallb_forall in H3. destruct H3 as [[H3 H4] H5].
  change (argv (c_rq (client ws))) with (map str ws). split; [rewrite length_map; lia|]. apply Forall_forall. intros a Ha. apply list_elem_of_In, H5 in Ha.
  apply Z.leb_le in Ha. unfold Resp.PC_CTX_BUF_CAP. lia.
Qed.


(** ** Gates *)

Definition on_replica (ws : list string) : call := Call replica (request_of ws) [] false.
Arguments on_replica ws%_string_scope.
Definition intruders : list call :=
  [on_replica ["SET"; "b"; "1"]; on_replica ["HDEL"; "b"]; on_replica ["DOCSET"; "d"; "f"; "v"]; on_replica ["HGET"; "b"]].

Lemma replica_is_read_only_witness :
  let w := run applied_calls w0 in
  safe E0 nothing (abs w) (abs (run intruders w)) /\ log (run intruders w) = log w /\
  a_hash (abs w) !! str "b" = Some (str "3").
Proof.
  intros w. assert (good 1000 w) as Hg.
  { refine (proj1 (run_keeps E0 1000 (fun _ => True) served_ok _ applied_calls w0 good0 I _ _)).
    - intros x w1 Hx Hg1 _ Hn. split; [|done]. exact (proj1 (serve_safe E0 1000 x w1 Hg1 Hx Hn)).
    - repeat first [apply Forall_nil_2 | apply Forall_cons_2; [by apply okb_ok|]].
    - apply ticks_in. vm_compute. reflexivity. }
  destruct (replica_is_read_only E0 1000 intruders w Hg) as (_ & Hs & Hd & Hl).
  - repeat first [apply Forall_nil_2 | apply Forall_cons_2; [split; [by apply okb_ok|done..]|]].
  - apply ticks_in. vm_compute. reflexivity.
  - split_and!; [exact Hs|exact Hl|vm_compute; reflexivity].
Defined.

Definition stranger (ws : list string) : call := Call guarded (request_of ws) [] false.
Arguments stranger ws%_string_scope.
Lemma password_gate_witness :
  tables (serve (stranger ["SET"; "a"; "1"]) w0).2 = tables w0 /\
  authed (serve (stranger ["AUTH"; "secret"]) w0).2 = true /\ authed (serve (stranger ["AUTH"; "Secret"]) w0).2 = false.
Proof.
  split.
  - refine (proj1 (proj1 (password_gate E0 (stranger ["SET"; "a"; "1"]) w0 _ _ _ _))); done.
  - split; vm_compute; reflexivity.
Defined.

Lemma replies_are_values_witness : fine (out (serve (client ["MGET"; "a"; "b"]) (run (map client script) w0)).2) /\
  out (serve (client ["MGET"; "a"; "b"]) (run (map client script) w0)).2 = show (VArray [None; None]).
Proof.
  split; [refine (replies_are_values E0 (client ["MGET"; "a"; "b"]) (run (map client script) w0) _ _ _); done|].
  vm_compute. reflexivity.
Defined.

End Scenario.
